(* ===== verification/_CoqProject ===== *)
-Q . S2P
Prelude.v
StateM.v
GoStrings.v
BroadcastID.v
WireBase.v
GoUtf8.v
WireMedia.v
WireControl.v
RoomReader.v
WireVoice.v
WireRoom.v
VoiceTicket.v
RoomMessages.v
RoomNames.v
LocalRelay.v
RoomCode.v
RegData.v
RegEvents.v
RegVoice.v
RegOps.v
RegLife.v
RegCore.v
RegInv.v
RegSteps.v
RegSpec.v
RegVoiceSpec.v
RegDeliver.v
GF256.v
Parity.v
Netip.v
Moderation.v
BanTrie.v
BanSet.v
Dvr.v
DvrAudio.v
FanOut.v
WireSpec.v
Ingress.v
MapSum.v
Conc.v
HubData.v
HubOps.v
HubSubs.v
HubEnd.v
HubMedia.v
HubCore.v
HubInv.v
HubMachine.v
HubSteps.v
HubRun.v
HubLife.v
HubGone.v
HubAcc.v
HubCaps.v
HubSamples.v
LaneData.v
LaneOps.v
LaneInv.v
LaneSteps.v
LaneKf.v
LaneCar.v
LaneDrain.v
LaneRun.v
LaneSpec.v
LaneSamples.v
KubeFleet.v
KubeInv.v
KubeRules.v
KubeRun.v
ClusterData.v
ClusterOps.v
ClusterCode.v
ClusterSpec.v
ClusterSamples.v
RoomFleetData.v
RoomFleetOps.v
RoomFleetCode.v
RoomFleetSpec.v
RoomFleetSamples.v
