(* ===== verification/Prelude.v ===== *)
(** * gawk: a verification library

    gawk relays live game video. A broadcaster publishes over WebTransport to a
    relay, which fans the media out to viewers; rooms gather broadcasts and
    people, with voice. The relay is gawk-server (Go); file names below are
    under src/gawk-server/.

    ** The parts and how they interact

    - [wire/] is the protocol: datagrams, stream headers, reliable records, room
      and voice messages, erasure-coded parity. Everything else calls it.
    - [internal/hub] is the broadcast registry. A publisher claims the slot of a
      broadcast ID; what it sends goes through the ingest ([HandleDatagram],
      [IngestKeyframeStream], [IngestUplinkCarrier]) into the hub's caches, its
      ingress-loss window and the fan-out to its subscribers, some of whom read
      a DVR ring instead. Broadcasts end by grace timer, stop, stall, operator or
      takeover. It uses [internal/broadcastid] for codes.
    - [internal/roomsrv] is the room registry: rooms by code, participants,
      attached broadcasts, voice. It asks the hub whether a broadcast is live
      (an argument here), and signs tickets with [voice/].
    - [moderation/] is the ban list both ask before they admit anyone.
    - [internal/cluster] says which pod of a fleet is the origin of a broadcast:
      a Kubernetes Lease each, claimed, renewed, graced, released and swept by the
      pods' Coordinators. [internal/popsrv] reserves IDs for a PoP with the same Leases.
    - [internal/roomcluster] says which pod is the home of a room: a Kubernetes Room each,
      with a lease in its status, reserved when the room is minted, adopted by the pod a
      join reaches, written and swept by the pods' Stores, which tell the room registry.

    ** The files

    Shared: Prelude (Go outcomes, machine integers, byte strings, slices), StateM
    (the state monad and its two calculi: [keeps], what an operation leaves
    alone, and [runs], symbolic execution), GoStrings and GoUtf8 (strings,
    strconv, utf8), MapSum (sums over a map), Conc (goroutines over a shared state:
    programs of atomic actions, a scheduler, a rely-guarantee logic and its
    soundness).

    Wire: WireBase (constants, the [Codec] interfaces), WireMedia, WireControl
    (one Module per message), RoomReader (the sticky-error cursor of room.go),
    WireRoom, RoomMessages, WireVoice, LocalRelay; WireSpec has the theorems on
    the package as a whole. GF256 and Parity are wire/parity.go. VoiceTicket is
    voice/voice.go.

    Rooms: RoomCode and RoomNames (codes, unique names, participant IDs), RegData
    (the state), RegEvents, RegVoice, RegOps, RegLife (the operations of
    registry.go, voice.go, eventbus.go), RegCore, RegInv, RegSteps (the invariant
    and its preservation), RegSpec, RegVoiceSpec, RegDeliver (what the registry
    guarantees).

    Moderation: Netip, Moderation, BanTrie, BanSet.

    Hub: BroadcastID; Dvr and DvrAudio (the rings and cursors); FanOut
    (fanOutLocked, the lanes, stripes, parity prefix); Ingress (the ingress-loss
    window); HubData (the registry's state), HubOps (publishers), HubSubs
    (subscribers), HubEnd (removals, sweep, pump, totals), HubMedia (ingest);
    HubCore, HubInv (the invariant), HubMachine (the abstract machine), HubSteps,
    HubRun (the refinement), HubLife, HubGone, HubAcc, HubCaps (what the registry
    guarantees), HubSamples (concrete runs).

    Behind a subscriber's session: LaneData (its streams, keyframe lane and
    carriers), LaneOps (the goroutines: hub.go from [drain] to [Close], leg.go),
    LaneInv (the invariant, and what each goroutine promises the others),
    LaneSteps, LaneKf, LaneCar, LaneDrain, LaneRun (every goroutine keeps both),
    LaneSpec (what holds over every interleaving), LaneSamples (schedules).

    Fleets: KubeFleet (pods that share objects at the Kubernetes API server),
    KubeInv (the object machine, the invariant), KubeRules (a logic for the goroutines),
    KubeRun (what holds over every interleaving; an API server). ClusterData,
    ClusterOps (cluster.go and popsrv/reservations.go as goroutines), ClusterCode (the
    Lease machine, every goroutine makes only its steps), ClusterSpec, ClusterSamples
    (runs). The same for Rooms: RoomFleetData, RoomFleetOps (store.go), RoomFleetCode
    (the Room machine), RoomFleetSpec, RoomFleetSamples (runs, and three races).

    ** How state and operations correspond to the code

    A Go function that returns an error is a function to [outcome]: [Ok], a
    sentinel [Err], or [Fault], a panic (an index out of range). Integers are [Z]
    with the conversions written out ([uint8] .. [uint64], [int32]); counters and
    sequence numbers that cannot wrap in a run are left unbounded. A byte is a
    [Z] and a byte string a list of them.

    The two registries keep their objects behind pointers that outlive their
    registration, so each is a Record with heaps indexed by handles ([nat]) and an
    index by code, and an operation is a function in [State]. Each runs its
    critical sections under one mutex: an operation here is such a section, and
    where the Go function unlocks and goes on, the rest follows it or is an
    operation of its own ([grace_expired] / [EndRoom], [close_begin] /
    [close_fold], [timer_fires] / [timer_callback]). What happens outside (closing a session, a
    hook, the event bus) is appended to a log, in order. Goroutines are the interleaving
    of operations: [reachable] states are those any sequence of them gives. The
    clock and random bytes are arguments.

    The goroutines behind one session are modelled as such: a program is a tree of
    atomic actions (a section under kfMu, carMu or the registry's mutex, an access
    of an atomic, a call of the session), and the scheduler picks at each step
    who moves and what the session answers ([ok], the bytes a failed Write moved,
    the clock). A goroutine's name carries the locals its loop keeps; [code]
    gives each name its program. The last two counters of [writeKeyframe] and its
    deferred Done are one action. Write deadlines are not kept: any Write may
    fail. What Close does to the hub is in HubSubs, what it does to the lanes in
    LaneOps. The Coordinators of all pods are goroutines of one fleet in the same way; their
    actions are single calls of the API server (each may be refused, or carried
    out with its answer lost) and sections under a Coordinator's mutex. The
    informer of a pod sees the watch in order, as late as it may be. Labels and annotations of a
    Lease are fields, and all Leases in the store carry the gawk/lease label. Of a Room its
    spec and its status are kept; an attachment is its ID and label. The Stores and an
    administrator, who writes specs and deletes Rooms, are the goroutines there; what a Store
    does to its pod's registry is appended to a log.

    ** What the theorems show

    - wire: every message the encoders accept parses back, no parser panics on
      any input, the probe-URL rule is a
      grammar, unknown room events are told from broken ones.
    - parity: the tables are the field GF(2^8), and losing at most as many chunks
      as there are symbols loses nothing.
    - hub registry: the operations refine an abstract machine; reachable states
      are well formed; a live broadcast survives everything but its own
      publisher, a takeover, an operator and the stall sweep; takeovers win and
      the deposed are inert; removals remove and tell; abandoned broadcasts end;
      caps hold; no counter is lost.
    - hub media: the fan-out reaches exactly whom it should, stripes partition
      the deltas, overflow spares control datagrams, the DVR ring is a suffix of
      history within its bounds and a viewer reads it in order, without lost
      wake-ups; the ingress window counts exactly what was lost.
    - subscriber goroutines: over every interleaving the keyframe lane has one
      stream in flight and exact counters, a leg or a viewer holds a bounded number of
      the peer's streams and leaks none, and the far end of a leg reads exactly
      what arrived of what was written; notices of undeliverable video are paced.
    - fleet: every move of any goroutine is at most one atomic step of one Lease;
      no two pods hold a broadcast at the same generation; a pod's cache shows the
      Leases as they were at one moment; a claim answers from the Lease as it is. The same
      of Rooms, whose homes also survive whatever late events say; an adoption answers from
      the Room as it is and hands it to the registry.
    - rooms: reachable registries are well formed; a broadcast is in one room;
      empty rooms end; events reach every member in sequence; joins and grants on
      every branch; tickets are exact and spent by their first use; the unbounded
      name searches end.
    - moderation: the tries are finite maps with longest-prefix lookup, and a ban
      holds whatever spelling is used, until it expires or is removed.

    ** Fuel

    Loops that are not structural take fuel: [observeChunk]'s advance gets one
    more than the window, the DVR eviction the number of GOPs held, the name
    loops what [name_loops_terminate] shows to be enough, [carrier_loop] one more
    than the bytes left, [SubscriberClose] two levels (the legs a primary reaps
    reap nothing). Where running out is visible it is a value
    of its own ([None], [Fault]), which the theorems exclude.

    ** Parameters

    Code that is not the program's: Unicode upper-casing and the text forms of
    net/netip, HMAC-SHA256, SHA-256, the MAC of owner tokens; the Kubernetes API
    (the class [ObjApi], its documented laws [ObjApiLaws], with an instance in
    KubeRun). internal/mediaprobe
    is still a parameter of HubMedia.

    ** Not modelled

    - The drains of a DVR subscriber ([drainDVR] with the pacer of dvr_pacer.go,
      in floats, and its sidebands), the bandwidth limiter (floats; here any
      answer), and the per-broadcast rows of [Stats].
    - internal/transport, the link of internal/popsrv and
      internal/popclient: network I/O around the registries. The starting of informers and
      tickers, and the read of a room's Secret at join time ([AttachSecret]).
      Configuration, metrics, consoles, TLS.
    - The other programs: gawk-admin, gawk-telemetry, the publisher library and
      the clients. *)
From stdpp Require Export base list numbers option tactics strings sets.
From Stdlib Require Export ZArith Lia.
From Stdlib Require Ascii String.

#[global] Open Scope Z_scope.

(** ** Outcomes of Go code

    A Go function of this program returns a value ([Ok]), returns one of the
    package's sentinel errors ([Err]; [errors.Is] sees the sentinel, the
    formatted text around it is not modelled), or panics ([Fault]: an index or
    slice expression out of range). *)
Inductive outcome (E A : Type) : Type :=
  | Ok (a : A)
  | Err (e : E)
  | Fault.
Arguments Ok {E A} _.
Arguments Err {E A} _.
Arguments Fault {E A}.

#[export] Instance outcome_ret E : MRet (outcome E) := λ A a, Ok a.
#[export] Instance outcome_bind E : MBind (outcome E) := λ A B f o,
  match o with Ok a => f a | Err e => Err e | Fault => Fault end.

#[export] Instance outcome_fmap E : FMap (outcome E) := λ A B f o,
  match o with Ok a => Ok (f a) | Err e => Err e | Fault => Fault end.

Lemma outcome_fmap_total {E A B} (f : A → B) (o : outcome E A) :
  o ≠ Fault → f <$> o ≠ Fault.
Proof. by destruct o. Qed.
Lemma outcome_fmap_Ok {E A B} (f : A → B) (o : outcome E A) b :
  f <$> o = Ok b → ∃ a, o = Ok a ∧ b = f a.
Proof. destruct o; naive_solver. Qed.
Lemma Ok_inj {E A} (a b : A) : Ok (E:=E) a = Ok b → a = b.
Proof. by injection 1. Qed.
Lemma outcome_bind_Ok {E A B} (f : A → outcome E B) (o : outcome E A) b :
  o ≫= f = Ok b → ∃ a, o = Ok a ∧ f a = Ok b.
Proof. destruct o; naive_solver. Qed.

#[export] Instance outcome_eq_dec {E A} `{EqDecision E, EqDecision A} :
  EqDecision (outcome E A).
Proof. solve_decision. Defined.

Declare Scope gawk_scope.
#[global] Open Scope gawk_scope.

(** Go's early return: [if b { return e }; k]. *)
Notation "'reject' b 'with' e ; k" := (if b then Err e else k)
  (at level 200, b at level 100, e at level 100, k at level 200,
   right associativity) : gawk_scope.

(** ** Byte slices *)

(** A Go [[]byte] or [string]: its bytes, each an integer in [0, 256). *)
Abbreviation bytes := (list Z).

(** A Go string literal. *)
Definition str (s : String.string) : bytes :=
  map (λ c, Z.of_N (Ascii.N_of_ascii c)) (String.list_ascii_of_string s).

Definition is_byte (b : Z) : Prop := 0 ≤ b < 256.
Abbreviation bytes_ok := (Forall is_byte).

(** Go's [len]. *)
Definition zlen {A} (l : list A) : Z := Z.of_nat (length l).

(** [b[i]] *)
Definition index {E} (b : bytes) (i : Z) : outcome E Z :=
  if (0 <=? i) && (i <? zlen b) then Ok (b !!! Z.to_nat i) else Fault.

(** [b[lo:hi]]: Go checks [hi] against the capacity; reading past the length
    is counted as a fault here, so a definition that never faults never reads
    past the slice it was given. *)
Definition slice {E A} (b : list A) (lo hi : Z) : outcome E (list A) :=
  if (0 <=? lo) && (lo <=? hi) && (hi <=? zlen b)
  then Ok (take (Z.to_nat (hi - lo)) (drop (Z.to_nat lo) b)) else Fault.

(** [b[lo:]] *)
Definition slice_from {E A} (b : list A) (lo : Z) : outcome E (list A) :=
  slice b lo (zlen b).

(** Go conversions to unsigned integers of width 8, 16, 32 and 64. *)
Definition uint8 (z : Z) : Z := z mod 2 ^ 8.
Definition uint16 (z : Z) : Z := z mod 2 ^ 16.
Definition uint32 (z : Z) : Z := z mod 2 ^ 32.
Definition uint64 (z : Z) : Z := z mod 2 ^ 64.
Definition int64 (z : Z) : Z := (z + 2 ^ 63) mod 2 ^ 64 - 2 ^ 63.
Definition int32 (z : Z) : Z := (z + 2 ^ 31) mod 2 ^ 32 - 2 ^ 31.
Definition int16 (z : Z) : Z := (z + 2 ^ 15) mod 2 ^ 16 - 2 ^ 15.

Abbreviation is_uint n z := (0 ≤ z < 2 ^ n).

(** ** [encoding/binary.BigEndian] *)

(** byte [k] of [v], counted from the least significant one *)
Definition be_byte (v k : Z) : Z := Z.land (Z.shiftr v (8 * k)) 255.

(** the [n] low bytes of [v], most significant first *)
Fixpoint be_encode (n : nat) (v : Z) : bytes :=
  match n with
  | O => []
  | S n' => be_byte v (Z.of_nat n') :: be_encode n' v
  end.

Fixpoint be_decode_acc (acc : Z) (l : bytes) : Z :=
  match l with
  | [] => acc
  | b :: l' => be_decode_acc (Z.lor (Z.shiftl acc 8) b) l'
  end.
Definition be_decode (l : bytes) : Z := be_decode_acc 0 l.

Definition AppendUint16 (dst : bytes) (v : Z) : bytes := dst ++ be_encode 2 v.
Definition AppendUint32 (dst : bytes) (v : Z) : bytes := dst ++ be_encode 4 v.
Definition AppendUint64 (dst : bytes) (v : Z) : bytes := dst ++ be_encode 8 v.

(** [BigEndian.UintN(b)] reads the first [n] bytes and panics on fewer. *)
Definition be_uint {E} (n : nat) (b : bytes) : outcome E Z :=
  if Z.of_nat n <=? zlen b then Ok (be_decode (take n b)) else Fault.
Definition Uint16 {E} (b : bytes) : outcome E Z := be_uint 2 b.
Definition Uint32 {E} (b : bytes) : outcome E Z := be_uint 4 b.
Definition Uint64 {E} (b : bytes) : outcome E Z := be_uint 8 b.

(** ** Lemmas: lengths, indexing, slicing *)

(** *** Serial arithmetic: the signed distance of two wrapped counters *)
Lemma int32_serial a b : - 2 ^ 31 ≤ a - b < 2 ^ 31 →
  int32 (uint32 (uint32 a - uint32 b)) = a - b.
Proof.
  intros. unfold int32, uint32. rewrite <- Zminus_mod, Z.add_mod_idemp_l by lia.
  rewrite Z.mod_small; lia.
Qed.
Lemma uint32_add a b : uint32 (uint32 a + b) = uint32 (a + b).
Proof. unfold uint32. by rewrite Z.add_mod_idemp_l. Qed.
Lemma uint32_inj a b : - 2 ^ 31 ≤ a - b < 2 ^ 31 → uint32 a = uint32 b → a = b.
Proof.
  intros Hab He. pose proof (int32_serial a b Hab) as H. rewrite He, Z.sub_diag in H.
  change (int32 (uint32 0)) with 0 in H. lia.
Qed.

(** *** Sixty-four-bit conversions *)
Lemma int64_range v : - 2 ^ 63 ≤ int64 v < 2 ^ 63.
Proof. unfold int64. pose proof (Z.mod_pos_bound (v + 2 ^ 63) (2 ^ 64) ltac:(lia)). lia. Qed.
Lemma int64_uint64 z : - 2 ^ 63 ≤ z < 2 ^ 63 → int64 (uint64 z) = z.
Proof.
  intros. unfold int64, uint64. rewrite Z.add_mod_idemp_l by lia.
  rewrite Z.mod_small; lia.
Qed.
Lemma uint64_int64 u : is_uint 64 u → uint64 (int64 u) = u.
Proof.
  intros. unfold int64, uint64.
  rewrite Zminus_mod_idemp_l. replace (u + 2 ^ 63 - 2 ^ 63) with u by lia.
  by apply Z.mod_small.
Qed.

Lemma zlen_nil {A} : zlen (@nil A) = 0.
Proof. done. Qed.
Lemma zlen_cons {A} (x : A) l : zlen (x :: l) = 1 + zlen l.
Proof. unfold zlen. simpl. lia. Qed.
Lemma zlen_app {A} (l k : list A) : zlen (l ++ k) = zlen l + zlen k.
Proof. unfold zlen. rewrite length_app. lia. Qed.
Lemma zlen_nonneg {A} (l : list A) : 0 ≤ zlen l.
Proof. unfold zlen. lia. Qed.
Lemma zlen_be_encode n v : zlen (be_encode n v) = Z.of_nat n.
Proof. induction n; [done|]. simpl be_encode. rewrite zlen_cons, IHn. lia. Qed.
Lemma zlen_zero {A} (l : list A) : zlen l = 0 → l = [].
Proof. destruct l; [done|]. rewrite zlen_cons. pose proof (zlen_nonneg l). lia. Qed.

Create Rewrite HintDb zlen.
#[export] Hint Rewrite @zlen_nil @zlen_cons @zlen_app zlen_be_encode : zlen.

(** Normalise lengths, remember that they are not negative, call [lia]. *)
Ltac zlen_pos :=
  repeat match goal with
  | |- context [zlen ?l] =>
      lazymatch goal with _ : 0 ≤ zlen l |- _ => fail | _ => pose proof (zlen_nonneg l) end
  | _ : context [zlen ?l] |- _ =>
      lazymatch goal with _ : 0 ≤ zlen l |- _ => fail | _ => pose proof (zlen_nonneg l) end
  end.
Ltac zlia := autorewrite with zlen in *; zlen_pos; lia.

Lemma index_ok {E} (b : bytes) i :
  0 ≤ i < zlen b → index (E:=E) b i = Ok (b !!! Z.to_nat i).
Proof. intros. unfold index. by rewrite (proj2 (andb_true_iff _ _)) by lia. Qed.

Lemma slice_ok {E A} (b : list A) lo hi :
  0 ≤ lo → lo ≤ hi → hi ≤ zlen b →
  slice (E:=E) b lo hi = Ok (take (Z.to_nat (hi - lo)) (drop (Z.to_nat lo) b)).
Proof.
  intros. unfold slice.
  replace ((0 <=? lo) && (lo <=? hi) && (hi <=? zlen b)) with true by lia. done.
Qed.

Lemma slice_from_ok {E A} (b : list A) lo :
  0 ≤ lo ≤ zlen b → slice_from (E:=E) b lo = Ok (drop (Z.to_nat lo) b).
Proof.
  intros. unfold slice_from. rewrite slice_ok by lia. f_equal.
  apply take_ge. rewrite length_drop. unfold zlen. lia.
Qed.

Lemma be_uint_ok {E} n b :
  Z.of_nat n ≤ zlen b → be_uint (E:=E) n b = Ok (be_decode (take n b)).
Proof. intros. unfold be_uint. by rewrite (proj2 (Z.leb_le _ _)). Qed.

(** The three-part form used by the round trips: the slice between two
    offsets of [a ++ m ++ c] is [m]. *)
Lemma slice_mid {E A} (a m c : list A) lo hi :
  lo = zlen a → hi = zlen a + zlen m →
  slice (E:=E) (a ++ m ++ c) lo hi = Ok m.
Proof.
  intros -> ->. rewrite slice_ok by (autorewrite with zlen; zlen_pos; lia).
  f_equal. unfold zlen.
  replace (Z.to_nat (_ + _ - _)) with (length m) by lia.
  rewrite Nat2Z.id, drop_app_length. by rewrite take_app_length.
Qed.
Lemma slice_init {E A} (a b : list A) n : n = zlen a → slice (E:=E) (a ++ b) 0 n = Ok a.
Proof. intros ->. apply (slice_mid [] a b); zlia. Qed.
Lemma slice_from_mid {E A} (a m : list A) lo :
  lo = zlen a → slice_from (E:=E) (a ++ m) lo = Ok m.
Proof.
  intros ->. rewrite slice_from_ok by zlia.
  f_equal. unfold zlen. by rewrite Nat2Z.id, drop_app_length.
Qed.

(** ** Lemmas: big-endian integers *)

Lemma be_byte_range v k : is_byte (be_byte v k).
Proof.
  unfold be_byte, is_byte. change 255 with (Z.ones 8).
  rewrite Z.land_ones by lia. apply Z.mod_pos_bound. lia.
Qed.

Lemma be_encode_bytes_ok n v : bytes_ok (be_encode n v).
Proof. induction n; constructor; [apply be_byte_range | done]. Qed.

Lemma length_be_encode n v : length (be_encode n v) = n.
Proof. induction n; simpl; congruence. Qed.

Lemma lor_shiftl_add a b k :
  0 ≤ k → 0 ≤ b < 2 ^ k → Z.lor (Z.shiftl a k) b = a * 2 ^ k + b.
Proof.
  intros Hk Hb. rewrite <- Z.shiftl_mul_pow2 by lia.
  symmetry. apply Z.add_nocarry_lor.
  apply Z.bits_inj_iff'. intros i Hi. rewrite Z.bits_0, Z.land_spec.
  destruct (decide (i < k)); [by rewrite Z.shiftl_spec_low by lia|].
  assert (2 ^ k ≤ 2 ^ i) by (apply Z.pow_le_mono_r; lia).
  rewrite (proj2 (Z.testbit_false b i Hi)) by (by rewrite Z.div_small by lia).
  apply andb_false_r.
Qed.

Lemma be_byte_div v k :
  0 ≤ k → be_byte v k = (v / 2 ^ (8 * k)) mod 2 ^ 8.
Proof.
  intros. unfold be_byte. change 255 with (Z.ones 8).
  by rewrite Z.land_ones, Z.shiftr_div_pow2 by lia.
Qed.

Lemma be_decode_acc_encode n : ∀ acc v,
  be_decode_acc acc (be_encode n v) =
  acc * 2 ^ (8 * Z.of_nat n) + v mod 2 ^ (8 * Z.of_nat n).
Proof.
  induction n as [|n IH]; intros acc v; [simpl; rewrite Z.mod_1_r; lia|].
  cbn [be_encode be_decode_acc]. rewrite IH.
  rewrite lor_shiftl_add by (try lia; apply be_byte_range).
  rewrite be_byte_div by lia.
  replace (8 * Z.of_nat (S n)) with (8 * Z.of_nat n + 8) by lia.
  rewrite (Z.pow_add_r 2 _ 8) by lia.
  rewrite (Z.rem_mul_r v) by lia. ring.
Qed.

Lemma be_decode_encode n v :
  is_uint (8 * Z.of_nat n) v → be_decode (be_encode n v) = v.
Proof. intros. unfold be_decode. rewrite be_decode_acc_encode, Z.mod_small; lia. Qed.

Lemma be_decode_acc_split l : ∀ acc, bytes_ok l →
  be_decode_acc acc l = acc * 2 ^ (8 * zlen l) + be_decode_acc 0 l
  ∧ is_uint (8 * zlen l) (be_decode_acc 0 l).
Proof.
  induction l as [|b l IH]; intros acc Hl; [change (8 * zlen []) with 0; cbn; lia|].
  apply Forall_cons_iff in Hl as [Hb Hl]. cbn [be_decode_acc].
  change (Z.shiftl 0 8) with 0. rewrite Z.lor_0_l.
  rewrite lor_shiftl_add by (try lia; apply Hb).
  destruct (IH (acc * 2 ^ 8 + b) Hl) as [-> Hr].
  destruct (IH b Hl) as [-> _].
  rewrite zlen_cons. replace (8 * (1 + zlen l)) with (8 * zlen l + 8) by lia.
  pose proof (zlen_nonneg l). rewrite Z.pow_add_r by lia.
  unfold is_byte in Hb. split; [ring|].
  assert (0 < 2 ^ (8 * zlen l)) by (apply Z.pow_pos_nonneg; lia).
  change (2 ^ 8) with 256. nia.
Qed.

Lemma be_decode_range l : bytes_ok l → is_uint (8 * zlen l) (be_decode l).
Proof. intros H. by destruct (be_decode_acc_split l 0 H). Qed.

Lemma be_encode_high n v m :
  0 ≤ v → be_encode n (m * 2 ^ (8 * Z.of_nat n) + v) = be_encode n v.
Proof.
  intros Hv. revert m. induction n as [|n IH]; intros m; [done|].
  cbn [be_encode].
  replace (m * 2 ^ (8 * Z.of_nat (S n)) + v)
    with (m * 2 ^ 8 * 2 ^ (8 * Z.of_nat n) + v)
    by (replace (8 * Z.of_nat (S n)) with (8 + 8 * Z.of_nat n) by lia;
        rewrite Z.pow_add_r by lia; ring).
  f_equal; [|apply IH].
  rewrite !be_byte_div by lia.
  rewrite Z.div_add_l by (apply Z.pow_nonzero; lia).
  rewrite Z.add_comm, Z.mod_add by lia. done.
Qed.

Lemma be_encode_decode l : bytes_ok l → be_encode (length l) (be_decode l) = l.
Proof.
  unfold be_decode. induction l as [|b l IH]; intros Hl; [done|].
  apply Forall_cons_iff in Hl as [Hb Hl].
  cbn [length be_encode be_decode_acc].
  change (Z.shiftl 0 8) with 0. rewrite Z.lor_0_l.
  destruct (be_decode_acc_split l b Hl) as [Heq Hr]. unfold zlen in *.
  rewrite Heq.
  rewrite be_encode_high, IH by (done || lia). f_equal.
  assert (0 < 2 ^ (8 * Z.of_nat (length l))) by (apply Z.pow_pos_nonneg; lia).
  rewrite be_byte_div by lia. rewrite Z.div_add_l by lia.
  rewrite (Z.div_small (be_decode_acc 0 l)) by exact Hr.
  rewrite Z.add_0_r. by apply Z.mod_small.
Qed.
Lemma be_uint_exact {E} n (b : bytes) v :
  bytes_ok b → zlen b = Z.of_nat n → be_uint (E:=E) n b = Ok v →
  is_uint (8 * Z.of_nat n) v ∧ be_encode n v = b.
Proof.
  intros Hb Hn. rewrite be_uint_ok by lia. intros [= <-].
  assert (length b = n) as <- by (unfold zlen in Hn; lia). rewrite take_ge by done.
  split; [by apply be_decode_range|by apply be_encode_decode].
Qed.

#[export] Hint Resolve be_encode_bytes_ok be_byte_range : core.

(** ** Decoding an explicit list of bytes

    The parsers slice literal headers; after simplification they see the
    bytes of [be_encode] one by one. *)
Lemma be_decode_16 v :
  is_uint 16 v → be_decode [be_byte v 1; be_byte v 0] = v.
Proof. exact (be_decode_encode 2 v). Qed.
Lemma be_decode_32 v :
  is_uint 32 v →
  be_decode [be_byte v 3; be_byte v 2; be_byte v 1; be_byte v 0] = v.
Proof. exact (be_decode_encode 4 v). Qed.
Lemma be_decode_64 v :
  is_uint 64 v →
  be_decode [be_byte v 7; be_byte v 6; be_byte v 5; be_byte v 4;
             be_byte v 3; be_byte v 2; be_byte v 1; be_byte v 0] = v.
Proof. exact (be_decode_encode 8 v). Qed.

(** ** Stepping through a parser *)

(** Offsets that depend on a field length: peel explicit bytes, then stop at
    the end of the segment. *)
Lemma drop_cons_Z {A} (x : A) l n :
  0 < n → drop (Z.to_nat n) (x :: l) = drop (Z.to_nat (n - 1)) l.
Proof. intros. by replace (Z.to_nat n) with (S (Z.to_nat (n - 1))) by lia. Qed.
Lemma drop_app_Z {A} (l k : list A) n :
  zlen l ≤ n → drop (Z.to_nat n) (l ++ k) = drop (Z.to_nat (n - zlen l)) k.
Proof. unfold zlen. intros. rewrite drop_app_ge by lia. f_equal. lia. Qed.
Lemma take_cons_Z {A} (x : A) l n :
  0 < n → take (Z.to_nat n) (x :: l) = x :: take (Z.to_nat (n - 1)) l.
Proof. intros. by replace (Z.to_nat n) with (S (Z.to_nat (n - 1))) by lia. Qed.
Lemma lookup_total_cons_Z (x : Z) l n :
  0 < n → (x :: l) !!! Z.to_nat n = l !!! Z.to_nat (n - 1).
Proof. intros. by replace (Z.to_nat n) with (S (Z.to_nat (n - 1))) by lia. Qed.
Lemma lookup_total_app_Z (l k : bytes) n :
  zlen l ≤ n → (l ++ k) !!! Z.to_nat n = k !!! Z.to_nat (n - zlen l).
Proof. unfold zlen. intros. rewrite lookup_total_app_r by lia. f_equal. lia. Qed.
Lemma to_nat_zero n : n = 0 → Z.to_nat n = 0%nat.
Proof. by intros ->. Qed.
Lemma take_app_Z {A} (l k : list A) n :
  n = zlen l → take (Z.to_nat n) (l ++ k) = l.
Proof. intros ->. unfold zlen. by rewrite Nat2Z.id, take_app_length. Qed.
Lemma take_all_Z {A} (l : list A) n : zlen l ≤ n → take (Z.to_nat n) l = l.
Proof. unfold zlen. intros. apply take_ge. lia. Qed.

Ltac is_nat_literal n :=
  lazymatch n with O => idtac | S ?m => is_nat_literal m end.

(** Reduce [Z.to_nat] of literals, then [take], [drop] and indexing at
    computed offsets. *)
Ltac eval_to_nat :=
  repeat match goal with
  | |- context [Z.to_nat ?k] =>
      lazymatch k with context [zlen _] => fail | _ => idtac end;
      let n := eval vm_compute in (Z.to_nat k) in
      is_nat_literal n; change (Z.to_nat k) with n
  | |- context [drop (Z.to_nat ?n) (?x :: ?l)] => rewrite (drop_cons_Z x l n) by zlia
  | |- context [drop (Z.to_nat ?n) (?l ++ ?k)] => rewrite (drop_app_Z l k n) by zlia
  | |- context [(?x :: ?l) !!! Z.to_nat ?n] => rewrite (lookup_total_cons_Z x l n) by zlia
  | |- context [(?l ++ ?k) !!! Z.to_nat ?n] => rewrite (lookup_total_app_Z l k n) by zlia
  | |- context [take (Z.to_nat ?n) (?l ++ ?k)] => rewrite (take_app_Z l k n) by zlia
  | |- context [drop (Z.to_nat ?n) ?l] => rewrite (to_nat_zero n) by zlia
  | |- context [?l !!! Z.to_nat ?n] => rewrite (to_nat_zero n) by zlia
  | |- context [take (Z.to_nat ?n) (?x :: ?l)] => rewrite (take_cons_Z x l n) by zlia
  | |- context [take (Z.to_nat ?n) ?l] => rewrite (to_nat_zero n) by zlia
  | |- context [take (Z.to_nat ?n) ?l] => rewrite (take_all_Z l n) by zlia
  end.
Ltac parse_simpl :=
  repeat progress (eval_to_nat; cbn [take drop app length lookup_total list_lookup_total be_encode
                    mbind outcome_bind mret outcome_ret fmap outcome_fmap fst snd];
                   rewrite ?drop_0, <- ?app_assoc).
Ltac parse_simpl_in H :=
  repeat match type of H with
  | context [Z.to_nat ?k] =>
      let n := eval vm_compute in (Z.to_nat k) in
      change (Z.to_nat k) with n in H
  end;
  cbn [take drop app length lookup_total list_lookup_total be_encode
       mbind outcome_bind mret outcome_ret fmap outcome_fmap fst snd] in H.
(** One step of a parser run on a known input: refute an early return, read
    a byte, take a slice, decode an integer, or sequence. *)
Ltac parse_step :=
  match goal with
  | |- context [if ?b then Err _ else _] =>
      replace b with false by (symmetry; first [zlia | reflexivity])
  | |- context [index ?l ?i] => rewrite (index_ok l i) by zlia
  | |- context [slice_from ?l ?i] => rewrite (slice_from_ok l i) by zlia
  | |- context [slice ?l ?i ?j] => rewrite (slice_ok l i j) by zlia
  | |- context [be_uint ?n ?l] => rewrite (be_uint_ok n l) by zlia
  end; parse_simpl.
Ltac parse_run := parse_simpl; unfold Uint16, Uint32, Uint64; repeat parse_step.

(** Reads inside the bounds, on an input known only to be bytes. *)
Lemma index_spec {E} (b : bytes) i :
  bytes_ok b → 0 ≤ i < zlen b → ∃ v, index (E:=E) b i = Ok v ∧ is_byte v.
Proof.
  intros Hb Hi. rewrite index_ok by done. eexists; split; [done|].
  apply Forall_lookup_total_1; [done|]. unfold zlen in *. lia.
Qed.
Lemma slice_spec {E} (b : bytes) lo hi :
  bytes_ok b → 0 ≤ lo → lo ≤ hi → hi ≤ zlen b →
  ∃ m, slice (E:=E) b lo hi = Ok m ∧ bytes_ok m ∧ zlen m = hi - lo.
Proof.
  intros. rewrite slice_ok by done. eexists; split; [done|]. split.
  - by apply Forall_take, Forall_drop.
  - unfold zlen in *. rewrite length_take, length_drop. lia.
Qed.
Lemma slice_from_spec {E} (b : bytes) lo :
  bytes_ok b → 0 ≤ lo → lo ≤ zlen b →
  ∃ m, slice_from (E:=E) b lo = Ok m ∧ bytes_ok m ∧ zlen m = zlen b - lo.
Proof. intros. unfold slice_from. by apply slice_spec. Qed.
Lemma be_uint_spec {E} n (b : bytes) :
  bytes_ok b → Z.of_nat n ≤ zlen b →
  ∃ v, be_uint (E:=E) n b = Ok v ∧ is_uint (8 * Z.of_nat n) v.
Proof.
  intros Hb Hn. rewrite be_uint_ok by done. eexists; split; [done|].
  replace (Z.of_nat n) with (zlen (take n b)).
  - by apply be_decode_range, Forall_take.
  - unfold zlen in *. rewrite length_take. lia.
Qed.

(** A parser run on an unknown input never faults: split on every test, and
    show each read inside the bounds the tests established. *)
Ltac nofault_step :=
  match goal with
  | |- (if ?b then _ else _) ≠ Fault => destruct b eqn:?
  | |- Ok _ ≠ Fault => discriminate
  | |- Err _ ≠ Fault => discriminate
  | H : bytes_ok ?l |- context [@index ?E ?l ?i] =>
      destruct (index_spec (E:=E) l i H) as (? & -> & ?); [unfold is_byte in *; zlia|]
  | H : bytes_ok ?l |- context [@slice ?E _ ?l ?i ?j] =>
      destruct (slice_spec (E:=E) l i j H) as (? & -> & ? & ?);
        [unfold is_byte in *; zlia..|]
  | H : bytes_ok ?l |- context [@slice_from ?E _ ?l ?i] =>
      destruct (slice_from_spec (E:=E) l i H) as (? & -> & ? & ?);
        [unfold is_byte in *; zlia..|]
  | H : bytes_ok ?l |- context [@be_uint ?E ?n ?l] =>
      let Hr := fresh "Hr" in let w := eval vm_compute in (8 * Z.of_nat n) in
      destruct (be_uint_spec (E:=E) n l H) as (? & -> & Hr); [zlia|];
      change (8 * Z.of_nat n) with w in Hr
  end; cbn [mbind outcome_bind].
Ltac nofault := unfold Uint16, Uint32, Uint64; cbn [mbind outcome_bind];
  repeat nofault_step.

(** An appender that returned [Ok] passed its guards. *)
Ltac append_guards :=
  repeat match goal with
  | |- (if ?b then Err _ else _) = Ok _ → _ => destruct b eqn:?; [discriminate|]
  end;
  intros [= <-]; unfold AppendUint16, AppendUint32, AppendUint64;
  rewrite <- ?app_assoc; eexists; split; [done|].

(** Take a list of known length apart into its elements. *)
Lemma zlen_pos_inv {A} (l : list A) n :
  zlen l = n → 0 < n → ∃ x l', l = x :: l' ∧ zlen l' = n - 1.
Proof. destruct l as [|x l']; zlen_pos; intros; [zlia|]. exists x, l'. split; [done|zlia]. Qed.
Ltac explode H :=
  match type of H with
  | zlen ?l = ?n =>
      let x := fresh "b" in let l' := fresh "l" in
      tryif (assert_succeeds (assert (0 < n) by (vm_compute; reflexivity))) then
        (apply zlen_pos_inv in H as (x & l' & -> & H); [|vm_compute; reflexivity];
         let m := eval vm_compute in (n - 1) in change (n - 1) with m in H; explode H)
      else (apply zlen_zero in H; subst l)
  end.

(** Case analysis on a byte by enumeration. *)
Lemma byte_forall (P : Z → bool) :
  forallb P (map Z.of_nat (seq 0 256)) = true → ∀ b, is_byte b → P b = true.
Proof.
  intros H b Hb. rewrite forallb_forall in H. apply H.
  apply in_map_iff. exists (Z.to_nat b). unfold is_byte in Hb.
  split; [lia|]. apply in_seq. lia.
Qed.
