(* ===== verification/StateM.v ===== *)
(** The state monad the stateful components are written in: a Go method on a
    mutable receiver is a function from the receiver's state to its result and
    the state after it. *)
From S2P Require Export Prelude.

Definition State (S A : Type) : Type := S → A * S.
#[export] Instance st_ret S : MRet (State S) := λ _ a s, (a, s).
#[export] Instance st_bind S : MBind (State S) := λ _ _ f m s, let '(a, s') := m s in f a s'.

Definition gets {S A} (f : S → A) : State S A := λ s, (f s, s).
Definition modify {S} (f : S → S) : State S unit := λ s, (tt, f s).
Definition skip {S} : State S unit := mret tt.
(** a loop for its effects *)
Fixpoint forM {S A} (l : list A) (f : A → State S unit) : State S unit :=
  match l with [] => skip | x :: l' => _ ← f x; forM l' f end.

(** Running a program one step at a time *)
Lemma bind_run {S A B} (m : State S A) (f : A → State S B) s a s' : m s = (a, s') → (m ≫= f) s = f a s'.
Proof. intros E. unfold mbind, st_bind. by rewrite E. Qed.
Lemma bind_gets {S A B} (h : S → A) (f : A → State S B) s : (gets h ≫= f) s = f (h s) s.
Proof. done. Qed.
Lemma bind_modify {S B} (h : S → S) (f : unit → State S B) s : (modify h ≫= f) s = f tt (h s).
Proof. done. Qed.
Lemma bind_assoc {S A B C} (m : State S A) (f : A → State S B) (h : B → State S C) s :
  ((m ≫= f) ≫= h) s = (m ≫= λ a, f a ≫= h) s.
Proof. unfold mbind, st_bind. by destruct (m s). Qed.

(** Steps of a program that preserve a property of the state. *)
Definition preserves {S A} (I : S → Prop) (m : State S A) : Prop := ∀ s, I s → I (snd (m s)).

Section Preserves.
Context {S : Type} (I : S → Prop).

Lemma preserves_ret {A} (a : A) : preserves I (mret a).
Proof. by intros s. Qed.
Lemma preserves_gets {A} (f : S → A) : preserves I (gets f).
Proof. by intros s. Qed.
Lemma preserves_skip : preserves I skip.
Proof. by intros s. Qed.
Lemma preserves_modify f : (∀ s, I s → I (f s)) → preserves I (modify f).
Proof. intros Hf s. apply Hf. Qed.
Lemma preserves_bind {A B} (m : State S A) (f : A → State S B) :
  preserves I m → (∀ a, preserves I (f a)) → preserves I (m ≫= f).
Proof.
  intros Hm Hf s Hs. unfold mbind, st_bind. specialize (Hm s Hs).
  destruct (m s) as [a s']. by apply Hf.
Qed.
Lemma preserves_forM {A} (l : list A) (f : A → State S unit) :
  (∀ a, preserves I (f a)) → preserves I (forM l f).
Proof.
  intros Hf. induction l; cbn [forM]; [apply preserves_skip|by apply preserves_bind].
Qed.
Lemma preserves_if {A} (b : bool) (m1 m2 : State S A) :
  preserves I m1 → preserves I m2 → preserves I (if b then m1 else m2).
Proof. by destruct b. Qed.
End Preserves.

(** ** Symbolic execution on a projection of the state

    Most of what an operation does leaves alone the part of the state an
    invariant speaks of. [core_of] extracts that part; [keeps m]: [m] does not
    change it; [runs k m Q]: from any state whose core is [k], [m] ends with a
    result and a core in [Q]. *)
Definition keeps {S K} (core_of : S → K) {A} (m : State S A) : Prop := ∀ g, core_of (snd (m g)) = core_of g.
Definition runs {S K} (core_of : S → K) {A} (k : K) (m : State S A) (Q : A → K → Prop) : Prop :=
  ∀ g, core_of g = k → Q (fst (m g)) (core_of (snd (m g))).

Section Core.
Context {S K : Type} {core_of : S → K}.
#[local] Notation keeps := (keeps core_of).
#[local] Notation runs := (runs core_of).

Lemma keeps_ret {A} (a : A) : keeps (mret a).
Proof. done. Qed.
Lemma keeps_gets {A} (f : S → A) : keeps (gets f).
Proof. done. Qed.
Lemma keeps_bind {A B} (m : State S A) (f : A → State S B) :
  keeps m → (∀ a, keeps (f a)) → keeps (m ≫= f).
Proof.
  intros Hm Hf g. unfold mbind, st_bind. specialize (Hm g). destruct (m g) as [a g'].
  rewrite (Hf a g'). exact Hm.
Qed.
Lemma keeps_forM {A} (l : list A) (f : A → State S unit) : (∀ a, keeps (f a)) → keeps (forM l f).
Proof. intros Hf. induction l; cbn [forM]; [apply keeps_ret|by apply keeps_bind]. Qed.
Lemma keeps_modify f : (∀ g, core_of (f g) = core_of g) → keeps (modify f).
Proof. intros Hf g. apply Hf. Qed.

Lemma runs_mono {A} k (m : State S A) (Q Q' : A → K → Prop) :
  runs k m Q → (∀ a k', Q a k' → Q' a k') → runs k m Q'.
Proof. intros Hm HQ g Hg. by apply HQ, Hm. Qed.
Lemma runs_ret {A} k (a : A) (Q : A → K → Prop) : Q a k → runs k (mret a) Q.
Proof. by intros HQ g <-. Qed.
Lemma runs_bind {A B} k (m : State S A) (f : A → State S B) Q :
  runs k m (λ a k', runs k' (f a) Q) → runs k (m ≫= f) Q.
Proof.
  intros Hm g Hg. specialize (Hm g Hg). unfold mbind, st_bind. destruct (m g) as [a g'].
  by apply (Hm g').
Qed.
Lemma runs_keep {A B} k (m : State S A) (f : A → State S B) Q :
  keeps m → (∀ a, runs k (f a) Q) → runs k (m ≫= f) Q.
Proof. intros Hm Hf. apply runs_bind. intros g Hg. rewrite (Hm g), Hg. apply Hf. Qed.
Lemma runs_keep_last {A} k (m : State S A) (Q : A → K → Prop) : keeps m → (∀ a, Q a k) → runs k m Q.
Proof. intros Hm HQ g Hg. rewrite (Hm g), Hg. apply HQ. Qed.
Lemma runs_gets {A B} k (f : S → A) (c : A → State S B) Q :
  (∀ g, core_of g = k → runs k (c (f g)) Q) → runs k (gets f ≫= c) Q.
Proof. intros Hc. apply runs_bind. intros g Hg. cbn. rewrite Hg. by apply Hc. Qed.
Lemma runs_modify {B} k (f : S → S) (c : unit → State S B) Q k' :
  (∀ g, core_of g = k → core_of (f g) = k') → runs k' (c tt) Q → runs k (modify f ≫= c) Q.
Proof. intros Hf Hc. apply runs_bind. intros g Hg. cbn. by rewrite (Hf g Hg). Qed.
Lemma runs_forM {A} (I : K → Prop) (l : list A) (f : A → State S unit) :
  (∀ a k, I k → a ∈ l → runs k (f a) (λ _, I)) → ∀ k, I k → runs k (forM l f) (λ _, I).
Proof.
  induction l as [|a l IH]; intros Hf k Hk; cbn [forM]; [by apply runs_ret|].
  apply runs_bind. eapply runs_mono; [apply Hf; [done|by left]|]. intros [] k' Hk'.
  apply IH; [|done]. intros b k'' ? ?. apply Hf; [done|by right].
Qed.
End Core.

(** alter, seen through a projection of the values *)
From stdpp Require Import gmap.
Lemma fmap_alter_same {A B} (h : A → B) (f : A → A) (k : nat) (s : gmap nat A) :
  (∀ x, h (f x) = h x) → h <$> alter f k s = h <$> s.
Proof.
  intros Hf. apply map_eq. intros i. rewrite !lookup_fmap. destruct (decide (i = k)) as [->|Hn].
  - rewrite lookup_alter_eq. destruct (s !! k); cbn; [by rewrite Hf|done].
  - by rewrite lookup_alter_ne.
Qed.
Lemma alter_twice {A} (f h : A → A) (k : nat) (s : gmap nat A) : alter h k (alter f k s) = alter (h ∘ f) k s.
Proof.
  apply map_eq. intros i. destruct (decide (i = k)) as [->|]; [|by rewrite !lookup_alter_ne].
  rewrite !lookup_alter_eq. by destruct (s !! k).
Qed.
Lemma fmap_alter_to {A B} (h : A → B) (f : A → A) (i : nat) (s : gmap nat A) b b' :
  (h <$> s) !! i = Some b → (∀ x, h x = b → h (f x) = b') → h <$> alter f i s = <[i := b']> (h <$> s).
Proof.
  intros Hi Hf. apply map_eq. intros j. rewrite lookup_fmap. destruct (decide (j = i)) as [->|Hn].
  - rewrite lookup_insert_eq, lookup_alter_eq. rewrite lookup_fmap in Hi.
    destruct (s !! i) as [x|]; [|done]. cbn in *. injection Hi as Hx. by rewrite (Hf x).
  - by rewrite lookup_insert_ne, lookup_alter_ne, lookup_fmap by done.
Qed.
