(* ===== verification/GoStrings.v ===== *)
(** The functions of Go's [strings], [strconv] and [encoding/hex] the program
    uses, on byte strings. *)
From S2P Require Export Prelude.
#[local] Open Scope Z_scope.

(** ** [strings.TrimSpace]

    The UTF-8 encodings of Unicode's White_Space characters, as
    [unicode.IsSpace] lists them. *)
Definition spaces : list bytes :=
  [[9]; [10]; [11]; [12]; [13]; [32]; [0xC2; 0x85]; [0xC2; 0xA0]; [0xE1; 0x9A; 0x80];
   [0xE2; 0x80; 0xA8]; [0xE2; 0x80; 0xA9]; [0xE2; 0x80; 0xAF]; [0xE2; 0x81; 0x9F];
   [0xE3; 0x80; 0x80]] ++ map (λ k, [0xE2; 0x80; 0x80 + Z.of_nat k]) (seq 0 11).

Fixpoint strip (p s : bytes) : option bytes :=
  match p, s with
  | [], _ => Some s
  | x :: p', y :: s' => if x =? y then strip p' s' else None
  | _ :: _, [] => None
  end.
Fixpoint strip_any (ps : list bytes) (s : bytes) : option bytes :=
  match ps with
  | [] => None
  | p :: ps' => match strip p s with Some r => Some r | None => strip_any ps' s end
  end.
(** every round removes at least a byte: the length is fuel enough *)
Fixpoint trim_loop (fuel : nat) (ps : list bytes) (s : bytes) : bytes :=
  match fuel with
  | O => s
  | S fuel' => match strip_any ps s with Some r => trim_loop fuel' ps r | None => s end
  end.
Definition TrimLeft (s : bytes) : bytes := trim_loop (length s) spaces s.
Definition TrimRight (s : bytes) : bytes :=
  rev (trim_loop (length s) (map (@rev Z) spaces) (rev s)).
Definition TrimSpace (s : bytes) : bytes := TrimRight (TrimLeft s).

Example trim_space :
  TrimSpace (str "  a b	"%string ++ [0xE2; 0x80; 0xAF]) = str "a b"%string.
Proof. reflexivity. Qed.

(** A string with no white space at either end. *)
Definition trimmed (s : bytes) : Prop :=
  strip_any spaces s = None ∧ strip_any (map (@rev Z) spaces) (rev s) = None.

Lemma trim_loop_stuck n ps s : strip_any ps s = None → trim_loop n ps s = s.
Proof. intros H. destruct n; [done|]. cbn. by rewrite H. Qed.

Lemma trimmed_TrimSpace s : trimmed s → TrimSpace s = s.
Proof.
  intros [Hl Hr]. unfold TrimSpace, TrimLeft, TrimRight.
  rewrite (trim_loop_stuck _ _ _ Hl), (trim_loop_stuck _ _ _ Hr). apply rev_involutive.
Qed.

(** ** [encoding/hex] and case *)

(** [hex.EncodeToString] *)
Definition hex_digit (d : Z) : Z := if d <? 10 then 48 + d else 87 + d.
Definition hex (s : bytes) : bytes :=
  flat_map (λ c, [hex_digit (Z.shiftr c 4); hex_digit (Z.land c 15)]) s.
(** [strings.ToLower] on the ASCII codes it is applied to *)
Definition ascii_lower (c : Z) : Z := if (65 <=? c) && (c <=? 90) then c + 32 else c.

Lemma hex_length s : zlen (hex s) = 2 * zlen s.
Proof.
  unfold hex. induction s as [|c s IH]; [done|]. cbn [flat_map app]. zlia.
Qed.

(** ** [strconv.Atoi]

    An optional sign and decimal digits, in the range of [int]; [None] is any
    error. *)
Definition is_digit (c : Z) : bool := (48 <=? c) && (c <=? 57).
Fixpoint digits_value (acc : Z) (s : bytes) : option Z :=
  match s with
  | [] => Some acc
  | c :: s' => if is_digit c then digits_value (10 * acc + (c - 48)) s' else None
  end.
Definition parse_digits (s : bytes) : option Z :=
  match s with [] => None | _ => digits_value 0 s end.
Definition int_range (v : Z) : bool := (- 2 ^ 63 <=? v) && (v <? 2 ^ 63).
Definition signed_digits (s : bytes) : option Z :=
  match s with
  | [] => None
  | c :: s' =>
      if c =? 43 then parse_digits s'
      else if c =? 45 then option_map Z.opp (parse_digits s')
      else parse_digits s
  end.
Definition Atoi (s : bytes) : option Z :=
  match signed_digits s with
  | Some v => if int_range v then Some v else None
  | None => None
  end.

Example atoi_examples :
  (Atoi (str "1500"%string), Atoi (str "-07"%string), Atoi (str ""%string),
   Atoi (str "12ms"%string), Atoi (str "+"%string), Atoi (str "9223372036854775808"%string)) =
  (Some 1500, Some (-7), None, None, None, None).
Proof. reflexivity. Qed.

Lemma Atoi_range s v : Atoi s = Some v → - 2 ^ 63 ≤ v < 2 ^ 63.
Proof.
  unfold Atoi. case_match; [|done]. case_match eqn:Hr; [|done]. intros [= <-].
  unfold int_range in Hr. lia.
Qed.
