(* ===== verification/BroadcastID.v ===== *)
(** internal/broadcastid: the 31-symbol alphabet of broadcast codes, minting
    by rejection sampling and normalization of user input. *)
From S2P Require Export Prelude.

Definition Alphabet : bytes := str "23456789ABCDEFGHJKMNPQRSTUVWXYZ"%string.
Definition Length := 6.

(** [strings.IndexByte(Alphabet, c) != -1] *)
Definition in_alphabet (c : Z) : bool := bool_decide (c ∈ Alphabet).

(** ASCII upper case, byte by byte *)
Definition ascii_upper (c : Z) : Z := if (97 <=? c) && (c <=? 122) then c - 32 else c.
Definition is_ascii (s : bytes) : bool := forallb (λ c, c <? 128) s.

Section Normalize.
(** [strings.ToUpper] on a string with a byte outside ASCII goes through the
    Unicode tables of the standard library, which are a parameter. *)
Context (unicode_upper : bytes → bytes).

Definition ToUpper (s : bytes) : bytes :=
  if is_ascii s then map ascii_upper s else unicode_upper s.

(** [None] is [ErrInvalidID]. *)
Definition Normalize (s : bytes) : option bytes :=
  let s := ToUpper s in
  if negb (zlen s =? Length) then None
  else if forallb in_alphabet s then Some s else None.

(** A normalized code: six symbols of the alphabet. *)
Definition valid_id (s : bytes) : Prop := zlen s = Length ∧ Forall (.∈ Alphabet) s.

Lemma Normalize_valid s id : Normalize s = Some id → valid_id id.
Proof.
  unfold Normalize. destruct (negb _) eqn:Hl; [done|].
  destruct (forallb _ _) eqn:Hf; [|done]. intros [= <-]. split; [lia|].
  apply Forall_forall. intros x Hx%list_elem_of_In.
  rewrite forallb_forall in Hf. specialize (Hf x Hx). by apply bool_decide_eq_true in Hf.
Qed.

Lemma alphabet_upper c : c ∈ Alphabet → ascii_upper c = c ∧ c < 128.
Proof.
  intros Hc. assert (Hall : Forall (λ c, ascii_upper c = c ∧ c < 128) Alphabet)
    by (repeat constructor; done).
  rewrite Forall_forall in Hall. by apply Hall.
Qed.

Lemma valid_upper id : Forall (.∈ Alphabet) id → ToUpper id = id.
Proof.
  intros Ha. unfold ToUpper.
  assert (is_ascii id = true) as ->.
  { apply forallb_forall. intros x Hx%list_elem_of_In. rewrite Forall_forall in Ha.
    destruct (alphabet_upper x); [by apply Ha|]. lia. }
  induction Ha as [|c id Hc _ IH]; [done|]. cbn.
  destruct (alphabet_upper c Hc) as [-> _]. by rewrite IH.
Qed.

Lemma Normalize_id id : valid_id id → Normalize id = Some id.
Proof.
  intros [Hl Ha]. unfold Normalize. rewrite (valid_upper id Ha).
  rewrite Hl. cbn. assert (forallb in_alphabet id = true) as ->; [|done].
  apply forallb_forall. intros x Hx%list_elem_of_In. rewrite Forall_forall in Ha.
  apply bool_decide_eq_true. by apply Ha.
Qed.

(** Normalization is idempotent: a stored code is its own key. *)
Lemma Normalize_idempotent s id : Normalize s = Some id → Normalize id = Some id.
Proof. intros H. by apply Normalize_id, (Normalize_valid s). Qed.

End Normalize.

(** ** Minting

    [Mint] reads 12 random bytes at a time and keeps those below 248. The
    argument is the sequence of blocks [rand.Read] fills; where it ends,
    [rand.Read] fails, and [None] is [Mint] returning that error. *)
Fixpoint mint_block (buf : bytes) (id : bytes) : bytes :=
  match buf with
  | [] => id
  | val :: buf' =>
      if val <? 248 then
        let id := id ++ [Alphabet !!! Z.to_nat (val mod 31)] in
        if zlen id =? Length then id else mint_block buf' id
      else mint_block buf' id
  end.
Fixpoint mint_loop (blocks : list bytes) (id : bytes) : option bytes :=
  if zlen id <? Length then
    match blocks with
    | [] => None
    | buf :: blocks' => mint_loop blocks' (mint_block buf id)
    end
  else Some id.
Definition Mint (blocks : list bytes) : option bytes := mint_loop blocks [].

Lemma mint_symbol val : 0 ≤ val → Alphabet !!! Z.to_nat (val mod 31) ∈ Alphabet.
Proof.
  intros. apply list_elem_of_lookup_total_2.
  change (length Alphabet) with 31%nat.
  pose proof (Z.mod_pos_bound val 31). lia.
Qed.

Lemma mint_block_inv buf : ∀ id,
  Forall (λ v, 0 ≤ v) buf → Forall (.∈ Alphabet) id → zlen id < Length →
  Forall (.∈ Alphabet) (mint_block buf id) ∧ zlen (mint_block buf id) ≤ Length.
Proof.
  induction buf as [|v buf IH]; intros id Hb Hid Hl; cbn [mint_block]; [split; [done|lia]|].
  apply Forall_cons_iff in Hb as [Hv Hb].
  case_match; [|by apply IH].
  assert (Forall (.∈ Alphabet) (id ++ [Alphabet !!! Z.to_nat (v mod 31)])).
  { apply Forall_app_2; [done|]. constructor; [by apply mint_symbol|done]. }
  case_match; [split; [done|lia]|]. apply IH; [done|done|zlia].
Qed.

Lemma mint_loop_valid blocks : ∀ id out,
  Forall (Forall (λ v, 0 ≤ v)) blocks → Forall (.∈ Alphabet) id → zlen id ≤ Length →
  mint_loop blocks id = Some out → valid_id out.
Proof.
  induction blocks as [|buf blocks IH]; intros id out Hb Hid Hl; cbn [mint_loop].
  - case_match; [done|]. intros [= <-]. split; [lia|done].
  - apply Forall_cons_iff in Hb as [Hb0 Hb]. case_match.
    + destruct (mint_block_inv buf id Hb0 Hid) as [H1 H2]; [lia|]. by apply IH.
    + intros [= <-]. split; [lia|done].
Qed.

(** What the loop computes: the first six random bytes below 248, each mapped
    to its symbol. *)
Definition symbol (v : Z) : Z := Alphabet !!! Z.to_nat (v mod 31).
Definition accepted (blocks : list bytes) : bytes := filter (λ v, v < 248) (concat blocks).

Lemma mint_block_filter buf : ∀ id, zlen id < Length →
  mint_block buf id =
  take (Z.to_nat Length) (id ++ map symbol (filter (λ v, v < 248) buf)).
Proof.
  induction buf as [|v buf IH]; intros id Hl; cbn [mint_block].
  { rewrite app_nil_r. symmetry. apply take_all_Z. lia. }
  rewrite filter_cons. case_match eqn:Hv.
  - rewrite decide_True by lia. cbn [map]. fold (symbol v).
    rewrite (cons_middle (symbol v) id (map _ _)), app_assoc. case_match eqn:He.
    + symmetry. apply take_app_Z. lia.
    + apply IH. zlia.
  - rewrite decide_False by lia. by apply IH.
Qed.

Lemma mint_loop_filter blocks : ∀ id, zlen id ≤ Length →
  mint_loop blocks id =
  if Length <=? zlen id + zlen (accepted blocks)
  then Some (take (Z.to_nat Length) (id ++ map symbol (accepted blocks))) else None.
Proof.
  unfold accepted. induction blocks as [|buf blocks IH]; intros id Hl; cbn [mint_loop concat].
  - change (zlen (filter (λ v, v < 248) [])) with 0. cbn [map]. rewrite app_nil_r. case_match.
    + by replace (Length <=? _) with false by lia.
    + replace (Length <=? _) with true by lia. by rewrite take_all_Z by lia.
  - rewrite filter_app, map_app. set (f := filter _ buf). set (g := filter _ (concat blocks)).
    case_match.
    + rewrite mint_block_filter by lia. fold f.
      set (s := id ++ map symbol f).
      assert (Hs : zlen s = zlen id + zlen f)
        by (unfold s; rewrite zlen_app; unfold zlen; rewrite length_map; lia).
      rewrite (app_assoc id), IH; fold s.
      2: { unfold zlen. rewrite length_take. unfold Length. lia. }
      destruct (Z.le_gt_cases (zlen s) Length).
      * rewrite (take_all_Z s) by lia. by rewrite zlen_app, Hs, Z.add_assoc.
      * assert (Hlt : zlen (take (Z.to_nat Length) s) = Length)
          by (unfold zlen in *; rewrite length_take; lia).
        rewrite Hlt, zlen_app. fold g. pose proof (zlen_nonneg g).
        rewrite !(proj2 (Z.leb_le _ _)) by lia. f_equal.
        rewrite take_app_Z by done. rewrite take_app_le; [done|]. unfold zlen in *. lia.
    + assert (Hlid : zlen id = Length) by lia. zlen_pos.
      rewrite !(proj2 (Z.leb_le _ _)) by lia. by rewrite take_app_Z by done.
Qed.

(** ** Properties *)

(** [Mint] returns the first six random bytes below 248, each mapped to a
    symbol, as soon as there are six of them; every symbol of the alphabet is
    the image of exactly eight of those 248 bytes, so uniform bytes give
    uniform codes. *)
Theorem Mint_uniform blocks :
  Mint blocks = (if Length <=? zlen (accepted blocks)
                 then Some (map symbol (take 6 (accepted blocks))) else None) ∧
  Forall (λ c, length (filter (λ v, symbol v = c) (map Z.of_nat (seq 0 248))) = 8%nat) Alphabet.
Proof.
  split.
  - unfold Mint. rewrite mint_loop_filter by (vm_compute; discriminate).
    change (zlen []) with 0. rewrite Z.add_0_l. case_match; [|done].
    cbn [app]. by rewrite <- firstn_map.
  - apply Forall_forall. intros c Hc%list_elem_of_In.
    assert (Hall : forallb (λ c, (length (filter (λ v, symbol v = c)
      (map Z.of_nat (seq 0 248))) =? 8)%nat) Alphabet = true) by (vm_compute; reflexivity).
    rewrite forallb_forall in Hall. by apply Nat.eqb_eq, Hall.
Qed.

(** The normal forms are the valid codes: what [Normalize] returns is six
    symbols of the alphabet, a valid code is its own normal form, and its
    lower-case spelling names the same code. *)
Theorem Normalize_canonical up id :
  ((∃ s, Normalize up s = Some id) ↔ valid_id id) ∧
  (valid_id id → Normalize up id = Some id ∧
     Normalize up (map (λ c, if (65 <=? c) && (c <=? 90) then c + 32 else c) id) = Some id).
Proof.
  split.
  - split; [intros [s Hs]; by eapply Normalize_valid|].
    intros Hv. exists id. by apply Normalize_id.
  - intros Hv. split; [by apply Normalize_id|].
    set (low := λ c, if (65 <=? c) && (c <=? 90) then c + 32 else c).
    assert (Hall : Forall (λ c, ascii_upper (low c) = c ∧ low c < 128) Alphabet)
      by (unfold Alphabet; cbn; repeat constructor).
    rewrite Forall_forall in Hall. pose proof Hv as [_ Ha].
    assert (Hup : ToUpper up (map low id) = ToUpper up id); [|unfold Normalize at 1; rewrite Hup;
      by apply (Normalize_id up)].
    assert (Hasc : ∀ s, Forall (λ c, c < 128) s → is_ascii s = true).
    { intros s Hs. apply forallb_forall. intros x Hx%list_elem_of_In.
      rewrite Forall_forall in Hs. specialize (Hs x Hx). lia. }
    rewrite (valid_upper up id Ha). unfold ToUpper. rewrite Hasc.
    + clear Hv Hasc. induction Ha as [|c id Hc _ IH]; [done|]. cbn [map].
      destruct (Hall c Hc) as [-> _]. by rewrite IH.
    + apply Forall_map. eapply Forall_impl; [exact Ha|]. intros c Hc. by apply Hall.
Qed.
