(* ===== verification/WireBase.v ===== *)
(** The wire format of gawk-server/wire: protocol constants, sentinel errors,
    the checks every parser opens with, and the interface ([Codec],
    [LawfulCodec], [StrictCodec]) each message type implements. *)
From S2P Require Export Prelude.

(** ** Constants (wire.go, closing.go, stripe.go, parity.go) *)
Definition Version := 1.

Definition TypeVideoChunk := 0x01.
Definition TypeDecoderConfig := 0x02.
Definition TypeBroadcastAnnounce := 0x03.
Definition TypeStreamFrame := 0x04.
Definition TypeTimeSync := 0x05.
Definition TypeClockMapping := 0x06.
Definition TypeAudioFrame := 0x07.
Definition TypeAudioConfig := 0x08.
Definition TypeResumeToken := 0x09.
Definition TypeReliableCarrier := 0x0A.
Definition TypeViewerCount := 0x0B.
Definition TypeDeliveryAck := 0x0C.
Definition TypeTelemetryHello := 0x0D.
Definition TypeParityChunk := 0x0E.
Definition TypeRelayCapabilities := 0x0F.
Definition TypeStripeState := 0x10.
Definition TypeRelayIdentity := 0x11.
Definition TypeSessionClosing := 0x17.
Definition TypeVideoUndeliverable := 0x1E.

Definition MaxDatagramSize := 1200.
Definition VideoChunkHeaderSize := 20.
Definition MaxChunkPayload := MaxDatagramSize - VideoChunkHeaderSize.
Definition MaxChunkCount := 3000.
Definition StreamFrameHeaderSize := 24.
Definition MaxKeyframeBytes := 8 * 2 ^ 20.
Definition TimeSyncSize := 18.
Definition ClockMappingSize := 10.
Definition ViewerCountSize := 6.
Definition DeliveryAckSize := 5.
Definition VideoUndeliverableSize := 10.
Definition CarrierPrologueSize := 2.
Definition CarrierRecordHeaderSize := 2.
Definition AudioFrameHeaderSize := 16.
Definition TelemetryHelloSize := 35.
Definition TelemetrySessionTokenSize := 24.
Definition TelemetryBroadcastKeySize := 6.
Definition MaxRelayIdentityVersionLen := 32.
Definition MaxRelayIdentityNameLen := 64.
Definition MaxAudioPayload := MaxDatagramSize - AudioFrameHeaderSize.
Definition SessionClosingSize := 6.
Definition MinGawkCloseCode := 4000.
Definition MaxGawkCloseCode := 4999.
Definition StripeStateSize := 5.
Definition MaxStripeLegs := 4.
Definition ParityChunkHeaderSize := 13.
Definition MaxParitySymbols := 2.
Definition MaxParityDataChunks := 255.
Definition RelayCapabilitiesSize := 5.

(** bit 0 of the VideoChunk, StreamFrame, TelemetryHello and StripeState
    flags bytes *)
Definition flagKeyframe := 0x01.
Definition flagTelemetryEnabled := 0x01.
Definition stripeFlagStriped := 0x01.

#[export] Hint Unfold Version TypeVideoChunk TypeDecoderConfig TypeBroadcastAnnounce
  TypeStreamFrame TypeTimeSync TypeClockMapping TypeAudioFrame TypeAudioConfig
  TypeResumeToken TypeReliableCarrier TypeViewerCount TypeDeliveryAck
  TypeTelemetryHello TypeParityChunk TypeRelayCapabilities TypeStripeState
  TypeRelayIdentity TypeSessionClosing TypeVideoUndeliverable MaxDatagramSize
  VideoChunkHeaderSize MaxChunkPayload MaxChunkCount StreamFrameHeaderSize
  MaxKeyframeBytes TimeSyncSize ClockMappingSize ViewerCountSize DeliveryAckSize
  VideoUndeliverableSize CarrierPrologueSize CarrierRecordHeaderSize
  AudioFrameHeaderSize TelemetryHelloSize TelemetrySessionTokenSize
  TelemetryBroadcastKeySize MaxRelayIdentityVersionLen MaxRelayIdentityNameLen
  MaxAudioPayload SessionClosingSize MinGawkCloseCode MaxGawkCloseCode
  StripeStateSize MaxStripeLegs ParityChunkHeaderSize MaxParitySymbols
  MaxParityDataChunks RelayCapabilitiesSize flagKeyframe flagTelemetryEnabled
  stripeFlagStriped : wire_const.

(** ** Sentinel errors *)
Inductive error :=
  | ErrShortDatagram | ErrBadVersion | ErrBadType | ErrBadChunkCount
  | ErrPayloadTooLarge | ErrBadCodec | ErrDatagramTooLarge | ErrBadBroadcastID
  | ErrKeyframeTooLarge | ErrBadLength | ErrBadResumeToken | ErrBadCarrierRecord
  | ErrBadAudioPayload | ErrBadAudioConfig | ErrBadTelemetryHello
  | ErrBadRelayIdentity | ErrBadSessionClosing | ErrParityUnsupported
  | ErrParityUnrecoverable
  | ErrBadRoomRecord | ErrBadRoomHello | ErrBadRoomState | ErrBadRoomEvent
  | ErrBadRoomCommand | ErrUnknownRoomKind
  | ErrBadVoiceHello | ErrBadVoiceFrame | ErrBadVoiceState | ErrBadVoiceControl
  | ErrBadLocalRelayInfo | ErrBadLocalRelayOffer.
#[export] Instance error_eq_dec : EqDecision error.
Proof. solve_decision. Defined.

Abbreviation res := (outcome error).

(** [b != c] on integers *)
Notation "a <>? b" := (negb (Z.eqb a b)) (at level 70) : gawk_scope.

(** The version and type checks of every parser, in their order. *)
Definition expect_prefix (msg : bytes) (msgType : Z) : res unit :=
  v ← index msg 0;
  reject v <>? Version with ErrBadVersion;
  t ← index msg 1;
  reject t <>? msgType with ErrBadType;
  Ok tt.

(** [PeekType]: the two prefix bytes, not validated *)
Definition PeekType (dgram : bytes) : res (Z * Z) :=
  reject zlen dgram <? 2 with ErrShortDatagram;
  v ← index dgram 0;
  t ← index dgram 1;
  Ok (v, t).

(** Go's [flags & mask != 0] and [flags &^ mask != 0] *)
Definition has_flag (flags mask : Z) : bool := Z.land flags mask <>? 0.
Definition has_other (flags mask : Z) : bool := Z.ldiff flags mask <>? 0.

(** ** The codec interface

    [cappend dst a] is the package's [AppendX(dst, a)], [cparse] its [ParseX];
    [cwf] says what the Go types of the fields and the strings' contents
    guarantee. *)
Class Codec (A : Type) := {
  cappend : bytes → A → res bytes;
  cparse : bytes → res A;
  cwf : A → Prop;
}.

(** Encoding extends the buffer, decoding what was added gives the value
    back, and neither direction panics. *)
Class LawfulCodec (A : Type) `{Codec A} := {
  codec_append : ∀ dst a out, cwf a → cappend dst a = Ok out →
    ∃ enc, out = dst ++ enc ∧ cparse enc = Ok a;
  codec_append_nofault : ∀ dst a, cappend dst a ≠ Fault;
  codec_parse_nofault : ∀ d, bytes_ok d → cparse d ≠ Fault;
}.

(** A strict message has one encoding per value: what parses re-encodes to
    the same bytes. *)
Class StrictCodec (A : Type) `{Codec A} := {
  codec_canonical : ∀ d a, bytes_ok d → cparse d = Ok a → cappend [] a = Ok d;
}.

(** ** Lemmas *)

Lemma expect_prefix_ok t rest : expect_prefix (Version :: t :: rest) t = Ok tt.
Proof.
  unfold expect_prefix. rewrite !index_ok by zlia. cbn.
  by rewrite !Z.eqb_refl.
Qed.

Lemma expect_prefix_nofault msg t :
  bytes_ok msg → 2 ≤ zlen msg → expect_prefix msg t ≠ Fault.
Proof. intros. unfold expect_prefix. nofault. Qed.

(** What a passed prefix check says of the message. *)
Lemma expect_prefix_inv msg t :
  expect_prefix msg t = Ok tt → ∃ rest, msg = Version :: t :: rest.
Proof.
  unfold expect_prefix. destruct msg as [|v [|u rest]]; [done| |].
  - rewrite (index_ok [v] 0) by zlia. cbn. by case_match.
  - rewrite !index_ok by zlia. cbn. intros H.
    case_match eqn:H0; [discriminate|]. case_match eqn:H1; [discriminate|].
    exists rest.
    autounfold with wire_const in *. 
    parse_simpl_in H0. parse_simpl_in H1. f_equal; [|f_equal]; lia.
Qed.

Ltac wire_const := repeat autounfold with wire_const in *.

(** Unfold a parser's [expect_prefix] on an input of unknown contents. *)
Ltac prefix_cases :=
  match goal with
  | |- context [expect_prefix ?m ?t] =>
      let H := fresh "Hpre" in
      destruct (expect_prefix m t) as [[]| |] eqn:H;
      [| | exfalso; apply (expect_prefix_nofault m t) in H; [done|done|zlia]];
      cbn [mbind outcome_bind]
  end.

(** The two "no panic" proofs, which are the same for every message. *)
Ltac append_total f := intros; cbn; unfold f; repeat case_match; discriminate.
Ltac parse_total f :=
  let d := fresh "d" in let Hd := fresh "Hd" in
  intros d Hd; cbn; try apply outcome_fmap_total; unfold f; wire_const; nofault;
  repeat (prefix_cases; [nofault | discriminate]).

(** Take a successful parse apart: its guards, the prefix, the reads. *)
Ltac parse_inv :=
  repeat match goal with
  | |- (if ?b then Err _ else _) = Ok _ → _ => destruct b eqn:?; [discriminate|]
  | |- (expect_prefix ?m ?t ≫= _) = Ok _ → _ =>
      let H := fresh "Hpre" in
      destruct (expect_prefix m t) as [[]| |] eqn:H; [|discriminate|discriminate];
      cbn [mbind outcome_bind]
  end.

Lemma flag_bit_canonical f :
  is_byte f → has_other f 1 = false → (if has_flag f 1 then 1 else 0) = f.
Proof.
  intros Hf H. revert f Hf H.
  assert (Hall : ∀ b, is_byte b →
    implb (negb (has_other b 1)) ((if has_flag b 1 then 1 else 0) =? b) = true)
    by (apply byte_forall; vm_compute; reflexivity).
  intros f Hf H. specialize (Hall f Hf). rewrite H in Hall. cbn in Hall. lia.
Qed.

(** Read results of a successful parse, as values with their ranges. *)
Ltac read_inv :=
  repeat (match goal with
  | H : bytes_ok ?l |- context [@index ?E ?l ?i] =>
      destruct (index_spec (E:=E) l i H) as (? & -> & ?); [unfold is_byte in *; zlia|]
  | H : bytes_ok ?l |- context [@slice ?E _ ?l ?i ?j] =>
      destruct (slice_spec (E:=E) l i j H) as (? & -> & ? & ?);
        [unfold is_byte in *; zlia..|]
  | H : bytes_ok ?l |- context [@slice_from ?E _ ?l ?i] =>
      destruct (slice_from_spec (E:=E) l i H) as (? & -> & ? & ?);
        [unfold is_byte in *; zlia..|]
  | H : bytes_ok ?l |- context [@be_uint ?E ?n ?l] =>
      let Hr := fresh "Hr" in let w := eval vm_compute in (8 * Z.of_nat n) in
      destruct (be_uint_spec (E:=E) n l H) as (? & -> & Hr); [zlia|];
      change (8 * Z.of_nat n) with w in Hr
  end; cbn [mbind outcome_bind]).

(** ** [unicode/utf8.Valid] of Go's standard library

    RFC 3629: no overlong forms, no surrogates, nothing above U+10FFFF. *)
Definition in_range (b lo hi : Z) : bool := (lo <=? b) && (b <=? hi).
Definition utf8_cont (b : Z) : bool := in_range b 0x80 0xBF.
(** the range of the second byte after the lead byte of a long form *)
Definition utf8_second (lead b : Z) : bool :=
  if lead =? 0xE0 then in_range b 0xA0 0xBF
  else if lead =? 0xED then in_range b 0x80 0x9F
  else if lead =? 0xF0 then in_range b 0x90 0xBF
  else if lead =? 0xF4 then in_range b 0x80 0x8F
  else utf8_cont b.
Fixpoint utf8_valid (s : bytes) : bool :=
  match s with
  | [] => true
  | b0 :: s1 =>
      if b0 <? 0x80 then utf8_valid s1 else
      match s1 with
      | [] => false
      | b1 :: s2 =>
          if in_range b0 0xC2 0xDF then utf8_cont b1 && utf8_valid s2 else
          match s2 with
          | [] => false
          | b2 :: s3 =>
              if in_range b0 0xE0 0xEF
              then utf8_second b0 b1 && utf8_cont b2 && utf8_valid s3 else
              match s3 with
              | [] => false
              | b3 :: s4 =>
                  in_range b0 0xF0 0xF4 && utf8_second b0 b1 && utf8_cont b2 &&
                  utf8_cont b3 && utf8_valid s4
              end
          end
      end
  end.
