(* ===== verification/GoUtf8.v ===== *)
(** Go's unicode/utf8 rune decoding, on byte strings, with the truncation loops
    the program builds on it (roomsrv's [truncate], wire's [TruncateVoiceName])
    and the decimal and suffix formatting of [fmt.Sprintf]. *)
From S2P Require Export WireBase GoStrings.
#[local] Open Scope Z_scope.

(** ** Decoding *)

(** [utf8.DecodeRune]: whether the encoding is valid, and its size; an invalid
    one is [RuneError] of size 1 (0 on the empty string). *)
Definition DecodeRune (s : bytes) : bool * nat :=
  match s with
  | [] => (false, 0%nat)
  | b0 :: s1 =>
      if b0 <? 0x80 then (true, 1%nat) else
      match s1 with
      | [] => (false, 1%nat)
      | b1 :: s2 =>
          if in_range b0 0xC2 0xDF then (if utf8_cont b1 then (true, 2%nat) else (false, 1%nat)) else
          match s2 with
          | [] => (false, 1%nat)
          | b2 :: s3 =>
              if in_range b0 0xE0 0xEF
              then (if utf8_second b0 b1 && utf8_cont b2 then (true, 3%nat) else (false, 1%nat)) else
              match s3 with
              | [] => (false, 1%nat)
              | b3 :: _ =>
                  if in_range b0 0xF0 0xF4 && utf8_second b0 b1 && utf8_cont b2 && utf8_cont b3
                  then (true, 4%nat) else (false, 1%nat)
              end
          end
      end
  end.

(** [utf8.RuneStart] *)
Definition RuneStart (b : Z) : bool := negb (Z.land b 0xC0 =? 0x80).

(** the backwards scan of [utf8.DecodeLastRuneInString], at most [UTFMax - 1]
    steps *)
Fixpoint back_loop (fuel : nat) (s : bytes) (start lim : Z) : Z :=
  match fuel with
  | O => start
  | S fuel' =>
      if start <? lim then start
      else if RuneStart (s !!! Z.to_nat start) then start
      else back_loop fuel' s (start - 1) lim
  end.
(** the size [utf8.DecodeLastRuneInString] returns *)
Definition DecodeLastRune (s : bytes) : nat :=
  let end_ := zlen s in
  if end_ =? 0 then 0%nat else
  if s !!! Z.to_nat (end_ - 1) <? 0x80 then 1%nat else
  let lim := if end_ - 4 <? 0 then 0 else end_ - 4 in
  let start := back_loop 4 s (end_ - 2) lim in
  let start := if start <? 0 then 0 else start in
  let size := snd (DecodeRune (drop (Z.to_nat start) s)) in
  if start + Z.of_nat size =? end_ then size else 1%nat.

(** roomsrv's [truncate]: every round removes at least a byte *)
Fixpoint truncate_loop (fuel : nat) (s : bytes) (max : Z) : bytes :=
  match fuel with
  | O => s
  | S fuel' =>
      if zlen s >? max
      then truncate_loop fuel' (take (length s - DecodeLastRune s) s) max
      else s
  end.
Definition truncate (s : bytes) (max : Z) : bytes := truncate_loop (length s) s max.

(** Go's conversion [string([]rune(s))]: every invalid byte becomes U+FFFD *)
Fixpoint runes_loop (fuel : nat) (s : bytes) : bytes :=
  match fuel with
  | O => []
  | S fuel' =>
      match s with
      | [] => []
      | _ =>
          let '(ok, n) := DecodeRune s in
          (if ok then take n s else [0xEF; 0xBF; 0xBD]) ++ runes_loop fuel' (drop n s)
      end
  end.
Definition runes (s : bytes) : bytes := runes_loop (length s) s.

Example decode_last : DecodeLastRune [97; 0xE2; 0x82; 0xAC] = 3%nat ∧ DecodeLastRune [0x80; 0x80] = 1%nat.
Proof. split; reflexivity. Qed.
Example truncate_rune : truncate [97; 0xE2; 0x82; 0xAC; 98] 4 = [97; 0xE2; 0x82; 0xAC] ∧
  truncate [97; 0xE2; 0x82; 0xAC; 98] 3 = [97].
Proof. split; reflexivity. Qed.

(** ** Laws *)

Lemma DecodeRune_size s : s ≠ [] → (1 ≤ snd (DecodeRune s) ≤ length s)%nat.
Proof.
  destruct s as [|b0 s1]; [done|]. intros _. cbn [DecodeRune].
  repeat case_match; cbn; lia.
Qed.

(** Validity, rune by rune. *)
Lemma utf8_valid_step s :
  s ≠ [] → utf8_valid s = fst (DecodeRune s) && utf8_valid (drop (snd (DecodeRune s)) s).
Proof.
  destruct s as [|b0 s1]; [done|]. intros _. cbn [DecodeRune utf8_valid].
  destruct (b0 <? 0x80); [done|].
  destruct s1 as [|b1 s2]; [done|]. destruct (in_range b0 0xC2 0xDF); [by destruct (utf8_cont b1)|].
  destruct s2 as [|b2 s3]; [done|].
  destruct (in_range b0 0xE0 0xEF); [by destruct (utf8_second b0 b1), (utf8_cont b2)|].
  destruct s3 as [|b3 s4]; [done|]. by destruct (in_range b0 0xF0 0xF4), (utf8_second b0 b1), (utf8_cont b2), (utf8_cont b3).
Qed.

(** The decoded rune depends on its own bytes only. *)
Lemma DecodeRune_app c b :
  DecodeRune c = (true, length c) → DecodeRune (c ++ b) = (true, length c).
Proof.
  destruct c as [|b0 [|b1 [|b2 [|b3 [|]]]]]; cbn [DecodeRune app length]; try done;
    repeat case_match; done.
Qed.

(** One valid encoding. *)
Definition is_rune (c : bytes) : Prop := DecodeRune c = (true, length c).

Lemma rune_nonempty c : is_rune c → c ≠ [].
Proof. by intros H ->. Qed.

Lemma DecodeRune_split s n :
  DecodeRune s = (true, n) → ∃ c r, s = c ++ r ∧ length c = n ∧ is_rune c.
Proof.
  intros H. exists (take n s), (drop n s). rewrite take_drop. split; [done|].
  destruct s as [|b0 s1]; [done|].
  pose proof (DecodeRune_size (b0 :: s1) ltac:(done)) as Hn. rewrite H in Hn. cbn [snd] in Hn.
  rewrite length_take_le by lia. split; [done|]. unfold is_rune.
  rewrite length_take_le by lia. revert H. cbn [DecodeRune].
  repeat (case_match; try done); intros [= <-]; cbn [take DecodeRune];
    repeat match goal with E : _ = true |- _ => rewrite E; clear E | E : _ = false |- _ => rewrite E; clear E end;
    done.
Qed.

Lemma utf8_valid_rune_app c b : is_rune c → utf8_valid (c ++ b) = utf8_valid b.
Proof.
  intros H. rewrite utf8_valid_step.
  - rewrite (DecodeRune_app c b H). cbn [fst snd andb]. by rewrite drop_app_length.
  - destruct c; [by apply rune_nonempty in H|done].
Qed.

(** A valid string is a sequence of runes, seen from either end. *)
Lemma valid_cons s : utf8_valid s = true → s ≠ [] →
  ∃ c r, s = c ++ r ∧ is_rune c ∧ utf8_valid r = true.
Proof.
  intros Hv Hs. rewrite utf8_valid_step in Hv by done. apply andb_true_iff in Hv as [H1 H2].
  destruct (DecodeRune s) as [ok n] eqn:Hd. cbn [fst snd] in *. subst ok.
  destruct (DecodeRune_split s n Hd) as (c & r & -> & Hn & Hc).
  exists c, r. split; [done|]. split; [done|]. subst n. by rewrite drop_app_length in H2.
Qed.

Lemma utf8_valid_app a b : utf8_valid a = true → utf8_valid (a ++ b) = utf8_valid b.
Proof.
  induction a as [a IH] using (induction_ltof1 _ (@length Z)). unfold ltof in IH. intros Ha.
  destruct a as [|x a]; [done|].
  destruct (valid_cons (x :: a) Ha ltac:(done)) as (c & r & Heq & Hc & Hr).
  rewrite Heq, <- app_assoc, utf8_valid_rune_app by done. apply IH; [|done].
  rewrite Heq, length_app. apply rune_nonempty in Hc. destruct c; [done|cbn; lia].
Qed.

Lemma valid_snoc s : utf8_valid s = true → s ≠ [] →
  ∃ a c, s = a ++ c ∧ is_rune c ∧ utf8_valid a = true.
Proof.
  induction s as [s IH] using (induction_ltof1 _ (@length Z)). unfold ltof in IH. intros Hv Hs.
  destruct (valid_cons s Hv Hs) as (c & r & -> & Hc & Hr).
  destruct (decide (r = [])) as [->|Hne].
  - exists [], c. rewrite app_nil_r. done.
  - destruct (IH r) as (a & d & -> & Hd & Ha); [|done|done|].
    { rewrite length_app. apply rune_nonempty in Hc. destruct c; [done|cbn; lia]. }
    exists (c ++ a), d. rewrite <- app_assoc. split; [done|]. split; [done|].
    by rewrite utf8_valid_rune_app.
Qed.

(** A decidable fact about the integers of a range, by enumeration. *)
Lemma in_range_check (f : Z → bool) lo hi b :
  in_range b lo hi = true → forallb f (seqZ lo (hi - lo + 1)) = true → f b = true.
Proof.
  unfold in_range. intros Hb Hf. rewrite forallb_forall in Hf. apply Hf.
  apply list_elem_of_In, elem_of_seqZ. lia.
Qed.
Lemma cont_not_start b : utf8_cont b = true → RuneStart b = false ∧ (b <? 0x80) = false.
Proof.
  intros H.
  pose proof (in_range_check (λ b, negb (RuneStart b) && negb (b <? 0x80)) _ _ b H ltac:(by vm_compute)) as E.
  cbv beta in E. by destruct (RuneStart b), (b <? 0x80).
Qed.
Lemma lead_is_start lo hi b : in_range b lo hi = true → 0xC2 ≤ lo → hi ≤ 0xF4 → RuneStart b = true.
Proof.
  intros H Hl Hh. apply (in_range_check RuneStart 0xC2 0xF4 b); [|by vm_compute].
  unfold in_range in *. lia.
Qed.
Lemma second_cont b0 b1 : utf8_second b0 b1 = true → utf8_cont b1 = true.
Proof. unfold utf8_second, utf8_cont, in_range. repeat case_match; lia. Qed.

(** What an encoding looks like: one ASCII byte, or a start byte and one to
    three continuation bytes. *)
Lemma rune_shape c : is_rune c →
  (∃ b, c = [b] ∧ (b <? 0x80) = true) ∨
  (∃ b0 rest, c = b0 :: rest ∧ RuneStart b0 = true ∧ rest ≠ [] ∧ (length rest ≤ 3)%nat ∧
     Forall (λ b, utf8_cont b = true) rest).
Proof.
  unfold is_rune. destruct c as [|b0 s1]; [done|]. cbn [DecodeRune].
  destruct (b0 <? 0x80) eqn:E0.
  { intros [= H]. destruct s1; [|discriminate H]. left. by exists b0. }
  intros H. right. exists b0, s1. split; [done|].
  destruct s1 as [|b1 s2]; [done|].
  destruct (in_range b0 0xC2 0xDF) eqn:E1.
  { destruct (utf8_cont b1) eqn:C1; [|done]. injection H as H. destruct s2; [|discriminate H].
    split; [by apply (lead_is_start _ _ _ E1)|]. split; [done|]. split; [cbn; lia|].
    by repeat constructor. }
  destruct s2 as [|b2 s3]; [done|]. destruct (in_range b0 0xE0 0xEF) eqn:E2.
  { destruct (utf8_second b0 b1) eqn:S1; [|done]. destruct (utf8_cont b2) eqn:C2; [|done].
    injection H as H. destruct s3; [|discriminate H].
    split; [by apply (lead_is_start _ _ _ E2)|]. split; [done|]. split; [cbn; lia|].
    repeat constructor; [|done]. by apply second_cont in S1. }
  destruct s3 as [|b3 s4]; [done|]. destruct (in_range b0 0xF0 0xF4) eqn:E3; [|done].
  destruct (utf8_second b0 b1) eqn:S1; [|done]. destruct (utf8_cont b2) eqn:C2; [|done].
  destruct (utf8_cont b3) eqn:C3; [|done]. injection H as H. destruct s4; [|discriminate H].
  split; [by apply (lead_is_start _ _ _ E3)|]. split; [done|]. split; [cbn; lia|].
  repeat constructor; try done. by apply second_cont in S1.
Qed.

Lemma back_loop_hit fuel : ∀ s start lim k,
  (k < fuel)%nat → lim ≤ start - Z.of_nat k →
  (∀ j, (j < k)%nat → RuneStart (s !!! Z.to_nat (start - Z.of_nat j)) = false) →
  RuneStart (s !!! Z.to_nat (start - Z.of_nat k)) = true →
  back_loop fuel s start lim = start - Z.of_nat k.
Proof.
  induction fuel as [|fuel IH]; intros s start lim k Hk Hl Hno Hhit; [lia|]. cbn [back_loop].
  replace (start <? lim) with false by lia. destruct k as [|k].
  - rewrite Z.sub_0_r in *. by rewrite Hhit.
  - pose proof (Hno 0%nat ltac:(lia)) as H0. rewrite Z.sub_0_r in H0. rewrite H0.
    rewrite (IH s (start - 1) lim k); try lia.
    + intros j Hj. replace (start - 1 - Z.of_nat j) with (start - Z.of_nat (S j)) by lia.
      apply Hno. lia.
    + by replace (start - 1 - Z.of_nat k) with (start - Z.of_nat (S k)) by lia.
Qed.

(** The scan from the end finds the last rune of a valid string. *)
Lemma DecodeLastRune_app a c : is_rune c → DecodeLastRune (a ++ c) = length c.
Proof.
  intros Hc. pose proof (zlen_nonneg a) as Ha. pose proof Hc as Hd.
  assert (Hat : ∀ k, 0 ≤ k → (a ++ c) !!! Z.to_nat (zlen a + k) = c !!! Z.to_nat k).
  { intros k Hk. rewrite lookup_total_app_r by (unfold zlen; lia). f_equal. unfold zlen. lia. }
  unfold DecodeLastRune. rewrite zlen_app.
  destruct (rune_shape c Hc) as [(b & -> & Hb)|(b0 & rest & -> & Hs & Hne & Hl & Hcont)].
  { change (zlen [b]) with 1. replace (_ =? 0) with false by lia.
    replace (zlen a + 1 - 1) with (zlen a + 0) by lia. rewrite Hat by lia.
    change ([b] !!! Z.to_nat 0) with b. by rewrite Hb. }
  assert (Hr : ∀ k, 1 ≤ k < zlen (b0 :: rest) → utf8_cont ((b0 :: rest) !!! Z.to_nat k) = true).
  { intros k Hk. rewrite zlen_cons in Hk. rewrite Forall_forall in Hcont. apply Hcont.
    rewrite lookup_total_cons_Z by lia. apply list_elem_of_lookup_total_2. unfold zlen in Hk. lia. }
  set (n := length rest) in *. assert (Hn : zlen (b0 :: rest) = 1 + Z.of_nat n) by (rewrite zlen_cons; done).
  assert (1 ≤ n)%nat by (unfold n; destruct rest; [done|cbn; lia]).
  replace (_ =? 0) with false by lia.
  replace (zlen a + zlen (b0 :: rest) - 1) with (zlen a + Z.of_nat n) by lia.
  rewrite Hat by lia. destruct (cont_not_start _ (Hr (Z.of_nat n) ltac:(lia))) as [_ ->].
  rewrite (back_loop_hit _ _ _ _ (n - 1)); first 1 last.
  - lia.
  - case_match; lia.
  - intros j Hj. rewrite Hn.
    replace (zlen a + (1 + Z.of_nat n) - 2 - Z.of_nat j) with (zlen a + (Z.of_nat n - 1 - Z.of_nat j)) by lia.
    rewrite Hat by lia. apply cont_not_start, Hr. lia.
  - rewrite Hn. replace (_ - _ - _) with (zlen a + 0) by lia. rewrite Hat by lia. exact Hs.
  - rewrite Hn. replace (zlen a + (1 + Z.of_nat n) - 2 - Z.of_nat (n - 1)) with (zlen a) by lia.
    replace (zlen a <? 0) with false by lia.
    assert (Hdrop : drop (Z.to_nat (zlen a)) (a ++ b0 :: rest) = b0 :: rest)
      by (unfold zlen; rewrite Nat2Z.id; apply drop_app_length).
    unfold is_rune in Hd. rewrite Hdrop, !Hd. cbn [snd length]. fold n. case_match eqn:E; [done|]. apply Z.eqb_neq in E. lia.
Qed.

(** ** Truncation *)

Lemma back_loop_le fuel : ∀ s start lim, back_loop fuel s start lim ≤ start.
Proof.
  induction fuel as [|fuel IH]; intros s start lim; cbn [back_loop]; [lia|].
  case_match; [lia|]. case_match; [lia|]. specialize (IH s (start - 1) lim). lia.
Qed.
Lemma DecodeLastRune_pos s : s ≠ [] → (1 ≤ DecodeLastRune s)%nat.
Proof.
  intros Hs. unfold DecodeLastRune. assert (zlen s ≠ 0) by (intros H; by apply Hs, zlen_zero).
  replace (zlen s =? 0) with false by lia. case_match; [lia|].
  pose proof (zlen_nonneg s).
  pose proof (back_loop_le 4 s (zlen s - 2) (if zlen s - 4 <? 0 then 0 else zlen s - 4)) as Hb.
  revert Hb. generalize (back_loop 4 s (zlen s - 2) (if zlen s - 4 <? 0 then 0 else zlen s - 4)).
  intros b Hb.
  cbv zeta. set (start := if b <? 0 then 0 else b).
  destruct (start + _ =? zlen s) eqn:He; [|lia].
  destruct (drop (Z.to_nat start) s) as [|x r] eqn:Hd.
  - apply Z.eqb_eq in He. subst start. change (snd (DecodeRune [])) with 0%nat in He.
    destruct (b <? 0) eqn:Hb0; [done|]. lia.
  - apply DecodeRune_size. done.
Qed.

Lemma truncate_loop_id fuel s max : zlen s ≤ max → truncate_loop fuel s max = s.
Proof. intros H. destruct fuel; [done|]. cbn [truncate_loop]. by replace (zlen s >? max) with false by lia. Qed.
Lemma truncate_id s max : zlen s ≤ max → truncate s max = s.
Proof. apply truncate_loop_id. Qed.

Lemma truncate_loop_le fuel : ∀ s max, (length s ≤ fuel)%nat → 0 ≤ max → zlen (truncate_loop fuel s max) ≤ max.
Proof.
  induction fuel as [|fuel IH]; intros s max Hl Hm; cbn [truncate_loop].
  - destruct s; [done|cbn in Hl; lia].
  - destruct (zlen s >? max) eqn:Hs; [|lia]. apply IH; [|done].
    assert (s ≠ []) by (intros ->; change (zlen (@nil Z)) with 0 in Hs; lia).
    pose proof (DecodeLastRune_pos s ltac:(done)). rewrite length_take.
    assert (0 < length s)%nat by (destruct s; [done|cbn; lia]). lia.
Qed.
(** The loop ends within the bound. *)
Lemma truncate_le s max : 0 ≤ max → zlen (truncate s max) ≤ max.
Proof. intros. by apply truncate_loop_le. Qed.

Lemma truncate_loop_valid fuel : ∀ s max, utf8_valid s = true →
  utf8_valid (truncate_loop fuel s max) = true ∧ ∃ r, s = truncate_loop fuel s max ++ r.
Proof.
  induction fuel as [|fuel IH]; intros s max Hv; cbn [truncate_loop]; [split; [done|exists []; by rewrite app_nil_r]|].
  destruct (_ >? _); [|split; [done|exists []; by rewrite app_nil_r]].
  destruct (decide (s = [])) as [->|Hne].
  { rewrite take_nil. by apply (IH [] max). }
  destruct (valid_snoc s Hv Hne) as (a & c & -> & Hc & Ha).
  rewrite (DecodeLastRune_app a c Hc), length_app, Nat.add_sub, take_app_length.
  destruct (IH a max Ha) as [Hu (r & Hr)]. split; [done|]. exists (r ++ c). rewrite app_assoc. by rewrite <- Hr.
Qed.
(** A valid string is cut between runes. *)
Lemma truncate_valid s max : utf8_valid s = true →
  utf8_valid (truncate s max) = true ∧ ∃ r, s = truncate s max ++ r.
Proof. apply truncate_loop_valid. Qed.

(** ** [runes] *)

Lemma runes_loop_valid fuel : ∀ s, (length s ≤ fuel)%nat → utf8_valid (runes_loop fuel s) = true.
Proof.
  induction fuel as [|fuel IH]; intros s Hl; [done|]. cbn [runes_loop]. destruct s as [|x s]; [done|].
  set (t := x :: s) in *. assert (Ht : t ≠ []) by done. clearbody t.
  pose proof (DecodeRune_size t Ht) as Hn.
  assert (Hr : utf8_valid (runes_loop fuel (drop (snd (DecodeRune t)) t)) = true)
    by (apply IH; rewrite length_drop; lia).
  destruct (DecodeRune t) as [ok n] eqn:Hd. cbn [snd] in *. destruct ok.
  - destruct (DecodeRune_split t n Hd) as (c & r & -> & <- & Hc).
    by rewrite take_app_length, utf8_valid_rune_app.
  - by rewrite utf8_valid_rune_app.
Qed.
Lemma runes_valid s : utf8_valid (runes s) = true.
Proof. by apply runes_loop_valid. Qed.

(** ** [TrimSpace] keeps validity *)

Lemma strip_spec p : ∀ s r, strip p s = Some r → s = p ++ r.
Proof.
  induction p as [|x p IH]; intros s r; cbn [strip]; [by intros [= ->]|].
  destruct s as [|y s]; [done|]. destruct (Z.eqb_spec x y) as [->|]; [|done].
  intros H%IH. by subst.
Qed.
Lemma strip_any_spec ps s r : strip_any ps s = Some r → ∃ p, p ∈ ps ∧ s = p ++ r.
Proof.
  induction ps as [|p ps IH]; cbn [strip_any]; [done|]. destruct (strip p s) eqn:Hp.
  - intros [= <-]. exists p. split; [left|]. by apply strip_spec.
  - intros (q & Hq & ->)%IH. exists q. split; [by right|done].
Qed.
Lemma trim_loop_inv (P : bytes → Prop) ps fuel : ∀ s,
  (∀ p r, p ∈ ps → P (p ++ r) → P r) → P s → P (trim_loop fuel ps s).
Proof.
  induction fuel as [|fuel IH]; intros s Hp Hs; cbn [trim_loop]; [done|].
  destruct (strip_any ps s) as [r|] eqn:Hr; [|done]. apply IH; [done|].
  apply strip_any_spec in Hr as (p & Hin & ->). by apply (Hp p).
Qed.

Lemma spaces_runes : Forall is_rune spaces.
Proof. repeat constructor. Qed.

Lemma utf8_valid_rune_inv a c : is_rune c → utf8_valid (a ++ c) = true → utf8_valid a = true.
Proof.
  intros Hc Hv. destruct (valid_snoc (a ++ c) Hv) as (a' & c' & Heq & Hc' & Ha').
  { intros [_ ->]%app_eq_nil. by apply rune_nonempty in Hc. }
  assert (length c = length c').
  { rewrite <- (DecodeLastRune_app a c Hc), Heq. by apply DecodeLastRune_app. }
  apply app_inj_2 in Heq as [-> _]; done.
Qed.

Lemma TrimSpace_valid s : utf8_valid s = true → utf8_valid (TrimSpace s) = true.
Proof.
  intros Hv. unfold TrimSpace, TrimRight.
  pose proof spaces_runes as Hsp. rewrite Forall_forall in Hsp.
  apply (trim_loop_inv (λ r, utf8_valid (rev r) = true)).
  - intros p r Hp Hr. apply list_elem_of_In, in_map_iff in Hp as (q & <- & Hq%list_elem_of_In).
    rewrite rev_app_distr, rev_involutive in Hr. by apply (utf8_valid_rune_inv _ q); [apply Hsp|].
  - rewrite rev_involutive. unfold TrimLeft.
    apply (trim_loop_inv (λ r, utf8_valid r = true)); [|done].
    intros p r Hp Hr. by rewrite utf8_valid_rune_app in Hr by by apply Hsp.
Qed.
