(* ===== verification/WireMedia.v ===== *)
(** Media messages of wire.go: VideoChunk, DecoderConfig, AudioFrame,
    AudioConfig, StreamFrame and the reliable carrier records. *)
From S2P Require Export WireBase.

(** ** VideoChunk (0x01) *)
Module VideoChunk.

Record VideoChunkHeader := {
  Keyframe : bool;
  FrameID : Z;
  ChunkIndex : Z;
  ChunkCount : Z;
  TimestampUs : Z;
}.

Definition AppendVideoChunk (dst : bytes) (h : VideoChunkHeader) (payload : bytes)
    : res bytes :=
  reject zlen payload >? MaxChunkPayload with ErrPayloadTooLarge;
  reject (ChunkCount h =? 0) || (ChunkIndex h >=? ChunkCount h) with ErrBadChunkCount;
  let flags := if Keyframe h then flagKeyframe else 0 in
  let dst := dst ++ [Version; TypeVideoChunk; flags; 0] in
  let dst := AppendUint32 dst (FrameID h) in
  let dst := AppendUint16 dst (ChunkIndex h) in
  let dst := AppendUint16 dst (ChunkCount h) in
  let dst := AppendUint64 dst (TimestampUs h) in
  Ok (dst ++ payload).

Definition ParseVideoChunk (dgram : bytes) : res (VideoChunkHeader * bytes) :=
  reject zlen dgram <? VideoChunkHeaderSize with ErrShortDatagram;
  _ ← expect_prefix dgram TypeVideoChunk;
  flags ← index dgram 2;
  frameID ← slice dgram 4 8 ≫= Uint32;
  chunkIndex ← slice dgram 8 10 ≫= Uint16;
  chunkCount ← slice dgram 10 12 ≫= Uint16;
  timestampUs ← slice dgram 12 20 ≫= Uint64;
  reject (chunkCount =? 0) || (chunkIndex >=? chunkCount) || (chunkCount >? MaxChunkCount)
    with ErrBadChunkCount;
  payload ← slice_from dgram VideoChunkHeaderSize;
  Ok ({| Keyframe := has_flag flags flagKeyframe; FrameID := frameID;
         ChunkIndex := chunkIndex; ChunkCount := chunkCount;
         TimestampUs := timestampUs |}, payload).

(** The ranges of the Go field types. *)
Definition wf (h : VideoChunkHeader) : Prop :=
  is_uint 32 (FrameID h) ∧ is_uint 16 (ChunkIndex h) ∧
  is_uint 16 (ChunkCount h) ∧ is_uint 64 (TimestampUs h).

#[export] Instance codec : Codec (VideoChunkHeader * bytes) := {
  cappend dst m := AppendVideoChunk dst m.1 m.2;
  cparse := ParseVideoChunk;
  cwf m := wf m.1 ∧ ChunkCount m.1 ≤ MaxChunkCount;
}.

#[export] Instance lawful : LawfulCodec (VideoChunkHeader * bytes).
Proof.
  split.
  - intros dst [[kf fid ci cc ts] pl] out [(Hf & Hi & Hc & Ht) Hmax]; cbn in *.
    unfold AppendVideoChunk; cbn. append_guards.
    unfold ParseVideoChunk; wire_const.
    destruct kf; parse_run; rewrite expect_prefix_ok; parse_run;
      rewrite !be_decode_16, !be_decode_32, !be_decode_64 by done; parse_run; done.
  - append_total AppendVideoChunk.
  - parse_total ParseVideoChunk.
Qed.

(** The fields of a parsed header are in range. *)
Lemma parse_nonneg dgram h pl : bytes_ok dgram → ParseVideoChunk dgram = Ok (h, pl) →
  0 ≤ ChunkIndex h < ChunkCount h.
Proof.
  intros Hb. unfold ParseVideoChunk. parse_inv. unfold Uint16, Uint32, Uint64.
  wire_const. read_inv. parse_inv. read_inv. intros [= <- <-]. cbn. lia.
Qed.

End VideoChunk.

(** ** DecoderConfig (0x02) *)
Module DecoderConfig.

Record DecoderConfig := { Codec : bytes; Extradata : bytes }.

Definition AppendDecoderConfig (dst : bytes) (c : DecoderConfig) : res bytes :=
  reject zlen (Codec c) =? 0 with ErrBadCodec;
  reject zlen (Codec c) >? 255 with ErrBadCodec;
  let total := 4 + zlen (Codec c) + zlen (Extradata c) in
  reject total >? MaxDatagramSize with ErrDatagramTooLarge;
  let dst := dst ++ [Version; TypeDecoderConfig; 0; uint8 (zlen (Codec c))] in
  let dst := dst ++ Codec c in
  Ok (dst ++ Extradata c).

Definition ParseDecoderConfig (dgram : bytes) : res DecoderConfig :=
  reject zlen dgram <? 4 with ErrShortDatagram;
  _ ← expect_prefix dgram TypeDecoderConfig;
  codecLen ← index dgram 3;
  reject codecLen =? 0 with ErrBadCodec;
  reject 4 + codecLen >? zlen dgram with ErrBadCodec;
  codec ← slice dgram 4 (4 + codecLen);
  extradata ← slice_from dgram (4 + codecLen);
  Ok {| Codec := codec; Extradata := extradata |}.

#[export] Instance codec : WireBase.Codec DecoderConfig := {
  cappend := AppendDecoderConfig;
  cparse := ParseDecoderConfig;
  cwf _ := True;
}.

#[export] Instance lawful : LawfulCodec DecoderConfig.
Proof.
  split.
  - intros dst [cd ex] out _; cbn. unfold AppendDecoderConfig; cbn. append_guards.
    unfold ParseDecoderConfig, uint8; wire_const.
    rewrite Z.mod_small by zlia. parse_run. rewrite expect_prefix_ok.
    by parse_run.
  - append_total AppendDecoderConfig.
  - parse_total ParseDecoderConfig.
Qed.

End DecoderConfig.

(** ** AudioFrame (0x07) *)
Module AudioFrame.

Record AudioFrameHeader := { Seq : Z; TimestampUs : Z }.

Definition AppendAudioFrame (dst : bytes) (h : AudioFrameHeader) (payload : bytes)
    : res bytes :=
  reject (zlen payload =? 0) || (zlen payload >? MaxAudioPayload) with ErrBadAudioPayload;
  let dst := dst ++ [Version; TypeAudioFrame; 0; 0] in
  let dst := AppendUint32 dst (Seq h) in
  let dst := AppendUint64 dst (TimestampUs h) in
  Ok (dst ++ payload).

Definition ParseAudioFrame (dgram : bytes) : res (AudioFrameHeader * bytes) :=
  reject zlen dgram <? AudioFrameHeaderSize with ErrShortDatagram;
  _ ← expect_prefix dgram TypeAudioFrame;
  reject zlen dgram =? AudioFrameHeaderSize with ErrBadAudioPayload;
  sq ← slice dgram 4 8 ≫= Uint32;
  ts ← slice dgram 8 16 ≫= Uint64;
  payload ← slice_from dgram AudioFrameHeaderSize;
  Ok ({| Seq := sq; TimestampUs := ts |}, payload).

#[export] Instance codec : Codec (AudioFrameHeader * bytes) := {
  cappend dst m := AppendAudioFrame dst m.1 m.2;
  cparse := ParseAudioFrame;
  cwf m := is_uint 32 (Seq m.1) ∧ is_uint 64 (TimestampUs m.1);
}.

#[export] Instance lawful : LawfulCodec (AudioFrameHeader * bytes).
Proof.
  split.
  - intros dst [[sq ts] pl] out [Hs Ht]; cbn in *.
    unfold AppendAudioFrame; cbn. append_guards.
    unfold ParseAudioFrame; wire_const. parse_run.
    rewrite expect_prefix_ok. parse_run.
    rewrite be_decode_32, be_decode_64 by done. by parse_run.
  - append_total AppendAudioFrame.
  - parse_total ParseAudioFrame.
Qed.

End AudioFrame.

(** ** AudioConfig (0x08) *)
Module AudioConfig.

Record AudioConfig := {
  Codec : bytes;
  SampleRate : Z;
  Channels : Z;
  Description : bytes;
}.

Definition AppendAudioConfig (dst : bytes) (c : AudioConfig) : res bytes :=
  reject zlen (Codec c) =? 0 with ErrBadCodec;
  reject zlen (Codec c) >? 255 with ErrBadCodec;
  reject (SampleRate c =? 0) || (Channels c =? 0) with ErrBadAudioConfig;
  let total := 4 + zlen (Codec c) + 5 + zlen (Description c) in
  reject total >? MaxDatagramSize with ErrDatagramTooLarge;
  let dst := dst ++ [Version; TypeAudioConfig; 0; uint8 (zlen (Codec c))] in
  let dst := dst ++ Codec c in
  let dst := AppendUint32 dst (SampleRate c) in
  let dst := dst ++ [Channels c] in
  Ok (dst ++ Description c).

Definition ParseAudioConfig (dgram : bytes) : res AudioConfig :=
  reject zlen dgram <? 4 with ErrShortDatagram;
  _ ← expect_prefix dgram TypeAudioConfig;
  codecLen ← index dgram 3;
  reject codecLen =? 0 with ErrBadCodec;
  reject 4 + codecLen + 5 >? zlen dgram with ErrBadCodec;
  codec ← slice dgram 4 (4 + codecLen);
  sampleRate ← slice dgram (4 + codecLen) (4 + codecLen + 4) ≫= Uint32;
  channels ← index dgram (4 + codecLen + 4);
  description ← slice_from dgram (4 + codecLen + 5);
  reject (sampleRate =? 0) || (channels =? 0) with ErrBadAudioConfig;
  Ok {| Codec := codec; SampleRate := sampleRate; Channels := channels;
        Description := description |}.

#[export] Instance codec : WireBase.Codec AudioConfig := {
  cappend := AppendAudioConfig;
  cparse := ParseAudioConfig;
  cwf c := is_uint 32 (SampleRate c);
}.

#[export] Instance lawful : LawfulCodec AudioConfig.
Proof.
  split.
  - intros dst [cd sr ch de] out Hs; cbn in *.
    unfold AppendAudioConfig; cbn. append_guards.
    unfold ParseAudioConfig, uint8; wire_const.
    rewrite Z.mod_small by zlia. parse_run.
    rewrite expect_prefix_ok. parse_run.
    rewrite be_decode_32 by done. by parse_run.
  - append_total AppendAudioConfig.
  - parse_total ParseAudioConfig.
Qed.

End AudioConfig.

(** ** StreamFrame (0x04): the header of a keyframe stream *)
Module StreamFrame.

Record StreamFrameHeader := {
  Keyframe : bool;
  FrameID : Z;
  TimestampUs : Z;
  ConfigLen : Z;
  PayloadLen : Z;
}.

Definition AppendStreamFrameHeader (dst : bytes) (h : StreamFrameHeader) : res bytes :=
  reject uint64 (uint64 (StreamFrameHeaderSize + ConfigLen h) + PayloadLen h)
         >? MaxKeyframeBytes with ErrKeyframeTooLarge;
  let flags := if Keyframe h then flagKeyframe else 0 in
  let dst := dst ++ [Version; TypeStreamFrame; flags; 0] in
  let dst := AppendUint32 dst (FrameID h) in
  let dst := AppendUint64 dst (TimestampUs h) in
  let dst := AppendUint32 dst (ConfigLen h) in
  Ok (AppendUint32 dst (PayloadLen h)).

Definition ParseStreamFrameHeader (buf : bytes) : res StreamFrameHeader :=
  reject zlen buf <? StreamFrameHeaderSize with ErrShortDatagram;
  _ ← expect_prefix buf TypeStreamFrame;
  flags ← index buf 2;
  frameID ← slice buf 4 8 ≫= Uint32;
  timestampUs ← slice buf 8 16 ≫= Uint64;
  configLen ← slice buf 16 20 ≫= Uint32;
  payloadLen ← slice buf 20 24 ≫= Uint32;
  reject uint64 (uint64 (StreamFrameHeaderSize + configLen) + payloadLen)
         >? MaxKeyframeBytes with ErrKeyframeTooLarge;
  Ok {| Keyframe := has_flag flags flagKeyframe; FrameID := frameID;
        TimestampUs := timestampUs; ConfigLen := configLen;
        PayloadLen := payloadLen |}.

Definition wf (h : StreamFrameHeader) : Prop :=
  is_uint 32 (FrameID h) ∧ is_uint 64 (TimestampUs h) ∧
  is_uint 32 (ConfigLen h) ∧ is_uint 32 (PayloadLen h).

#[export] Instance codec : Codec StreamFrameHeader := {
  cappend := AppendStreamFrameHeader;
  cparse := ParseStreamFrameHeader;
  cwf := wf;
}.

(** The parser reads a header at the front of a longer buffer. *)
Lemma parse_header_append dst h out rest :
  wf h → AppendStreamFrameHeader dst h = Ok out →
  ∃ enc, out = dst ++ enc ∧ zlen enc = StreamFrameHeaderSize ∧
    ParseStreamFrameHeader (enc ++ rest) = Ok h.
Proof.
  destruct h as [kf fid ts cl pl]; intros (Hf & Ht & Hc & Hp); cbn in *.
  unfold AppendStreamFrameHeader; cbn. append_guards.
  split; [by destruct kf|].
  unfold ParseStreamFrameHeader; wire_const. rewrite <- !app_assoc.
  destruct kf; parse_run; rewrite expect_prefix_ok; parse_run;
    rewrite !be_decode_32, be_decode_64 by done; by parse_run.
Qed.

#[export] Instance lawful : LawfulCodec StreamFrameHeader.
Proof.
  split.
  - intros dst h out Hh Ho. destruct (parse_header_append dst h out [] Hh Ho) as (enc & -> & _ & H).
    exists enc. by rewrite app_nil_r in H.
  - append_total AppendStreamFrameHeader.
  - parse_total ParseStreamFrameHeader.
Qed.

(** The declared total of an accepted header, computed without wrap-around,
    is within the ceiling: what a reader allocates from it. *)
Lemma parse_bound buf h :
  bytes_ok buf → ParseStreamFrameHeader buf = Ok h →
  wf h ∧ StreamFrameHeaderSize + ConfigLen h + PayloadLen h ≤ MaxKeyframeBytes.
Proof.
  intros Hb. unfold ParseStreamFrameHeader, Uint32, Uint64; wire_const. parse_inv.
  read_inv. case_match eqn:Hbig; [discriminate|]. intros [= <-].
  unfold wf, uint64 in *; cbn. rewrite (Z.mod_small (24 + _)), Z.mod_small in Hbig by lia. lia.
Qed.

End StreamFrame.

(** ** Reliable carrier streams (0x0A) *)
Module Carrier.

Definition AppendCarrierPrologue (dst : bytes) : bytes :=
  dst ++ [Version; TypeReliableCarrier].

Definition ParseCarrierPrologue (buf : bytes) : res unit :=
  reject zlen buf <? CarrierPrologueSize with ErrShortDatagram;
  expect_prefix buf TypeReliableCarrier.

Definition AppendCarrierRecord (dst dgram : bytes) : res bytes :=
  reject (zlen dgram =? 0) || (zlen dgram >? MaxDatagramSize) with ErrBadCarrierRecord;
  let dst := AppendUint16 dst (uint16 (zlen dgram)) in
  Ok (dst ++ dgram).

Definition ParseCarrierRecord (buf : bytes) : res (bytes * bytes) :=
  reject zlen buf <? CarrierRecordHeaderSize with ErrShortDatagram;
  n ← Uint16 buf;
  reject (n =? 0) || (n >? MaxDatagramSize) with ErrBadCarrierRecord;
  reject zlen buf <? CarrierRecordHeaderSize + n with ErrShortDatagram;
  record ← slice buf CarrierRecordHeaderSize (CarrierRecordHeaderSize + n);
  rest ← slice_from buf (CarrierRecordHeaderSize + n);
  Ok (record, rest).

(** One record is read back exactly, whatever follows it on the stream. *)
Lemma parse_record_append dst dgram out rest :
  AppendCarrierRecord dst dgram = Ok out →
  ∃ enc, out = dst ++ enc ∧ ParseCarrierRecord (enc ++ rest) = Ok (dgram, rest).
Proof.
  unfold AppendCarrierRecord, uint16. append_guards. rewrite <- app_assoc.
  unfold ParseCarrierRecord; wire_const.
  rewrite Z.mod_small by zlia. parse_run.
  rewrite be_decode_16 by zlia. by parse_run.
Qed.

(** A strict prefix of a record is never misread: the reader asks for more. *)
Lemma parse_prefix dst dgram out enc k :
  AppendCarrierRecord dst dgram = Ok out → out = dst ++ enc →
  (k < length enc)%nat → ParseCarrierRecord (take k enc) = Err ErrShortDatagram.
Proof.
  unfold AppendCarrierRecord, uint16, AppendUint16.
  case_match eqn:Hg; [discriminate|]. intros [= <-].
  rewrite <- app_assoc. intros <-%app_inv_head Hk.
  unfold ParseCarrierRecord; wire_const. rewrite Z.mod_small by zlia.
  destruct (decide (k < 2)%nat) as [Hs|Hs].
  - by destruct k as [|[|]]; [..|lia].
  - destruct k as [|[|k]]; [lia..|]. cbn [be_encode app take] in *.
    rewrite !length_cons in Hk. parse_run. rewrite be_decode_16 by zlia.
    replace (_ || _) with false by (symmetry; zlia). cbn.
    replace (_ <? _) with true; [done|]. symmetry. autorewrite with zlen.
    unfold zlen in *. rewrite length_take. apply Z.ltb_lt. lia.
Qed.

Lemma parse_nofault buf : bytes_ok buf → ParseCarrierRecord buf ≠ Fault.
Proof. intros. unfold ParseCarrierRecord; wire_const. nofault. Qed.

(** A record consumes at least three bytes, so a reader's loop ends. *)
Lemma parse_shrinks buf record rest :
  bytes_ok buf → ParseCarrierRecord buf = Ok (record, rest) →
  buf = be_encode 2 (zlen record) ++ record ++ rest ∧
  0 < zlen record ≤ MaxDatagramSize ∧ bytes_ok record ∧ bytes_ok rest.
Proof.
  intros Hb. unfold ParseCarrierRecord; wire_const.
  case_match eqn:Hs; [discriminate|].
  destruct buf as [|b0 [|b1 buf]]; [done|zlia|].
  unfold Uint16. rewrite be_uint_ok by zlia. change (take 2 (b0 :: b1 :: buf)) with [b0; b1].
  cbn [mbind outcome_bind].
  apply Forall_cons_iff in Hb as [Hb0 Hb]. apply Forall_cons_iff in Hb as [Hb1 Hb].
  assert (Hd : bytes_ok [b0; b1]) by eauto.
  pose proof (be_encode_decode _ Hd) as Henc. cbn [length] in Henc.
  pose proof (be_decode_range _ Hd) as Hr. change (8 * zlen [b0; b1]) with 16 in Hr.
  set (n := be_decode [b0; b1]) in *. parse_inv.
    rewrite slice_ok, slice_from_ok by zlia. cbn [mbind outcome_bind].
  intros [= <- <-]. parse_simpl.
  replace (2 + n - 2) with n by lia. replace (2 + n - 1 - 1) with n by lia.
  assert (Hl : zlen (take (Z.to_nat n) buf) = n).
  { unfold zlen. autorewrite with zlen in *. unfold zlen in *.
    rewrite length_take. lia. }
  rewrite Hl. cbn [be_encode] in Henc. injection Henc as -> ->.
  rewrite take_drop. split; [done|]. split; [zlia|].
  by split; [apply Forall_take | apply Forall_drop].
Qed.

End Carrier.
