(* ===== verification/WireControl.v ===== *)
(** Control messages of the wire package: fixed-size datagrams (TimeSync,
    ClockMapping, ViewerCount, DeliveryAck, VideoUndeliverable, StripeState),
    reliable one-shot messages (BroadcastAnnounce, ResumeToken, TelemetryHello,
    RelayCapabilities, RelayIdentity, SessionClosing). *)
From S2P Require Export WireBase BroadcastID.

(** The proof of [StrictCodec] for a message of fixed size: the input is an
    explicit list, and re-encoding each decoded field gives its bytes back. *)
Lemma be_encode_decode_16 a b :
  bytes_ok [a; b] → be_encode 2 (be_decode [a; b]) = [a; b].
Proof. exact (be_encode_decode [a; b]). Qed.
Lemma be_encode_decode_32 a b c d :
  bytes_ok [a; b; c; d] → be_encode 4 (be_decode [a; b; c; d]) = [a; b; c; d].
Proof. exact (be_encode_decode [a; b; c; d]). Qed.
Lemma be_encode_decode_64 a b c d e f g h :
  bytes_ok [a; b; c; d; e; f; g; h] →
  be_encode 8 (be_decode [a; b; c; d; e; f; g; h]) = [a; b; c; d; e; f; g; h].
Proof. exact (be_encode_decode [a; b; c; d; e; f; g; h]). Qed.

Ltac bytes_ok_tac := repeat match goal with
  | H : bytes_ok (_ :: _) |- _ => apply Forall_cons_iff in H as [? ?] end; eauto 10.

(** Open a fixed-size message of known length as explicit bytes. *)
Ltac open_fixed :=
  parse_inv;
  match goal with
  | Hpre : expect_prefix ?d _ = Ok tt, Hd : bytes_ok ?d, Hlen : (zlen ?d <>? ?n) = false |- _ =>
      apply expect_prefix_inv in Hpre as (? & ->);
      apply Forall_cons_iff in Hd as [_ Hd]; apply Forall_cons_iff in Hd as [_ Hd];
      match type of Hd with bytes_ok ?r =>
        let H := fresh "Hlen" in
        assert (zlen r = n - 2) as H by (autorewrite with zlen in Hlen; lia);
        let m := eval vm_compute in (n - 2) in change (n - 2) with m in H;
        clear Hlen; explode H
      end
  end.

(** Run the parser on the explicit bytes, leaving the conclusion untouched. *)
Ltac strict_run :=
  match goal with |- _ → ?G => let Q := fresh "Q" in
    set (Q := G); parse_run; intros [=]; subst Q; subst end;
  cbn -[be_encode be_decode app]; unfold AppendUint16, AppendUint32, AppendUint64;
  rewrite ?be_encode_decode_16, ?be_encode_decode_32, ?be_encode_decode_64
    by bytes_ok_tac.

(** ** TimeSync (0x05) *)
Module TimeSync.

Definition AppendTimeSync (dst : bytes) (clientTimeUs serverTimeUs : Z) : bytes :=
  let dst := dst ++ [Version; TypeTimeSync] in
  let dst := AppendUint64 dst clientTimeUs in
  AppendUint64 dst serverTimeUs.

Definition ParseTimeSync (dgram : bytes) : res (Z * Z) :=
  reject zlen dgram <>? TimeSyncSize with ErrBadLength;
  _ ← expect_prefix dgram TypeTimeSync;
  c ← slice dgram 2 10 ≫= Uint64;
  s ← slice dgram 10 18 ≫= Uint64;
  Ok (c, s).

(** A TimeSync carries a pair; the wrapper keeps its instance apart. *)
Record msg := { clientTimeUs : Z; serverTimeUs : Z }.

#[export] Instance codec : Codec msg := {
  cappend dst m := Ok (AppendTimeSync dst (clientTimeUs m) (serverTimeUs m));
  cparse d := (λ p, {| clientTimeUs := p.1; serverTimeUs := p.2 |}) <$> ParseTimeSync d;
  cwf m := is_uint 64 (clientTimeUs m) ∧ is_uint 64 (serverTimeUs m);
}.

#[export] Instance lawful : LawfulCodec msg.
Proof.
  split.
  - intros dst [c s] out [Hc Hs]; cbn in *. unfold AppendTimeSync. append_guards.
    unfold ParseTimeSync; wire_const. parse_run. rewrite expect_prefix_ok. parse_run.
    rewrite !be_decode_64 by done. by parse_run.
  - done.
  - parse_total ParseTimeSync.
Qed.

#[export] Instance strict : StrictCodec msg.
Proof.
  split. intros d a Hd. cbn [cappend cparse codec]. intros ([c s] & Hp & ->)%outcome_fmap_Ok.
  revert Hp. unfold ParseTimeSync; wire_const. open_fixed. unfold AppendTimeSync. strict_run. done.
Qed.

End TimeSync.

(** ** ClockMapping (0x06) *)
Module ClockMapping.

Record msg := { offsetUs : Z }.

Definition AppendClockMapping (dst : bytes) (offsetUs : Z) : bytes :=
  let dst := dst ++ [Version; TypeClockMapping] in
  AppendUint64 dst (uint64 offsetUs).

Definition ParseClockMapping (dgram : bytes) : res Z :=
  reject zlen dgram <>? ClockMappingSize with ErrBadLength;
  _ ← expect_prefix dgram TypeClockMapping;
  u ← slice dgram 2 10 ≫= Uint64;
  Ok (int64 u).

#[export] Instance codec : Codec msg := {
  cappend dst m := Ok (AppendClockMapping dst (offsetUs m));
  cparse d := (λ o, {| offsetUs := o |}) <$> ParseClockMapping d;
  cwf m := - 2 ^ 63 ≤ offsetUs m < 2 ^ 63;
}.

#[export] Instance lawful : LawfulCodec msg.
Proof.
  split.
  - intros dst [o] out Ho; cbn in *. unfold AppendClockMapping. append_guards.
    unfold ParseClockMapping; wire_const. parse_run. rewrite expect_prefix_ok. parse_run.
    rewrite be_decode_64 by (unfold uint64; apply Z.mod_pos_bound; lia).
    parse_run. by rewrite int64_uint64.
  - done.
  - parse_total ParseClockMapping.
Qed.

#[export] Instance strict : StrictCodec msg.
Proof.
  split. intros d a Hd. cbn [cappend cparse codec]. intros (o & Hp & ->)%outcome_fmap_Ok.
  revert Hp. unfold ParseClockMapping; wire_const. open_fixed.
  unfold AppendClockMapping. cbn [offsetUs].
  match goal with |- _ → ?G => set (Q := G) end. parse_run. intros [= <-]. subst Q.
  rewrite uint64_int64 by (change 64 with (8 * zlen [b; b0; b1; b2; b3; b4; b5; b6]);
    apply be_decode_range; bytes_ok_tac).
  unfold AppendUint64. by rewrite be_encode_decode_64 by bytes_ok_tac.
Qed.

End ClockMapping.

(** ** ViewerCount (0x0B) *)
Module ViewerCount.

Record msg := { count : Z }.

Definition AppendViewerCount (dst : bytes) (count : Z) : bytes :=
  let dst := dst ++ [Version; TypeViewerCount] in
  AppendUint32 dst count.

Definition ParseViewerCount (dgram : bytes) : res Z :=
  reject zlen dgram <>? ViewerCountSize with ErrBadLength;
  _ ← expect_prefix dgram TypeViewerCount;
  slice dgram 2 6 ≫= Uint32.

#[export] Instance codec : Codec msg := {
  cappend dst m := Ok (AppendViewerCount dst (count m));
  cparse d := (λ c, {| count := c |}) <$> ParseViewerCount d;
  cwf m := is_uint 32 (count m);
}.

#[export] Instance lawful : LawfulCodec msg.
Proof.
  split.
  - intros dst [c] out Hc; cbn in *. unfold AppendViewerCount. append_guards.
    unfold ParseViewerCount; wire_const. parse_run. rewrite expect_prefix_ok. parse_run.
    by rewrite be_decode_32.
  - done.
  - parse_total ParseViewerCount.
Qed.

#[export] Instance strict : StrictCodec msg.
Proof.
  split. intros d a Hd. cbn [cappend cparse codec]. intros (c & Hp & ->)%outcome_fmap_Ok.
  revert Hp. unfold ParseViewerCount; wire_const. open_fixed.
  unfold AppendViewerCount. by strict_run.
Qed.

End ViewerCount.

(** ** DeliveryAck (0x0C) *)
Module DeliveryAck.

(** [DeliveryMode], a named uint8; the wire values are fixed. *)
Definition DeliveryDatagrams := 0.
Definition DeliveryReliable := 1.
Definition DeliveryDVR := 2.

Record msg := { mode : Z; bufferMs : Z }.

Definition AppendDeliveryAck (dst : bytes) (mode bufferMs : Z) : bytes :=
  let dst := dst ++ [Version; TypeDeliveryAck; mode] in
  AppendUint16 dst bufferMs.

Definition known_mode (mode : Z) : bool :=
  (mode =? DeliveryDatagrams) || (mode =? DeliveryReliable) || (mode =? DeliveryDVR).

Definition ParseDeliveryAck (dgram : bytes) : res (Z * Z) :=
  reject zlen dgram <>? DeliveryAckSize with ErrBadLength;
  _ ← expect_prefix dgram TypeDeliveryAck;
  mode ← index dgram 2;
  reject negb (known_mode mode) with ErrBadType;
  bufferMs ← slice dgram 3 5 ≫= Uint16;
  Ok (mode, bufferMs).

#[export] Instance codec : Codec msg := {
  cappend dst m := Ok (AppendDeliveryAck dst (mode m) (bufferMs m));
  cparse d := (λ p, {| mode := p.1; bufferMs := p.2 |}) <$> ParseDeliveryAck d;
  cwf m := known_mode (mode m) = true ∧ is_uint 16 (bufferMs m);
}.

#[export] Instance lawful : LawfulCodec msg.
Proof.
  split.
  - intros dst [m bu] out [Hm Hb]; cbn in *. unfold AppendDeliveryAck. append_guards.
    unfold ParseDeliveryAck; wire_const. parse_run. rewrite expect_prefix_ok. parse_run.
    rewrite Hm. parse_run. rewrite be_decode_16 by done. by parse_run.
  - done.
  - parse_total ParseDeliveryAck.
Qed.

#[export] Instance strict : StrictCodec msg.
Proof.
  split. intros d a Hd. cbn [cappend cparse codec]. intros ([m bu] & Hp & ->)%outcome_fmap_Ok.
  revert Hp. unfold ParseDeliveryAck; wire_const. open_fixed.
  unfold AppendDeliveryAck. rewrite index_ok by zlia. parse_simpl.
  case_match; [done|]. by strict_run.
Qed.

End DeliveryAck.

(** ** VideoUndeliverable (0x1E) *)
Module VideoUndeliverable.

Record VideoUndeliverable := { KeyframeID : Z; StalledMs : Z }.

Definition AppendVideoUndeliverable (dst : bytes) (m : VideoUndeliverable) : bytes :=
  let dst := dst ++ [Version; TypeVideoUndeliverable] in
  let dst := AppendUint32 dst (KeyframeID m) in
  AppendUint32 dst (StalledMs m).

Definition ParseVideoUndeliverable (dgram : bytes) : res VideoUndeliverable :=
  reject zlen dgram <>? VideoUndeliverableSize with ErrBadLength;
  _ ← expect_prefix dgram TypeVideoUndeliverable;
  kid ← slice dgram 2 6 ≫= Uint32;
  st ← slice dgram 6 10 ≫= Uint32;
  Ok {| KeyframeID := kid; StalledMs := st |}.

#[export] Instance codec : Codec VideoUndeliverable := {
  cappend dst m := Ok (AppendVideoUndeliverable dst m);
  cparse := ParseVideoUndeliverable;
  cwf m := is_uint 32 (KeyframeID m) ∧ is_uint 32 (StalledMs m);
}.

#[export] Instance lawful : LawfulCodec VideoUndeliverable.
Proof.
  split.
  - intros dst [k s] out [Hk Hs]; cbn in *. unfold AppendVideoUndeliverable. append_guards.
    unfold ParseVideoUndeliverable; wire_const. parse_run.
    rewrite expect_prefix_ok. parse_run.
    rewrite !be_decode_32 by done. by parse_run.
  - done.
  - parse_total ParseVideoUndeliverable.
Qed.

#[export] Instance strict : StrictCodec VideoUndeliverable.
Proof.
  split. intros d a Hd. cbn [cappend cparse codec].
  unfold ParseVideoUndeliverable; wire_const. open_fixed.
  unfold AppendVideoUndeliverable. by strict_run.
Qed.

End VideoUndeliverable.

(** ** StripeState (0x10, stripe.go) *)
Module StripeState.

Record StripeState := { Striped : bool; StripeN : Z }.

Definition validateStripeState (s : StripeState) : res unit :=
  if Striped s then
    reject (StripeN s <? 1) || (StripeN s >? MaxStripeLegs) with ErrBadChunkCount; Ok tt
  else
    reject StripeN s <>? 0 with ErrBadChunkCount; Ok tt.

Definition AppendStripeState (dst : bytes) (s : StripeState) : res bytes :=
  _ ← validateStripeState s;
  let flags := if Striped s then stripeFlagStriped else 0 in
  Ok (dst ++ [Version; TypeStripeState; flags; StripeN s; 0]).

Definition ParseStripeState (b : bytes) : res StripeState :=
  reject zlen b <>? StripeStateSize with ErrShortDatagram;
  _ ← expect_prefix b TypeStripeState;
  flags ← index b 2;
  reject has_other flags stripeFlagStriped with ErrBadType;
  n ← index b 3;
  let s := {| Striped := has_flag flags stripeFlagStriped; StripeN := n |} in
  _ ← validateStripeState s;
  Ok s.

(** The delta-routing ordinal; [parityIndex < 0] for a data chunk. *)
Definition StripeOrdinal (chunkIndex chunkCount parityIndex : Z) : Z :=
  if parityIndex >=? 0 then uint32 (chunkCount + uint32 parityIndex) else chunkIndex.

#[export] Instance codec : Codec StripeState := {
  cappend := AppendStripeState;
  cparse := ParseStripeState;
  cwf _ := True;
}.

#[export] Instance lawful : LawfulCodec StripeState.
Proof.
  split.
  - intros dst [st n] out _; cbn. unfold AppendStripeState.
    destruct (validateStripeState _) as [[]| |] eqn:Hv; [|done|done]. cbn. append_guards.
    unfold ParseStripeState; wire_const.
    destruct st; parse_run; rewrite expect_prefix_ok; parse_run;
      [change (has_flag 1 1) with true | change (has_flag 0 1) with false]; by rewrite Hv.
  - intros dst s. cbn. unfold AppendStripeState, validateStripeState. by repeat case_match.
  - parse_total ParseStripeState; unfold validateStripeState; by repeat case_match.
Qed.

End StripeState.

(** ** BroadcastAnnounce (0x03) *)
Module BroadcastAnnounce.

Record msg := { id : bytes }.

Definition AppendBroadcastAnnounce (dst id : bytes) : res bytes :=
  reject (zlen id =? 0) || (zlen id >? 255) with ErrBadBroadcastID;
  let dst := dst ++ [Version; TypeBroadcastAnnounce; uint8 (zlen id)] in
  Ok (dst ++ id).

Definition ParseBroadcastAnnounce (dgram : bytes) : res bytes :=
  reject zlen dgram <? 3 with ErrShortDatagram;
  _ ← expect_prefix dgram TypeBroadcastAnnounce;
  idLen ← index dgram 2;
  reject 3 + idLen <>? zlen dgram with ErrBadBroadcastID;
  id ← slice_from dgram 3;
  reject negb (forallb in_alphabet id) with ErrBadBroadcastID;
  Ok id.

#[export] Instance codec : Codec msg := {
  cappend dst m := AppendBroadcastAnnounce dst (id m);
  cparse d := (λ i, {| id := i |}) <$> ParseBroadcastAnnounce d;
  cwf m := forallb in_alphabet (id m) = true;
}.

#[export] Instance lawful : LawfulCodec msg.
Proof.
  split.
  - intros dst [i] out Ha; cbn in *. unfold AppendBroadcastAnnounce. append_guards.
    unfold ParseBroadcastAnnounce, uint8; wire_const.
    rewrite Z.mod_small by zlia. parse_run. rewrite expect_prefix_ok. parse_run.
    rewrite Ha. by parse_run.
  - append_total AppendBroadcastAnnounce.
  - parse_total ParseBroadcastAnnounce.
Qed.

End BroadcastAnnounce.

(** ** ResumeToken (0x09) *)
Module ResumeToken.

Record msg := { token : bytes }.

Definition AppendResumeToken (dst token : bytes) : res bytes :=
  reject (zlen token =? 0) || (zlen token >? 255) with ErrBadResumeToken;
  let dst := dst ++ [Version; TypeResumeToken; uint8 (zlen token)] in
  Ok (dst ++ token).

Definition ParseResumeToken (msg : bytes) : res bytes :=
  reject zlen msg <? 3 with ErrShortDatagram;
  _ ← expect_prefix msg TypeResumeToken;
  tokenLen ← index msg 2;
  reject (tokenLen =? 0) || (3 + tokenLen <>? zlen msg) with ErrBadResumeToken;
  slice_from msg 3.

#[export] Instance codec : Codec msg := {
  cappend dst m := AppendResumeToken dst (token m);
  cparse d := (λ t, {| token := t |}) <$> ParseResumeToken d;
  cwf _ := True;
}.

#[export] Instance lawful : LawfulCodec msg.
Proof.
  split.
  - intros dst [t] out _; cbn. unfold AppendResumeToken. append_guards.
    unfold ParseResumeToken, uint8; wire_const.
    rewrite Z.mod_small by zlia. parse_run. rewrite expect_prefix_ok. by parse_run.
  - append_total AppendResumeToken.
  - parse_total ParseResumeToken.
Qed.

#[export] Instance strict : StrictCodec msg.
Proof.
  split. intros d a Hd. cbn [cappend cparse codec]. intros (t & Hp & ->)%outcome_fmap_Ok.
  revert Hp. unfold ParseResumeToken; wire_const. parse_inv.
  apply expect_prefix_inv in Hpre as (r & ->).
  destruct r as [|n r]; [zlia|].
  rewrite index_ok by zlia. parse_simpl. case_match eqn:Hg; [done|].
  rewrite slice_from_ok by zlia. parse_simpl. intros [= <-]. cbn [token].
  unfold AppendResumeToken, uint8. wire_const.
  autorewrite with zlen in Hg. pose proof (zlen_nonneg r).
  replace (_ || _) with false by (symmetry; apply Forall_cons_iff in Hd as [_ Hd];
    apply Forall_cons_iff in Hd as [_ Hd]; apply Forall_cons_iff in Hd as [Hn _];
    unfold is_byte in Hn; lia).
  apply Forall_cons_iff in Hd as [_ Hd]. apply Forall_cons_iff in Hd as [_ Hd].
  apply Forall_cons_iff in Hd as [Hn _]. unfold is_byte in Hn.
  rewrite Z.mod_small by lia. cbn. do 4 f_equal. lia.
Qed.

End ResumeToken.

(** ** TelemetryHello (0x0D) *)
Module TelemetryHello.

Record TelemetryHello := {
  Enabled : bool;
  ReportIntervalMs : Z;
  Token : bytes;
  BroadcastKey : bytes;
}.

Definition AppendTelemetryHello (dst : bytes) (h : TelemetryHello) : res bytes :=
  reject zlen (Token h) <>? TelemetrySessionTokenSize with ErrBadTelemetryHello;
  reject zlen (BroadcastKey h) <>? TelemetryBroadcastKeySize with ErrBadTelemetryHello;
  let flags := if Enabled h then flagTelemetryEnabled else 0 in
  let dst := dst ++ [Version; TypeTelemetryHello; flags] in
  let dst := AppendUint16 dst (ReportIntervalMs h) in
  let dst := dst ++ Token h in
  Ok (dst ++ BroadcastKey h).

Definition ParseTelemetryHello (msg : bytes) : res TelemetryHello :=
  reject zlen msg <>? TelemetryHelloSize with ErrBadLength;
  _ ← expect_prefix msg TypeTelemetryHello;
  flags ← index msg 2;
  reject has_other flags flagTelemetryEnabled with ErrBadTelemetryHello;
  ms ← slice msg 3 5 ≫= Uint16;
  token ← slice msg 5 (5 + TelemetrySessionTokenSize);
  key ← slice_from msg (5 + TelemetrySessionTokenSize);
  Ok {| Enabled := has_flag flags flagTelemetryEnabled; ReportIntervalMs := ms;
        Token := token; BroadcastKey := key |}.

#[export] Instance codec : Codec TelemetryHello := {
  cappend := AppendTelemetryHello;
  cparse := ParseTelemetryHello;
  cwf h := is_uint 16 (ReportIntervalMs h);
}.

#[export] Instance lawful : LawfulCodec TelemetryHello.
Proof.
  split.
  - intros dst [en ms tk ky] out Hm; cbn in *. unfold AppendTelemetryHello; cbn.
    append_guards. unfold ParseTelemetryHello; wire_const.
    assert (Htk : zlen tk = 24) by lia. assert (Hky : zlen ky = 6) by lia.
    explode Htk. explode Hky.
    destruct en; parse_run; rewrite expect_prefix_ok; parse_run;
      rewrite be_decode_16 by done; by parse_run.
  - append_total AppendTelemetryHello.
  - parse_total ParseTelemetryHello.
Qed.

#[export] Instance strict : StrictCodec TelemetryHello.
Proof.
  split. intros d a Hd. cbn [cappend cparse codec].
  unfold ParseTelemetryHello; wire_const. open_fixed.
  rewrite index_ok by zlia. parse_simpl. case_match eqn:Hf; [done|].
  unfold AppendTelemetryHello; wire_const. strict_run.
  apply Forall_cons_iff in Hd as [Hb _]. rewrite (flag_bit_canonical b Hb Hf). done.
Qed.

End TelemetryHello.

(** ** RelayCapabilities (0x0F, parity.go) *)
Module RelayCapabilities.

Record RelayCapabilities := { Flags : Z; ParityLevel : Z }.

Definition AppendRelayCapabilities (dst : bytes) (c : RelayCapabilities) : res bytes :=
  reject ParityLevel c >? MaxParitySymbols with ErrParityUnsupported;
  let dst := dst ++ [Version; TypeRelayCapabilities] in
  let dst := AppendUint16 dst (Flags c) in
  Ok (dst ++ [ParityLevel c]).

Definition ParseRelayCapabilities (b : bytes) : res RelayCapabilities :=
  reject zlen b <>? RelayCapabilitiesSize with ErrShortDatagram;
  _ ← expect_prefix b TypeRelayCapabilities;
  flags ← slice b 2 4 ≫= Uint16;
  level ← index b 4;
  reject level >? MaxParitySymbols with ErrParityUnsupported;
  Ok {| Flags := flags; ParityLevel := level |}.

#[export] Instance codec : Codec RelayCapabilities := {
  cappend := AppendRelayCapabilities;
  cparse := ParseRelayCapabilities;
  cwf c := is_uint 16 (Flags c) ∧ is_byte (ParityLevel c);
}.

#[export] Instance lawful : LawfulCodec RelayCapabilities.
Proof.
  split.
  - intros dst [f l] out [Hf Hl]; cbn in *. unfold AppendRelayCapabilities; cbn.
    append_guards. unfold ParseRelayCapabilities; wire_const.
    parse_run. rewrite expect_prefix_ok. parse_run.
    rewrite be_decode_16 by done. by parse_run.
  - append_total AppendRelayCapabilities.
  - parse_total ParseRelayCapabilities.
Qed.

#[export] Instance strict : StrictCodec RelayCapabilities.
Proof.
  split. intros d a Hd. cbn [cappend cparse codec].
  unfold ParseRelayCapabilities; wire_const. open_fixed.
  unfold AppendRelayCapabilities; wire_const.
  rewrite slice_ok by zlia. parse_simpl. unfold Uint16. rewrite be_uint_ok by zlia.
  parse_simpl. rewrite index_ok by zlia. parse_simpl. case_match eqn:Hl; [done|].
  strict_run. by rewrite Hl.
Qed.

End RelayCapabilities.

(** ** SessionClosing (0x17, closing.go) *)
Module SessionClosing.

Record msg := { code : Z }.

Definition code_ok (code : Z) : bool :=
  negb ((code <? MinGawkCloseCode) || (code >? MaxGawkCloseCode)).

Definition AppendSessionClosing (dst : bytes) (code : Z) : res bytes :=
  reject negb (code_ok code) with ErrBadSessionClosing;
  let dst := dst ++ [Version; TypeSessionClosing] in
  Ok (AppendUint32 dst code).

Definition ParseSessionClosing (msg : bytes) : res Z :=
  reject zlen msg <? SessionClosingSize with ErrShortDatagram;
  _ ← expect_prefix msg TypeSessionClosing;
  reject zlen msg <>? SessionClosingSize with ErrBadSessionClosing;
  code ← slice_from msg 2 ≫= Uint32;
  reject negb (code_ok code) with ErrBadSessionClosing;
  Ok code.

#[export] Instance codec : Codec msg := {
  cappend dst m := AppendSessionClosing dst (code m);
  cparse d := (λ c, {| code := c |}) <$> ParseSessionClosing d;
  cwf _ := True;
}.

#[export] Instance lawful : LawfulCodec msg.
Proof.
  split.
  - intros dst [c] out _; cbn. unfold AppendSessionClosing. append_guards.
    unfold ParseSessionClosing; wire_const. parse_run. rewrite expect_prefix_ok. parse_run.
    rewrite be_decode_32 by (unfold code_ok in *; wire_const; lia).
    by rewrite Heqb.
  - append_total AppendSessionClosing.
  - parse_total ParseSessionClosing.
Qed.

#[export] Instance strict : StrictCodec msg.
Proof.
  split. intros d a Hd. cbn [cappend cparse codec]. intros (c & Hp & ->)%outcome_fmap_Ok.
  revert Hp. unfold ParseSessionClosing; wire_const. open_fixed.
  unfold AppendSessionClosing; wire_const. rewrite slice_from_ok by zlia. parse_simpl.
  unfold Uint32. rewrite be_uint_ok by zlia. parse_simpl. case_match eqn:Hc; [done|].
  intros [= <-]. cbn [code]. rewrite Hc. unfold AppendUint32.
  by rewrite be_encode_decode_32 by bytes_ok_tac.
Qed.

End SessionClosing.

(** ** RelayIdentity (0x11) *)
Module RelayIdentity.

Record RelayIdentity := { ServerVersion : bytes; Name : bytes; Notices : Z }.

Definition RelayNoticeScreening := 0x01.

(** the version loop: some byte outside printable ASCII *)
Definition non_printable (s : bytes) : bool :=
  existsb (λ c, (c <? 0x20) || (c >? 0x7e)) s.

Definition AppendRelayIdentity (dst : bytes) (id : RelayIdentity) : res bytes :=
  reject (zlen (ServerVersion id) =? 0)
         || (zlen (ServerVersion id) >? MaxRelayIdentityVersionLen) with ErrBadRelayIdentity;
  reject non_printable (ServerVersion id) with ErrBadRelayIdentity;
  reject zlen (Name id) >? MaxRelayIdentityNameLen with ErrBadRelayIdentity;
  reject negb (utf8_valid (Name id)) with ErrBadRelayIdentity;
  let dst := dst ++ [Version; TypeRelayIdentity; 0; uint8 (zlen (ServerVersion id))] in
  let dst := dst ++ ServerVersion id in
  let dst := dst ++ [uint8 (zlen (Name id))] in
  let dst := dst ++ Name id in
  Ok (if Notices id <>? 0 then dst ++ [Notices id] else dst).

Definition ParseRelayIdentity (msg : bytes) : res RelayIdentity :=
  reject zlen msg <? 5 with ErrShortDatagram;
  _ ← expect_prefix msg TypeRelayIdentity;
  flags ← index msg 2;
  reject flags <>? 0 with ErrBadRelayIdentity;
  versionLen ← index msg 3;
  reject (versionLen =? 0) || (versionLen >? MaxRelayIdentityVersionLen)
    with ErrBadRelayIdentity;
  reject 4 + versionLen + 1 >? zlen msg with ErrBadRelayIdentity;
  serverVersion ← slice msg 4 (4 + versionLen);
  reject non_printable serverVersion with ErrBadRelayIdentity;
  nameLen ← index msg (4 + versionLen);
  reject nameLen >? MaxRelayIdentityNameLen with ErrBadRelayIdentity;
  let nameStart := 4 + versionLen + 1 in
  reject nameStart + nameLen >? zlen msg with ErrBadRelayIdentity;
  name ← slice msg nameStart (nameStart + nameLen);
  reject negb (utf8_valid name) with ErrBadRelayIdentity;
  if nameStart + nameLen <? zlen msg then
    notices ← index msg (nameStart + nameLen);
    Ok {| ServerVersion := serverVersion; Name := name; Notices := notices |}
  else Ok {| ServerVersion := serverVersion; Name := name; Notices := 0 |}.

(** Whatever follows the name: the first byte is the notices, the rest is
    reserved extension space. *)
Lemma parse_identity_append dst m out ext :
  AppendRelayIdentity dst m = Ok out →
  ∃ enc, out = dst ++ enc ∧
    ParseRelayIdentity (enc ++ ext) =
      Ok {| ServerVersion := ServerVersion m; Name := Name m;
            Notices := if Notices m <>? 0 then Notices m else hd 0 ext |}.
Proof.
  destruct m as [v n no]. unfold AppendRelayIdentity; cbn [ServerVersion Name Notices].
  destruct (no <>? 0) eqn:Hno; append_guards; unfold ParseRelayIdentity, uint8; wire_const;
    rewrite !Z.mod_small by zlia; cbn [app]; rewrite <- !app_assoc; cbn [app];
    rewrite expect_prefix_ok; parse_run; rewrite ?Heqb0; parse_run; rewrite ?Heqb2; parse_run.
  - replace (_ <? _) with true by (symmetry; zlia). by parse_run.
  - destruct ext as [|e ext]; cbn [hd].
    + replace (_ <? _) with false by (symmetry; zlia). done.
    + replace (_ <? _) with true by (symmetry; zlia). by parse_run.
Qed.

#[export] Instance codec : Codec RelayIdentity := {
  cappend := AppendRelayIdentity;
  cparse := ParseRelayIdentity;
  cwf _ := True;
}.

#[export] Instance lawful : LawfulCodec RelayIdentity.
Proof.
  split.
  - intros dst m out _ Ho. destruct (parse_identity_append dst m out [] Ho) as (enc & -> & Hp).
    exists enc. rewrite app_nil_r in Hp. split; [done|]. cbn. rewrite Hp.
    destruct m as [v n no]. cbn. by destruct (Z.eqb_spec no 0) as [->|].
  - append_total AppendRelayIdentity.
  - parse_total ParseRelayIdentity.
Qed.

End RelayIdentity.
