(* ===== verification/RoomReader.v ===== *)
(** room.go's [roomReader]: the bounds-checked cursor with a sticky error that
    every room, voice and local-relay parser is written with, the append
    helpers that mirror it, and the two specifications the parsers' proofs
    compose ([reads]: what an encoding reads back as; [rspec]: what a read
    that did not fail says about the bytes it consumed). *)
From S2P Require Export WireBase BroadcastID.
#[local] Open Scope Z_scope.

Record roomReader := MkReader { rbuf : bytes; roff : Z; rerr : option error }.

(** A reader method: the returned value and the reader after it. [Fault] is a
    panic; errors are in the reader. *)
Definition rd (A : Type) : Type := roomReader → res (A * roomReader).
#[export] Instance rd_ret : MRet rd := λ A a r, Ok (a, r).
#[export] Instance rd_bind : MBind rd := λ A B f m r, '(a, r) ← m r; f a r.

Definition advance (r : roomReader) (n : Z) : roomReader :=
  MkReader (rbuf r) (roff r + n) (rerr r).

(** The first error wins. *)
Definition fail (r : roomReader) (e : error) : roomReader :=
  match rerr r with None => MkReader (rbuf r) (roff r) (Some e) | Some _ => r end.

(** [if r.err == nil && cond { r.fail(sentinel, ...) }] *)
Definition check (cond : bool) (sentinel : error) : rd unit := λ r,
  Ok (tt, match rerr r with None => if cond then fail r sentinel else r | Some _ => r end).

Definition u8 (sentinel : error) : rd Z := λ r,
  match rerr r with
  | Some _ => Ok (0, r)
  | None =>
      if roff r + 1 >? zlen (rbuf r) then Ok (0, fail r sentinel) else
      v ← index (rbuf r) (roff r);
      Ok (v, advance r 1)
  end.

Definition u16 (sentinel : error) : rd Z := λ r,
  match rerr r with
  | Some _ => Ok (0, r)
  | None =>
      if roff r + 2 >? zlen (rbuf r) then Ok (0, fail r sentinel) else
      v ← slice_from (rbuf r) (roff r) ≫= Uint16;
      Ok (v, advance r 2)
  end.

Definition u32 (sentinel : error) : rd Z := λ r,
  match rerr r with
  | Some _ => Ok (0, r)
  | None =>
      if roff r + 4 >? zlen (rbuf r) then Ok (0, fail r sentinel) else
      v ← slice_from (rbuf r) (roff r) ≫= Uint32;
      Ok (v, advance r 4)
  end.

(** the common body of [bytes8] and [bytes16], after the length was read *)
Definition take_field (sentinel : error) (n max : Z) : rd bytes := λ r,
  match rerr r with
  | Some _ => Ok ([], r)
  | None =>
      if n >? max then Ok ([], fail r sentinel) else
      if roff r + n >? zlen (rbuf r) then Ok ([], fail r sentinel) else
      v ← slice (rbuf r) (roff r) (roff r + n);
      Ok (v, advance r n)
  end.
Definition bytes8 (sentinel : error) (max : Z) : rd bytes :=
  n ← u8 sentinel; take_field sentinel n max.
Definition bytes16 (sentinel : error) (max : Z) : rd bytes :=
  n ← u16 sentinel; take_field sentinel n max.

(** [str8] and [broadcastID] after their [bytes8] *)
Definition convert (sentinel : error) (o : option bytes) : rd bytes := λ r,
  match rerr r, o with
  | Some _, _ => Ok ([], r)
  | None, None => Ok ([], fail r sentinel)
  | None, Some s => Ok (s, r)
  end.

Definition str8 (sentinel : error) (max : Z) : rd bytes :=
  b ← bytes8 sentinel max;
  convert sentinel (if utf8_valid b then Some b else None).

(** [for i := 0; i < n && r.err == nil; i++ { l = append(l, item()) }] *)
Fixpoint read_loop {A} (item : rd A) (n : nat) (l : list A) : rd (list A) := λ r,
  match n, rerr r with
  | S n', None => (a ← item; read_loop item n' (l ++ [a])) r
  | _, _ => Ok (l, r)
  end.

(** [done]: [Ok tt] for the [nil] error *)
Definition done_ (sentinel : error) (r : roomReader) : res unit :=
  match rerr r with
  | Some e => Err e
  | None => if roff r <>? zlen (rbuf r) then Err sentinel else Ok tt
  end.

Definition checkPrefix (msg : bytes) (msgType minLen : Z) : res unit :=
  reject zlen msg <? minLen with ErrShortDatagram;
  expect_prefix msg msgType.

(** [&roomReader{buf: msg, off: 2}], then the reads, then [done]. *)
Definition run_reader {A} (sentinel : error) (m : rd A) (msg : bytes) : res A :=
  '(a, r) ← m (MkReader msg 2 None);
  _ ← done_ sentinel r;
  Ok a.

Definition appendStr8 (dst s : bytes) (max : Z) (sentinel : error) : res bytes :=
  reject zlen s >? max with sentinel;
  reject negb (utf8_valid s) with sentinel;
  Ok (dst ++ [uint8 (zlen s)] ++ s).

Section BroadcastIDs.
Context (unicode_upper : bytes → bytes).

Definition broadcastID (sentinel : error) : rd bytes :=
  b ← bytes8 sentinel Length;
  convert sentinel (Normalize unicode_upper b).

Definition appendBroadcastID (dst id : bytes) (sentinel : error) : res bytes :=
  match Normalize unicode_upper id with
  | None => Err sentinel
  | Some norm => Ok (dst ++ [uint8 (zlen norm)] ++ norm)
  end.
End BroadcastIDs.

(** ** What an encoding reads back as *)

Definition reads {A} (m : rd A) (enc : bytes) (a : A) : Prop := ∀ pre post,
  m (MkReader (pre ++ enc ++ post) (zlen pre) None) =
  Ok (a, MkReader (pre ++ enc ++ post) (zlen pre + zlen enc) None).

Lemma reads_ret {A} (a : A) : reads (mret a) [] a.
Proof. intros pre post. cbn. by rewrite zlen_nil, Z.add_0_r. Qed.

Lemma reads_bind {A B} (m : rd A) (f : A → rd B) e1 e2 a b :
  reads m e1 a → reads (f a) e2 b → reads (m ≫= f) (e1 ++ e2) b.
Proof.
  intros H1 H2 pre post. unfold mbind, rd_bind.
  rewrite <- (app_assoc e1 e2 post), (H1 pre (e2 ++ post)). cbn [mbind outcome_bind].
  specialize (H2 (pre ++ e1) post). rewrite zlen_app, <- !app_assoc in H2. rewrite H2.
  by rewrite zlen_app, Z.add_assoc.
Qed.

Lemma reads_check b s : b = false → reads (check b s) [] tt.
Proof. intros -> pre post. cbn. by rewrite zlen_nil, Z.add_0_r. Qed.

Lemma reads_u8 s v : reads (u8 s) [v] v.
Proof.
  intros pre post. unfold u8. cbn [rerr rbuf roff].
  replace (_ >? _) with false by zlia.
  rewrite index_ok by zlia. cbn [mbind outcome_bind].
  unfold zlen at 1. rewrite Nat2Z.id. rewrite lookup_total_app_r by lia.
  by rewrite Nat.sub_diag.
Qed.

Lemma reads_uint n (f : bytes → res Z) s v (r : rd Z) :
  is_uint (8 * Z.of_nat n) v →
  (∀ b, f b = be_uint n b) →
  (∀ rd, r rd = match rerr rd with
     | Some _ => Ok (0, rd)
     | None => if roff rd + Z.of_nat n >? zlen (rbuf rd) then Ok (0, fail rd s) else
               v ← slice_from (rbuf rd) (roff rd) ≫= f; Ok (v, advance rd (Z.of_nat n)) end) →
  reads r (be_encode n v) v.
Proof.
  intros Hv Hf Hr pre post. rewrite Hr. cbn [rerr rbuf roff].
  replace (_ >? _) with false by zlia.
  rewrite slice_from_mid by done. cbn [mbind outcome_bind]. rewrite Hf, be_uint_ok by zlia.
  cbn [mbind outcome_bind]. replace n with (length (be_encode n v)) at 1 by apply length_be_encode.
  rewrite take_app_length, be_decode_encode by done.
  unfold advance. cbn. by rewrite zlen_be_encode.
Qed.
Lemma reads_u16 s v : is_uint 16 v → reads (u16 s) (be_encode 2 v) v.
Proof. intros. by apply (reads_uint 2 Uint16 s). Qed.
Lemma reads_u32 s v : is_uint 32 v → reads (u32 s) (be_encode 4 v) v.
Proof. intros. by apply (reads_uint 4 Uint32 s). Qed.

Lemma reads_field s v max : zlen v ≤ max → reads (take_field s (zlen v) max) v v.
Proof.
  intros Hm pre post. unfold take_field. cbn [rerr rbuf roff].
  replace (_ >? max) with false by lia. replace (_ >? _) with false by zlia.
  by rewrite slice_mid.
Qed.

(** length-prefixed fields *)
Definition enc8 (v : bytes) : bytes := zlen v :: v.
Definition enc16 (v : bytes) : bytes := be_encode 2 (zlen v) ++ v.

Lemma reads_bytes8 s v max : zlen v ≤ max → reads (bytes8 s max) (enc8 v) v.
Proof.
  intros Hm. apply (reads_bind (u8 s) _ [zlen v] v (zlen v)); [apply reads_u8|].
  by apply reads_field.
Qed.
Lemma reads_bytes16 s v max :
  zlen v ≤ max → max < 2 ^ 16 → reads (bytes16 s max) (enc16 v) v.
Proof.
  intros Hm Hx. apply (reads_bind (u16 s) _ (be_encode 2 (zlen v)) v (zlen v)).
  - apply reads_u16. zlia.
  - by apply reads_field.
Qed.

Lemma reads_convert s o v : o = Some v → reads (convert s o) [] v.
Proof. intros -> pre post. cbn. by rewrite zlen_nil, Z.add_0_r. Qed.

Lemma reads_str8 s v max :
  zlen v ≤ max → utf8_valid v = true → reads (str8 s max) (enc8 v) v.
Proof.
  intros Hm Hu. rewrite <- (app_nil_r (enc8 v)). eapply reads_bind; [by apply reads_bytes8|].
  apply reads_convert. by rewrite Hu.
Qed.
Lemma reads_broadcastID up s id : valid_id id → reads (broadcastID up s) (enc8 id) id.
Proof.
  intros Hid. rewrite <- (app_nil_r (enc8 id)).
  eapply reads_bind; [apply reads_bytes8; by rewrite (proj1 Hid)|].
  apply reads_convert. by apply Normalize_id.
Qed.

Lemma reads_loop {A} (item : rd A) (enc : A → bytes) (l : list A) :
  Forall (λ a, reads item (enc a) a) l →
  ∀ acc, reads (read_loop item (length l) acc) (concat (map enc l)) (acc ++ l).
Proof.
  induction 1 as [|a l Ha _ IH]; intros acc pre post.
  - cbn. by rewrite app_nil_r, zlen_nil, Z.add_0_r.
  - cbn [length read_loop rerr map concat]. 
    replace (acc ++ a :: l) with ((acc ++ [a]) ++ l) by (by rewrite <- app_assoc).
    exact (reads_bind item (λ a, read_loop item (length l) (acc ++ [a])) (enc a) _ a _
             Ha (IH (acc ++ [a])) pre post).
Qed.

Lemma reads_list {A} (item : rd A) (enc : A → bytes) (l : list A) :
  Forall (λ a, reads item (enc a) a) l →
  reads (read_loop item (Z.to_nat (zlen l)) []) (concat (map enc l)) l.
Proof. intros H. unfold zlen. rewrite Nat2Z.id. exact (reads_loop item enc l H []). Qed.

(** A parser on the whole of what it reads. *)
Lemma run_reader_reads {A} (m : rd A) s t enc a :
  reads m enc a → run_reader s m (Version :: t :: enc) = Ok a.
Proof.
  intros H. unfold run_reader. specialize (H [Version; t] []).
  rewrite app_nil_r in H. change ([Version; t] ++ enc) with (Version :: t :: enc) in H.
  change (zlen [Version; t]) with 2 in H. rewrite H. cbn [mbind outcome_bind].
  unfold done_. cbn [rerr roff rbuf].
  replace (2 + zlen enc <>? _) with false by (symmetry; apply negb_false_iff; zlia). done.
Qed.

(** ** What a read that did not fail says

    [rspec s m P]: [m] never panics and keeps the buffer and the cursor within
    it; the only error it adds is [s], and it never clears one; if the reader
    has no error after it, there was none before it and the bytes consumed and
    the value are related by [P]. *)

Definition reader_ok (r : roomReader) : Prop :=
  bytes_ok (rbuf r) ∧ 0 ≤ roff r ≤ zlen (rbuf r).

Definition consumed {A} (r r' : roomReader) (a : A) (P : bytes → A → Prop) : Prop :=
  rerr r = None ∧ ∃ pre enc post,
    rbuf r = pre ++ enc ++ post ∧ roff r = zlen pre ∧ roff r' = zlen pre + zlen enc ∧ P enc a.

Definition rspec {A} (s : error) (m : rd A) (P : bytes → A → Prop) : Prop :=
  ∀ r, reader_ok r → ∃ a r', m r = Ok (a, r') ∧ rbuf r' = rbuf r ∧ reader_ok r' ∧
    (∀ e, rerr r = Some e → rerr r' = Some e) ∧
    (∀ e, rerr r' = Some e → rerr r = Some e ∨ e = s) ∧
    (rerr r' = None → consumed r r' a P).

Lemma consumed_nothing {A} r (a : A) (P : bytes → A → Prop) :
  reader_ok r → rerr r = None → P [] a → consumed r r a P.
Proof.
  intros [_ Ho] He HP. split; [done|].
  exists (take (Z.to_nat (roff r)) (rbuf r)), [], (drop (Z.to_nat (roff r)) (rbuf r)).
  unfold zlen in *. rewrite length_take. cbn [app length].
  split; [by rewrite take_drop|]. split; [lia|]. split; [lia|done].
Qed.

Lemma rspec_impl {A} s (m : rd A) (P Q : bytes → A → Prop) :
  rspec s m P → (∀ enc a, bytes_ok enc → P enc a → Q enc a) → rspec s m Q.
Proof.
  intros H HPQ r Hr. destruct (H r Hr) as (a & r' & Hm & Hb & Hok & He & Hs & Hc).
  exists a, r'. repeat (split; [done|]). intros Hn.
  destruct (Hc Hn) as (H0 & pre & enc & post & Hbuf & Ho & Ho' & HP).
  split; [done|]. exists pre, enc, post. repeat (split; [done|]). apply HPQ; [|done].
  destruct Hr as [Hr _]. rewrite Hbuf in Hr. by apply Forall_app in Hr as [_ [? _]%Forall_app].
Qed.

Lemma rspec_ret {A} s (a : A) : rspec s (mret a) (λ enc b, enc = [] ∧ b = a).
Proof.
  intros r Hr. exists a, r. split; [done|]. split; [done|]. split; [done|].
  split; [done|]. split; [by left|]. intros Hn. by apply consumed_nothing.
Qed.

(** A property of the value that holds even after an error. *)
Definition yields {A} (m : rd A) (V : A → Prop) : Prop :=
  ∀ r a r', reader_ok r → m r = Ok (a, r') → V a.

Lemma rspec_bind_yields {A B} s (m : rd A) (f : A → rd B) V P (Q : A → bytes → B → Prop)
    (R : bytes → B → Prop) :
  yields m V → rspec s m P → (∀ a, V a → rspec s (f a) (Q a)) →
  (∀ e1 e2 a b, P e1 a → Q a e2 b → R (e1 ++ e2) b) →
  rspec s (m ≫= f) R.
Proof.
  intros HV Hm Hf HR r Hr. destruct (Hm r Hr) as (a & r1 & Hm1 & Hb1 & Hr1 & He1 & Hs1 & Hc1).
  destruct (Hf a (HV _ _ _ Hr Hm1) r1 Hr1) as (b & r2 & Hm2 & Hb2 & Hr2 & He2 & Hs2 & Hc2).
  exists b, r2. unfold mbind, rd_bind. rewrite Hm1. cbn [mbind outcome_bind].
  split; [done|]. split; [congruence|]. split; [done|].
  split; [eauto|]. split; [intros e [H|H]%Hs2; eauto|]. intros Hn.
  destruct (Hc2 Hn) as (Hn1 & pre2 & enc2 & post2 & Hbuf2 & Ho2 & Ho2' & HQ).
  destruct (Hc1 Hn1) as (Hn0 & pre1 & enc1 & post1 & Hbuf1 & Ho1 & Ho1' & HP).
  split; [done|].
  assert (pre2 = pre1 ++ enc1 ∧ post1 = enc2 ++ post2) as [-> ->].
  { rewrite Hb1, Hbuf1, app_assoc in Hbuf2. apply app_inj_1 in Hbuf2 as [<- <-]; [done|].
    rewrite Ho1' in Ho2. unfold zlen in *. rewrite length_app. lia. }
  exists pre1, (enc1 ++ enc2), post2. rewrite Hbuf1, <- !app_assoc.
  split; [done|]. split; [done|]. split; [zlia|]. eauto.
Qed.

Lemma rspec_bind {A B} s (m : rd A) (f : A → rd B) P (Q : A → bytes → B → Prop)
    (R : bytes → B → Prop) :
  rspec s m P → (∀ a, rspec s (f a) (Q a)) →
  (∀ e1 e2 a b, P e1 a → Q a e2 b → R (e1 ++ e2) b) →
  rspec s (m ≫= f) R.
Proof. intros Hm Hf. apply (rspec_bind_yields s m f (λ _, True) P Q R); auto. by intros r a r'. Qed.

(** A reading step on a reader without an error: it fails with [s] or consumes
    the next [enc]. *)
Lemma rspec_step {A} s (m : rd A) (P : bytes → A → Prop) :
  (∀ r e, rerr r = Some e → ∃ a, m r = Ok (a, r)) →
  (∀ pre rest, bytes_ok rest →
     (∃ a, m (MkReader (pre ++ rest) (zlen pre) None) =
           Ok (a, MkReader (pre ++ rest) (zlen pre) (Some s))) ∨
     (∃ a enc post, rest = enc ++ post ∧ P enc a ∧
        m (MkReader (pre ++ rest) (zlen pre) None) =
        Ok (a, MkReader (pre ++ rest) (zlen pre + zlen enc) None))) →
  rspec s m P.
Proof.
  intros Hsticky Hstep [b o [e|]] Hr.
  { destruct (Hsticky (MkReader b o (Some e)) e eq_refl) as [a Ha]. exists a, (MkReader b o (Some e)).
    split; [done|]. split; [done|]. split; [done|]. split; [done|]. split; [by left|done]. }
  destruct Hr as [Hb Ho]; cbn in *.
  destruct (Hstep (take (Z.to_nat o) b) (drop (Z.to_nat o) b)) as [(a & Ha)|(a & enc & post & Hd & HP & Ha)];
    [by apply Forall_drop| |];
    (replace (zlen (take _ b)) with o in Ha by (unfold zlen in *; rewrite length_take; lia));
    rewrite take_drop in Ha; rewrite Ha.
  - do 2 eexists. split; [done|]. split; [done|]. split; [done|]. split; [done|].
    split; [intros e [= <-]; by right|done].
  - do 2 eexists. split; [done|]. split; [done|].
    assert (Hlen : zlen b = o + zlen enc + zlen post).
    { rewrite <- (take_drop (Z.to_nat o) b), Hd, !zlen_app. unfold zlen in *.
      rewrite length_take. lia. }
    split; [split; cbn; [done|zlia]|]. split; [done|]. split; [done|]. intros _. split; [done|].
    exists (take (Z.to_nat o) b), enc, post. cbn. rewrite <- Hd, take_drop.
    split; [done|]. split; [unfold zlen in *; rewrite length_take; lia|].
    split; [f_equal; unfold zlen in *; rewrite length_take; lia|done].
Qed.

Lemma rspec_u8 s : rspec s (u8 s) (λ enc v, enc = [v] ∧ is_byte v).
Proof.
  apply rspec_step; [intros r e H; unfold u8; rewrite H; by eexists|].
  intros pre rest Hb. unfold u8. cbn [rerr rbuf roff]. destruct rest as [|v rest].
  - left. replace (_ >? _) with true by zlia. by eexists.
  - right. apply Forall_cons_iff in Hb as [Hv _]. exists v, [v], rest.
    pose proof (reads_u8 s v pre rest) as H. unfold u8 in H. cbn [rerr rbuf roff app] in H.
    by rewrite H.
Qed.

Lemma be_encode_take n b :
  bytes_ok b → (n ≤ length b)%nat → be_encode n (be_decode (take n b)) = take n b.
Proof.
  intros Hb Hn. replace n with (length (take n b)) at 1 by (rewrite length_take; lia).
  by apply be_encode_decode, Forall_take.
Qed.

Lemma rspec_uint n (f : bytes → res Z) s (r : rd Z) :
  (∀ b, f b = be_uint n b) →
  (∀ rd, r rd = match rerr rd with
     | Some _ => Ok (0, rd)
     | None => if roff rd + Z.of_nat n >? zlen (rbuf rd) then Ok (0, fail rd s) else
               v ← slice_from (rbuf rd) (roff rd) ≫= f; Ok (v, advance rd (Z.of_nat n)) end) →
  rspec s r (λ enc v, enc = be_encode n v ∧ is_uint (8 * Z.of_nat n) v).
Proof.
  intros Hf Hr. apply rspec_step; [intros rr e H; rewrite Hr, H; by eexists|].
  intros pre rest Hb. destruct (decide (length rest < n)%nat) as [Hl|Hl].
  - left. rewrite Hr. cbn [rerr rbuf roff].
    replace (_ >? _) with true; [by eexists|].
    symmetry. apply Z.gtb_lt. unfold zlen. rewrite length_app. lia.
  - right. exists (be_decode (take n rest)), (take n rest), (drop n rest).
    split; [by rewrite take_drop|].
    assert (Hz : zlen (take n rest) = Z.of_nat n) by (unfold zlen; rewrite length_take; lia).
    assert (Hu : is_uint (8 * Z.of_nat n) (be_decode (take n rest))).
    { rewrite <- Hz. by apply be_decode_range, Forall_take. }
    split; [split; [symmetry; apply be_encode_take; [done|lia]|done]|].
    pose proof (reads_uint n f s _ r Hu Hf Hr pre (drop n rest)) as H.
    rewrite be_encode_take, take_drop in H by (done || lia). exact H.
Qed.
Lemma rspec_u16 s : rspec s (u16 s) (λ enc v, enc = be_encode 2 v ∧ is_uint 16 v).
Proof. by apply (rspec_uint 2 Uint16). Qed.
Lemma rspec_u32 s : rspec s (u32 s) (λ enc v, enc = be_encode 4 v ∧ is_uint 32 v).
Proof. by apply (rspec_uint 4 Uint32). Qed.

Lemma rspec_field s n max :
  0 ≤ n → rspec s (take_field s n max) (λ enc v, enc = v ∧ zlen v = n ∧ n ≤ max).
Proof.
  intros Hn. apply rspec_step; [intros r e H; unfold take_field; rewrite H; by eexists|].
  intros pre rest Hb. unfold take_field. cbn [rerr rbuf roff].
  destruct (Z.gtb_spec n max); [left; by eexists|].
  destruct (Z.gtb_spec (zlen pre + n) (zlen (pre ++ rest))); [left; by eexists|].
  right. rewrite zlen_app in *. exists (take (Z.to_nat n) rest), (take (Z.to_nat n) rest), (drop (Z.to_nat n) rest).
  assert (Hz : zlen (take (Z.to_nat n) rest) = n) by (unfold zlen in *; rewrite length_take; lia).
  split; [by rewrite take_drop|]. split; [done|].
  rewrite <- (take_drop (Z.to_nat n) rest) at 1. rewrite slice_mid by (done || lia).
  cbn [mbind outcome_bind]. unfold advance. cbn. by rewrite Hz.
Qed.

Lemma rspec_check s b : rspec s (check b s) (λ enc _, enc = [] ∧ b = false).
Proof.
  intros r Hr. unfold check. destruct (rerr r) as [e|] eqn:He.
  { exists tt, r. split; [done|]. split; [done|]. split; [done|]. rewrite He.
    split; [done|]. split; [by left|done]. }
  destruct b.
  - exists tt, (fail r s). unfold fail. rewrite He. cbn. repeat (split; [done|]).
    split; [intros e [= <-]; by right|done].
  - exists tt, r. split; [done|]. split; [done|]. split; [done|]. rewrite He.
    split; [done|]. split; [done|]. intros _. by apply consumed_nothing.
Qed.

Lemma rspec_convert s o : rspec s (convert s o) (λ enc v, enc = [] ∧ o = Some v).
Proof.
  intros r Hr. unfold convert. destruct (rerr r) as [e|] eqn:He.
  { exists [], r. split; [done|]. split; [done|]. split; [done|]. rewrite He.
    split; [done|]. split; [by left|done]. }
  destruct o as [v|].
  - exists v, r. split; [done|]. split; [done|]. split; [done|]. rewrite He.
    split; [done|]. split; [done|]. intros _. by apply consumed_nothing.
  - exists [], (fail r s). unfold fail. rewrite He. cbn. repeat (split; [done|]).
    split; [intros e [= <-]; by right|done].
Qed.

Lemma yields_u8 s : yields (u8 s) is_byte.
Proof.
  intros [b o [e|]] a r' [Hb Ho]; unfold u8; cbn in *; [intros [= <- <-]; done|].
  case_match; [intros [= <- <-]; done|]. rewrite index_ok by lia. cbn. intros [= <- <-].
  destruct (index_spec (E:=error) b o Hb) as (x & Hx & Hr); [lia|].
  rewrite index_ok in Hx by lia. injection Hx as ->. done.
Qed.
Lemma yields_u16 s : yields (u16 s) (λ v, 0 ≤ v).
Proof.
  intros [b o [e|]] a r' [Hb Ho]; unfold u16; cbn in *; [intros [= <- <-]; done|].
  case_match; [intros [= <- <-]; done|]. rewrite slice_from_ok by lia. cbn.
  unfold Uint16. destruct (be_uint_spec (E:=error) 2 (drop (Z.to_nat o) b)) as (x & -> & Hx);
    [by apply Forall_drop|unfold zlen in *; rewrite length_drop; lia|].
  cbn. intros [= <- <-]. lia.
Qed.

Lemma rspec_bytes8 s max :
  rspec s (bytes8 s max) (λ enc v, enc = enc8 v ∧ zlen v ≤ max).
Proof.
  eapply rspec_bind_yields; [apply yields_u8|apply rspec_u8|intros n Hn; apply rspec_field, Hn|].
  cbn. intros e1 e2 n v [-> _] (-> & <- & ?). done.
Qed.
Lemma rspec_bytes16 s max :
  rspec s (bytes16 s max) (λ enc v, enc = enc16 v ∧ zlen v ≤ max).
Proof.
  eapply rspec_bind_yields; [apply yields_u16|apply rspec_u16|intros n Hn; apply rspec_field, Hn|].
  cbn. intros e1 e2 n v [-> _] (-> & <- & ?). done.
Qed.
Lemma rspec_str8 s max :
  rspec s (str8 s max) (λ enc v, enc = enc8 v ∧ zlen v ≤ max ∧ utf8_valid v = true).
Proof.
  eapply rspec_bind; [apply rspec_bytes8|intros b; apply rspec_convert|].
  cbn. intros e1 e2 b v [-> ?] [-> Hv]. case_match; [|done]. injection Hv as ->.
  by rewrite app_nil_r.
Qed.
Lemma rspec_broadcastID up s :
  rspec s (broadcastID up s) (λ enc id, valid_id id ∧
    ∃ b, enc = enc8 b ∧ Normalize up b = Some id).
Proof.
  eapply rspec_bind; [apply rspec_bytes8|intros b; apply rspec_convert|].
  cbn. intros e1 e2 b v [-> ?] [-> Hv]. rewrite app_nil_r. split; [by eapply Normalize_valid|eauto].
Qed.

Lemma rspec_loop {A} s (item : rd A) P n : rspec s item P → ∀ acc,
  rspec s (read_loop item n acc) (λ enc l, ∃ encs l', enc = concat encs ∧ l = acc ++ l' ∧
    length l' = n ∧ Forall2 P encs l').
Proof.
  intros Hi. induction n as [|n IH]; intros acc.
  { intros r Hr. exists acc, r. cbn. split; [done|]. split; [done|]. split; [done|].
    split; [done|]. split; [by left|]. intros Hn. apply consumed_nothing; [done|done|].
    exists [], []. split; [done|]. split; [by rewrite app_nil_r|]. split; [done|constructor]. }
  assert (Hstep : rspec s (a ← item; read_loop item n (acc ++ [a]))
    (λ enc l, ∃ encs l', enc = concat encs ∧ l = acc ++ l' ∧ length l' = S n ∧ Forall2 P encs l')).
  { eapply rspec_bind; [exact Hi|intros a; apply IH|].
    cbn. intros e1 e2 a l HP (encs & l' & -> & -> & Hl & Hf).
    exists (e1 :: encs), (a :: l'). rewrite <- app_assoc. cbn. rewrite Hl.
    split; [done|]. split; [done|]. split; [done|by constructor]. }
  intros r Hr. cbn [read_loop]. destruct (rerr r) as [e|] eqn:He; [|pose proof (Hstep r Hr) as Hx; rewrite He in Hx; exact Hx].
  exists acc, r. split; [done|]. split; [done|]. split; [done|]. rewrite He.
  split; [done|]. split; [by left|done].
Qed.

(** A whole message: the parser does not panic; its errors are the sentinel;
    what it accepts is consumed to the last byte. *)
Lemma run_reader_spec {A} s (m : rd A) P msg :
  rspec s m P → bytes_ok msg → 2 ≤ zlen msg →
  match run_reader s m msg with
  | Ok a => ∃ b0 b1 enc, msg = b0 :: b1 :: enc ∧ P enc a
  | Err e => e = s
  | Fault => False
  end.
Proof.
  intros Hm Hb Hl. unfold run_reader.
  destruct (Hm (MkReader msg 2 None)) as (a & r & -> & Hbuf & Hr & _ & Hs & Hc); [done|].
  cbn [mbind outcome_bind]. unfold done_. destruct (rerr r) as [e|]; cbn.
  { by destruct (Hs e eq_refl). }
  destruct (Hc eq_refl) as (_ & pre & enc & post & Heq & Ho & Ho' & HP). cbn in *.
  rewrite Hbuf, Ho'. destruct (_ <>? _) eqn:He; cbn; [done|].
  rewrite Heq, !zlen_app in He. assert (post = []) as -> by (apply zlen_zero; lia).
  rewrite app_nil_r in Heq. destruct pre as [|b0 [|b1 [|b2 pre]]]; [zlia|zlia| |exfalso; zlia].
  by exists b0, b1, enc.
Qed.

(** ** Automation: walking through a parser *)

Lemma reads_to {A} (m : rd A) enc enc' a : reads m enc a → enc = enc' → reads m enc' a.
Proof. by intros H <-. Qed.

(** Side conditions are left for the caller, the values are found at the end. *)
Ltac reads_prim :=
  lazymatch goal with
  | |- reads (check _ _) _ _ => eapply reads_check
  | |- reads (u8 _) _ _ => eapply reads_u8
  | |- reads (u16 _) _ _ => eapply reads_u16
  | |- reads (u32 _) _ _ => eapply reads_u32
  | |- reads (bytes8 _ _) _ _ => eapply reads_bytes8
  | |- reads (bytes16 _ _) _ _ => eapply reads_bytes16
  | |- reads (str8 _ _) _ _ => eapply reads_str8
  | |- reads (broadcastID _ _) _ _ => eapply reads_broadcastID
  | |- reads (read_loop _ _ _) _ _ => eapply reads_list
  | |- _ => idtac
  end.
Ltac reads_all :=
  lazymatch goal with
  | |- reads (mbind _ _) _ _ => eapply reads_bind; [reads_prim|reads_all]
  | |- reads (mret _) _ _ => eapply reads_ret
  | |- reads _ _ _ => reads_prim
  end.

(** The converse: collect what every read of the parser says. *)
Lemma rspec_bind_ex {A B} s (m : rd A) (f : A → rd B) P (Q : A → bytes → B → Prop) :
  rspec s m P → (∀ a, rspec s (f a) (Q a)) →
  rspec s (m ≫= f) (λ enc b, ∃ e1 e2 a, enc = e1 ++ e2 ∧ P e1 a ∧ Q a e2 b).
Proof. intros Hm Hf. eapply rspec_bind; [exact Hm|exact Hf|]. cbn. eauto 10. Qed.

Create HintDb rspec discriminated.
#[export] Hint Resolve rspec_u8 rspec_u16 rspec_u32 rspec_bytes8 rspec_bytes16 rspec_str8
  rspec_broadcastID rspec_check rspec_ret rspec_convert : rspec.
Ltac rspec_all :=
  lazymatch goal with
  | |- rspec _ (mbind _ _) _ => eapply rspec_bind_ex; [rspec_all|intros; rspec_all]
  | |- rspec _ (mret _) _ => apply rspec_ret
  | |- rspec _ _ _ => solve [eauto with rspec] || idtac
  end.
Ltac rspec_inv :=
  repeat match goal with
  | H : ∃ _, _ |- _ => destruct H as [? H]
  | H : _ ∧ _ |- _ => destruct H as [? H]
  | H : _ = _ ++ _ |- _ => subst
  end.
Ltac rspec_intro :=
  eapply rspec_impl; [rspec_all|cbn beta; intros ? ? ? ?; rspec_inv; subst].

(** A parser that checks the prefix and then reads the fields to the end. *)
Definition parse_fields {A} (s : error) (t n : Z) (m : rd A) (msg : bytes) : res A :=
  _ ← checkPrefix msg t n; run_reader s m msg.

(** [checkPrefix] on the messages it is called with. *)
Lemma checkPrefix_ok msg t n rest :
  msg = Version :: t :: rest → n ≤ zlen msg → checkPrefix msg t n = Ok tt.
Proof.
  intros -> Hl. unfold checkPrefix. replace (_ <? _) with false by lia.
  apply expect_prefix_ok.
Qed.
Lemma checkPrefix_nofault msg t n : bytes_ok msg → 2 ≤ n → checkPrefix msg t n ≠ Fault.
Proof.
  intros Hb Hn. unfold checkPrefix. case_match eqn:H; [done|].
  apply expect_prefix_nofault; [done|lia].
Qed.
Lemma checkPrefix_inv msg t n :
  checkPrefix msg t n = Ok tt → n ≤ zlen msg ∧ ∃ rest, msg = Version :: t :: rest.
Proof.
  unfold checkPrefix. case_match eqn:H; [done|]. intros Hp. split; [lia|].
  by apply expect_prefix_inv in Hp.
Qed.
Lemma checkPrefix_err msg t n e :
  checkPrefix msg t n = Err e → e ∈ [ErrShortDatagram; ErrBadVersion; ErrBadType].
Proof.
  unfold checkPrefix, expect_prefix, index. intros H.
  repeat (case_match || simplify_eq/=); set_solver.
Qed.

Lemma parse_fields_ok {A} s t n (m : rd A) enc a :
  reads m enc a → n ≤ 2 + zlen enc → parse_fields s t n m (Version :: t :: enc) = Ok a.
Proof.
  intros Hr Hn. unfold parse_fields. erewrite checkPrefix_ok; [|done|zlia].
  cbn [mbind outcome_bind]. by apply run_reader_reads.
Qed.
Lemma parse_fields_spec {A} s t n (m : rd A) P msg :
  rspec s m P → bytes_ok msg → 2 ≤ n →
  match parse_fields s t n m msg with
  | Ok a => ∃ enc, msg = Version :: t :: enc ∧ P enc a
  | Err e => e ∈ [ErrShortDatagram; ErrBadVersion; ErrBadType; s]
  | Fault => False
  end.
Proof.
  intros Hm Hb Hn. unfold parse_fields.
  destruct (checkPrefix msg t n) as [[]|e|] eqn:Hp; cbn [mbind outcome_bind].
  - apply checkPrefix_inv in Hp as [Hl (rest & ->)].
    pose proof (run_reader_spec s m P _ Hm Hb ltac:(lia)) as H.
    destruct (run_reader s m _) as [a|e|]; [|subst; set_solver|done].
    destruct H as (b0 & b1 & enc & [= <- <- <-] & HP). eauto.
  - apply checkPrefix_err in Hp. set_solver.
  - by apply checkPrefix_nofault in Hp.
Qed.

(** The two codec laws that do not look at the encoder. *)
Lemma parse_fields_nofault {A} s t n (m : rd A) P msg :
  rspec s m P → bytes_ok msg → 2 ≤ n → parse_fields s t n m msg ≠ Fault.
Proof.
  intros Hm Hb Hn H. pose proof (parse_fields_spec s t n m P msg Hm Hb Hn) as Hs.
  by rewrite H in Hs.
Qed.
Lemma parse_fields_inv {A} s t n (m : rd A) P msg a :
  rspec s m P → bytes_ok msg → 2 ≤ n → parse_fields s t n m msg = Ok a →
  ∃ enc, msg = Version :: t :: enc ∧ P enc a.
Proof.
  intros Hm Hb Hn H. pose proof (parse_fields_spec s t n m P msg Hm Hb Hn) as Hs.
  by rewrite H in Hs.
Qed.

(** The append helpers. *)
Lemma appendStr8_ok dst v max s out :
  appendStr8 dst v max s = Ok out → max < 2 ^ 8 →
  out = dst ++ enc8 v ∧ zlen v ≤ max ∧ utf8_valid v = true.
Proof.
  unfold appendStr8. case_match eqn:Hl; [done|]. case_match eqn:Hu; [done|].
  intros [= <-] Hm. unfold uint8, enc8. rewrite Z.mod_small by zlia.
  apply negb_false_iff in Hu. split; [done|]. split; [lia|done].
Qed.
Lemma appendStr8_total dst v max s :
  zlen v ≤ max → max < 2 ^ 8 → utf8_valid v = true → appendStr8 dst v max s = Ok (dst ++ enc8 v).
Proof.
  intros Hl Hm Hu. unfold appendStr8, uint8, enc8. rewrite Hu, Z.mod_small by zlia.
  by replace (_ >? _) with false by lia.
Qed.
Lemma appendStr8_nofault dst v max s : appendStr8 dst v max s ≠ Fault.
Proof. unfold appendStr8. by repeat case_match. Qed.
Lemma appendBroadcastID_ok up dst id s out :
  appendBroadcastID up dst id s = Ok out →
  ∃ norm, Normalize up id = Some norm ∧ valid_id norm ∧ out = dst ++ enc8 norm.
Proof.
  unfold appendBroadcastID. case_match eqn:Hn; [|done]. intros [= <-].
  pose proof (Normalize_valid _ _ _ Hn) as Hv. eexists. split; [done|]. split; [done|].
  unfold uint8, enc8. rewrite Z.mod_small; [done|]. destruct Hv as [-> _]. done.
Qed.
Lemma appendBroadcastID_total up dst id s :
  valid_id id → appendBroadcastID up dst id s = Ok (dst ++ enc8 id).
Proof.
  intros Hv. unfold appendBroadcastID. rewrite Normalize_id by done.
  unfold uint8, enc8. rewrite Z.mod_small; [done|]. destruct Hv as [-> _]. done.
Qed.
Lemma appendBroadcastID_nofault up dst id s : appendBroadcastID up dst id s ≠ Fault.
Proof. unfold appendBroadcastID. by case_match. Qed.
