(* ===== verification/WireVoice.v ===== *)
(** wire/voice.go: the voice session's messages (VoiceHello, VoiceState and
    VoiceControl records, VoiceFrame datagrams). *)
From S2P Require Export WireControl RoomReader GoUtf8.
#[local] Open Scope Z_scope.

Definition TypeVoiceHello := 0x1A.
Definition TypeVoiceFrame := 0x1B.
Definition TypeVoiceState := 0x1C.
Definition TypeVoiceControl := 0x1D.
Definition VoiceProtocolVersion := 1.
Definition VoiceFrameHeaderSize := 12.
Definition MaxVoicePayload := MaxDatagramSize - VoiceFrameHeaderSize.
Definition MaxVoiceTarget := 31.
Definition MaxVoiceTicketLen := 512.
Definition MaxVoiceNameLen := 64.
Definition MaxVoiceURLLen := 512.
Definition MaxVoiceRosterEntries := 200.
Definition voiceHelloFlagMask := Z.lor (Z.lor 0x01 0x02) 0x04.
Definition VoiceFrameFlagEnd := 0x01.
Definition voiceFrameFlagMask := VoiceFrameFlagEnd.
Definition voiceStateFlagMask := 0x3f.
Definition voiceControlFlagMask := Z.lor 0x01 0x02.

#[export] Hint Unfold TypeVoiceHello TypeVoiceFrame TypeVoiceState TypeVoiceControl
  VoiceProtocolVersion VoiceFrameHeaderSize MaxVoicePayload MaxVoiceTarget MaxVoiceTicketLen
  MaxVoiceNameLen VoiceFrameFlagEnd voiceFrameFlagMask : wire_const.

(** ** VoiceHello (0x1A) *)
Module VoiceHello.

Record VoiceHello := { Protocol : Z; Flags : Z; Ticket : bytes }.

Definition AppendVoiceHello (dst : bytes) (h : VoiceHello) : res bytes :=
  reject Protocol h <>? VoiceProtocolVersion with ErrBadVoiceHello;
  reject has_other (Flags h) voiceHelloFlagMask with ErrBadVoiceHello;
  reject (zlen (Ticket h) =? 0) || (zlen (Ticket h) >? MaxVoiceTicketLen) with ErrBadVoiceHello;
  let dst := dst ++ [Version; TypeVoiceHello; Protocol h; Flags h] in
  let dst := AppendUint16 dst (uint16 (zlen (Ticket h))) in
  Ok (dst ++ Ticket h).

Definition ParseVoiceHello (msg : bytes) : res VoiceHello :=
  _ ← checkPrefix msg TypeVoiceHello 6;
  protocol ← index msg 2;
  flags ← index msg 3;
  reject protocol <>? VoiceProtocolVersion with ErrBadVoiceHello;
  reject has_other flags voiceHelloFlagMask with ErrBadVoiceHello;
  n ← slice msg 4 6 ≫= Uint16;
  reject (n =? 0) || (n >? MaxVoiceTicketLen) with ErrBadVoiceHello;
  reject 6 + n <>? zlen msg with ErrBadVoiceHello;
  ticket ← slice_from msg 6;
  Ok {| Protocol := protocol; Flags := flags; Ticket := ticket |}.

#[export] Instance codec : Codec VoiceHello := {
  cappend := AppendVoiceHello;
  cparse := ParseVoiceHello;
  cwf _ := True;
}.

#[export] Instance lawful : LawfulCodec VoiceHello.
Proof.
  split.
  - intros dst [pr fl tk] out _; cbn in *. unfold AppendVoiceHello; cbn [Protocol Flags Ticket].
    append_guards. unfold ParseVoiceHello, uint16. rewrite Z.mod_small by (wire_const; zlia).
    erewrite checkPrefix_ok; [|done|zlia]. wire_const. parse_run.
    rewrite Heqb0. parse_run. rewrite be_decode_16 by zlia. by parse_run.
  - append_total AppendVoiceHello.
  - intros d Hd. cbn. unfold ParseVoiceHello.
    destruct (checkPrefix d TypeVoiceHello 6) as [[]| |] eqn:H; cbn [mbind outcome_bind];
      [|done|by apply checkPrefix_nofault in H].
    apply checkPrefix_inv in H as [Hl _]. wire_const. nofault.
Qed.
End VoiceHello.

(** ** VoiceFrame (0x1B) *)
Module VoiceFrame.

Record VoiceFrameHeader := { End_ : bool; Target_ : Z; Speaker : Z; Seq : Z }.

Definition AppendVoiceFrame (dst : bytes) (h : VoiceFrameHeader) (payload : bytes) : res bytes :=
  reject (zlen payload >? MaxVoicePayload) || ((zlen payload =? 0) && negb (End_ h))
    with ErrBadVoiceFrame;
  reject Target_ h >? MaxVoiceTarget with ErrBadVoiceFrame;
  let flags := if End_ h then VoiceFrameFlagEnd else 0 in
  let dst := dst ++ [Version; TypeVoiceFrame; flags; Target_ h] in
  let dst := AppendUint32 dst (Speaker h) in
  let dst := AppendUint32 dst (Seq h) in
  Ok (dst ++ payload).

Definition ParseVoiceFrame (dgram : bytes) : res (VoiceFrameHeader * bytes) :=
  _ ← checkPrefix dgram TypeVoiceFrame VoiceFrameHeaderSize;
  flags ← index dgram 2;
  reject has_other flags voiceFrameFlagMask with ErrBadVoiceFrame;
  target ← index dgram 3;
  speaker ← slice dgram 4 8 ≫= Uint32;
  sq ← slice dgram 8 12 ≫= Uint32;
  let h := {| End_ := has_flag flags VoiceFrameFlagEnd; Target_ := target;
              Speaker := speaker; Seq := sq |} in
  reject Target_ h >? MaxVoiceTarget with ErrBadVoiceFrame;
  payload ← slice_from dgram VoiceFrameHeaderSize;
  reject (zlen payload =? 0) && negb (End_ h) with ErrBadVoiceFrame;
  Ok (h, payload).

#[export] Instance codec : Codec (VoiceFrameHeader * bytes) := {
  cappend dst m := AppendVoiceFrame dst m.1 m.2;
  cparse := ParseVoiceFrame;
  cwf m := is_uint 8 (Target_ m.1) ∧ is_uint 32 (Speaker m.1) ∧ is_uint 32 (Seq m.1);
}.

#[export] Instance lawful : LawfulCodec (VoiceFrameHeader * bytes).
Proof.
  split.
  - intros dst [[en tg sp sq] pl] out (Ht & Hs & Hq); cbn in Ht, Hs, Hq |- *.
    unfold AppendVoiceFrame; cbn [End_ Target_ Speaker Seq]. append_guards.
    unfold ParseVoiceFrame. erewrite checkPrefix_ok; [|done|destruct en; wire_const; zlia].
    wire_const. destruct en; parse_run; rewrite !be_decode_32 by done; cbn [Target_ End_];
      rewrite ?Heqb0; [|done]. by rewrite andb_comm.
  - append_total AppendVoiceFrame.
  - intros d Hd. cbn. unfold ParseVoiceFrame.
    destruct (checkPrefix d TypeVoiceFrame VoiceFrameHeaderSize) as [[]| |] eqn:H;
      cbn [mbind outcome_bind]; [|done|by apply checkPrefix_nofault in H].
    apply checkPrefix_inv in H as [Hl _]. wire_const. nofault.
Qed.
End VoiceFrame.

(** ** VoiceState (0x1C) *)
Module VoiceState.

Record VoiceState := { Flags : Z; Session : Z; Name : bytes }.

Definition AppendVoiceState (dst : bytes) (s : VoiceState) : res bytes :=
  reject has_other (Flags s) voiceStateFlagMask with ErrBadVoiceState;
  let dst := dst ++ [Version; TypeVoiceState; Flags s] in
  let dst := AppendUint32 dst (Session s) in
  appendStr8 dst (Name s) MaxVoiceNameLen ErrBadVoiceState.

Definition read_fields : rd VoiceState :=
  flags ← u8 ErrBadVoiceState;
  _ ← check (has_other flags voiceStateFlagMask) ErrBadVoiceState;
  session ← u32 ErrBadVoiceState;
  name ← str8 ErrBadVoiceState MaxVoiceNameLen;
  mret {| Flags := flags; Session := session; Name := name |}.
Definition ParseVoiceState : bytes → res VoiceState :=
  parse_fields ErrBadVoiceState TypeVoiceState 8 read_fields.

Definition fields_ok (s : VoiceState) : Prop :=
  has_other (Flags s) voiceStateFlagMask = false ∧ is_uint 32 (Session s) ∧
  zlen (Name s) ≤ MaxVoiceNameLen ∧ utf8_valid (Name s) = true.
Definition enc_fields (s : VoiceState) : bytes :=
  [Flags s] ++ be_encode 4 (Session s) ++ enc8 (Name s).

Lemma reads_fields s : fields_ok s → reads read_fields (enc_fields s) s.
Proof.
  destruct s as [fl se na]. unfold fields_ok, enc_fields; cbn [Flags Session Name].
  intros (Hf & Hs & Hn & Hu).
  eapply reads_to; [unfold read_fields; reads_all; done|]. cbn. by rewrite !app_nil_r.
Qed.
Lemma rspec_fields : rspec ErrBadVoiceState read_fields (λ enc s, fields_ok s ∧ enc = enc_fields s).
Proof.
  unfold read_fields. rspec_intro. unfold fields_ok, enc_fields; cbn [Flags Session Name].
  rewrite !app_nil_r. done.
Qed.
Lemma append_fields dst s out : AppendVoiceState dst s = Ok out → is_uint 32 (Session s) →
  out = dst ++ Version :: TypeVoiceState :: enc_fields s ∧ fields_ok s.
Proof.
  unfold AppendVoiceState. case_match eqn:Hf; [done|]. intros Ho Hs.
  apply appendStr8_ok in Ho as (-> & Hn & Hu); [|done].
  unfold AppendUint32, enc_fields. by rewrite <- !app_assoc.
Qed.

#[export] Instance codec : Codec VoiceState := {
  cappend := AppendVoiceState;
  cparse := ParseVoiceState;
  cwf s := is_uint 32 (Session s);
}.
#[export] Instance lawful : LawfulCodec VoiceState.
Proof.
  split.
  - intros dst s out Hs Ho. destruct (append_fields _ _ _ Ho Hs) as [-> Hok].
    eexists. split; [done|]. apply parse_fields_ok; [by apply reads_fields|].
    unfold enc_fields, enc8. zlia.
  - intros dst s. cbn. unfold AppendVoiceState. case_match; [done|]. apply appendStr8_nofault.
  - intros d Hd. by eapply parse_fields_nofault; [apply rspec_fields|..].
Qed.
#[export] Instance strict : StrictCodec VoiceState.
Proof.
  split. intros d s Hd Hp.
  apply (parse_fields_inv _ _ _ _ _ _ _ rspec_fields) in Hp as (enc & -> & (Hf & _ & Hn & Hu) & ->);
    [|done|done]. cbn. unfold AppendVoiceState. rewrite Hf. by rewrite appendStr8_total.
Qed.
End VoiceState.

(** ** VoiceControl (0x1D) *)
Module VoiceControl.

Record msg := { flags : Z }.

Definition AppendVoiceControl (dst : bytes) (flags : Z) : res bytes :=
  reject has_other flags voiceControlFlagMask with ErrBadVoiceControl;
  Ok (dst ++ [Version; TypeVoiceControl; flags]).

Definition ParseVoiceControl (msg : bytes) : res Z :=
  _ ← checkPrefix msg TypeVoiceControl 3;
  reject zlen msg <>? 3 with ErrBadVoiceControl;
  f ← index msg 2;
  reject has_other f voiceControlFlagMask with ErrBadVoiceControl;
  Ok f.

#[export] Instance codec : Codec msg := {
  cappend dst m := AppendVoiceControl dst (flags m);
  cparse d := Build_msg <$> ParseVoiceControl d;
  cwf _ := True;
}.

#[export] Instance lawful : LawfulCodec msg.
Proof.
  split.
  - intros dst [f] out _; cbn. unfold AppendVoiceControl. append_guards.
    unfold ParseVoiceControl. erewrite checkPrefix_ok; [|done|zlia]. wire_const. parse_run.
    by rewrite Heqb.
  - append_total AppendVoiceControl.
  - intros d Hd. cbn. apply outcome_fmap_total. unfold ParseVoiceControl.
    destruct (checkPrefix d TypeVoiceControl 3) as [[]| |] eqn:H;
      cbn [mbind outcome_bind]; [|done|by apply checkPrefix_nofault in H].
    apply checkPrefix_inv in H as [Hl _]. nofault.
Qed.

#[export] Instance strict : StrictCodec msg.
Proof.
  split. intros d a Hd. cbn. unfold ParseVoiceControl.
  destruct (checkPrefix d TypeVoiceControl 3) as [[]| |] eqn:H; cbn [mbind outcome_bind];
    [|done..].
  apply checkPrefix_inv in H as [Hl (rest & ->)]. case_match eqn:Hn; [done|].
  assert (Hr : zlen rest = 1) by zlia. explode Hr.
  rewrite index_ok by zlia. parse_simpl. case_match eqn:Hf; [done|]. cbn. intros [= <-].
  unfold AppendVoiceControl. cbn [flags]. by rewrite Hf.
Qed.
End VoiceControl.

(** ** Names *)

Definition TruncateVoiceName (s : bytes) : bytes :=
  let s := if negb (utf8_valid s) then runes s else s in
  truncate s MaxVoiceNameLen.

(** Whatever a Mumble server sends, the name fits the wire. *)
Lemma TruncateVoiceName_ok s :
  zlen (TruncateVoiceName s) ≤ MaxVoiceNameLen ∧ utf8_valid (TruncateVoiceName s) = true.
Proof.
  unfold TruncateVoiceName. split; [by apply truncate_le|]. apply truncate_valid.
  destruct (utf8_valid s) eqn:Hv; cbn [negb]; [done|apply runes_valid].
Qed.
