(* ===== verification/WireRoom.v ===== *)
(** wire/room.go, first half: the room control protocol's constants, record
    framing, the attachment and participant records, RoomHello and RoomState.
    The events and commands are in RoomMessages. *)
From S2P Require Export RoomReader WireVoice.
#[local] Open Scope Z_scope.

Definition TypeRoomHello := 0x13.
Definition TypeRoomState := 0x14.
Definition TypeRoomEvent := 0x15.
Definition TypeRoomCommand := 0x16.
Definition RoomProtocolVersion := 1.
Definition RoomRecordHeaderSize := 2.
Definition MaxRoomRecordSize := 16384.
Definition MaxRoomNicknameLen := 32.
Definition MaxRoomCodeLen := 32.
Definition MaxRoomDisplayNameLen := 64.
Definition MaxRoomLabelLen := 32.
Definition MaxRoomIdentityLen := 64.
Definition MaxRoomRejectMessageLen := 128.
Definition RoomCreatorTokenSize := 16.
Definition RoomKeySize := 6.
Definition ResumeTokenSize := 16.
Definition roomClientKindMax := 2.
Definition roomCapMask := Z.lor 0x01 0x02.
Definition roomStateFlagMask := Z.lor (Z.lor 0x01 0x02) 0x04.
Definition RoomAttachmentFlagLive := 0x01.
Definition roomAttachmentFlagMask := RoomAttachmentFlagLive.
Definition roomParticipantFlagMask := Z.lor 0x01 0x02.

(** ** Record framing *)

Definition AppendRoomRecord (dst msg : bytes) : res bytes :=
  reject (zlen msg <? 2) || (zlen msg >? MaxRoomRecordSize) with ErrBadRoomRecord;
  Ok (AppendUint16 dst (uint16 (zlen msg)) ++ msg).

Definition ParseRoomRecordLength (hdr : bytes) : res Z :=
  reject zlen hdr <? RoomRecordHeaderSize with ErrShortDatagram;
  n ← slice hdr 0 2 ≫= Uint16;
  reject (n <? 2) || (n >? MaxRoomRecordSize) with ErrBadRoomRecord;
  Ok n.

(** ** Data *)

Module RoomHello.
Record RoomHello := { Protocol : Z; ClientKind : Z; WantCaps : Z; Nickname : bytes }.
End RoomHello.
Module RoomAttachment.
Record RoomAttachment := { BroadcastID : bytes; Label : bytes; Live : bool; ViewerCount : Z }.
End RoomAttachment.
Module RoomParticipant.
Record RoomParticipant := { ID : Z; Kind : Z; Flags : Z; Nickname : bytes; Identity : bytes }.
End RoomParticipant.
Module RoomState.
Record RoomState := {
  Flags : Z; Caps : Z; Seq : Z; YourID : Z; Code : bytes; DisplayName : bytes;
  CreatorToken : bytes; Key : bytes;
  Attachments : list RoomAttachment.RoomAttachment;
  Participants : list RoomParticipant.RoomParticipant;
}.
End RoomState.
Import RoomHello(RoomHello) RoomAttachment(RoomAttachment) RoomParticipant(RoomParticipant)
  RoomState(RoomState).

(** ** Attachments *)
Section Room.
Context (unicode_upper : bytes → bytes).

Definition appendRoomAttachment (dst : bytes) (a : RoomAttachment) (sentinel : error) : res bytes :=
  dst ← appendBroadcastID unicode_upper dst (RoomAttachment.BroadcastID a) sentinel;
  dst ← appendStr8 dst (RoomAttachment.Label a) MaxRoomLabelLen sentinel;
  let flags := if RoomAttachment.Live a then RoomAttachmentFlagLive else 0 in
  let dst := dst ++ [flags] in
  Ok (AppendUint32 dst (RoomAttachment.ViewerCount a)).

Definition attachment (sentinel : error) : rd RoomAttachment :=
  id ← broadcastID unicode_upper sentinel;
  label ← str8 sentinel MaxRoomLabelLen;
  flags ← u8 sentinel;
  _ ← check (has_other flags roomAttachmentFlagMask) sentinel;
  count ← u32 sentinel;
  mret {| RoomAttachment.BroadcastID := id; RoomAttachment.Label := label;
          RoomAttachment.Live := has_flag flags RoomAttachmentFlagLive;
          RoomAttachment.ViewerCount := count |}.

(** ** Participants *)

Definition appendRoomParticipant (dst : bytes) (p : RoomParticipant) (sentinel : error)
    : res bytes :=
  reject RoomParticipant.Kind p >? roomClientKindMax with sentinel;
  reject has_other (RoomParticipant.Flags p) roomParticipantFlagMask with sentinel;
  let dst := AppendUint16 dst (RoomParticipant.ID p) in
  let dst := dst ++ [RoomParticipant.Kind p; RoomParticipant.Flags p] in
  dst ← appendStr8 dst (RoomParticipant.Nickname p) MaxRoomNicknameLen sentinel;
  appendStr8 dst (RoomParticipant.Identity p) MaxRoomIdentityLen sentinel.

Definition participant (sentinel : error) : rd RoomParticipant :=
  id ← u16 sentinel;
  kind ← u8 sentinel;
  _ ← check (kind >? roomClientKindMax) sentinel;
  flags ← u8 sentinel;
  _ ← check (has_other flags roomParticipantFlagMask) sentinel;
  nickname ← str8 sentinel MaxRoomNicknameLen;
  identity ← str8 sentinel MaxRoomIdentityLen;
  mret {| RoomParticipant.ID := id; RoomParticipant.Kind := kind; RoomParticipant.Flags := flags;
          RoomParticipant.Nickname := nickname; RoomParticipant.Identity := identity |}.

(** ** RoomHello (0x13) *)

Definition AppendRoomHello (dst : bytes) (h : RoomHello) : res bytes :=
  reject RoomHello.Protocol h <>? RoomProtocolVersion with ErrBadRoomHello;
  reject RoomHello.ClientKind h >? roomClientKindMax with ErrBadRoomHello;
  reject has_other (RoomHello.WantCaps h) roomCapMask with ErrBadRoomHello;
  let dst := dst ++ [Version; TypeRoomHello; RoomHello.Protocol h; RoomHello.ClientKind h;
                     RoomHello.WantCaps h] in
  appendStr8 dst (RoomHello.Nickname h) MaxRoomNicknameLen ErrBadRoomHello.

Definition read_hello : rd RoomHello :=
  protocol ← u8 ErrBadRoomHello;
  _ ← check (protocol <>? RoomProtocolVersion) ErrBadRoomHello;
  kind ← u8 ErrBadRoomHello;
  _ ← check (kind >? roomClientKindMax) ErrBadRoomHello;
  caps ← u8 ErrBadRoomHello;
  _ ← check (has_other caps roomCapMask) ErrBadRoomHello;
  nickname ← str8 ErrBadRoomHello MaxRoomNicknameLen;
  mret {| RoomHello.Protocol := protocol; RoomHello.ClientKind := kind;
          RoomHello.WantCaps := caps; RoomHello.Nickname := nickname |}.
Definition ParseRoomHello : bytes → res RoomHello :=
  parse_fields ErrBadRoomHello TypeRoomHello 6 read_hello.

(** ** RoomState (0x14) *)

(** [for _, x := range l { if dst, err = item(dst, x); err != nil { return } }] *)
Fixpoint append_all {A} (item : bytes → A → res bytes) (dst : bytes) (l : list A) : res bytes :=
  match l with
  | [] => Ok dst
  | x :: l' => dst ← item dst x; append_all item dst l'
  end.

Definition AppendRoomState (dst : bytes) (s : RoomState) : res bytes :=
  let token := RoomState.CreatorToken s in
  let key := RoomState.Key s in
  reject has_other (RoomState.Flags s) roomStateFlagMask with ErrBadRoomState;
  reject has_other (RoomState.Caps s) roomCapMask with ErrBadRoomState;
  reject zlen (RoomState.Code s) =? 0 with ErrBadRoomState;
  reject (zlen token <>? 0) && (zlen token <>? RoomCreatorTokenSize) with ErrBadRoomState;
  reject (zlen key <>? 0) && (zlen key <>? RoomKeySize) with ErrBadRoomState;
  reject zlen (RoomState.Attachments s) >? 255 with ErrBadRoomState;
  reject zlen (RoomState.Participants s) >? 65535 with ErrBadRoomState;
  let dst := dst ++ [Version; TypeRoomState; RoomState.Flags s; RoomState.Caps s] in
  let dst := AppendUint32 dst (RoomState.Seq s) in
  let dst := AppendUint16 dst (RoomState.YourID s) in
  dst ← appendStr8 dst (RoomState.Code s) MaxRoomCodeLen ErrBadRoomState;
  dst ← appendStr8 dst (RoomState.DisplayName s) MaxRoomDisplayNameLen ErrBadRoomState;
  let dst := dst ++ [uint8 (zlen token)] in
  let dst := dst ++ token in
  let dst := dst ++ [uint8 (zlen key)] in
  let dst := dst ++ key in
  let dst := dst ++ [uint8 (zlen (RoomState.Attachments s))] in
  dst ← append_all (λ d a, appendRoomAttachment d a ErrBadRoomState) dst (RoomState.Attachments s);
  let dst := AppendUint16 dst (uint16 (zlen (RoomState.Participants s))) in
  dst ← append_all (λ d p, appendRoomParticipant d p ErrBadRoomState) dst (RoomState.Participants s);
  reject zlen dst >? MaxRoomRecordSize with ErrBadRoomState;
  Ok dst.

Definition read_state : rd RoomState :=
  flags ← u8 ErrBadRoomState;
  _ ← check (has_other flags roomStateFlagMask) ErrBadRoomState;
  caps ← u8 ErrBadRoomState;
  _ ← check (has_other caps roomCapMask) ErrBadRoomState;
  sq ← u32 ErrBadRoomState;
  you ← u16 ErrBadRoomState;
  code ← str8 ErrBadRoomState MaxRoomCodeLen;
  _ ← check (zlen code =? 0) ErrBadRoomState;
  name ← str8 ErrBadRoomState MaxRoomDisplayNameLen;
  tok ← bytes8 ErrBadRoomState RoomCreatorTokenSize;
  _ ← check ((zlen tok <>? 0) && (zlen tok <>? RoomCreatorTokenSize)) ErrBadRoomState;
  key ← bytes8 ErrBadRoomState RoomKeySize;
  _ ← check ((zlen key <>? 0) && (zlen key <>? RoomKeySize)) ErrBadRoomState;
  n ← u8 ErrBadRoomState;
  attachments ← read_loop (attachment ErrBadRoomState) (Z.to_nat n) [];
  m ← u16 ErrBadRoomState;
  participants ← read_loop (participant ErrBadRoomState) (Z.to_nat m) [];
  mret {| RoomState.Flags := flags; RoomState.Caps := caps; RoomState.Seq := sq;
          RoomState.YourID := you; RoomState.Code := code; RoomState.DisplayName := name;
          RoomState.CreatorToken := tok; RoomState.Key := key;
          RoomState.Attachments := attachments; RoomState.Participants := participants |}.
Definition ParseRoomState : bytes → res RoomState :=
  parse_fields ErrBadRoomState TypeRoomState 16 read_state.
End Room.

(** ** Well-formed values and their encodings *)

Definition text_ok (s : bytes) (max : Z) : Prop := zlen s ≤ max ∧ utf8_valid s = true.

Definition attachment_ok (a : RoomAttachment) : Prop :=
  valid_id (RoomAttachment.BroadcastID a) ∧ text_ok (RoomAttachment.Label a) MaxRoomLabelLen ∧
  is_uint 32 (RoomAttachment.ViewerCount a).
Definition enc_attachment (a : RoomAttachment) : bytes :=
  enc8 (RoomAttachment.BroadcastID a) ++ enc8 (RoomAttachment.Label a) ++
  [if RoomAttachment.Live a then RoomAttachmentFlagLive else 0] ++
  be_encode 4 (RoomAttachment.ViewerCount a).

Definition participant_ok (p : RoomParticipant) : Prop :=
  is_uint 16 (RoomParticipant.ID p) ∧ RoomParticipant.Kind p ≤ roomClientKindMax ∧
  has_other (RoomParticipant.Flags p) roomParticipantFlagMask = false ∧
  text_ok (RoomParticipant.Nickname p) MaxRoomNicknameLen ∧
  text_ok (RoomParticipant.Identity p) MaxRoomIdentityLen.
Definition enc_participant (p : RoomParticipant) : bytes :=
  be_encode 2 (RoomParticipant.ID p) ++ [RoomParticipant.Kind p; RoomParticipant.Flags p] ++
  enc8 (RoomParticipant.Nickname p) ++ enc8 (RoomParticipant.Identity p).

Definition hello_ok (h : RoomHello) : Prop :=
  RoomHello.Protocol h = RoomProtocolVersion ∧ RoomHello.ClientKind h ≤ roomClientKindMax ∧
  has_other (RoomHello.WantCaps h) roomCapMask = false ∧
  text_ok (RoomHello.Nickname h) MaxRoomNicknameLen.
Definition enc_hello (h : RoomHello) : bytes :=
  [RoomHello.Protocol h; RoomHello.ClientKind h; RoomHello.WantCaps h] ++
  enc8 (RoomHello.Nickname h).

Definition opt_len (s : bytes) (n : Z) : Prop := zlen s = 0 ∨ zlen s = n.
Definition state_ok (s : RoomState) : Prop :=
  has_other (RoomState.Flags s) roomStateFlagMask = false ∧
  has_other (RoomState.Caps s) roomCapMask = false ∧
  is_uint 32 (RoomState.Seq s) ∧ is_uint 16 (RoomState.YourID s) ∧
  zlen (RoomState.Code s) ≠ 0 ∧ text_ok (RoomState.Code s) MaxRoomCodeLen ∧
  text_ok (RoomState.DisplayName s) MaxRoomDisplayNameLen ∧
  opt_len (RoomState.CreatorToken s) RoomCreatorTokenSize ∧ opt_len (RoomState.Key s) RoomKeySize ∧
  zlen (RoomState.Attachments s) ≤ 255 ∧ zlen (RoomState.Participants s) ≤ 65535 ∧
  Forall attachment_ok (RoomState.Attachments s) ∧ Forall participant_ok (RoomState.Participants s).
Definition enc_state (s : RoomState) : bytes :=
  [RoomState.Flags s; RoomState.Caps s] ++ be_encode 4 (RoomState.Seq s) ++
  be_encode 2 (RoomState.YourID s) ++ enc8 (RoomState.Code s) ++ enc8 (RoomState.DisplayName s) ++
  enc8 (RoomState.CreatorToken s) ++ enc8 (RoomState.Key s) ++
  [zlen (RoomState.Attachments s)] ++ concat (map enc_attachment (RoomState.Attachments s)) ++
  be_encode 2 (zlen (RoomState.Participants s)) ++
  concat (map enc_participant (RoomState.Participants s)).

Lemma has_flag_live b : has_flag (if b : bool then RoomAttachmentFlagLive else 0) RoomAttachmentFlagLive = b.
Proof. by destruct b. Qed.
Lemma has_other_live b : has_other (if b : bool then RoomAttachmentFlagLive else 0) roomAttachmentFlagMask = false.
Proof. by destruct b. Qed.
Lemma opt_len_check s n : opt_len s n ↔ (zlen s <>? 0) && (zlen s <>? n) = false.
Proof. unfold opt_len. split; intros; lia. Qed.

Section RoomLaws.
Context (up : bytes → bytes).

Lemma reads_attachment s a : attachment_ok a → reads (attachment up s) (enc_attachment a) a.
Proof.
  destruct a as [id lb lv vc]. intros (Hid & [Hl Hu] & Hv). cbn in *.
  assert (Hread : ∀ fl, has_other fl roomAttachmentFlagMask = false →
    reads (attachment up s) (enc8 id ++ enc8 lb ++ [fl] ++ be_encode 4 vc)
      (RoomAttachment.Build_RoomAttachment id lb (has_flag fl RoomAttachmentFlagLive) vc)).
  { intros fl Hfl. eapply reads_to; [unfold attachment; reads_all; done|].
    cbn -[be_encode enc8]. by rewrite !app_nil_r. }
  rewrite <- (has_flag_live lv) at 2. apply Hread, has_other_live.
Qed.
Lemma rspec_attachment s : rspec s (attachment up s) (λ _ a, attachment_ok a).
Proof. unfold attachment. rspec_intro. done. Qed.

Lemma reads_participant s p : participant_ok p → reads (participant s) (enc_participant p) p.
Proof.
  destruct p as [id kd fl nk idt]. intros (Hid & Hk & Hf & [Hn Hu] & [Hi Hv]). cbn in *.
  eapply reads_to; [unfold participant; reads_all; try done; lia|].
  unfold enc_participant. cbn -[be_encode enc8]. by rewrite !app_nil_r.
Qed.
Lemma rspec_participant s :
  rspec s (participant s) (λ enc p, participant_ok p ∧ enc = enc_participant p).
Proof.
  unfold participant. rspec_intro. unfold participant_ok, enc_participant, text_ok. cbn -[be_encode enc8].
  rewrite !app_nil_r. split; [|done]. repeat split; try done; lia.
Qed.

Lemma reads_hello h : hello_ok h → reads read_hello (enc_hello h) h.
Proof.
  destruct h as [pr kd cp nk]. intros (Hp & Hk & Hf & [Hn Hu]). cbn in *.
  eapply reads_to; [unfold read_hello; reads_all; try done; lia|].
  unfold enc_hello. cbn -[enc8]. by rewrite !app_nil_r.
Qed.
Lemma rspec_hello : rspec ErrBadRoomHello read_hello (λ enc h, hello_ok h ∧ enc = enc_hello h).
Proof.
  unfold read_hello. rspec_intro. unfold hello_ok, enc_hello, text_ok. cbn -[enc8].
  rewrite !app_nil_r. split; [|done]. repeat split; try done; lia.
Qed.

#[local] Hint Resolve rspec_attachment rspec_participant rspec_loop : rspec.

Lemma reads_state s : state_ok s → reads (read_state up) (enc_state s) s.
Proof.
  destruct s as [fl cp sq yo cd dn tk ky at_ pt].
  intros (Hf & Hc & Hs & Hy & Hc0 & [Hc1 Hc2] & [Hd1 Hd2] & Ht & Hk & Ha & Hp & Hat & Hpt). cbn in *.
  apply opt_len_check in Ht as Ht', Hk as Hk'.
  pose proof (zlen_nonneg at_). pose proof (zlen_nonneg pt).
  eapply reads_to.
  - unfold read_state. reads_all; try done; try lia.
    + destruct Ht; unfold RoomCreatorTokenSize in *; lia.
    + destruct Hk; unfold RoomKeySize in *; lia.
    + eapply Forall_impl; [exact Hat|]. intros; by apply reads_attachment.
    + eapply Forall_impl; [exact Hpt|]. intros; by apply reads_participant.
  - unfold enc_state. cbn -[be_encode enc8 concat map]. by rewrite !app_nil_r.
Qed.

Lemma rspec_state : rspec ErrBadRoomState (read_state up) (λ _ s, state_ok s).
Proof.
  unfold read_state. rspec_intro. unfold state_ok, text_ok. cbn.
  rewrite !opt_len_check. unfold is_byte in *. unfold zlen in *.
  repeat match goal with H : length _ = Z.to_nat _ |- _ => rewrite H end.
  repeat (split; [first [done|lia]|]). split; eapply Forall2_Forall_r; eauto.
  all: apply Forall_true; naive_solver.
Qed.

(** ** The encoders *)

Lemma append_all_ok {A} (item : bytes → A → res bytes) (enc : A → bytes) (Q R : A → Prop) l :
  (∀ d x out, Q x → item d x = Ok out → out = d ++ enc x ∧ R x) →
  ∀ dst out, Forall Q l → append_all item dst l = Ok out →
  out = dst ++ concat (map enc l) ∧ Forall R l.
Proof.
  intros Hi. induction l as [|x l IH]; intros dst out HQ; cbn [append_all].
  - intros [= <-]. by rewrite app_nil_r.
  - apply Forall_cons_iff in HQ as [Hx HQ]. intros (d & Hd & Ho)%outcome_bind_Ok.
    apply Hi in Hd as [-> HR]; [|done]. apply IH in Ho as [-> HRs]; [|done].
    cbn. rewrite <- app_assoc. split; [done|by constructor].
Qed.
Lemma append_all_total {A} (item : bytes → A → res bytes) (enc : A → bytes) l :
  Forall (λ x, ∀ d, item d x = Ok (d ++ enc x)) l →
  ∀ dst, append_all item dst l = Ok (dst ++ concat (map enc l)).
Proof.
  induction 1 as [|x l Hx _ IH]; intros dst; cbn; [by rewrite app_nil_r|].
  rewrite Hx. cbn. by rewrite IH, <- app_assoc.
Qed.
Lemma append_all_nofault {A} (item : bytes → A → res bytes) l :
  (∀ d x, item d x ≠ Fault) → ∀ dst, append_all item dst l ≠ Fault.
Proof.
  intros Hi. induction l as [|x l IH]; intros dst; cbn; [done|].
  specialize (Hi dst x). destruct (item dst x); cbn; [apply IH|done|done].
Qed.

(** What the Go types and the callers' canonical IDs guarantee of the values
    that are encoded. *)
Definition attachment_typed (a : RoomAttachment) : Prop :=
  valid_id (RoomAttachment.BroadcastID a) ∧ is_uint 32 (RoomAttachment.ViewerCount a).
Definition participant_typed (p : RoomParticipant) : Prop := is_uint 16 (RoomParticipant.ID p).

Lemma append_attachment_ok s d a out :
  attachment_typed a → appendRoomAttachment up d a s = Ok out →
  out = d ++ enc_attachment a ∧ attachment_ok a.
Proof.
  intros [Hid Hv]. unfold appendRoomAttachment. rewrite appendBroadcastID_total by done.
  cbn [mbind outcome_bind]. intros (d1 & Hd & [= <-])%outcome_bind_Ok.
  apply appendStr8_ok in Hd as (-> & Hl & Hu); [|done].
  unfold AppendUint32, enc_attachment. rewrite <- !app_assoc. done.
Qed.
Lemma append_attachment_total s d a :
  attachment_ok a → appendRoomAttachment up d a s = Ok (d ++ enc_attachment a).
Proof.
  intros (Hid & [Hl Hu] & Hv). unfold appendRoomAttachment. rewrite appendBroadcastID_total by done.
  cbn [mbind outcome_bind]. rewrite appendStr8_total by done. cbn [mbind outcome_bind].
  unfold AppendUint32, enc_attachment. by rewrite <- !app_assoc.
Qed.
Lemma append_attachment_nofault s d a : appendRoomAttachment up d a s ≠ Fault.
Proof.
  unfold appendRoomAttachment. pose proof (appendBroadcastID_nofault up d (RoomAttachment.BroadcastID a) s).
  destruct (appendBroadcastID _ _ _ _) as [d1| |]; cbn; try done.
  pose proof (appendStr8_nofault d1 (RoomAttachment.Label a) MaxRoomLabelLen s).
  by destruct (appendStr8 _ _ _ _).
Qed.

Lemma append_participant_ok s d p out :
  participant_typed p → appendRoomParticipant d p s = Ok out →
  out = d ++ enc_participant p ∧ participant_ok p.
Proof.
  intros Hid. unfold appendRoomParticipant. case_match eqn:Hk; [done|]. case_match eqn:Hf; [done|].
  intros (d1 & Hd & Ho)%outcome_bind_Ok.
  apply appendStr8_ok in Hd as (-> & Hn & Hu); [|done].
  apply appendStr8_ok in Ho as (-> & Hi & Hv); [|done].
  unfold AppendUint16, enc_participant. rewrite <- !app_assoc.
  split; [done|]. unfold participant_typed in *. repeat split; try done; lia.
Qed.
Lemma append_participant_total s d p :
  participant_ok p → appendRoomParticipant d p s = Ok (d ++ enc_participant p).
Proof.
  intros (Hid & Hk & Hf & [Hn Hu] & [Hi Hv]). unfold appendRoomParticipant. rewrite Hf.
  replace (_ >? _) with false by lia. rewrite appendStr8_total by done. cbn [mbind outcome_bind].
  rewrite appendStr8_total by done. unfold AppendUint16, enc_participant. by rewrite <- !app_assoc.
Qed.
Lemma append_participant_nofault s d p : appendRoomParticipant d p s ≠ Fault.
Proof.
  unfold appendRoomParticipant. repeat (case_match; [done|]).
  match goal with |- (appendStr8 ?a ?b ?c ?e ≫= _) ≠ _ =>
    pose proof (appendStr8_nofault a b c e); destruct (appendStr8 a b c e) end; cbn; try done.
  apply appendStr8_nofault.
Qed.

#[export] Instance hello_codec : Codec RoomHello := {
  cappend := AppendRoomHello;
  cparse := ParseRoomHello;
  cwf _ := True;
}.
#[export] Instance hello_lawful : LawfulCodec RoomHello.
Proof.
  split.
  - intros dst h out _. cbn. unfold AppendRoomHello.
    case_match eqn:Hp; [done|]. case_match eqn:Hk; [done|]. case_match eqn:Hf; [done|].
    intros Ho. apply appendStr8_ok in Ho as (-> & Hn & Hu); [|done]. rewrite <- app_assoc.
    eexists. split; [done|]. apply (parse_fields_ok _ _ _ _ (enc_hello h)).
    + apply reads_hello. repeat split; try done; lia.
    + unfold enc_hello, enc8. zlia.
  - intros dst h. cbn. unfold AppendRoomHello. repeat (case_match; [done|]). apply appendStr8_nofault.
  - intros d Hd. by eapply parse_fields_nofault; [apply rspec_hello|..].
Qed.
#[export] Instance hello_strict : StrictCodec RoomHello.
Proof.
  split. intros d h Hd Hp.
  apply (parse_fields_inv _ _ _ _ _ _ _ rspec_hello) in Hp as (enc & -> & (Hp & Hk & Hf & Hn & Hu) & ->);
    [|done|done]. cbn. unfold AppendRoomHello. rewrite Hp, Hf.
  replace (_ >? _) with false by lia. rewrite appendStr8_total by done. done.
Qed.

Definition state_typed (s : RoomState) : Prop :=
  is_uint 32 (RoomState.Seq s) ∧ is_uint 16 (RoomState.YourID s) ∧
  Forall attachment_typed (RoomState.Attachments s) ∧
  Forall participant_typed (RoomState.Participants s).

Lemma append_state_ok dst s out :
  state_typed s → AppendRoomState up dst s = Ok out →
  out = dst ++ Version :: TypeRoomState :: enc_state s ∧ state_ok s ∧ zlen out ≤ MaxRoomRecordSize.
Proof.
  intros (Hs & Hy & Hat & Hpt). unfold AppendRoomState.
  repeat match goal with |- (if ?b then Err _ else _) = Ok _ → _ => destruct b eqn:?; [done|] end.
  intros (d1 & Hd & Ho)%outcome_bind_Ok. apply appendStr8_ok in Hd as (-> & ? & ?); [|done].
  apply outcome_bind_Ok in Ho as (d2 & Hd & Ho). apply appendStr8_ok in Hd as (-> & ? & ?); [|done].
  apply outcome_bind_Ok in Ho as (d3 & Hd & Ho).
  apply (append_all_ok _ enc_attachment attachment_typed attachment_ok) in Hd as [-> Ha];
    [|by intros ? ? ?; apply append_attachment_ok|done].
  apply outcome_bind_Ok in Ho as (d4 & Hd & Ho).
  apply (append_all_ok _ enc_participant participant_typed participant_ok) in Hd as [-> Hp];
    [|by intros ? ? ?; apply append_participant_ok|done].
  destruct (_ >? _) eqn:Hmax in Ho; [done|]. apply Ok_inj in Ho as <-.
  assert (Htok : opt_len (RoomState.CreatorToken s) RoomCreatorTokenSize) by by apply opt_len_check.
  assert (Hkey : opt_len (RoomState.Key s) RoomKeySize) by by apply opt_len_check.
  split; [|split; [|lia]].
  - unfold AppendUint32, AppendUint16, uint8, uint16, enc_state, enc8.
    rewrite !Z.mod_small by (unfold opt_len, RoomCreatorTokenSize, RoomKeySize in *; zlia).
    repeat (rewrite <- app_assoc || cbn [app]). done.
  - unfold state_ok, text_ok. repeat split; try done; lia.
Qed.
Lemma append_state_total s :
  state_ok s → zlen (enc_state s) + 2 ≤ MaxRoomRecordSize →
  AppendRoomState up [] s = Ok (Version :: TypeRoomState :: enc_state s).
Proof.
  intros (Hf & Hc & Hs & Hy & Hc0 & [Hc1 Hc2] & [Hd1 Hd2] & Ht & Hk & Ha & Hp & Hat & Hpt) Hmax.
  unfold AppendRoomState. rewrite Hf, Hc.
  replace (zlen (RoomState.Code s) =? 0) with false by lia.
  rewrite (proj1 (opt_len_check _ _) Ht), (proj1 (opt_len_check _ _) Hk).
  replace (_ >? 255) with false by lia. replace (_ >? 65535) with false by lia.
  rewrite appendStr8_total by done. cbn [mbind outcome_bind].
  rewrite appendStr8_total by done. cbn [mbind outcome_bind].
  rewrite (append_all_total _ enc_attachment) by
    (eapply Forall_impl; [exact Hat|]; intros; by apply append_attachment_total).
  cbn [mbind outcome_bind].
  rewrite (append_all_total _ enc_participant) by
    (eapply Forall_impl; [exact Hpt|]; intros; by apply append_participant_total).
  cbn [mbind outcome_bind].
  match goal with |- context [zlen ?l >? MaxRoomRecordSize] =>
    assert (l = Version :: TypeRoomState :: enc_state s) as -> end.
  { unfold AppendUint32, AppendUint16, uint8, uint16, enc_state, enc8.
    rewrite !Z.mod_small by (unfold opt_len, RoomCreatorTokenSize, RoomKeySize in *; zlia).
    repeat (rewrite <- app_assoc || cbn [app]). done. }
  rewrite !zlen_cons. by replace (_ >? _) with false by lia.
Qed.
Lemma append_state_nofault dst s : AppendRoomState up dst s ≠ Fault.
Proof.
  unfold AppendRoomState. repeat match goal with |- (if ?b then Err _ else _) ≠ _ => destruct b; [done|] end.
  do 2 (match goal with |- (appendStr8 ?a ?b ?c ?e ≫= _) ≠ _ =>
    pose proof (appendStr8_nofault a b c e); destruct (appendStr8 a b c e) end;
    cbn [mbind outcome_bind]; [|done|done]).
  match goal with |- (append_all ?f ?d ?l ≫= _) ≠ _ =>
    pose proof (append_all_nofault f l (append_attachment_nofault ErrBadRoomState) d);
    destruct (append_all f d l) end; cbn [mbind outcome_bind]; [|done|done].
  match goal with |- (append_all ?f ?d ?l ≫= _) ≠ _ =>
    pose proof (append_all_nofault f l (append_participant_nofault ErrBadRoomState) d);
    destruct (append_all f d l) end; cbn [mbind outcome_bind]; [|done|done].
  by case_match.
Qed.

Definition state_codec : Codec RoomState := {|
  cappend := AppendRoomState up;
  cparse := ParseRoomState up;
  cwf := state_typed;
|}.
Lemma state_lawful : @LawfulCodec RoomState state_codec.
Proof.
  split.
  - intros dst s out Hs Ho. destruct (append_state_ok _ _ _ Hs Ho) as (-> & Hok & _).
    eexists. split; [done|]. apply parse_fields_ok; [by apply reads_state|].
    destruct Hok as (_ & _ & _ & _ & H & _). unfold enc_state, enc8. zlia.
  - apply append_state_nofault.
  - intros d Hd. by eapply parse_fields_nofault; [apply rspec_state|..].
Qed.
End RoomLaws.
