(* ===== verification/VoiceTicket.v ===== *)
(** voice/voice.go: the tickets a room's home pod signs for its participants.
    HMAC-SHA256 of the standard library is a parameter. Times are Unix
    nanoseconds. *)
From S2P Require Export WireRoom.
#[local] Open Scope Z_scope.

Definition TicketTTL := 30 * 10 ^ 9.
Definition NonceSize := 16.
Definition ticketVersion := 1.
Definition macSize := 32.
Definition ticketDomain : bytes := str "gawk-voice-ticket-v1"%string ++ [0].
Definition MinSecretLen := 16.

Module Ticket.
Inductive ticket_error := ErrBadTicket | ErrTicketExpired.

(** [Expiry]: Unix nanoseconds *)
Record Ticket := MkTicket {
  Code : bytes; Participant : Z; Nickname : bytes; Nonce : bytes; Epoch : Z; Expiry : Z;
}.

(** [Time.UnixMilli] and its inverse *)
Definition UnixMilli (t : Z) : Z := t / 10 ^ 6.
Definition of_milli (ms : Z) : Z := ms * 10 ^ 6.

Definition code_char (c : Z) : bool :=
  ((c >=? 97) && (c <=? 122)) || ((c >=? 48) && (c <=? 57)) || (c =? 45).
Definition codeShaped (code : bytes) : bool :=
  if (zlen code =? 0) || (zlen code >? MaxRoomCodeLen) then false else forallb code_char code.

Section Ticket.
(** [hmac_sha256 key message] *)
Context (hmac_sha256 : bytes → bytes → bytes).

Definition ticketMAC (secret body : bytes) : bytes := hmac_sha256 secret (ticketDomain ++ body).

Definition MintTicket (secret : bytes) (t : Ticket) : outcome ticket_error bytes :=
  reject zlen secret <? MinSecretLen with ErrBadTicket;
  reject negb (codeShaped (Code t)) with ErrBadTicket;
  reject (zlen (Nickname t) >? MaxRoomNicknameLen) || negb (utf8_valid (Nickname t)) with ErrBadTicket;
  let b := [ticketVersion; uint8 (zlen (Code t))] in
  let b := b ++ Code t in
  let b := AppendUint16 b (Participant t) in
  let b := b ++ [uint8 (zlen (Nickname t))] in
  let b := b ++ Nickname t in
  let b := b ++ Nonce t in
  let b := AppendUint64 b (Epoch t) in
  let b := AppendUint64 b (uint64 (UnixMilli (Expiry t))) in
  Ok (b ++ ticketMAC secret b).

(** the closure [take]; its [ok == false] is an [ErrBadTicket] at every call *)
Definition take_ (body : bytes) (off n : Z) : outcome ticket_error (bytes * Z) :=
  reject off + n >? zlen body with ErrBadTicket;
  v ← slice body off (off + n);
  Ok (v, off + n).

Definition VerifyTicket (secret raw : bytes) (now : Z) : outcome ticket_error Ticket :=
  reject zlen secret <? MinSecretLen with ErrBadTicket;
  reject (zlen raw <? 1 + 1 + 1 + 2 + 1 + NonceSize + 16 + macSize) || (zlen raw >? MaxVoiceTicketLen)
    with ErrBadTicket;
  body ← slice raw 0 (zlen raw - macSize);
  tag ← slice_from raw (zlen raw - macSize);
  reject negb (bool_decide (tag = ticketMAC secret body)) with ErrBadTicket;
  version ← index body 0;
  reject version <>? ticketVersion with ErrBadTicket;
  '(ln, off) ← take_ body 1 1;
  ln ← index ln 0;
  '(code, off) ← take_ body off ln;
  '(pid, off) ← take_ body off 2;
  pid ← Uint16 pid;
  '(ln, off) ← take_ body off 1;
  ln ← index ln 0;
  '(nick, off) ← take_ body off ln;
  reject negb (utf8_valid nick) with ErrBadTicket;
  '(nonce, off) ← take_ body off NonceSize;
  '(tail, off) ← take_ body off 16;
  reject negb (off =? zlen body) with ErrBadTicket;
  epoch8 ← slice tail 0 8;
  epoch ← Uint64 epoch8;
  expiry8 ← slice_from tail 8;
  expiry ← Uint64 expiry8;
  let t := MkTicket code pid nick nonce epoch (of_milli (int64 expiry)) in
  reject negb (codeShaped code) with ErrBadTicket;
  reject negb (now <? Expiry t) with ErrTicketExpired;
  Ok t.
End Ticket.

(** ** Laws *)
Section TicketLaws.
Context (hmac_sha256 : bytes → bytes → bytes).
(** SHA-256 sums are 32 bytes *)
Context (hmac_len : ∀ k m, zlen (hmac_sha256 k m) = macSize).
#[local] Notation MAC := (ticketMAC hmac_sha256).

Lemma mac_len secret body : zlen (MAC secret body) = macSize.
Proof. apply hmac_len. Qed.

(** the signed part *)
Definition enc_ticket (t : Ticket) : bytes :=
  [ticketVersion] ++ enc8 (Code t) ++ be_encode 2 (Participant t) ++ enc8 (Nickname t) ++
  Nonce t ++ be_encode 8 (Epoch t) ++ be_encode 8 (uint64 (UnixMilli (Expiry t))).

(** Go's types of the fields; an instant whose milliseconds fit int64 *)
Definition ticket_typed (t : Ticket) : Prop :=
  is_uint 16 (Participant t) ∧ zlen (Nonce t) = NonceSize ∧ is_uint 64 (Epoch t) ∧
  - 2 ^ 63 ≤ UnixMilli (Expiry t) < 2 ^ 63.
(** what survives the encoding: the expiry in whole milliseconds *)
Definition whole_milli (t : Ticket) : Ticket :=
  MkTicket (Code t) (Participant t) (Nickname t) (Nonce t) (Epoch t) (of_milli (UnixMilli (Expiry t))).

Lemma codeShaped_len c : codeShaped c = true → 0 < zlen c ≤ MaxRoomCodeLen.
Proof. unfold codeShaped. pose proof (zlen_nonneg c). case_match eqn:Hl; [done|]. lia. Qed.

Lemma MintTicket_ok secret t raw :
  MintTicket hmac_sha256 secret t = Ok raw →
  raw = enc_ticket t ++ MAC secret (enc_ticket t) ∧ MinSecretLen ≤ zlen secret ∧
  codeShaped (Code t) = true ∧ text_ok (Nickname t) MaxRoomNicknameLen.
Proof.
  unfold MintTicket. destruct (zlen secret <? MinSecretLen) eqn:Hs; [done|].
  destruct (negb (codeShaped _)) eqn:Hc; [done|]. destruct (_ || _) eqn:Hn; [done|].
  apply negb_false_iff in Hc. pose proof (codeShaped_len _ Hc) as Hcl.
  pose proof (zlen_nonneg (Nickname t)) as Hn0.
  apply orb_false_iff in Hn as [Hn Hu]. apply negb_false_iff in Hu.
  unfold MaxRoomCodeLen, MaxRoomNicknameLen in *.
  intros [= <-]. split; [|split; [lia|split; [done|split; [unfold MaxRoomNicknameLen; lia|done]]]].
  unfold enc_ticket, AppendUint16, AppendUint64, uint8, enc8. rewrite !Z.mod_small by lia.
  repeat (rewrite <- app_assoc || cbn [app]). done.
Qed.

Lemma take_at body a v b off n : body = a ++ v ++ b → off = zlen a → n = zlen v →
  take_ body off n = Ok (v, off + n).
Proof.
  intros -> -> ->. unfold take_. rewrite !zlen_app. pose proof (zlen_nonneg b).
  replace (_ >? _) with false by lia. by rewrite slice_mid.
Qed.
Lemma take_inv body a rest off n v off' :
  body = a ++ rest → off = zlen a → 0 ≤ n → take_ body off n = Ok (v, off') →
  ∃ rest', rest = v ++ rest' ∧ zlen v = n ∧ off' = off + n.
Proof.
  intros -> -> Hn. unfold take_. destruct (_ >? _) eqn:Hl; [done|]. rewrite zlen_app in Hl.
  rewrite slice_ok by (rewrite ?zlen_app; pose proof (zlen_nonneg a); lia).
  cbn [mbind outcome_bind]. replace (zlen a + n - zlen a) with n by lia.
  unfold zlen at 1. rewrite Nat2Z.id, drop_app_length. intros [= <- <-].
  exists (drop (Z.to_nat n) rest). rewrite take_drop. split; [done|]. split; [|done].
  unfold zlen in *. rewrite length_take. lia.
Qed.

Lemma zlen_enc_ticket t : ticket_typed t →
  zlen (enc_ticket t) = 37 + zlen (Code t) + zlen (Nickname t).
Proof.
  intros (_ & Hn & _). unfold enc_ticket, enc8. rewrite !zlen_app, !zlen_be_encode, !zlen_cons, Hn.
  change (zlen []) with 0. unfold NonceSize. lia.
Qed.

Ltac tk Hb a v b :=
  rewrite (take_at _ a v b) by
    first [rewrite ?app_nil_r, Hb, <- ?app_assoc; reflexivity | rewrite ?zlen_app; unfold NonceSize in *; lia];
  cbn [mbind outcome_bind].

Lemma verify_encoded secret t now : ticket_typed t → MinSecretLen ≤ zlen secret →
  codeShaped (Code t) = true → text_ok (Nickname t) 255 →
  VerifyTicket hmac_sha256 secret (enc_ticket t ++ MAC secret (enc_ticket t)) now =
  if now <? of_milli (UnixMilli (Expiry t)) then Ok (whole_milli t) else Err ErrTicketExpired.
Proof.
  intros Ht Hs Hc [Hnl Hnu]. pose proof (codeShaped_len _ Hc) as Hcl. pose proof (zlen_enc_ticket t Ht) as Hel.
  pose proof (zlen_nonneg (Nickname t)). destruct Ht as (Hp & Hno & He & Hex).
  set (body := enc_ticket t) in *. unfold VerifyTicket. unfold MaxRoomCodeLen in *.
  replace (zlen secret <? _) with false by lia. rewrite zlen_app, mac_len.
  replace (_ || _) with false by (unfold NonceSize, macSize, MaxVoiceTicketLen; lia).
  rewrite (slice_init body) by lia. cbn [mbind outcome_bind].
  rewrite (slice_from_mid body) by lia. cbn [mbind outcome_bind].
  rewrite bool_decide_eq_true_2 by done. cbn [negb].
  set (cl := [zlen (Code t)]) in *. set (nl := [zlen (Nickname t)]) in *.
  set (p2 := be_encode 2 (Participant t)) in *.
  set (tl := be_encode 8 (Epoch t) ++ be_encode 8 (uint64 (UnixMilli (Expiry t)))).
  assert (Hb : body = [ticketVersion] ++ cl ++ Code t ++ p2 ++ nl ++ Nickname t ++ Nonce t ++ tl) by done.
  assert (L0 : zlen [ticketVersion] = 1) by done.
  assert (zlen cl = 1 ∧ zlen nl = 1 ∧ zlen p2 = 2 ∧ zlen tl = 16) as (L1 & L2 & L3 & L4)
    by (unfold tl, p2; rewrite zlen_app, !zlen_be_encode; done).
  rewrite index_ok by lia. rewrite Hb at 1. change (([ticketVersion] ++ _) !!! Z.to_nat 0) with ticketVersion.
  cbn [mbind outcome_bind]. rewrite Z.eqb_refl. cbn [negb].
  tk Hb [ticketVersion] cl (Code t ++ p2 ++ nl ++ Nickname t ++ Nonce t ++ tl).
  change (index cl 0) with (Ok (E:=ticket_error) (zlen (Code t))). cbn [mbind outcome_bind].
  tk Hb ([ticketVersion] ++ cl) (Code t) (p2 ++ nl ++ Nickname t ++ Nonce t ++ tl).
  tk Hb ([ticketVersion] ++ cl ++ Code t) p2 (nl ++ Nickname t ++ Nonce t ++ tl).
  assert (Hpid : Uint16 (E:=ticket_error) p2 = Ok (Participant t)).
  { unfold Uint16. rewrite be_uint_ok by lia. f_equal. unfold p2.
    rewrite take_ge by (by rewrite length_be_encode). by apply be_decode_encode. }
  rewrite Hpid. cbn [mbind outcome_bind].
  tk Hb ([ticketVersion] ++ cl ++ Code t ++ p2) nl (Nickname t ++ Nonce t ++ tl).
  change (index nl 0) with (Ok (E:=ticket_error) (zlen (Nickname t))). cbn [mbind outcome_bind].
  tk Hb ([ticketVersion] ++ cl ++ Code t ++ p2 ++ nl) (Nickname t) (Nonce t ++ tl).
  rewrite Hnu. cbn [negb].
  tk Hb ([ticketVersion] ++ cl ++ Code t ++ p2 ++ nl ++ Nickname t) (Nonce t) tl.
  unfold NonceSize in Hno.
  tk Hb ([ticketVersion] ++ cl ++ Code t ++ p2 ++ nl ++ Nickname t ++ Nonce t) tl (@nil Z).
  replace (_ =? zlen body) with true by (rewrite Hel; unfold NonceSize; lia). cbn [negb].
  assert (H8 : ∀ v, is_uint 64 v → Uint64 (E:=ticket_error) (be_encode 8 v) = Ok v).
  { intros v Hv. unfold Uint64. rewrite be_uint_ok by (rewrite zlen_be_encode; done). f_equal.
    rewrite take_ge by (by rewrite length_be_encode). by apply be_decode_encode. }
  unfold tl. rewrite slice_init by (by rewrite zlen_be_encode). cbn [mbind outcome_bind].
  rewrite H8 by done. cbn [mbind outcome_bind].
  rewrite slice_from_mid by (by rewrite zlen_be_encode). cbn [mbind outcome_bind].
  rewrite H8 by (unfold uint64; apply Z.mod_pos_bound; lia). cbn [mbind outcome_bind].
  rewrite Hc, int64_uint64 by done. cbn [negb Expiry]. by destruct (now <? _).
Qed.

Lemma milli_of v : UnixMilli (of_milli v) = v.
Proof. unfold UnixMilli, of_milli. apply Z.div_mul. lia. Qed.

(** One field of an accepted ticket. *)
Local Ltac take_step H pre rest v rest' Hv :=
  let off := fresh "off" in let Ht := fresh "Ht" in
  apply outcome_bind_Ok in H as ([v off] & Ht & H);
  apply (take_inv _ pre rest) in Ht as (rest' & -> & Hv & ->);
  [| match goal with H0 : ?body = _ |- ?body = _ => by rewrite H0, <- ?app_assoc end
   | rewrite ?zlen_app, ?zlen_cons, ?zlen_nil; unfold NonceSize in *; lia | done].

Lemma verify_inv secret raw now t : bytes_ok raw →
  VerifyTicket hmac_sha256 secret raw now = Ok t →
  raw = enc_ticket t ++ MAC secret (enc_ticket t) ∧ MinSecretLen ≤ zlen secret ∧
  ticket_typed t ∧ codeShaped (Code t) = true ∧ text_ok (Nickname t) 255 ∧
  now < Expiry t ∧ whole_milli t = t.
Proof.
  intros Hb. unfold VerifyTicket. case_match eqn:Hs; [done|]. case_match eqn:Hl; [done|].
  assert (Hraw : ∃ body tag, raw = body ++ tag ∧ zlen tag = macSize).
  { exists (take (Z.to_nat (zlen raw - macSize)) raw), (drop (Z.to_nat (zlen raw - macSize)) raw).
    rewrite take_drop. split; [done|]. unfold zlen, NonceSize, macSize in *. rewrite length_drop. lia. }
  destruct Hraw as (body & tag & -> & Htag). rewrite zlen_app in *. apply Forall_app in Hb as [Hb _].
  rewrite slice_init, slice_from_mid by lia. cbn [mbind outcome_bind].
  case_match eqn:Hmac; [done|]. apply negb_false_iff, bool_decide_eq_true in Hmac as ->.
  destruct body as [|ver rest]; [done|]. change (index (ver :: rest) 0) with (Ok (E:=ticket_error) ver).
  cbn [mbind outcome_bind]. destruct (Z.eqb_spec ver ticketVersion) as [->|]; [|done]. cbn [negb].
  intros H. set (body := ticketVersion :: rest) in *.
  assert (H0 : body = [ticketVersion] ++ rest) by done. clearbody body.
  apply outcome_bind_Ok in H as ([cl off1] & Ht & H).
  apply (take_inv _ _ _ _ _ _ _ H0) in Ht as (r1 & -> & Hcl & ->); [|done..].
  explode Hcl. rename b into cn. change (index [cn] 0) with (Ok (E:=ticket_error) cn) in H.
  cbn [mbind outcome_bind] in H.
  assert (Hcn : 0 ≤ cn)
    by (rewrite H0 in Hb; apply Forall_app in Hb as [_ Hb]; by apply Forall_cons_iff in Hb as [[? _] _]).
  take_step H ([ticketVersion] ++ [cn]) r1 code r2 Hcode.
  take_step H ([ticketVersion] ++ [cn] ++ code) r2 p2 r3 Hp2.
  apply outcome_bind_Ok in H as (pid & Hpid & H).
  take_step H ([ticketVersion] ++ [cn] ++ code ++ p2) r3 nl r4 Hnl.
  explode Hnl. rename b into nn. change (index [nn] 0) with (Ok (E:=ticket_error) nn) in H.
  cbn [mbind outcome_bind] in H.
  assert (Hnn : 0 ≤ nn)
    by (rewrite H0 in Hb; do 4 apply Forall_app in Hb as [_ Hb]; by apply Forall_cons_iff in Hb as [[? _] _]).
  take_step H ([ticketVersion] ++ [cn] ++ code ++ p2 ++ [nn]) r4 nick r5 Hnick.
  destruct (utf8_valid nick) eqn:Hnu; [|done]. cbn [negb] in H.
  take_step H ([ticketVersion] ++ [cn] ++ code ++ p2 ++ [nn] ++ nick) r5 nonce r6 Hnonce.
  take_step H ([ticketVersion] ++ [cn] ++ code ++ p2 ++ [nn] ++ nick ++ nonce) r6 tl8 r7 Htl.
  destruct (_ =? zlen body) eqn:Hoff; [|done]. cbn [negb] in H.
  assert (r7 = []) as ->.
  { apply Z.eqb_eq in Hoff. rewrite H0, !zlen_app, !zlen_cons, !zlen_nil in Hoff.
    apply zlen_zero. unfold NonceSize in *. lia. }
  assert (Hsplit : ∃ e8 x8, tl8 = e8 ++ x8 ∧ zlen e8 = 8 ∧ zlen x8 = 8).
  { exists (take 8 tl8), (drop 8 tl8). rewrite take_drop. unfold zlen in *.
    rewrite length_take, length_drop. split; [done|lia]. }
  destruct Hsplit as (e8 & x8 & -> & He8 & Hx8). rewrite slice_init in H by done. cbn [mbind outcome_bind] in H.
  apply outcome_bind_Ok in H as (ep & Hep & H). rewrite slice_from_mid in H by done. cbn [mbind outcome_bind] in H.
  apply outcome_bind_Ok in H as (ex & Hex & H).
  destruct (codeShaped code) eqn:Hc; [|done]. cbn [negb Expiry] in H.
  destruct (now <? _) eqn:Hnow; [|done]. injection H as <-. cbn [Expiry Code Nickname].
  rewrite H0, !Forall_app, !Forall_cons in Hb. destruct Hb as (_ & _ & _ & Hbp & [Hbn _] & _ & _ & [Hbe Hbx] & _).
  unfold Uint16, Uint64 in *. apply be_uint_exact in Hpid as [Hp16 Hpe]; [|done..].
  apply be_uint_exact in Hep as [He64 Hee]; [|done..]. apply be_uint_exact in Hex as [Hx64 Hxe]; [|done..].
  assert (Henc : body = enc_ticket (MkTicket code pid nick nonce ep (of_milli (int64 ex)))).
  { unfold enc_ticket, enc8. cbn [Code Participant Nickname Nonce Epoch Expiry].
    rewrite milli_of, uint64_int64 by done. rewrite Hpe, Hee, Hxe, Hcode, Hnick, H0.
    by rewrite app_nil_r. }
  rewrite <- Henc. split; [done|]. split; [lia|]. split.
  { split; [done|]. split; [done|]. split; [done|]. cbn [Expiry]. rewrite milli_of. apply int64_range. }
  split; [done|]. split; [split; [unfold is_byte in Hbn; lia|done]|]. split; [lia|].
  unfold whole_milli. cbn [Code Participant Nickname Nonce Epoch Expiry]. by rewrite milli_of.
Qed.

(** A genuine ticket: the encoding of [t] followed by its MAC under [secret]. *)
Definition genuine (secret raw : bytes) (t : Ticket) : Prop :=
  raw = enc_ticket t ++ MAC secret (enc_ticket t) ∧ MinSecretLen ≤ zlen secret ∧
  ticket_typed t ∧ codeShaped (Code t) = true ∧ text_ok (Nickname t) 255 ∧ whole_milli t = t.

Lemma verify_iff secret raw now t : bytes_ok raw →
  VerifyTicket hmac_sha256 secret raw now = Ok t ↔ genuine secret raw t ∧ now < Expiry t.
Proof.
  intros Hb. split.
  - intros (-> & ? & ? & ? & ? & ? & ?)%verify_inv; done.
  - intros ((-> & Hs & Ht & Hc & Hn & Hm) & Hnow). rewrite verify_encoded by done. rewrite Hm.
    apply (f_equal Expiry) in Hm. cbn [Expiry whole_milli] in Hm. rewrite Hm.
    by replace (now <? Expiry t) with true by lia.
Qed.
End TicketLaws.

(** C40. VerifyTicket accepts exactly the genuine unexpired tickets: bytes that
    are the encoding of a ticket followed by the MAC of that encoding, before
    the expiry. A ticket MintTicket signs is accepted until its expiry, cut to
    whole milliseconds, with every field as minted, and is reported expired
    after it. *)
Theorem voice_ticket_exact (hmac_sha256 : bytes → bytes → bytes) secret now
    (hmac_len : ∀ k m, zlen (hmac_sha256 k m) = macSize) :
  (∀ raw t, bytes_ok raw →
     VerifyTicket hmac_sha256 secret raw now = Ok t ↔
     genuine hmac_sha256 secret raw t ∧ now < Expiry t) ∧
  (∀ t raw, ticket_typed t → MintTicket hmac_sha256 secret t = Ok raw →
     VerifyTicket hmac_sha256 secret raw now =
       if now <? of_milli (UnixMilli (Expiry t)) then Ok (whole_milli t) else Err ErrTicketExpired).
Proof.
  split.
  - intros raw t Hb. by apply verify_iff.
  - intros t raw Ht (-> & Hs & Hc & [Hn Hu])%MintTicket_ok. apply verify_encoded; try done.
    split; [unfold MaxRoomNicknameLen in Hn; lia|done].
Qed.

Lemma voice_ticket_exact_witness :
  let mac := λ _ _, repeat 7 32 in
  let t := MkTicket [97; 98; 99] 1 [65] (repeat 0 16) 5 (3 * 10 ^ 9 + 1) in
  ∃ raw, MintTicket mac (repeat 1 16) t = Ok raw ∧
    VerifyTicket mac (repeat 1 16) raw (10 ^ 9) = Ok (whole_milli t) ∧
    VerifyTicket mac (repeat 1 16) raw (4 * 10 ^ 9) = Err ErrTicketExpired.
Proof.
  cbv zeta. eexists. split; [vm_compute; reflexivity|]. split.
  - rewrite (proj2 (voice_ticket_exact (λ _ _, repeat 7 32) (repeat 1 16) (10 ^ 9) ltac:(reflexivity))
      (MkTicket [97; 98; 99] 1 [65] (repeat 0 16) 5 (3 * 10 ^ 9 + 1)));
      [vm_compute; reflexivity|repeat split; vm_compute; congruence|vm_compute; reflexivity].
  - vm_compute. reflexivity.
Defined.
End Ticket.
