(* ===== verification/RoomMessages.v ===== *)
(** wire/room.go, second half: RoomEvent (relay to client) and RoomCommand
    (client to relay). Both parsers return their partial result together with
    the error for a kind they do not know, so their Go results are kept as a
    pair here. *)
From S2P Require Export WireRoom.
#[local] Open Scope Z_scope.

Definition RoomEventParticipantJoined := 0x01.
Definition RoomEventParticipantLeft := 0x02.
Definition RoomEventParticipantUpdated := 0x03.
Definition RoomEventAttachmentAdded := 0x10.
Definition RoomEventAttachmentRemoved := 0x11.
Definition RoomEventAttachmentUpdated := 0x12.
Definition RoomEventRoomEnding := 0x20.
Definition RoomEventCommandRejected := 0x30.
Definition RoomEventVoiceTicket := 0x50.
Definition RoomEventVoiceRosterUpdated := 0x51.

Definition RoomCommandAttach := 0x01.
Definition RoomCommandDetach := 0x02.
Definition RoomCommandSetNickname := 0x03.
Definition RoomCommandEndRoom := 0x04.
Definition RoomCommandResync := 0x05.
Definition RoomCommandVoiceJoin := 0x50.

Definition roomVoiceRosterFlagMask := 0x01.
Definition roomVoiceKindMax := 1.
Definition roomVoiceUserFlagMask := 0x1f.

Module VoiceRosterEntry.
Record VoiceRosterEntry := { Session : Z; Kind : Z; ParticipantID : Z; Flags : Z; Name : bytes }.
End VoiceRosterEntry.
Module RoomEvent.
Record RoomEvent := {
  Seq : Z; Kind : Z;
  Participant : RoomParticipant.RoomParticipant;
  Attachment : RoomAttachment.RoomAttachment;
  Reason : Z; Command : Z; Message : bytes;
  VoiceURL : bytes; VoiceTicket : bytes;
  VoiceFlags : Z; VoiceRoster : list VoiceRosterEntry.VoiceRosterEntry;
}.
End RoomEvent.
Module RoomCommand.
Record RoomCommand := {
  Kind : Z; BroadcastID : bytes; ResumeToken : bytes; Label : bytes; Nickname : bytes;
}.
End RoomCommand.
Import RoomParticipant(RoomParticipant) RoomAttachment(RoomAttachment)
  VoiceRosterEntry(VoiceRosterEntry, Build_VoiceRosterEntry) RoomEvent(RoomEvent, Build_RoomEvent)
  RoomCommand(RoomCommand, Build_RoomCommand).

(** Go's zero values *)
Definition zero_participant : RoomParticipant := RoomParticipant.Build_RoomParticipant 0 0 0 [] [].
Definition zero_attachment : RoomAttachment := RoomAttachment.Build_RoomAttachment [] [] false 0.
Definition zero_event : RoomEvent :=
  Build_RoomEvent 0 0 zero_participant zero_attachment 0 0 [] [] [] 0 [].
Definition zero_command : RoomCommand := Build_RoomCommand 0 [] [] [] [].

(** an event with only its sequence number and kind set *)
Definition event_header (sq kind : Z) : RoomEvent :=
  Build_RoomEvent sq kind zero_participant zero_attachment 0 0 [] [] [] 0 [].

Section Messages.
Context (unicode_upper : bytes → bytes).

(** ** RoomEvent (0x15) *)

Definition append_roster_entry (dst : bytes) (v : VoiceRosterEntry) : res bytes :=
  reject VoiceRosterEntry.Kind v >? roomVoiceKindMax with ErrBadRoomEvent;
  reject has_other (VoiceRosterEntry.Flags v) roomVoiceUserFlagMask with ErrBadRoomEvent;
  let dst := AppendUint32 dst (VoiceRosterEntry.Session v) in
  let dst := dst ++ [VoiceRosterEntry.Kind v] in
  let dst := AppendUint16 dst (VoiceRosterEntry.ParticipantID v) in
  let dst := dst ++ [VoiceRosterEntry.Flags v] in
  appendStr8 dst (VoiceRosterEntry.Name v) MaxVoiceNameLen ErrBadRoomEvent.

(** the [switch e.Kind] of [AppendRoomEvent] *)
Definition append_event_payload (dst : bytes) (e : RoomEvent) : res bytes :=
  let kind := RoomEvent.Kind e in
  if (kind =? RoomEventParticipantJoined) || (kind =? RoomEventParticipantUpdated) then
    appendRoomParticipant dst (RoomEvent.Participant e) ErrBadRoomEvent
  else if kind =? RoomEventParticipantLeft then
    Ok (AppendUint16 dst (RoomParticipant.ID (RoomEvent.Participant e)))
  else if (kind =? RoomEventAttachmentAdded) || (kind =? RoomEventAttachmentUpdated) then
    appendRoomAttachment unicode_upper dst (RoomEvent.Attachment e) ErrBadRoomEvent
  else if kind =? RoomEventAttachmentRemoved then
    dst ← appendBroadcastID unicode_upper dst
            (RoomAttachment.BroadcastID (RoomEvent.Attachment e)) ErrBadRoomEvent;
    Ok (dst ++ [RoomEvent.Reason e])
  else if kind =? RoomEventRoomEnding then Ok (dst ++ [RoomEvent.Reason e])
  else if kind =? RoomEventCommandRejected then
    appendStr8 (dst ++ [RoomEvent.Command e; RoomEvent.Reason e]) (RoomEvent.Message e)
      MaxRoomRejectMessageLen ErrBadRoomEvent
  else if kind =? RoomEventVoiceTicket then
    let url := RoomEvent.VoiceURL e in
    let ticket := RoomEvent.VoiceTicket e in
    reject (zlen url =? 0) || (zlen url >? MaxVoiceURLLen) with ErrBadRoomEvent;
    reject (zlen ticket =? 0) || (zlen ticket >? MaxVoiceTicketLen) with ErrBadRoomEvent;
    let dst := AppendUint16 dst (uint16 (zlen url)) in
    let dst := dst ++ url in
    let dst := AppendUint16 dst (uint16 (zlen ticket)) in
    Ok (dst ++ ticket)
  else if kind =? RoomEventVoiceRosterUpdated then
    reject has_other (RoomEvent.VoiceFlags e) roomVoiceRosterFlagMask with ErrBadRoomEvent;
    reject zlen (RoomEvent.VoiceRoster e) >? MaxVoiceRosterEntries with ErrBadRoomEvent;
    let dst := dst ++ [RoomEvent.VoiceFlags e] in
    let dst := AppendUint16 dst (uint16 (zlen (RoomEvent.VoiceRoster e))) in
    append_all append_roster_entry dst (RoomEvent.VoiceRoster e)
  else Err ErrUnknownRoomKind.

Definition AppendRoomEvent (dst : bytes) (e : RoomEvent) : res bytes :=
  let dst := dst ++ [Version; TypeRoomEvent] in
  let dst := AppendUint32 dst (RoomEvent.Seq e) in
  let dst := dst ++ [RoomEvent.Kind e] in
  dst ← append_event_payload dst e;
  reject zlen dst >? MaxRoomRecordSize with ErrBadRoomEvent;
  Ok dst.

Definition roster_entry : rd VoiceRosterEntry :=
  session ← u32 ErrBadRoomEvent;
  kind ← u8 ErrBadRoomEvent;
  _ ← check (kind >? roomVoiceKindMax) ErrBadRoomEvent;
  participantID ← u16 ErrBadRoomEvent;
  flags ← u8 ErrBadRoomEvent;
  _ ← check (has_other flags roomVoiceUserFlagMask) ErrBadRoomEvent;
  name ← str8 ErrBadRoomEvent MaxVoiceNameLen;
  mret (Build_VoiceRosterEntry session kind participantID flags name).

(** the [switch e.Kind] of [ParseRoomEvent]; [None] is its default case *)
Definition read_event_payload (sq kind : Z) : option (rd RoomEvent) :=
  let s := ErrBadRoomEvent in
  if (kind =? RoomEventParticipantJoined) || (kind =? RoomEventParticipantUpdated) then Some (
    p ← participant s;
    mret (Build_RoomEvent sq kind p zero_attachment 0 0 [] [] [] 0 []))
  else if kind =? RoomEventParticipantLeft then Some (
    id ← u16 s;
    mret (Build_RoomEvent sq kind (RoomParticipant.Build_RoomParticipant id 0 0 [] [])
            zero_attachment 0 0 [] [] [] 0 []))
  else if (kind =? RoomEventAttachmentAdded) || (kind =? RoomEventAttachmentUpdated) then Some (
    a ← attachment unicode_upper s;
    mret (Build_RoomEvent sq kind zero_participant a 0 0 [] [] [] 0 []))
  else if kind =? RoomEventAttachmentRemoved then Some (
    id ← broadcastID unicode_upper s;
    reason ← u8 s;
    mret (Build_RoomEvent sq kind zero_participant
            (RoomAttachment.Build_RoomAttachment id [] false 0) reason 0 [] [] [] 0 []))
  else if kind =? RoomEventRoomEnding then Some (
    reason ← u8 s;
    mret (Build_RoomEvent sq kind zero_participant zero_attachment reason 0 [] [] [] 0 []))
  else if kind =? RoomEventCommandRejected then Some (
    command ← u8 s;
    reason ← u8 s;
    message ← str8 s MaxRoomRejectMessageLen;
    mret (Build_RoomEvent sq kind zero_participant zero_attachment reason command message
            [] [] 0 []))
  else if kind =? RoomEventVoiceTicket then Some (
    url ← bytes16 s MaxVoiceURLLen;
    _ ← check (zlen url =? 0) s;
    _ ← check (negb (utf8_valid url)) s;
    ticket ← bytes16 s MaxVoiceTicketLen;
    _ ← check (zlen ticket =? 0) s;
    mret (Build_RoomEvent sq kind zero_participant zero_attachment 0 0 [] url ticket 0 []))
  else if kind =? RoomEventVoiceRosterUpdated then Some (
    flags ← u8 s;
    _ ← check (has_other flags roomVoiceRosterFlagMask) s;
    n ← u16 s;
    _ ← check (n >? MaxVoiceRosterEntries) s;
    roster ← read_loop roster_entry (Z.to_nat n) [];
    mret (Build_RoomEvent sq kind zero_participant zero_attachment 0 0 [] [] [] flags roster))
  else None.

Definition read_header : rd (Z * Z) :=
  sq ← u32 ErrBadRoomEvent;
  kind ← u8 ErrBadRoomEvent;
  mret (sq, kind).

(** the Go results [(e, err)]; [Fault] is a panic *)
Definition ParseRoomEvent (msg : bytes) : res (RoomEvent * option error) :=
  match checkPrefix msg TypeRoomEvent 7 with
  | Fault => Fault
  | Err err => Ok (zero_event, Some err)
  | Ok _ =>
      '((sq, kind), r) ← read_header (MkReader msg 2 None);
      match read_event_payload sq kind with
      | None => Ok (event_header sq kind, Some ErrUnknownRoomKind)
      | Some payload =>
          '(e, r) ← payload r;
          match done_ ErrBadRoomEvent r with
          | Ok _ => Ok (e, None)
          | Err err => Ok (zero_event, Some err)
          | Fault => Fault
          end
      end
  end.

(** ** RoomCommand (0x16) *)

Definition append_command_payload (dst : bytes) (c : RoomCommand) : res bytes :=
  let kind := RoomCommand.Kind c in
  if kind =? RoomCommandAttach then
    let token := RoomCommand.ResumeToken c in
    reject zlen token <>? ResumeTokenSize with ErrBadRoomCommand;
    dst ← appendBroadcastID unicode_upper dst (RoomCommand.BroadcastID c) ErrBadRoomCommand;
    let dst := dst ++ [uint8 (zlen token)] in
    let dst := dst ++ token in
    appendStr8 dst (RoomCommand.Label c) MaxRoomLabelLen ErrBadRoomCommand
  else if kind =? RoomCommandDetach then
    appendBroadcastID unicode_upper dst (RoomCommand.BroadcastID c) ErrBadRoomCommand
  else if kind =? RoomCommandSetNickname then
    appendStr8 dst (RoomCommand.Nickname c) MaxRoomNicknameLen ErrBadRoomCommand
  else if (kind =? RoomCommandEndRoom) || (kind =? RoomCommandResync) ||
          (kind =? RoomCommandVoiceJoin) then Ok dst
  else Err ErrUnknownRoomKind.

Definition AppendRoomCommand (dst : bytes) (c : RoomCommand) : res bytes :=
  append_command_payload (dst ++ [Version; TypeRoomCommand; RoomCommand.Kind c]) c.

Definition read_command_payload (kind : Z) : option (rd RoomCommand) :=
  let s := ErrBadRoomCommand in
  if kind =? RoomCommandAttach then Some (
    id ← broadcastID unicode_upper s;
    tok ← bytes8 s ResumeTokenSize;
    _ ← check (zlen tok <>? ResumeTokenSize) s;
    label ← str8 s MaxRoomLabelLen;
    mret (Build_RoomCommand kind id tok label []))
  else if kind =? RoomCommandDetach then Some (
    id ← broadcastID unicode_upper s;
    mret (Build_RoomCommand kind id [] [] []))
  else if kind =? RoomCommandSetNickname then Some (
    nickname ← str8 s MaxRoomNicknameLen;
    mret (Build_RoomCommand kind [] [] [] nickname))
  else if (kind =? RoomCommandEndRoom) || (kind =? RoomCommandResync) ||
          (kind =? RoomCommandVoiceJoin) then
    Some (mret (Build_RoomCommand kind [] [] [] []))
  else None.

Definition ParseRoomCommand (msg : bytes) : res (RoomCommand * option error) :=
  match checkPrefix msg TypeRoomCommand 3 with
  | Fault => Fault
  | Err err => Ok (zero_command, Some err)
  | Ok _ =>
      '(kind, r) ← u8 ErrBadRoomCommand (MkReader msg 2 None);
      match read_command_payload kind with
      | None => Ok (Build_RoomCommand kind [] [] [] [], Some ErrUnknownRoomKind)
      | Some payload =>
          '(c, r) ← payload r;
          match done_ ErrBadRoomCommand r with
          | Ok _ => Ok (c, None)
          | Err err => Ok (zero_command, Some err)
          | Fault => Fault
          end
      end
  end.
End Messages.

(** ** The grammar of the payloads

    One constructor per layout of room.go's header comment: the event or
    command (fields that its kind does not use at their zero values) and the
    bytes after the kind. *)

Definition roster_entry_ok (v : VoiceRosterEntry) : Prop :=
  is_uint 32 (VoiceRosterEntry.Session v) ∧ VoiceRosterEntry.Kind v ≤ roomVoiceKindMax ∧
  is_uint 16 (VoiceRosterEntry.ParticipantID v) ∧
  has_other (VoiceRosterEntry.Flags v) roomVoiceUserFlagMask = false ∧
  text_ok (VoiceRosterEntry.Name v) MaxVoiceNameLen.
Definition enc_roster_entry (v : VoiceRosterEntry) : bytes :=
  be_encode 4 (VoiceRosterEntry.Session v) ++ [VoiceRosterEntry.Kind v] ++
  be_encode 2 (VoiceRosterEntry.ParticipantID v) ++ [VoiceRosterEntry.Flags v] ++
  enc8 (VoiceRosterEntry.Name v).

Inductive event_payload (sq : Z) : RoomEvent → bytes → Prop :=
  | PParticipant kind p :
      (kind =? RoomEventParticipantJoined) || (kind =? RoomEventParticipantUpdated) = true →
      participant_ok p →
      event_payload sq (Build_RoomEvent sq kind p zero_attachment 0 0 [] [] [] 0 [])
        (enc_participant p)
  | PLeft id : is_uint 16 id →
      event_payload sq
        (Build_RoomEvent sq RoomEventParticipantLeft
           (RoomParticipant.Build_RoomParticipant id 0 0 [] []) zero_attachment 0 0 [] [] [] 0 [])
        (be_encode 2 id)
  | PAttachment kind a :
      (kind =? RoomEventAttachmentAdded) || (kind =? RoomEventAttachmentUpdated) = true →
      attachment_ok a →
      event_payload sq (Build_RoomEvent sq kind zero_participant a 0 0 [] [] [] 0 [])
        (enc_attachment a)
  | PRemoved id reason : valid_id id →
      event_payload sq
        (Build_RoomEvent sq RoomEventAttachmentRemoved zero_participant
           (RoomAttachment.Build_RoomAttachment id [] false 0) reason 0 [] [] [] 0 [])
        (enc8 id ++ [reason])
  | PEnding reason :
      event_payload sq
        (Build_RoomEvent sq RoomEventRoomEnding zero_participant zero_attachment reason 0
           [] [] [] 0 []) [reason]
  | PRejected command reason message : text_ok message MaxRoomRejectMessageLen →
      event_payload sq
        (Build_RoomEvent sq RoomEventCommandRejected zero_participant zero_attachment reason command
           message [] [] 0 []) ([command; reason] ++ enc8 message)
  | PTicket url ticket :
      0 < zlen url → text_ok url MaxVoiceURLLen → 0 < zlen ticket ≤ MaxVoiceTicketLen →
      event_payload sq
        (Build_RoomEvent sq RoomEventVoiceTicket zero_participant zero_attachment 0 0 []
           url ticket 0 []) (enc16 url ++ enc16 ticket)
  | PRoster flags roster :
      has_other flags roomVoiceRosterFlagMask = false → zlen roster ≤ MaxVoiceRosterEntries →
      Forall roster_entry_ok roster →
      event_payload sq
        (Build_RoomEvent sq RoomEventVoiceRosterUpdated zero_participant zero_attachment 0 0 []
           [] [] flags roster)
        ([flags] ++ be_encode 2 (zlen roster) ++ concat (map enc_roster_entry roster)).

Definition enc_event (e : RoomEvent) (payload : bytes) : bytes :=
  [Version; TypeRoomEvent] ++ be_encode 4 (RoomEvent.Seq e) ++ [RoomEvent.Kind e] ++ payload.

Inductive command_payload : RoomCommand → bytes → Prop :=
  | PAttach id token label :
      valid_id id → zlen token = ResumeTokenSize → text_ok label MaxRoomLabelLen →
      command_payload (Build_RoomCommand RoomCommandAttach id token label [])
        (enc8 id ++ enc8 token ++ enc8 label)
  | PDetach id : valid_id id →
      command_payload (Build_RoomCommand RoomCommandDetach id [] [] []) (enc8 id)
  | PNickname nickname : text_ok nickname MaxRoomNicknameLen →
      command_payload (Build_RoomCommand RoomCommandSetNickname [] [] [] nickname) (enc8 nickname)
  | PBare kind :
      (kind =? RoomCommandEndRoom) || (kind =? RoomCommandResync) ||
        (kind =? RoomCommandVoiceJoin) = true →
      command_payload (Build_RoomCommand kind [] [] [] []) [].

Definition enc_command (c : RoomCommand) (payload : bytes) : bytes :=
  [Version; TypeRoomCommand; RoomCommand.Kind c] ++ payload.

Section MessageLaws.
Context (up : bytes → bytes).

Lemma reads_roster_entry v : roster_entry_ok v → reads roster_entry (enc_roster_entry v) v.
Proof.
  destruct v as [se kd pi fl na]. intros (Hs & Hk & Hp & Hf & [Hn Hu]). cbn in *.
  eapply reads_to; [unfold roster_entry; reads_all; try done; lia|].
  unfold enc_roster_entry. cbn -[be_encode enc8]. by rewrite !app_nil_r.
Qed.
Lemma rspec_roster_entry :
  rspec ErrBadRoomEvent roster_entry (λ enc v, roster_entry_ok v ∧ enc = enc_roster_entry v).
Proof.
  unfold roster_entry. rspec_intro. unfold roster_entry_ok, enc_roster_entry, text_ok.
  cbn -[be_encode enc8]. rewrite !app_nil_r. split; [|done]. repeat split; try done; lia.
Qed.

#[local] Hint Resolve rspec_attachment rspec_participant rspec_loop rspec_roster_entry : rspec.

(** Both switches take the branch of the constructor. *)
Lemma reads_event_payload sq e payload :
  event_payload sq e payload →
  ∃ m, read_event_payload up sq (RoomEvent.Kind e) = Some m ∧ reads m payload e.
Proof.
  destruct 1 as [kind p Hk Hp|id Hid|kind a Hk Ha|id reason Hid|reason|command reason message [Hm Hu]
    |url ticket Hu0 [Hu Huv] Ht|flags roster Hf Hl Hr]; unfold read_event_payload; cbn [RoomEvent.Kind].
  - rewrite Hk. eexists. split; [done|]. eapply reads_to; [|apply app_nil_r].
    eapply reads_bind; [by apply reads_participant|apply reads_ret].
  - eexists. split; [done|]. eapply reads_to; [reads_all; done|apply app_nil_r].
  - apply orb_prop in Hk as [->%Z.eqb_eq| ->%Z.eqb_eq]; (eexists; split; [done|]);
      (eapply reads_to; [|apply app_nil_r]);
      (eapply reads_bind; [by apply reads_attachment|apply reads_ret]).
  - eexists. split; [done|]. eapply reads_to; [reads_all; done|]. by rewrite app_nil_r.
  - eexists. split; [done|]. eapply reads_to; [reads_all; done|done].
  - eexists. split; [done|]. eapply reads_to; [reads_all; done|]. cbn -[enc8]. by rewrite app_nil_r.
  - eexists. split; [done|]. eapply reads_to; [reads_all; try done; try lia|].
    + by rewrite Huv.
    + cbn -[enc16]. by rewrite app_nil_r.
  - pose proof (zlen_nonneg roster).
    eexists. split; [done|]. eapply reads_to; [reads_all; try done; unfold MaxVoiceRosterEntries in *; try lia|].
    + eapply Forall_impl; [exact Hr|]. intros; by apply reads_roster_entry.
    + cbn -[be_encode concat map]. by rewrite app_nil_r.
Qed.

Lemma rspec_event_payload sq kind m :
  read_event_payload up sq kind = Some m →
  rspec ErrBadRoomEvent m (λ _ e, RoomEvent.Kind e = kind ∧ ∃ payload, event_payload sq e payload).
Proof.
  unfold read_event_payload.
  destruct (_ || _) eqn:K1; [intros [= <-]; rspec_intro; split; [done|eexists; by constructor]|].
  destruct (Z.eqb_spec kind RoomEventParticipantLeft) as [->|];
    [intros [= <-]; rspec_intro; split; [done|eexists; by constructor]|].
  destruct (_ || _) eqn:K2 in |- *; [intros [= <-]; rspec_intro; split; [done|eexists; by constructor]|].
  destruct (Z.eqb_spec kind RoomEventAttachmentRemoved) as [->|];
    [intros [= <-]; rspec_intro; split; [done|eexists; by constructor]|].
  destruct (Z.eqb_spec kind RoomEventRoomEnding) as [->|];
    [intros [= <-]; rspec_intro; split; [done|eexists; by constructor]|].
  destruct (Z.eqb_spec kind RoomEventCommandRejected) as [->|];
    [intros [= <-]; rspec_intro; split; [done|eexists; by constructor]|].
  destruct (Z.eqb_spec kind RoomEventVoiceTicket) as [->|].
  { intros [= <-]. rspec_intro. split; [done|]. eexists. constructor.
    all: repeat match goal with H : negb _ = false |- _ => apply negb_false_iff in H end.
    all: unfold text_ok; zlen_pos; lia || (split; [done|done]) || idtac. }
  destruct (Z.eqb_spec kind RoomEventVoiceRosterUpdated) as [->|]; [|done].
  intros [= <-]. rspec_intro. split; [done|]. eexists. constructor; [done| |].
  - cbn. unfold zlen. match goal with H : length _ = Z.to_nat _ |- _ => rewrite H end. lia.
  - cbn. eapply Forall2_Forall_r; eauto. apply Forall_true; naive_solver.
Qed.

Lemma unknown_event_kind sq kind :
  read_event_payload up sq kind = None ↔
  kind ∉ [RoomEventParticipantJoined; RoomEventParticipantLeft; RoomEventParticipantUpdated;
          RoomEventAttachmentAdded; RoomEventAttachmentRemoved; RoomEventAttachmentUpdated;
          RoomEventRoomEnding; RoomEventCommandRejected; RoomEventVoiceTicket;
          RoomEventVoiceRosterUpdated].
Proof.
  unfold read_event_payload.
  repeat match goal with |- (if ?b then _ else _) = None ↔ _ => destruct b eqn:? end;
    rewrite ?not_elem_of_cons; split; try done; intros; repeat split; try lia; try apply not_elem_of_nil.
Qed.

Lemma rspec_header :
  rspec ErrBadRoomEvent read_header (λ enc h, is_uint 32 h.1 ∧ enc = be_encode 4 h.1 ++ [h.2]).
Proof. unfold read_header. rspec_intro. cbn -[be_encode]. split; [done|]. by rewrite ?app_nil_r. Qed.

(** The header of a long enough message, and the parser after it. *)
Lemma header_split rest :
  bytes_ok rest → 5 ≤ zlen rest →
  ∃ sq kind rest', rest = be_encode 4 sq ++ [kind] ++ rest' ∧ is_uint 32 sq ∧ is_byte kind.
Proof.
  intros Hb Hl. destruct rest as [|a [|b [|c [|d [|k rest]]]]];
    [zlia|zlia|zlia|zlia|zlia|].
  assert (H4 : bytes_ok [a; b; c; d]) by bytes_ok_tac.
  exists (be_decode [a; b; c; d]), k, rest. rewrite be_encode_decode_32 by done.
  split; [done|]. split; [exact (be_decode_range _ H4)|]. bytes_ok_tac.
Qed.

Lemma ParseRoomEvent_header sq kind rest msg :
  is_uint 32 sq → msg = Version :: TypeRoomEvent :: be_encode 4 sq ++ [kind] ++ rest →
  ParseRoomEvent up msg =
  match read_event_payload up sq kind with
  | None => Ok (event_header sq kind, Some ErrUnknownRoomKind)
  | Some payload =>
      '(e, r) ← payload (MkReader msg 7 None);
      match done_ ErrBadRoomEvent r with
      | Ok _ => Ok (e, None) | Err err => Ok (zero_event, Some err) | Fault => Fault end
  end.
Proof.
  intros Hs ->. unfold ParseRoomEvent. erewrite checkPrefix_ok; [|done|zlia].
  assert (Hr : reads read_header (be_encode 4 sq ++ [kind]) (sq, kind)).
  { eapply reads_to; [unfold read_header; reads_all; done|]. by rewrite app_nil_r. }
  specialize (Hr [Version; TypeRoomEvent] rest). rewrite <- !app_assoc in Hr.
  change ([Version; TypeRoomEvent] ++ ?l) with (Version :: TypeRoomEvent :: l) in Hr.
  change (zlen [Version; TypeRoomEvent]) with 2 in Hr. rewrite Hr.
  cbn [mbind outcome_bind]. rewrite zlen_app, zlen_be_encode. done.
Qed.

Lemma event_payload_seq sq e payload : event_payload sq e payload → RoomEvent.Seq e = sq.
Proof. by destruct 1. Qed.

Definition event_message (sq kind : Z) (msg : bytes) : Prop :=
  is_uint 32 sq ∧ is_byte kind ∧
  ∃ rest, msg = Version :: TypeRoomEvent :: be_encode 4 sq ++ [kind] ++ rest.

Lemma ParseRoomEvent_spec msg :
  bytes_ok msg →
  match ParseRoomEvent up msg with
  | Ok (e, None) =>
      event_message (RoomEvent.Seq e) (RoomEvent.Kind e) msg ∧
      ∃ payload, event_payload (RoomEvent.Seq e) e payload
  | Ok (e, Some ErrUnknownRoomKind) =>
      ∃ sq kind, event_message sq kind msg ∧ e = event_header sq kind ∧
        read_event_payload up sq kind = None
  | Ok (e, Some err) =>
      e = zero_event ∧ err ∈ [ErrShortDatagram; ErrBadVersion; ErrBadType; ErrBadRoomEvent]
  | _ => False
  end.
Proof.
  intros Hb. destruct (checkPrefix msg TypeRoomEvent 7) as [[]|err|] eqn:Hp.
  - apply checkPrefix_inv in Hp as [Hl (rest & ->)].
    assert (Hb' := Hb). apply Forall_cons_iff in Hb' as [_ [_ Hb']%Forall_cons_iff].
    destruct (header_split rest Hb') as (sq & kind & rest' & -> & Hs & Hk); [zlia|].
    erewrite ParseRoomEvent_header by done.
    assert (Hm : event_message sq kind
      (Version :: TypeRoomEvent :: be_encode 4 sq ++ [kind] ++ rest')) by (repeat split; try done; eauto; apply Hk || apply Hs).
    destruct (read_event_payload up sq kind) as [m|] eqn:Hr; [|eauto 10].
    destruct (rspec_event_payload sq kind m Hr
      (MkReader (Version :: TypeRoomEvent :: be_encode 4 sq ++ [kind] ++ rest') 7 None))
      as (e & r & -> & Hbuf & Hrok & _ & Herr & Hc); [split; [done|cbn [rbuf roff]; zlia]|].
    cbn [mbind outcome_bind]. unfold done_. destruct (rerr r) as [err|].
    + destruct (Herr err eq_refl) as [?| ->]; [done|]. split; [done|set_solver].
    + destruct (Hc eq_refl) as (_ & _ & _ & _ & _ & _ & _ & <- & payload & Hpl).
      destruct (_ <>? _); [split; [done|set_solver]|].
      rewrite (event_payload_seq _ _ _ Hpl). eauto.
  - pose proof (checkPrefix_err _ _ _ _ Hp) as He. unfold ParseRoomEvent. rewrite Hp.
    destruct err; try set_solver.
  - by apply checkPrefix_nofault in Hp.
Qed.

Lemma ParseRoomEvent_enc e payload :
  is_uint 32 (RoomEvent.Seq e) → event_payload (RoomEvent.Seq e) e payload →
  ParseRoomEvent up (enc_event e payload) = Ok (e, None).
Proof.
  intros Hs Hpl. unfold enc_event.
  destruct (reads_event_payload _ _ _ Hpl) as (m & Hm & Hr).
  erewrite ParseRoomEvent_header by done. rewrite Hm.
  specialize (Hr ([Version; TypeRoomEvent] ++ be_encode 4 (RoomEvent.Seq e) ++ [RoomEvent.Kind e]) []).
  rewrite app_nil_r, <- !app_assoc in Hr.
  replace (zlen _) with 7 in Hr at 1 by zlia.
  cbn [mbind outcome_bind]. rewrite Hr. cbn [mbind outcome_bind]. unfold done_. cbn [rerr roff rbuf].
  replace (_ <>? _) with false; [done|]. symmetry. apply negb_false_iff. zlia.
Qed.

(** ** The event encoder *)

Definition roster_entry_typed (v : VoiceRosterEntry) : Prop :=
  is_uint 32 (VoiceRosterEntry.Session v) ∧ is_uint 16 (VoiceRosterEntry.ParticipantID v).

Lemma append_roster_entry_ok d v out :
  roster_entry_typed v →
  append_roster_entry d v = Ok out → out = d ++ enc_roster_entry v ∧ roster_entry_ok v.
Proof.
  intros [Hs Hp]. unfold append_roster_entry. case_match eqn:Hk; [done|]. case_match eqn:Hf; [done|].
  intros Ho. apply appendStr8_ok in Ho as (-> & Hn & Hu); [|done].
  unfold AppendUint32, AppendUint16, enc_roster_entry. rewrite <- !app_assoc.
  split; [done|]. repeat split; try done; lia.
Qed.
Lemma append_roster_entry_total d v :
  roster_entry_ok v → append_roster_entry d v = Ok (d ++ enc_roster_entry v).
Proof.
  intros (Hs & Hk & Hp & Hf & Hn & Hu). unfold append_roster_entry. rewrite Hf.
  replace (_ >? _) with false by lia. rewrite appendStr8_total by done.
  unfold AppendUint32, AppendUint16, enc_roster_entry. by rewrite <- !app_assoc.
Qed.
Lemma append_roster_entry_nofault d v : append_roster_entry d v ≠ Fault.
Proof. unfold append_roster_entry. repeat (case_match; [done|]). apply appendStr8_nofault. Qed.

(** decide the guards of a switch on a literal kind *)
Ltac eval_kind :=
  cbn [RoomEventParticipantJoined RoomEventParticipantLeft RoomEventParticipantUpdated
       RoomEventAttachmentAdded RoomEventAttachmentRemoved RoomEventAttachmentUpdated
       RoomEventRoomEnding RoomEventCommandRejected RoomEventVoiceTicket
       RoomEventVoiceRosterUpdated Z.eqb Pos.eqb orb].

(** Everything of the grammar is written as it says. *)
Lemma append_event_payload_total sq e payload dst :
  event_payload sq e payload → append_event_payload up dst e = Ok (dst ++ payload).
Proof.
  destruct 1 as [kind p Hk Hp|id Hid|kind a Hk Ha|id reason Hid|reason|command reason message [Hm Hu]
    |url ticket Hu0 [Hu Huv] Ht|flags roster Hf Hl Hr]; unfold append_event_payload;
    cbn [RoomEvent.Kind RoomEvent.Participant RoomEvent.Attachment RoomEvent.Reason RoomEvent.Command
         RoomEvent.Message RoomEvent.VoiceURL RoomEvent.VoiceTicket RoomEvent.VoiceFlags
         RoomEvent.VoiceRoster].
  - rewrite Hk. by apply append_participant_total.
  - done.
  - apply orb_prop in Hk as [->%Z.eqb_eq| ->%Z.eqb_eq]; by apply append_attachment_total.
  - cbn -[enc8 app]. rewrite appendBroadcastID_total by done. cbn -[enc8 app]. by rewrite <- app_assoc.
  - done.
  - cbn -[enc8 app]. rewrite appendStr8_total by done. by rewrite <- app_assoc.
  - eval_kind.
    replace (_ || _) with false by lia. replace (_ || _) with false by lia.
    unfold AppendUint16, uint16, enc16. unfold MaxVoiceURLLen, MaxVoiceTicketLen in *.
    rewrite !Z.mod_small by lia. by rewrite <- !app_assoc.
  - pose proof (zlen_nonneg roster). eval_kind. rewrite Hf.
    replace (_ >? _) with false by lia.
    rewrite (append_all_total _ enc_roster_entry) by
      (eapply Forall_impl; [exact Hr|]; intros; by apply append_roster_entry_total).
    unfold AppendUint16, uint16, MaxVoiceRosterEntries in *. rewrite Z.mod_small by lia.
    by rewrite <- !app_assoc.
Qed.

(** What the Go types and canonical IDs guarantee, and the fields an event's
    kind carries. *)
Definition carries_attachment (kind : Z) : bool :=
  (kind =? RoomEventAttachmentAdded) || (kind =? RoomEventAttachmentUpdated) ||
  (kind =? RoomEventAttachmentRemoved).
Definition event_typed (e : RoomEvent) : Prop :=
  is_uint 32 (RoomEvent.Seq e) ∧ is_byte (RoomEvent.Kind e) ∧
  participant_typed (RoomEvent.Participant e) ∧
  (carries_attachment (RoomEvent.Kind e) = true → attachment_typed (RoomEvent.Attachment e)) ∧
  Forall roster_entry_typed (RoomEvent.VoiceRoster e).

Definition relevant_event (e : RoomEvent) : RoomEvent :=
  let '(Build_RoomEvent sq kind p a reason command message url ticket flags roster) := e in
  let h := Build_RoomEvent sq kind in
  if (kind =? RoomEventParticipantJoined) || (kind =? RoomEventParticipantUpdated) then
    h p zero_attachment 0 0 [] [] [] 0 []
  else if kind =? RoomEventParticipantLeft then
    h (RoomParticipant.Build_RoomParticipant (RoomParticipant.ID p) 0 0 [] [])
      zero_attachment 0 0 [] [] [] 0 []
  else if (kind =? RoomEventAttachmentAdded) || (kind =? RoomEventAttachmentUpdated) then
    h zero_participant a 0 0 [] [] [] 0 []
  else if kind =? RoomEventAttachmentRemoved then
    h zero_participant (RoomAttachment.Build_RoomAttachment (RoomAttachment.BroadcastID a) [] false 0)
      reason 0 [] [] [] 0 []
  else if kind =? RoomEventRoomEnding then h zero_participant zero_attachment reason 0 [] [] [] 0 []
  else if kind =? RoomEventCommandRejected then
    h zero_participant zero_attachment reason command message [] [] 0 []
  else if kind =? RoomEventVoiceTicket then
    h zero_participant zero_attachment 0 0 [] url ticket 0 []
  else h zero_participant zero_attachment 0 0 [] [] [] flags roster.

(** a ticket whose URL [ParseRoomEvent] will refuse *)
Definition bad_ticket_url (e : RoomEvent) : bool :=
  (RoomEvent.Kind e =? RoomEventVoiceTicket) && negb (utf8_valid (RoomEvent.VoiceURL e)).

Lemma append_event_payload_ok dst e out :
  event_typed e → append_event_payload up dst e = Ok out → bad_ticket_url e = false →
  ∃ payload, out = dst ++ payload ∧ event_payload (RoomEvent.Seq e) (relevant_event e) payload.
Proof.
  destruct e as [sq kind p a reason command message url ticket flags roster].
  unfold event_typed, append_event_payload, bad_ticket_url, relevant_event;
  cbn [RoomEvent.Seq RoomEvent.Kind RoomEvent.Participant RoomEvent.Attachment RoomEvent.Reason
       RoomEvent.Command RoomEvent.Message RoomEvent.VoiceURL RoomEvent.VoiceTicket
       RoomEvent.VoiceFlags RoomEvent.VoiceRoster].
  intros (Hs & _ & Hp & Ha & Hr) Ho Hurl.
  destruct (_ || _) eqn:K1 in Ho |- *.
  { apply append_participant_ok in Ho as [-> Hok]; [|done]. eexists; split; [done|by constructor]. }
  destruct (Z.eqb_spec kind RoomEventParticipantLeft) as [->|].
  { apply Ok_inj in Ho as <-. eexists; split; [done|by constructor]. }
  destruct (_ || _) eqn:K2 in Ho |- *.
  { apply append_attachment_ok in Ho as [-> Hok]; [|apply Ha; unfold carries_attachment; by rewrite K2].
    eexists; split; [done|by constructor]. }
  destruct (Z.eqb_spec kind RoomEventAttachmentRemoved) as [->|].
  { destruct (Ha eq_refl) as [Hid _]. rewrite appendBroadcastID_total in Ho by done.
    apply Ok_inj in Ho as <-. rewrite <- app_assoc. eexists; split; [done|by constructor]. }
  destruct (Z.eqb_spec kind RoomEventRoomEnding) as [->|].
  { apply Ok_inj in Ho as <-. eexists; split; [done|by constructor]. }
  destruct (Z.eqb_spec kind RoomEventCommandRejected) as [->|].
  { apply appendStr8_ok in Ho as (-> & Hm & Hu); [|done]. rewrite <- app_assoc.
    eexists; split; [done|by constructor]. }
  destruct (Z.eqb_spec kind RoomEventVoiceTicket) as [->|].
  { destruct ((zlen url =? 0) || _) eqn:Hul; [done|]. destruct ((zlen ticket =? 0) || _) eqn:Htl; [done|].
    pose proof (zlen_nonneg url). pose proof (zlen_nonneg ticket).
    apply Ok_inj in Ho as <-. unfold AppendUint16, uint16, MaxVoiceURLLen, MaxVoiceTicketLen in *.
    rewrite !Z.mod_small by lia. rewrite <- !app_assoc. exists (enc16 url ++ enc16 ticket).
    split; [unfold enc16; by rewrite <- !app_assoc|].
    constructor; unfold text_ok, MaxVoiceURLLen, MaxVoiceTicketLen; [lia| |lia].
    split; [lia|by apply negb_false_iff in Hurl]. }
  destruct (Z.eqb_spec kind RoomEventVoiceRosterUpdated) as [->|]; [|done].
  destruct (has_other flags _) eqn:Hf; [done|]. destruct (_ >? _) eqn:Hl; [done|].
  pose proof (zlen_nonneg roster).
  apply (append_all_ok _ enc_roster_entry roster_entry_typed roster_entry_ok) in Ho as [-> Hok];
    [|intros ? ? ?; apply append_roster_entry_ok|done].
  unfold AppendUint16, uint16, MaxVoiceRosterEntries in *. rewrite Z.mod_small by lia.
  rewrite <- !app_assoc. eexists; split; [done|]. constructor; [done|unfold MaxVoiceRosterEntries; lia|done].
Qed.

Lemma relevant_header e :
  RoomEvent.Seq (relevant_event e) = RoomEvent.Seq e ∧
  RoomEvent.Kind (relevant_event e) = RoomEvent.Kind e.
Proof.
  destruct e. unfold relevant_event.
  repeat match goal with |- context [if ?b then _ else _] => destruct b end; done.
Qed.

Lemma append_event_shape dst e out :
  AppendRoomEvent up dst e = Ok out →
  ∃ d, append_event_payload up (dst ++ [Version; TypeRoomEvent] ++ be_encode 4 (RoomEvent.Seq e) ++
         [RoomEvent.Kind e]) e = Ok d ∧ out = d ∧ zlen d ≤ MaxRoomRecordSize.
Proof.
  unfold AppendRoomEvent, AppendUint32. rewrite <- !app_assoc.
  intros (d & Hd & Ho)%outcome_bind_Ok. exists d. split; [done|].
  destruct (_ >? _) eqn:Hm in Ho; [done|]. apply Ok_inj in Ho as ->. split; [done|lia].
Qed.

(** ** Commands *)

Lemma reads_command_payload c payload :
  command_payload c payload →
  ∃ m, read_command_payload up (RoomCommand.Kind c) = Some m ∧ reads m payload c.
Proof.
  destruct 1 as [id token label Hid Ht [Hl Hu]|id Hid|nickname [Hn Hu]|kind Hk];
    unfold read_command_payload; cbn [RoomCommand.Kind].
  - eexists. split; [done|]. eapply reads_to; [reads_all; try done|].
    + unfold ResumeTokenSize in *. lia.
    + by rewrite Ht.
    + cbn -[enc8]. by rewrite app_nil_r.
  - eexists. split; [done|]. eapply reads_to; [reads_all; done|apply app_nil_r].
  - eexists. split; [done|]. eapply reads_to; [reads_all; done|apply app_nil_r].
  - apply orb_prop in Hk as [[->%Z.eqb_eq| ->%Z.eqb_eq]%orb_prop| ->%Z.eqb_eq];
      eexists; (split; [done|apply reads_ret]).
Qed.

Lemma rspec_command_payload kind m :
  read_command_payload up kind = Some m →
  rspec ErrBadRoomCommand m (λ _ c, RoomCommand.Kind c = kind ∧ ∃ payload, command_payload c payload).
Proof.
  unfold read_command_payload.
  destruct (Z.eqb_spec kind RoomCommandAttach) as [->|].
  { intros [= <-]. rspec_intro. split; [done|]. eexists. constructor; [done| |done].
    match goal with H : (_ <>? _) = false |- _ => apply negb_false_iff, Z.eqb_eq in H; done end. }
  destruct (Z.eqb_spec kind RoomCommandDetach) as [->|];
    [intros [= <-]; rspec_intro; split; [done|eexists; by constructor]|].
  destruct (Z.eqb_spec kind RoomCommandSetNickname) as [->|];
    [intros [= <-]; rspec_intro; split; [done|eexists; by constructor]|].
  destruct (_ || _) eqn:Hk; [|done].
  intros [= <-]. rspec_intro. split; [done|]. eexists; by constructor.
Qed.

Lemma unknown_command_kind kind :
  read_command_payload up kind = None ↔
  kind ∉ [RoomCommandAttach; RoomCommandDetach; RoomCommandSetNickname; RoomCommandEndRoom;
          RoomCommandResync; RoomCommandVoiceJoin].
Proof.
  unfold read_command_payload.
  repeat match goal with |- (if ?b then _ else _) = None ↔ _ => destruct b eqn:? end;
    rewrite ?not_elem_of_cons; split; try done; intros; repeat split; try lia; try apply not_elem_of_nil.
Qed.

Lemma append_command_payload_total c payload dst :
  command_payload c payload → append_command_payload up dst c = Ok (dst ++ payload).
Proof.
  destruct 1 as [id token label Hid Ht [Hl Hu]|id Hid|nickname [Hn Hu]|kind Hk];
    unfold append_command_payload; cbn [RoomCommand.Kind RoomCommand.ResumeToken RoomCommand.BroadcastID
      RoomCommand.Label RoomCommand.Nickname].
  - rewrite Ht. cbn -[app enc8]. rewrite appendBroadcastID_total by done. cbn -[app enc8].
    rewrite appendStr8_total by done. change (enc8 token) with (zlen token :: token). rewrite Ht. by rewrite <- !app_assoc.
  - cbn -[app enc8]. by rewrite appendBroadcastID_total.
  - cbn -[app enc8]. by rewrite appendStr8_total.
  - rewrite app_nil_r. apply orb_prop in Hk as [[->%Z.eqb_eq| ->%Z.eqb_eq]%orb_prop| ->%Z.eqb_eq]; done.
Qed.

Definition relevant_command (c : RoomCommand) : RoomCommand :=
  let '(Build_RoomCommand kind id token label nickname) := c in
  if kind =? RoomCommandAttach then Build_RoomCommand kind id token label []
  else if kind =? RoomCommandDetach then Build_RoomCommand kind id [] [] []
  else if kind =? RoomCommandSetNickname then Build_RoomCommand kind [] [] [] nickname
  else Build_RoomCommand kind [] [] [] [].
Definition command_typed (c : RoomCommand) : Prop :=
  (RoomCommand.Kind c =? RoomCommandAttach) || (RoomCommand.Kind c =? RoomCommandDetach) = true →
  valid_id (RoomCommand.BroadcastID c).

Lemma append_command_payload_ok dst c out :
  command_typed c → append_command_payload up dst c = Ok out →
  ∃ payload, out = dst ++ payload ∧ command_payload (relevant_command c) payload.
Proof.
  destruct c as [kind id token label nickname].
  unfold command_typed, append_command_payload, relevant_command;
    cbn [RoomCommand.Kind RoomCommand.ResumeToken RoomCommand.BroadcastID RoomCommand.Label
         RoomCommand.Nickname]. intros Hid Ho.
  destruct (Z.eqb_spec kind RoomCommandAttach) as [->|].
  { destruct (_ <>? _) eqn:Ht in Ho; [done|]. apply negb_false_iff, Z.eqb_eq in Ht.
    rewrite appendBroadcastID_total in Ho by by apply Hid.
    cbn [mbind outcome_bind] in Ho. apply appendStr8_ok in Ho as (-> & Hl & Hu); [|done].
    exists (enc8 id ++ enc8 token ++ enc8 label). split; [|constructor; [by apply Hid|done|done]].
    unfold uint8, enc8. rewrite Ht. by rewrite <- !app_assoc. }
  destruct (Z.eqb_spec kind RoomCommandDetach) as [->|].
  { rewrite appendBroadcastID_total in Ho by by apply Hid. apply Ok_inj in Ho as <-.
    eexists; split; [done|constructor; by apply Hid]. }
  destruct (Z.eqb_spec kind RoomCommandSetNickname) as [->|].
  { apply appendStr8_ok in Ho as (-> & Hl & Hu); [|done]. eexists; split; [done|by constructor]. }
  destruct (_ || _) eqn:Hk in Ho; [|done]. apply Ok_inj in Ho as <-.
  exists []. rewrite app_nil_r. split; [done|by constructor].
Qed.

Lemma ParseRoomCommand_header kind rest msg :
  msg = Version :: TypeRoomCommand :: kind :: rest →
  ParseRoomCommand up msg =
  match read_command_payload up kind with
  | None => Ok (Build_RoomCommand kind [] [] [] [], Some ErrUnknownRoomKind)
  | Some payload =>
      '(c, r) ← payload (MkReader msg 3 None);
      match done_ ErrBadRoomCommand r with
      | Ok _ => Ok (c, None) | Err err => Ok (zero_command, Some err) | Fault => Fault end
  end.
Proof.
  intros ->. unfold ParseRoomCommand. erewrite checkPrefix_ok; [|done|zlia].
  pose proof (reads_u8 ErrBadRoomCommand kind [Version; TypeRoomCommand] rest) as Hr.
  cbn [app] in Hr. change (zlen [Version; TypeRoomCommand]) with 2 in Hr. rewrite Hr. done.
Qed.

Definition command_message (kind : Z) (msg : bytes) : Prop :=
  is_byte kind ∧ ∃ rest, msg = Version :: TypeRoomCommand :: kind :: rest.

Lemma ParseRoomCommand_spec msg :
  bytes_ok msg →
  match ParseRoomCommand up msg with
  | Ok (c, None) =>
      command_message (RoomCommand.Kind c) msg ∧ ∃ payload, command_payload c payload
  | Ok (c, Some ErrUnknownRoomKind) =>
      ∃ kind, command_message kind msg ∧ c = Build_RoomCommand kind [] [] [] [] ∧
        read_command_payload up kind = None
  | Ok (c, Some err) =>
      c = zero_command ∧ err ∈ [ErrShortDatagram; ErrBadVersion; ErrBadType; ErrBadRoomCommand]
  | _ => False
  end.
Proof.
  intros Hb. destruct (checkPrefix msg TypeRoomCommand 3) as [[]|err|] eqn:Hp.
  - apply checkPrefix_inv in Hp as [Hl (rest & ->)]. destruct rest as [|kind rest]; [zlia|].
    assert (Hk : is_byte kind) by bytes_ok_tac.
    erewrite ParseRoomCommand_header by done.
    assert (Hm : command_message kind (Version :: TypeRoomCommand :: kind :: rest)) by (split; eauto).
    destruct (read_command_payload up kind) as [m|] eqn:Hr; [|eauto 10].
    destruct (rspec_command_payload kind m Hr
      (MkReader (Version :: TypeRoomCommand :: kind :: rest) 3 None))
      as (c & r & -> & Hbuf & Hrok & _ & Herr & Hc); [split; [done|cbn [rbuf roff]; zlia]|].
    cbn [mbind outcome_bind]. unfold done_. destruct (rerr r) as [err|].
    + destruct (Herr err eq_refl) as [?| ->]; [done|]. split; [done|set_solver].
    + destruct (Hc eq_refl) as (_ & _ & _ & _ & _ & _ & _ & <- & payload & Hpl).
      destruct (_ <>? _); [split; [done|set_solver]|]. eauto.
  - pose proof (checkPrefix_err _ _ _ _ Hp) as He. unfold ParseRoomCommand. rewrite Hp.
    destruct err; try set_solver.
  - by apply checkPrefix_nofault in Hp.
Qed.

Lemma ParseRoomCommand_enc c payload :
  command_payload c payload → ParseRoomCommand up (enc_command c payload) = Ok (c, None).
Proof.
  intros Hpl. unfold enc_command. destruct (reads_command_payload _ _ Hpl) as (m & Hm & Hr).
  erewrite ParseRoomCommand_header by done. rewrite Hm.
  specialize (Hr [Version; TypeRoomCommand; RoomCommand.Kind c] []).
  rewrite app_nil_r in Hr. change (zlen [_; _; _]) with 3 in Hr.
  cbn [mbind outcome_bind]. rewrite Hr. cbn [mbind outcome_bind]. unfold done_. cbn [rerr roff rbuf].
  replace (_ <>? _) with false; [done|]. symmetry. apply negb_false_iff. zlia.
Qed.

(** A ticket URL that is not UTF-8: written, but refused by the parser. *)
Lemma bad_ticket_refused dst e out :
  event_typed e → AppendRoomEvent up dst e = Ok out → bad_ticket_url e = true →
  ∃ enc, out = dst ++ enc ∧ ParseRoomEvent up enc = Ok (zero_event, Some ErrBadRoomEvent).
Proof.
  intros (Hs & _) (d & Hd & -> & _)%append_event_shape Hbad.
  apply andb_true_iff in Hbad as [Hk%Z.eqb_eq Hu]. revert Hd.
  unfold append_event_payload. rewrite Hk. eval_kind.
  case_match eqn:Hul; [done|]. case_match eqn:Htl; [done|]. intros Hd%Ok_inj. subst d.
  set (url := RoomEvent.VoiceURL e) in *. set (tk := RoomEvent.VoiceTicket e) in *.
  pose proof (zlen_nonneg url). pose proof (zlen_nonneg tk).
  unfold AppendUint16, uint16, MaxVoiceURLLen, MaxVoiceTicketLen in *.
  rewrite !Z.mod_small by lia. rewrite <- !app_assoc. eexists. split; [done|].
  erewrite ParseRoomEvent_header by done. unfold read_event_payload. eval_kind.
  set (pre := [Version; TypeRoomEvent] ++ be_encode 4 (RoomEvent.Seq e) ++ [RoomEventVoiceTicket]).
  pose proof (reads_bytes16 ErrBadRoomEvent url MaxVoiceURLLen ltac:(unfold MaxVoiceURLLen; lia)
    ltac:(done) pre (be_encode 2 (zlen tk) ++ tk)) as Hr.
  assert (zlen pre = 7) as Hpre by (unfold pre; zlia). rewrite Hpre in Hr.
  unfold pre, enc16 in Hr. rewrite <- !app_assoc in Hr.
  unfold mbind, rd_bind, outcome_bind. rewrite Hr.
  unfold check. cbn [mbind outcome_bind rerr].
  replace (zlen url =? 0) with false by lia. cbn [rerr]. rewrite Hu. cbn. done.
Qed.
End MessageLaws.

(** ** Properties *)

Lemma room_record_roundtrip dst msg out :
  AppendRoomRecord dst msg = Ok out →
  ∃ hdr, out = dst ++ hdr ++ msg ∧ zlen hdr = RoomRecordHeaderSize ∧
    ∀ rest, ParseRoomRecordLength (hdr ++ rest) = Ok (zlen msg).
Proof.
  unfold AppendRoomRecord. case_match eqn:Hl; [done|]. intros [= <-].
  unfold AppendUint16, uint16, MaxRoomRecordSize in *. rewrite Z.mod_small by zlia.
  exists (be_encode 2 (zlen msg)). rewrite <- app_assoc. split; [done|]. split; [by rewrite zlen_be_encode|].
  intros rest. unfold ParseRoomRecordLength, RoomRecordHeaderSize, MaxRoomRecordSize.
  parse_run. rewrite be_decode_16 by zlia. by rewrite Hl.
Qed.


(** What the room parsers return, for any bytes: they never panic; an
    accepted message has a canonical spelling that parses to the same value and
    that the encoder writes if it fits a record; an unknown kind is reported
    with the sequence number and the kind filled in and everything else zero,
    exactly when the header is whole and the kind is not one of the protocol's;
    any other refusal returns the zero value and a prefix error or the
    message's own sentinel. *)
Theorem room_parsers_classify up msg :
  bytes_ok msg →
  match ParseRoomEvent up msg with
  | Ok (e, None) => ∃ d, ParseRoomEvent up d = Ok (e, None) ∧
      (zlen d ≤ MaxRoomRecordSize → AppendRoomEvent up [] e = Ok d)
  | Ok (e, Some ErrUnknownRoomKind) =>
      ∃ sq kind, event_message sq kind msg ∧ e = event_header sq kind ∧
        kind ∉ [RoomEventParticipantJoined; RoomEventParticipantLeft; RoomEventParticipantUpdated;
                RoomEventAttachmentAdded; RoomEventAttachmentRemoved; RoomEventAttachmentUpdated;
                RoomEventRoomEnding; RoomEventCommandRejected; RoomEventVoiceTicket;
                RoomEventVoiceRosterUpdated]
  | Ok (e, Some err) =>
      e = zero_event ∧ err ∈ [ErrShortDatagram; ErrBadVersion; ErrBadType; ErrBadRoomEvent]
  | _ => False
  end ∧
  match ParseRoomCommand up msg with
  | Ok (c, None) => ∃ d, ParseRoomCommand up d = Ok (c, None) ∧ AppendRoomCommand up [] c = Ok d
  | Ok (c, Some ErrUnknownRoomKind) =>
      ∃ kind, command_message kind msg ∧ c = Build_RoomCommand kind [] [] [] [] ∧
        kind ∉ [RoomCommandAttach; RoomCommandDetach; RoomCommandSetNickname; RoomCommandEndRoom;
                RoomCommandResync; RoomCommandVoiceJoin]
  | Ok (c, Some err) =>
      c = zero_command ∧ err ∈ [ErrShortDatagram; ErrBadVersion; ErrBadType; ErrBadRoomCommand]
  | _ => False
  end.
Proof.
  intros Hb. pose proof (ParseRoomEvent_spec up msg Hb) as He.
  pose proof (ParseRoomCommand_spec up msg Hb) as Hc. split.
  - destruct (ParseRoomEvent up msg) as [[e [err|]]| |]; [|..|done|done].
    + destruct err; try exact He. destruct He as (sq & kind & Hm & -> & Hk%unknown_event_kind). eauto 10.
    + destruct He as [[Hs _] [payload Hpl]]. exists (enc_event e payload).
      split; [by apply ParseRoomEvent_enc|]. intros Hmax. unfold AppendRoomEvent, AppendUint32.
      erewrite append_event_payload_total by done. cbn [mbind outcome_bind].
      assert ((([] ++ [Version; TypeRoomEvent]) ++ be_encode 4 (RoomEvent.Seq e)) ++ [RoomEvent.Kind e] ++ payload
              = enc_event e payload) as Heq by (unfold enc_event; by rewrite <- !app_assoc).
      rewrite <- app_assoc, Heq. by replace (_ >? _) with false by lia.
  - destruct (ParseRoomCommand up msg) as [[c [err|]]| |]; [|..|done|done].
    + destruct err; try exact Hc. destruct Hc as (kind & Hm & -> & Hk%unknown_command_kind). eauto 10.
    + destruct Hc as [_ [payload Hpl]]. exists (enc_command c payload).
      split; [by apply ParseRoomCommand_enc|]. unfold AppendRoomCommand.
      by erewrite append_command_payload_total by done.
Qed.

(** a reserved chat event, 0x40, in sequence *)
Lemma room_parsers_classify_witness :
  ∃ sq kind, event_message sq kind [1; 0x15; 0; 0; 0; 9; 0x40; 7] ∧
    ParseRoomEvent id [1; 0x15; 0; 0; 0; 9; 0x40; 7] = Ok (event_header sq kind, Some ErrUnknownRoomKind).
Proof.
  assert (Hb : bytes_ok [1; 0x15; 0; 0; 0; 9; 0x40; 7]) by (repeat constructor; unfold is_byte; lia).
  pose proof (room_parsers_classify id _ Hb) as [H _].
  assert (Hp : ParseRoomEvent id [1; 0x15; 0; 0; 0; 9; 0x40; 7] =
    Ok (event_header 9 0x40, Some ErrUnknownRoomKind)) by (vm_compute; reflexivity).
  rewrite Hp in H. destruct H as (sq & kind & Hm & He & _). exists sq, kind.
  split; [exact Hm|]. rewrite Hp, He. reflexivity.
Defined.
