(* ===== verification/RoomNames.v ===== *)
(** internal/roomsrv/registry.go: the names and numbers a room hands out.
    Unique nicknames and labels, the participant ID allocator, and the loops
    behind them, which have no bound in the code. *)
From S2P Require Export WireRoom GoUtf8.
#[local] Open Scope Z_scope.

(** ** [fmt.Sprintf("%d")] on a positive integer *)
Fixpoint itoa_loop (fuel : nat) (n : Z) (acc : bytes) : bytes :=
  match fuel with
  | O => acc
  | S fuel' =>
      let acc := (48 + n mod 10) :: acc in
      if n <? 10 then acc else itoa_loop fuel' (n / 10) acc
  end.
Definition Itoa (n : Z) : bytes := itoa_loop (S (Z.to_nat (Z.log2 n))) n [].

Example itoa_examples : (Itoa 2, Itoa 10, Itoa 65535) = (str "2"%string, str "10"%string, str "65535"%string).
Proof. reflexivity. Qed.

(** ** Nicknames and labels *)

(** [fmt.Sprintf(" (%d)", n)] *)
Definition suffix (n : Z) : bytes := [32; 40] ++ Itoa n ++ [41].
(** the candidate of one round *)
Definition candidate (name : bytes) (max n : Z) : bytes :=
  truncate name (max - zlen (suffix n)) ++ suffix n.
(** [for n := 2; ; n++]: [None] is a loop that has not returned yet *)
Fixpoint unique_loop (fuel : nat) (taken : bytes → bool) (name : bytes) (max n : Z) : option bytes :=
  match fuel with
  | O => None
  | S fuel' =>
      let cand := candidate name max n in
      if negb (taken cand) then Some cand else unique_loop fuel' taken name max (n + 1)
  end.

(** [others]: the names the new one must differ from *)
Definition taken (others : list bytes) (n : bytes) : bool := bool_decide (n ∈ others).

Definition guest (self : Z) : bytes := str "guest-"%string ++ Itoa self.

(** [uniqueNickLocked]: [others] are the nicknames of the participants whose ID
    is not [self]. *)
Definition uniqueNick (fuel : nat) (others : list bytes) (nick : bytes) (self : Z) : option bytes :=
  let nick := TrimSpace nick in
  let nick := if (zlen nick =? 0) || negb (utf8_valid nick) then guest self else nick in
  let nick := truncate nick MaxRoomNicknameLen in
  if negb (taken others nick) then Some nick
  else unique_loop fuel (taken others) nick MaxRoomNicknameLen 2.

(** [uniqueLabelLocked]: [others] are the labels of the other attachments. *)
Definition uniqueLabel (fuel : nat) (others : list bytes) (label : bytes) : option bytes :=
  let label := TrimSpace label in
  if zlen label =? 0 then Some [] else
  let label := truncate label MaxRoomLabelLen in
  if negb (taken others label) then Some label
  else unique_loop fuel (taken others) label MaxRoomLabelLen 2.

(** ** The participant ID allocator of [Join] *)

(** [pid++] on a uint16; [live]: the IDs in use *)
Fixpoint pid_loop (fuel : nat) (live : list Z) (pid : Z) : option Z :=
  match fuel with
  | O => None
  | S fuel' =>
      if negb (pid =? 0) && negb (bool_decide (pid ∈ live)) then Some pid
      else pid_loop fuel' live (uint16 (pid + 1))
  end.

(** ** Decimal numbers *)

Lemma digits_value_app d : ∀ a k, Forall (λ c, is_digit c = true) d →
  ∃ v, digits_value a d = Some v ∧ digits_value a (d ++ k) = digits_value v k.
Proof.
  induction d as [|c d IH]; intros a k Hd; cbn [digits_value app]; [by exists a|].
  apply Forall_cons_iff in Hd as [-> Hd]. by apply IH.
Qed.

Lemma itoa_loop_spec fuel : ∀ n acc, 0 ≤ n < 10 ^ Z.of_nat fuel → (1 ≤ fuel)%nat →
  ∃ ds, itoa_loop fuel n acc = ds ++ acc ∧ Forall (λ c, is_digit c = true) ds ∧ ds ≠ [] ∧
    digits_value 0 ds = Some n ∧ (∀ k, (1 ≤ k)%nat → n < 10 ^ Z.of_nat k → (length ds ≤ k)%nat).
Proof.
  induction fuel as [|fuel IH]; intros n acc Hn Hf; [lia|]. cbn [itoa_loop].
  pose proof (Z.mod_pos_bound n 10 ltac:(lia)) as Hm.
  assert (Hd : is_digit (48 + n mod 10) = true) by (unfold is_digit; lia).
  destruct (n <? 10) eqn:Hlt.
  - exists [48 + n mod 10]. split; [done|]. split; [by constructor|]. split; [done|].
    split; [|cbn; lia]. cbn [digits_value]. rewrite Hd. f_equal. rewrite Z.mod_small by lia. lia.
  - assert (Hpow : 10 ^ Z.of_nat (S fuel) = 10 * 10 ^ Z.of_nat fuel)
      by (rewrite Nat2Z.inj_succ, Z.pow_succ_r by lia; done).
    assert (1 ≤ fuel)%nat by (destruct fuel; [change (10 ^ Z.of_nat 1) with 10 in *; lia|lia]).
    destruct (IH (n / 10) ((48 + n mod 10) :: acc)) as (ds & Heq & Hds & Hne & Hv & Hk).
    { split; [apply Z.div_pos; lia|]. apply Z.div_lt_upper_bound; lia. } { done. }
    exists (ds ++ [48 + n mod 10]). split; [by rewrite Heq, <- app_assoc|].
    split; [by apply Forall_app_2; [|constructor]|]. split; [by destruct ds|]. split.
    + destruct (digits_value_app ds 0 [48 + n mod 10] Hds) as (v & Hv' & ->).
      rewrite Hv in Hv'. injection Hv' as <-. cbn [digits_value]. rewrite Hd. f_equal.
      rewrite (Z.div_mod n 10) at 3 by lia. lia.
    + intros k Hk1 Hnk. rewrite length_app. cbn [length].
      destruct k as [|[|k]]; [lia|change (10 ^ Z.of_nat 1) with 10 in Hnk; lia|].
      assert (Hpk : 10 ^ Z.of_nat (S (S k)) = 10 * 10 ^ Z.of_nat (S k))
        by (rewrite (Nat2Z.inj_succ (S k)), Z.pow_succ_r by lia; done).
      enough (length ds ≤ S k)%nat by lia. apply Hk; [lia|]. apply Z.div_lt_upper_bound; lia.
Qed.

Lemma Itoa_spec n : 0 ≤ n →
  Forall (λ c, is_digit c = true) (Itoa n) ∧ Itoa n ≠ [] ∧ digits_value 0 (Itoa n) = Some n ∧
  (∀ k, (1 ≤ k)%nat → n < 10 ^ Z.of_nat k → (length (Itoa n) ≤ k)%nat).
Proof.
  intros Hn. unfold Itoa.
  destruct (itoa_loop_spec (S (Z.to_nat (Z.log2 n))) n []) as (ds & -> & H1 & H2 & H3 & H4); [|lia|].
  - split; [done|]. destruct (decide (n = 0)) as [->|]; [done|].
    pose proof (Z.log2_spec n ltac:(lia)) as [_ Hl]. pose proof (Z.log2_nonneg n).
    rewrite Nat2Z.inj_succ, Z2Nat.id by done.
    pose proof (Z.pow_le_mono_l 2 10 (Z.succ (Z.log2 n)) ltac:(lia)). lia.
  - rewrite app_nil_r. done.
Qed.

(** ** Candidates differ *)

Lemma last_cut {A} (a b d d' : list A) x :
  x ∉ d → x ∉ d' → a ++ x :: d = b ++ x :: d' → d = d'.
Proof.
  revert d'. induction d as [|y d IH] using rev_ind; intros d' Hd Hd' Heq.
  - destruct d' as [|z d' _] using rev_ind; [done|]. rewrite app_comm_cons, app_assoc in Heq.
    apply app_inj_tail in Heq as [_ ->]. exfalso. apply Hd'. apply elem_of_app. right. by left.
  - destruct d' as [|z d' _] using rev_ind.
    + rewrite app_comm_cons, app_assoc in Heq.
      apply app_inj_tail in Heq as [_ ->]. exfalso. apply Hd. apply elem_of_app. right. by left.
    + rewrite !app_comm_cons, !app_assoc in Heq. apply app_inj_tail in Heq as [Heq ->].
      rewrite elem_of_app in Hd, Hd'. f_equal. apply IH; tauto.
Qed.

Lemma digit_not d x : Forall (λ c, is_digit c = true) d → is_digit x = false → x ∉ d.
Proof. rewrite Forall_forall. intros H Hx Hin%H. congruence. Qed.

Lemma candidate_inj name name' max max' n n' :
  0 ≤ n → 0 ≤ n' → candidate name max n = candidate name' max' n' → n = n'.
Proof.
  intros Hn Hn'. unfold candidate, suffix.
  destruct (Itoa_spec n Hn) as (Hd & _ & Hv & _), (Itoa_spec n' Hn') as (Hd' & _ & Hv' & _).
  generalize (truncate name (max - zlen ([32; 40] ++ Itoa n ++ [41]))).
  generalize (truncate name' (max' - zlen ([32; 40] ++ Itoa n' ++ [41]))).
  intros b a Heq. cbn [app] in Heq.
  rewrite !app_comm_cons, !app_assoc in Heq. apply app_inj_tail in Heq as [Heq _].
  assert (Itoa n = Itoa n') as Hi; [|congruence].
  apply (last_cut (a ++ [32]) (b ++ [32]) _ _ 40); [by apply digit_not..|].
  by rewrite <- !app_assoc.
Qed.

(** ** The loops return *)

(** A search over distinct candidates hits one that is free within one round
    more than there are taken names. *)
Lemma unique_loop_None fuel : ∀ others name max n, 0 ≤ n →
  unique_loop fuel (taken others) name max n = None →
  ∀ i, n ≤ i < n + Z.of_nat fuel → candidate name max i ∈ others.
Proof.
  induction fuel as [|fuel IH]; intros others name max n Hn; cbn [unique_loop]; [lia|].
  unfold taken at 1. case_bool_decide as Hin; cbn [negb]; [|done].
  intros Hl i Hi. destruct (decide (i = n)) as [->|]; [done|]. apply (IH _ _ _ (n + 1)); [lia|done|lia].
Qed.

Lemma unique_loop_total others name max n : 0 ≤ n →
  ∃ r, unique_loop (S (length others)) (taken others) name max n = Some r.
Proof.
  intros Hn. destruct (unique_loop _ _ _ _ _) as [r|] eqn:Hl; [by exists r|]. exfalso.
  pose proof (unique_loop_None _ _ _ _ _ Hn Hl) as Hin.
  set (cs := map (candidate name max) (seqZ n (Z.of_nat (S (length others))))).
  assert (Hnd : NoDup cs).
  { apply NoDup_fmap_2_strong; [|apply NoDup_seqZ].
    intros x y Hx%elem_of_seqZ Hy%elem_of_seqZ Heq. apply candidate_inj in Heq; lia. }
  assert (Hsub : cs ⊆+ others).
  { apply NoDup_submseteq; [done|]. intros c Hc%list_elem_of_In. apply in_map_iff in Hc as (i & <- & Hi).
    apply list_elem_of_In, elem_of_seqZ in Hi. apply Hin. lia. }
  apply submseteq_length in Hsub. unfold cs in Hsub. rewrite length_map, length_seqZ in Hsub. unfold zlen in *. lia.
Qed.

Lemma unique_loop_Some fuel : ∀ others name max n r,
  unique_loop fuel (taken others) name max n = Some r →
  r ∉ others ∧ ∃ i, n ≤ i < n + Z.of_nat fuel ∧ r = candidate name max i.
Proof.
  induction fuel as [|fuel IH]; intros others name max n r; cbn [unique_loop]; [done|].
  unfold taken at 1. case_bool_decide as Hin; cbn [negb].
  - intros (Hr & i & Hi & ->)%IH. split; [done|]. exists i. split; [lia|done].
  - intros [= <-]. split; [done|]. exists n. split; [lia|done].
Qed.

(** ** Names are texts that fit *)

Lemma ascii_valid s : Forall (λ c, c < 0x80) s → utf8_valid s = true.
Proof.
  induction 1 as [|c s Hc _ IH]; [done|]. cbn [utf8_valid]. by replace (c <? 0x80) with true by lia.
Qed.
Lemma digits_ascii d : Forall (λ c, is_digit c = true) d → Forall (λ c, c < 0x80) d.
Proof. intros H. eapply Forall_impl; [exact H|]. cbv beta. unfold is_digit. lia. Qed.
Lemma suffix_valid n : 0 ≤ n → utf8_valid (suffix n) = true.
Proof.
  intros Hn. destruct (Itoa_spec n Hn) as (Hd & _). apply ascii_valid. unfold suffix.
  rewrite !Forall_app. split; [repeat constructor; lia|]. split; [by apply digits_ascii|by repeat constructor].
Qed.
Lemma suffix_len n : 0 ≤ n < 10 ^ 20 → zlen (suffix n) ≤ 23.
Proof.
  intros Hn. destruct (Itoa_spec n) as (_ & _ & _ & Hl); [lia|].
  specialize (Hl 20%nat ltac:(lia) ltac:(lia)). unfold suffix. rewrite !zlen_app.
  change (zlen [32; 40]) with 2. change (zlen [41]) with 1. unfold zlen. lia.
Qed.
Lemma candidate_ok name max n :
  utf8_valid name = true → 0 ≤ n < 10 ^ 20 → 23 ≤ max → text_ok (candidate name max n) max.
Proof.
  intros Hv Hn Hm. pose proof (suffix_len n Hn). unfold candidate. split.
  - rewrite zlen_app. pose proof (truncate_le name (max - zlen (suffix n)) ltac:(lia)). lia.
  - rewrite utf8_valid_app by by apply truncate_valid. apply suffix_valid. lia.
Qed.

Lemma text_truncate s max : utf8_valid s = true → 0 ≤ max → text_ok (truncate s max) max.
Proof. intros. split; [by apply truncate_le|by apply truncate_valid]. Qed.

Lemma guest_valid n : 0 ≤ n → utf8_valid (guest n) = true.
Proof.
  intros Hn. destruct (Itoa_spec n Hn) as (Hd & _). apply ascii_valid. unfold guest.
  apply Forall_app. split; [by repeat constructor|by apply digits_ascii].
Qed.

(** What [uniqueNickLocked] returns, whatever was asked for. *)
Lemma uniqueNick_spec fuel others nick self r :
  0 ≤ self → Z.of_nat fuel < 10 ^ 19 →
  uniqueNick fuel others nick self = Some r → r ∉ others ∧ text_ok r MaxRoomNicknameLen.
Proof.
  intros Hs Hf. unfold uniqueNick.
  set (nk := if _ || _ then guest self else TrimSpace nick).
  assert (Hv : utf8_valid nk = true).
  { unfold nk. destruct (_ || _) eqn:E; [by apply guest_valid|]. apply orb_false_iff in E as [_ E].
    by apply negb_false_iff in E. }
  assert (Ht : text_ok (truncate nk MaxRoomNicknameLen) MaxRoomNicknameLen) by by apply text_truncate.
  unfold taken at 1. case_bool_decide as Hin; cbn [negb]; [|by intros [= <-]].
  intros (Hr & i & Hi & ->)%unique_loop_Some. split; [done|]. apply candidate_ok; [apply Ht|lia|done].
Qed.

Lemma uniqueLabel_spec fuel others label r :
  utf8_valid label = true → Z.of_nat fuel < 10 ^ 19 →
  uniqueLabel fuel others label = Some r →
  text_ok r MaxRoomLabelLen ∧ (r = [] ∨ r ∉ others).
Proof.
  intros Hv Hf. unfold uniqueLabel. apply TrimSpace_valid in Hv.
  destruct (zlen _ =? 0); [intros [= <-]; split; [done|by left]|].
  assert (Ht : text_ok (truncate (TrimSpace label) MaxRoomLabelLen) MaxRoomLabelLen) by by apply text_truncate.
  unfold taken at 1. case_bool_decide as Hin; cbn [negb]; [|intros [= <-]; split; [done|by right]].
  intros (Hr & i & Hi & ->)%unique_loop_Some. split; [apply candidate_ok; [apply Ht|lia|done]|by right].
Qed.

(** ** The ID allocator *)

Lemma pid_loop_Some fuel : ∀ live pid r, is_uint 16 pid →
  pid_loop fuel live pid = Some r → r ≠ 0 ∧ r ∉ live ∧ is_uint 16 r.
Proof.
  induction fuel as [|fuel IH]; intros live pid r Hp; cbn [pid_loop]; [done|].
  destruct (Z.eqb_spec pid 0) as [->|Hz]; cbn [negb andb].
  - apply IH. by vm_compute.
  - case_bool_decide as Hin; cbn [negb]; [|by intros [= <-]].
    apply IH. unfold uint16. apply Z.mod_pos_bound. lia.
Qed.

(** Rounds that all failed covered that many consecutive IDs. *)
Lemma pid_loop_None fuel : ∀ live pid, is_uint 16 pid →
  pid_loop fuel live pid = None →
  ∀ i, 0 ≤ i < Z.of_nat fuel → uint16 (pid + i) = 0 ∨ uint16 (pid + i) ∈ live.
Proof.
  induction fuel as [|fuel IH]; intros live pid Hp; cbn [pid_loop]; [lia|].
  intros Hl i Hi. destruct (decide (i = 0)) as [->|].
  - rewrite Z.add_0_r. unfold uint16. rewrite Z.mod_small by apply Hp.
    destruct (Z.eqb_spec pid 0) as [|Hz]; [by left|]. cbn [negb andb] in Hl.
    case_bool_decide; [by right|done].
  - assert (Hl' : pid_loop fuel live (uint16 (pid + 1)) = None) by (destruct (_ && _); done).
    replace (uint16 (pid + i)) with (uint16 (uint16 (pid + 1) + (i - 1))).
    + apply IH; [|done|lia]. unfold uint16. apply Z.mod_pos_bound. lia.
    + unfold uint16. rewrite Z.add_mod_idemp_l by lia. f_equal. lia.
Qed.

Lemma pid_loop_total live pid : is_uint 16 pid → zlen live < 65535 →
  ∃ r, pid_loop (Z.to_nat 65536) live pid = Some r.
Proof.
  intros Hp Hl. destruct (pid_loop _ _ _) as [r|] eqn:H; [by exists r|]. exfalso.
  pose proof (pid_loop_None _ _ _ Hp H) as Hall. rewrite Z2Nat.id in Hall by lia.
  assert (Hsub : seqZ 1 65535 ⊆+ live).
  { apply NoDup_submseteq; [apply NoDup_seqZ|]. intros x Hx%elem_of_seqZ.
    assert (Hk : uint16 (pid + (x - pid) mod 65536) = x).
    { unfold uint16. change (2 ^ 16) with 65536. rewrite Z.add_mod_idemp_r by lia.
      replace (pid + (x - pid)) with x by lia. apply Z.mod_small. lia. }
    assert (Hb : 0 ≤ (x - pid) mod 65536 < 65536) by (apply Z.mod_pos_bound; lia).
    destruct (Hall _ Hb) as [Hz|Hin]; rewrite Hk in *; [lia|done]. }
  apply submseteq_length in Hsub. rewrite length_seqZ in Hsub. unfold zlen in *. lia.
Qed.

Lemma pid_loop_full fuel : ∀ live pid, is_uint 16 pid →
  (∀ x, 1 ≤ x < 65536 → x ∈ live) → pid_loop fuel live pid = None.
Proof.
  induction fuel as [|fuel IH]; intros live pid Hp Hl; cbn [pid_loop]; [done|].
  assert (Hu : is_uint 16 (uint16 (pid + 1))) by (unfold uint16; apply Z.mod_pos_bound; lia).
  destruct (Z.eqb_spec pid 0); cbn [negb andb]; [by apply IH|].
  rewrite bool_decide_eq_true_2 by (apply Hl; lia). cbn [negb]. by apply IH.
Qed.

(** ** The loops as the registry calls them *)

Lemma uniqueNick_total others nick self : 0 ≤ self → Z.of_nat (length others) < 10 ^ 18 →
  ∃ r, uniqueNick (S (length others)) others nick self = Some r ∧
       r ∉ others ∧ text_ok r MaxRoomNicknameLen.
Proof.
  intros Hs Hl. assert (∃ r, uniqueNick (S (length others)) others nick self = Some r) as [r Hr].
  { unfold uniqueNick. case_match; [by eexists|]. by apply unique_loop_total. }
  exists r. split; [done|]. eapply uniqueNick_spec; [done| |done]. lia.
Qed.
Lemma uniqueLabel_free others label :
  ∃ r, uniqueLabel (S (length others)) others label = Some r ∧ (r = [] ∨ r ∉ others).
Proof.
  unfold uniqueLabel. destruct (zlen _ =? 0); [exists []; split; [done|by left]|].
  unfold taken at 1. case_bool_decide as Hin; cbn [negb]; [|eexists; split; [done|by right]].
  destruct (unique_loop_total others (truncate (TrimSpace label) MaxRoomLabelLen) MaxRoomLabelLen 2) as [r Hr]; [lia|].
  exists r. split; [done|]. right. by apply unique_loop_Some in Hr as [? _].
Qed.

(** C39. The three unbounded loops of the room registry return. The searches for
    a free nickname and for a free label end within one round more than there
    are other names, with a valid text of at most 32 bytes that none of the
    others has; the participant ID search ends within 65536 rounds with a free
    non-zero ID exactly when fewer than 65535 participants are live, and never
    ends once every ID is taken. *)
Theorem name_loops_terminate :
  (∀ others nick self, 0 ≤ self → Z.of_nat (length others) < 10 ^ 18 →
     ∃ r, uniqueNick (S (length others)) others nick self = Some r ∧
          r ∉ others ∧ text_ok r MaxRoomNicknameLen) ∧
  (∀ others label, utf8_valid label = true → Z.of_nat (length others) < 10 ^ 18 →
     ∃ r, uniqueLabel (S (length others)) others label = Some r ∧
          text_ok r MaxRoomLabelLen ∧ (r = [] ∨ r ∉ others)) ∧
  (∀ live pid, is_uint 16 pid → zlen live < 65535 →
     ∃ r, pid_loop (Z.to_nat 65536) live pid = Some r ∧ r ≠ 0 ∧ r ∉ live ∧ is_uint 16 r) ∧
  (∀ fuel pid, is_uint 16 pid → pid_loop fuel (seqZ 1 65535) pid = None).
Proof.
  split; [|split; [|split]].
  - apply uniqueNick_total.
  - intros others label Hv Hl. destruct (uniqueLabel_free others label) as (r & Hr & _).
    exists r. split; [done|]. eapply uniqueLabel_spec; [done| |done]. lia.
  - intros live pid Hp Hl. destruct (pid_loop_total live pid Hp Hl) as [r Hr]. exists r. split; [done|].
    by eapply pid_loop_Some.
  - intros fuel pid Hp. apply pid_loop_full; [done|]. intros x Hx. apply elem_of_seqZ. lia.
Qed.
