(* ===== verification/LocalRelay.v ===== *)
(** wire/localrelay.go: LocalRelayInfo and LocalRelayOffer, and the hand-written
    URL and origin rules both ends apply to them. *)
From S2P Require Export RoomMessages GoStrings.
#[local] Open Scope Z_scope.

Definition TypeLocalRelayInfo := 0x18.
Definition TypeLocalRelayOffer := 0x19.
Definition LocalRelayLinked := 0x01.
Definition LocalRelayOnWall := 0x02.
Definition LocalRelayInfoMinSize := 7.
Definition MaxLocalRelayOriginLen := 128.
Definition MaxLocalRelayHandleLen := 64.
Definition MaxLocalRelayURLLen := 256.
Definition MaxLocalRelayCandidates := 4.
Definition MaxLocalRelayHashes := 2.
Definition localRelayOfferMinSize := 3 + 1 + 1 + 1 + 4 + 1.

(** ** [strings] of the standard library, on bytes *)
Definition HasPrefix (s p : bytes) : bool := bool_decide (take (length p) s = p).
Fixpoint IndexByte (s : bytes) (c : Z) : Z :=
  match s with
  | [] => -1
  | x :: s' => if x =? c then 0 else
      let i := IndexByte s' c in if i <? 0 then -1 else i + 1
  end.
(** [strings.ContainsAny] and [ContainsRune] for ASCII sets *)
Definition ContainsAny (s chars : bytes) : bool := existsb (λ c, bool_decide (c ∈ chars)) s.

Definition https : bytes := str "https://"%string.
Definition http : bytes := str "http://"%string.

(** ** Authority, origin and URL rules *)

Definition urlBytesOK (s : bytes) : bool := forallb (λ c, negb ((c <=? 0x20) || (c >? 0x7e))) s.

(** the digits loop; [None] is its [return "", false] *)
Fixpoint port_loop (port : bytes) (n : Z) : option Z :=
  match port with
  | [] => Some n
  | c :: port' => if (c <? 48) || (c >? 57) then None else port_loop port' (n * 10 + (c - 48))
  end.
Definition port_ok (port : bytes) : bool :=
  if (zlen port =? 0) || (zlen port >? 5) then false else
  match port_loop port 0 with
  | None => false
  | Some n => negb ((n =? 0) || (n >? 65535))
  end.

(** [Ok None] is [ok == false]; [Fault] would be a panic. *)
Definition splitLocalRelayAuthority (auth : bytes) : res (option bytes) :=
  '(host, port) ← (
    if HasPrefix auth [91] then
      let end_ := IndexByte auth 93 in
      if end_ <? 2 then Ok (None, None) else
      host ← slice auth 0 (end_ + 1);
      inner ← slice host 1 end_;
      if ContainsAny inner [91] then Ok (None, None) else
      rest ← slice_from auth (end_ + 1);
      if zlen rest =? 0 then Ok (Some host, None) else
      c ← index rest 0;
      if c <>? 58 then Ok (None, None) else
      port ← slice_from rest 1;
      Ok (Some host, Some port)
    else
      let i := IndexByte auth 58 in
      '(host, port) ← (if i >=? 0 then h ← slice auth 0 i; p ← slice_from auth (i + 1); Ok (h, Some p)
                       else Ok (auth, None));
      if (zlen host =? 0) || ContainsAny host [91; 93] then Ok (None, None)
      else Ok (Some host, port));
  Ok (match host, port with
      | None, _ => None
      | Some host, Some port => if port_ok port then Some host else None
      | Some host, None => Some host
      end).

Definition localhost : bytes := str "localhost"%string.
Definition loopback : bytes := str "127.0.0.1"%string.

Definition validateLocalRelayOrigin (origin : bytes) : res unit :=
  if zlen origin =? 0 then Ok tt else
  reject zlen origin >? MaxLocalRelayOriginLen with ErrBadLocalRelayInfo;
  reject negb (urlBytesOK origin) with ErrBadLocalRelayInfo;
  '(auth, loopbackOnly) ← (
    if HasPrefix origin https then a ← slice_from origin (zlen https); Ok (a, false)
    else if HasPrefix origin http then a ← slice_from origin (zlen http); Ok (a, true)
    else Err ErrBadLocalRelayInfo);
  reject ContainsAny auth [47; 63; 35; 64] with ErrBadLocalRelayInfo;
  host ← splitLocalRelayAuthority auth;
  match host with
  | None => Err ErrBadLocalRelayInfo
  | Some host =>
      reject loopbackOnly && negb (bool_decide (host = localhost)) &&
             negb (bool_decide (host = loopback)) with ErrBadLocalRelayInfo;
      Ok tt
  end.

Definition validateLocalRelayHandle (handle : bytes) : res unit :=
  reject (zlen handle =? 0) || (zlen handle >? MaxLocalRelayHandleLen) with ErrBadLocalRelayOffer;
  reject existsb (λ c, (c <? 0x20) || (c >? 0x7e)) handle with ErrBadLocalRelayOffer;
  Ok tt.

Definition validateLocalRelayURL (raw : bytes) : res unit :=
  reject (zlen raw =? 0) || (zlen raw >? MaxLocalRelayURLLen) with ErrBadLocalRelayOffer;
  reject negb (urlBytesOK raw) with ErrBadLocalRelayOffer;
  reject negb (HasPrefix raw https) with ErrBadLocalRelayOffer;
  reject ContainsAny raw [63; 35] with ErrBadLocalRelayOffer;
  auth ← slice_from raw (zlen https);
  let i := IndexByte auth 47 in
  auth ← (if i >=? 0 then slice auth 0 i else Ok auth);
  reject ContainsAny auth [64] with ErrBadLocalRelayOffer;
  host ← splitLocalRelayAuthority auth;
  match host with
  | None => Err ErrBadLocalRelayOffer
  | Some _ => Ok tt
  end.

(** ** LocalRelayInfo (0x18) *)
Module LocalRelayInfo.
Record LocalRelayInfo := {
  Linked : bool; OnWall : bool; Name : bytes; HomeOrigin : bytes; WallCode : bytes;
}.

Definition AppendLocalRelayInfo (dst : bytes) (m : LocalRelayInfo) : res bytes :=
  _ ← validateLocalRelayOrigin (HomeOrigin m);
  let state := Z.lor (if Linked m then LocalRelayLinked else 0)
                     (if OnWall m then LocalRelayOnWall else 0) in
  let out := dst ++ [Version; TypeLocalRelayInfo; 0; state] in
  out ← appendStr8 out (Name m) MaxRelayIdentityNameLen ErrBadLocalRelayInfo;
  out ← appendStr8 out (HomeOrigin m) MaxLocalRelayOriginLen ErrBadLocalRelayInfo;
  appendStr8 out (WallCode m) MaxRoomCodeLen ErrBadLocalRelayInfo.

(** the reads after the flags byte; there is no [done] *)
Definition read_info : rd LocalRelayInfo :=
  state ← u8 ErrBadLocalRelayInfo;
  name ← str8 ErrBadLocalRelayInfo MaxRelayIdentityNameLen;
  origin ← str8 ErrBadLocalRelayInfo MaxLocalRelayOriginLen;
  wall ← str8 ErrBadLocalRelayInfo MaxRoomCodeLen;
  mret {| Linked := has_flag state LocalRelayLinked; OnWall := has_flag state LocalRelayOnWall;
          Name := name; HomeOrigin := origin; WallCode := wall |}.

Definition ParseLocalRelayInfo (msg : bytes) : res LocalRelayInfo :=
  _ ← checkPrefix msg TypeLocalRelayInfo LocalRelayInfoMinSize;
  '(flags, r) ← u8 ErrBadLocalRelayInfo (MkReader msg 2 None);
  reject flags <>? 0 with ErrBadLocalRelayInfo;
  '(m, r) ← read_info r;
  match rerr r with
  | Some err => Err err
  | None =>
      _ ← validateLocalRelayOrigin (HomeOrigin m);
      Ok m
  end.
End LocalRelayInfo.

(** ** LocalRelayOffer (0x19) *)
Module LocalRelayOffer.
Record LocalRelayCandidate := { URL : bytes; Hashes : list bytes }.
Record LocalRelayOffer := {
  Handle : bytes; Name : bytes; Validity : Z; Candidates : list LocalRelayCandidate;
}.

(** the first candidates loop of the encoder: URLs and hash counts *)
Fixpoint check_candidates (cs : list LocalRelayCandidate) : res unit :=
  match cs with
  | [] => Ok tt
  | c :: cs' =>
      _ ← validateLocalRelayURL (URL c);
      reject zlen (Hashes c) >? MaxLocalRelayHashes with ErrBadLocalRelayOffer;
      check_candidates cs'
  end.

Definition append_candidate (out : bytes) (c : LocalRelayCandidate) : bytes :=
  let out := AppendUint16 out (uint16 (zlen (URL c))) in
  let out := out ++ URL c in
  let out := out ++ [uint8 (zlen (Hashes c))] in
  out ++ concat (Hashes c).

Definition AppendLocalRelayOffer (dst : bytes) (m : LocalRelayOffer) : res bytes :=
  _ ← validateLocalRelayHandle (Handle m);
  reject Validity m =? 0 with ErrBadLocalRelayOffer;
  let n := zlen (Candidates m) in
  reject (n =? 0) || (n >? MaxLocalRelayCandidates) with ErrBadLocalRelayOffer;
  _ ← check_candidates (Candidates m);
  let out := dst ++ [Version; TypeLocalRelayOffer; 0; uint8 (zlen (Handle m))] in
  let out := out ++ Handle m in
  out ← appendStr8 out (Name m) MaxRelayIdentityNameLen ErrBadLocalRelayOffer;
  let out := AppendUint32 out (Validity m) in
  let out := out ++ [uint8 n] in
  Ok (fold_left append_candidate (Candidates m) out).

(** [if r.err != nil { return LocalRelayOffer{}, r.err }] *)
Definition stop_on_error {A} (r : roomReader) (k : res A) : res A :=
  match rerr r with Some err => Err err | None => k end.

(** the hashes loop: 32 bytes each, already known to fit *)
Fixpoint read_hashes (n : nat) (msg : bytes) (r : roomReader) (hashes : list bytes)
    : res (list bytes * roomReader) :=
  match n with
  | O => Ok (hashes, r)
  | S n' =>
      h ← slice msg (roff r) (roff r + 32);
      read_hashes n' msg (advance r 32) (hashes ++ [h])
  end.

(** the candidates loop of the parser *)
Fixpoint read_candidates (count : nat) (msg : bytes) (r : roomReader)
    (cs : list LocalRelayCandidate) : res (list LocalRelayCandidate * roomReader) :=
  match count with
  | O => Ok (cs, r)
  | S count' =>
      '(n, r) ← u16 ErrBadLocalRelayOffer r;
      stop_on_error r (
      reject (n =? 0) || (n >? MaxLocalRelayURLLen) with ErrBadLocalRelayOffer;
      reject roff r + n >? zlen msg with ErrBadLocalRelayOffer;
      url ← slice msg (roff r) (roff r + n);
      let r := advance r n in
      _ ← validateLocalRelayURL url;
      '(hashes, r) ← u8 ErrBadLocalRelayOffer r;
      stop_on_error r (
      reject hashes >? MaxLocalRelayHashes with ErrBadLocalRelayOffer;
      reject roff r + 32 * hashes >? zlen msg with ErrBadLocalRelayOffer;
      '(hs, r) ← read_hashes (Z.to_nat hashes) msg r [];
      read_candidates count' msg r (cs ++ [{| URL := url; Hashes := hs |}])))
  end.

Definition read_name : rd (bytes * Z * Z) :=
  name ← str8 ErrBadLocalRelayOffer MaxRelayIdentityNameLen;
  validity ← u32 ErrBadLocalRelayOffer;
  _ ← check (validity =? 0) ErrBadLocalRelayOffer;
  count ← u8 ErrBadLocalRelayOffer;
  _ ← check ((count =? 0) || (count >? MaxLocalRelayCandidates)) ErrBadLocalRelayOffer;
  mret (name, validity, count).

Definition ParseLocalRelayOffer (msg : bytes) : res LocalRelayOffer :=
  _ ← checkPrefix msg TypeLocalRelayOffer localRelayOfferMinSize;
  '(flags, r) ← u8 ErrBadLocalRelayOffer (MkReader msg 2 None);
  reject flags <>? 0 with ErrBadLocalRelayOffer;
  '(handle, r) ← bytes8 ErrBadLocalRelayOffer MaxLocalRelayHandleLen r;
  stop_on_error r (
  _ ← validateLocalRelayHandle handle;
  '((name, validity, count), r) ← read_name r;
  stop_on_error r (
  '(cs, r) ← read_candidates (Z.to_nat count) msg r [];
  Ok {| Handle := handle; Name := name; Validity := validity; Candidates := cs |})).
End LocalRelayOffer.

(** ** The rules never index out of range *)

Lemma IndexByte_range s c : -1 ≤ IndexByte s c < zlen s.
Proof.
  induction s as [|x s IH]; cbn [IndexByte]; [done|]. rewrite zlen_cons.
  destruct (x =? c); [zlia|]. destruct (IndexByte s c <? 0); zlia.
Qed.

Lemma slice_len (b : bytes) lo hi :
  0 ≤ lo → lo ≤ hi → hi ≤ zlen b → ∃ m, slice (E:=error) b lo hi = Ok m ∧ zlen m = hi - lo.
Proof.
  intros. rewrite slice_ok by done. eexists. split; [done|].
  unfold zlen in *. rewrite length_take, length_drop. lia.
Qed.
Lemma slice_from_len (b : bytes) lo :
  0 ≤ lo → lo ≤ zlen b → ∃ m, slice_from (E:=error) b lo = Ok m.
Proof. intros. rewrite slice_from_ok by done. eauto. Qed.

Lemma split_nofault auth : splitLocalRelayAuthority auth ≠ Fault.
Proof.
  pose proof (IndexByte_range auth 93) as H93. pose proof (IndexByte_range auth 58) as H58.
  unfold splitLocalRelayAuthority. destruct (HasPrefix auth [91]).
  - destruct (_ <? 2) eqn:He; [done|].
    destruct (slice_len auth 0 (IndexByte auth 93 + 1)) as (host & -> & Hhl); [lia..|].
    cbn [mbind outcome_bind].
    destruct (slice_len host 1 (IndexByte auth 93)) as (inner & -> & _); [lia..|].
    cbn [mbind outcome_bind]. destruct (ContainsAny inner _); [done|].
    destruct (slice_from_len auth (IndexByte auth 93 + 1)) as (rest & ->); [lia..|].
    cbn [mbind outcome_bind]. destruct (zlen rest =? 0) eqn:Hz; [done|].
    rewrite (index_ok rest 0) by zlia.
    cbn [mbind outcome_bind]. destruct (_ <>? 58); [done|].
    destruct (slice_from_len rest 1) as (port & ->); [zlia..|]. done.
  - destruct (_ >=? 0) eqn:He; cbn [mbind outcome_bind].
    + destruct (slice_len auth 0 (IndexByte auth 58)) as (h & -> & _); [lia..|].
      destruct (slice_from_len auth (IndexByte auth 58 + 1)) as (p & ->); [lia..|].
      cbn [mbind outcome_bind]. by destruct (_ || _).
    + by destruct (_ || _).
Qed.

Lemma HasPrefix_len s p : HasPrefix s p = true → zlen p ≤ zlen s.
Proof.
  unfold HasPrefix. intros H%bool_decide_eq_true. rewrite <- H at 1. unfold zlen. rewrite length_take. lia.
Qed.

Lemma origin_nofault origin : validateLocalRelayOrigin origin ≠ Fault.
Proof.
  unfold validateLocalRelayOrigin.
  do 3 (match goal with |- (if ?b then _ else _) ≠ _ => destruct b; [done|] end).
  assert (Hauth : ∀ auth lo,     (reject ContainsAny auth [47; 63; 35; 64] with ErrBadLocalRelayInfo;
     host ← splitLocalRelayAuthority auth;
     match host with
     | None => Err ErrBadLocalRelayInfo
     | Some host =>
         reject lo && negb (bool_decide (host = localhost)) &&
                negb (bool_decide (host = loopback)) with ErrBadLocalRelayInfo; Ok tt
     end) ≠ Fault).
  { intros auth lo. case_match; [done|]. pose proof (split_nofault auth).
    destruct (splitLocalRelayAuthority auth) as [[host|]| |]; cbn; repeat case_match; done. }
  destruct (HasPrefix origin https) eqn:H1.
  - apply HasPrefix_len in H1.
    destruct (slice_from_len origin (zlen https)) as (a & ->); [zlia..|].
    by apply Hauth.
  - destruct (HasPrefix origin http) eqn:H2; [|done]. apply HasPrefix_len in H2.
    destruct (slice_from_len origin (zlen http)) as (a & ->); [zlia..|].
    by apply Hauth.
Qed.

Lemma url_nofault raw : validateLocalRelayURL raw ≠ Fault.
Proof.
  unfold validateLocalRelayURL.
  do 2 (match goal with |- (if ?b then _ else _) ≠ _ => destruct b; [done|] end).
  destruct (HasPrefix raw https) eqn:Hp; [|done]. apply HasPrefix_len in Hp. cbn [negb].
  case_match; [done|].
  destruct (slice_from_len raw (zlen https)) as (a & ->); [zlia..|].
  cbn [mbind outcome_bind]. pose proof (IndexByte_range a 47).
  assert (Hauth : ∀ auth,     (reject ContainsAny auth [64] with ErrBadLocalRelayOffer;
     host ← splitLocalRelayAuthority auth;
     match host with None => Err ErrBadLocalRelayOffer | Some _ => Ok tt end) ≠ Fault).
  { intros auth. case_match; [done|]. pose proof (split_nofault auth).
    destruct (splitLocalRelayAuthority auth) as [[host|]| |]; done. }
  destruct (_ >=? 0) eqn:He; [|by apply Hauth].
  destruct (slice_len a 0 (IndexByte a 47)) as (b & -> & _); [lia..|].
  by apply Hauth.
Qed.

Lemma handle_nofault handle : validateLocalRelayHandle handle ≠ Fault.
Proof. unfold validateLocalRelayHandle. by repeat case_match. Qed.

(** The rules, read as predicates. *)
Definition origin_ok (s : bytes) : Prop := validateLocalRelayOrigin s = Ok tt.
Definition url_ok (s : bytes) : Prop := validateLocalRelayURL s = Ok tt.
Definition handle_ok (s : bytes) : Prop := validateLocalRelayHandle s = Ok tt.

Lemma url_len s : url_ok s → 0 < zlen s ≤ MaxLocalRelayURLLen.
Proof. unfold url_ok, validateLocalRelayURL. case_match eqn:H; [done|]. intros _. zlia. Qed.
Lemma handle_len s : handle_ok s → 0 < zlen s ≤ MaxLocalRelayHandleLen.
Proof. unfold handle_ok, validateLocalRelayHandle. case_match eqn:H; [done|]. intros _. zlia. Qed.

(** ** LocalRelayInfo *)
Section Info.
Import LocalRelayInfo.

Definition info_state (m : LocalRelayInfo) : Z :=
  Z.lor (if Linked m then LocalRelayLinked else 0) (if OnWall m then LocalRelayOnWall else 0).
Definition info_ok (m : LocalRelayInfo) : Prop :=
  origin_ok (HomeOrigin m) ∧ text_ok (Name m) MaxRelayIdentityNameLen ∧
  text_ok (HomeOrigin m) MaxLocalRelayOriginLen ∧ text_ok (WallCode m) MaxRoomCodeLen.
Definition enc_info (m : LocalRelayInfo) : bytes :=
  [info_state m] ++ enc8 (Name m) ++ enc8 (HomeOrigin m) ++ enc8 (WallCode m).

Lemma reads_info m : info_ok m → reads read_info (enc_info m) m.
Proof.
  destruct m as [li ow na ho wa]. intros (Ho & [Hn Hu] & [Ho1 Ho2] & [Hw1 Hw2]). cbn in *.
  set (fl := info_state (Build_LocalRelayInfo li ow na ho wa)).
  assert (has_flag fl LocalRelayLinked = li ∧ has_flag fl LocalRelayOnWall = ow) as [Hl Hw]
    by (unfold fl; by destruct li, ow).
  eapply reads_to.
  - rewrite <- Hl at 1. rewrite <- Hw at 1. unfold read_info. reads_all; done.
  - unfold enc_info, fl. cbn -[enc8 info_state]. by rewrite !app_nil_r.
Qed.

Lemma append_info_ok dst m out :
  AppendLocalRelayInfo dst m = Ok out →
  info_ok m ∧ out = dst ++ [Version; TypeLocalRelayInfo; 0] ++ enc_info m.
Proof.
  unfold AppendLocalRelayInfo. intros ([] & Hv & Ho)%outcome_bind_Ok.
  apply outcome_bind_Ok in Ho as (d1 & Hd & Ho). apply appendStr8_ok in Hd as (-> & ? & ?); [|done].
  apply outcome_bind_Ok in Ho as (d2 & Hd & Ho). apply appendStr8_ok in Hd as (-> & ? & ?); [|done].
  apply appendStr8_ok in Ho as (-> & ? & ?); [|done].
  split; [done|]. unfold enc_info. by rewrite <- !app_assoc.
Qed.

Lemma parse_info_ext dst m out :
  AppendLocalRelayInfo dst m = Ok out →
  ∃ enc, out = dst ++ enc ∧ ∀ ext, ParseLocalRelayInfo (enc ++ ext) = Ok m.
Proof.
  intros [Hok ->]%append_info_ok. eexists. split; [done|]. intros ext.
  unfold ParseLocalRelayInfo. rewrite <- app_assoc.
  erewrite checkPrefix_ok; [|done|unfold LocalRelayInfoMinSize, enc_info, enc8; zlia].
  pose proof (reads_u8 ErrBadLocalRelayInfo 0 [Version; TypeLocalRelayInfo] (enc_info m ++ ext)) as Hf.
  cbn [app] in Hf. change (zlen [Version; TypeLocalRelayInfo]) with 2 in Hf.
  cbn [app mbind outcome_bind]. rewrite Hf. cbn [mbind outcome_bind negb Z.eqb].
  pose proof (reads_info m Hok [Version; TypeLocalRelayInfo; 0] ext) as Hr.
  cbn [app] in Hr. change (zlen [_; _; _]) with 3 in Hr. change (2 + zlen [0]) with 3.
  rewrite Hr. cbn [mbind outcome_bind rerr]. destruct Hok as [-> _]. done.
Qed.

Lemma rspec_info : rspec ErrBadLocalRelayInfo read_info (λ _ _, True).
Proof.
  unfold read_info. by rspec_intro.
Qed.

Lemma parse_info_nofault msg : bytes_ok msg → ParseLocalRelayInfo msg ≠ Fault.
Proof.
  intros Hb. unfold ParseLocalRelayInfo.
  destruct (checkPrefix msg _ _) as [[]| |] eqn:Hp; cbn [mbind outcome_bind];
    [|done|by apply checkPrefix_nofault in Hp].
  apply checkPrefix_inv in Hp as [Hl _].
  destruct (rspec_u8 ErrBadLocalRelayInfo (MkReader msg 2 None)) as (fl & r & -> & Hbuf & Hr & _);
    [split; [done|cbn; unfold LocalRelayInfoMinSize in *; lia]|].
  cbn [mbind outcome_bind]. case_match; [done|].
  destruct (rspec_info r Hr) as (m & r' & -> & _ & _ & _ & _ & Hc). cbn [mbind outcome_bind].
  destruct (rerr r'); [done|].
  pose proof (origin_nofault (HomeOrigin m)). by destruct (validateLocalRelayOrigin _).
Qed.

#[export] Instance info_codec : Codec LocalRelayInfo := {
  cappend := AppendLocalRelayInfo;
  cparse := ParseLocalRelayInfo;
  cwf _ := True;
}.
#[export] Instance info_lawful : LawfulCodec LocalRelayInfo.
Proof.
  split.
  - intros dst m out _ Ho. destruct (parse_info_ext dst m out Ho) as (enc & -> & Hp).
    exists enc. split; [done|]. specialize (Hp []). by rewrite app_nil_r in Hp.
  - intros dst m. cbn. unfold AppendLocalRelayInfo. pose proof (origin_nofault (HomeOrigin m)).
    destruct (validateLocalRelayOrigin _); cbn [mbind outcome_bind]; [|done|done].
    do 2 (match goal with |- (appendStr8 ?a ?b ?c ?e ≫= _) ≠ _ =>
      pose proof (appendStr8_nofault a b c e); destruct (appendStr8 a b c e) end;
      cbn [mbind outcome_bind]; [|done|done]).
    apply appendStr8_nofault.
  - apply parse_info_nofault.
Qed.
End Info.

(** ** LocalRelayOffer *)
Section Offer.
Import LocalRelayOffer.

(** Go's [[32]byte] *)
Definition candidate_typed (c : LocalRelayCandidate) : Prop := Forall (λ h, zlen h = 32) (Hashes c).
Definition candidate_ok (c : LocalRelayCandidate) : Prop :=
  url_ok (URL c) ∧ zlen (Hashes c) ≤ MaxLocalRelayHashes ∧ candidate_typed c.
Definition enc_candidate (c : LocalRelayCandidate) : bytes :=
  enc16 (URL c) ++ [zlen (Hashes c)] ++ concat (Hashes c).

Definition offer_ok (m : LocalRelayOffer) : Prop :=
  handle_ok (Handle m) ∧ text_ok (Name m) MaxRelayIdentityNameLen ∧ Validity m ≠ 0 ∧
  is_uint 32 (Validity m) ∧ 0 < zlen (Candidates m) ≤ MaxLocalRelayCandidates ∧
  Forall candidate_ok (Candidates m).
Definition enc_offer (m : LocalRelayOffer) : bytes :=
  enc8 (Handle m) ++ enc8 (Name m) ++ be_encode 4 (Validity m) ++ [zlen (Candidates m)] ++
  concat (map enc_candidate (Candidates m)).

Lemma append_candidates cs : ∀ out, Forall candidate_ok cs →
  fold_left append_candidate cs out = out ++ concat (map enc_candidate cs).
Proof.
  induction cs as [|c cs IH]; intros out Hc; cbn [fold_left map concat]; [by rewrite app_nil_r|].
  apply Forall_cons_iff in Hc as [(Hu & Hh & _) Hc]. rewrite IH by done.
  apply url_len in Hu. unfold append_candidate, AppendUint16, uint16, uint8, enc_candidate, enc16.
  unfold MaxLocalRelayURLLen, MaxLocalRelayHashes in *.
  rewrite !Z.mod_small by (pose proof (zlen_nonneg (Hashes c)); lia). by rewrite <- !app_assoc.
Qed.

Lemma check_candidates_ok cs :
  check_candidates cs = Ok tt → Forall candidate_typed cs → Forall candidate_ok cs.
Proof.
  induction cs as [|c cs IH]; cbn; [constructor|].
  intros ([] & Hu & Hr)%outcome_bind_Ok [Ht Hts]%Forall_cons_iff. case_match eqn:Hh; [done|].
  constructor; [|by apply IH]. split; [done|]. split; [lia|done].
Qed.
Lemma check_candidates_nofault cs : check_candidates cs ≠ Fault.
Proof.
  induction cs as [|c cs IH]; cbn; [done|]. pose proof (url_nofault (URL c)).
  destruct (validateLocalRelayURL (URL c)); cbn; [|done|done]. by case_match.
Qed.

Lemma append_offer_ok dst m out :
  AppendLocalRelayOffer dst m = Ok out → is_uint 32 (Validity m) →
  Forall candidate_typed (Candidates m) →
  offer_ok m ∧ out = dst ++ [Version; TypeLocalRelayOffer; 0] ++ enc_offer m.
Proof.
  unfold AppendLocalRelayOffer. intros ([] & Hh & Ho)%outcome_bind_Ok Hv Ht.
  destruct (Validity m =? 0) eqn:Hv0; [done|]. destruct (_ || _) eqn:Hn; [done|].
  apply outcome_bind_Ok in Ho as ([] & Hc & Ho). apply check_candidates_ok in Hc; [|done].
  apply outcome_bind_Ok in Ho as (d & Hd & Ho). apply appendStr8_ok in Hd as (-> & Hna & Hu); [|done].
  rewrite append_candidates in Ho by done. apply Ok_inj in Ho as <-.
  pose proof (handle_len _ Hh) as Hhl. pose proof (zlen_nonneg (Candidates m)).
  unfold MaxLocalRelayHandleLen, MaxLocalRelayCandidates in *.
  split.
  - split; [done|]. split; [done|]. split; [lia|]. split; [done|].
    split; [unfold MaxLocalRelayCandidates; lia|done].
  - unfold enc_offer, AppendUint32, uint8, enc8. rewrite !Z.mod_small by lia.
    repeat (rewrite <- app_assoc || cbn [app]). done.
Qed.

Lemma reads_hashes hs : ∀ pre post acc, Forall (λ h, zlen h = 32) hs →
  read_hashes (length hs) (pre ++ concat hs ++ post) (MkReader (pre ++ concat hs ++ post) (zlen pre) None) acc =
  Ok (acc ++ hs, MkReader (pre ++ concat hs ++ post) (zlen pre + 32 * zlen hs) None).
Proof.
  induction hs as [|h hs IH]; intros pre post acc Hf; cbn [length read_hashes].
  { change (32 * zlen []) with 0. by rewrite app_nil_r, Z.add_0_r. }
  apply Forall_cons_iff in Hf as [Hh Hf]. cbn [concat roff].
  rewrite <- app_assoc, slice_mid by (done || lia). cbn [mbind outcome_bind].
  unfold advance. cbn [rbuf roff rerr].
  specialize (IH (pre ++ h) post (acc ++ [h]) Hf). rewrite zlen_app, Hh, <- !app_assoc in IH.
  rewrite IH, zlen_cons.
  by replace (zlen pre + 32 * (1 + zlen hs)) with (zlen pre + 32 + 32 * zlen hs) by lia.
Qed.

Lemma gtb_false (a b : Z) : a ≤ b → (a >? b) = false.
Proof. lia. Qed.

(** One round of the candidates loop consumes one candidate. *)
Lemma read_candidate_step c n pre post acc :
  candidate_ok c →
  let msg := pre ++ enc_candidate c ++ post in
  read_candidates (S n) msg (MkReader msg (zlen pre) None) acc =
  read_candidates n msg (MkReader msg (zlen pre + zlen (enc_candidate c)) None) (acc ++ [c]).
Proof.
  intros (Hu & Hh & Ht). pose proof (url_len _ Hu) as Hul.
  destruct c as [url hs]. unfold candidate_typed in Ht. cbn [URL Hashes] in *.
  assert (Hc : zlen (concat hs) = 32 * zlen hs).
  { clear -Ht. induction Ht as [|h hs Hh _ IH]; cbn [concat]; [done|]. rewrite zlen_app, zlen_cons. lia. }
  unfold enc_candidate, enc16. cbn [URL Hashes]. rewrite <- !app_assoc.
  set (msg := pre ++ be_encode 2 (zlen url) ++ url ++ [zlen hs] ++ concat hs ++ post).
  unfold MaxLocalRelayURLLen, MaxLocalRelayHashes in *. pose proof (zlen_nonneg hs).
  pose proof (zlen_nonneg post).
  assert (Hmsg : zlen msg = zlen pre + 2 + zlen url + 1 + 32 * zlen hs + zlen post).
  { unfold msg. rewrite !zlen_app, zlen_be_encode, Hc. change (zlen [zlen hs]) with 1. lia. }
  pose proof (reads_u16 ErrBadLocalRelayOffer (zlen url) ltac:(lia) pre
    (url ++ [zlen hs] ++ concat hs ++ post)) as R1.
  cbv zeta. fold msg in R1. cbn [read_candidates]. unfold MaxLocalRelayURLLen, MaxLocalRelayHashes. rewrite R1. cbn [mbind outcome_bind].
  unfold stop_on_error. cbn [rerr roff]. rewrite zlen_be_encode.
  replace (_ || _) with false by lia. rewrite gtb_false by (rewrite Hmsg; lia).
  assert (Hsl : slice (E:=error) msg (zlen pre + Z.of_nat 2) (zlen pre + Z.of_nat 2 + zlen url) = Ok url).
  { unfold msg. rewrite app_assoc. apply (slice_mid (pre ++ be_encode 2 (zlen url)) url); zlia. }
  rewrite Hsl. cbn [mbind outcome_bind]. rewrite Hu. cbn [mbind outcome_bind].
  unfold advance. cbn [rbuf roff rerr].
  pose proof (reads_u8 ErrBadLocalRelayOffer (zlen hs) (pre ++ be_encode 2 (zlen url) ++ url)
    (concat hs ++ post)) as R2.
  rewrite !zlen_app, zlen_be_encode, <- !app_assoc in R2. fold msg in R2.
  rewrite !Z.add_assoc in R2. rewrite R2. cbn [mbind outcome_bind rerr roff].
  replace (_ >? 2) with false by lia. change (zlen [zlen hs]) with 1.
  rewrite gtb_false by (rewrite Hmsg; lia).
  pose proof (reads_hashes hs (pre ++ be_encode 2 (zlen url) ++ url ++ [zlen hs]) post [] Ht) as R3.
  rewrite !zlen_app, zlen_be_encode, <- !app_assoc in R3. fold msg in R3.
  change (zlen [zlen hs]) with 1 in R3. rewrite !Z.add_assoc in R3.
  unfold zlen at 1. rewrite Nat2Z.id, R3. cbn [mbind outcome_bind app].
  do 2 f_equal. rewrite !zlen_app, zlen_be_encode, zlen_cons, Hc. lia.
Qed.

Lemma reads_candidates cs : ∀ pre post acc, Forall candidate_ok cs →
  let msg := pre ++ concat (map enc_candidate cs) ++ post in
  read_candidates (length cs) msg (MkReader msg (zlen pre) None) acc =
  Ok (acc ++ cs, MkReader msg (zlen pre + zlen (concat (map enc_candidate cs))) None).
Proof.
  induction cs as [|c cs IH]; intros pre post acc Hf; cbn [length map concat].
  { change (zlen []) with 0. by rewrite app_nil_r, Z.add_0_r. }
  apply Forall_cons_iff in Hf as [Hc Hf]. cbv zeta. rewrite <- app_assoc.
  rewrite read_candidate_step by done.
  specialize (IH (pre ++ enc_candidate c) post (acc ++ [c]) Hf). cbv zeta in IH.
  rewrite zlen_app, <- !app_assoc in IH. rewrite IH. by rewrite zlen_app, Z.add_assoc.
Qed.

Lemma reads_name m : offer_ok m →
  reads read_name (enc8 (Name m) ++ be_encode 4 (Validity m) ++ [zlen (Candidates m)])
    (Name m, Validity m, zlen (Candidates m)).
Proof.
  intros (_ & [Hn Hu] & Hv & Hv32 & Hc & _).
  eapply reads_to; [unfold read_name; reads_all; try done; lia|].
  cbn -[enc8 be_encode]. by rewrite ?app_nil_r.
Qed.

Lemma parse_offer_ext dst m out :
  AppendLocalRelayOffer dst m = Ok out → is_uint 32 (Validity m) →
  Forall candidate_typed (Candidates m) →
  ∃ enc, out = dst ++ enc ∧ ∀ ext, ParseLocalRelayOffer (enc ++ ext) = Ok m.
Proof.
  intros Ho Hv Ht. destruct (append_offer_ok dst m out Ho Hv Ht) as [Hok ->].
  eexists. split; [done|]. intros ext.
  pose proof Hok as (Hh & [Hn Hu] & _ & _ & Hcc & Hcs). pose proof (handle_len _ Hh).
  unfold ParseLocalRelayOffer, enc_offer. rewrite <- !app_assoc.
  set (tail := concat (map enc_candidate (Candidates m)) ++ ext).
  set (msg := [Version; TypeLocalRelayOffer; 0] ++ enc8 (Handle m) ++ enc8 (Name m) ++
              be_encode 4 (Validity m) ++ [zlen (Candidates m)] ++ tail).
  erewrite checkPrefix_ok; [|done|unfold msg, localRelayOfferMinSize, enc8; zlia].
  pose proof (reads_u8 ErrBadLocalRelayOffer 0 [Version; TypeLocalRelayOffer]
    (enc8 (Handle m) ++ enc8 (Name m) ++ be_encode 4 (Validity m) ++ [zlen (Candidates m)] ++ tail)) as R1.
  change (_ ++ [0] ++ _) with msg in R1. change (zlen [Version; _]) with 2 in R1.
  cbn [mbind outcome_bind]. rewrite R1. cbn [mbind outcome_bind negb Z.eqb].
  pose proof (reads_bytes8 ErrBadLocalRelayOffer (Handle m) MaxLocalRelayHandleLen ltac:(lia)
    [Version; TypeLocalRelayOffer; 0] (enc8 (Name m) ++ be_encode 4 (Validity m) ++
      [zlen (Candidates m)] ++ tail)) as R2.
  fold msg in R2. change (2 + zlen [0]) with 3. change (zlen [_; _; _]) with 3 in R2.
  rewrite R2. cbn [mbind outcome_bind]. unfold stop_on_error. cbn [rerr].
  rewrite Hh. cbn [mbind outcome_bind].
  pose proof (reads_name m Hok ([Version; TypeLocalRelayOffer; 0] ++ enc8 (Handle m)) tail) as R3.
  rewrite <- !app_assoc, zlen_app in R3. change (zlen [Version; _; _]) with 3 in R3. fold msg in R3.
  rewrite R3. cbn [mbind outcome_bind rerr].
  pose proof (reads_candidates (Candidates m) ([Version; TypeLocalRelayOffer; 0] ++ enc8 (Handle m) ++
    enc8 (Name m) ++ be_encode 4 (Validity m) ++ [zlen (Candidates m)]) ext [] Hcs) as R4.
  cbv zeta in R4. fold tail in R4. rewrite <- !app_assoc in R4. fold msg in R4.
  rewrite !zlen_app in R4. change (zlen [Version; _; _]) with 3 in R4.
  replace (Z.to_nat (zlen (Candidates m))) with (length (Candidates m)) by (unfold zlen; lia).
  rewrite !zlen_app, !Z.add_assoc. rewrite !Z.add_assoc in R4. rewrite R4.
  cbn [mbind outcome_bind app]. by destruct m.
Qed.

Lemma read_hashes_total n : ∀ msg r acc,
  0 ≤ roff r → roff r + 32 * Z.of_nat n ≤ zlen msg →
  ∃ hs, read_hashes n msg r acc = Ok (hs, advance r (32 * Z.of_nat n)).
Proof.
  induction n as [|n IH]; intros msg r acc Hr Hl; cbn [read_hashes].
  - exists acc. unfold advance. change (32 * Z.of_nat 0) with 0. rewrite Z.add_0_r. by destruct r.
  - destruct (slice_len msg (roff r) (roff r + 32)) as (h & -> & _); [lia..|]. cbn [mbind outcome_bind].
    destruct (IH msg (advance r 32) (acc ++ [h])) as [hs ->]; [cbn [roff advance]; lia..|].
    exists hs. unfold advance. cbn [rbuf roff rerr]. do 3 f_equal. lia.
Qed.

Lemma read_candidates_nofault n : ∀ msg r acc,
  reader_ok r → rbuf r = msg → read_candidates n msg r acc ≠ Fault.
Proof.
  induction n as [|n IH]; intros msg r acc Hr Hb; cbn [read_candidates]; [done|].
  destruct (rspec_u16 ErrBadLocalRelayOffer r Hr) as (len & r1 & H1 & Hb1 & Hr1 & _).
  rewrite H1. cbn [mbind outcome_bind]. unfold stop_on_error at 1. destruct (rerr r1); [done|].
  destruct (_ || _) eqn:Hlen; [done|]. destruct (roff r1 + len >? zlen msg) eqn:Hfit; [done|].
  assert (0 ≤ len) by exact (yields_u16 _ _ _ _ Hr H1).
  destruct (slice_len msg (roff r1) (roff r1 + len)) as (url & -> & _); [apply Hr1|lia|lia|].
  cbn [mbind outcome_bind]. pose proof (url_nofault url).
  destruct (validateLocalRelayURL url); cbn [mbind outcome_bind]; [|done|done].
  assert (Hr2 : reader_ok (advance r1 len)).
  { destruct Hr1 as [Hb1' Ho1]. split; [done|]. cbn [advance roff rbuf]. rewrite Hb1, Hb in *. lia. }
  destruct (rspec_u8 ErrBadLocalRelayOffer _ Hr2) as (k & r3 & H3 & Hb3 & Hr3 & _).
  rewrite H3. cbn [mbind outcome_bind]. unfold stop_on_error. destruct (rerr r3); [done|].
  destruct (_ >? MaxLocalRelayHashes); [done|]. destruct (roff r3 + 32 * k >? zlen msg) eqn:Hfit3; [done|].
  assert (0 ≤ k) by (by destruct (yields_u8 _ _ _ _ Hr2 H3)).
  destruct Hr3 as [Hb3' Ho3].
  destruct (read_hashes_total (Z.to_nat k) msg r3 []) as [hs ->]; [lia..|]. cbn [mbind outcome_bind].
  cbn [advance rbuf] in Hb3. apply IH; [|cbn [advance rbuf]; congruence]. split; [done|]. cbn [advance roff rbuf].
  rewrite Hb3, Hb1, Hb. lia.
Qed.

Lemma rspec_name : rspec ErrBadLocalRelayOffer read_name (λ _ _, True).
Proof. unfold read_name. by rspec_intro. Qed.

Lemma parse_offer_nofault msg : bytes_ok msg → ParseLocalRelayOffer msg ≠ Fault.
Proof.
  intros Hb. unfold ParseLocalRelayOffer.
  destruct (checkPrefix msg _ _) as [[]| |] eqn:Hp; cbn [mbind outcome_bind];
    [|done|by apply checkPrefix_nofault in Hp].
  apply checkPrefix_inv in Hp as [Hl _].
  destruct (rspec_u8 ErrBadLocalRelayOffer (MkReader msg 2 None)) as (fl & r & -> & Hbuf & Hr & _);
    [split; [done|cbn; unfold localRelayOfferMinSize in *; lia]|].
  cbn [mbind outcome_bind]. case_match; [done|].
  destruct (rspec_bytes8 ErrBadLocalRelayOffer MaxLocalRelayHandleLen r Hr)
    as (h & r2 & -> & Hbuf2 & Hr2 & _). cbn [mbind outcome_bind].
  unfold stop_on_error. destruct (rerr r2); [done|].
  pose proof (handle_nofault h). destruct (validateLocalRelayHandle h); cbn [mbind outcome_bind]; [|done|done].
  destruct (rspec_name r2 Hr2) as ([[na va] co] & r3 & -> & Hbuf3 & Hr3 & _). cbn [mbind outcome_bind].
  destruct (rerr r3); [done|].
  pose proof (read_candidates_nofault (Z.to_nat co) msg r3 [] Hr3) as Hc.
  destruct (read_candidates _ _ _ _) as [[cs r4]| |]; [done|done|].
  exfalso. apply Hc; [cbn in Hbuf; congruence|done].
Qed.

#[export] Instance offer_codec : Codec LocalRelayOffer := {
  cappend := AppendLocalRelayOffer;
  cparse := ParseLocalRelayOffer;
  cwf m := is_uint 32 (Validity m) ∧ Forall candidate_typed (Candidates m);
}.
#[export] Instance offer_lawful : LawfulCodec LocalRelayOffer.
Proof.
  split.
  - intros dst m out [Hv Ht] Ho. destruct (parse_offer_ext dst m out Ho Hv Ht) as (enc & -> & Hp).
    exists enc. split; [done|]. specialize (Hp []). by rewrite app_nil_r in Hp.
  - intros dst m. cbn. unfold AppendLocalRelayOffer. pose proof (handle_nofault (Handle m)).
    destruct (validateLocalRelayHandle _); cbn [mbind outcome_bind]; [|done|done].
    do 2 (case_match; [done|]). pose proof (check_candidates_nofault (Candidates m)).
    destruct (check_candidates _); cbn [mbind outcome_bind]; [|done|done].
    match goal with |- (appendStr8 ?a ?b ?c ?e ≫= _) ≠ _ =>
      pose proof (appendStr8_nofault a b c e); by destruct (appendStr8 a b c e) end.
  - apply parse_offer_nofault.
Qed.
End Offer.

(** ** The rules as a grammar *)

Lemma IndexByte_spec s c :
  (c ∉ s ∧ IndexByte s c = -1) ∨ (∃ a b, s = a ++ c :: b ∧ c ∉ a ∧ IndexByte s c = zlen a).
Proof.
  induction s as [|x s IH]; [left; split; [set_solver|done]|]. cbn [IndexByte].
  destruct (Z.eqb_spec x c) as [->|Hx].
  - right. exists [], s. split; [done|]. split; [set_solver|done].
  - destruct IH as [[Hn ->]|(a & b & -> & Ha & ->)].
    + left. cbn. split; [set_solver|done].
    + right. exists (x :: a), b. pose proof (zlen_nonneg a).
      replace (zlen a <? 0) with false by lia. rewrite zlen_cons. split; [done|]. split; [set_solver|lia].
Qed.
Lemma IndexByte_at a b c : c ∉ a → IndexByte (a ++ c :: b) c = zlen a.
Proof.
  intros Ha. induction a as [|x a IH]; cbn [app IndexByte]; [by rewrite Z.eqb_refl|].
  apply not_elem_of_cons in Ha as [Hx Ha]. destruct (Z.eqb_spec x c); [congruence|].
  rewrite IH, zlen_cons by done. pose proof (zlen_nonneg a). replace (zlen a <? 0) with false by lia. lia.
Qed.
Lemma IndexByte_none s c : c ∉ s → IndexByte s c = -1.
Proof.
  intros Hs. destruct (IndexByte_spec s c) as [[_ ->]|(a & b & -> & _)]; [done|set_solver].
Qed.
Lemma ContainsAny_false s chars : ContainsAny s chars = false ↔ ∀ c, c ∈ chars → c ∉ s.
Proof.
  unfold ContainsAny. rewrite <- not_true_iff_false, existsb_exists. split.
  - intros H c Hc Hs. apply H. exists c. rewrite <- list_elem_of_In, bool_decide_eq_true. done.
  - intros H (c & Hc%list_elem_of_In & Hb%bool_decide_eq_true). by apply (H c).
Qed.
Lemma HasPrefix_iff s p : HasPrefix s p = true ↔ ∃ r, s = p ++ r.
Proof.
  unfold HasPrefix. rewrite bool_decide_eq_true. split.
  - intros H. exists (drop (length p) s). rewrite <- H at 1. by rewrite take_drop.
  - intros [r ->]. apply take_app_length.
Qed.

(** A host: a bracketed literal, or a run without ':' and brackets. *)
Definition host_form (h : bytes) : Prop :=
  (∃ inner, h = 91 :: inner ++ [93] ∧ inner ≠ [] ∧ 91 ∉ inner ∧ 93 ∉ inner) ∨
  (h ≠ [] ∧ 58 ∉ h ∧ 91 ∉ h ∧ 93 ∉ h).
(** An optional port: ':' and one to five digits valued 1 to 65535. *)
Definition port_form (p : bytes) : Prop :=
  p = [] ∨ ∃ digits n, p = 58 :: digits ∧ 1 ≤ zlen digits ≤ 5 ∧
    digits_value 0 digits = Some n ∧ 1 ≤ n ≤ 65535.

Lemma port_loop_value p : ∀ n, port_loop p n = digits_value n p.
Proof.
  induction p as [|c p IH]; intros n; cbn [port_loop digits_value]; [done|].
  unfold is_digit. destruct (_ || _) eqn:H1, (_ && _) eqn:H2; try done; try lia.
  rewrite IH. f_equal. lia.
Qed.
Lemma digits_value_nonneg p : ∀ n v, 0 ≤ n → digits_value n p = Some v → n ≤ v.
Proof.
  induction p as [|c p IH]; intros n v Hn; cbn [digits_value]; [intros [= <-]; lia|].
  unfold is_digit. case_match eqn:Hd; [|done]. intros H. apply IH in H; lia.
Qed.
Lemma port_ok_form digits : port_ok digits = true ↔ port_form (58 :: digits).
Proof.
  unfold port_ok, port_form. rewrite port_loop_value. pose proof (zlen_nonneg digits). split.
  - case_match eqn:Hl; [done|]. destruct (digits_value 0 digits) as [n|] eqn:Hv; [|done].
    intros Hn. right. exists digits, n. pose proof (digits_value_nonneg _ 0 n ltac:(lia) Hv).
    split; [done|]. split; [lia|]. split; [done|lia].
  - intros [?|(d & n & [= <-] & Hl & -> & Hn)]; [done|].
    replace (_ || _) with false by lia. lia.
Qed.

Definition port_result (host rest : bytes) : option bytes :=
  match rest with
  | [] => Some host
  | c :: port => if (c =? 58) && port_ok port then Some host else None
  end.
Lemma port_result_iff host rest h :
  port_result host rest = Some h ↔ h = host ∧ port_form rest.
Proof.
  unfold port_result. destruct rest as [|c port].
  - split; [intros [= <-]; split; [done|by left]|by intros [-> _]].
  - destruct (Z.eqb_spec c 58) as [->|Hc]; cbn [andb].
    + rewrite <- port_ok_form. destruct (port_ok port); split; try done; [by intros [= <-]|by intros [-> _]|by intros [_ ?]].
    + split; [done|]. intros [_ [?|(d & n & [= ? ?] & _)]]; congruence.
Qed.

(** The bracketed branch, on an authority that has its closing bracket. *)
Lemma split_bracketed inner rest :
  93 ∉ inner →
  splitLocalRelayAuthority (91 :: inner ++ 93 :: rest) =
  Ok (if bool_decide (inner = []) || ContainsAny inner [91] then None
      else port_result (91 :: inner ++ [93]) rest).
Proof.
  intros H93. unfold splitLocalRelayAuthority.
  assert (HasPrefix (91 :: inner ++ 93 :: rest) [91] = true) as -> by (apply HasPrefix_iff; by eexists).
  assert (Hi : IndexByte (91 :: inner ++ 93 :: rest) 93 = zlen (91 :: inner))
    by (apply (IndexByte_at (91 :: inner)); apply not_elem_of_cons; split; [lia|done]).
  rewrite Hi, zlen_cons. pose proof (zlen_nonneg inner).
  case_bool_decide as Hin; cbn [orb].
  { subst. by change (zlen []) with 0. }
  destruct inner as [|x inner]; [done|]. remember (x :: inner) as inn eqn:Hinn.
  assert (1 ≤ zlen inn) by (subst; rewrite zlen_cons; pose proof (zlen_nonneg inner); lia).
  replace (_ <? 2) with false by lia.
  replace (91 :: inn ++ 93 :: rest) with ((91 :: inn ++ [93]) ++ rest)
    by (cbn; by rewrite <- app_assoc).
  assert (Hl : 1 + zlen inn + 1 = zlen (91 :: inn ++ [93]))
    by (rewrite zlen_cons, zlen_app; change (zlen [93]) with 1; lia).
  rewrite slice_init by done. cbn [mbind outcome_bind].
  assert (Hs : slice (E:=error) (91 :: inn ++ [93]) 1 (1 + zlen inn) = Ok inn)
    by (apply (slice_mid [91] inn [93]); zlia).
  rewrite Hs. cbn [mbind outcome_bind]. destruct (ContainsAny inn [91]); [done|].
  rewrite slice_from_mid by done. cbn [mbind outcome_bind].
  destruct rest as [|c port]; [done|]. rewrite zlen_cons. pose proof (zlen_nonneg port).
  replace (_ =? 0) with false by lia. rewrite index_ok by zlia. cbn [mbind outcome_bind].
  unfold port_result.
  assert (Hsf : slice_from (E:=error) (c :: port) 1 = Ok port) by by apply (slice_from_mid [c] port).
  change ((c :: port) !!! Z.to_nat 0) with c. rewrite Hsf. destruct (c =? 58); cbn [negb andb]; [|done].
  cbn [mbind outcome_bind]. by destruct (port_ok port).
Qed.

Lemma split_unclosed r : 93 ∉ r → splitLocalRelayAuthority (91 :: r) = Ok None.
Proof.
  intros Hn. unfold splitLocalRelayAuthority.
  assert (HasPrefix (91 :: r) [91] = true) as -> by (apply HasPrefix_iff; by eexists).
  by rewrite (IndexByte_none (91 :: r)) by (apply not_elem_of_cons; split; [lia|done]).
Qed.

(** The other branch: up to the first colon, if any. *)
Lemma split_plain auth :
  HasPrefix auth [91] = false →
  ∃ host rest, auth = host ++ rest ∧ 58 ∉ host ∧ (rest = [] ∨ ∃ p, rest = 58 :: p) ∧
  splitLocalRelayAuthority auth =
    Ok (if (zlen host =? 0) || ContainsAny host [91; 93] then None else port_result host rest).
Proof.
  intros Hp. unfold splitLocalRelayAuthority. rewrite Hp.
  destruct (IndexByte_spec auth 58) as [[Hn ->]|(host & port & -> & Hn & ->)].
  - exists auth, []. rewrite app_nil_r. repeat split; [done|by left|]. cbn [mbind outcome_bind Z.geb Z.compare].
    by destruct (_ || _).
  - exists host, (58 :: port). repeat split; [done|by eauto|]. pose proof (zlen_nonneg host).
    replace (_ >=? 0) with true by lia. rewrite slice_init by done. cbn [mbind outcome_bind].
    replace (host ++ 58 :: port) with ((host ++ [58]) ++ port) by (by rewrite <- app_assoc).
    rewrite slice_from_mid by (rewrite zlen_app; done). cbn [mbind outcome_bind].
    by destruct (_ || _).
Qed.

Lemma plain_host_iff host :
  (zlen host =? 0) || ContainsAny host [91; 93] = false ↔ host ≠ [] ∧ 91 ∉ host ∧ 93 ∉ host.
Proof.
  rewrite orb_false_iff, ContainsAny_false. split.
  - intros [Hz Hc]. split; [intros ->; done|]. split; apply Hc; set_solver.
  - intros (Hn & H1 & H2). split.
    + destruct host; [done|]. rewrite zlen_cons. pose proof (zlen_nonneg host). lia.
    + intros c [->|[->|[]%elem_of_nil]%elem_of_cons]%elem_of_cons; done.
Qed.
Lemma port_form_lacks c port : port_form port → c ≠ 58 → is_digit c = false → c ∉ port.
Proof.
  intros [->|(d & n & -> & _ & Hd & _)] Hc Hg; [set_solver|].
  apply not_elem_of_cons. split; [done|]. clear -Hd Hg. revert Hd. generalize 0 as a.
  induction d as [|x d IH]; intros a; cbn [digits_value]; [set_solver|].
  destruct (is_digit x) eqn:Hx; [|done]. intros Hd%IH. apply not_elem_of_cons. split; congruence.
Qed.

(** Where the host ends is determined. *)
Lemma plain_cut host rest h p :
  58 ∉ host → (rest = [] ∨ ∃ q, rest = 58 :: q) → 58 ∉ h → port_form p →
  host ++ rest = h ++ p → h = host ∧ p = rest.
Proof.
  intros Hh Hr Hh' Hp Heq.
  assert (Hp' : p = [] ∨ ∃ q, p = 58 :: q) by (destruct Hp as [->|(d & n & -> & _)]; eauto).
  pose proof (f_equal (λ l, IndexByte l 58) Heq) as Hi. cbn beta in Hi.
  destruct Hr as [->|[q ->]], Hp' as [->|[q' ->]];
    rewrite ?app_nil_r, ?IndexByte_at, ?IndexByte_none in * by done.
  - by subst.
  - pose proof (zlen_nonneg h). lia.
  - pose proof (zlen_nonneg host). lia.
  - apply app_inj_1 in Heq; [|unfold zlen in Hi; lia]. by destruct Heq.
Qed.

(** The authority check is the grammar: host, then an optional port. *)
Lemma split_iff auth host :
  splitLocalRelayAuthority auth = Ok (Some host) ↔
  host_form host ∧ ∃ port, auth = host ++ port ∧ port_form port.
Proof.
  destruct (HasPrefix auth [91]) eqn:Hp.
  - apply HasPrefix_iff in Hp as [r ->]. cbn [app].
    destruct (IndexByte_spec r 93) as [[Hn _]|(inner & rest & -> & Hn & _)].
    { rewrite split_unclosed by done. split; [done|].
      intros [[(inner & -> & _)|(Hne & _ & H91 & _)] (port & Heq & _)].
      - injection Heq as ->. set_solver.
      - destruct host as [|x host]; [done|]. injection Heq as <- _. set_solver. }
    rewrite split_bracketed by done. split.
    + case_bool_decide as Hin; [done|]. destruct (ContainsAny inner [91]) eqn:Hc; [done|].
      rewrite ContainsAny_false in Hc. intros [= [-> Hf]%port_result_iff]. split.
      * left. exists inner. split; [done|]. split; [done|]. split; [apply Hc; set_solver|done].
      * exists rest. split; [|done]. cbn [app]; f_equal; by rewrite <- app_assoc.
    + intros [[(inner' & -> & Hne & H91 & H93)|(Hne & _ & H91 & _)] (port & Heq & Hf)].
      * cbn [app] in Heq. rewrite <- app_assoc in Heq. injection Heq as Heq.
        assert (inner = inner' ∧ rest = port) as [-> ->].
        { pose proof (f_equal (λ l, IndexByte l 93) Heq) as Hi. cbn in Hi.
          rewrite !IndexByte_at in Hi by done. apply app_inj_1 in Heq; [|unfold zlen in Hi; lia].
          destruct Heq as [-> [= ->]]. done. }
        rewrite bool_decide_eq_false_2 by done.
        replace (ContainsAny inner' [91]) with false
          by (symmetry; apply ContainsAny_false; intros c [->|[]%elem_of_nil]%elem_of_cons; done).
        f_equal. by apply port_result_iff.
      * destruct host as [|x host]; [done|]. injection Heq as <- _. set_solver.
  - destruct (split_plain auth Hp) as (h & rest & -> & H58 & Hr & ->). split.
    + destruct (_ || _) eqn:Hh; [done|]. apply plain_host_iff in Hh as (? & ? & ?).
      intros [= [-> Hf]%port_result_iff]. split; [right; done|by eauto].
    + intros [[(inner & -> & _)|(Hne & H58' & H91 & H93)] (port & Heq & Hf)].
      { rewrite Heq in Hp. by rewrite (proj2 (HasPrefix_iff _ [91])) in Hp by (by eexists). }
      destruct (plain_cut h rest host port) as [-> ->]; try done.
      rewrite (proj2 (plain_host_iff h)) by done. f_equal. by apply port_result_iff.
Qed.

(** What a probe URL may be: https, an authority without user information, and
    nothing or a path after it; printable throughout, without query or fragment. *)
Definition candidate_url (raw : bytes) : Prop :=
  zlen raw ≤ MaxLocalRelayURLLen ∧ Forall (λ c, 0x20 < c ≤ 0x7e ∧ c ≠ 63 ∧ c ≠ 35) raw ∧
  ∃ host port path, raw = https ++ host ++ port ++ path ∧
    host_form host ∧ 64 ∉ host ∧ 47 ∉ host ∧ port_form port ∧ (path = [] ∨ ∃ p, path = 47 :: p).

Lemma urlBytesOK_iff s : urlBytesOK s = true ↔ Forall (λ c, 0x20 < c ≤ 0x7e) s.
Proof.
  unfold urlBytesOK. rewrite forallb_forall, Forall_forall. split; intros H c Hc.
  - apply list_elem_of_In in Hc. specialize (H c Hc). lia.
  - apply list_elem_of_In in Hc. specialize (H c Hc). cbv beta in H. lia.
Qed.

(** The authority of an URL: what precedes the first '/'. *)
Lemma authority_cut auth :
  ∃ a path, auth = a ++ path ∧ 47 ∉ a ∧ (path = [] ∨ ∃ p, path = 47 :: p) ∧
  (if IndexByte auth 47 >=? 0 then slice auth 0 (IndexByte auth 47) else Ok auth) = Ok (E:=error) a.
Proof.
  destruct (IndexByte_spec auth 47) as [[Hn ->]|(a & path & -> & Hn & ->)].
  - exists auth, []. rewrite app_nil_r. repeat split; [done|by left].
  - exists a, (47 :: path). pose proof (zlen_nonneg a). replace (_ >=? 0) with true by lia.
    rewrite slice_init by done. repeat split; [done|by eauto].
Qed.
Lemma cut_inj a path a' path' :
  a ++ path = a' ++ path' → 47 ∉ a → 47 ∉ a' →
  (path = [] ∨ ∃ p, path = 47 :: p) → (path' = [] ∨ ∃ p, path' = 47 :: p) → a = a' ∧ path = path'.
Proof.
  intros Heq Ha Ha' Hp Hp'. pose proof (f_equal (λ l, IndexByte l 47) Heq) as Hi. cbn beta in Hi.
  destruct Hp as [->|[q ->]], Hp' as [->|[q' ->]];
    rewrite ?app_nil_r, ?IndexByte_at, ?IndexByte_none in * by done.
  - done.
  - pose proof (zlen_nonneg a'). lia.
  - pose proof (zlen_nonneg a). lia.
  - apply app_inj_1 in Heq; [|unfold zlen in Hi; lia]. by destruct Heq as [-> [= ->]].
Qed.

(** The checks of the rule, in the order of the code. *)
Lemma url_ok_iff raw :
  validateLocalRelayURL raw = Ok tt ↔
  0 < zlen raw ≤ MaxLocalRelayURLLen ∧ urlBytesOK raw = true ∧ ContainsAny raw [63; 35] = false ∧
  ∃ a path host, raw = https ++ a ++ path ∧ 47 ∉ a ∧ (path = [] ∨ ∃ p, path = 47 :: p) ∧
    64 ∉ a ∧ splitLocalRelayAuthority a = Ok (Some host).
Proof.
  unfold validateLocalRelayURL. pose proof (zlen_nonneg raw). split.
  - destruct (_ || _) eqn:Hl; [done|]. destruct (urlBytesOK raw) eqn:Hb; [|done].
    destruct (HasPrefix raw https) eqn:Hp; [|done]. destruct (ContainsAny raw _) eqn:Hc; [done|].
    apply HasPrefix_iff in Hp as [auth ->]. cbn [negb]. rewrite slice_from_mid by done.
    cbn [mbind outcome_bind]. destruct (authority_cut auth) as (a & path & -> & Ha & Hpath & ->).
    cbn [mbind outcome_bind]. destruct (ContainsAny a [64]) eqn:Hat; [done|].
    rewrite ContainsAny_false in Hat. destruct (splitLocalRelayAuthority a) as [[host|]| |] eqn:Hs; try done.
    intros _. split; [lia|]. split; [done|]. split; [done|]. exists a, path, host.
    split; [done|]. split; [done|]. split; [done|]. split; [apply Hat; set_solver|done].
  - intros (Hl & Hb & Hc & a & path & host & -> & Ha & Hpath & Hat & Hs).
    replace (_ || _) with false by lia. rewrite Hb, Hc. cbn [negb].
    rewrite (proj2 (HasPrefix_iff _ https)) by (by eexists). cbn [negb].
    rewrite slice_from_mid by done. cbn [mbind outcome_bind].
    destruct (authority_cut (a ++ path)) as (a' & path' & Heq & Ha' & Hp' & ->).
    destruct (cut_inj a path a' path' Heq) as [<- _]; try done. cbn [mbind outcome_bind].
    replace (ContainsAny a [64]) with false
      by (symmetry; apply ContainsAny_false; intros c [->|[]%elem_of_nil]%elem_of_cons; done).
    by rewrite Hs.
Qed.

Lemma url_chars_iff raw :
  urlBytesOK raw = true ∧ ContainsAny raw [63; 35] = false ↔
  Forall (λ c, 0x20 < c ≤ 0x7e ∧ c ≠ 63 ∧ c ≠ 35) raw.
Proof.
  rewrite urlBytesOK_iff, ContainsAny_false, !Forall_forall. split.
  - intros [Hb Hc] c Hin. split; [by apply Hb|]. split; intros ->; eapply Hc; try done; set_solver.
  - intros H. split; [intros c Hin; by apply H|].
    intros c [->|[->|[]%elem_of_nil]%elem_of_cons]%elem_of_cons Hin; apply H in Hin; lia.
Qed.

(** The hand-written rule for probe URLs accepts exactly this grammar:
    https, then a host (a bracketed literal or a run without ':' and brackets),
    an optional port from 1 to 65535 in at most five digits, then nothing or a
    path; printable ASCII, at most 256 bytes, and no userinfo, query or
    fragment anywhere. *)
Theorem probe_url_grammar raw :
  validateLocalRelayURL raw = Ok tt ↔ candidate_url raw.
Proof.
  rewrite url_ok_iff. unfold candidate_url. rewrite <- url_chars_iff. split.
  - intros (Hl & Hb & Hc & a & path & host & -> & Ha & Hpath & Hat & (Hh & port & -> & Hp)%split_iff).
    rewrite not_elem_of_app in Ha, Hat. split; [lia|]. split; [done|].
    exists host, port, path. rewrite <- app_assoc. repeat split; try done; apply Ha || apply Hat.
  - intros (Hl & [Hb Hc] & host & port & path & Heq & Hh & Hat & Hsl & Hp & Hpath).
    assert (0 < zlen raw)
      by (rewrite Heq, zlen_app; change (zlen https) with 8; pose proof (zlen_nonneg (host ++ port ++ path)); lia).
    split; [lia|]. split; [done|]. split; [done|].
    exists (host ++ port), path, host. rewrite <- app_assoc. split; [done|].
    rewrite !not_elem_of_app. split; [split; [done|apply port_form_lacks; [done|lia|done]]|]. split; [done|].
    split; [split; [done|apply port_form_lacks; [done|lia|done]]|]. apply split_iff. by eauto.
Qed.
