(* ===== verification/RoomCode.v ===== *)
(** rooms/rooms.go: room codes, their normal form and the form people see. *)
From S2P Require Export GoUtf8 BroadcastID.
#[local] Open Scope Z_scope.

Definition MinCodeLen := 3.
Definition MaxCodeLen := 32.

Definition slug_char (c : Z) : bool :=
  ((c >=? 97) && (c <=? 122)) || ((c >=? 48) && (c <=? 57)) || (c =? 45).

Section Code.
(** [strings.ToLower] and [strings.ToUpper] outside ASCII *)
Context (unicode_lower unicode_upper : bytes → bytes).

Definition ToLower (s : bytes) : bytes :=
  if is_ascii s then map ascii_lower s else unicode_lower s.

Definition NormalizeCode (s : bytes) : option bytes :=
  let code := ToLower (TrimSpace s) in
  if (zlen code <? MinCodeLen) || (zlen code >? MaxCodeLen) then None
  else if negb (forallb slug_char code) then None
  else if (code !!! 0%nat =? 45) || (code !!! Z.to_nat (zlen code - 1) =? 45) then None
  else Some code.

Definition IsDynamicShape (code : bytes) : bool :=
  bool_decide (is_Some (BroadcastID.Normalize unicode_upper code)).

(** [spec]: Spec.DisplayCode; [dynamic]: Spec.Kind is dynamic *)
Definition DisplayCode (spec : bytes) (dynamic : bool) (name : bytes) : bytes :=
  if negb (bool_decide (spec = [])) then spec
  else if dynamic then ToUpper unicode_upper name
  else name.

(** ** Normal forms *)

(** a DNS-1123 label of 3 to 32 characters *)
Definition slug (code : bytes) : Prop :=
  MinCodeLen ≤ zlen code ≤ MaxCodeLen ∧ forallb slug_char code = true ∧
  code !!! 0%nat ≠ 45 ∧ code !!! Z.to_nat (zlen code - 1) ≠ 45.

Lemma NormalizeCode_slug s code : NormalizeCode s = Some code → slug code.
Proof.
  unfold NormalizeCode, slug. case_match eqn:Hl; [done|]. case_match eqn:Hc; [done|].
  case_match eqn:He; [done|]. intros [= <-]. apply negb_false_iff in Hc. split; [lia|]. split; [done|]. lia.
Qed.

Lemma slug_char_spec c : slug_char c = true → 0 ≤ c < 0x80 ∧ ascii_lower c = c ∧
  ∀ p, p ∈ spaces → hd 0 p ≠ c ∧ hd 0 (rev p) ≠ c.
Proof.
  intros Hc. unfold slug_char in Hc. split; [lia|]. split.
  - unfold ascii_lower. by replace ((65 <=? c) && (c <=? 90)) with false by lia.
  - pose (far x := (x <=? 32) || (128 <=? x)).
    assert (Hs : forallb (λ p, far (hd 0 p) && far (hd 0 (rev p))) spaces = true) by by vm_compute.
    rewrite forallb_forall in Hs. intros p Hp%list_elem_of_In. apply Hs in Hp. unfold far in Hp. lia.
Qed.

Lemma strip_any_none ps (s : bytes) :
  s ≠ [] → (∀ p, p ∈ ps → p ≠ [] ∧ hd 0 p ≠ hd 0 s) → strip_any ps s = None.
Proof.
  intros Hs. induction ps as [|p ps IH]; intros Hp; cbn [strip_any]; [done|].
  destruct (Hp p) as [Hne Hh]; [left|]. destruct p as [|x p], s as [|y s]; try done. cbn [hd] in Hh. cbn [strip].
  destruct (Z.eqb_spec x y); [done|]. apply IH. intros q Hq. apply Hp. by right.
Qed.

(** A slug is its own normal form. *)
Lemma NormalizeCode_id code : slug code → NormalizeCode code = Some code.
Proof.
  intros (Hl & Hc & Hh & Ht). assert (Hall : Forall (λ c, slug_char c = true) code).
  { apply Forall_forall. intros c Hin. rewrite forallb_forall in Hc. by apply Hc, list_elem_of_In. }
  assert (Hne : code ≠ []) by (intros ->; rewrite zlen_nil in Hl; unfold MinCodeLen in Hl; lia).
  assert (Htrim : TrimSpace code = code).
  { apply trimmed_TrimSpace. split.
    - apply strip_any_none; [done|]. intros p Hp. destruct code as [|c code]; [done|].
      apply Forall_cons_iff in Hall as [H0 _]. split; [|by apply (slug_char_spec c H0)].
      intros ->. revert Hp. rewrite <- (bool_decide_eq_true ([] ∈ spaces)). by vm_compute.
    - apply strip_any_none; [by destruct code using rev_ind; [|rewrite rev_app_distr]|].
      intros q (p & <- & Hp%list_elem_of_In)%list_elem_of_In%in_map_iff.
      destruct code as [|c code _] using rev_ind; [done|].
      apply Forall_app in Hall as [_ [H0 _]%Forall_cons_iff]. rewrite rev_app_distr. cbn [rev app hd].
      split; [|by apply (slug_char_spec c H0)].
      intros Hr. apply (f_equal (@rev Z)) in Hr. rewrite rev_involutive in Hr. cbn in Hr. subst p.
      revert Hp. rewrite <- (bool_decide_eq_true ([] ∈ spaces)). by vm_compute. }
  assert (Hlow : ToLower code = code).
  { unfold ToLower. assert (is_ascii code = true) as ->.
    { apply forallb_forall. intros c Hin%list_elem_of_In. rewrite Forall_forall in Hall.
      apply Hall, slug_char_spec in Hin. lia. }
    clear -Hall. induction Hall as [|c code Hc _ IH]; [done|]. cbn [map]. rewrite IH.
    f_equal. by apply slug_char_spec. }
  unfold NormalizeCode. rewrite Htrim, Hlow.
  replace (_ || _) with false by lia. rewrite Hc. cbn [negb].
  by replace (_ || _) with false by lia.
Qed.
End Code.
