(* ===== verification/RegData.v ===== *)
(** internal/roomsrv: the state of the room registry.

    Rooms, participants and voice sessions are Go pointers that outlive their
    registration (a participant keeps its ended room), so the state holds a heap
    of each, indexed by handles ([nat]); [g_rooms] names the live rooms by code.
    The registry runs every step under one mutex: an operation is a function on
    [Registry], written in the state monad [St]. What it does to the outside
    (closing a session, publishing on the event bus, calling a hook) is appended
    to [g_log]. *)
From stdpp Require Export gmap sorting.
From S2P Require Export StateM RoomMessages RoomNames VoiceTicket.
#[local] Open Scope Z_scope.

Inductive room_kind := KindStatic | KindDynamic.
#[export] Instance room_kind_eq_dec : EqDecision room_kind.
Proof. solve_decision. Defined.
(** events.ParticipantLeft*; [LeftUnset] is the empty string of a field not set *)
Inductive leave_reason := LeftUnset | LeftPlain | LeftTimeout | LeftRoomEnded | LeftHomeMoved.
#[export] Instance leave_reason_eq_dec : EqDecision leave_reason.
Proof. solve_decision. Defined.
Inductive client_kind := WebViewer | WebBroadcaster | Native.

Definition DefaultEmptyGrace := 60 * 10 ^ 9.
Definition DefaultMaxRooms := 10.
Definition DefaultMaxBroadcasts := 4.
Definition DefaultMaxParticipants := 50.
Definition DefaultVoiceMaxRooms := 10.
Definition DefaultVoiceMaxUsersPerRoom := 25.
Definition minRejoinWindow := 60 * 10 ^ 9.
Definition outboxDepth := 256.

(** what the registry asks the hub about an attachment *)
Record BroadcastState := MkBState {
  bs_live : bool;
  bs_viewers : Z;
}.

Record Grants := MkGrants {
  Creator : bool;
  AttachOK : bool;
  VouchedBy : option (bytes → bool);
}.

(** rooms.MumbleIntegration *)
Record MumbleIntegration := MkMumble {
  m_channel : bytes;
  m_temporary : bool;
}.

#[export] Instance mumble_eq_dec : EqDecision MumbleIntegration.
Proof. solve_decision. Defined.

(** voice.User *)
Record voice_User := MkUser {
  u_session : Z;
  u_name : bytes;
  u_flags : Z;
}.

Record attachment := MkAttachment {
  a_id : bytes;
  a_label : bytes;
  a_live : bool;
  a_viewers : Z;
  a_attachedAt : Z;
  a_owner : Z;
}.

Definition set_a_label (f : bytes → bytes) (x : attachment) : attachment :=
  MkAttachment (a_id x) (f (a_label x)) (a_live x) (a_viewers x) (a_attachedAt x) (a_owner x).
Definition set_a_live (f : bool → bool) (x : attachment) : attachment :=
  MkAttachment (a_id x) (a_label x) (f (a_live x)) (a_viewers x) (a_attachedAt x) (a_owner x).
Definition set_a_viewers (f : Z → Z) (x : attachment) : attachment :=
  MkAttachment (a_id x) (a_label x) (a_live x) (f (a_viewers x)) (a_attachedAt x) (a_owner x).
Definition set_a_owner (f : Z → Z) (x : attachment) : attachment :=
  MkAttachment (a_id x) (a_label x) (a_live x) (a_viewers x) (a_attachedAt x) (f (a_owner x)).

(** a voice-live room's voice state; [v_id] is its identity, and [v_sessions]
    the registered sessions by participant ID *)
Record voiceRoom := MkVoiceRoom {
  v_id : Z;
  v_channel : bytes;
  v_temporary : bool;
  v_linkUp : bool;
  v_available : bool;
  v_reason : bytes;
  v_problems : list bytes;
  v_users : list voice_User;
  v_sessions : gmap Z nat;
  v_lastRoster : bytes;
}.

Definition set_v_linkUp (f : bool → bool) (x : voiceRoom) : voiceRoom :=
  MkVoiceRoom (v_id x) (v_channel x) (v_temporary x) (f (v_linkUp x)) (v_available x) (v_reason x) (v_problems x) (v_users x) (v_sessions x) (v_lastRoster x).
Definition set_v_available (f : bool → bool) (x : voiceRoom) : voiceRoom :=
  MkVoiceRoom (v_id x) (v_channel x) (v_temporary x) (v_linkUp x) (f (v_available x)) (v_reason x) (v_problems x) (v_users x) (v_sessions x) (v_lastRoster x).
Definition set_v_reason (f : bytes → bytes) (x : voiceRoom) : voiceRoom :=
  MkVoiceRoom (v_id x) (v_channel x) (v_temporary x) (v_linkUp x) (v_available x) (f (v_reason x)) (v_problems x) (v_users x) (v_sessions x) (v_lastRoster x).
Definition set_v_problems (f : (list bytes) → list bytes) (x : voiceRoom) : voiceRoom :=
  MkVoiceRoom (v_id x) (v_channel x) (v_temporary x) (v_linkUp x) (v_available x) (v_reason x) (f (v_problems x)) (v_users x) (v_sessions x) (v_lastRoster x).
Definition set_v_users (f : (list voice_User) → list voice_User) (x : voiceRoom) : voiceRoom :=
  MkVoiceRoom (v_id x) (v_channel x) (v_temporary x) (v_linkUp x) (v_available x) (v_reason x) (v_problems x) (f (v_users x)) (v_sessions x) (v_lastRoster x).
Definition set_v_sessions (f : (gmap Z nat) → gmap Z nat) (x : voiceRoom) : voiceRoom :=
  MkVoiceRoom (v_id x) (v_channel x) (v_temporary x) (v_linkUp x) (v_available x) (v_reason x) (v_problems x) (v_users x) (f (v_sessions x)) (v_lastRoster x).
Definition set_v_lastRoster (f : bytes → bytes) (x : voiceRoom) : voiceRoom :=
  MkVoiceRoom (v_id x) (v_channel x) (v_temporary x) (v_linkUp x) (v_available x) (v_reason x) (v_problems x) (v_users x) (v_sessions x) (f (v_lastRoster x)).

(** [s_vr]: the voice state it was registered with; [s_remote]: the client's
    address, empty when invalid *)
Record VoiceSession := MkVoiceSession {
  s_room : nat;
  s_vr : Z;
  s_pid : Z;
  s_remote : bytes;
  s_mumble : Z;
  s_name : bytes;
  s_closed : bool;
}.

Definition set_s_mumble (f : Z → Z) (x : VoiceSession) : VoiceSession :=
  MkVoiceSession (s_room x) (s_vr x) (s_pid x) (s_remote x) (f (s_mumble x)) (s_name x) (s_closed x).
Definition set_s_name (f : bytes → bytes) (x : VoiceSession) : VoiceSession :=
  MkVoiceSession (s_room x) (s_vr x) (s_pid x) (s_remote x) (s_mumble x) (f (s_name x)) (s_closed x).
Definition set_s_closed (f : bool → bool) (x : VoiceSession) : VoiceSession :=
  MkVoiceSession (s_room x) (s_vr x) (s_pid x) (s_remote x) (s_mumble x) (s_name x) (f (s_closed x)).

(** [None] in the outbox is the nil record the writer takes for a close;
    [p_left] is leaveOnce, [p_closed] the closed channel *)
Record Participant := MkParticipant {
  p_room : nat;
  p_id : Z;
  p_kind : Z;
  p_nick : bytes;
  p_identity : bytes;
  p_grants : Grants;
  p_wantVoice : bool;
  p_firstState : bytes;
  p_outbox : list (option bytes);
  p_closed : bool;
  p_left : bool;
  p_leaveReason : leave_reason;
  p_closeCode : Z;
  p_closeReason : bytes;
}.

Definition set_p_nick (f : bytes → bytes) (x : Participant) : Participant :=
  MkParticipant (p_room x) (p_id x) (p_kind x) (f (p_nick x)) (p_identity x) (p_grants x) (p_wantVoice x) (p_firstState x) (p_outbox x) (p_closed x) (p_left x) (p_leaveReason x) (p_closeCode x) (p_closeReason x).
Definition set_p_firstState (f : bytes → bytes) (x : Participant) : Participant :=
  MkParticipant (p_room x) (p_id x) (p_kind x) (p_nick x) (p_identity x) (p_grants x) (p_wantVoice x) (f (p_firstState x)) (p_outbox x) (p_closed x) (p_left x) (p_leaveReason x) (p_closeCode x) (p_closeReason x).
Definition set_p_outbox (f : (list (option bytes)) → list (option bytes)) (x : Participant) : Participant :=
  MkParticipant (p_room x) (p_id x) (p_kind x) (p_nick x) (p_identity x) (p_grants x) (p_wantVoice x) (p_firstState x) (f (p_outbox x)) (p_closed x) (p_left x) (p_leaveReason x) (p_closeCode x) (p_closeReason x).
Definition set_p_closed (f : bool → bool) (x : Participant) : Participant :=
  MkParticipant (p_room x) (p_id x) (p_kind x) (p_nick x) (p_identity x) (p_grants x) (p_wantVoice x) (p_firstState x) (p_outbox x) (f (p_closed x)) (p_left x) (p_leaveReason x) (p_closeCode x) (p_closeReason x).
Definition set_p_left (f : bool → bool) (x : Participant) : Participant :=
  MkParticipant (p_room x) (p_id x) (p_kind x) (p_nick x) (p_identity x) (p_grants x) (p_wantVoice x) (p_firstState x) (p_outbox x) (p_closed x) (f (p_left x)) (p_leaveReason x) (p_closeCode x) (p_closeReason x).
Definition set_p_leaveReason (f : leave_reason → leave_reason) (x : Participant) : Participant :=
  MkParticipant (p_room x) (p_id x) (p_kind x) (p_nick x) (p_identity x) (p_grants x) (p_wantVoice x) (p_firstState x) (p_outbox x) (p_closed x) (p_left x) (f (p_leaveReason x)) (p_closeCode x) (p_closeReason x).
Definition set_p_closeCode (f : Z → Z) (x : Participant) : Participant :=
  MkParticipant (p_room x) (p_id x) (p_kind x) (p_nick x) (p_identity x) (p_grants x) (p_wantVoice x) (p_firstState x) (p_outbox x) (p_closed x) (p_left x) (p_leaveReason x) (f (p_closeCode x)) (p_closeReason x).
Definition set_p_closeReason (f : bytes → bytes) (x : Participant) : Participant :=
  MkParticipant (p_room x) (p_id x) (p_kind x) (p_nick x) (p_identity x) (p_grants x) (p_wantVoice x) (p_firstState x) (p_outbox x) (p_closed x) (p_left x) (p_leaveReason x) (p_closeCode x) (f (p_closeReason x)).

(** times are Unix nanoseconds, 0 the zero time; [r_participants]: participant ID
    to handle *)
Record room := MkRoom {
  r_code : bytes;
  r_display : bytes;
  r_name : bytes;
  r_kind : room_kind;
  r_attachSecret : bytes;
  r_maxBroadcasts : Z;
  r_maxParticipants : Z;
  r_pop : bytes;
  r_creatorFP : bytes;
  r_createdAt : Z;
  r_minter : bytes;
  r_seq : Z;
  r_nextPID : Z;
  r_participants : gmap Z nat;
  r_attachments : list attachment;
  r_emptyTimer : bool;
  r_emptySince : Z;
  r_emptyGen : Z;
  r_ended : bool;
  r_rejoinUntil : option Z;
  r_openedPublished : bool;
  r_releasing : bool;
  r_leaveReason : leave_reason;
  r_mumble : option MumbleIntegration;
  r_voice : option voiceRoom;
  r_voiceOnly : bool;
}.

Definition set_r_display (f : bytes → bytes) (x : room) : room :=
  MkRoom (r_code x) (f (r_display x)) (r_name x) (r_kind x) (r_attachSecret x) (r_maxBroadcasts x) (r_maxParticipants x) (r_pop x) (r_creatorFP x) (r_createdAt x) (r_minter x) (r_seq x) (r_nextPID x) (r_participants x) (r_attachments x) (r_emptyTimer x) (r_emptySince x) (r_emptyGen x) (r_ended x) (r_rejoinUntil x) (r_openedPublished x) (r_releasing x) (r_leaveReason x) (r_mumble x) (r_voice x) (r_voiceOnly x).
Definition set_r_name (f : bytes → bytes) (x : room) : room :=
  MkRoom (r_code x) (r_display x) (f (r_name x)) (r_kind x) (r_attachSecret x) (r_maxBroadcasts x) (r_maxParticipants x) (r_pop x) (r_creatorFP x) (r_createdAt x) (r_minter x) (r_seq x) (r_nextPID x) (r_participants x) (r_attachments x) (r_emptyTimer x) (r_emptySince x) (r_emptyGen x) (r_ended x) (r_rejoinUntil x) (r_openedPublished x) (r_releasing x) (r_leaveReason x) (r_mumble x) (r_voice x) (r_voiceOnly x).
Definition set_r_attachSecret (f : bytes → bytes) (x : room) : room :=
  MkRoom (r_code x) (r_display x) (r_name x) (r_kind x) (f (r_attachSecret x)) (r_maxBroadcasts x) (r_maxParticipants x) (r_pop x) (r_creatorFP x) (r_createdAt x) (r_minter x) (r_seq x) (r_nextPID x) (r_participants x) (r_attachments x) (r_emptyTimer x) (r_emptySince x) (r_emptyGen x) (r_ended x) (r_rejoinUntil x) (r_openedPublished x) (r_releasing x) (r_leaveReason x) (r_mumble x) (r_voice x) (r_voiceOnly x).
Definition set_r_maxBroadcasts (f : Z → Z) (x : room) : room :=
  MkRoom (r_code x) (r_display x) (r_name x) (r_kind x) (r_attachSecret x) (f (r_maxBroadcasts x)) (r_maxParticipants x) (r_pop x) (r_creatorFP x) (r_createdAt x) (r_minter x) (r_seq x) (r_nextPID x) (r_participants x) (r_attachments x) (r_emptyTimer x) (r_emptySince x) (r_emptyGen x) (r_ended x) (r_rejoinUntil x) (r_openedPublished x) (r_releasing x) (r_leaveReason x) (r_mumble x) (r_voice x) (r_voiceOnly x).
Definition set_r_maxParticipants (f : Z → Z) (x : room) : room :=
  MkRoom (r_code x) (r_display x) (r_name x) (r_kind x) (r_attachSecret x) (r_maxBroadcasts x) (f (r_maxParticipants x)) (r_pop x) (r_creatorFP x) (r_createdAt x) (r_minter x) (r_seq x) (r_nextPID x) (r_participants x) (r_attachments x) (r_emptyTimer x) (r_emptySince x) (r_emptyGen x) (r_ended x) (r_rejoinUntil x) (r_openedPublished x) (r_releasing x) (r_leaveReason x) (r_mumble x) (r_voice x) (r_voiceOnly x).
Definition set_r_pop (f : bytes → bytes) (x : room) : room :=
  MkRoom (r_code x) (r_display x) (r_name x) (r_kind x) (r_attachSecret x) (r_maxBroadcasts x) (r_maxParticipants x) (f (r_pop x)) (r_creatorFP x) (r_createdAt x) (r_minter x) (r_seq x) (r_nextPID x) (r_participants x) (r_attachments x) (r_emptyTimer x) (r_emptySince x) (r_emptyGen x) (r_ended x) (r_rejoinUntil x) (r_openedPublished x) (r_releasing x) (r_leaveReason x) (r_mumble x) (r_voice x) (r_voiceOnly x).
Definition set_r_seq (f : Z → Z) (x : room) : room :=
  MkRoom (r_code x) (r_display x) (r_name x) (r_kind x) (r_attachSecret x) (r_maxBroadcasts x) (r_maxParticipants x) (r_pop x) (r_creatorFP x) (r_createdAt x) (r_minter x) (f (r_seq x)) (r_nextPID x) (r_participants x) (r_attachments x) (r_emptyTimer x) (r_emptySince x) (r_emptyGen x) (r_ended x) (r_rejoinUntil x) (r_openedPublished x) (r_releasing x) (r_leaveReason x) (r_mumble x) (r_voice x) (r_voiceOnly x).
Definition set_r_nextPID (f : Z → Z) (x : room) : room :=
  MkRoom (r_code x) (r_display x) (r_name x) (r_kind x) (r_attachSecret x) (r_maxBroadcasts x) (r_maxParticipants x) (r_pop x) (r_creatorFP x) (r_createdAt x) (r_minter x) (r_seq x) (f (r_nextPID x)) (r_participants x) (r_attachments x) (r_emptyTimer x) (r_emptySince x) (r_emptyGen x) (r_ended x) (r_rejoinUntil x) (r_openedPublished x) (r_releasing x) (r_leaveReason x) (r_mumble x) (r_voice x) (r_voiceOnly x).
Definition set_r_participants (f : (gmap Z nat) → gmap Z nat) (x : room) : room :=
  MkRoom (r_code x) (r_display x) (r_name x) (r_kind x) (r_attachSecret x) (r_maxBroadcasts x) (r_maxParticipants x) (r_pop x) (r_creatorFP x) (r_createdAt x) (r_minter x) (r_seq x) (r_nextPID x) (f (r_participants x)) (r_attachments x) (r_emptyTimer x) (r_emptySince x) (r_emptyGen x) (r_ended x) (r_rejoinUntil x) (r_openedPublished x) (r_releasing x) (r_leaveReason x) (r_mumble x) (r_voice x) (r_voiceOnly x).
Definition set_r_attachments (f : (list attachment) → list attachment) (x : room) : room :=
  MkRoom (r_code x) (r_display x) (r_name x) (r_kind x) (r_attachSecret x) (r_maxBroadcasts x) (r_maxParticipants x) (r_pop x) (r_creatorFP x) (r_createdAt x) (r_minter x) (r_seq x) (r_nextPID x) (r_participants x) (f (r_attachments x)) (r_emptyTimer x) (r_emptySince x) (r_emptyGen x) (r_ended x) (r_rejoinUntil x) (r_openedPublished x) (r_releasing x) (r_leaveReason x) (r_mumble x) (r_voice x) (r_voiceOnly x).
Definition set_r_emptyTimer (f : bool → bool) (x : room) : room :=
  MkRoom (r_code x) (r_display x) (r_name x) (r_kind x) (r_attachSecret x) (r_maxBroadcasts x) (r_maxParticipants x) (r_pop x) (r_creatorFP x) (r_createdAt x) (r_minter x) (r_seq x) (r_nextPID x) (r_participants x) (r_attachments x) (f (r_emptyTimer x)) (r_emptySince x) (r_emptyGen x) (r_ended x) (r_rejoinUntil x) (r_openedPublished x) (r_releasing x) (r_leaveReason x) (r_mumble x) (r_voice x) (r_voiceOnly x).
Definition set_r_emptySince (f : Z → Z) (x : room) : room :=
  MkRoom (r_code x) (r_display x) (r_name x) (r_kind x) (r_attachSecret x) (r_maxBroadcasts x) (r_maxParticipants x) (r_pop x) (r_creatorFP x) (r_createdAt x) (r_minter x) (r_seq x) (r_nextPID x) (r_participants x) (r_attachments x) (r_emptyTimer x) (f (r_emptySince x)) (r_emptyGen x) (r_ended x) (r_rejoinUntil x) (r_openedPublished x) (r_releasing x) (r_leaveReason x) (r_mumble x) (r_voice x) (r_voiceOnly x).
Definition set_r_emptyGen (f : Z → Z) (x : room) : room :=
  MkRoom (r_code x) (r_display x) (r_name x) (r_kind x) (r_attachSecret x) (r_maxBroadcasts x) (r_maxParticipants x) (r_pop x) (r_creatorFP x) (r_createdAt x) (r_minter x) (r_seq x) (r_nextPID x) (r_participants x) (r_attachments x) (r_emptyTimer x) (r_emptySince x) (f (r_emptyGen x)) (r_ended x) (r_rejoinUntil x) (r_openedPublished x) (r_releasing x) (r_leaveReason x) (r_mumble x) (r_voice x) (r_voiceOnly x).
Definition set_r_ended (f : bool → bool) (x : room) : room :=
  MkRoom (r_code x) (r_display x) (r_name x) (r_kind x) (r_attachSecret x) (r_maxBroadcasts x) (r_maxParticipants x) (r_pop x) (r_creatorFP x) (r_createdAt x) (r_minter x) (r_seq x) (r_nextPID x) (r_participants x) (r_attachments x) (r_emptyTimer x) (r_emptySince x) (r_emptyGen x) (f (r_ended x)) (r_rejoinUntil x) (r_openedPublished x) (r_releasing x) (r_leaveReason x) (r_mumble x) (r_voice x) (r_voiceOnly x).
Definition set_r_rejoinUntil (f : (option Z) → option Z) (x : room) : room :=
  MkRoom (r_code x) (r_display x) (r_name x) (r_kind x) (r_attachSecret x) (r_maxBroadcasts x) (r_maxParticipants x) (r_pop x) (r_creatorFP x) (r_createdAt x) (r_minter x) (r_seq x) (r_nextPID x) (r_participants x) (r_attachments x) (r_emptyTimer x) (r_emptySince x) (r_emptyGen x) (r_ended x) (f (r_rejoinUntil x)) (r_openedPublished x) (r_releasing x) (r_leaveReason x) (r_mumble x) (r_voice x) (r_voiceOnly x).
Definition set_r_openedPublished (f : bool → bool) (x : room) : room :=
  MkRoom (r_code x) (r_display x) (r_name x) (r_kind x) (r_attachSecret x) (r_maxBroadcasts x) (r_maxParticipants x) (r_pop x) (r_creatorFP x) (r_createdAt x) (r_minter x) (r_seq x) (r_nextPID x) (r_participants x) (r_attachments x) (r_emptyTimer x) (r_emptySince x) (r_emptyGen x) (r_ended x) (r_rejoinUntil x) (f (r_openedPublished x)) (r_releasing x) (r_leaveReason x) (r_mumble x) (r_voice x) (r_voiceOnly x).
Definition set_r_releasing (f : bool → bool) (x : room) : room :=
  MkRoom (r_code x) (r_display x) (r_name x) (r_kind x) (r_attachSecret x) (r_maxBroadcasts x) (r_maxParticipants x) (r_pop x) (r_creatorFP x) (r_createdAt x) (r_minter x) (r_seq x) (r_nextPID x) (r_participants x) (r_attachments x) (r_emptyTimer x) (r_emptySince x) (r_emptyGen x) (r_ended x) (r_rejoinUntil x) (r_openedPublished x) (f (r_releasing x)) (r_leaveReason x) (r_mumble x) (r_voice x) (r_voiceOnly x).
Definition set_r_leaveReason (f : leave_reason → leave_reason) (x : room) : room :=
  MkRoom (r_code x) (r_display x) (r_name x) (r_kind x) (r_attachSecret x) (r_maxBroadcasts x) (r_maxParticipants x) (r_pop x) (r_creatorFP x) (r_createdAt x) (r_minter x) (r_seq x) (r_nextPID x) (r_participants x) (r_attachments x) (r_emptyTimer x) (r_emptySince x) (r_emptyGen x) (r_ended x) (r_rejoinUntil x) (r_openedPublished x) (r_releasing x) (f (r_leaveReason x)) (r_mumble x) (r_voice x) (r_voiceOnly x).
Definition set_r_mumble (f : (option MumbleIntegration) → option MumbleIntegration) (x : room) : room :=
  MkRoom (r_code x) (r_display x) (r_name x) (r_kind x) (r_attachSecret x) (r_maxBroadcasts x) (r_maxParticipants x) (r_pop x) (r_creatorFP x) (r_createdAt x) (r_minter x) (r_seq x) (r_nextPID x) (r_participants x) (r_attachments x) (r_emptyTimer x) (r_emptySince x) (r_emptyGen x) (r_ended x) (r_rejoinUntil x) (r_openedPublished x) (r_releasing x) (r_leaveReason x) (f (r_mumble x)) (r_voice x) (r_voiceOnly x).
Definition set_r_voice (f : (option voiceRoom) → option voiceRoom) (x : room) : room :=
  MkRoom (r_code x) (r_display x) (r_name x) (r_kind x) (r_attachSecret x) (r_maxBroadcasts x) (r_maxParticipants x) (r_pop x) (r_creatorFP x) (r_createdAt x) (r_minter x) (r_seq x) (r_nextPID x) (r_participants x) (r_attachments x) (r_emptyTimer x) (r_emptySince x) (r_emptyGen x) (r_ended x) (r_rejoinUntil x) (r_openedPublished x) (r_releasing x) (r_leaveReason x) (r_mumble x) (f (r_voice x)) (r_voiceOnly x).
Definition set_r_voiceOnly (f : bool → bool) (x : room) : room :=
  MkRoom (r_code x) (r_display x) (r_name x) (r_kind x) (r_attachSecret x) (r_maxBroadcasts x) (r_maxParticipants x) (r_pop x) (r_creatorFP x) (r_createdAt x) (r_minter x) (r_seq x) (r_nextPID x) (r_participants x) (r_attachments x) (r_emptyTimer x) (r_emptySince x) (r_emptyGen x) (r_ended x) (r_rejoinUntil x) (r_openedPublished x) (r_releasing x) (r_leaveReason x) (r_mumble x) (r_voice x) (f (r_voiceOnly x)).

(** ** The outside *)

Inductive close_reason := RoomClosedGrace | RoomClosedCreator | RoomClosedOperator.
(** the data of an event bus message *)
Inductive bus_data :=
  | RoomOpened (kind : room_kind) (createdAt : Z)
  | RoomHomeChanged (kind : room_kind) (previousPod : bytes)
  | RoomAttached (broadcastID label : bytes)
  | RoomDetached (broadcastID : bytes)
  | RoomAttachmentUpdated (broadcastID : bytes) (live : bool) (viewers : Z)
  | RoomParticipantJoined (id : Z) (nickname : bytes) (kind : client_kind) (streaming speaking rejoin : bool)
  | RoomParticipantUpdated (id : Z) (nickname : bytes) (kind : client_kind) (streaming speaking : bool)
  | RoomParticipantLeft (id : Z) (nickname : bytes) (kind : client_kind) (reason : leave_reason)
  | RoomClosed (kind : room_kind) (reason : close_reason).
(** the room code is the subject; the keys of the wire format are the HMACs of
    the codes and IDs given here *)
Record bus_event := MkBus { b_code : bytes; b_display : bytes; b_time : Z; b_data : bus_data }.

Inductive effect :=
  | ConnClose (p : nat) (code : Z) (reason : bytes)
  | ConnWrite (p : nat) (record : bytes)
  | VoiceLinkClose (vs : nat) (code : Z) (reason : bytes)
  | Bus (e : bus_event)
  | OnRoomEnded (code : bytes) (reason : Z)
  | OnRoomEmpty (code : bytes) (empty : bool)
  | OnAttachmentsChanged (code : bytes) (l : list (bytes * bytes * Z))
  | OnVoiceChanged
  | Unreserve (code : bytes)
  (** [time.AfterFunc(EmptyGrace, ...)] with what its closure captured *)
  | AfterFunc (code : bytes) (rm : nat) (gen : Z) (at_ : Z).

Record Registry := MkRegistry {
  g_rooms : gmap bytes nat;
  g_heap : gmap nat room;
  g_parts : gmap nat Participant;
  g_attached : gmap bytes bytes;
  g_walls : gmap bytes bytes;
  g_voiceSeq : Z;
  g_voiceNonces : gmap bytes Z;
  g_vsessions : gmap nat VoiceSession;
  g_next : nat;
  g_log : list effect;
}.

Definition set_g_rooms (f : (gmap bytes nat) → gmap bytes nat) (x : Registry) : Registry :=
  MkRegistry (f (g_rooms x)) (g_heap x) (g_parts x) (g_attached x) (g_walls x) (g_voiceSeq x) (g_voiceNonces x) (g_vsessions x) (g_next x) (g_log x).
Definition set_g_heap (f : (gmap nat room) → gmap nat room) (x : Registry) : Registry :=
  MkRegistry (g_rooms x) (f (g_heap x)) (g_parts x) (g_attached x) (g_walls x) (g_voiceSeq x) (g_voiceNonces x) (g_vsessions x) (g_next x) (g_log x).
Definition set_g_parts (f : (gmap nat Participant) → gmap nat Participant) (x : Registry) : Registry :=
  MkRegistry (g_rooms x) (g_heap x) (f (g_parts x)) (g_attached x) (g_walls x) (g_voiceSeq x) (g_voiceNonces x) (g_vsessions x) (g_next x) (g_log x).
Definition set_g_attached (f : (gmap bytes bytes) → gmap bytes bytes) (x : Registry) : Registry :=
  MkRegistry (g_rooms x) (g_heap x) (g_parts x) (f (g_attached x)) (g_walls x) (g_voiceSeq x) (g_voiceNonces x) (g_vsessions x) (g_next x) (g_log x).
Definition set_g_walls (f : (gmap bytes bytes) → gmap bytes bytes) (x : Registry) : Registry :=
  MkRegistry (g_rooms x) (g_heap x) (g_parts x) (g_attached x) (f (g_walls x)) (g_voiceSeq x) (g_voiceNonces x) (g_vsessions x) (g_next x) (g_log x).
Definition set_g_voiceSeq (f : Z → Z) (x : Registry) : Registry :=
  MkRegistry (g_rooms x) (g_heap x) (g_parts x) (g_attached x) (g_walls x) (f (g_voiceSeq x)) (g_voiceNonces x) (g_vsessions x) (g_next x) (g_log x).
Definition set_g_voiceNonces (f : (gmap bytes Z) → gmap bytes Z) (x : Registry) : Registry :=
  MkRegistry (g_rooms x) (g_heap x) (g_parts x) (g_attached x) (g_walls x) (g_voiceSeq x) (f (g_voiceNonces x)) (g_vsessions x) (g_next x) (g_log x).
Definition set_g_vsessions (f : (gmap nat VoiceSession) → gmap nat VoiceSession) (x : Registry) : Registry :=
  MkRegistry (g_rooms x) (g_heap x) (g_parts x) (g_attached x) (g_walls x) (g_voiceSeq x) (g_voiceNonces x) (f (g_vsessions x)) (g_next x) (g_log x).
Definition set_g_next (f : nat → nat) (x : Registry) : Registry :=
  MkRegistry (g_rooms x) (g_heap x) (g_parts x) (g_attached x) (g_walls x) (g_voiceSeq x) (g_voiceNonces x) (g_vsessions x) (f (g_next x)) (g_log x).
Definition set_g_log (f : (list effect) → list effect) (x : Registry) : Registry :=
  MkRegistry (g_rooms x) (g_heap x) (g_parts x) (g_attached x) (g_walls x) (g_voiceSeq x) (g_voiceNonces x) (g_vsessions x) (g_next x) (f (g_log x)).

(** ** The state monad *)

Abbreviation St := (State Registry).
Definition emit (e : effect) : St unit := modify (set_g_log (λ l, l ++ [e])).

Definition zero_room : room :=
  MkRoom [] [] [] KindStatic [] 0 0 [] [] 0 [] 0 0 ∅ [] false 0 0 true None false false LeftUnset
         None None false.
Definition zero_part : Participant :=
  MkParticipant 0 0 0 [] [] (MkGrants false false None) false [] [] true true LeftUnset 0 [].
Definition zero_vs : VoiceSession := MkVoiceSession 0 0 0 [] 0 [] true.
(** handles are never dangling: the default is not reached *)
Definition get_room (rm : nat) : St room := gets (λ g, default zero_room (g_heap g !! rm)).
Definition get_part (p : nat) : St Participant := gets (λ g, default zero_part (g_parts g !! p)).
Definition get_vs (v : nat) : St VoiceSession := gets (λ g, default zero_vs (g_vsessions g !! v)).
Definition upd_room (rm : nat) (f : room → room) : St unit := modify (set_g_heap (alter f rm)).
Definition upd_part (p : nat) (f : Participant → Participant) : St unit :=
  modify (set_g_parts (alter f p)).
Definition upd_vs (v : nat) (f : VoiceSession → VoiceSession) : St unit :=
  modify (set_g_vsessions (alter f v)).
(** a fresh handle *)
Definition new : St nat := λ g, (g_next g, set_g_next S g).

