(* ===== verification/RegEvents.v ===== *)
(** internal/roomsrv: what the registry sends. The per-participant queues, the
    records of participants, attachments and the room state, the event bus
    (eventbus.go) and the sequenced broadcast of registry.go. *)
From S2P Require Export RegData.
#[local] Open Scope Z_scope.
Import RoomParticipant(RoomParticipant, Build_RoomParticipant)
  RoomAttachment(RoomAttachment, Build_RoomAttachment) RoomEvent(RoomEvent, Build_RoomEvent)
  RoomState(RoomState, Build_RoomState).

Definition RoomStateFlagDynamic := 0x01.
Definition RoomStateFlagCreator := 0x02.
Definition RoomStateFlagAttachOK := 0x04.
Definition RoomCapVoice := 0x02.
Definition RoomParticipantFlagSpeaking := 0x01.
Definition RoomParticipantFlagStreaming := 0x02.
Definition RoomClientWebBroadcaster := 1.
Definition RoomClientNative := 2.
Definition RoomEndReasonEmpty := 1.
Definition RoomEndReasonCreator := 2.
Definition RoomEndReasonOperator := 3.
Definition CloseCodeSubscriberUnresponsive := 4001.

(** ** Configuration: the options, and what lies outside the package *)
Record Options := MkOptions {
  EmptyGrace : Z; MaxRooms : Z; MaxBroadcasts : Z; MaxParticipants : Z;
  CreateSecret : bytes;
  UnknownIsExpired : bool;
  (** whether the optional hooks are set *)
  HasOnEvent : bool; HasOnRoomEnded : bool; HasOnRoomEmpty : bool;
  HasOnAttachmentsChanged : bool; HasOnVoiceChanged : bool; HasUnreserve : bool;
  (** VoiceOptions *)
  VoiceEnabled : bool; VoicePublicURL : bytes; VoiceTicketSecret : bytes;
  VoiceMaxRooms : Z; VoiceMaxUsersPerRoom : Z;
}.

(** ** Hexadecimal *)
Definition unhex (c : Z) : Z :=
  if (c >=? 48) && (c <=? 57) then c - 48
  else if (c >=? 97) && (c <=? 102) then c - 97 + 10
  else if (c >=? 65) && (c <=? 70) then c - 65 + 10
  else -1.
(** byte pairs; [None] on a digit that is not one, or an odd byte *)
Fixpoint unhex_pairs (s : bytes) : option bytes :=
  match s with
  | [] => Some []
  | [_] => None
  | a :: b :: s' =>
      let hi := unhex a in let lo := unhex b in
      if (hi <? 0) || (lo <? 0) then None
      else option_map (cons (Z.lor (Z.shiftl hi 4) lo)) (unhex_pairs s')
  end.
Definition decodeHex (s : bytes) : option bytes :=
  if zlen s <>? RoomCreatorTokenSize * 2 then None else unhex_pairs s.

Section Events.
Context (opts : Options).
(** [strings.ToUpper] outside ASCII, and the room key HMAC *)
Context (unicode_upper : bytes → bytes) (obfuscate : bytes → bytes).

(** hex.DecodeString of the obfuscated code, when it is a key *)
Definition roomKey (code : bytes) : bytes :=
  match unhex_pairs (obfuscate code) with
  | Some key => if zlen key <>? RoomKeySize then [] else key
  | None => []
  end.

(** [None] is the nil slice *)
Definition frame (msg : bytes) : option bytes :=
  match AppendRoomRecord [] msg with Ok r => Some r | _ => None end.

Definition enqueueLocked (p : nat) (rec : option bytes) : St unit :=
  pt ← get_part p;
  if zlen (p_outbox pt) <? outboxDepth then upd_part p (set_p_outbox (λ q, q ++ [rec]))
  else
    _ ← upd_part p (set_p_leaveReason (λ _, LeftTimeout));
    emit (ConnClose p CloseCodeSubscriberUnresponsive (str "control queue overflow"%string)).

(** ** Records *)

Definition find_att (rm : room) (id : bytes) : option attachment :=
  List.find (λ a, bool_decide (a_id a = id)) (r_attachments rm).
Definition record (a : attachment) : RoomAttachment :=
  Build_RoomAttachment (a_id a) (a_label a) (a_live a) (uint32 (a_viewers a)).
Definition record_of (rm : room) (pt : Participant) : RoomParticipant :=
  let flags := if existsb (λ a, a_owner a =? p_id pt) (r_attachments rm)
               then RoomParticipantFlagStreaming else 0 in
  Build_RoomParticipant (p_id pt) (p_kind pt) flags (p_nick pt) (p_identity pt).
Definition recordLocked (p : nat) : St RoomParticipant :=
  pt ← get_part p;
  rm ← get_room (p_room pt);
  mret (record_of rm pt).

(** participants in the order of their IDs *)
Definition sorted_ids (rm : room) : list Z :=
  merge_sort Z.le (elements (dom (r_participants rm))).
Definition participants_of (rm : room) : list nat :=
  omap (λ id, r_participants rm !! id) (sorted_ids rm).

Definition stateRecordLocked (rm : nat) (p : nat) : St (option bytes) :=
  m ← get_room rm;
  pt ← get_part p;
  parts ← gets (λ g, map (λ q, default zero_part (g_parts g !! q)) (participants_of m));
  let flags := Z.lor (Z.lor (if bool_decide (r_kind m = KindDynamic) then RoomStateFlagDynamic else 0)
                            (if Creator (p_grants pt) then RoomStateFlagCreator else 0))
                     (if AttachOK (p_grants pt) then RoomStateFlagAttachOK else 0) in
  let caps := match r_voice m with Some _ => RoomCapVoice | None => 0 end in
  let st := Build_RoomState flags caps (r_seq m) (p_id pt) (r_display m) (r_name m)
              (p_firstState pt) (roomKey (r_code m))
              (map record (r_attachments m)) (map (record_of m) parts) in
  match AppendRoomState unicode_upper [] st with
  | Ok rec => mret (frame rec)
  | _ => mret None
  end.

(** ** The event bus *)

Definition clientKind (kind : Z) : client_kind :=
  if kind =? RoomClientWebBroadcaster then WebBroadcaster
  else if kind =? RoomClientNative then Native
  else WebViewer.
Definition closeReason (reason : Z) : close_reason :=
  if reason =? RoomEndReasonEmpty then RoomClosedGrace
  else if reason =? RoomEndReasonCreator then RoomClosedCreator
  else RoomClosedOperator.

Definition emitLocked (rm : nat) (now : Z) (data : bus_data) : St unit :=
  m ← get_room rm;
  if HasOnEvent opts then emit (Bus (MkBus (r_code m) (r_display m) now data)) else skip.

Definition rejoiningLocked (m : room) (now : Z) : bool :=
  match r_rejoinUntil m with Some t => now <? t | None => false end.

Definition busEventLocked (rm : nat) (ev : RoomEvent) (now : Z) : St unit :=
  let kind := RoomEvent.Kind ev in
  let p := RoomEvent.Participant ev in
  let a := RoomEvent.Attachment ev in
  let streaming := has_flag (RoomParticipant.Flags p) RoomParticipantFlagStreaming in
  let speaking := has_flag (RoomParticipant.Flags p) RoomParticipantFlagSpeaking in
  m ← get_room rm;
  if kind =? RoomEventParticipantJoined then
    emitLocked rm now (RoomParticipantJoined (RoomParticipant.ID p) (RoomParticipant.Nickname p)
      (clientKind (RoomParticipant.Kind p)) streaming speaking (rejoiningLocked m now))
  else if kind =? RoomEventParticipantUpdated then
    emitLocked rm now (RoomParticipantUpdated (RoomParticipant.ID p) (RoomParticipant.Nickname p)
      (clientKind (RoomParticipant.Kind p)) streaming speaking)
  else if kind =? RoomEventAttachmentRemoved then
    emitLocked rm now (RoomDetached (RoomAttachment.BroadcastID a))
  else if kind =? RoomEventAttachmentUpdated then
    emitLocked rm now (RoomAttachmentUpdated (RoomAttachment.BroadcastID a) (RoomAttachment.Live a)
      (RoomAttachment.ViewerCount a))
  else skip.

Definition busParticipantLeftLocked (rm p : nat) (now : Z) : St unit :=
  m ← get_room rm;
  pt ← get_part p;
  let reason := if bool_decide (r_leaveReason m ≠ LeftUnset) then r_leaveReason m
                else if bool_decide (p_leaveReason pt ≠ LeftUnset) then p_leaveReason pt
                else LeftPlain in
  emitLocked rm now (RoomParticipantLeft (p_id pt) (p_nick pt) (clientKind (p_kind pt)) reason).
Definition busHomeChangedLocked (rm : nat) (previousPod : bytes) (now : Z) : St unit :=
  m ← get_room rm;
  emitLocked rm now (RoomHomeChanged (r_kind m) previousPod).
(** the creation time is published in whole seconds *)
Definition busRoomOpenedLocked (rm : nat) (now : Z) : St unit :=
  m ← get_room rm;
  emitLocked rm now (RoomOpened (r_kind m) (r_createdAt m / 10 ^ 9 * 10 ^ 9)).
Definition busAttachedLocked (rm : nat) (a : attachment) (now : Z) : St unit :=
  emitLocked rm now (RoomAttached (a_id a) (a_label a)).
Definition busRoomClosedLocked (rm : nat) (reason now : Z) : St unit :=
  m ← get_room rm;
  if r_releasing m then skip
  else emitLocked rm now (RoomClosed (r_kind m) (closeReason reason)).

(** ** The sequenced broadcast *)

Definition set_seq (sq : Z) (e : RoomEvent) : RoomEvent :=
  Build_RoomEvent sq (RoomEvent.Kind e) (RoomEvent.Participant e) (RoomEvent.Attachment e)
    (RoomEvent.Reason e) (RoomEvent.Command e) (RoomEvent.Message e) (RoomEvent.VoiceURL e)
    (RoomEvent.VoiceTicket e) (RoomEvent.VoiceFlags e) (RoomEvent.VoiceRoster e).

(** the next sequence number, the event to everybody but [skip_id], and the bus *)
Definition broadcastLocked (rm : nat) (ev : RoomEvent) (skip_id now : Z) : St unit :=
  _ ← upd_room rm (set_r_seq (λ s, uint32 (s + 1)));
  m ← get_room rm;
  let ev := set_seq (r_seq m) ev in
  match AppendRoomEvent unicode_upper [] ev with
  | Ok rec =>
      let framed := frame rec in
      _ ← forM (map_to_list (r_participants m))
            (λ '(id, p), if id =? skip_id then skip else enqueueLocked p framed);
      busEventLocked rm ev now
  | _ => skip
  end.

(** the events of the registry *)
Definition participant_event (kind : Z) (p : RoomParticipant) : RoomEvent :=
  Build_RoomEvent 0 kind p zero_attachment 0 0 [] [] [] 0 [].
Definition attachment_event (kind : Z) (a : RoomAttachment) (reason : Z) : RoomEvent :=
  Build_RoomEvent 0 kind zero_participant a reason 0 [] [] [] 0 [].
Definition only_id (id : Z) : RoomParticipant := Build_RoomParticipant id 0 0 [] [].
Definition only_broadcast (id : bytes) : RoomAttachment := Build_RoomAttachment id [] false 0.

(** addressed to one participant: the current sequence number, not advanced *)
Definition reject_ (p : nat) (cmdKind reason : Z) (msg : bytes) : St unit :=
  pt ← get_part p;
  m ← get_room (p_room pt);
  if r_ended m then skip else
  match AppendRoomEvent unicode_upper []
          (Build_RoomEvent (r_seq m) RoomEventCommandRejected zero_participant zero_attachment
             reason cmdKind msg [] [] 0 []) with
  | Ok rec => enqueueLocked p (frame rec)
  | _ => skip
  end.
End Events.
