(* ===== verification/RegVoice.v ===== *)
(** internal/roomsrv/voice.go: the home pod's half of room voice. The voice
    state of a room, its roster, the tickets a participant asks for and the
    sessions that register with them. *)
From S2P Require Export RegEvents.
#[local] Open Scope Z_scope.
Import RoomEvent(RoomEvent, Build_RoomEvent) VoiceRosterEntry(Build_VoiceRosterEntry).

Definition RoomVoiceRosterFlagAvailable := 0x01.
Definition RoomVoiceKindMumble := 0.
Definition RoomVoiceKindGawk := 1.
Definition voiceUserFlagMask := 0x1f.
Definition RoomRejectLimit := 1.
Definition RoomRejectBadProof := 2.
Definition RoomRejectNotFound := 3.
Definition RoomRejectForbidden := 4.
Definition RoomRejectAlreadyAttached := 5.
Definition RoomRejectUnsupported := 6.
Definition RoomRejectUnavailable := 7.
Definition CloseCodeServerDraining := 4002.
Definition CloseCodeVoiceRemoved := 4015.
Definition CloseCodeVoiceUnavailable := 4016.

Definition voiceReasonReplaced : bytes := str "replaced by a newer voice session"%string.
Definition voiceReasonRoomEnded : bytes := str "room ended"%string.
Definition voiceReasonRoomMoved : bytes := str "room moved to another server"%string.
Definition voiceReasonLeft : bytes := str "room session ended"%string.
Definition voiceReasonVoiceOff : bytes := str "voice turned off for the room"%string.
Definition voiceReasonRemapped : bytes := str "voice channel changed"%string.
Definition voiceReasonBanned : bytes := str "banned"%string.
Definition voiceReasonTerminated : bytes := str "removed by an operator"%string.

Inductive voice_error :=
  | ErrVoiceBadTicket | ErrVoiceTicketExpired | ErrVoiceWrongRoom | ErrVoiceEpoch | ErrVoiceReplay
  | ErrVoiceNoParticipant | ErrVoiceNotLive | ErrVoiceFull.

(** a close decided under the lock and run after it *)
Definition voiceClose : Type := nat * Z * bytes.
Definition runVoiceCloses (cs : list voiceClose) : St unit :=
  forM cs (λ '(v, code, reason), emit (VoiceLinkClose v code reason)).

(** rooms.ValidateMumble *)
Definition MaxMumbleChannelLen := 256.
Definition ValidateMumble (m : MumbleIntegration) : bool :=
  if m_temporary m && negb (zlen (m_channel m) =? 0) then false
  else if zlen (m_channel m) >? MaxMumbleChannelLen then false
  else negb (existsb (λ c, (c <? 0x20) || (c =? 0x7f)) (m_channel m)).
Definition validMumble (m : option MumbleIntegration) : option MumbleIntegration :=
  match m with
  | Some m => if ValidateMumble m then Some m else None
  | None => None
  end.

Section Voice.
Context (opts : Options) (unicode_upper obfuscate : bytes → bytes).
Context (hmac_sha256 : bytes → bytes → bytes).

(** ** The roster *)

(** participant ID by Mumble session, over the registered sessions in the
    order of the IDs *)
Definition gawk_sessions (vr : voiceRoom) (vss : gmap nat VoiceSession) : gmap Z Z :=
  foldl (λ m pid, match v_sessions vr !! pid ≫= (vss !!.) with
                  | Some vs => if s_mumble vs =? 0 then m else <[s_mumble vs := pid]> m
                  | None => m
                  end) ∅ (merge_sort Z.le (elements (dom (v_sessions vr)))).

Definition roster_entry_of (gawk : gmap Z Z) (u : voice_User) : VoiceRosterEntry.VoiceRosterEntry :=
  let '(kind, pid) := match gawk !! u_session u with
                      | Some pid => (RoomVoiceKindGawk, pid)
                      | None => (RoomVoiceKindMumble, 0)
                      end in
  Build_VoiceRosterEntry (u_session u) kind pid (Z.land (u_flags u) voiceUserFlagMask)
    (TruncateVoiceName (u_name u)).

Definition voiceRosterEventLocked (m : room) (vss : gmap nat VoiceSession) (sq : Z) : RoomEvent :=
  let ev flags roster := Build_RoomEvent sq RoomEventVoiceRosterUpdated zero_participant
                           zero_attachment 0 0 [] [] [] flags roster in
  match r_voice m with
  | Some vr =>
      if negb (v_available vr) then ev 0 [] else
      ev RoomVoiceRosterFlagAvailable
         (map (roster_entry_of (gawk_sessions vr vss))
            (take (Z.to_nat MaxVoiceRosterEntries) (v_users vr)))
  | None => ev 0 []
  end.

Definition voiceRosterRecordLocked (rm : nat) (sq : Z) : St (option bytes) :=
  m ← get_room rm;
  vss ← gets g_vsessions;
  match AppendRoomEvent unicode_upper [] (voiceRosterEventLocked m vss sq) with
  | Ok rec => mret (frame rec)
  | _ => mret None
  end.

Definition sendVoiceRosterToLocked (rm p : nat) : St unit :=
  m ← get_room rm;
  pt ← get_part p;
  match r_voice m with
  | Some _ =>
      if negb (p_wantVoice pt) then skip else
      rec ← voiceRosterRecordLocked rm (r_seq m);
      match rec with Some _ => enqueueLocked p rec | None => skip end
  | None => skip
  end.

Definition upd_voice (rm : nat) (f : voiceRoom → voiceRoom) : St unit :=
  upd_room rm (set_r_voice (option_map f)).

Definition pushVoiceRosterLocked (rm : nat) : St unit :=
  m ← get_room rm;
  match r_voice m with
  | None => skip
  | Some vr =>
      key ← voiceRosterRecordLocked rm 0;
      match key with
      | None => skip
      | Some k =>
          if bool_decide (k = v_lastRoster vr) then skip else
          _ ← upd_voice rm (set_v_lastRoster (λ _, k));
          rec ← voiceRosterRecordLocked rm (r_seq m);
          forM (map_to_list (r_participants m))
            (λ '(_, p), pt ← get_part p; if p_wantVoice pt then enqueueLocked p rec else skip)
      end
  end.

Definition resendStatesLocked (rm : nat) : St unit :=
  m ← get_room rm;
  forM (map_to_list (r_participants m))
    (λ '(_, p), rec ← stateRecordLocked unicode_upper obfuscate rm p; _ ← enqueueLocked p rec;
                sendVoiceRosterToLocked rm p).

(** ** Sessions *)

(** the session's entry goes when it is still the one registered *)
Definition endLocked (v : nat) (code : Z) (reason : bytes) : St voiceClose :=
  vs ← get_vs v;
  _ ← upd_vs v (set_s_closed (λ _, true));
  _ ← upd_voice (s_room vs) (λ vr,
        if (v_id vr =? s_vr vs) && bool_decide (v_sessions vr !! s_pid vs = Some v)
        then set_v_sessions (delete (s_pid vs)) vr else vr);
  mret (v, code, reason).
Fixpoint endAll (l : list nat) (code : Z) (reason : bytes) : St (list voiceClose) :=
  match l with
  | [] => mret []
  | v :: l' => c ← endLocked v code reason; cs ← endAll l' code reason; mret (c :: cs)
  end.
Definition closeVoiceSessionsLocked (rm : nat) (code : Z) (reason : bytes) : St (list voiceClose) :=
  m ← get_room rm;
  match r_voice m with
  | None => mret []
  | Some vr => endAll (map snd (map_to_list (v_sessions vr))) code reason
  end.
Definition closeParticipantVoiceLocked (rm : nat) (pid code : Z) (reason : bytes)
    : St (list voiceClose) :=
  m ← get_room rm;
  match r_voice m ≫= (λ vr, v_sessions vr !! pid) with
  | None => mret []
  | Some v => c ← endLocked v code reason; _ ← pushVoiceRosterLocked rm; mret [c]
  end.

Definition newVoiceRoomLocked (mu : MumbleIntegration) : St voiceRoom :=
  _ ← modify (set_g_voiceSeq (λ s, uint64 (s + 1)));
  sq ← gets g_voiceSeq;
  mret (MkVoiceRoom sq (m_channel mu) (m_temporary mu) false false [] [] [] ∅ []).

Definition notifyVoiceChanged : St unit :=
  if HasOnVoiceChanged opts then emit OnVoiceChanged else skip.

Definition applyMumbleLocked (rm : nat) (mu : option MumbleIntegration) : St (bool * list voiceClose) :=
  m ← get_room rm;
  let prev := r_mumble m in
  _ ← upd_room rm (set_r_mumble (λ _, mu));
  let want := if VoiceEnabled opts then mu else None in
  match r_voice m, want with
  | None, None => mret (false, [])
  | None, Some w =>
      vr ← newVoiceRoomLocked w;
      _ ← upd_room rm (set_r_voice (λ _, Some vr));
      _ ← resendStatesLocked rm;
      mret (true, [])
  | Some _, None =>
      closes ← closeVoiceSessionsLocked rm CloseCodeVoiceRemoved voiceReasonVoiceOff;
      _ ← upd_room rm (set_r_voice (λ _, None));
      _ ← resendStatesLocked rm;
      mret (true, closes)
  | Some _, Some w =>
      if bool_decide (prev = mu) then mret (false, []) else
      closes ← closeVoiceSessionsLocked rm CloseCodeVoiceUnavailable voiceReasonRemapped;
      vr ← newVoiceRoomLocked w;
      _ ← upd_room rm (set_r_voice (λ _, Some vr));
      _ ← pushVoiceRosterLocked rm;
      mret (true, closes)
  end.

Definition voice_dynamic (g : Registry) (rm : nat) : bool :=
  match g_heap g !! rm with
  | Some m => bool_decide (r_kind m = KindDynamic) && bool_decide (is_Some (r_voice m))
  | None => false
  end.
Definition voiceDynamicCountLocked (g : Registry) : Z :=
  zlen (List.filter (λ '(_, rm), voice_dynamic g rm) (map_to_list (g_rooms g))).

(** ** VoiceJoin

    [epoch] is what epochFor answers for the room and [nonce] what NewNonce
    drew, [None] when it failed. *)
Definition voice_unsupported : bytes := str "unsupported command"%string.
Definition voice_no_voice : bytes := str "this room has no voice"%string.
Definition voice_full : bytes := str "voice is full"%string.
Definition voice_unavailable : bytes := str "voice is unavailable right now"%string.

Definition voiceJoin (p : nat) (epoch : option Z) (nonce : option bytes) (now : Z) : St unit :=
  let cmd := RoomCommandVoiceJoin in
  let reject_ := reject_ unicode_upper p cmd in
  if negb (VoiceEnabled opts) then reject_ RoomRejectUnsupported voice_unsupported else
  match nonce with
  | None => reject_ RoomRejectUnavailable voice_unavailable
  | Some nonce =>
      pt ← get_part p;
      m ← get_room (p_room pt);
      if r_ended m then skip else
      match r_voice m with
      | None => reject_ RoomRejectUnsupported voice_no_voice
      | Some vr =>
          if bool_decide (v_sessions vr !! p_id pt = None) &&
             (Z.of_nat (size (v_sessions vr)) >=? VoiceMaxUsersPerRoom opts)
          then reject_ RoomRejectLimit voice_full
          else match (if v_available vr then epoch else None) with
          | None => reject_ RoomRejectUnavailable voice_unavailable
          | Some epoch =>
              let t := Ticket.MkTicket (r_code m) (p_id pt) (p_nick pt) nonce epoch (now + TicketTTL) in
              match Ticket.MintTicket hmac_sha256 (VoiceTicketSecret opts) t with
              | Ok ticket =>
                  match AppendRoomEvent unicode_upper []
                          (Build_RoomEvent (r_seq m) RoomEventVoiceTicket zero_participant
                             zero_attachment 0 0 [] (VoicePublicURL opts) ticket 0 []) with
                  | Ok rec => enqueueLocked p (frame rec)
                  | _ => reject_ RoomRejectUnavailable voice_unavailable
                  end
              | _ => reject_ RoomRejectUnavailable voice_unavailable
              end
          end
      end
  end.

(** ** The session link *)

(** forgets the nonces whose tickets have expired *)
Definition pruneNoncesLocked (now : Z) : St unit :=
  modify (set_g_voiceNonces (filter (λ kv, now < snd kv))).

Record VoiceAccepted := MkAccepted {
  va_code : bytes; va_display : bytes; va_channel : bytes; va_temporary : bool;
}.

(** [norm] is NormalizeCode of the link's path; [epoch] what epochFor answers *)
Definition RegisterVoice (norm : option bytes) (raw : bytes) (remote : bytes) (epoch : option Z)
    (now : Z) : St (outcome voice_error (nat * VoiceAccepted)) :=
  if negb (VoiceEnabled opts) then mret (Err ErrVoiceNotLive) else
  match norm with
  | None => mret (Err ErrVoiceWrongRoom)
  | Some norm =>
  match Ticket.VerifyTicket hmac_sha256 (VoiceTicketSecret opts) raw now with
  | Fault => mret Fault
  | Err Ticket.ErrTicketExpired => mret (Err ErrVoiceTicketExpired)
  | Err Ticket.ErrBadTicket => mret (Err ErrVoiceBadTicket)
  | Ok t =>
  if negb (bool_decide (Ticket.Code t = norm)) then mret (Err ErrVoiceWrongRoom) else
  if negb (bool_decide (epoch = Some (Ticket.Epoch t))) then mret (Err ErrVoiceEpoch) else
  _ ← pruneNoncesLocked now;
  used ← gets (λ g, g_voiceNonces g !! Ticket.Nonce t);
  if bool_decide (is_Some used) then mret (Err ErrVoiceReplay) else
  found ← gets (λ g, g_rooms g !! norm);
  match found with
  | None => mret (Err ErrVoiceNotLive)
  | Some rm =>
  m ← get_room rm;
  if r_ended m then mret (Err ErrVoiceNotLive) else
  match r_participants m !! Ticket.Participant t with
  | None => mret (Err ErrVoiceNoParticipant)
  | Some _ =>
  match r_voice m with
  | None => mret (Err ErrVoiceNotLive)
  | Some vr =>
  let older := v_sessions vr !! Ticket.Participant t in
  if bool_decide (older = None) && (Z.of_nat (size (v_sessions vr)) >=? VoiceMaxUsersPerRoom opts)
  then mret (Err ErrVoiceFull) else
  _ ← modify (set_g_voiceNonces (<[Ticket.Nonce t := Ticket.Expiry t]>));
  closes ← match older with
           | Some o => c ← endLocked o CloseCodeVoiceRemoved voiceReasonReplaced; mret [c]
           | None => mret []
           end;
  v ← new;
  _ ← modify (set_g_vsessions (<[v := MkVoiceSession rm (v_id vr) (Ticket.Participant t) remote 0 [] false]>));
  _ ← upd_voice rm (set_v_sessions (<[Ticket.Participant t := v]>));
  _ ← pushVoiceRosterLocked rm;
  _ ← runVoiceCloses closes;
  mret (Ok (v, MkAccepted (r_code m) (r_display m) (v_channel vr) (v_temporary vr)))
  end end end end end.

Definition Joined (v : nat) (session : Z) (name : bytes) : St unit :=
  vs ← get_vs v;
  m ← get_room (s_room vs);
  if s_closed vs || r_ended m then skip else
  _ ← upd_vs v (λ x, set_s_name (λ _, name) (set_s_mumble (λ _, session) x));
  pushVoiceRosterLocked (s_room vs).

Definition State (v : nat) (session flags : Z) : St unit :=
  vs ← get_vs v;
  m ← get_room (s_room vs);
  let same := match r_voice m with Some vr => v_id vr =? s_vr vs | None => false end in
  if s_closed vs || r_ended m || negb same then skip else
  let session := if session =? 0 then s_mumble vs else session in
  _ ← upd_voice (s_room vs) (set_v_users (map (λ u,
        if u_session u =? session then MkUser (u_session u) (u_name u) flags else u)));
  pushVoiceRosterLocked (s_room vs).

Definition Left (v : nat) : St unit :=
  vs ← get_vs v;
  if s_closed vs then skip else
  _ ← endLocked v 0 [];
  m ← get_room (s_room vs);
  if r_ended m then skip else pushVoiceRosterLocked (s_room vs).

(** [banned] answers for a valid address *)
Fixpoint close_banned (l : list nat) (banned : bytes → bool) : St (list voiceClose) :=
  match l with
  | [] => mret []
  | v :: l' =>
      vs ← get_vs v;
      c ← (if negb (zlen (s_remote vs) =? 0) && banned (s_remote vs)
           then c ← endLocked v CloseCodeVoiceRemoved voiceReasonBanned; mret [c] else mret []);
      cs ← close_banned l' banned;
      mret (c ++ cs)
  end.
Fixpoint close_banned_rooms (l : list nat) (banned : bytes → bool) (closes : list voiceClose)
    : St (list voiceClose) :=
  match l with
  | [] => mret closes
  | rm :: l' =>
      m ← get_room rm;
      match r_voice m with
      | None => close_banned_rooms l' banned closes
      | Some vr =>
          cs ← close_banned (map snd (map_to_list (v_sessions vr))) banned;
          let closes := closes ++ cs in
          _ ← (if (0 <? zlen closes) then pushVoiceRosterLocked rm else skip);
          close_banned_rooms l' banned closes
      end
  end.
Definition CloseVoiceIn (banned : bytes → bool) : St Z :=
  rms ← gets (λ g, map snd (map_to_list (g_rooms g)));
  closes ← close_banned_rooms rms banned [];
  _ ← runVoiceCloses closes;
  mret (zlen closes).

(** ** The observer link *)

Definition voiceRoomLocked (code : bytes) (id : Z) : St (option nat) :=
  found ← gets (λ g, g_rooms g !! code);
  match found with
  | None => mret None
  | Some rm =>
      m ← get_room rm;
      match r_voice m with
      | Some vr => if r_ended m || negb (v_id vr =? id) then mret None else mret (Some rm)
      | None => mret None
      end
  end.

Definition ApplyVoiceRoster (code : bytes) (id : Z) (available : bool) (reason : bytes)
    (problems : list bytes) (users : list voice_User) : St unit :=
  found ← voiceRoomLocked code id;
  match found with
  | None => skip
  | Some rm =>
      _ ← upd_voice rm (λ vr,
            set_v_linkUp (λ _, true) (set_v_available (λ _, available) (set_v_reason (λ _, reason)
              (set_v_problems (λ _, problems) (set_v_users (λ _, if available then users else []) vr)))));
      pushVoiceRosterLocked rm
  end.
Definition VoiceObserverDown (code : bytes) (id : Z) (reason : bytes) : St unit :=
  found ← voiceRoomLocked code id;
  match found with
  | None => skip
  | Some rm =>
      _ ← upd_voice rm (λ vr,
            set_v_linkUp (λ _, false) (set_v_available (λ _, false) (set_v_users (λ _, [])
              (set_v_reason (λ _, reason) vr))));
      pushVoiceRosterLocked rm
  end.
End Voice.
