(* ===== verification/RegOps.v ===== *)
(** internal/roomsrv/registry.go: the operations of the room registry. Each is
    what runs under the mutex, with what it then does after the unlock; an
    operation that unlocks between two of its steps is split there
    ([grace_expired] / [EndRoom], [attach_check] / [attach_commit],
    [mint_check] / [mint_commit]). [now] is the clock, [bs] the hub's answer
    about a broadcast. *)
From S2P Require Export RegVoice RoomCode.
#[local] Open Scope Z_scope.
Import RoomEvent(RoomEvent) RoomCommand(RoomCommand) RoomHello(RoomHello).

Definition RoomDetachReasonPublisher := 0.
Definition RoomDetachReasonCreator := 1.
Definition RoomDetachReasonExpired := 2.
Definition CloseCodeRoomEnded := 4007.

Inductive reg_error :=
  | ErrNotFound | ErrForbidden | ErrFull | ErrMaxRooms | ErrMaxBroadcasts | ErrAlreadyAttached
  | ErrUnavailable | errCollision | ErrInvalidCode | ErrMint.

Record Tokens := MkTokens {
  MintCreator : bytes → bytes;
  VerifyCreator : bytes → bytes → bool;
  VerifyResume : bytes → bytes → bool;
}.

Definition NewRegistry : Registry := MkRegistry ∅ ∅ ∅ ∅ ∅ 0 ∅ ∅ 0 [].
(** the options as NewRegistry completes them *)
Definition with_default (v d : Z) : Z := if v <=? 0 then d else v.
Definition NewOptions (o : Options) : Options :=
  MkOptions (with_default (EmptyGrace o) DefaultEmptyGrace) (with_default (MaxRooms o) DefaultMaxRooms)
    (with_default (MaxBroadcasts o) DefaultMaxBroadcasts)
    (with_default (MaxParticipants o) DefaultMaxParticipants) (CreateSecret o) (UnknownIsExpired o)
    (HasOnEvent o) (HasOnRoomEnded o) (HasOnRoomEmpty o) (HasOnAttachmentsChanged o)
    (HasOnVoiceChanged o) (HasUnreserve o) (VoiceEnabled o) (VoicePublicURL o) (VoiceTicketSecret o)
    (with_default (VoiceMaxRooms o) DefaultVoiceMaxRooms)
    (with_default (VoiceMaxUsersPerRoom o) DefaultVoiceMaxUsersPerRoom).

(** ** Slots: the map a room's attachments are recorded in *)
Definition is_wall (m : room) : bool := negb (bool_decide (r_pop m = [])).
Definition slots (wall : bool) (g : Registry) : gmap bytes bytes :=
  if wall then g_walls g else g_attached g.
Definition upd_slots (wall : bool) (f : gmap bytes bytes → gmap bytes bytes) : St unit :=
  modify (if wall then set_g_walls f else set_g_attached f).
(** the rooms [id] is attached to: its ordinary room and its party wall *)
Definition roomsOfLocked (id : bytes) : St (list nat) :=
  gets (λ g, omap (λ m : gmap bytes bytes, m !! id ≫= (g_rooms g !!.)) [g_attached g; g_walls g]).

Definition dynamicCountLocked (g : Registry) : Z :=
  zlen (List.filter (λ '(_, rm), bool_decide (r_kind (default zero_room (g_heap g !! rm)) = KindDynamic))
          (map_to_list (g_rooms g))).

Section Registry.
Context (opts : Options) (tokens : option Tokens).
Context (unicode_upper unicode_lower obfuscate fingerprint : bytes → bytes).
Context (hmac_sha256 : bytes → bytes → bytes).
#[local] Notation broadcastLocked := (broadcastLocked opts unicode_upper).
#[local] Notation reject_ := (reject_ unicode_upper).
#[local] Notation NormalizeCode := (NormalizeCode unicode_lower).
#[local] Notation NormalizeID := (BroadcastID.Normalize unicode_upper).
#[local] Notation applyMumbleLocked := (applyMumbleLocked opts unicode_upper obfuscate).
#[local] Notation closeParticipantVoiceLocked := (closeParticipantVoiceLocked unicode_upper).

Definition Has (g : Registry) (code : bytes) : bool :=
  match NormalizeCode code with
  | None => false
  | Some norm => bool_decide (is_Some (g_rooms g !! norm))
  end.

(** ** Names *)

Definition nicks_but (g : Registry) (m : room) (self : Z) : list bytes :=
  map (λ '(_, p), p_nick (default zero_part (g_parts g !! p)))
      (List.filter (λ '(id, _), negb (id =? self)) (map_to_list (r_participants m))).
Definition uniqueNickLocked (rm : nat) (nick : bytes) (self : Z) : St bytes :=
  m ← get_room rm;
  others ← gets (λ g, nicks_but g m self);
  mret (default [] (uniqueNick (S (length others)) others nick self)).

Definition labels_but (m : room) (self : bytes) : list bytes :=
  map a_label (List.filter (λ a, negb (bool_decide (a_id a = self))) (r_attachments m)).
Definition uniqueLabelLocked (m : room) (label self : bytes) : bytes :=
  let others := labels_but m self in default [] (uniqueLabel (S (length others)) others label).

(** ** Attachments *)

Definition attachLocked (rm : nat) (id label : bytes) (state : BroadcastState) (owner now : Z)
    : St attachment :=
  m ← get_room rm;
  let label := uniqueLabelLocked m label id in
  let a := MkAttachment id label (bs_live state) (bs_viewers state) now owner in
  _ ← upd_room rm (set_r_attachments (λ l, l ++ [a]));
  _ ← upd_slots (is_wall m) (<[id := r_code m]>);
  _ ← (if bool_decide (r_kind m = KindStatic) && negb (r_openedPublished m) then
         _ ← upd_room rm (set_r_openedPublished (λ _, true)); busRoomOpenedLocked opts rm now
       else skip);
  _ ← busAttachedLocked opts rm a now;
  mret a.

(** the first attachment of that ID *)
Fixpoint remove_first (id : bytes) (l : list attachment) : list attachment :=
  match l with
  | [] => []
  | a :: l' => if bool_decide (a_id a = id) then l' else a :: remove_first id l'
  end.
Definition removeAttachmentLocked (rm : nat) (id : bytes) (reason now : Z) : St unit :=
  m ← get_room rm;
  _ ← upd_room rm (set_r_attachments (remove_first id));
  _ ← upd_slots (is_wall m) (delete id);
  broadcastLocked rm (attachment_event RoomEventAttachmentRemoved (only_broadcast id) reason) 0 now.

(** the loop of [rekindLocked] over the tiles: those kept and those gone, and
    the two maps after it *)
Fixpoint rekind_loop (code : bytes) (l : list attachment) (from to : gmap bytes bytes)
    : list attachment * list attachment * gmap bytes bytes * gmap bytes bytes :=
  match l with
  | [] => ([], [], from, to)
  | a :: l' =>
      let from := delete (a_id a) from in
      let taken := match to !! a_id a with Some other => negb (bool_decide (other = code)) | None => false end in
      if taken then
        let '(keep, gone, from, to) := rekind_loop code l' from to in (keep, a :: gone, from, to)
      else
        let '(keep, gone, from, to) := rekind_loop code l' from (<[a_id a := code]> to) in
        (a :: keep, gone, from, to)
  end.
Definition rekindLocked (rm : nat) (pop : bytes) (now : Z) : St unit :=
  m ← get_room rm;
  let wall := is_wall m in
  _ ← upd_room rm (set_r_pop (λ _, pop));
  m' ← get_room rm;
  from ← gets (slots wall);
  to ← gets (slots (is_wall m'));
  let '(keep, gone, from, to) := rekind_loop (r_code m) (r_attachments m) from to in
  _ ← upd_slots wall (λ _, from);
  _ ← upd_slots (is_wall m') (λ _, to);
  _ ← upd_room rm (set_r_attachments (λ _, keep));
  forM gone (λ a, broadcastLocked rm
    (attachment_event RoomEventAttachmentRemoved (only_broadcast (a_id a)) RoomDetachReasonPublisher) 0 now).

(** the hook, after the unlock *)
Definition notifyAttachments (rm : nat) : St unit :=
  if negb (HasOnAttachmentsChanged opts) then skip else
  m ← get_room rm;
  if r_ended m then skip
  else emit (OnAttachmentsChanged (r_code m)
               (map (λ a, (a_id a, a_label a, a_attachedAt a)) (r_attachments m))).

(** ** The empty grace *)

Definition startEmptyGraceLocked (rm : nat) (now : Z) : St unit :=
  m ← get_room rm;
  if negb (bool_decide (r_kind m = KindDynamic)) || r_ended m || r_emptyTimer m then skip else
  _ ← upd_room rm (λ m, set_r_emptyTimer (λ _, true) (set_r_emptyGen (λ n, uint64 (n + 1))
                         (set_r_emptySince (λ _, now) m)));
  m ← get_room rm;
  emit (AfterFunc (r_code m) rm (r_emptyGen m) (now + EmptyGrace opts)).
Definition clearEmptyGraceLocked (rm : nat) : St bool :=
  m ← get_room rm;
  if negb (r_emptyTimer m) then mret false else
  _ ← upd_room rm (λ m, set_r_emptyTimer (λ _, false) (set_r_emptySince (λ _, 0) m));
  mret true.
(** the timer's callback, up to its unlock *)
Definition grace_expired (g : Registry) (code : bytes) (rm : nat) (gen : Z) : bool :=
  let m := default zero_room (g_heap g !! rm) in
  bool_decide (g_rooms g !! code = Some rm) && bool_decide (r_participants m = ∅) &&
  r_emptyTimer m && (r_emptyGen m =? gen).

(** ** Leaving and closing *)

Definition Leave (p : nat) (now : Z) : St unit :=
  pt ← get_part p;
  if p_left pt then skip else
  _ ← upd_part p (set_p_left (λ _, true));
  let rm := p_room pt in
  m ← get_room rm;
  closes ← (if bool_decide (r_participants m !! p_id pt = Some p) then
    _ ← upd_room rm (set_r_participants (delete (p_id pt)));
    closes ← closeParticipantVoiceLocked rm (p_id pt) CloseCodeServerDraining voiceReasonLeft;
    _ ← broadcastLocked rm (participant_event RoomEventParticipantLeft (only_id (p_id pt))) 0 now;
    _ ← busParticipantLeftLocked opts rm p now;
    mret closes
  else mret []);
  m ← get_room rm;
  let nowEmpty := negb (r_ended m) && bool_decide (r_participants m = ∅) in
  _ ← (if nowEmpty then startEmptyGraceLocked rm now else skip);
  _ ← upd_part p (set_p_closed (λ _, true));
  _ ← (if nowEmpty && bool_decide (r_kind m = KindDynamic) && HasOnRoomEmpty opts
       then emit (OnRoomEmpty (r_code m) true) else skip);
  runVoiceCloses closes.

Definition closeAfterDrain (p : nat) (code : Z) (reason : bytes) (now : Z) : St unit :=
  _ ← upd_part p (λ x, set_p_closeReason (λ _, reason) (set_p_closeCode (λ _, code) x));
  pt ← get_part p;
  if zlen (p_outbox pt) <? outboxDepth then upd_part p (set_p_outbox (λ q, q ++ [None]))
  else _ ← emit (ConnClose p code reason); Leave p now.

(** one round of a participant's [writeLoop]; [ok]: its Write succeeds *)
Definition writeLoop (p : nat) (ok : bool) (now : Z) : St unit :=
  pt ← get_part p;
  if p_closed pt then skip else
  match p_outbox pt with
  | [] => skip
  | rec :: q =>
      _ ← upd_part p (set_p_outbox (λ _, q));
      match rec with
      | None => _ ← emit (ConnClose p (p_closeCode pt) (p_closeReason pt)); Leave p now
      | Some rec =>
          if ok then emit (ConnWrite p rec)
          else emit (ConnClose p 500 (str "control write failed"%string))
      end
  end.

Definition EndRoom (code : bytes) (reason now : Z) : St unit :=
  match NormalizeCode code with
  | None => skip
  | Some norm =>
  found ← gets (λ g, g_rooms g !! norm);
  match found with
  | None => skip
  | Some rm =>
  m ← get_room rm;
  if r_ended m then skip else
  _ ← upd_room rm (λ x, set_r_leaveReason (λ l, if bool_decide (l = LeftUnset) then LeftRoomEnded else l)
                         (set_r_ended (λ _, true) x));
  _ ← clearEmptyGraceLocked rm;
  _ ← modify (set_g_rooms (delete norm));
  _ ← upd_slots (is_wall m) (λ s, foldl (λ s a, delete (a_id a) s) s (r_attachments m));
  _ ← broadcastLocked rm (attachment_event RoomEventRoomEnding zero_attachment reason) 0 now;
  _ ← busRoomClosedLocked opts rm reason now;
  m ← get_room rm;
  let parts := map snd (map_to_list (r_participants m)) in
  closes ← (if r_releasing m
            then closeVoiceSessionsLocked rm CloseCodeServerDraining voiceReasonRoomMoved
            else closeVoiceSessionsLocked rm CloseCodeVoiceRemoved voiceReasonRoomEnded);
  let hadVoice := bool_decide (is_Some (r_voice m)) in
  _ ← runVoiceCloses closes;
  _ ← (if hadVoice then notifyVoiceChanged opts else skip);
  _ ← forM parts (λ p, closeAfterDrain p CloseCodeRoomEnded (str "room ended"%string) now);
  if HasOnRoomEnded opts then emit (OnRoomEnded norm reason) else skip
  end end.

(** the timer's callback, nothing running between its two critical sections *)
Definition grace_fire (code : bytes) (rm : nat) (gen now : Z) : St unit :=
  expired ← gets (λ g, grace_expired g code rm gen);
  if expired : bool then EndRoom code RoomEndReasonEmpty now else skip.

Definition ReleaseHome (code : bytes) : St unit :=
  found ← gets (λ g, g_rooms g !! code);
  match found with
  | None => skip
  | Some rm => upd_room rm (λ x, set_r_leaveReason (λ _, LeftHomeMoved) (set_r_releasing (λ _, true) x))
  end.

(** ** Joining *)

Definition participantLimit (m : room) : Z :=
  if r_maxParticipants m >? 0 then r_maxParticipants m else MaxParticipants opts.

(** [resolved]: what the AttachSecret resolver answers, when there is one: an
    error, or the secret it found *)
Definition CheckJoin (code creatorToken attachSecret : bytes) (haveAttachSecret : bool)
    (resolved : option (outcome unit (option bytes))) (g : Registry) : outcome reg_error Grants :=
  match NormalizeCode code with
  | None => Err ErrNotFound
  | Some norm =>
  secret ← match (if haveAttachSecret then resolved else None) with
           | Some (Ok found) => Ok found
           | Some _ => Err ErrUnavailable
           | None => Ok None
           end;
  match g_rooms g !! norm with
  | None => Err ErrNotFound
  | Some rm =>
  let m := default zero_room (g_heap g !! rm) in
  reject r_ended m with ErrNotFound;
  let found := bool_decide (is_Some secret) in
  let expected := default (r_attachSecret m) secret in
  reject is_wall m && haveAttachSecret with ErrForbidden;
  creator ← (if bool_decide (creatorToken = []) then Ok false else
             match decodeHex creatorToken, tokens with
             | Some tok, Some tk => if VerifyCreator tk norm tok then Ok true else Err ErrForbidden
             | _, _ => Err ErrForbidden
             end);
  attachOK ← (if is_wall m then Ok false
              else if bool_decide (r_kind m = KindDynamic) then Ok true
              else if bool_decide (expected = []) && negb found then Ok true
              else if haveAttachSecret then
                reject bool_decide (expected = []) || negb (bool_decide (attachSecret = expected))
                  with ErrForbidden;
                Ok true
              else Ok false);
  reject Z.of_nat (size (r_participants m)) >=? participantLimit m with ErrFull;
  Ok (MkGrants creator attachOK None)
  end end.

(** the search for a participant ID: 65536 rounds see every one, so [None] is
    the loop that never ends, under the mutex *)
Definition next_pid (m : room) : option Z :=
  pid_loop (Z.to_nat 65536) (elements (dom (r_participants m))) (r_nextPID m).

Definition Join (code : bytes) (hello : RoomHello) (grants : Grants) (creatorToken : bytes) (now : Z)
    : St (outcome reg_error nat) :=
  match NormalizeCode code with
  | None => mret (Err ErrNotFound)
  | Some norm =>
  found ← gets (λ g, g_rooms g !! norm);
  match found with
  | None => mret (Err ErrNotFound)
  | Some rm =>
  m ← get_room rm;
  if r_ended m then mret (Err ErrNotFound) else
  if Z.of_nat (size (r_participants m)) >=? participantLimit m then mret (Err ErrFull) else
  match next_pid m with
  | None => mret Fault
  | Some pid =>
  _ ← upd_room rm (set_r_nextPID (λ _, let n := uint16 (pid + 1) in if n =? 0 then 1 else n));
  nick ← uniqueNickLocked rm (RoomHello.Nickname hello) pid;
  p ← new;
  _ ← modify (set_g_parts (<[p := MkParticipant rm pid (RoomHello.ClientKind hello) nick [] grants
               (has_flag (RoomHello.WantCaps hello) RoomCapVoice) creatorToken [] false false
               LeftUnset 0 []]>));
  _ ← upd_room rm (set_r_participants (<[pid := p]>));
  wasEmpty ← clearEmptyGraceLocked rm;
  joined ← recordLocked p;
  _ ← broadcastLocked rm (participant_event RoomEventParticipantJoined joined) pid now;
  rec ← stateRecordLocked unicode_upper obfuscate rm p;
  _ ← enqueueLocked p rec;
  _ ← sendVoiceRosterToLocked unicode_upper rm p;
  _ ← upd_part p (set_p_firstState (λ _, []));
  _ ← upd_room rm (set_r_voiceOnly (λ _, false));
  _ ← (if (wasEmpty : bool) && HasOnRoomEmpty opts then emit (OnRoomEmpty norm false) else skip);
  mret (Ok p)
  end end end.

(** ** Commands *)

Definition broadcast_limit (m : room) : Z :=
  if r_maxBroadcasts m <=? 0 then MaxBroadcasts opts else r_maxBroadcasts m.

(** what [attach] decides before it takes the mutex: a rejection, or that the
    broadcast is proven, with its state *)
Definition attach_check (g : Registry) (p : nat) (id token : bytes) (bs : bytes → option BroadcastState)
    : Z * bytes + BroadcastState :=
  let pt := default zero_part (g_parts g !! p) in
  let m := default zero_room (g_heap g !! p_room pt) in
  if is_wall m then inl (RoomRejectForbidden, str "the party wall takes broadcasts from its PoP only"%string) else
  if negb (AttachOK (p_grants pt)) then inl (RoomRejectForbidden, str "attach key required"%string) else
  let proven := match tokens with Some tk => VerifyResume tk id token | None => false end in
  let byVouch := negb proven &&
    match VouchedBy (p_grants pt) with
    | Some vouched => match NormalizeID id with Some id => vouched id | None => false end
    | None => false
    end in
  if negb proven && negb byVouch then inl (RoomRejectBadProof, str "resume token does not match"%string) else
  match bs id with
  | None => if byVouch then inr (MkBState false 0)
            else inl (RoomRejectNotFound, str "broadcast not found"%string)
  | Some st => inr st
  end.

(** an update of the attachment of that ID *)
Definition upd_attachment (rm : nat) (id : bytes) (f : attachment → attachment) : St unit :=
  upd_room rm (set_r_attachments (map (λ a, if bool_decide (a_id a = id) then f a else a))).
Definition announce_attachment (rm : nat) (kind : Z) (id : bytes) (now : Z) : St unit :=
  m ← get_room rm;
  match find_att m id with
  | Some a => broadcastLocked rm (attachment_event kind (record a) 0) 0 now
  | None => skip
  end.
Definition announce_participant (rm p : nat) (now : Z) : St unit :=
  rec ← recordLocked p;
  broadcastLocked rm (participant_event RoomEventParticipantUpdated rec) 0 now.

(** the rest of [attach], under the mutex *)
Definition attach_commit (p : nat) (id label : bytes) (state : BroadcastState) (now : Z) : St unit :=
  pt ← get_part p;
  let rm := p_room pt in
  m ← get_room rm;
  if r_ended m then skip else
  other ← gets (λ g, g_attached g !! id);
  if match other with Some o => negb (bool_decide (o = r_code m)) | None => false end
  then reject_ p RoomCommandAttach RoomRejectAlreadyAttached (str "broadcast is in another room"%string)
  else match find_att m id with
  | Some existing =>
      _ ← upd_attachment rm id (set_a_owner (λ _, p_id pt));
      _ ← (if negb (bool_decide (label = [])) then
             m ← get_room rm;
             upd_attachment rm id (set_a_label (λ _, uniqueLabelLocked m label id))
           else skip);
      _ ← upd_attachment rm id (λ a, set_a_viewers (λ _, bs_viewers state)
                                       (set_a_live (λ _, bs_live state) a));
      _ ← announce_attachment rm RoomEventAttachmentUpdated id now;
      _ ← announce_participant rm p now;
      notifyAttachments rm
  | None =>
      if zlen (r_attachments m) >=? broadcast_limit m
      then reject_ p RoomCommandAttach RoomRejectLimit (str "room has no free broadcast slot"%string)
      else
      a ← attachLocked rm id label state (p_id pt) now;
      _ ← broadcastLocked rm (attachment_event RoomEventAttachmentAdded (record a) 0) 0 now;
      _ ← announce_participant rm p now;
      notifyAttachments rm
  end.
Definition attach (p : nat) (id label token : bytes) (bs : bytes → option BroadcastState) (now : Z) : St unit :=
  checked ← gets (λ g, attach_check g p id token bs);
  match checked with
  | inl (reason, msg) => reject_ p RoomCommandAttach reason msg
  | inr state => attach_commit p id label state now
  end.

(** tell the roster about an attachment's owner, when it is here *)
Definition announce_owner (rm : nat) (owner : option nat) (now : Z) : St unit :=
  match owner with
  | Some o => announce_participant rm o now
  | None => skip
  end.

Definition detach (p : nat) (id : bytes) (now : Z) : St unit :=
  pt ← get_part p;
  let rm := p_room pt in
  m ← get_room rm;
  if r_ended m then skip else
  match find_att m id with
  | None => reject_ p RoomCommandDetach RoomRejectNotFound (str "broadcast is not attached"%string)
  | Some a =>
      let own := a_owner a =? p_id pt in
      if negb own && negb (Creator (p_grants pt))
      then reject_ p RoomCommandDetach RoomRejectForbidden
             (str "only the attacher or the creator can detach"%string)
      else
      let reason := if own then RoomDetachReasonPublisher else RoomDetachReasonCreator in
      let owner := r_participants m !! a_owner a in
      _ ← removeAttachmentLocked rm id reason now;
      _ ← announce_owner rm owner now;
      notifyAttachments rm
  end.

Definition SetNickname (p : nat) (nick : bytes) (now : Z) : St unit :=
  pt ← get_part p;
  let rm := p_room pt in
  m ← get_room rm;
  if r_ended m then skip else
  nick ← uniqueNickLocked rm nick (p_id pt);
  _ ← upd_part p (set_p_nick (λ _, nick));
  announce_participant rm p now.

Definition Resync (p : nat) : St unit :=
  pt ← get_part p;
  m ← get_room (p_room pt);
  if r_ended m then skip else
  rec ← stateRecordLocked unicode_upper obfuscate (p_room pt) p;
  _ ← enqueueLocked p rec;
  sendVoiceRosterToLocked unicode_upper (p_room pt) p.

Definition HandleCommand (p : nat) (cmd : RoomCommand) (bs : bytes → option BroadcastState)
    (epoch : option Z) (nonce : option bytes) (now : Z) : St unit :=
  let kind := RoomCommand.Kind cmd in
  let with_id (k : bytes → St unit) :=
    match NormalizeID (RoomCommand.BroadcastID cmd) with
    | None => reject_ p kind RoomRejectNotFound (str "invalid broadcast id"%string)
    | Some id => k id
    end in
  if kind =? RoomCommandAttach then
    with_id (λ id, attach p id (RoomCommand.Label cmd) (RoomCommand.ResumeToken cmd) bs now)
  else if kind =? RoomCommandDetach then with_id (λ id, detach p id now)
  else if kind =? RoomCommandSetNickname then SetNickname p (RoomCommand.Nickname cmd) now
  else if kind =? RoomCommandEndRoom then
    pt ← get_part p;
    m ← get_room (p_room pt);
    if negb (Creator (p_grants pt)) || negb (bool_decide (r_kind m = KindDynamic))
    then reject_ p kind RoomRejectForbidden (str "only the creator can end a dynamic room"%string)
    else EndRoom (r_code m) RoomEndReasonCreator now
  else if kind =? RoomCommandResync then Resync p
  else if kind =? RoomCommandVoiceJoin then
    voiceJoin opts unicode_upper hmac_sha256 p epoch nonce now
  else reject_ p kind RoomRejectUnsupported (str "unsupported command"%string).

(** ** The party wall *)

(** the wall [code] names when it is [pop]'s *)
Definition wall_of (code pop : bytes) (g : Registry) : outcome reg_error nat :=
  match g_rooms g !! code with
  | None => Err ErrNotFound
  | Some rm =>
      let m := default zero_room (g_heap g !! rm) in
      reject r_ended m with ErrNotFound;
      reject negb (is_wall m) || negb (bool_decide (r_pop m = pop)) with ErrForbidden;
      Ok rm
  end.
Definition WallPop (code : bytes) (g : Registry) : option bytes :=
  match NormalizeCode code ≫= (g_rooms g !!.) with
  | Some rm => let m := default zero_room (g_heap g !! rm) in
               if r_ended m || negb (is_wall m) then None else Some (r_pop m)
  | None => None
  end.

Definition AttachVouched (code pop id label : bytes) (bs : bytes → option BroadcastState) (now : Z)
    : St (outcome reg_error unit) :=
  match NormalizeCode code, NormalizeID id with
  | Some norm, Some id =>
      let label := if negb (utf8_valid label) then [] else label in
      let label := truncate label MaxRoomLabelLen in
      let state := default (MkBState false 0) (bs id) in
      wall ← gets (wall_of norm pop);
      match wall with
      | Ok rm =>
          m ← get_room rm;
          other ← gets (λ g, g_walls g !! id);
          if match other with Some o => negb (bool_decide (o = r_code m)) | None => false end
          then mret (Err ErrAlreadyAttached)
          else match find_att m id with
          | Some existing =>
              _ ← (if negb (bool_decide (label = [])) && negb (bool_decide (label = a_label existing)) then
                     _ ← upd_attachment rm id (set_a_label (λ _, uniqueLabelLocked m label id));
                     announce_attachment rm RoomEventAttachmentUpdated id now
                   else skip);
              mret (Ok tt)
          | None =>
              if zlen (r_attachments m) >=? broadcast_limit m then mret (Err ErrMaxBroadcasts) else
              a ← attachLocked rm id label state 0 now;
              _ ← broadcastLocked rm (attachment_event RoomEventAttachmentAdded (record a) 0) 0 now;
              _ ← notifyAttachments rm;
              mret (Ok tt)
          end
      | Err e => mret (Err e)
      | Fault => mret Fault
      end
  | _, _ => mret (Err ErrNotFound)
  end.

Definition DetachVouched (code pop id : bytes) (now : Z) : St (outcome reg_error unit) :=
  match NormalizeCode code, NormalizeID id with
  | Some norm, Some id =>
      wall ← gets (wall_of norm pop);
      match wall with
      | Ok rm =>
          m ← get_room rm;
          match find_att m id with
          | None => mret (Err ErrNotFound)
          | Some _ =>
              _ ← removeAttachmentLocked rm id RoomDetachReasonPublisher now;
              _ ← notifyAttachments rm;
              mret (Ok tt)
          end
      | Err e => mret (Err e)
      | Fault => mret Fault
      end
  | _, _ => mret (Err ErrNotFound)
  end.

(** ** The hub's hooks and the refresh *)

Definition expire_in (id : bytes) (now : Z) (rm : nat) : St unit :=
  m ← get_room rm;
  match find_att m id with
  | None => skip
  | Some a =>
      let owner := r_participants m !! a_owner a in
      _ ← removeAttachmentLocked rm id RoomDetachReasonExpired now;
      announce_owner rm owner now
  end.
Definition BroadcastExpired (id : bytes) (now : Z) : St unit :=
  match NormalizeID id with
  | None => skip
  | Some norm =>
      rms ← roomsOfLocked norm;
      _ ← forM rms (expire_in norm now);
      forM rms notifyAttachments
  end.

Definition set_live_in (id : bytes) (live : bool) (now : Z) (rm : nat) : St unit :=
  m ← get_room rm;
  match find_att m id with
  | None => skip
  | Some a =>
      if Bool.eqb (a_live a) live then skip else
      _ ← upd_attachment rm id (set_a_live (λ _, live));
      announce_attachment rm RoomEventAttachmentUpdated id now
  end.
Definition setLive (id : bytes) (live : bool) (now : Z) : St unit :=
  match NormalizeID id with
  | None => skip
  | Some norm => rms ← roomsOfLocked norm; forM rms (set_live_in norm live now)
  end.
Definition PublisherClosed (id : bytes) (now : Z) : St unit := setLive id false now.

(** one probe of [Refresh], after the hub was asked *)
Definition refresh_one (bs : bytes → option BroadcastState) (now : Z) (probe : nat * bytes) : St unit :=
  let '(rm, id) := probe in
  match bs id with
  | None => if UnknownIsExpired opts then BroadcastExpired id now else skip
  | Some state =>
      m ← get_room rm;
      if r_ended m then skip else
      match find_att m id with
      | None => skip
      | Some a =>
          if Bool.eqb (bs_live state) (a_live a) && (bs_viewers state =? a_viewers a) then skip else
          _ ← upd_attachment rm id (λ a, set_a_viewers (λ _, bs_viewers state)
                                           (set_a_live (λ _, bs_live state) a));
          announce_attachment rm RoomEventAttachmentUpdated id now
      end
  end.
Definition probes (g : Registry) : list (nat * bytes) :=
  flat_map (λ '(_, rm), map (λ a, (rm, a_id a)) (r_attachments (default zero_room (g_heap g !! rm))))
    (map_to_list (g_rooms g)).
Definition Refresh (bs : bytes → option BroadcastState) (now : Z) : St unit :=
  ps ← gets probes;
  forM ps (refresh_one bs now).
End Registry.
