(* ===== verification/RegLife.v ===== *)
(** internal/roomsrv/registry.go: how rooms come to be. Static rooms from their
    definitions, dynamic rooms minted by a broadcaster or adopted from another
    pod, and the read-only views of the registry. *)
From S2P Require Export RegOps.
#[local] Open Scope Z_scope.

(** a static room's definition; an attachment is a broadcast ID and a label *)
Record StaticRoom := MkStatic {
  st_Code : bytes; st_DisplayCode : bytes; st_DisplayName : bytes; st_AttachSecret : bytes;
  st_MaxBroadcasts : Z; st_MaxParticipants : Z; st_Pop : bytes;
  st_Attachments : list (bytes * bytes); st_Mumble : option MumbleIntegration; st_VoiceOnly : bool;
}.
(** the fields of a Room resource that an adoption reads *)
Record RoomCR := MkCR {
  cr_Name : bytes; cr_DisplayCode : bytes; cr_Dynamic : bool; cr_Attachments : list (bytes * bytes);
  cr_Mumble : option MumbleIntegration; cr_Fingerprint : bytes; cr_CreatedAt : option Z;
  cr_LeaseHolder : option bytes;
}.
Record MintRequest := MkMint {
  mr_BroadcastID : bytes; mr_ResumeToken : bytes; mr_Label : bytes; mr_CreateSecret : bytes;
  mr_Voice : bool;
}.
Record MintResult := MkMinted {
  mi_Code : bytes; mi_Display : bytes; mi_CreatorToken : bytes; mi_Repeated : bool; mi_Voice : bool;
}.
(** what the cluster's reservation of a code answers *)
Inductive reserve_answer := Reserved | ReserveUnavailable | ReserveMaxRooms | ReserveTaken.
(** one round of [Mint]: a result, or another code *)
Inductive mint_round := Again | Done (o : outcome reg_error MintResult).

Record Info := MkInfo {
  in_Code : bytes; in_Kind : room_kind; in_HasSecret : bool; in_Participants : Z; in_Attachments : Z;
}.
Record Totals := MkTotals {
  t_Static : Z; t_Dynamic : Z; t_Participants : Z; t_Attachments : Z; t_VoiceLive : Z;
  t_VoiceSessions : Z;
}.

Section Life.
Context (opts : Options) (tokens : option Tokens).
Context (unicode_upper unicode_lower obfuscate fingerprint : bytes → bytes).
#[local] Notation NormalizeCode := (NormalizeCode unicode_lower).
#[local] Notation NormalizeID := (BroadcastID.Normalize unicode_upper).
#[local] Notation applyMumbleLocked := (applyMumbleLocked opts unicode_upper obfuscate).
#[local] Notation attachLocked := (attachLocked opts).
#[local] Notation notifyAttachments := (notifyAttachments opts).

(** the hub is asked about each attachment before the mutex is taken *)
Definition prefetchStates (l : list (bytes * bytes)) (bs : bytes → option BroadcastState)
    : list (bytes * bytes * BroadcastState) :=
  omap (λ '(id, label),
    match NormalizeID id with
    | None => None
    | Some id => Some (id, label, default (MkBState false 0) (bs id))
    end) l.
(** the attachments an adopted room arrives with, those taken elsewhere skipped *)
Definition adopt_one (rm : nat) (now : Z) (x : bytes * bytes * BroadcastState) : St unit :=
  let '(id, label, state) := x in
  m ← get_room rm;
  taken ← gets (λ g, slots (is_wall m) g !! id);
  match taken with
  | Some _ => skip
  | None => _ ← attachLocked rm id label state 0 now; skip
  end.

Definition new_room (code display name : bytes) (kind : room_kind) (secret : bytes) (mb mp : Z)
    (pop fp : bytes) (createdAt : Z) (minter : bytes) (rejoin : option Z) : room :=
  MkRoom code display name kind secret mb mp pop fp createdAt minter 0 1 ∅ [] false 0 0 false rejoin
         false false LeftUnset None None false.

Definition UpsertStatic (def : StaticRoom) (bs : bytes → option BroadcastState) (now : Z)
    : St (outcome reg_error unit) :=
  match NormalizeCode (st_Code def) with
  | None => mret (Err ErrInvalidCode)
  | Some norm =>
  let display := if bool_decide (st_DisplayCode def = []) then TrimSpace (st_Code def)
                 else st_DisplayCode def in
  let states := prefetchStates (st_Attachments def) bs in
  let mumble := validMumble (st_Mumble def) in
  found ← gets (λ g, g_rooms g !! norm);
  match found with
  | Some rm =>
      m ← get_room rm;
      if negb (bool_decide (r_kind m = KindStatic)) then mret (Err ErrAlreadyAttached) else
      _ ← upd_room rm (λ x, set_r_maxParticipants (λ _, st_MaxParticipants def)
            (set_r_maxBroadcasts (λ _, st_MaxBroadcasts def)
            (set_r_attachSecret (λ _, st_AttachSecret def)
            (set_r_name (λ _, st_DisplayName def) (set_r_display (λ _, display) x)))));
      let rekind := negb (Bool.eqb (is_wall m) (negb (bool_decide (st_Pop def = [])))) in
      _ ← (if rekind then rekindLocked opts unicode_upper rm (st_Pop def) now else skip);
      _ ← upd_room rm (set_r_pop (λ _, st_Pop def));
      '(changed, closes) ← applyMumbleLocked rm mumble;
      _ ← runVoiceCloses closes;
      _ ← (if (changed : bool) then notifyVoiceChanged opts else skip);
      _ ← (if rekind then notifyAttachments rm else skip);
      mret (Ok tt)
  | None =>
      rm ← new;
      _ ← modify (set_g_heap (<[rm := new_room norm display (st_DisplayName def) KindStatic
            (st_AttachSecret def) (st_MaxBroadcasts def) (st_MaxParticipants def) (st_Pop def) [] now [] None]>));
      '(changed, _) ← applyMumbleLocked rm mumble;
      _ ← upd_room rm (λ x, set_r_voiceOnly
            (λ _, st_VoiceOnly def && bool_decide (is_Some (r_voice x))) x);
      _ ← modify (set_g_rooms (<[norm := rm]>));
      _ ← forM states (adopt_one rm now);
      _ ← (if (changed : bool) then notifyVoiceChanged opts else skip);
      mret (Ok tt)
  end end.

(** the definitions of the rooms file, one by one; those accepted *)
Fixpoint upsert_all (defs : list StaticRoom) (bs : bytes → option BroadcastState) (now : Z)
    : St (list bytes) :=
  match defs with
  | [] => mret []
  | d :: defs' =>
      r ← UpsertStatic d bs now;
      keep ← upsert_all defs' bs now;
      mret (match r, NormalizeCode (st_Code d) with
            | Ok _, Some norm => norm :: keep
            | _, _ => keep
            end)
  end.
Definition gone_static (keep : list bytes) (g : Registry) : list bytes :=
  map fst (List.filter (λ '(code, rm),
    let m := default zero_room (g_heap g !! rm) in
    bool_decide (r_kind m = KindStatic) && negb (is_wall m) && negb (bool_decide (code ∈ keep)))
    (map_to_list (g_rooms g))).
Definition ReplaceStatic (defs : list StaticRoom) (bs : bytes → option BroadcastState) (now : Z) : St unit :=
  keep ← upsert_all defs bs now;
  gone ← gets (gone_static keep);
  forM gone (λ code, EndRoom opts unicode_upper unicode_lower code RoomEndReasonOperator now).

(** ** Minting a dynamic room *)

(** the gates before the loop: the normalized broadcast ID and its state *)
Definition mint_gate (req : MintRequest) (bs : bytes → option BroadcastState)
    : outcome reg_error (bytes * BroadcastState * Tokens) :=
  reject negb (bool_decide (CreateSecret opts = [])) &&
         negb (bool_decide (mr_CreateSecret req = CreateSecret opts)) with ErrForbidden;
  match NormalizeID (mr_BroadcastID req) with
  | None => Err ErrNotFound
  | Some id =>
      match bs id with
      | None => Err ErrNotFound
      | Some state =>
          match tokens with
          | Some tk => reject negb (VerifyResume tk id (mr_ResumeToken req)) with ErrForbidden;
                       Ok (id, state, tk)
          | None => Err ErrForbidden
          end
      end
  end.

(** one code drawn: the checks under the mutex up to the reservation; [Ok]:
    the room may be created *)
Definition mint_check (tk : Tokens) (id raw : bytes) (g : Registry) : mint_round + unit :=
  let norm := map ascii_lower raw in
  if bool_decide (is_Some (g_rooms g !! norm)) then inl Again else
  match g_attached g !! id with
  | Some other =>
      match g_rooms g !! other ≫= (g_heap g !!.) with
      | Some own =>
          if bool_decide (r_minter own = id)
          then inl (Done (Ok (MkMinted (r_code own) (r_display own) (MintCreator tk (r_code own)) true
                                       (bool_decide (is_Some (r_voice own))))))
          else inl (Done (Err ErrAlreadyAttached))
      | None => inl (Done (Err ErrAlreadyAttached))
      end
  | None =>
      if dynamicCountLocked g >=? MaxRooms opts then inl (Done (Err ErrMaxRooms)) else inr tt
  end.

(** the checks again after a reservation took the mutex away *)
Definition mint_recheck (id norm : bytes) : St (option mint_round) :=
  taken ← gets (λ g, g_rooms g !! norm);
  other ← gets (λ g, g_attached g !! id);
  let undo := if HasUnreserve opts then emit (Unreserve norm) else skip in
  match taken, other with
  | Some _, _ => _ ← undo; mret (Some Again)
  | None, Some _ => _ ← undo; mret (Some (Done (Err ErrAlreadyAttached)))
  | None, None => mret None
  end.

Definition mint_mumble (want : bool) (fleetVoice : option Z) (g : Registry) : option MumbleIntegration :=
  if want && (default (voiceDynamicCountLocked g) fleetVoice <? VoiceMaxRooms opts)
  then Some (MkMumble [] true) else None.

(** the room is created, with its broadcast attached and its grace running *)
Definition mint_commit (tk : Tokens) (id raw label : bytes) (state : BroadcastState)
    (mumble : option MumbleIntegration) (now : Z) : St MintResult :=
  let norm := map ascii_lower raw in
  let token := MintCreator tk norm in
  rm ← new;
  _ ← modify (set_g_heap (<[rm := new_room norm raw [] KindDynamic [] 0 0 [] (fingerprint token) now id None]>));
  _ ← modify (set_g_rooms (<[norm := rm]>));
  '(changed, _) ← applyMumbleLocked rm mumble;
  _ ← attachLocked rm id label state 0 now;
  _ ← startEmptyGraceLocked opts rm now;
  _ ← upd_room rm (set_r_openedPublished (λ _, true));
  _ ← busRoomOpenedLocked opts rm now;
  _ ← (if (changed : bool) then notifyVoiceChanged opts else skip);
  _ ← notifyAttachments rm;
  mret (MkMinted norm raw token false changed).

(** [raws]: the codes broadcastid.Mint draws, [None] when it fails; [reserve]:
    the cluster's Reserve, when there is one; [fleetVoice]: VoiceRoomsInUse *)
Fixpoint mint_loop (raws : list (option bytes)) (tk : Tokens) (id label : bytes) (state : BroadcastState)
    (want : bool) (bs : bytes → option BroadcastState) (reserve : option (bytes → reserve_answer))
    (fleetVoice : option Z) (now : Z) : St (outcome reg_error MintResult) :=
  match raws with
  | [] => mret (Err errCollision)
  | None :: _ => mret (Err ErrMint)
  | Some raw :: raws' =>
      let next := mint_loop raws' tk id label state want bs reserve fleetVoice now in
      if bool_decide (is_Some (bs raw)) then next else
      checked ← gets (mint_check tk id raw);
      match checked with
      | inl Again => next
      | inl (Done o) => mret o
      | inr _ =>
          mumble ← gets (mint_mumble want fleetVoice);
          match reserve with
          | None => r ← mint_commit tk id raw label state mumble now; mret (Ok r)
          | Some f =>
              match f (map ascii_lower raw) with
              | ReserveUnavailable => mret (Err ErrUnavailable)
              | ReserveMaxRooms => mret (Err ErrMaxRooms)
              | ReserveTaken => next
              | Reserved =>
                  again ← mint_recheck id (map ascii_lower raw);
                  match again with
                  | Some Again => next
                  | Some (Done o) => mret o
                  | None => r ← mint_commit tk id raw label state mumble now; mret (Ok r)
                  end
              end
          end
      end
  end.
Definition Mint (req : MintRequest) (raws : list (option bytes)) (bs : bytes → option BroadcastState)
    (reserve : option (bytes → reserve_answer)) (fleetVoice : option Z) (now : Z)
    : St (outcome reg_error MintResult) :=
  match mint_gate req bs with
  | Fault => mret Fault
  | Err e => mret (Err e)
  | Ok (id, state, tk) =>
      let label := if negb (utf8_valid (mr_Label req)) || (zlen (mr_Label req) >? MaxRoomLabelLen)
                   then [] else mr_Label req in
      mint_loop (take 10 raws) tk id label state (mr_Voice req && VoiceEnabled opts) bs reserve
                (if mr_Voice req && VoiceEnabled opts then fleetVoice else None) now
  end.

(** ** Adoption *)

Definition rejoinWindow : Z :=
  if EmptyGrace opts >? minRejoinWindow then EmptyGrace opts else minRejoinWindow.

Definition AdoptDynamic (cr : RoomCR) (bs : bytes → option BroadcastState) (now : Z) : St bool :=
  match NormalizeCode (cr_Name cr) with
  | None => mret false
  | Some norm =>
  let states := prefetchStates (cr_Attachments cr) bs in
  let mumble := validMumble (cr_Mumble cr) in
  exists_ ← gets (λ g, g_rooms g !! norm);
  match exists_ with
  | Some _ => mret false
  | None =>
      rm ← new;
      _ ← modify (set_g_heap (<[rm := new_room norm
            (DisplayCode unicode_upper (cr_DisplayCode cr) (cr_Dynamic cr) (cr_Name cr)) [] KindDynamic
            [] 0 0 [] (cr_Fingerprint cr) (default now (cr_CreatedAt cr)) [] (Some (now + rejoinWindow))]>));
      '(changed, _) ← applyMumbleLocked rm mumble;
      _ ← modify (set_g_rooms (<[norm := rm]>));
      _ ← busHomeChangedLocked opts rm (default [] (cr_LeaseHolder cr)) now;
      _ ← forM states (adopt_one rm now);
      _ ← startEmptyGraceLocked opts rm now;
      _ ← (if (changed : bool) then notifyVoiceChanged opts else skip);
      mret true
  end end.

(** ** Voice of a killed broadcast *)

Fixpoint close_owner_voice (id : bytes) (rms : list nat) : St (list voiceClose) :=
  match rms with
  | [] => mret []
  | rm :: rms' =>
      m ← get_room rm;
      c ← match find_att m id with
          | Some a => if a_owner a =? 0 then mret [] else
              closeParticipantVoiceLocked unicode_upper rm (a_owner a) CloseCodeVoiceRemoved voiceReasonTerminated
          | None => mret []
          end;
      cs ← close_owner_voice id rms';
      mret (c ++ cs)
  end.
Definition CloseVoiceOfBroadcast (id : bytes) : St Z :=
  match NormalizeID id with
  | None => mret 0
  | Some id =>
      rms ← roomsOfLocked id;
      closes ← close_owner_voice id rms;
      _ ← runVoiceCloses closes;
      mret (zlen closes)
  end.

(** ** Views *)

Definition Lookup (code : bytes) (g : Registry) : option Info :=
  match NormalizeCode code ≫= (g_rooms g !!.) with
  | None => None
  | Some rm =>
      let m := default zero_room (g_heap g !! rm) in
      Some (MkInfo (r_code m) (r_kind m) (negb (bool_decide (r_attachSecret m = [])))
              (Z.of_nat (size (r_participants m))) (zlen (r_attachments m)))
  end.
Definition Attachments (code : bytes) (g : Registry) : list (bytes * bytes * Z) :=
  match NormalizeCode code ≫= (g_rooms g !!.) with
  | None => []
  | Some rm => map (λ a, (a_id a, a_label a, a_attachedAt a))
                 (r_attachments (default zero_room (g_heap g !! rm)))
  end.
Definition add_totals (t : Totals) (m : room) : Totals :=
  let dyn := bool_decide (r_kind m = KindDynamic) in
  let '(live, sessions) := match r_voice m with
                           | Some vr => (1, Z.of_nat (size (v_sessions vr)))
                           | None => (0, 0)
                           end in
  MkTotals (if dyn then t_Static t else t_Static t + 1) (if dyn then t_Dynamic t + 1 else t_Dynamic t)
    (t_Participants t + Z.of_nat (size (r_participants m))) (t_Attachments t + zlen (r_attachments m))
    (t_VoiceLive t + live) (t_VoiceSessions t + sessions).
Definition TotalStats (g : Registry) : Totals :=
  foldl add_totals (MkTotals 0 0 0 0 0 0)
    (map (λ '(_, rm), default zero_room (g_heap g !! rm)) (map_to_list (g_rooms g))).
End Life.
