(* ===== verification/RegCore.v ===== *)
(** internal/roomsrv: the core of the registry's state, and a calculus for it.

    Most of what an operation does (queueing records, publishing events, voice)
    leaves alone the part of the state the room invariant speaks of: which rooms
    there are, who is in them, what is attached, which grace timers run, and
    which voice tickets are spent.
    [core_of] extracts that part; [keeps] is an operation that does not change
    it, and [runs k m Q] executes [m] symbolically from the core [k]. *)
From S2P Require Export RegLife.
#[local] Open Scope Z_scope.

(** ** The core of a state *)

Record room_core := MkRC {
  rc_code : bytes; rc_kind : room_kind; rc_ended : bool; rc_wall : bool;
  rc_atts : list (bytes * bytes);
  rc_parts : gmap Z nat;
  rc_timer : bool; rc_gen : Z; rc_next : Z;
}.
Definition att_core (a : attachment) : bytes * bytes := (a_id a, a_label a).
Definition room_core_of (m : room) : room_core :=
  MkRC (r_code m) (r_kind m) (r_ended m) (is_wall m) (map att_core (r_attachments m))
    (r_participants m) (r_emptyTimer m) (r_emptyGen m) (r_nextPID m).
(** room, ID and nickname *)
Definition part_core (p : Participant) : nat * Z * bytes := (p_room p, p_id p, p_nick p).
(** a grace timer that was started *)
Definition timer_key (e : effect) : option (bytes * nat * Z) :=
  match e with AfterFunc code rm gen _ => Some (code, rm, gen) | _ => None end.

Record core := MkCore {
  k_rooms : gmap bytes nat;
  k_heap : gmap nat room_core;
  k_parts : gmap nat (nat * Z * bytes);
  k_attached : gmap bytes bytes;
  k_walls : gmap bytes bytes;
  k_next : nat;
  k_armed : list (bytes * nat * Z);
  k_nonces : gmap bytes Z;
}.
Definition core_of (g : Registry) : core :=
  MkCore (g_rooms g) (room_core_of <$> g_heap g) (part_core <$> g_parts g) (g_attached g) (g_walls g)
    (g_next g) (omap timer_key (g_log g)) (g_voiceNonces g).

Definition k_slots (wall : bool) (k : core) : gmap bytes bytes :=
  if wall then k_walls k else k_attached k.

(** *** Updates of the core *)
Definition k_set_rooms (f : gmap bytes nat → gmap bytes nat) (k : core) : core :=
  MkCore (f (k_rooms k)) (k_heap k) (k_parts k) (k_attached k) (k_walls k) (k_next k) (k_armed k) (k_nonces k).
Definition k_set_room (rm : nat) (m : room_core) (k : core) : core :=
  MkCore (k_rooms k) (<[rm := m]> (k_heap k)) (k_parts k) (k_attached k) (k_walls k) (k_next k) (k_armed k) (k_nonces k).
Definition k_set_part (p : nat) (pt : nat * Z * bytes) (k : core) : core :=
  MkCore (k_rooms k) (k_heap k) (<[p := pt]> (k_parts k)) (k_attached k) (k_walls k) (k_next k) (k_armed k) (k_nonces k).
Definition k_set_slots (wall : bool) (f : gmap bytes bytes → gmap bytes bytes) (k : core) : core :=
  MkCore (k_rooms k) (k_heap k) (k_parts k) (if wall then k_attached k else f (k_attached k))
    (if wall then f (k_walls k) else k_walls k) (k_next k) (k_armed k) (k_nonces k).
Definition k_alloc (k : core) : core :=
  MkCore (k_rooms k) (k_heap k) (k_parts k) (k_attached k) (k_walls k) (S (k_next k)) (k_armed k) (k_nonces k).
Definition k_arm (t : bytes * nat * Z) (k : core) : core :=
  MkCore (k_rooms k) (k_heap k) (k_parts k) (k_attached k) (k_walls k) (k_next k) (k_armed k ++ [t]) (k_nonces k).
Definition k_set_nonces (f : gmap bytes Z → gmap bytes Z) (k : core) : core :=
  MkCore (k_rooms k) (k_heap k) (k_parts k) (k_attached k) (k_walls k) (k_next k) (k_armed k) (f (k_nonces k)).

Definition rc_set_ended (b : bool) (m : room_core) : room_core :=
  MkRC (rc_code m) (rc_kind m) b (rc_wall m) (rc_atts m) (rc_parts m) (rc_timer m) (rc_gen m) (rc_next m).
Definition rc_set_wall (b : bool) (m : room_core) : room_core :=
  MkRC (rc_code m) (rc_kind m) (rc_ended m) b (rc_atts m) (rc_parts m) (rc_timer m) (rc_gen m) (rc_next m).
Definition rc_set_atts (l : list (bytes * bytes)) (m : room_core) : room_core :=
  MkRC (rc_code m) (rc_kind m) (rc_ended m) (rc_wall m) l (rc_parts m) (rc_timer m) (rc_gen m) (rc_next m).
Definition rc_set_parts (ps : gmap Z nat) (m : room_core) : room_core :=
  MkRC (rc_code m) (rc_kind m) (rc_ended m) (rc_wall m) (rc_atts m) ps (rc_timer m) (rc_gen m) (rc_next m).
Definition rc_set_timer (b : bool) (gen : Z) (m : room_core) : room_core :=
  MkRC (rc_code m) (rc_kind m) (rc_ended m) (rc_wall m) (rc_atts m) (rc_parts m) b gen (rc_next m).
Definition rc_set_next (n : Z) (m : room_core) : room_core :=
  MkRC (rc_code m) (rc_kind m) (rc_ended m) (rc_wall m) (rc_atts m) (rc_parts m) (rc_timer m) (rc_gen m) n.

(** ** Operations that keep the core *)

Abbreviation keeps := (StateM.keeps core_of).
Abbreviation runs := (StateM.runs core_of).

Lemma keeps_upd_room rm f : (∀ m, room_core_of (f m) = room_core_of m) → keeps (upd_room rm f).
Proof. intros Hf g. unfold core_of; cbn. by rewrite fmap_alter_same. Qed.
Lemma keeps_upd_part p f : (∀ pt, part_core (f pt) = part_core pt) → keeps (upd_part p f).
Proof. intros Hf g. unfold core_of; cbn. by rewrite fmap_alter_same. Qed.
Lemma keeps_upd_vs v f : keeps (upd_vs v f).
Proof. done. Qed.
Lemma keeps_emit e : timer_key e = None → keeps (emit e).
Proof. intros He g. unfold core_of; cbn. by rewrite omap_app; cbn; rewrite He, app_nil_r. Qed.
Lemma keeps_voiceSeq f : keeps (modify (set_g_voiceSeq f)).
Proof. done. Qed.
Lemma keeps_vsessions f : keeps (modify (set_g_vsessions f)).
Proof. done. Qed.
Lemma keeps_upd_voice rm f : keeps (upd_voice rm f).
Proof. by apply keeps_upd_room. Qed.

Create HintDb keeps discriminated.
#[export] Hint Resolve keeps_ret keeps_gets keeps_upd_vs keeps_voiceSeq keeps_vsessions
  keeps_upd_voice : keeps.
#[export] Hint Extern 1 (keeps (upd_room _ _)) => apply keeps_upd_room; reflexivity : keeps.
#[export] Hint Extern 1 (keeps (upd_part _ _)) => apply keeps_upd_part; reflexivity : keeps.
#[export] Hint Extern 1 (keeps (emit _)) => apply keeps_emit; reflexivity : keeps.

(** walks through a program, with the lemmas of [keeps] for its calls *)
Ltac keeps_step :=
  match goal with
  | |- keeps (mbind _ _) => apply keeps_bind; [|intros ?]
  | |- keeps (forM _ _) => apply keeps_forM; intros ?
  | |- keeps (let '_ := ?x in _) => destruct x
  | |- keeps (match ?x with _ => _ end) => destruct x
  | |- keeps (if ?b then _ else _) => destruct b
  | |- keeps _ => solve [auto 2 with keeps nocore]
  | |- keeps skip => apply keeps_ret
  end.
Ltac keeps_tac := repeat (cbv beta zeta; keeps_step).

Section Keeps.
Context (opts : Options) (unicode_upper unicode_lower obfuscate : bytes → bytes).
Context (hmac_sha256 : bytes → bytes → bytes).

Lemma keeps_get_room rm : keeps (get_room rm).
Proof. done. Qed.
Lemma keeps_get_part p : keeps (get_part p).
Proof. done. Qed.
Lemma keeps_get_vs v : keeps (get_vs v).
Proof. done. Qed.
Hint Resolve keeps_get_room keeps_get_part keeps_get_vs : keeps.

Lemma keeps_enqueue p rec : keeps (enqueueLocked p rec).
Proof. unfold enqueueLocked. keeps_tac. Qed.
Hint Resolve keeps_enqueue : keeps.
Lemma keeps_record p : keeps (recordLocked p).
Proof. unfold recordLocked. keeps_tac. Qed.
Lemma keeps_state rm p : keeps (stateRecordLocked unicode_upper obfuscate rm p).
Proof. unfold stateRecordLocked. keeps_tac. Qed.
Lemma keeps_bus rm now d : keeps (emitLocked opts rm now d).
Proof. unfold emitLocked. keeps_tac. Qed.
Hint Resolve keeps_record keeps_state keeps_bus : keeps.
Lemma keeps_bus_event rm ev now : keeps (busEventLocked opts rm ev now).
Proof. unfold busEventLocked. keeps_tac. Qed.
Lemma keeps_bus_left rm p now : keeps (busParticipantLeftLocked opts rm p now).
Proof. unfold busParticipantLeftLocked. keeps_tac. Qed.
Lemma keeps_bus_home rm s now : keeps (busHomeChangedLocked opts rm s now).
Proof. unfold busHomeChangedLocked. keeps_tac. Qed.
Lemma keeps_bus_opened rm now : keeps (busRoomOpenedLocked opts rm now).
Proof. unfold busRoomOpenedLocked. keeps_tac. Qed.
Lemma keeps_bus_attached rm a now : keeps (busAttachedLocked opts rm a now).
Proof. unfold busAttachedLocked. keeps_tac. Qed.
Lemma keeps_bus_closed rm reason now : keeps (busRoomClosedLocked opts rm reason now).
Proof. unfold busRoomClosedLocked. keeps_tac. Qed.
Hint Resolve keeps_bus_event keeps_bus_left keeps_bus_home keeps_bus_opened keeps_bus_attached
  keeps_bus_closed : keeps.
Lemma keeps_broadcast rm ev id now : keeps (broadcastLocked opts unicode_upper rm ev id now).
Proof. unfold broadcastLocked. keeps_tac. Qed.
Lemma keeps_reject p k r msg : keeps (reject_ unicode_upper p k r msg).
Proof. unfold reject_. keeps_tac. Qed.
Hint Resolve keeps_broadcast keeps_reject : keeps.

(** *** Voice *)
Lemma keeps_closes cs : keeps (runVoiceCloses cs).
Proof. unfold runVoiceCloses. keeps_tac. Qed.
Lemma keeps_roster_record rm sq : keeps (voiceRosterRecordLocked unicode_upper rm sq).
Proof. unfold voiceRosterRecordLocked. keeps_tac. Qed.
Hint Resolve keeps_closes keeps_roster_record : keeps.
Lemma keeps_roster_to rm p : keeps (sendVoiceRosterToLocked unicode_upper rm p).
Proof. unfold sendVoiceRosterToLocked. keeps_tac. Qed.
Lemma keeps_push rm : keeps (pushVoiceRosterLocked unicode_upper rm).
Proof. unfold pushVoiceRosterLocked. keeps_tac. Qed.
Hint Resolve keeps_roster_to keeps_push : keeps.
Lemma keeps_resend rm : keeps (resendStatesLocked unicode_upper obfuscate rm).
Proof. unfold resendStatesLocked. keeps_tac. Qed.
Lemma keeps_end v code reason : keeps (endLocked v code reason).
Proof. unfold endLocked. keeps_tac. Qed.
Hint Resolve keeps_resend keeps_end : keeps.
Lemma keeps_endAll l code reason : keeps (endAll l code reason).
Proof. induction l; cbn [endAll]; keeps_tac. Qed.
Hint Resolve keeps_endAll : keeps.
Lemma keeps_close_sessions rm code reason : keeps (closeVoiceSessionsLocked rm code reason).
Proof. unfold closeVoiceSessionsLocked. keeps_tac. Qed.
Lemma keeps_close_participant rm pid code reason :
  keeps (closeParticipantVoiceLocked unicode_upper rm pid code reason).
Proof. unfold closeParticipantVoiceLocked. keeps_tac. Qed.
Lemma keeps_new_voice mu : keeps (newVoiceRoomLocked mu).
Proof. unfold newVoiceRoomLocked. keeps_tac. Qed.
Lemma keeps_notify_voice : keeps (notifyVoiceChanged opts).
Proof. unfold notifyVoiceChanged. keeps_tac. Qed.
Hint Resolve keeps_close_sessions keeps_close_participant keeps_new_voice keeps_notify_voice : keeps.
Lemma keeps_mumble rm mu : keeps (applyMumbleLocked opts unicode_upper obfuscate rm mu).
Proof. unfold applyMumbleLocked. keeps_tac. Qed.
Lemma keeps_voiceJoin p epoch nonce now : keeps (voiceJoin opts unicode_upper hmac_sha256 p epoch nonce now).
Proof. unfold voiceJoin. keeps_tac. Qed.
Lemma keeps_Joined v session name : keeps (Joined unicode_upper v session name).
Proof. unfold Joined. keeps_tac. Qed.
Lemma keeps_State v session flags : keeps (State unicode_upper v session flags).
Proof. unfold State. keeps_tac. Qed.
Lemma keeps_Left v : keeps (Left unicode_upper v).
Proof. unfold Left. keeps_tac. Qed.
Hint Resolve keeps_mumble keeps_voiceJoin keeps_Joined keeps_State keeps_Left : keeps.
Lemma keeps_close_banned l banned : keeps (close_banned l banned).
Proof. induction l; cbn [close_banned]; keeps_tac. Qed.
Hint Resolve keeps_close_banned : keeps.
Lemma keeps_close_banned_rooms l banned : ∀ cs, keeps (close_banned_rooms unicode_upper l banned cs).
Proof. induction l; intros cs; cbn [close_banned_rooms]; keeps_tac. Qed.
Hint Resolve keeps_close_banned_rooms : keeps.
Lemma keeps_CloseVoiceIn banned : keeps (CloseVoiceIn unicode_upper banned).
Proof. unfold CloseVoiceIn. keeps_tac. Qed.
Lemma keeps_voiceRoom code id : keeps (voiceRoomLocked code id).
Proof. unfold voiceRoomLocked. keeps_tac. Qed.
Hint Resolve keeps_voiceRoom : keeps.
Lemma keeps_ApplyVoiceRoster code id av reason problems users :
  keeps (ApplyVoiceRoster unicode_upper code id av reason problems users).
Proof. unfold ApplyVoiceRoster. keeps_tac. Qed.
Lemma keeps_VoiceObserverDown code id reason : keeps (VoiceObserverDown unicode_upper code id reason).
Proof. unfold VoiceObserverDown. keeps_tac. Qed.
Lemma keeps_close_owner id l : keeps (close_owner_voice unicode_upper id l).
Proof. induction l; cbn [close_owner_voice]; keeps_tac. Qed.
Hint Resolve keeps_close_owner : keeps.
Lemma keeps_roomsOf id : keeps (roomsOfLocked id).
Proof. done. Qed.
Hint Resolve keeps_roomsOf : keeps.
Lemma keeps_CloseVoiceOfBroadcast id : keeps (CloseVoiceOfBroadcast unicode_upper id).
Proof. unfold CloseVoiceOfBroadcast. keeps_tac. Qed.

(** *** The registry *)
Lemma keeps_notify rm : keeps (notifyAttachments opts rm).
Proof. unfold notifyAttachments. keeps_tac. Qed.
Lemma keeps_nick rm nick self : keeps (uniqueNickLocked rm nick self).
Proof. unfold uniqueNickLocked. keeps_tac. Qed.
Hint Resolve keeps_notify keeps_nick : keeps.
Lemma keeps_announce_att rm kind id now : keeps (announce_attachment opts unicode_upper rm kind id now).
Proof. unfold announce_attachment. keeps_tac. Qed.
Lemma keeps_announce_part rm p now : keeps (announce_participant opts unicode_upper rm p now).
Proof. unfold announce_participant. keeps_tac. Qed.
Hint Resolve keeps_announce_att keeps_announce_part : keeps.
Lemma keeps_announce_owner rm o now : keeps (announce_owner opts unicode_upper rm o now).
Proof. unfold announce_owner. keeps_tac. Qed.
Lemma keeps_ReleaseHome code : keeps (ReleaseHome code).
Proof. unfold ReleaseHome. keeps_tac. Qed.
Lemma keeps_Resync p : keeps (Resync unicode_upper obfuscate p).
Proof. unfold Resync. keeps_tac. Qed.
Lemma keeps_upd_attachment rm id f : (∀ a, att_core (f a) = att_core a) → keeps (upd_attachment rm id f).
Proof.
  intros Hf. apply keeps_upd_room. intros m. unfold room_core_of, set_r_attachments, is_wall; cbn. f_equal.
  rewrite map_map. apply map_ext. intros a. case_bool_decide; [apply Hf|done].
Qed.
Hint Extern 1 (keeps (upd_attachment _ _ _)) => apply keeps_upd_attachment; reflexivity : keeps.
Lemma keeps_set_live id live now rm : keeps (set_live_in opts unicode_upper id live now rm).
Proof. unfold set_live_in. keeps_tac. Qed.
Hint Resolve keeps_set_live : keeps.
Lemma keeps_setLive id live now : keeps (setLive opts unicode_upper id live now).
Proof. unfold setLive. keeps_tac. Qed.
Lemma keeps_mint_recheck id norm : keeps (mint_recheck opts id norm).
Proof. unfold mint_recheck. keeps_tac. destruct a, a0; keeps_tac. Qed.
End Keeps.

#[export] Hint Resolve keeps_get_room keeps_get_part keeps_get_vs keeps_enqueue keeps_record keeps_state
  keeps_bus keeps_bus_event keeps_bus_left keeps_bus_home keeps_bus_opened keeps_bus_attached
  keeps_bus_closed keeps_broadcast keeps_reject keeps_closes keeps_roster_record keeps_roster_to
  keeps_push keeps_resend keeps_end keeps_endAll keeps_close_sessions keeps_close_participant
  keeps_new_voice keeps_notify_voice keeps_mumble keeps_voiceJoin keeps_Joined keeps_State keeps_Left
  keeps_CloseVoiceIn keeps_voiceRoom keeps_ApplyVoiceRoster keeps_VoiceObserverDown
  keeps_CloseVoiceOfBroadcast keeps_roomsOf keeps_notify keeps_nick keeps_announce_att
  keeps_announce_part keeps_announce_owner keeps_ReleaseHome keeps_Resync keeps_setLive
  keeps_mint_recheck : keeps.
#[export] Hint Extern 1 (keeps (upd_attachment _ _ _)) => apply keeps_upd_attachment; reflexivity : keeps.

(** ** Symbolic execution from a core *)

(** Reading the rooms, the participants and the maps *)
Definition rc_zero : room_core := room_core_of zero_room.
Lemma core_room g rm : room_core_of (default zero_room (g_heap g !! rm)) =
  default rc_zero (k_heap (core_of g) !! rm).
Proof. cbn. rewrite lookup_fmap. by destruct (g_heap g !! rm). Qed.
Lemma core_part g p : part_core (default zero_part (g_parts g !! p)) =
  default (part_core zero_part) (k_parts (core_of g) !! p).
Proof. cbn. rewrite lookup_fmap. by destruct (g_parts g !! p). Qed.

Lemma runs_get_room {B} k rm (c : room → St B) Q :
  (∀ m, room_core_of m = default rc_zero (k_heap k !! rm) → runs k (c m) Q) →
  runs k (get_room rm ≫= c) Q.
Proof. intros Hc. apply runs_gets. intros g <-. apply Hc, core_room. Qed.
Lemma runs_get_live {B} k rm m0 (c : room → St B) Q :
  k_heap k !! rm = Some m0 → (∀ m, room_core_of m = m0 → runs k (c m) Q) →
  runs k (get_room rm ≫= c) Q.
Proof. intros Hm Hc. apply runs_get_room. by rewrite Hm. Qed.
Lemma runs_get_part {B} k p pt0 (c : Participant → St B) Q :
  k_parts k !! p = Some pt0 → (∀ pt, part_core pt = pt0 → runs k (c pt) Q) →
  runs k (get_part p ≫= c) Q.
Proof. intros Hp Hc. apply runs_gets. intros g <-. apply Hc. by rewrite core_part, Hp. Qed.
Lemma runs_find {B} k code (c : option nat → St B) Q :
  runs k (c (k_rooms k !! code)) Q → runs k (gets (λ g, g_rooms g !! code) ≫= c) Q.
Proof. intros Hc. apply runs_gets. by intros g <-. Qed.
Lemma core_slots wall g : slots wall g = k_slots wall (core_of g).
Proof. by destruct wall. Qed.

(** Writing them *)
Lemma runs_new {B} k (c : nat → St B) Q : runs (k_alloc k) (c (k_next k)) Q → runs k (new ≫= c) Q.
Proof. intros Hc. apply runs_bind. intros g <-. exact Hc. Qed.
Lemma runs_upd_room {B} k rm f (c : unit → St B) Q m0 m1 :
  k_heap k !! rm = Some m0 → (∀ m, room_core_of m = m0 → room_core_of (f m) = m1) →
  runs (k_set_room rm m1 k) (c tt) Q → runs k (upd_room rm f ≫= c) Q.
Proof.
  intros Hm Hf Hc. eapply runs_modify; [|exact Hc]. intros g <-. unfold core_of, k_set_room; cbn.
  by rewrite (fmap_alter_to _ _ _ _ m0 m1).
Qed.
Lemma runs_upd_part {B} k p f (c : unit → St B) Q p0 p1 :
  k_parts k !! p = Some p0 → (∀ pt, part_core pt = p0 → part_core (f pt) = p1) →
  runs (k_set_part p p1 k) (c tt) Q → runs k (upd_part p f ≫= c) Q.
Proof.
  intros Hm Hf Hc. eapply runs_modify; [|exact Hc]. intros g <-. unfold core_of, k_set_part; cbn.
  by rewrite (fmap_alter_to _ _ _ _ p0 p1).
Qed.
Lemma runs_put_room {B} k rm m (c : unit → St B) Q :
  runs (k_set_room rm (room_core_of m) k) (c tt) Q → runs k (modify (set_g_heap (<[rm := m]>)) ≫= c) Q.
Proof. intros Hc. eapply runs_modify; [|exact Hc]. intros g <-. unfold core_of; cbn. by rewrite fmap_insert. Qed.
Lemma runs_put_part {B} k p pt (c : unit → St B) Q :
  runs (k_set_part p (part_core pt) k) (c tt) Q → runs k (modify (set_g_parts (<[p := pt]>)) ≫= c) Q.
Proof. intros Hc. eapply runs_modify; [|exact Hc]. intros g <-. unfold core_of; cbn. by rewrite fmap_insert. Qed.
Lemma runs_rooms {B} k f (c : unit → St B) Q :
  runs (k_set_rooms f k) (c tt) Q → runs k (modify (set_g_rooms f) ≫= c) Q.
Proof. intros Hc. eapply runs_modify; [|exact Hc]. by intros g <-. Qed.
Lemma runs_nonces {B} k f (c : unit → St B) Q :
  runs (k_set_nonces f k) (c tt) Q → runs k (modify (set_g_voiceNonces f) ≫= c) Q.
Proof. intros Hc. eapply runs_modify; [|exact Hc]. by intros g <-. Qed.
Lemma runs_slots {B} k wall f (c : unit → St B) Q :
  runs (k_set_slots wall f k) (c tt) Q → runs k (upd_slots wall f ≫= c) Q.
Proof. intros Hc. eapply runs_modify; [|exact Hc]. by intros g <-; destruct wall. Qed.
Lemma runs_arm k code rm gen t (Q : unit → core → Prop) :
  Q tt (k_arm (code, rm, gen) k) → runs k (emit (AfterFunc code rm gen t)) Q.
Proof. intros HQ g <-. cbn. unfold core_of; cbn. by rewrite omap_app. Qed.
