(* ===== verification/RegInv.v ===== *)
(** internal/roomsrv: the invariant of the room registry.

    [CI] says what a well-formed registry is, on its core: the index of rooms
    and the rooms agree, a broadcast is in at most one ordinary room and on at
    most one party wall, members are unambiguous, and a dynamic room nobody is
    in runs its grace timer. The lemmas show what each elementary change does to
    it; RegSteps.v puts them together into the operations. *)
From S2P Require Export RegCore.
#[local] Open Scope Z_scope.

(** ** One room *)

Record room_ok (timed : Prop) (parts : gmap nat (nat * Z * bytes)) (armed : list (bytes * nat * Z))
    (rm : nat) (m : room_core) : Prop := {
  ro_code : slug (rc_code m);
  ro_ids : NoDup (rc_atts m).*1;
  ro_labels : ∀ i j l, (i, l) ∈ rc_atts m → (j, l) ∈ rc_atts m → l ≠ [] → i = j;
  ro_member : ∀ pid p, rc_parts m !! pid = Some p → 1 ≤ pid < 65536 ∧
    ∃ nick, parts !! p = Some (rm, pid, nick) ∧ text_ok nick MaxRoomNicknameLen;
  ro_nicks : ∀ i j p q nick, rc_parts m !! i = Some p → rc_parts m !! j = Some q →
    parts !! p = Some (rm, i, nick) → parts !! q = Some (rm, j, nick) → i = j;
  ro_next : is_uint 16 (rc_next m);
  ro_timer : timed → rc_timer m =
    bool_decide (rc_kind m = KindDynamic ∧ rc_ended m = false ∧ rc_parts m = ∅);
  ro_armed : rc_timer m = true → (rc_code m, rm, rc_gen m) ∈ armed;
}.

(** ** The whole registry; [x]: a room whose timer is being seen to *)

Record CI (x : option nat) (k : core) : Prop := {
  ci_fresh : ∀ h, (k_next k ≤ h)%nat → k_heap k !! h = None ∧ k_parts k !! h = None;
  ci_rooms : ∀ c rm, k_rooms k !! c = Some rm →
    ∃ m, k_heap k !! rm = Some m ∧ rc_code m = c ∧ rc_ended m = false;
  ci_live : ∀ rm m, k_heap k !! rm = Some m → rc_ended m = false → k_rooms k !! rc_code m = Some rm;
  ci_slots : ∀ w id c, k_slots w k !! id = Some c ↔
    ∃ rm m, k_rooms k !! c = Some rm ∧ k_heap k !! rm = Some m ∧ rc_wall m = w ∧ id ∈ (rc_atts m).*1;
  ci_part : ∀ p rm pid nick, k_parts k !! p = Some (rm, pid, nick) →
    is_Some (k_heap k !! rm) ∧ 1 ≤ pid < 65536;
  ci_ok : ∀ rm m, k_heap k !! rm = Some m → room_ok (x ≠ Some rm) (k_parts k) (k_armed k) rm m;
}.
Definition Inv (g : Registry) : Prop := CI None (core_of g).

Lemma CI_empty : CI None (core_of NewRegistry).
Proof.
  split; cbn.
  - done.
  - intros c rm H. by rewrite lookup_empty in H.
  - intros rm m H. by rewrite fmap_empty, lookup_empty in H.
  - intros w id c. assert (k_slots w (core_of NewRegistry) = ∅) as -> by (destruct w; reflexivity).
    rewrite lookup_empty. split; [done|]. intros (rm & m & H & _). by rewrite lookup_empty in H.
  - intros p rm pid nick H. by rewrite fmap_empty, lookup_empty in H.
  - intros rm m H. by rewrite fmap_empty, lookup_empty in H.
Qed.

Lemma CI_weaken rm k : CI None k → CI (Some rm) k.
Proof. intros []; split; try done. intros rm' m Hm. destruct (ci_ok0 rm' m Hm). split; auto. Qed.
(** the timer of the room left out is as it should be *)
Lemma CI_close rm k :
  CI (Some rm) k →
  (∀ m, k_heap k !! rm = Some m → rc_timer m =
     bool_decide (rc_kind m = KindDynamic ∧ rc_ended m = false ∧ rc_parts m = ∅)) →
  CI None k.
Proof.
  intros [] Ht; split; try done. intros rm' m Hm. destruct (ci_ok0 rm' m Hm). split; try done.
  intros _. destruct (decide (rm' = rm)) as [->|Hn]; [by apply Ht|]. apply ro_timer0. congruence.
Qed.

Section Facts.
Context (x : option nat) (k : core) (Hk : CI x k).

Lemma ci_registered c rm : k_rooms k !! c = Some rm →
  ∃ m, k_heap k !! rm = Some m ∧ rc_code m = c ∧ rc_ended m = false.
Proof. apply (ci_rooms _ _ Hk). Qed.
Lemma ci_code_of c rm m : k_rooms k !! c = Some rm → k_heap k !! rm = Some m →
  rc_code m = c ∧ rc_ended m = false.
Proof. intros Hr Hm. destruct (ci_registered c rm Hr) as (m' & Hm' & ? & ?). by simplify_eq. Qed.
(** different rooms have different codes *)
Lemma ci_inj rm rm' m m' : k_heap k !! rm = Some m → k_heap k !! rm' = Some m' →
  rc_ended m = false → rc_ended m' = false → rc_code m = rc_code m' → rm = rm'.
Proof.
  intros Hm Hm' He He' Hc. apply (ci_live _ _ Hk) in Hm, Hm'; [|done..]. rewrite Hc in Hm. congruence.
Qed.
(** the slot of a live room's attachment names the room *)
Lemma ci_slot rm m id : k_heap k !! rm = Some m → rc_ended m = false →
  id ∈ (rc_atts m).*1 ↔ k_slots (rc_wall m) k !! id = Some (rc_code m).
Proof.
  intros Hm He. pose proof (ci_live _ _ Hk rm m Hm He) as Hr. rewrite (ci_slots _ _ Hk). split.
  - intros Hin. by exists rm, m.
  - intros (rm' & m' & Hr' & Hm' & _ & Hin). assert (rm' = rm) as -> by congruence. congruence.
Qed.
(** a slot that is free, or names the room where the ID is not, is free *)
Lemma ci_slot_free rm m id : k_heap k !! rm = Some m → rc_ended m = false →
  (∀ c, k_slots (rc_wall m) k !! id = Some c → c = rc_code m) → id ∉ (rc_atts m).*1 →
  k_slots (rc_wall m) k !! id = None.
Proof.
  intros Hm He Hc Hin. destruct (_ !! id) as [c|] eqn:Hs; [|done]. destruct Hin.
  rewrite (Hc c eq_refl) in Hs. by apply (ci_slot rm).
Qed.
End Facts.

Lemma k_slots_set w w' f k : k_slots w (k_set_slots w' f k) = if Bool.eqb w w' then f (k_slots w k) else k_slots w k.
Proof. by destruct w, w'. Qed.
Lemma k_slots_room w rm m k : k_slots w (k_set_room rm m k) = k_slots w k.
Proof. done. Qed.

Lemma k_slots_rooms w f k : k_slots w (k_set_rooms f k) = k_slots w k.
Proof. done. Qed.

(** ** Elementary changes *)

Lemma room_ok_mono (T T' : Prop) parts armed rm m m' :
  (T' → T) → rc_code m' = rc_code m → rc_atts m' = rc_atts m → rc_parts m' = rc_parts m →
  is_uint 16 (rc_next m') → (T' → rc_timer m' = rc_timer m ∧ rc_kind m' = rc_kind m ∧ rc_ended m' = rc_ended m) →
  (rc_timer m' = true → (rc_code m', rm, rc_gen m') ∈ armed) →
  room_ok T parts armed rm m → room_ok T' parts armed rm m'.
Proof.
  intros HT Hc Ha Hp Hn Ht Harm []. split; rewrite ?Hc, ?Ha, ?Hp; try done.
  - intros Ht'. destruct (Ht Ht') as (-> & -> & ->). by apply ro_timer0, HT.
  - intros Htm. rewrite <- Hc. by apply Harm.
Qed.

(** A live room that stays live under its code, with other attachments: what
    has to hold of the slots. *)
Lemma CI_reslot x k k' rm m m' :
  CI x k → k_heap k !! rm = Some m → rc_ended m = false →
  rc_code m' = rc_code m → rc_ended m' = false →
  k_rooms k' = k_rooms k → k_heap k' = <[rm := m']> (k_heap k) → k_parts k' = k_parts k →
  k_next k' = k_next k → k_armed k' = k_armed k →
  (∀ w id c, k_slots w k' !! id = Some c ↔
     (c ≠ rc_code m ∧ k_slots w k !! id = Some c) ∨
     (c = rc_code m ∧ w = rc_wall m' ∧ id ∈ (rc_atts m').*1)) →
  room_ok (x ≠ Some rm) (k_parts k) (k_armed k) rm m' →
  CI x k'.
Proof.
  intros Hk Hm He Hc He' Er Eh Ep En Ea Hs Hok. pose proof (ci_live _ _ Hk rm m Hm He) as Hreg.
  split; rewrite ?Er, ?Eh, ?Ep, ?En, ?Ea.
  - intros h Hh. destruct (ci_fresh _ _ Hk h Hh) as [H1 H2]. split; [|done].
    rewrite lookup_insert_ne; [done|]. congruence.
  - intros c rm' Hr. destruct (ci_rooms _ _ Hk c rm' Hr) as (n & Hn & Hcn & Hen).
    destruct (decide (rm' = rm)) as [->|Hne].
    + exists m'. rewrite lookup_insert_eq. rewrite Hm in Hn. injection Hn as <-. by rewrite Hc.
    + exists n. by rewrite lookup_insert_ne.
  - intros rm' n Hn Hen. destruct (decide (rm' = rm)) as [->|Hne].
    + rewrite lookup_insert_eq in Hn. injection Hn as <-. by rewrite Hc.
    + rewrite lookup_insert_ne in Hn by done. by apply (ci_live _ _ Hk).
  - intros w id c. rewrite Hs, (ci_slots _ _ Hk). split.
    + intros [(Hcc & rm' & n & Hr & Hn & Hwn & Hin)|(-> & -> & Hin)].
      * exists rm', n. rewrite lookup_insert_ne; [done|]. intros ->.
        destruct (ci_code_of x k Hk c rm' n); congruence.
      * exists rm, m'. by rewrite lookup_insert_eq.
    + intros (rm' & n & Hr & Hn & Hwn & Hin). destruct (decide (rm' = rm)) as [->|Hne].
      * right. rewrite lookup_insert_eq in Hn. injection Hn as <-.
        destruct (ci_rooms _ _ Hk _ _ Hr) as (n & Hn & <- & _). assert (n = m) by congruence. by subst.
      * left. rewrite lookup_insert_ne in Hn by done. split; [|by exists rm', n]. intros ->. congruence.
  - intros p rm' pid nick Hp. destruct (ci_part _ _ Hk _ _ _ _ Hp) as [Hs' Hpid]. split; [|done].
    destruct (decide (rm' = rm)) as [->|Hne]; [by rewrite lookup_insert_eq|by rewrite lookup_insert_ne].
  - intros rm' n Hn. destruct (decide (rm' = rm)) as [->|Hne].
    + rewrite lookup_insert_eq in Hn. by injection Hn as <-.
    + rewrite lookup_insert_ne in Hn by done. by apply (ci_ok _ _ Hk).
Qed.

(** An ended room, or one that keeps its code, the kind of its slots and its
    attachments' IDs. *)
Lemma CI_room x k rm m m' :
  CI x k → k_heap k !! rm = Some m → rc_code m' = rc_code m → rc_ended m' = rc_ended m →
  (rc_ended m = false → rc_wall m' = rc_wall m ∧ (rc_atts m').*1 = (rc_atts m).*1) →
  room_ok (x ≠ Some rm) (k_parts k) (k_armed k) rm m' →
  CI x (k_set_room rm m' k).
Proof.
  intros Hk Hm Hc He Hwa Hok. destruct (rc_ended m) eqn:Hem.
  - split; cbn.
    + intros h Hh. destruct (ci_fresh _ _ Hk h Hh) as [H1 H2]. split; [|done].
      rewrite lookup_insert_ne; [done|]. congruence.
    + intros c rm' Hr. destruct (ci_rooms _ _ Hk c rm' Hr) as (n & Hn & Hcn & Hen).
      exists n. rewrite lookup_insert_ne; [done|]. congruence.
    + intros rm' n Hn Hen. destruct (decide (rm' = rm)) as [->|Hne].
      * rewrite lookup_insert_eq in Hn. congruence.
      * rewrite lookup_insert_ne in Hn by done. by apply (ci_live _ _ Hk).
    + intros w id c. rewrite k_slots_room, (ci_slots _ _ Hk).
      split; intros (rm' & n & Hr & Hn & Hwn & Hin); exists rm', n.
      * destruct (ci_rooms _ _ Hk _ _ Hr) as (n' & ? & _ & ?). rewrite lookup_insert_ne; [done|]. congruence.
      * rewrite lookup_insert_ne in Hn; [done|]. intros ->.
        destruct (ci_rooms _ _ Hk _ _ Hr) as (n' & ? & _ & ?). congruence.
    + intros p rm' pid nick Hp. destruct (ci_part _ _ Hk _ _ _ _ Hp) as [Hs' Hpid]. split; [|done].
      destruct (decide (rm' = rm)) as [->|Hne]; [by rewrite lookup_insert_eq|by rewrite lookup_insert_ne].
    + intros rm' n Hn. destruct (decide (rm' = rm)) as [->|Hne].
      * rewrite lookup_insert_eq in Hn. by injection Hn as <-.
      * rewrite lookup_insert_ne in Hn by done. by apply (ci_ok _ _ Hk).
  - destruct Hwa as [Hw Ha]; [done|]. eapply CI_reslot; try done. intros w id c.
    rewrite k_slots_room, Hw, Ha. split.
    + intros Hs. destruct (decide (c = rc_code m)) as [->|]; [right|by left]. split; [done|].
      apply (ci_slots _ _ Hk) in Hs as (rm' & n & Hr & Hn & <- & Hin).
      pose proof (ci_live _ _ Hk rm m Hm Hem). assert (rm' = rm) by congruence. subst rm'.
      by assert (n = m) as -> by congruence.
    + intros [[_ Hs]|(-> & -> & Hin)]; [done|]. by apply (ci_slot x k Hk rm).
Qed.

(** *** Attachments *)

Definition labels_ok (l : list (bytes * bytes)) : Prop :=
  ∀ i j lb, (i, lb) ∈ l → (j, lb) ∈ l → lb ≠ [] → i = j.
Lemma room_ok_atts T parts armed rm m l :
  room_ok T parts armed rm m → NoDup l.*1 → labels_ok l → room_ok T parts armed rm (rc_set_atts l m).
Proof. intros []. by split. Qed.
Lemma room_ok_wall T parts armed rm m w :
  room_ok T parts armed rm m → room_ok T parts armed rm (rc_set_wall w m).
Proof. intros []. by split. Qed.
Lemma labels_ok_sub l l' : (∀ y, y ∈ l' → y ∈ l) → labels_ok l → labels_ok l'.
Proof. intros Hs Hl i j lb Hi Hj. apply (Hl i j lb); by apply Hs. Qed.
Lemma labels_ok_add l id lb : labels_ok l → (lb = [] ∨ lb ∉ l.*2) → labels_ok (l ++ [(id, lb)]).
Proof.
  intros Hl Hlb i j b Hi Hj Hb. apply elem_of_app in Hi, Hj.
  rewrite list_elem_of_singleton in Hi, Hj.
  assert (Hno : ∀ i', (i', lb) ∈ l → lb ≠ [] → False).
  { intros i' Hin Hne. destruct Hlb as [|Hlb]; [done|]. apply Hlb, list_elem_of_fmap. by exists (i', lb). }
  destruct Hi as [Hi|Hi], Hj as [Hj|Hj]; simplify_eq; try done.
  - by apply (Hl i j b).
  - by destruct (Hno i).
  - by destruct (Hno j).
Qed.

(** the slots after a change of the room's own kind of slots *)
Lemma slots_one k k' w0 code (ids ids' : list bytes) :
  (∀ w id c, k_slots w k !! id = Some c → c = code → w = w0 ∧ id ∈ ids) →
  (∀ id, k_slots w0 k' !! id = if decide (id ∈ ids') then Some code
                               else if decide (id ∈ ids) then None else k_slots w0 k !! id) →
  k_slots (negb w0) k' = k_slots (negb w0) k →
  (∀ id, id ∈ ids' → id ∈ ids ∨ k_slots w0 k !! id = None) →
  (∀ id, id ∈ ids → k_slots w0 k !! id = Some code) →
  ∀ w id c, k_slots w k' !! id = Some c ↔
    (c ≠ code ∧ k_slots w k !! id = Some c) ∨ (c = code ∧ w = w0 ∧ id ∈ ids').
Proof.
  intros Hown Hs Ho Hnew Hold w id c. destruct (Bool.bool_dec w w0) as [->|Hw].
  - rewrite Hs. destruct (decide (id ∈ ids')) as [Hin|Hin].
    + split; [intros [= <-]; by right|]. intros [[Hc Hk]|[-> _]]; [|done].
      destruct (Hnew id Hin) as [Hi|Hn]; [apply Hold in Hi|]; congruence.
    + destruct (decide (id ∈ ids)) as [Hi|Hi].
      * split; [done|]. intros [[Hc Hk]|(_ & _ & ?)]; [|done]. apply Hold in Hi. congruence.
      * split; [|intros [[_ ?]|(_ & _ & ?)]; done]. intros Hk. left. split; [|done].
        intros ->. destruct (Hown _ _ _ Hk eq_refl) as [_ ?]. done.
  - assert (w = negb w0) as -> by by destruct w, w0. rewrite Ho. split.
    + intros Hk. left. split; [|done]. intros ->. by destruct (Hown _ _ _ Hk eq_refl) as [? _].
    + by intros [[_ ?]|(_ & ? & _)].
Qed.
Lemma slots_own x k rm m : CI x k → k_heap k !! rm = Some m → rc_ended m = false →
  ∀ w id c, k_slots w k !! id = Some c → c = rc_code m → w = rc_wall m ∧ id ∈ (rc_atts m).*1.
Proof.
  intros Hk Hm He w id c Hs ->. apply (ci_slots _ _ Hk) in Hs as (rm' & n & Hr & Hn & Hw & Hin).
  pose proof (ci_live _ _ Hk rm m Hm He). assert (rm' = rm) as -> by congruence.
  by assert (n = m) as -> by congruence.
Qed.

Lemma CI_attach x k rm m id lb :
  CI x k → k_heap k !! rm = Some m → rc_ended m = false → k_slots (rc_wall m) k !! id = None →
  (lb = [] ∨ lb ∉ (rc_atts m).*2) →
  CI x (k_set_slots (rc_wall m) <[id := rc_code m]>
         (k_set_room rm (rc_set_atts (rc_atts m ++ [(id, lb)]) m) k)).
Proof.
  intros Hk Hm He Hfree Hlb. pose proof (ci_ok _ _ Hk rm m Hm) as Hok.
  assert (Hnew : id ∉ (rc_atts m).*1).
  { intros Hin. apply (ci_slot x k Hk rm) in Hin; [|done..]. congruence. }
  eapply (CI_reslot _ _ _ _ _ (rc_set_atts _ m) Hk Hm He eq_refl He); try reflexivity.
  - cbn [rc_wall rc_atts rc_set_atts]. rewrite fmap_app. cbn [fmap list_fmap fst].
    apply (slots_one _ _ _ _ (rc_atts m).*1).
    + by eapply slots_own.
    + intros id'. rewrite k_slots_set, Bool.eqb_reflx, k_slots_room.
      destruct (decide (id' = id)) as [->|Hne].
      * rewrite lookup_insert_eq, decide_True; [done|]. apply elem_of_app. right. by left.
      * rewrite lookup_insert_ne by done. destruct (decide (id' ∈ (rc_atts m).*1)) as [Hin|Hin].
        -- rewrite decide_True by (apply elem_of_app; by left). by apply (ci_slot x k Hk rm).
        -- rewrite decide_False; [done|]. rewrite elem_of_app, list_elem_of_singleton. tauto.
    + rewrite k_slots_set. by destruct (rc_wall m).
    + intros id'. rewrite elem_of_app, list_elem_of_singleton. intros [?| ->]; [by left|by right].
    + intros id' Hin. by apply (ci_slot x k Hk rm).
  - apply (room_ok_atts _ _ _ _ _ _ Hok).
    + rewrite fmap_app. apply NoDup_app. split; [apply (ro_ids _ _ _ _ _ Hok)|].
      split; [|cbn; apply NoDup_singleton]. intros y Hy. cbn. rewrite list_elem_of_singleton. by intros ->.
    + apply labels_ok_add; [exact (ro_labels _ _ _ _ _ Hok)|done].
Qed.

(** the attachments but one *)
Definition without (id : bytes) (l : list (bytes * bytes)) : list (bytes * bytes) :=
  filter (λ a, a.1 ≠ id) l.
Lemma elem_of_without i id l : i ∈ (without id l).*1 ↔ i ≠ id ∧ i ∈ l.*1.
Proof.
  unfold without. rewrite !list_elem_of_fmap. split.
  - intros (y & -> & [? Hy]%list_elem_of_filter). split; [done|by exists y].
  - intros [Hne (y & -> & Hy)]. exists y. split; [done|]. by apply list_elem_of_filter.
Qed.
Lemma NoDup_fmap_filter (P : bytes * bytes → Prop) `{∀ a, Decision (P a)} l : NoDup l.*1 → NoDup (filter P l).*1.
Proof.
  induction l as [|a l IH]; [done|]. cbn [fmap list_fmap]. intros [Ha Hl]%NoDup_cons. rewrite filter_cons.
  case_decide; [|by apply IH]. cbn [fmap list_fmap]. apply NoDup_cons. split; [|by apply IH].
  contradict Ha. apply list_elem_of_fmap in Ha as (y & -> & [_ Hy]%list_elem_of_filter).
  apply list_elem_of_fmap. by exists y.
Qed.

Lemma CI_detach x k rm m id :
  CI x k → k_heap k !! rm = Some m → rc_ended m = false → id ∈ (rc_atts m).*1 →
  CI x (k_set_slots (rc_wall m) (delete id)
         (k_set_room rm (rc_set_atts (without id (rc_atts m)) m) k)).
Proof.
  intros Hk Hm He Hid. pose proof (ci_ok _ _ Hk rm m Hm) as Hok.
  eapply (CI_reslot _ _ _ _ _ (rc_set_atts _ m) Hk Hm He eq_refl He); try reflexivity.
  - cbn [rc_wall rc_atts rc_set_atts]. apply (slots_one _ _ _ _ (rc_atts m).*1).
    + by eapply slots_own.
    + intros id'. rewrite k_slots_set, Bool.eqb_reflx, k_slots_room.
      destruct (decide (id' = id)) as [->|Hne].
      * rewrite lookup_delete_eq, decide_False, decide_True; [done|done|]. rewrite elem_of_without. tauto.
      * rewrite lookup_delete_ne by done. destruct (decide (id' ∈ (rc_atts m).*1)) as [Hin|Hin].
        -- rewrite decide_True by by apply elem_of_without. by apply (ci_slot x k Hk rm).
        -- rewrite decide_False; [done|]. rewrite elem_of_without. tauto.
    + rewrite k_slots_set. by destruct (rc_wall m).
    + intros id' [_ ?]%elem_of_without. by left.
    + intros id' Hin. by apply (ci_slot x k Hk rm).
  - apply (room_ok_atts _ _ _ _ _ _ Hok).
    + apply NoDup_fmap_filter, (ro_ids _ _ _ _ _ Hok).
    + apply (labels_ok_sub (rc_atts m)); [by intros y [_ Hy]%list_elem_of_filter|exact (ro_labels _ _ _ _ _ Hok)].
Qed.

(** *** Timers *)

Lemma k_set_room_same rm m k : k_heap k !! rm = Some m → k_set_room rm m k = k.
Proof. intros Hm. destruct k. unfold k_set_room; cbn in *. by rewrite insert_id. Qed.
Lemma k_set_room_twice rm m m' k : k_set_room rm m (k_set_room rm m' k) = k_set_room rm m k.
Proof. unfold k_set_room; cbn. by rewrite insert_insert_eq. Qed.
Lemma rc_timer_same m : rc_set_timer (rc_timer m) (rc_gen m) m = m.
Proof. by destruct m. Qed.

Lemma CI_arm x t k : CI x k → CI x (k_arm t k).
Proof.
  intros []; split; try done. intros rm m Hm. destruct (ci_ok0 rm m Hm); split; try done.
  intros Ht. apply elem_of_app. left. by apply ro_armed0.
Qed.
Lemma CI_timer k rm m b gen :
  CI (Some rm) k → k_heap k !! rm = Some m → (b = true → (rc_code m, rm, gen) ∈ k_armed k) →
  CI (Some rm) (k_set_room rm (rc_set_timer b gen m) k).
Proof.
  intros Hk Hm Hb. pose proof (ci_ok _ _ Hk rm m Hm) as Hok. eapply CI_room; try done.
  eapply room_ok_mono; [| | | | | | |exact Hok]; try done. apply (ro_next _ _ _ _ _ Hok).
Qed.
Lemma CI_next x k rm m n :
  CI x k → k_heap k !! rm = Some m → is_uint 16 n → CI x (k_set_room rm (rc_set_next n m) k).
Proof.
  intros Hk Hm Hn. pose proof (ci_ok _ _ Hk rm m Hm) as Hok. eapply CI_room; try done.
  eapply room_ok_mono; [| | | | | | |exact Hok]; try done. apply (ro_armed _ _ _ _ _ Hok).
Qed.

(** *** Handles *)

Lemma CI_alloc x k : CI x k → CI x (k_alloc k).
Proof. intros []; split; try done. cbn. intros h Hh. apply ci_fresh0. lia. Qed.

Lemma CI_nonces x f k : CI x k → CI x (k_set_nonces f k).
Proof. intros []; by split. Qed.

(** nobody's participant map names a handle that stands for nothing, or for
    another member *)
Lemma CI_put_part x k p rm pid nick :
  CI x k → (p < k_next k)%nat → k_parts k !! p = None → is_Some (k_heap k !! rm) → 1 ≤ pid < 65536 →
  CI x (k_set_part p (rm, pid, nick) k).
Proof.
  intros Hk Hp Hnone Hrm Hpid. split; cbn; try apply Hk.
  - intros h Hh. destruct (ci_fresh _ _ Hk h Hh) as [? ?]. split; [done|].
    rewrite lookup_insert_ne; [done|]. intros ->. lia.
  - intros q rm' pid' nick' Hq. destruct (decide (q = p)) as [->|Hne].
    + rewrite lookup_insert_eq in Hq. by simplify_eq.
    + rewrite lookup_insert_ne in Hq by done. by apply (ci_part _ _ Hk q _ _ nick').
  - intros rm' m Hm. destruct (ci_ok _ _ Hk rm' m Hm).
    assert (Hne : ∀ i q, rc_parts m !! i = Some q → q ≠ p).
    { intros i q Hq ->. destruct (ro_member0 i p Hq) as (_ & nk & ? & _). congruence. }
    split; try done.
    + intros i q Hq. rewrite lookup_insert_ne by (by apply not_eq_sym, (Hne i)). by apply ro_member0.
    + intros i j q q' nk Hq Hq'. pose proof (Hne i q Hq). pose proof (Hne j q' Hq').
      rewrite !lookup_insert_ne by done. by apply ro_nicks0.
Qed.
Lemma CI_nick x k p rm m pid nick old :
  CI x k → k_parts k !! p = Some (rm, pid, old) → k_heap k !! rm = Some m →
  text_ok nick MaxRoomNicknameLen →
  (∀ i q nk, rc_parts m !! i = Some q → i ≠ pid → k_parts k !! q = Some (rm, i, nk) → nk ≠ nick) →
  CI x (k_set_part p (rm, pid, nick) k).
Proof.
  intros Hk Hp Hm Ht Hother. split; cbn; try apply Hk.
  - intros h Hh. destruct (ci_fresh _ _ Hk h Hh) as [? ?]. split; [done|].
    rewrite lookup_insert_ne; [done|]. congruence.
  - intros q rm' pid' nick' Hq. destruct (decide (q = p)) as [->|Hne].
    + rewrite lookup_insert_eq in Hq. simplify_eq. by apply (ci_part _ _ Hk p _ _ old).
    + rewrite lookup_insert_ne in Hq by done. by apply (ci_part _ _ Hk q _ _ nick').
  - intros rm' n Hn. destruct (ci_ok _ _ Hk rm' n Hn).
    assert (Hpn : ∀ i, rc_parts n !! i = Some p → rm' = rm ∧ i = pid).
    { intros i Hi. destruct (ro_member0 i p Hi) as (_ & nk & Hpk & _). by simplify_eq. }
    split; try done.
    + intros i q Hq. destruct (ro_member0 i q Hq) as (Hi & nk & Hnk & Htk). split; [done|].
      destruct (decide (q = p)) as [->|Hne].
      * destruct (Hpn i Hq) as [-> ->]. exists nick. by rewrite lookup_insert_eq.
      * exists nk. by rewrite lookup_insert_ne.
    + intros i j q q' nk Hq Hq' Hi Hj.
      destruct (decide (q = p)) as [->|Hne], (decide (q' = p)) as [->|Hne'];
        apply lookup_insert_Some in Hi, Hj;
        destruct Hi as [[? Hi]|[? Hi]], Hj as [[? Hj]|[? Hj]]; try congruence.
      * injection Hi as <- <- <-. assert (n = m) as -> by congruence.
        destruct (decide (j = pid)) as [->|Hj']; [done|]. by destruct (Hother j q' nick).
      * injection Hj as <- <- <-. assert (n = m) as -> by congruence.
        destruct (decide (i = pid)) as [->|Hi']; [done|]. by destruct (Hother i q nick).
      * by apply (ro_nicks0 i j q q' nk).
Qed.

(** *** Members *)

Lemma CI_join k rm m p pid nick :
  CI (Some rm) k → k_heap k !! rm = Some m → rc_parts m !! pid = None → 1 ≤ pid < 65536 →
  k_parts k !! p = Some (rm, pid, nick) → text_ok nick MaxRoomNicknameLen →
  (∀ i q nk, rc_parts m !! i = Some q → k_parts k !! q = Some (rm, i, nk) → nk ≠ nick) →
  CI (Some rm) (k_set_room rm (rc_set_parts (<[pid := p]> (rc_parts m)) m) k).
Proof.
  intros Hk Hm Hfree Hpid Hp Ht Hother. eapply CI_room; try done.
  destruct (ci_ok _ _ Hk rm m Hm). split; cbn; try done.
  - intros i q Hq. destruct (decide (i = pid)) as [->|Hne].
    + rewrite lookup_insert_eq in Hq. injection Hq as <-. split; [done|]. by exists nick.
    + rewrite lookup_insert_ne in Hq by done. by apply ro_member0.
  - intros i j q q' nk Hq Hq' Hi Hj.
    destruct (decide (i = pid)) as [->|Hne], (decide (j = pid)) as [->|Hne'];
      apply lookup_insert_Some in Hq, Hq';
      destruct Hq as [[? Hq]|[? Hq]], Hq' as [[? Hq']|[? Hq']]; try congruence.
    + assert (nk = nick) as -> by congruence. by destruct (Hother j q' nick).
    + assert (nk = nick) as -> by congruence. by destruct (Hother i q nick).
    + by apply (ro_nicks0 i j q q' nk).
Qed.
Lemma CI_leave k rm m pid :
  CI (Some rm) k → k_heap k !! rm = Some m →
  CI (Some rm) (k_set_room rm (rc_set_parts (delete pid (rc_parts m)) m) k).
Proof.
  intros Hk Hm. eapply CI_room; try done. destruct (ci_ok _ _ Hk rm m Hm). split; cbn; try done.
  - intros i q [_ Hq]%lookup_delete_Some. by apply ro_member0.
  - intros i j q q' nk [_ Hq]%lookup_delete_Some [_ Hq']%lookup_delete_Some. by apply ro_nicks0.
Qed.

(** *** Rooms come and go *)

Lemma CI_new_room k rm m :
  CI None k → (rm < k_next k)%nat → k_heap k !! rm = None → k_rooms k !! rc_code m = None →
  slug (rc_code m) → rc_ended m = false → rc_atts m = [] → rc_parts m = ∅ → rc_timer m = false →
  is_uint 16 (rc_next m) →
  CI (Some rm) (k_set_rooms <[rc_code m := rm]> (k_set_room rm m k)).
Proof.
  intros Hk Hrm Hnone Hfree Hslug He Ha Hp Ht Hn.
  assert (Hold : ∀ c r, k_rooms k !! c = Some r → r ≠ rm ∧ c ≠ rc_code m).
  { intros c r Hr. destruct (ci_rooms _ _ Hk c r Hr) as (n & ? & _). split; congruence. }
  assert (Hheap : ∀ r n, k_heap k !! r = Some n → r ≠ rm) by congruence.
  split; cbn.
  - intros h Hh. destruct (ci_fresh _ _ Hk h Hh) as [? ?]. split; [|done].
    rewrite lookup_insert_ne; [done|]. intros ->. lia.
  - intros c r [[<- <-]|[Hne Hr]]%lookup_insert_Some.
    + exists m. by rewrite lookup_insert_eq.
    + destruct (ci_rooms _ _ Hk c r Hr) as (n & Hn' & ? & ?). exists n.
      rewrite lookup_insert_ne; [done|]. by apply not_eq_sym, (Hheap r n).
  - intros r n [[<- <-]|[Hne Hr]]%lookup_insert_Some Hen; [by rewrite lookup_insert_eq|].
    pose proof (ci_live _ _ Hk r n Hr Hen) as Hreg. rewrite lookup_insert_ne; [done|].
    apply not_eq_sym, (Hold _ _ Hreg).
  - intros w id c. rewrite k_slots_rooms, k_slots_room, (ci_slots _ _ Hk). split.
    + intros (r & n & Hr & Hn' & Hw & Hin). exists r, n. destruct (Hold c r Hr) as [H1 H2].
      by rewrite !lookup_insert_ne.
    + intros (r & n & Hr & Hn' & Hw & Hin).
      apply lookup_insert_Some in Hn' as [[<- <-]|[Hne Hn']].
      { rewrite Ha in Hin. by apply not_elem_of_nil in Hin. }
      apply lookup_insert_Some in Hr as [[<- <-]|[Hne' Hr]]; [done|]. by exists r, n.
  - intros p r pid nick Hpk. destruct (ci_part _ _ Hk _ _ _ _ Hpk) as [[n Hs] Hpid]. split; [|done].
    rewrite lookup_insert_ne; [by exists n|]. by apply not_eq_sym, (Hheap r n).
  - intros r n [[<- <-]|[Hne Hr]]%lookup_insert_Some.
    + split; rewrite ?Ha, ?Hp, ?Ht; try done.
      * constructor.
      * intros i j l H. by apply not_elem_of_nil in H.
    + destruct (ci_ok _ _ Hk r n Hr); split; try done. intros _. by apply ro_timer0.
Qed.

Lemma delete_all_lookup {A} (f : A → bytes) (l : list A) : ∀ (s : gmap bytes bytes) id,
  foldl (λ s a, delete (f a) s) s l !! id = if decide (id ∈ f <$> l) then None else s !! id.
Proof.
  induction l as [|a l IH]; intros s id; cbn [foldl fmap list_fmap]; [by rewrite decide_False by apply not_elem_of_nil|].
  rewrite IH. destruct (decide (id ∈ f <$> l)) as [Hin|Hin].
  - by rewrite decide_True by by right.
  - destruct (decide (id = f a)) as [->|Hne].
    + rewrite lookup_delete_eq, decide_True; [done|by left].
    + rewrite lookup_delete_ne, decide_False by (rewrite ?elem_of_cons; intuition congruence). done.
Qed.

Lemma CI_end k rm m del :
  CI None k → k_heap k !! rm = Some m → rc_ended m = false →
  (∀ (s : gmap bytes bytes) id, del s !! id = if decide (id ∈ (rc_atts m).*1) then None else s !! id) →
  CI None (k_set_slots (rc_wall m) del
    (k_set_rooms (delete (rc_code m)) (k_set_room rm (rc_set_timer false (rc_gen m) (rc_set_ended true m)) k))).
Proof.
  intros Hk Hm He Hdel. pose proof (ci_live _ _ Hk rm m Hm He) as Hreg.
  split; cbn.
  - intros h Hh. destruct (ci_fresh _ _ Hk h Hh) as [? ?]. split; [|done].
    rewrite lookup_insert_ne; [done|]. congruence.
  - intros c r [Hne Hr]%lookup_delete_Some. destruct (ci_rooms _ _ Hk c r Hr) as (n & Hn & Hc & Hen).
    exists n. rewrite lookup_insert_ne; [done|]. congruence.
  - intros r n [[<- <-]|[Hne Hr]]%lookup_insert_Some Hen; [done|].
    pose proof (ci_live _ _ Hk r n Hr Hen). rewrite lookup_delete_ne; [done|]. congruence.
  - intros w id c.
    assert (Hs : k_slots w (k_set_slots (rc_wall m) del k) !! id = Some c ↔
      c ≠ rc_code m ∧ k_slots w k !! id = Some c).
    { rewrite k_slots_set. pose proof (slots_own _ _ rm m Hk Hm He w id c) as Hown.
      destruct (Bool.eqb w (rc_wall m)) eqn:Hw.
      - apply Bool.eqb_prop in Hw as ->. rewrite Hdel. destruct (decide _) as [Hin|Hin].
        + apply (ci_slot _ k Hk rm) in Hin; [|done..]. rewrite Hin. split; [done|]. intros [Hc [= <-]]. done.
        + split; [|by intros [_ ?]]. intros Hs. split; [|done]. intros ->. by apply Hown in Hs as [_ ?].
      - split; [|by intros [_ ?]]. intros Hs. split; [|done]. intros ->.
        apply Hown in Hs as [-> _]; [|done]. by rewrite Bool.eqb_reflx in Hw. }
    rewrite k_slots_set, k_slots_rooms, k_slots_room, <- k_slots_set, Hs, (ci_slots _ _ Hk). split.
    + intros (Hc & r & n & Hr & Hn & Hw & Hin). exists r, n.
      assert (rm ≠ r) by (intros <-; destruct (ci_code_of _ k Hk c rm m); congruence).
      by rewrite lookup_delete_ne, lookup_insert_ne.
    + intros (r & n & Hr & Hn & Hw & Hin). apply lookup_delete_Some in Hr as [Hc Hr].
      split; [done|]. exists r, n. rewrite lookup_insert_ne in Hn; [done|]. intros ->.
      destruct (ci_code_of _ k Hk c r m); congruence.
  - intros p r pid nick Hpk. destruct (ci_part _ _ Hk _ _ _ _ Hpk) as [[n Hs] Hpid]. split; [|done].
    destruct (decide (r = rm)) as [->|Hne]; [by rewrite lookup_insert_eq|]. rewrite lookup_insert_ne by done. by exists n.
  - intros r n [[<- <-]|[Hne Hr]]%lookup_insert_Some.
    + pose proof (ci_ok _ _ Hk rm m Hm) as Hok. destruct Hok. split; cbn; try done. intros _.
      symmetry. apply bool_decide_eq_false. by intros (_ & ? & _).
    + by apply (ci_ok _ _ Hk).
Qed.

(** *** A room that becomes a party wall, or stops being one *)

Lemma rekind_loop_spec code l : ∀ from to keep gone from' to',
  NoDup (a_id <$> l) → rekind_loop code l from to = (keep, gone, from', to') →
  (∀ id, from' !! id = if decide (id ∈ a_id <$> l) then None else from !! id) ∧
  (∀ id, to' !! id = if decide (id ∈ a_id <$> keep) then Some code else to !! id) ∧
  (∀ id c, id ∈ a_id <$> keep → to !! id = Some c → c = code) ∧
  keep `sublist_of` l.
Proof.
  induction l as [|a l IH]; intros from to keep gone from' to' Hnd; cbn [rekind_loop].
  { intros [= <- <- <- <-]. cbn. split; [|split; [|split; [|done]]].
    - intros id. by rewrite decide_False by apply not_elem_of_nil.
    - intros id. by rewrite decide_False by apply not_elem_of_nil.
    - intros id c H. by apply not_elem_of_nil in H. }
  cbn [fmap list_fmap] in Hnd. apply NoDup_cons in Hnd as [Ha Hnd].
  assert (Hdel : ∀ id, (if decide (id ∈ a_id <$> l) then None else delete (a_id a) from !! id) =
                       (if decide (id ∈ a_id a :: (a_id <$> l)) then None else from !! id)).
  { intros id. destruct (decide (id = a_id a)) as [->|Hne].
    - rewrite lookup_delete_eq, (decide_True (P := _ ∈ _ :: _)) by by left. by case_decide.
    - rewrite lookup_delete_ne by done. destruct (decide (id ∈ a_id <$> l)) as [Hi|Hi].
      + by rewrite decide_True by by right.
      + rewrite decide_False; [done|]. rewrite elem_of_cons. tauto. }
  destruct (to !! a_id a) as [other|] eqn:Hto; [destruct (decide (other = code)) as [->|Ho]|].
  2: { rewrite bool_decide_eq_false_2 by done. cbn [negb].
    destruct (rekind_loop _ _ _ _) as [[[keep' gone'] f] t] eqn:E. intros [= <- <- <- <-].
    destruct (IH _ _ _ _ _ _ Hnd E) as (H1 & H2 & H3 & H4).
    split; [intros id; by rewrite H1, Hdel|]. split; [done|]. split; [done|]. by apply sublist_cons. }
  all: rewrite ?bool_decide_eq_true_2 by done; cbn [negb].
  all: destruct (rekind_loop _ _ _ _) as [[[keep' gone'] f] t] eqn:E; intros [= <- <- <- <-].
  all: destruct (IH _ _ _ _ _ _ Hnd E) as (H1 & H2 & H3 & H4).
  all: split; [intros id; by rewrite H1, Hdel|].
  all: assert (Hni : a_id a ∉ a_id <$> keep')
         by (contradict Ha; eapply elem_of_submseteq; [exact Ha|by apply sublist_submseteq, fmap_sublist]).
  all: cbn [fmap list_fmap]; split; [|split; [|by apply sublist_skip]].
  all: intros id.
  1, 3: rewrite H2; destruct (decide (id ∈ a_id <$> keep')) as [Hi|Hi];
     [by rewrite decide_True by by right|]; destruct (decide (id = a_id a)) as [->|Hne];
     [rewrite lookup_insert_eq, decide_True; [done|by left]|];
     rewrite lookup_insert_ne, decide_False; [done| |done]; rewrite elem_of_cons; tauto.
  all: intros c [->|Hi]%elem_of_cons Hc; [congruence|]; apply (H3 id c Hi); rewrite lookup_insert_ne; [done|congruence].
Qed.

Lemma CI_rekind k k' rm m keep gone from' to' l :
  CI None k → k_heap k !! rm = Some m → rc_ended m = false → rc_atts m = map att_core l →
  rekind_loop (rc_code m) l (k_slots (rc_wall m) k) (k_slots (negb (rc_wall m)) k) = (keep, gone, from', to') →
  k_rooms k' = k_rooms k →
  k_heap k' = <[rm := rc_set_atts (map att_core keep) (rc_set_wall (negb (rc_wall m)) m)]> (k_heap k) →
  k_parts k' = k_parts k → k_next k' = k_next k → k_armed k' = k_armed k →
  k_slots (rc_wall m) k' = from' → k_slots (negb (rc_wall m)) k' = to' →
  CI None k'.
Proof.
  intros Hk Hm He Hl E E1 E2 E3 E4 E5 Hfrom Hto. pose proof (ci_ok _ _ Hk rm m Hm) as Hok.
  assert (Hids : ∀ l : list attachment, (map att_core l).*1 = a_id <$> l).
  { intros l'. unfold fmap. change (@list_fmap) with (@map). by rewrite map_map. }
  assert (Hnd : NoDup (a_id <$> l)) by (rewrite <- Hids, <- Hl; apply (ro_ids _ _ _ _ _ Hok)).
  destruct (rekind_loop_spec _ _ _ _ _ _ _ _ Hnd E) as (H1 & H2 & H3 & H4).
  pose proof (slots_own _ _ rm m Hk Hm He) as Hown.
  apply (CI_reslot _ _ _ _ _ (rc_set_atts (map att_core keep) (rc_set_wall (negb (rc_wall m)) m)) Hk Hm He eq_refl He); try done.
  - intros w id c. cbn [rc_wall rc_set_atts rc_set_wall rc_atts]. rewrite Hids.
    destruct (Bool.bool_dec w (rc_wall m)) as [->|Hw].
    + rewrite Hfrom, H1. rewrite <- Hids, <- Hl. destruct (decide _) as [Hin|Hin].
      * apply (ci_slot _ _ Hk rm) in Hin; [|done..]. rewrite Hin. split; [done|].
        intros [[? [= <-]]|(_ & Hx & _)]; [done|]. by destruct (rc_wall m).
      * split; [|by intros [[_ ?]|(_ & Hx & _)]; [|destruct (rc_wall m)]]. intros Hs. left. split; [|done].
        intros ->. by destruct (Hown _ _ _ Hs eq_refl).
    + assert (w = negb (rc_wall m)) as -> by by destruct w, (rc_wall m).
      rewrite Hto, H2. destruct (decide _) as [Hin|Hin].
      * split; [intros [= <-]; by right|]. intros [[Hc Hs]|[-> _]]; [|done].
        by rewrite (H3 id c Hin Hs) in Hc.
      * split; [|by intros [[_ ?]|(_ & _ & ?)]]. intros Hs. left. split; [|done]. intros ->.
        by destruct (Hown _ _ _ Hs eq_refl).
  - apply room_ok_atts; [by apply room_ok_wall| |].
    + rewrite Hids. eapply sublist_NoDup; [exact Hnd|by apply fmap_sublist].
    + apply (labels_ok_sub (rc_atts m)); [|exact (ro_labels _ _ _ _ _ Hok)].
      intros y Hy. rewrite Hl. apply list_elem_of_In, in_map_iff in Hy as (a & <- & Ha%list_elem_of_In).
      apply list_elem_of_In, in_map_iff. exists a. split; [done|]. apply list_elem_of_In.
      eapply elem_of_submseteq; [exact Ha|]. by apply sublist_submseteq.
Qed.
