(* ===== verification/RegSteps.v ===== *)
(** internal/roomsrv: every operation of the registry preserves its invariant.

    An operation is executed symbolically on the core ([runs]); the calls that
    [keeps] it are stepped over, and the elementary changes of RegInv.v account
    for the rest. [inv_ok m]: from a well-formed registry, [m] ends in one. *)
From S2P Require Export RegInv.
#[local] Open Scope Z_scope.
Import RoomHello(RoomHello) RoomCommand(RoomCommand).

Definition inv_ok {A} (m : St A) : Prop := ∀ k, CI None k → runs k m (λ _, CI None).

Lemma inv_keeps {A} (m : St A) : keeps m → inv_ok m.
Proof. intros Hm k Hk. by apply runs_keep_last. Qed.
Lemma inv_bind {A B} (m : St A) (f : A → St B) : inv_ok m → (∀ a, inv_ok (f a)) → inv_ok (m ≫= f).
Proof.
  intros Hm Hf k Hk. apply runs_bind. eapply runs_mono; [by apply Hm|]. intros a k' Hk'. by apply Hf.
Qed.
Lemma inv_forM {A} (l : list A) (f : A → St unit) : (∀ a, inv_ok (f a)) → inv_ok (forM l f).
Proof. intros Hf. unfold inv_ok. apply runs_forM. intros a k Hk _. by apply Hf. Qed.
Lemma runs_inv {A B} k (m : St A) (f : A → St B) Q :
  inv_ok m → CI None k → (∀ a k', CI None k' → runs k' (f a) Q) → runs k (m ≫= f) Q.
Proof. intros Hm Hk Hf. apply runs_bind. eapply runs_mono; [by apply Hm|done]. Qed.

Lemma runs_tail {A} k (m : St A) Q : runs k (m ≫= mret) Q → runs k m Q.
Proof.
  intros Hm g Hg. specialize (Hm g Hg). unfold mbind, st_bind in Hm. by destruct (m g).
Qed.

(** a handle that stands for nothing reads as the zero value *)
Lemma runs_get_part_or {B} k p (c : Participant → St B) Q :
  (∀ pt, k_parts k !! p = Some (part_core pt) → runs k (c pt) Q) →
  runs k (c zero_part) Q → runs k (get_part p ≫= c) Q.
Proof.
  intros Hc Hz. apply runs_gets. intros g <-. destruct (g_parts g !! p) as [pt|] eqn:Hp; [|done].
  apply Hc. cbn. by rewrite lookup_fmap, Hp.
Qed.
Lemma runs_get_room_or {B} k rm (c : room → St B) Q :
  (∀ m, k_heap k !! rm = Some (room_core_of m) → runs k (c m) Q) →
  runs k (c zero_room) Q → runs k (get_room rm ≫= c) Q.
Proof.
  intros Hc Hz. apply runs_gets. intros g <-. destruct (g_heap g !! rm) as [m|] eqn:Hm; [|done].
  apply Hc. cbn. by rewrite lookup_fmap, Hm.
Qed.
Lemma heap_set rm m k : k_heap (k_set_room rm m k) !! rm = Some m.
Proof. apply lookup_insert_eq. Qed.

(** one step over a call that keeps the core; the whole rest when it all does *)
Ltac keep := apply runs_keep; [solve [keeps_tac]|intros ?]; cbv beta zeta.
Ltac kept := apply runs_keep_last; [solve [keeps_tac]|intros ?; try done].
Tactic Notation "live" constr(H) "as" ident(r) ident(Hr) :=
  eapply runs_get_live; [exact H|intros r Hr]; cbv beta zeta.

Section Steps.
Context (opts : Options) (tokens : option Tokens).
Context (unicode_upper unicode_lower obfuscate fingerprint : bytes → bytes).
Context (hmac_sha256 : bytes → bytes → bytes).

(** ** The empty grace *)

Lemma runs_start k rm m now :
  CI (Some rm) k → k_heap k !! rm = Some m → rc_parts m = ∅ → rc_ended m = false →
  (rc_timer m = true → rc_kind m = KindDynamic) →
  runs k (startEmptyGraceLocked opts rm now) (λ _, CI None).
Proof.
  intros Hk Hm Hp He Ht. unfold startEmptyGraceLocked. live Hm as r Hr.
  assert (r_kind r = rc_kind m ∧ r_ended r = rc_ended m ∧ r_emptyTimer r = rc_timer m ∧ r_code r = rc_code m
    ∧ r_emptyGen r = rc_gen m) as (-> & -> & -> & Hc & Hg) by by subst m.
  rewrite He, orb_false_r. destruct (decide (rc_kind m = KindDynamic)) as [Hd|Hd].
  2: { rewrite bool_decide_eq_false_2 by done. cbn [negb orb]. kept. apply (CI_close rm); [done|].
    intros m' Hm'. assert (m' = m) as -> by congruence. rewrite bool_decide_eq_false_2 by tauto.
    destruct (rc_timer m); [by destruct Hd; apply Ht|done]. }
  rewrite bool_decide_eq_true_2 by done. cbn [negb orb]. destruct (rc_timer m) eqn:Htm.
  { kept. apply (CI_close rm); [done|]. intros m' Hm'. assert (m' = m) as -> by congruence.
    by rewrite bool_decide_eq_true_2. }
  set (m1 := rc_set_timer true (uint64 (rc_gen m + 1)) m).
  eapply (runs_upd_room _ _ _ _ _ _ m1); [exact Hm|by intros ? <-|]. live (heap_set rm m1 k) as r' Hr'. change (r_code r') with (rc_code (room_core_of r')).
  change (r_emptyGen r') with (rc_gen (room_core_of r')). rewrite Hr'. apply runs_arm.
  set (t := (rc_code m1, rm, rc_gen m1)).
  change (k_arm t (k_set_room rm m1 k)) with (k_set_room rm m1 (k_arm t k)).
  apply (CI_close rm).
  - apply CI_timer; [by apply CI_arm|done|]. intros _. apply elem_of_app. right. by left.
  - intros m' [= <-]%(eq_trans (eq_sym (heap_set _ _ _))). cbn. by rewrite Hp, He, Hd, bool_decide_eq_true_2.
Qed.

Lemma runs_clear k rm m Q :
  k_heap k !! rm = Some m → (∀ b, Q b (k_set_room rm (rc_set_timer false (rc_gen m) m) k)) →
  runs k (clearEmptyGraceLocked rm) Q.
Proof.
  intros Hm HQ. unfold clearEmptyGraceLocked. live Hm as r Hr.
  change (r_emptyTimer r) with (rc_timer (room_core_of r)). rewrite Hr.
  destruct (rc_timer m) eqn:Ht; cbn [negb].
  - apply (runs_upd_room _ _ _ _ _ m (rc_set_timer false (rc_gen m) m)); [done|by intros ? <-|].
    apply runs_ret, HQ.
  - apply runs_ret. rewrite <- (k_set_room_same rm m k) by done.
    replace m with (rc_set_timer false (rc_gen m) m) at 1; [apply HQ|]. rewrite <- Ht. apply rc_timer_same.
Qed.

(** ** Leaving *)

Lemma inv_Leave p now : inv_ok (Leave opts unicode_upper p now).
Proof.
  intros k Hk. unfold Leave. apply runs_get_part_or; [|by apply runs_ret]. intros pt Hp.
  destruct (p_left pt); [by apply runs_ret|]. keep.
  destruct (ci_part _ _ Hk _ _ _ _ Hp) as [[m Hm] _]. live Hm as r Hr.
  assert (Hrest : ∀ k' m' closes, CI (Some (p_room pt)) k' → k_heap k' !! p_room pt = Some m' →
    (rc_timer m' = true → rc_kind m' = KindDynamic ∧ rc_ended m' = false ∧ rc_parts m' = ∅) →
    (∀ r', room_core_of r' = m' → (r_ended r' = true ∨ r_participants r' ≠ ∅) → CI None k') →
    runs k' (m ← get_room (p_room pt);
      let nowEmpty := negb (r_ended m) && bool_decide (r_participants m = ∅) in
      _ ← (if nowEmpty then startEmptyGraceLocked opts (p_room pt) now else skip);
      _ ← upd_part p (set_p_closed (λ _, true));
      _ ← (if nowEmpty && bool_decide (r_kind m = KindDynamic) && HasOnRoomEmpty opts
           then emit (OnRoomEmpty (r_code m) true) else skip);
      runVoiceCloses closes) (λ _, CI None)).
  { intros k' m' closes Hk' Hm' Ht Hno. live Hm' as r' Hr'.
    destruct (negb (r_ended r') && bool_decide (r_participants r' = ∅)) eqn:He; cbn [andb].
    - apply andb_true_iff in He as [He%negb_true_iff Hem%bool_decide_eq_true].
      apply runs_bind. eapply runs_mono.
      + apply (runs_start _ _ m'); try done; [by subst m'|by subst m'|]. by intros [? _]%Ht.
      + intros [] k'' Hk''. by kept.
    - kept. apply (Hno r'); [done|]. apply andb_false_iff in He as [He|He].
      + left. by apply negb_false_iff.
      + right. by apply bool_decide_eq_false in He. }
  case_bool_decide as Hin.
  - apply runs_bind.
    set (m1 := rc_set_parts (delete (p_id pt) (rc_parts m)) m).
    assert (Hin' : rc_parts m !! p_id pt = Some p) by by subst m.
    assert (Ht : rc_timer m = false).
    { rewrite (ro_timer _ _ _ _ _ (ci_ok _ _ Hk _ m Hm)) by done. apply bool_decide_eq_false_2.
      intros (_ & _ & He). by rewrite He, lookup_empty in Hin'. }
    eapply (runs_upd_room _ _ _ _ _ _ m1); [exact Hm|by intros ? <-|].
    apply runs_keep_last; [keeps_tac|intros closes].
    apply (Hrest _ m1).
    + apply CI_leave; [by apply CI_weaken|done].
    + apply heap_set.
    + cbn. by rewrite Ht.
    + intros r' Hr' Hno. apply (CI_close (p_room pt)); [apply CI_leave; [by apply CI_weaken|done]|].
      intros m' [= <-]%(eq_trans (eq_sym (heap_set _ _ _))). cbn [rc_timer m1 rc_set_parts]. rewrite Ht.
      symmetry. apply bool_decide_eq_false_2. intros (_ & He & Hps).
      destruct Hno as [Hno|Hno]; [|apply Hno]; rewrite <- Hr' in *; cbn in *; congruence.
  - apply runs_bind, runs_ret. apply (Hrest k m); [by apply CI_weaken|done| |done].
    intros Ht. rewrite (ro_timer _ _ _ _ _ (ci_ok _ _ Hk _ m Hm)) in Ht by done. by apply bool_decide_eq_true in Ht.
Qed.
Lemma inv_closeAfterDrain p code reason now : inv_ok (closeAfterDrain opts unicode_upper p code reason now).
Proof.
  unfold closeAfterDrain. do 2 (apply inv_bind; [apply inv_keeps; keeps_tac|intros ?]).
  case_match; [apply inv_keeps; keeps_tac|]. apply inv_bind; [apply inv_keeps; keeps_tac|intros ?]. apply inv_Leave.
Qed.
Lemma inv_writeLoop p ok now : inv_ok (writeLoop opts unicode_upper p ok now).
Proof.
  unfold writeLoop. apply inv_bind; [apply inv_keeps; keeps_tac|intros pt].
  destruct (p_closed pt); [apply inv_keeps; keeps_tac|]. destruct (p_outbox pt); [apply inv_keeps; keeps_tac|].
  apply inv_bind; [apply inv_keeps; keeps_tac|intros _]. case_match; [apply inv_keeps; keeps_tac|].
  apply inv_bind; [apply inv_keeps; keeps_tac|intros _]. apply inv_Leave.
Qed.

Lemma fst_att_core (l : list attachment) : (map att_core l).*1 = map a_id l.
Proof. unfold fmap. change (@list_fmap) with (@map). by rewrite map_map. Qed.
Lemma snd_att_core (l : list attachment) : (map att_core l).*2 = map a_label l.
Proof. unfold fmap. change (@list_fmap) with (@map). by rewrite map_map. Qed.

Lemma inv_EndRoom code reason now : inv_ok (EndRoom opts unicode_upper unicode_lower code reason now).
Proof.
  intros k Hk. unfold EndRoom. destruct (NormalizeCode _ _) as [norm|]; [|by kept]. apply runs_find.
  destruct (k_rooms k !! norm) as [rm|] eqn:Hreg; [|by kept].
  destruct (ci_rooms _ _ Hk _ _ Hreg) as (m & Hm & Hc & He). live Hm as r Hr.
  change (r_ended r) with (rc_ended (room_core_of r)). rewrite Hr, He.
  apply (runs_upd_room _ _ _ _ _ m (rc_set_ended true m)); [done|by intros ? <-|].
  apply runs_bind. eapply runs_clear; [apply heap_set|]. intros _. rewrite k_set_room_twice.
  apply runs_rooms, runs_slots.
  change (is_wall r) with (rc_wall (room_core_of r)). rewrite Hr, <- Hc.
  set (k1 := k_set_slots _ _ _). assert (Hk1 : CI None k1).
  { apply (CI_end k rm m _ Hk Hm He). intros s id. rewrite delete_all_lookup, <- Hr.
    cbn [rc_atts room_core_of]. by rewrite fst_att_core. }
  clearbody k1. do 6 keep.
  apply runs_inv; [|done|by intros _ k' Hk'; kept]. apply inv_forM. intros p. apply inv_closeAfterDrain.
Qed.
Lemma inv_grace_fire code rm gen now : inv_ok (grace_fire opts unicode_upper unicode_lower code rm gen now).
Proof.
  unfold grace_fire. apply inv_bind; [apply inv_keeps; keeps_tac|]. intros []; [apply inv_EndRoom|apply inv_keeps; keeps_tac].
Qed.

(** ** Names *)

Lemma nicks_but_in g m self i q pt :
  r_participants m !! i = Some q → i ≠ self → g_parts g !! q = Some pt → p_nick pt ∈ nicks_but g m self.
Proof.
  intros Hq Hi Hp. unfold nicks_but. apply list_elem_of_In, in_map_iff. exists (i, q). rewrite Hp. split; [done|].
  apply filter_In. split; [|by apply negb_true_iff, Z.eqb_neq]. by apply list_elem_of_In, elem_of_map_to_list.
Qed.
Lemma size_bound {A} (m : gmap Z A) : (∀ i a, m !! i = Some a → 1 ≤ i < 65536) → Z.of_nat (size m) ≤ 65535.
Proof.
  intros Hm. rewrite <- size_dom. change (Z.of_nat (size (dom m)) ≤ 65535).
  assert (Hsub : dom m ⊆ list_to_set (C := gset Z) (seqZ 1 65535)).
  { intros i [a Ha]%elem_of_dom. apply elem_of_list_to_set, elem_of_seqZ. apply Hm in Ha. lia. }
  apply subseteq_size in Hsub. rewrite size_list_to_set in Hsub by apply NoDup_seqZ.
  rewrite length_seqZ in Hsub. lia.
Qed.
Lemma length_nicks g m self : Z.of_nat (length (nicks_but g m self)) ≤ Z.of_nat (size (r_participants m)).
Proof.
  unfold nicks_but. rewrite length_map. pose proof (List.filter_length_le (λ '(id, _), negb (id =? self)) (map_to_list (r_participants m))).
  rewrite length_map_to_list in *. lia.
Qed.

(** The nickname [uniqueNickLocked] settles on is a text nobody else has. *)
Lemma runs_unique_nick {B} k rm m nick self (c : bytes → St B) Q :
  CI None k ∨ CI (Some rm) k → k_heap k !! rm = Some m → 0 ≤ self →
  (∀ nk, text_ok nk MaxRoomNicknameLen →
     (∀ i q nk', rc_parts m !! i = Some q → i ≠ self → k_parts k !! q = Some (rm, i, nk') → nk' ≠ nk) →
     runs k (c nk) Q) →
  runs k (uniqueNickLocked rm nick self ≫= c) Q.
Proof.
  intros Hk Hm Hs Hc. unfold uniqueNickLocked. apply runs_bind. live Hm as r Hr.
  apply runs_gets. intros g Hg.
  assert (Hl : Z.of_nat (length (nicks_but g r self)) < 10 ^ 18).
  { pose proof (length_nicks g r self). assert (Z.of_nat (size (r_participants r)) ≤ 65535); [|lia].
    apply size_bound. intros i a Hi. assert (Hok : ∃ T, room_ok T (k_parts k) (k_armed k) rm m)
      by (destruct Hk as [Hk|Hk]; eexists; by apply (ci_ok _ _ Hk)).
    destruct Hok as [T Hok]. apply (ro_member _ _ _ _ _ Hok i a). by subst m. }
  destruct (uniqueNick_total (nicks_but g r self) nick self Hs Hl) as (nk & -> & Hnin & Ht).
  apply runs_ret, Hc; [done|]. intros i q nk' Hq Hi Hp ->. apply Hnin. subst k m. cbn in Hp, Hq.
  rewrite lookup_fmap in Hp. destruct (g_parts g !! q) as [pt|] eqn:Hpt; [|done]. cbn in Hp.
  injection Hp as _ _ <-. by apply (nicks_but_in _ _ _ i q).
Qed.

(** ** Joining *)

Lemma next_pid_Some m pid : is_uint 16 (r_nextPID m) → next_pid m = Some pid →
  1 ≤ pid < 65536 ∧ r_participants m !! pid = None.
Proof.
  unfold next_pid. generalize (Z.to_nat 65536). intros fuel Hn H.
  apply pid_loop_Some in H as (Hnz & Hfree & Hu); [|done]. change (2 ^ 16) with 65536 in Hu. split; [lia|].
  apply not_elem_of_dom. by rewrite <- elem_of_elements.
Qed.
#[local] Opaque next_pid.
Lemma inv_Join code hello grants token now :
  inv_ok (Join opts unicode_upper unicode_lower obfuscate code hello grants token now).
Proof.
  intros k Hk. unfold Join. destruct (NormalizeCode _ _) as [norm|]; [|by kept]. apply runs_find.
  destruct (k_rooms k !! norm) as [rm|] eqn:Hreg; [|by kept].
  destruct (ci_rooms _ _ Hk _ _ Hreg) as (m & Hm & Hc & He). live Hm as r Hr.
  pose proof (ci_ok _ _ Hk rm m Hm) as Hok.
  destruct (r_ended r); [by kept|]. destruct (_ >=? _); [by kept|].
  destruct (next_pid r) as [pid|] eqn:Hpid; [|by kept].
  apply next_pid_Some in Hpid as [Hb Hnone];
    [|change (r_nextPID r) with (rc_next (room_core_of r)); rewrite Hr; apply (ro_next _ _ _ _ _ Hok)].
  change (r_participants r) with (rc_parts (room_core_of r)) in Hnone. rewrite Hr in Hnone.
  set (n := if uint16 (pid + 1) =? 0 then 1 else uint16 (pid + 1)).
  assert (Hn : is_uint 16 n).
  { unfold n. case_match; [by vm_compute|]. apply Z.mod_pos_bound. lia. }
  set (m1 := rc_set_next n m). set (k1 := k_set_room rm m1 k).
  apply (runs_upd_room _ _ _ _ _ m m1); [done|by intros ? <-|].
  assert (Hk1 : CI None k1) by by apply CI_next.
  assert (Hm1 : k_heap k1 !! rm = Some m1) by apply heap_set.
  apply (runs_unique_nick _ _ m1); [by left|done|lia|]. intros nick Ht Hother.
  apply runs_new, runs_put_part. cbn [part_core p_room p_id p_nick].
  set (p := k_next k1). set (k3 := k_set_part _ _ _).
  destruct (ci_fresh _ _ Hk1 p ltac:(done)) as [_ Hpn].
  assert (Hk3 : CI None k3) by (apply CI_put_part; [by apply CI_alloc|cbn; lia|done|by eexists|done]).
  set (m4 := rc_set_parts (<[pid := p]> (rc_parts m1)) m1).
  apply (runs_upd_room _ _ _ _ _ m1 m4); [done|by intros ? <-|].
  assert (Hk4 : CI (Some rm) (k_set_room rm m4 k3)).
  { apply (CI_join k3 rm m1 p pid nick); [by apply CI_weaken|done|done|done|by apply lookup_insert_eq|done|].
    intros i q nk Hq Hp'. cbn in Hp'. apply lookup_insert_Some in Hp' as [[<- [= -> <-]]|[Hne Hp']].
    - cbn in Hq, Hnone. congruence.
    - apply (Hother i q nk Hq); [|done]. intros ->. cbn in Hq, Hnone. congruence. }
  apply runs_bind. eapply runs_clear; [apply heap_set|]. intros wasEmpty. rewrite k_set_room_twice.
  kept. apply (CI_close rm).
  - rewrite <- (k_set_room_twice rm _ m4). apply CI_timer; [done|apply heap_set|done].
  - intros m' [= <-]%(eq_trans (eq_sym (heap_set _ _ _))). cbn. symmetry. apply bool_decide_eq_false.
    intros (_ & _ & Hemp). apply (f_equal (.!! pid)) in Hemp. by rewrite lookup_insert_eq, lookup_empty in Hemp.
Qed.

(** ** Attaching and detaching *)

Lemma elem_of_labels l id lb : lb ∈ l.*2 → lb ∈ (without id l).*2 ∨ (id, lb) ∈ l.
Proof.
  intros ([i y] & -> & Hi)%list_elem_of_fmap. destruct (decide (i = id)) as [->|Hne]; [by right|left].
  apply list_elem_of_fmap. exists (i, y). split; [done|]. by apply list_elem_of_filter.
Qed.
Lemma labels_but_spec m id : labels_but m id = (without id (map att_core (r_attachments m))).*2.
Proof.
  unfold labels_but, without. induction (r_attachments m) as [|a l IH]; [done|]. cbn [List.filter map].
  rewrite filter_cons. cbn [att_core fst]. destruct (decide (a_id a ≠ id)) as [Hd|Hd].
  - rewrite bool_decide_eq_false_2 by done. cbn. by rewrite IH.
  - rewrite bool_decide_eq_true_2; [done|]. by apply dec_stable.
Qed.
(** the label an attachment gets differs from the others' or is empty *)
Lemma uniqueLabelLocked_fresh m label id :
  uniqueLabelLocked m label id = [] ∨
  uniqueLabelLocked m label id ∉ (without id (map att_core (r_attachments m))).*2.
Proof.
  unfold uniqueLabelLocked. destruct (uniqueLabel_free (labels_but m id) label) as (r & Hr & Hfree).
  rewrite Hr. cbn [default]. by rewrite <- labels_but_spec.
Qed.

Lemma runs_attach k x rm m id label state owner now Q :
  CI x k → k_heap k !! rm = Some m → rc_ended m = false → k_slots (rc_wall m) k !! id = None →
  (∀ a k' lb, CI x k' → k' = k_set_slots (rc_wall m) <[id := rc_code m]>
         (k_set_room rm (rc_set_atts (rc_atts m ++ [(id, lb)]) m) k) → Q a k') →
  runs k (attachLocked opts rm id label state owner now) Q.
Proof.
  intros Hk Hm He Hfree HQ. unfold attachLocked. live Hm as r Hr.
  set (lb := uniqueLabelLocked r label id).
  apply (runs_upd_room _ _ _ _ _ m (rc_set_atts (rc_atts m ++ [(id, lb)]) m)); [done| |].
  { intros r' <-. unfold room_core_of, rc_set_atts, is_wall; cbn. by rewrite map_app. }
  apply runs_slots. change (is_wall r) with (rc_wall (room_core_of r)).
  change (r_code r) with (rc_code (room_core_of r)). rewrite Hr. kept.
  apply (HQ _ _ lb); [|done]. apply CI_attach; try done.
  destruct (uniqueLabelLocked_fresh r label id) as [Hlb|Hlb]; [by left|right]. intros Hin. apply Hlb.
  change (map att_core (r_attachments r)) with (rc_atts (room_core_of r)). rewrite Hr.
  apply elem_of_labels with (id := id) in Hin as [Hin|Hin]; [done|].
  exfalso. assert (Hid : id ∈ (rc_atts m).*1) by (apply list_elem_of_fmap; by exists (id, lb)).
  apply (ci_slot x k Hk rm) in Hid; [congruence|done|done].
Qed.

Lemma remove_first_core id l : NoDup (a_id <$> l) →
  map att_core (remove_first id l) = without id (map att_core l).
Proof.
  induction l as [|a l IH]; [done|]. cbn [fmap list_fmap]. intros [Ha Hnd]%NoDup_cons.
  cbn [remove_first map without]. unfold without. rewrite filter_cons. cbn [att_core fst].
  destruct (decide (a_id a ≠ id)) as [Hne|He].
  - rewrite bool_decide_eq_false_2 by done. cbn [map]. f_equal. by apply IH.
  - apply dec_stable in He. rewrite bool_decide_eq_true_2 by done. symmetry.
    rewrite <- He in *. clear -Ha. induction l as [|b l IH]; [done|]. cbn [fmap list_fmap map] in *.
    apply not_elem_of_cons in Ha as [Hb Ha]. rewrite filter_cons, decide_True by by apply not_eq_sym.
    f_equal. by apply IH.
Qed.
Lemma find_att_spec m id a : find_att m id = Some a → a_id a = id ∧ id ∈ (rc_atts (room_core_of m)).*1.
Proof.
  intros H. apply find_some in H as [Hin Hb%bool_decide_eq_true]. split; [done|]. cbn [rc_atts room_core_of].
  rewrite fst_att_core. apply list_elem_of_In, in_map_iff. by exists a.
Qed.
Lemma find_att_none m id : find_att m id = None → id ∉ (rc_atts (room_core_of m)).*1.
Proof.
  intros H. cbn [rc_atts room_core_of]. rewrite fst_att_core, list_elem_of_In, in_map_iff.
  intros (a & <- & Hin). apply (find_none _ _ H) in Hin. by rewrite bool_decide_eq_true_2 in Hin.
Qed.

Definition live_room (k : core) (rm : nat) : Prop :=
  ∃ m, k_heap k !! rm = Some m ∧ rc_ended m = false.
Lemma live_set k rm m r w f : live_room k r → rc_ended m = false →
  live_room (k_set_slots w f (k_set_room rm m k)) r.
Proof.
  intros (n & Hn & He) Hm. destruct (decide (r = rm)) as [->|Hne].
  - exists m. split; [apply lookup_insert_eq|done].
  - exists n. split; [|done]. cbn. by rewrite lookup_insert_ne.
Qed.

Lemma runs_remove k rm m id reason now :
  CI None k → k_heap k !! rm = Some m → rc_ended m = false → id ∈ (rc_atts m).*1 →
  runs k (removeAttachmentLocked opts unicode_upper rm id reason now)
    (λ _ k', CI None k' ∧ ∀ r, live_room k r → live_room k' r).
Proof.
  intros Hk Hm He Hid. unfold removeAttachmentLocked. live Hm as r Hr.
  apply (runs_upd_room _ _ _ _ _ m (rc_set_atts (without id (rc_atts m)) m)); [done| |].
  { intros r' Hr'. pose proof (ro_ids _ _ _ _ _ (ci_ok _ _ Hk rm m Hm)) as Hnd. rewrite <- Hr' in Hnd |- *.
    unfold room_core_of, rc_set_atts, is_wall; cbn. f_equal. apply remove_first_core.
    cbn in Hnd. by rewrite fst_att_core in Hnd. }
  apply runs_slots. change (is_wall r) with (rc_wall (room_core_of r)). rewrite Hr. kept.
  split; [by apply CI_detach|]. intros r' Hr'. by apply live_set.
Qed.

(** ** Labels *)

Definition relabel (id lb : bytes) (l : list (bytes * bytes)) : list (bytes * bytes) :=
  map (λ a, if bool_decide (a.1 = id) then (id, lb) else a) l.
Lemma relabel_ids id lb l : (relabel id lb l).*1 = l.*1.
Proof.
  unfold relabel, fmap. change (@list_fmap) with (@map). rewrite map_map. apply map_ext. intros [i y]. cbn.
  by case_bool_decide as H; [rewrite H|].
Qed.
Lemma labels_ok_relabel id lb l :
  labels_ok l → (lb = [] ∨ lb ∉ (without id l).*2) → labels_ok (relabel id lb l).
Proof.
  intros Hl Hlb i j b Hi Hj Hb.
  assert (Hin : ∀ i', (i', b) ∈ relabel id lb l → (i' = id ∧ b = lb) ∨ (i' ≠ id ∧ (i', b) ∈ l)).
  { intros i' ([i0 y] & Hy & Hin)%list_elem_of_In%in_map_iff. cbn in Hy. case_bool_decide as Hd.
    - left. by simplify_eq.
    - right. simplify_eq. by rewrite list_elem_of_In. }
  assert (Hno : ∀ i', i' ≠ id → (i', lb) ∈ l → lb ≠ [] → False).
  { intros i' Hne Hi' Hlb'. destruct Hlb as [|Hlb]; [done|]. apply Hlb, list_elem_of_fmap. exists (i', lb).
    split; [done|]. by apply list_elem_of_filter. }
  destruct (Hin i Hi) as [[-> ->]|[Hne Hi']], (Hin j Hj) as [[-> ?]|[Hne' Hj']]; [done| | |by apply (Hl i j b)].
  - by destruct (Hno j).
  - subst b. by destruct (Hno i).
Qed.
Lemma runs_relabel_by k rm m r id label :
  CI None k → k_heap k !! rm = Some m → room_core_of r = m →
  runs k (upd_attachment rm id (set_a_label (λ _, uniqueLabelLocked r label id))) (λ _, CI None).
Proof.
  intros Hk Hm Hr. apply runs_tail. set (lb := uniqueLabelLocked r label id).
  pose proof (ci_ok _ _ Hk rm m Hm) as Hok.
  apply (runs_upd_room _ _ _ _ _ m (rc_set_atts (relabel id lb (rc_atts m)) m)); [done| |].
  { intros r' <-. unfold room_core_of, rc_set_atts, is_wall; cbn. f_equal. unfold relabel. rewrite !map_map.
    apply map_ext. intros a. cbn [att_core fst]. by case_bool_decide as H; [unfold att_core; cbn; rewrite H|]. }
  apply runs_ret. eapply CI_room; try done; [intros _; split; [done|apply relabel_ids]|].
  apply room_ok_atts; [done| |].
  - rewrite relabel_ids. apply (ro_ids _ _ _ _ _ Hok).
  - apply labels_ok_relabel; [exact (ro_labels _ _ _ _ _ Hok)|].
    rewrite <- Hr. cbn [rc_atts room_core_of]. apply uniqueLabelLocked_fresh.
Qed.

Lemma runs_relabel k rm m id label :
  CI None k → k_heap k !! rm = Some m →
  runs k (r ← get_room rm; upd_attachment rm id (set_a_label (λ _, uniqueLabelLocked r label id)))
    (λ _, CI None).
Proof. intros Hk Hm. live Hm as r Hr. by apply (runs_relabel_by _ _ m). Qed.

(** ** Commands *)

(** what [attach_check] has seen of the room: it is not a wall *)
Definition attach_ready (k : core) (p : nat) : Prop :=
  ∃ rm pid nick m, k_parts k !! p = Some (rm, pid, nick) ∧ k_heap k !! rm = Some m ∧ rc_wall m = false.

Lemma runs_attach_commit k p id label state now :
  CI None k → attach_ready k p →
  runs k (attach_commit opts unicode_upper p id label state now) (λ _, CI None).
Proof.
  intros Hk (rm & pid & nick & m & Hp & Hm & Hw). unfold attach_commit.
  eapply runs_get_part; [exact Hp|intros pt Hpt]. assert (p_room pt = rm) as -> by by injection Hpt. live Hm as r Hr.
  destruct (r_ended r) eqn:He; [by kept|].
  assert (He' : rc_ended m = false) by by rewrite <- Hr.
  apply runs_gets. intros g Hg. destruct (match g_attached g !! id with Some o => _ | None => _ end) eqn:Hother; [by kept|].
  destruct (find_att r id) as [a|] eqn:Hf.
  - keep. destruct (negb (bool_decide (label = []))).
    + apply runs_bind. eapply runs_mono; [by eapply runs_relabel|]. intros [] k' Hk'. by kept.
    + by kept.
  - destruct (_ >=? _); [by kept|]. apply runs_bind. apply (runs_attach k None rm m); try done.
    + apply (ci_slot_free _ _ Hk rm); [done|done| |].
      * rewrite Hw. intros c Hs. assert (g_attached g !! id = Some c) as Hgc by by subst k. rewrite Hgc in Hother.
        apply negb_false_iff, bool_decide_eq_true in Hother as ->. by rewrite <- Hr.
      * rewrite <- Hr. by apply find_att_none.
    + intros a k' lb Hk' _. by kept.
Qed.

(** a member's commands need the member *)
Definition known (k : core) (p : nat) : Prop := is_Some (k_parts k !! p).

Lemma runs_attach_cmd k p id label token bs now :
  CI None k → known k p →
  runs k (attach opts tokens unicode_upper p id label token bs now) (λ _, CI None).
Proof.
  intros Hk [[[rm pid] nick] Hp]. unfold attach. apply runs_gets. intros g Hg.
  destruct (attach_check _ _ _ _ _ _ _) as [[reason msg]|state] eqn:Hc; [by kept|].
  apply runs_attach_commit; [done|]. destruct (ci_part _ _ Hk _ _ _ _ Hp) as [[m Hm] _].
  exists rm, pid, nick, m. split; [done|]. split; [done|].
  assert (Hpt : part_core (default zero_part (g_parts g !! p)) = (rm, pid, nick))
    by (rewrite core_part, Hg, Hp; done).
  assert (Hmr : room_core_of (default zero_room (g_heap g !! rm)) = m) by (rewrite core_room, Hg, Hm; done).
  unfold attach_check in Hc. injection Hpt as Hroom _ _. rewrite Hroom in Hc.
  destruct (is_wall (default zero_room (g_heap g !! rm))) eqn:Hw; [done|]. by rewrite <- Hmr.
Qed.

Lemma inv_detach p id now : inv_ok (detach opts unicode_upper p id now).
Proof.
  intros k Hk. unfold detach. keep. apply runs_get_room_or; [|by apply (runs_ret k tt)]. intros r Hm.
  destruct (r_ended r) eqn:He; [by kept|]. destruct (find_att r id) as [at_|] eqn:Hf; [|by kept].
  destruct (negb _ && negb _); [by kept|].
  apply runs_bind. eapply runs_mono; [apply (runs_remove _ _ _ _ _ _ Hk Hm He)|].
  - by eapply find_att_spec.
  - intros [] k' [Hk' _]. by kept.
Qed.

Lemma runs_SetNickname k p nick now :
  CI None k → known k p → runs k (SetNickname opts unicode_upper p nick now) (λ _, CI None).
Proof.
  intros Hk [[[rm pid] old] Hp]. unfold SetNickname. eapply runs_get_part; [exact Hp|intros pt Hpt].
  injection Hpt as Hrm Hid _. rewrite Hrm, Hid. destruct (ci_part _ _ Hk _ _ _ _ Hp) as [[m Hm] Hb].
  live Hm as r Hr. destruct (r_ended r); [by kept|].
  apply (runs_unique_nick _ _ m); [by left|done|lia|]. intros nk Ht Hother.
  apply (runs_upd_part _ _ _ _ _ (rm, pid, old) (rm, pid, nk)); [done| |].
  { intros pt' H. unfold part_core in *; cbn. congruence. }
  kept. by apply (CI_nick _ _ _ _ m _ _ old).
Qed.

Lemma runs_HandleCommand k p cmd bs epoch nonce now :
  CI None k → known k p →
  runs k (HandleCommand opts tokens unicode_upper unicode_lower obfuscate hmac_sha256 p cmd bs epoch nonce now)
    (λ _, CI None).
Proof.
  intros Hk Hp. unfold HandleCommand. cbv zeta.
  destruct (_ =? RoomCommandAttach); [destruct (BroadcastID.Normalize _ _); [by apply runs_attach_cmd|by kept]|].
  destruct (_ =? RoomCommandDetach); [destruct (BroadcastID.Normalize _ _); [by apply inv_detach|by kept]|].
  destruct (_ =? RoomCommandSetNickname); [by apply runs_SetNickname|].
  destruct (_ =? RoomCommandEndRoom).
  { do 2 keep. destruct (_ || _); [by kept|]. by apply inv_EndRoom. }
  destruct (_ =? RoomCommandResync); [by kept|]. destruct (_ =? RoomCommandVoiceJoin); by kept.
Qed.

(** ** The party wall *)

Lemma wall_of_ok k g code pop rm :
  CI None k → core_of g = k → wall_of code pop g = Ok rm →
  ∃ m, k_heap k !! rm = Some m ∧ rc_ended m = false ∧ rc_wall m = true ∧ rc_code m = code.
Proof.
  intros Hk Hg. unfold wall_of. destruct (g_rooms g !! code) as [rm'|] eqn:Hr; [|done].
  assert (Hreg : k_rooms k !! code = Some rm') by by subst k.
  destruct (ci_rooms _ _ Hk _ _ Hreg) as (m & Hm & Hc & He).
  assert (Hmr : room_core_of (default zero_room (g_heap g !! rm')) = m) by (rewrite core_room, Hg, Hm; done).
  destruct (r_ended _); [done|].
  destruct (is_wall (default zero_room (g_heap g !! rm'))) eqn:Hw; [|done].
  cbn [negb orb]. case_bool_decide; [|done]. intros [= <-]. exists m.
  split; [done|]. split; [done|]. split; [by rewrite <- Hmr|done].
Qed.

Lemma inv_AttachVouched code pop id label bs now :
  inv_ok (AttachVouched opts unicode_upper unicode_lower code pop id label bs now).
Proof.
  intros k Hk. unfold AttachVouched. destruct (NormalizeCode _ _) as [norm|]; [|by kept].
  destruct (BroadcastID.Normalize _ _) as [nid|]; [|by kept]. cbv zeta.
  apply runs_gets. intros g Hg. destruct (wall_of norm pop g) as [rm|e|] eqn:Hwall; [|by kept..].
  destruct (wall_of_ok k g norm pop rm Hk Hg Hwall) as (m & Hm & He & Hw & Hc). live Hm as r Hr.
  apply runs_gets. intros g' Hg'. destruct (match g_walls g' !! nid with Some o => _ | None => _ end) eqn:Hother; [by kept|].
  destruct (find_att r nid) as [a|] eqn:Hf.
  - destruct (_ && _); [|by kept]. apply runs_bind, runs_bind. eapply runs_mono; [by eapply runs_relabel_by|].
    intros [] k' Hk'. kept. by kept.
  - destruct (_ >=? _); [by kept|]. apply runs_bind. apply (runs_attach k None rm m); try done.
    + apply (ci_slot_free _ _ Hk rm); [done|done| |].
      * rewrite Hw. intros c Hs. assert (g_walls g' !! nid = Some c) as Hgc by by rewrite <- Hg' in Hs. rewrite Hgc in Hother.
        apply negb_false_iff, bool_decide_eq_true in Hother as ->. by rewrite <- Hr.
      * rewrite <- Hr. by apply find_att_none.
    + intros at_ k' lb Hk' _. by kept.
Qed.
Lemma inv_DetachVouched code pop id now :
  inv_ok (DetachVouched opts unicode_upper unicode_lower code pop id now).
Proof.
  intros k Hk. unfold DetachVouched. destruct (NormalizeCode _ _) as [norm|]; [|by kept].
  destruct (BroadcastID.Normalize _ _) as [nid|]; [|by kept]. cbv zeta.
  apply runs_gets. intros g Hg. destruct (wall_of norm pop g) as [rm|e|] eqn:Hwall; [|by kept..].
  destruct (wall_of_ok k g norm pop rm Hk Hg Hwall) as (m & Hm & He & Hw & Hc). live Hm as r Hr.
  destruct (find_att r nid) as [a|] eqn:Hf; [|by kept]. apply runs_bind.
  eapply runs_mono; [apply (runs_remove _ _ _ _ _ _ Hk Hm He); rewrite <- Hr; by eapply find_att_spec|].
  intros [] k' [Hk' _]. by kept.
Qed.

(** ** The hub's hooks *)

Lemma runs_expire id now rm k :
  CI None k → live_room k rm →
  runs k (expire_in opts unicode_upper id now rm) (λ _ k', CI None k' ∧ ∀ r, live_room k r → live_room k' r).
Proof.
  intros Hk (m & Hm & He). unfold expire_in. live Hm as r Hr.
  destruct (find_att r id) as [a|] eqn:Hf; [|by kept]. apply runs_bind.
  eapply runs_mono; [apply (runs_remove _ _ _ _ _ _ Hk Hm He); rewrite <- Hr; by eapply find_att_spec|].
  intros [] k' Hk'. by kept.
Qed.
Lemma runs_roomsOf {B} k id (c : list nat → St B) Q :
  CI None k → (∀ rms, Forall (live_room k) rms → runs k (c rms) Q) → runs k (roomsOfLocked id ≫= c) Q.
Proof.
  intros Hk Hc. apply runs_gets. intros g Hg. apply Hc. apply Forall_forall. intros rm Hin.
  apply list_elem_of_omap in Hin as (s & _ & Hs). apply bind_Some in Hs as (code & _ & Hr).
  destruct (ci_rooms _ _ Hk code rm) as (m & Hm & _ & He); [by subst k|]. by exists m.
Qed.
Lemma inv_BroadcastExpired id now : inv_ok (BroadcastExpired opts unicode_upper id now).
Proof.
  intros k Hk. unfold BroadcastExpired. destruct (BroadcastID.Normalize _ _) as [nid|]; [|by kept].
  apply runs_roomsOf; [done|]. intros rms Hrms. apply runs_bind.
  eapply runs_mono; [apply (runs_forM (λ k', CI None k' ∧ Forall (live_room k') rms))|].
  - intros rm k' [Hk' Hl] Hin. rewrite Forall_forall in Hl.
    eapply runs_mono; [apply runs_expire; [done|by apply Hl]|]. intros [] k'' [Hk'' Hl']. split; [done|].
    apply Forall_forall. intros r Hr. by apply Hl', Hl.
  - done.
  - intros [] k' [Hk' _]. by kept.
Qed.
Lemma inv_Refresh bs now : inv_ok (Refresh opts unicode_upper bs now).
Proof.
  unfold Refresh. apply inv_bind; [apply inv_keeps; keeps_tac|intros ps]. apply inv_forM. intros [rm id].
  unfold refresh_one. destruct (bs id) as [st|].
  - apply inv_keeps. keeps_tac.
  - destruct (UnknownIsExpired opts); [apply inv_BroadcastExpired|apply inv_keeps; keeps_tac].
Qed.

(** ** Voice sessions *)

Lemma inv_RegisterVoice norm raw remote epoch now :
  inv_ok (RegisterVoice opts unicode_upper hmac_sha256 norm raw remote epoch now).
Proof.
  intros k Hk. unfold RegisterVoice. destruct (negb _); [by kept|]. destruct norm as [norm|]; [|by kept].
  destruct (Ticket.VerifyTicket _ _ _ _) as [t|[]|]; [|by kept..]. destruct (negb _); [by kept|].
  destruct (negb _); [by kept|]. apply runs_nonces. apply (CI_nonces _ (filter (λ kv, now < snd kv))) in Hk.
  revert Hk. generalize (k_set_nonces (filter (λ kv, now < snd kv)) k). clear k. intros k Hk.
  keep. case_bool_decide; [by kept|]. keep.
  destruct a0 as [rm|]; [|by kept]. keep. destruct (r_ended _); [by kept|].
  destruct (r_participants _ !! _); [|by kept]. destruct (r_voice _) as [vr|]; [|by kept].
  destruct (_ && _); [by kept|]. apply runs_nonces. keep. apply runs_new. kept. by apply CI_alloc, CI_nonces.
Qed.

(** ** Static rooms *)

Lemma runs_rekind k rm m pop now :
  CI None k → k_heap k !! rm = Some m → rc_ended m = false →
  negb (bool_decide (pop = [])) = negb (rc_wall m) →
  runs k (rekindLocked opts unicode_upper rm pop now)
    (λ _ k', CI None k' ∧ ∃ m', k_heap k' !! rm = Some m' ∧ rc_wall m' = negb (bool_decide (pop = []))).
Proof.
  intros Hk Hm He Hw. unfold rekindLocked. live Hm as r Hr.
  set (m1 := rc_set_wall (negb (rc_wall m)) m).
  assert (Hpop : ∀ r', room_core_of r' = m → room_core_of (set_r_pop (λ _, pop) r') = m1).
  { intros r' <-. unfold room_core_of, m1, rc_set_wall; cbn in *. f_equal. by rewrite <- Hw. }
  apply (runs_upd_room _ _ _ _ _ m m1); [done|done|]. live (heap_set rm m1 k) as r' Hr'.
  apply runs_gets. intros g Hg. apply runs_gets. intros g' Hg'. rewrite !core_slots, Hg, Hg', !k_slots_room.
  change (is_wall r) with (rc_wall (room_core_of r)). change (is_wall r') with (rc_wall (room_core_of r')).
  change (r_code r) with (rc_code (room_core_of r)). rewrite Hr, Hr'. change (rc_wall m1) with (negb (rc_wall m)).
  destruct (rekind_loop _ _ _ _) as [[[keep gone] from] to] eqn:E.
  apply runs_slots, runs_slots.
  apply (runs_upd_room _ _ _ _ _ m1 (rc_set_atts (map att_core keep) m1)); [apply heap_set|by intros ? <-|].
  kept. split.
  - eapply (CI_rekind k _ rm m keep gone from to (r_attachments r) Hk Hm He);
      [by rewrite <- Hr|exact E|reflexivity| |reflexivity..| |].
    + cbn. by rewrite insert_insert_eq.
    + by destruct (rc_wall m).
    + by destruct (rc_wall m).
  - eexists. split; [apply heap_set|]. by rewrite Hw.
Qed.

(** the room being set up: nobody is in it yet *)
Definition fresh_room (x : option nat) (rm : nat) (kd : room_kind) (k : core) : Prop :=
  CI x k ∧ ∃ m, k_heap k !! rm = Some m ∧ rc_ended m = false ∧ rc_parts m = ∅ ∧ rc_kind m = kd.
Lemma runs_adopt x rm kd now sts :
  ∀ k, fresh_room x rm kd k → runs k (forM sts (adopt_one opts rm now)) (λ _, fresh_room x rm kd).
Proof.
  apply runs_forM. intros [[id label] st] k (Hk & m & Hm & He & Hp & Hd) _. unfold adopt_one.
  live Hm as r Hr. apply runs_gets. intros g Hg. rewrite core_slots, Hg.
  change (is_wall r) with (rc_wall (room_core_of r)). rewrite Hr.
  destruct (k_slots _ k !! id) as [c|] eqn:Hs.
  - kept. split; [done|]. by exists m.
  - apply runs_bind. apply (runs_attach k x rm m); try done. intros a k' lb Hk' ->. kept. split; [done|].
    eexists. split; [apply lookup_insert_eq|done].
Qed.

Lemma inv_UpsertStatic def bs now :
  inv_ok (UpsertStatic opts unicode_upper unicode_lower obfuscate def bs now).
Proof.
  intros k Hk. unfold UpsertStatic. destruct (NormalizeCode _ _) as [norm|] eqn:Hn; [|by kept]. apply runs_find.
  destruct (k_rooms k !! norm) as [rm|] eqn:Hreg.
  - destruct (ci_rooms _ _ Hk _ _ Hreg) as (m & Hm & Hc & He). live Hm as r Hr.
    destruct (negb _); [by kept|]. keep.
    change (is_wall r) with (rc_wall (room_core_of r)). rewrite Hr.
    set (w := negb (bool_decide (st_Pop def = []))).
    assert (Hrest : ∀ k' m' (b : bool), CI None k' → k_heap k' !! rm = Some m' → rc_wall m' = w →
      runs k' (_ ← upd_room rm (set_r_pop (λ _, st_Pop def));
        '(changed, closes) ← applyMumbleLocked opts unicode_upper obfuscate rm (validMumble (st_Mumble def));
        _ ← runVoiceCloses closes;
        _ ← (if (changed : bool) then notifyVoiceChanged opts else skip);
        _ ← (if b then notifyAttachments opts rm else skip);
        mret (Ok (E := reg_error) tt)) (λ _, CI None)).
    { intros k' m' b Hk' Hm' Hw'. apply (runs_upd_room _ _ _ _ _ m' m'); [done| |].
      - intros r' <-. unfold room_core_of in *; cbn in *. f_equal. symmetry. exact Hw'.
      - rewrite k_set_room_same by done. by kept. }
    destruct (Bool.eqb (rc_wall m) w) eqn:Hw; cbn [negb]; apply runs_bind.
    + kept. apply (Hrest k m false Hk Hm). by apply Bool.eqb_prop in Hw.
    + eapply runs_mono; [apply (runs_rekind k rm m); try done|].
      { fold w. apply Bool.eqb_false_iff in Hw. by destruct w, (rc_wall m). }
      intros [] k' (Hk' & m' & Hm' & Hw'). by apply (Hrest k' m' true).
  - apply runs_new, runs_put_room. set (rm := k_next k). keep. destruct a as [changed closes].
    set (m := room_core_of _). apply (runs_keep _ (upd_room _ _)); [by apply keeps_upd_room|intros _].
    apply runs_rooms. destruct (ci_fresh _ _ Hk rm ltac:(done)) as [Hnone _].
    apply runs_bind. eapply runs_mono; [apply (runs_adopt None rm KindStatic)|].
    + split.
      * apply (CI_close rm).
        -- apply (CI_new_room (k_alloc k) rm m); try done; [by apply CI_alloc|cbn; lia|by apply NormalizeCode_slug in Hn].
        -- intros m' [= <-]%(eq_trans (eq_sym (heap_set _ _ _))). by vm_compute.
      * eexists. split; [apply heap_set|done].
    + intros [] k' [Hk' _]. by kept.
Qed.

Lemma inv_ReplaceStatic defs bs now :
  inv_ok (ReplaceStatic opts unicode_upper unicode_lower obfuscate defs bs now).
Proof.
  unfold ReplaceStatic. apply inv_bind.
  - induction defs as [|d defs IH]; cbn [upsert_all]; [by apply inv_keeps|].
    apply inv_bind; [apply inv_UpsertStatic|intros r]. apply inv_bind; [exact IH|intros kp]. by apply inv_keeps.
  - intros kp. apply inv_bind; [apply inv_keeps; keeps_tac|intros gone]. apply inv_forM. intros c. apply inv_EndRoom.
Qed.

(** ** Dynamic rooms *)

(** a broadcast code in lower case is a room code *)
Lemma valid_slug raw : valid_id raw → slug (map ascii_lower raw).
Proof.
  intros [Hl Ha].
  assert (Hall : forallb (λ c, slug_char (ascii_lower c) && negb (ascii_lower c =? 45)) Alphabet = true)
    by by vm_compute.
  rewrite forallb_forall in Hall.
  assert (Hc : ∀ c, c ∈ map ascii_lower raw → slug_char c = true ∧ c ≠ 45).
  { intros c (c' & <- & Hin%list_elem_of_In)%list_elem_of_In%in_map_iff.
    rewrite Forall_forall in Ha. specialize (Hall c' ltac:(by apply list_elem_of_In, Ha)).
    apply andb_true_iff in Hall as [H1 H2%negb_true_iff%Z.eqb_neq]. done. }
  assert (Hlen : zlen (map ascii_lower raw) = Length) by (unfold zlen; rewrite length_map; exact Hl).
  assert (Hn : Z.of_nat (length (map ascii_lower raw)) = 6) by exact Hlen.
  split; [rewrite Hlen; by vm_compute|]. split; [|split].
  - apply forallb_forall. intros c Hin%list_elem_of_In. by apply Hc.
  - apply Hc, list_elem_of_lookup_total_2. lia.
  - rewrite Hlen. apply Hc, list_elem_of_lookup_total_2. change (Z.to_nat (Length - 1)) with 5%nat. lia.
Qed.

Lemma runs_mint_commit k tk id raw label state mumble now :
  CI None k → k_rooms k !! map ascii_lower raw = None → k_attached k !! id = None → valid_id raw →
  runs k (mint_commit opts unicode_upper obfuscate fingerprint tk id raw label state mumble now) (λ _, CI None).
Proof.
  intros Hk Hnone Hfree Hraw. unfold mint_commit. apply runs_new, runs_put_room. set (rm := k_next k).
  set (m := room_core_of _). apply runs_rooms.
  destruct (ci_fresh _ _ Hk rm ltac:(done)) as [Hn _].
  set (k1 := k_set_rooms _ _). assert (Hk1 : CI (Some rm) k1).
  { apply (CI_new_room (k_alloc k) rm m); try done; [by apply CI_alloc|cbn; lia|by apply valid_slug]. }
  keep. destruct a as [changed closes]. apply runs_bind.
  apply (runs_attach k1 (Some rm) rm m); [done|apply heap_set|done|done|]. intros a k' lb Hk' ->.
  apply runs_bind. eapply runs_mono; [eapply runs_start; [exact Hk'|apply lookup_insert_eq|done..]|].
  intros [] k'' Hk''. by kept.
Qed.

Lemma runs_mint_loop raws tk id label state want bs reserve fleet now :
  Forall (λ raw, match raw with Some raw => valid_id raw | None => True end) raws →
  inv_ok (mint_loop opts unicode_upper obfuscate fingerprint raws tk id label state want bs reserve fleet now).
Proof.
  induction 1 as [|raw raws Hraw _ IH]; intros k Hk; cbn [mint_loop]; [by kept|].
  destruct raw as [raw|]; [|by kept]. case_bool_decide; [by apply IH|].
  apply runs_gets. intros g Hg. unfold mint_check. cbv zeta.
  case_bool_decide as Hreg; [by apply IH|]. apply eq_None_not_Some in Hreg.
  destruct (g_attached g !! id) as [other|] eqn:Ha.
  { destruct (g_rooms g !! other ≫= _); [|by kept]. case_bool_decide; by kept. }
  destruct (_ >=? _); [by kept|]. keep. destruct reserve as [f|].
  - destruct (f _); [|by kept..|by apply IH]. unfold mint_recheck at 1. cbv zeta.
    apply runs_bind. apply runs_gets. intros g1 Hg1. apply runs_gets. intros g2 Hg2.
    destruct (g_rooms g1 !! _) eqn:E1; [|destruct (g_attached g2 !! id) eqn:E2].
    + keep. apply runs_ret. by apply IH.
    + keep. apply runs_ret. by kept.
    + apply runs_ret. apply runs_bind. eapply runs_mono; [apply runs_mint_commit; try done; by subst k|].
      intros r k' Hk'. by kept.
  - apply runs_bind. eapply runs_mono; [apply runs_mint_commit; try done; by subst k|]. intros r k' Hk'. by kept.
Qed.
Lemma inv_Mint req raws bs reserve fleet now :
  Forall (λ raw, match raw with Some raw => valid_id raw | None => True end) raws →
  inv_ok (Mint opts tokens unicode_upper obfuscate fingerprint req raws bs reserve fleet now).
Proof.
  intros Hr. unfold Mint. destruct (mint_gate _ _ _ _ _) as [[[id state] tk]|e|]; [|by apply inv_keeps..].
  apply runs_mint_loop. by apply Forall_take.
Qed.

Lemma inv_AdoptDynamic cr bs now :
  inv_ok (AdoptDynamic opts unicode_upper unicode_lower obfuscate cr bs now).
Proof.
  intros k Hk. unfold AdoptDynamic. destruct (NormalizeCode _ _) as [norm|] eqn:Hn; [|by kept]. apply runs_find.
  destruct (k_rooms k !! norm) as [rm'|] eqn:Hreg; [by kept|].
  apply runs_new, runs_put_room. set (rm := k_next k). keep. destruct a as [changed closes].
  set (m := room_core_of _). apply runs_rooms. keep.
  destruct (ci_fresh _ _ Hk rm ltac:(done)) as [Hnone _].
  apply runs_bind. eapply runs_mono; [apply (runs_adopt (Some rm) rm KindDynamic)|].
  - split.
    + apply (CI_new_room (k_alloc k) rm m); try done; [by apply CI_alloc|cbn; lia|by apply NormalizeCode_slug in Hn].
    + eexists. split; [apply heap_set|done].
  - intros [] k' (Hk' & m' & Hm' & He' & Hp' & Hd'). apply runs_bind.
    eapply runs_mono; [by eapply runs_start|]. intros [] k'' Hk''. by kept.
Qed.
End Steps.
