(* ===== verification/RegSpec.v ===== *)
(** internal/roomsrv: what the room registry guarantees.

    [step] is one operation of the registry, run under its mutex by whatever
    goroutine calls it; [reachable] states are those any interleaving of them
    gives. The theorems say what every reachable state looks like, and what the
    operations do to it. *)
From S2P Require Export RegSteps.
#[local] Open Scope Z_scope.
Import RoomHello(RoomHello) RoomCommand(RoomCommand).

(** ** What leaving does not touch

    [frames m]: [m] changes at most who is in a room and the grace timers, so
    the index, the slots and every room's identity stay. *)
Definition same_room (m m' : room_core) : Prop :=
  rc_code m' = rc_code m ∧ rc_kind m' = rc_kind m ∧ rc_ended m' = rc_ended m ∧ rc_wall m' = rc_wall m ∧
  rc_atts m' = rc_atts m.
Definition index_same (k k' : core) : Prop :=
  k_rooms k' = k_rooms k ∧ (∀ w, k_slots w k' = k_slots w k) ∧
  ∀ rm, option_relation same_room (λ _, False) (λ _, False) (k_heap k !! rm) (k_heap k' !! rm).
Definition frames {A} (m : St A) : Prop := ∀ g, index_same (core_of g) (core_of (snd (m g))).

Lemma same_room_refl m : same_room m m.
Proof. done. Qed.
Lemma frame_refl k : index_same k k.
Proof. split; [done|split; [done|]]. intros rm. by destruct (k_heap k !! rm). Qed.
Lemma frame_trans k1 k2 k3 : index_same k1 k2 → index_same k2 k3 → index_same k1 k3.
Proof.
  intros (R1 & S1 & H1) (R2 & S2 & H2). split; [congruence|]. split; [intros w; by rewrite S2|].
  intros rm. specialize (H1 rm). specialize (H2 rm).
  destruct (k_heap k1 !! rm), (k_heap k2 !! rm), (k_heap k3 !! rm); cbn in *; try done.
  unfold same_room in *. naive_solver congruence.
Qed.
Lemma frames_keeps {A} (m : St A) : keeps m → frames m.
Proof. intros Hm g. rewrite (Hm g). apply frame_refl. Qed.
Lemma frames_bind {A B} (m : St A) (f : A → St B) : frames m → (∀ a, frames (f a)) → frames (m ≫= f).
Proof.
  intros Hm Hf g. unfold mbind, st_bind. specialize (Hm g). destruct (m g) as [a g'].
  by eapply frame_trans, Hf.
Qed.
Lemma frames_forM {A} (l : list A) (f : A → St unit) : (∀ a, frames (f a)) → frames (forM l f).
Proof. intros Hf. induction l; cbn [forM]; [by apply frames_keeps|by apply frames_bind]. Qed.
Lemma frames_upd_room rm f : (∀ m, same_room (room_core_of m) (room_core_of (f m))) → frames (upd_room rm f).
Proof.
  intros Hf g. split; [done|]. split; [by intros []|]. intros rm'. cbn. rewrite !lookup_fmap.
  destruct (decide (rm' = rm)) as [->|Hne].
  - rewrite lookup_alter_eq. destruct (g_heap g !! rm); [apply Hf|done].
  - rewrite lookup_alter_ne by done. by destruct (g_heap g !! rm').
Qed.
Lemma frames_emit e : frames (emit e).
Proof. intros g. split; [done|]. split; [by intros []|]. intros rm. cbn. by destruct ((_ <$> _) !! rm). Qed.

Ltac frames_step :=
  match goal with
  | |- frames (mbind _ _) => apply frames_bind; [|intros ?]
  | |- frames (forM _ _) => apply frames_forM; intros ?
  | |- frames (let '_ := ?x in _) => destruct x
  | |- frames (match ?x with _ => _ end) => destruct x
  | |- frames (emit _) => apply frames_emit
  | |- frames _ => solve [apply frames_keeps; auto 2 with keeps nocore]
  | |- frames (upd_room _ _) => apply frames_upd_room; intros ?; unfold same_room; by split_and!
  | |- frames skip => apply frames_keeps, keeps_ret
  end.
Ltac frames_tac := repeat (cbv beta zeta; frames_step).

Section Frames.
Context (opts : Options) (unicode_upper : bytes → bytes).
Lemma frames_start rm now : frames (startEmptyGraceLocked opts rm now).
Proof. unfold startEmptyGraceLocked. frames_tac. Qed.
Lemma frames_Leave p now : frames (Leave opts unicode_upper p now).
Proof. unfold Leave. pose proof frames_start. frames_tac; auto. Qed.
Lemma frames_closeAfterDrain p code reason now : frames (closeAfterDrain opts unicode_upper p code reason now).
Proof. unfold closeAfterDrain. pose proof frames_Leave. frames_tac; auto. Qed.
End Frames.

Section Spec.
Context (opts : Options) (tokens : option Tokens).
Context (unicode_upper unicode_lower obfuscate fingerprint : bytes → bytes).
Context (hmac_sha256 : bytes → bytes → bytes).

(** ** Steps

    A participant's commands need the participant. [attach] takes the mutex
    twice: its first half ([attach_check]) only reads, so it can be separated
    from the second by any other steps; [step_attach_commit] asks that the room
    did not become a party wall meanwhile. A step that registers a voice session
    is labelled with its time. *)
Inductive step (g : Registry) : option Z → Registry → Prop :=
  | step_join code hello grants token now :
      step g None (snd (Join opts unicode_upper unicode_lower obfuscate code hello grants token now g))
  | step_leave p now : step g None (snd (Leave opts unicode_upper p now g))
  | step_write p ok now : step g None (snd (writeLoop opts unicode_upper p ok now g))
  | step_command p cmd bs epoch nonce now : is_Some (g_parts g !! p) →
      step g None (snd (HandleCommand opts tokens unicode_upper unicode_lower obfuscate hmac_sha256
                     p cmd bs epoch nonce now g))
  | step_attach_commit p pt m id label state now :
      g_parts g !! p = Some pt → g_heap g !! p_room pt = Some m → is_wall m = false →
      step g None (snd (attach_commit opts unicode_upper p id label state now g))
  | step_end code reason now : step g None (snd (EndRoom opts unicode_upper unicode_lower code reason now g))
  | step_grace code rm gen now :
      step g None (snd (grace_fire opts unicode_upper unicode_lower code rm gen now g))
  | step_release code : step g None (snd (ReleaseHome code g))
  | step_attach_wall code pop id label bs now :
      step g None (snd (AttachVouched opts unicode_upper unicode_lower code pop id label bs now g))
  | step_detach_wall code pop id now :
      step g None (snd (DetachVouched opts unicode_upper unicode_lower code pop id now g))
  | step_expired id now : step g None (snd (BroadcastExpired opts unicode_upper id now g))
  | step_live id live now : step g None (snd (setLive opts unicode_upper id live now g))
  | step_refresh bs now : step g None (snd (Refresh opts unicode_upper bs now g))
  | step_upsert def bs now :
      step g None (snd (UpsertStatic opts unicode_upper unicode_lower obfuscate def bs now g))
  | step_replace defs bs now :
      step g None (snd (ReplaceStatic opts unicode_upper unicode_lower obfuscate defs bs now g))
  | step_mint req raws bs reserve fleet now :
      Forall (λ raw, match raw with Some raw => valid_id raw | None => True end) raws →
      step g None (snd (Mint opts tokens unicode_upper obfuscate fingerprint req raws bs reserve fleet now g))
  | step_adopt cr bs now :
      step g None (snd (AdoptDynamic opts unicode_upper unicode_lower obfuscate cr bs now g))
  | step_register norm raw remote epoch now :
      step g (Some now) (snd (RegisterVoice opts unicode_upper hmac_sha256 norm raw remote epoch now g))
  | step_voice_joined v session name : step g None (snd (Joined unicode_upper v session name g))
  | step_voice_state v session flags : step g None (snd (State unicode_upper v session flags g))
  | step_voice_left v : step g None (snd (Left unicode_upper v g))
  | step_voice_bans banned : step g None (snd (CloseVoiceIn unicode_upper banned g))
  | step_voice_kill id : step g None (snd (CloseVoiceOfBroadcast unicode_upper id g))
  | step_roster code id available reason problems users :
      step g None (snd (ApplyVoiceRoster unicode_upper code id available reason problems users g))
  | step_observer_down code id reason :
      step g None (snd (VoiceObserverDown unicode_upper code id reason g)).

Definition steps (g g' : Registry) : Prop := ∃ t, step g t g'.
Definition reachable : Registry → Prop := rtc steps NewRegistry.

Lemma inv_run {A} (m : St A) g : inv_ok m → Inv g → Inv (snd (m g)).
Proof. intros Hm Hg. by apply (Hm (core_of g) Hg g). Qed.
Lemma step_inv g t g' : step g t g' → Inv g → Inv g'.
Proof.
  intros Hs Hg. destruct Hs.
  4: { refine (runs_HandleCommand _ _ _ _ _ _ _ _ _ _ _ _ _ Hg _ g eq_refl). unfold known. cbn.
    rewrite lookup_fmap. by apply fmap_is_Some. }
  4: { refine (runs_attach_commit _ _ _ _ _ _ _ _ Hg _ g eq_refl).
    exists (p_room pt), (p_id pt), (p_nick pt), (room_core_of m). cbn. rewrite !lookup_fmap, H, H0. done. }
  all: apply inv_run; [|exact Hg].
  all: first [apply inv_Join | apply inv_Leave | apply inv_writeLoop | apply inv_EndRoom | apply inv_grace_fire
    | apply inv_AttachVouched | apply inv_DetachVouched | apply inv_BroadcastExpired | apply inv_Refresh
    | apply inv_UpsertStatic | apply inv_ReplaceStatic | by apply inv_Mint | apply inv_AdoptDynamic
    | apply inv_RegisterVoice | apply inv_keeps; solve [keeps_tac]].
Qed.
Lemma reachable_inv g : reachable g → Inv g.
Proof.
  intros Hr. assert (Hgen : ∀ g0 g1, rtc steps g0 g1 → Inv g0 → Inv g1).
  { induction 1 as [|g0 g1 g2 [t Hs] _ IH]; [done|]. intros. by eapply IH, step_inv. }
  by apply (Hgen _ _ Hr), CI_empty.
Qed.

(** ** Ending a room *)

Lemma runs_frames {A} k0 k (m : St A) : frames m → index_same k0 k → runs k m (λ _, index_same k0).
Proof. intros Hm Hk g <-. by eapply frame_trans, Hm. Qed.

(** the core after a room ended *)
Definition k_end (rm : nat) (m : room_core) (k : core) : core :=
  k_set_slots (rc_wall m) (λ s, foldl (λ s id, delete id s) s (rc_atts m).*1)
    (k_set_rooms (delete (rc_code m)) (k_set_room rm (rc_set_timer false (rc_gen m) (rc_set_ended true m)) k)).

Lemma foldl_map {A B C} (f : C → B → C) (h : A → B) (l : list A) : ∀ c,
  foldl (λ c a, f c (h a)) c l = foldl f c (map h l).
Proof. induction l; intros c; cbn; [done|apply IHl]. Qed.

Lemma runs_EndRoom k code norm rm m reason now :
  NormalizeCode unicode_lower code = Some norm → k_rooms k !! norm = Some rm →
  k_heap k !! rm = Some m → rc_ended m = false → rc_code m = norm →
  runs k (EndRoom opts unicode_upper unicode_lower code reason now) (λ _, index_same (k_end rm m k)).
Proof.
  intros Hn Hreg Hm He Hc. unfold EndRoom. rewrite Hn. apply runs_find. rewrite Hreg. live Hm as r Hr.
  change (r_ended r) with (rc_ended (room_core_of r)). rewrite Hr, He.
  apply (runs_upd_room _ _ _ _ _ m (rc_set_ended true m)); [done|by intros ? <-|].
  apply runs_bind. eapply runs_clear; [apply heap_set|]. intros _. rewrite k_set_room_twice.
  apply runs_rooms, runs_slots. change (is_wall r) with (rc_wall (room_core_of r)).
  assert (Ha : ∀ s : gmap bytes bytes, foldl (λ s a, delete (a_id a) s) s (r_attachments r) =
    foldl (λ s id, delete id s) s (rc_atts m).*1).
  { intros s. rewrite (foldl_map (λ (s : gmap bytes bytes) id, delete id s) a_id), <- fst_att_core.
    by rewrite <- Hr. }
  assert (Hs : ∀ w k, k_set_slots w (λ s, foldl (λ s a, delete (a_id a) s) s (r_attachments r)) k =
    k_set_slots w (λ s, foldl (λ s id, delete id s) s (rc_atts m).*1) k).
  { intros w k'. unfold k_set_slots. by rewrite !Ha. }
  rewrite Hs, Hr, <- Hc. apply runs_frames; [|apply frame_refl].
  frames_tac; auto using frames_closeAfterDrain.
Qed.

Lemma frame_room k k' rm m : index_same k k' → k_heap k !! rm = Some m →
  ∃ m', k_heap k' !! rm = Some m' ∧ same_room m m'.
Proof.
  intros (_ & _ & H) Hm. specialize (H rm). rewrite Hm in H. destruct (k_heap k' !! rm) as [m'|]; [|done].
  by exists m'.
Qed.
Lemma frame_room_inv k k' rm m' : index_same k k' → k_heap k' !! rm = Some m' →
  ∃ m, k_heap k !! rm = Some m ∧ same_room m m'.
Proof.
  intros (_ & _ & H) Hm. specialize (H rm). rewrite Hm in H. destruct (k_heap k !! rm) as [m|]; [|done].
  by exists m.
Qed.
Lemma heap_core g rm m : g_heap g !! rm = Some m → k_heap (core_of g) !! rm = Some (room_core_of m).
Proof. intros H. cbn. by rewrite lookup_fmap, H. Qed.
Lemma core_heap g rm m : k_heap (core_of g) !! rm = Some m → ∃ r, g_heap g !! rm = Some r ∧ room_core_of r = m.
Proof. cbn. rewrite lookup_fmap. destruct (g_heap g !! rm) as [r|]; [|done]. intros [= <-]. by exists r. Qed.

(** a live room of a reachable state is found under its own code *)
Lemma live_code g rm m : Inv g → g_heap g !! rm = Some m → r_ended m = false →
  g_rooms g !! r_code m = Some rm ∧ NormalizeCode unicode_lower (r_code m) = Some (r_code m).
Proof.
  intros Hg Hm He. apply heap_core in Hm. split.
  - exact (ci_live _ _ Hg rm _ Hm He).
  - apply NormalizeCode_id. exact (ro_code _ _ _ _ _ (ci_ok _ _ Hg rm _ Hm)).
Qed.

Lemma EndRoom_effect g rm m reason now :
  Inv g → g_heap g !! rm = Some m → r_ended m = false →
  let g' := snd (EndRoom opts unicode_upper unicode_lower (r_code m) reason now g) in
  g_rooms g' = delete (r_code m) (g_rooms g) ∧
  (∃ m', g_heap g' !! rm = Some m' ∧ r_ended m' = true) ∧
  (∀ w id, slots w g' !! id = if decide (w = is_wall m ∧ id ∈ map a_id (r_attachments m))
                              then None else slots w g !! id) ∧
  (∀ rm' n, rm' ≠ rm → g_heap g !! rm' = Some n →
     ∃ n', g_heap g' !! rm' = Some n' ∧ same_room (room_core_of n) (room_core_of n')).
Proof.
  intros Hg Hm He g'. destruct (live_code g rm m Hg Hm He) as [Hreg Hn].
  pose proof (heap_core _ _ _ Hm) as Hk.
  pose proof (runs_EndRoom (core_of g) _ _ rm _ reason now Hn Hreg Hk He eq_refl g eq_refl) as Hf.
  fold g' in Hf. cbv beta in Hf. set (k1 := k_end _ _ _) in Hf. split; [|split; [|split]].
  - destruct Hf as (Hr & _). exact Hr.
  - destruct (frame_room k1 _ rm _ Hf ltac:(apply lookup_insert_eq)) as (m' & Hm' & (_ & _ & He' & _)).
    apply core_heap in Hm' as (r' & Hr' & <-). by exists r'.
  - intros w id. destruct Hf as (_ & Hs & _). rewrite !core_slots, Hs. unfold k1, k_end.
    rewrite k_slots_set, k_slots_rooms, k_slots_room. cbn [rc_wall room_core_of rc_atts].
    destruct (Bool.eqb w (is_wall m)) eqn:Hw.
    + apply Bool.eqb_prop in Hw as ->. rewrite (delete_all_lookup (λ id, id)), fst_att_core, list_fmap_id.
      destruct (decide (id ∈ _)); [by rewrite decide_True|]. by rewrite decide_False by tauto.
    + rewrite decide_False; [done|]. intros [-> _]. by rewrite Bool.eqb_reflx in Hw.
  - intros rm' n Hne Hn'. apply heap_core in Hn'.
    destruct (frame_room k1 _ rm' (room_core_of n) Hf) as (m' & Hm' & Hsame).
    { unfold k1, k_end; cbn. cbn in Hn'. by rewrite lookup_insert_ne by done. }
    apply core_heap in Hm' as (r' & Hr' & <-). by exists r'.
Qed.

(** ** Every reachable state *)

(** C25. In every state the registry can reach, whatever operations ran in
    whatever order: the index names exactly the live rooms, each under its own
    code, which is in normal form; a room's attachments have distinct broadcast
    IDs, and two that have the same label have none; and a room's member map
    names, under a non-zero 16-bit ID, a participant that carries that room and
    ID, with a nickname the protocol can encode and that no other member has. *)
Theorem registry_well_formed g :
  reachable g →
  (∀ code rm, g_rooms g !! code = Some rm ↔
     ∃ m, g_heap g !! rm = Some m ∧ r_ended m = false ∧ r_code m = code) ∧
  (∀ code rm, g_rooms g !! code = Some rm → NormalizeCode unicode_lower code = Some code) ∧
  ∀ rm m, g_heap g !! rm = Some m →
    NoDup (map a_id (r_attachments m)) ∧
    (∀ a b, a ∈ r_attachments m → b ∈ r_attachments m → a_label a = a_label b → a_label a ≠ [] →
       a_id a = a_id b) ∧
    (∀ pid p, r_participants m !! pid = Some p → 1 ≤ pid < 2 ^ 16 ∧
       ∃ pt, g_parts g !! p = Some pt ∧ p_room pt = rm ∧ p_id pt = pid ∧
         text_ok (p_nick pt) MaxRoomNicknameLen) ∧
    (∀ i j p q pp pq, r_participants m !! i = Some p → r_participants m !! j = Some q →
       g_parts g !! p = Some pp → g_parts g !! q = Some pq → p_nick pp = p_nick pq → i = j).
Proof.
  intros Hg%reachable_inv.
  assert (Hlive : ∀ code rm, g_rooms g !! code = Some rm →
     ∃ m, g_heap g !! rm = Some m ∧ r_ended m = false ∧ r_code m = code).
  { intros code rm Hr. destruct (ci_rooms _ _ Hg code rm Hr) as (m0 & Hm0 & Hc & He).
    apply core_heap in Hm0 as (m & Hm & <-). by exists m. }
  split; [|split].
  - intros code rm. split; [apply Hlive|]. intros (m & Hm & He & <-). by apply live_code.
  - intros code rm Hr. destruct (Hlive code rm Hr) as (m & Hm & He & <-). by apply (live_code g rm).
  - intros rm m Hm. pose proof (ci_ok _ _ Hg rm _ (heap_core _ _ _ Hm)) as Hok.
    assert (Hmem : ∀ pid p, r_participants m !! pid = Some p → 1 ≤ pid < 2 ^ 16 ∧
      ∃ pt, g_parts g !! p = Some pt ∧ p_room pt = rm ∧ p_id pt = pid ∧ text_ok (p_nick pt) MaxRoomNicknameLen).
    { intros pid p Hp. destruct (ro_member _ _ _ _ _ Hok pid p Hp) as (Hb & nick & Hpt & Ht). split; [exact Hb|].
      cbn in Hpt. rewrite lookup_fmap in Hpt. destruct (g_parts g !! p) as [pt|]; [|done].
      injection Hpt as H1 H2 H3. exists pt. by rewrite H3. }
    split; [|split; [|split; [exact Hmem|]]].
    + rewrite <- fst_att_core. exact (ro_ids _ _ _ _ _ Hok).
    + intros a b Ha Hb Hl Hne. apply (ro_labels _ _ _ _ _ Hok _ _ (a_label a)); [| |done];
        apply list_elem_of_In, in_map_iff; [exists a|exists b]; rewrite <- list_elem_of_In; [done|].
      unfold att_core. by rewrite Hl.
    + intros i j p q pp pq Hi Hj Hpp Hpq Hn.
      apply (ro_nicks _ _ _ _ _ Hok i j p q (p_nick pp)); [done|done| |]; cbn; rewrite lookup_fmap.
      * destruct (Hmem i p Hi) as (_ & pt & Hpt & <- & <- & _). rewrite Hpp in Hpt |- *. by injection Hpt as <-.
      * destruct (Hmem j q Hj) as (_ & pt & Hpt & <- & <- & _). rewrite Hpq in Hpt |- *. injection Hpt as <-.
        cbn. unfold part_core. by rewrite Hn.
Qed.


End Spec.

(** ** A small registry to try things on *)
Module Sample.
Definition opts : Options :=
  NewOptions (MkOptions 0 0 0 0 [] false false false false false false false false [] [] 0 0).
Definition tokens : option Tokens := Some (MkTokens (λ c, c) (λ _ _, true) (λ _ _, true)).
Definition same (s : bytes) : bytes := s.
Definition hmac (_ _ : bytes) : bytes := repeat 7 32.
Definition broadcast : bytes := str "ABCDEF"%string.
Definition room_raw : bytes := str "K7K7K7"%string.
Definition code : bytes := str "k7k7k7"%string.
Definition bs (id : bytes) : option BroadcastState :=
  if decide (id = broadcast) then Some (MkBState true 3) else None.
(** a minted room *)
Definition req : MintRequest := MkMint broadcast [] (str "main"%string) [] false.
Definition minted : Registry :=
  snd (Mint opts tokens same same (λ _, []) req [Some room_raw] bs None None 100 NewRegistry).
Definition hello : RoomHello :=
  RoomHello.Build_RoomHello 0 0 0 (str "ann"%string).
End Sample.

Module SampleFacts.
Import Sample.
#[local] Notation reachable := (reachable opts tokens same same (λ _, []) (λ _, []) hmac).

Lemma minted_reachable : reachable minted.
Proof.
  apply rtc_once. exists None. unfold minted.
  apply (step_mint opts tokens same same (λ _, []) (λ _, []) hmac NewRegistry req [Some room_raw] bs None None 100).
  constructor; [|constructor]. split; [done|]. apply Forall_forall. intros c Hc.
  assert (forallb in_alphabet room_raw = true) as H by by vm_compute.
  rewrite forallb_forall in H. apply list_elem_of_In, H in Hc. by apply bool_decide_eq_true in Hc.
Qed.

Lemma registry_well_formed_witness :
  NormalizeCode same code = Some code ∧
  ∃ m, g_heap minted !! 0%nat = Some m ∧ r_ended m = false ∧ r_code m = code.
Proof.
  destruct (registry_well_formed _ _ _ _ _ _ _ minted minted_reachable) as (H1 & H2 & _).
  split; [apply (H2 code 0%nat); by vm_compute|]. apply H1. by vm_compute.
Defined.
Definition minted_room : room := default zero_room (g_heap minted !! 0%nat).

(** The grace timer's callback decides that the room is empty, and ends it in a
    second critical section that does not look again. A participant who joins in
    between is let in, the timer is disarmed, and the room is closed on them all
    the same: RoomEnding is queued and then the close with 4007. *)
Example grace_race :
  let g1 := minted in
  grace_expired g1 code 0 1 = true ∧
  let '(joined, g2) := Join opts same same (λ _, []) code hello (MkGrants true true None) [] 60000000100 g1 in
  joined = Ok 1%nat ∧ grace_expired g2 code 0 1 = false ∧
  let g3 := snd (EndRoom opts same same code RoomEndReasonEmpty 60000000100 g2) in
  g_rooms g3 !! code = None ∧
  option_map (λ p, (length (p_outbox p), last (p_outbox p), p_closeCode p)) (g_parts g3 !! 1%nat) =
    Some (3%nat, Some None, CloseCodeRoomEnded).
Proof. by vm_compute. Qed.

(** A room state that does not encode is a nil record, and a nil record is what
    the writer takes for the end of the session: nobody can join a static room
    whose display name is longer than 64 bytes. The join succeeds, the first
    write closes the session with code 0, and the participant has left. *)
Example long_name_room_closes_joins :
  let g1 := snd (UpsertStatic opts same same (λ _, [])
                   (MkStatic (str "lobby"%string) [] (repeat 97 65) [] 0 0 [] [] None false) bs 100 NewRegistry) in
  let '(joined, g2) := Join opts same same (λ _, []) (str "lobby"%string) hello (MkGrants false true None) [] 200 g1 in
  joined = Ok 1%nat ∧
  option_map p_outbox (g_parts g2 !! 1%nat) = Some [None] ∧
  let g3 := snd (writeLoop opts same 1 true 300 g2) in
  last (g_log g3) = Some (ConnClose 1 0 []) ∧ option_map p_left (g_parts g3 !! 1%nat) = Some true.
Proof. by vm_compute. Qed.
End SampleFacts.
