(* ===== verification/RegVoiceSpec.v ===== *)
(** internal/roomsrv/voice.go: voice tickets are spent by their first use.

    The nonce of a ticket that registered a session is remembered until the
    ticket expires. [spares m]: [m] leaves the remembered nonces alone; every
    operation but [RegisterVoice] does, and that one forgets only what has
    expired. *)
From S2P Require Export RegSpec.
#[local] Open Scope Z_scope.

Definition spares {A} (m : St A) : Prop := ∀ g, g_voiceNonces (snd (m g)) = g_voiceNonces g.

Lemma spares_keeps {A} (m : St A) : keeps m → spares m.
Proof. intros Hm g. exact (f_equal k_nonces (Hm g)). Qed.
Lemma spares_bind {A B} (m : St A) (f : A → St B) : spares m → (∀ a, spares (f a)) → spares (m ≫= f).
Proof.
  intros Hm Hf g. unfold mbind, st_bind. specialize (Hm g). destruct (m g) as [a g'].
  rewrite (Hf a g'). exact Hm.
Qed.
Lemma spares_forM {A} (l : list A) (f : A → St unit) : (∀ a, spares (f a)) → spares (forM l f).
Proof. intros Hf. induction l; cbn [forM]; [done|by apply spares_bind]. Qed.
Lemma spares_upd_room rm f : spares (upd_room rm f).
Proof. done. Qed.
Lemma spares_upd_part p f : spares (upd_part p f).
Proof. done. Qed.
Lemma spares_slots w f : spares (upd_slots w f).
Proof. by intros g; destruct w. Qed.
Lemma spares_rooms f : spares (modify (set_g_rooms f)).
Proof. done. Qed.
Lemma spares_heap f : spares (modify (set_g_heap f)).
Proof. done. Qed.
Lemma spares_parts f : spares (modify (set_g_parts f)).
Proof. done. Qed.
Lemma spares_emit e : spares (emit e).
Proof. done. Qed.
Lemma spares_new : spares new.
Proof. done. Qed.

Create HintDb spares discriminated.
#[export] Hint Resolve spares_upd_room spares_upd_part spares_slots spares_rooms spares_heap spares_parts
  spares_emit spares_new : spares.
Ltac spares_step :=
  match goal with
  | |- spares (mbind _ _) => apply spares_bind; [|intros ?]
  | |- spares (forM _ _) => apply spares_forM; intros ?
  | |- spares (let '_ := ?x in _) => destruct x
  | |- spares (match ?x with _ => _ end) => destruct x
  | |- spares _ => solve [auto 2 with spares nocore | apply spares_keeps; auto 2 with keeps nocore
                         | apply spares_keeps, keeps_ret]
  end.
Ltac spares_tac := repeat (cbv beta zeta; spares_step).

Section Spares.
Context (opts : Options) (tokens : option Tokens).
Context (unicode_upper unicode_lower obfuscate fingerprint : bytes → bytes).
Context (hmac_sha256 : bytes → bytes → bytes).

Lemma spares_start rm now : spares (startEmptyGraceLocked opts rm now).
Proof. unfold startEmptyGraceLocked. spares_tac. Qed.
Lemma spares_clear rm : spares (clearEmptyGraceLocked rm).
Proof. unfold clearEmptyGraceLocked. spares_tac. Qed.
Hint Resolve spares_start spares_clear : spares.
Lemma spares_Leave p now : spares (Leave opts unicode_upper p now).
Proof. unfold Leave. spares_tac. Qed.
Hint Resolve spares_Leave : spares.
Lemma spares_closeAfterDrain p code reason now : spares (closeAfterDrain opts unicode_upper p code reason now).
Proof. unfold closeAfterDrain. spares_tac. Qed.
Hint Resolve spares_closeAfterDrain : spares.
Lemma spares_writeLoop p ok now : spares (writeLoop opts unicode_upper p ok now).
Proof. unfold writeLoop. spares_tac. Qed.
Lemma spares_EndRoom code reason now : spares (EndRoom opts unicode_upper unicode_lower code reason now).
Proof. unfold EndRoom. spares_tac. Qed.
Hint Resolve spares_EndRoom : spares.
Lemma spares_grace_fire code rm gen now : spares (grace_fire opts unicode_upper unicode_lower code rm gen now).
Proof. unfold grace_fire. spares_tac. Qed.
Lemma spares_Join code hello grants token now :
  spares (Join opts unicode_upper unicode_lower obfuscate code hello grants token now).
Proof. unfold Join. spares_tac. Qed.
Lemma spares_attachLocked rm id label state owner now : spares (attachLocked opts rm id label state owner now).
Proof. unfold attachLocked. spares_tac. Qed.
Lemma spares_remove rm id reason now : spares (removeAttachmentLocked opts unicode_upper rm id reason now).
Proof. unfold removeAttachmentLocked. spares_tac. Qed.
Lemma spares_upd_attachment rm id f : spares (upd_attachment rm id f).
Proof. done. Qed.
Hint Resolve spares_attachLocked spares_remove spares_upd_attachment : spares.
Lemma spares_attach_commit p id label state now : spares (attach_commit opts unicode_upper p id label state now).
Proof. unfold attach_commit. spares_tac. Qed.
Hint Resolve spares_attach_commit : spares.
Lemma spares_attach p id label token bs now : spares (attach opts tokens unicode_upper p id label token bs now).
Proof. unfold attach. spares_tac. Qed.
Lemma spares_detach p id now : spares (detach opts unicode_upper p id now).
Proof. unfold detach. spares_tac. Qed.
Lemma spares_SetNickname p nick now : spares (SetNickname opts unicode_upper p nick now).
Proof. unfold SetNickname. spares_tac. Qed.
Hint Resolve spares_attach spares_detach spares_SetNickname : spares.
Lemma spares_HandleCommand p cmd bs epoch nonce now :
  spares (HandleCommand opts tokens unicode_upper unicode_lower obfuscate hmac_sha256 p cmd bs epoch nonce now).
Proof. unfold HandleCommand. spares_tac. Qed.
Lemma spares_AttachVouched code pop id label bs now :
  spares (AttachVouched opts unicode_upper unicode_lower code pop id label bs now).
Proof. unfold AttachVouched. spares_tac. Qed.
Lemma spares_DetachVouched code pop id now :
  spares (DetachVouched opts unicode_upper unicode_lower code pop id now).
Proof. unfold DetachVouched. spares_tac. Qed.
Lemma spares_BroadcastExpired id now : spares (BroadcastExpired opts unicode_upper id now).
Proof. unfold BroadcastExpired, expire_in. spares_tac. Qed.
Hint Resolve spares_BroadcastExpired : spares.
Lemma spares_Refresh bs now : spares (Refresh opts unicode_upper bs now).
Proof. unfold Refresh, refresh_one. spares_tac. Qed.
Lemma spares_rekind rm pop now : spares (rekindLocked opts unicode_upper rm pop now).
Proof. unfold rekindLocked. spares_tac. Qed.
Lemma spares_adopt_one rm now x : spares (adopt_one opts rm now x).
Proof. unfold adopt_one. spares_tac. Qed.
Hint Resolve spares_rekind spares_adopt_one : spares.
Lemma spares_UpsertStatic def bs now :
  spares (UpsertStatic opts unicode_upper unicode_lower obfuscate def bs now).
Proof. unfold UpsertStatic. spares_tac. Qed.
Hint Resolve spares_UpsertStatic : spares.
Lemma spares_upsert_all defs bs now : spares (upsert_all opts unicode_upper unicode_lower obfuscate defs bs now).
Proof. induction defs; cbn [upsert_all]; spares_tac. Qed.
Hint Resolve spares_upsert_all : spares.
Lemma spares_ReplaceStatic defs bs now :
  spares (ReplaceStatic opts unicode_upper unicode_lower obfuscate defs bs now).
Proof. unfold ReplaceStatic. spares_tac. Qed.
Lemma spares_mint_commit tk id raw label state mu now :
  spares (mint_commit opts unicode_upper obfuscate fingerprint tk id raw label state mu now).
Proof. unfold mint_commit. spares_tac. Qed.
Hint Resolve spares_mint_commit : spares.
Lemma spares_mint_loop raws tk id label state want bs reserve fleet now :
  spares (mint_loop opts unicode_upper obfuscate fingerprint raws tk id label state want bs reserve fleet now).
Proof. induction raws as [|[raw|] raws IH]; cbn [mint_loop]; spares_tac; exact IH. Qed.
Hint Resolve spares_mint_loop : spares.
Lemma spares_Mint req raws bs reserve fleet now :
  spares (Mint opts tokens unicode_upper obfuscate fingerprint req raws bs reserve fleet now).
Proof. unfold Mint. spares_tac. Qed.
Lemma spares_AdoptDynamic cr bs now :
  spares (AdoptDynamic opts unicode_upper unicode_lower obfuscate cr bs now).
Proof. unfold AdoptDynamic. spares_tac. Qed.
End Spares.

(** ** Registering *)

(** [f now] reads the ticket the same way at any time, but for its expiry *)
Definition timely (f : Z → outcome Ticket.ticket_error Ticket.Ticket) : Prop :=
  ∀ now now' t, f now = Ok t → now < Ticket.Expiry t ∧
    f now' = if now' <? Ticket.Expiry t then Ok t else Err Ticket.ErrTicketExpired.
Lemma timely_bind {A} (x : outcome Ticket.ticket_error A) (c : A → Z → outcome Ticket.ticket_error Ticket.Ticket) :
  (∀ a, timely (c a)) → timely (λ now, x ≫= λ a, c a now).
Proof. intros Hc now now' t. destruct x; cbn; [apply Hc|done..]. Qed.
Lemma timely_reject (b : bool) e f : timely f → timely (λ now, if b then Err e else f now).
Proof. intros Hf now now' t. destruct b; [done|apply Hf]. Qed.
Lemma timely_expiry t :
  timely (λ now, if negb (now <? Ticket.Expiry t) then Err Ticket.ErrTicketExpired else Ok t).
Proof.
  intros now now' t'. destruct (now <? Ticket.Expiry t) eqn:Hn; cbn [negb]; [|done]. intros [= <-].
  split; [lia|]. by destruct (now' <? Ticket.Expiry t).
Qed.
Lemma verify_timely hmac secret raw : timely (Ticket.VerifyTicket hmac secret raw).
Proof.
  unfold Ticket.VerifyTicket. change (timely (λ now, Ticket.VerifyTicket hmac secret raw now)).
  unfold Ticket.VerifyTicket.
  repeat first [apply timely_expiry | apply timely_reject
    | apply timely_bind; intros ?
    | match goal with |- timely (λ _, let '(_, _) := ?x in _) => destruct x end].
Qed.

Section Tickets.
Context (opts : Options) (tokens : option Tokens).
Context (unicode_upper unicode_lower obfuscate fingerprint : bytes → bytes).
Context (hmac_sha256 : bytes → bytes → bytes).
#[local] Notation RegisterVoice := (RegisterVoice opts unicode_upper hmac_sha256).
#[local] Notation VerifyTicket := (Ticket.VerifyTicket hmac_sha256 (VoiceTicketSecret opts)).

Definition nonce_of (g : Registry) (n : bytes) : option Z := g_voiceNonces g !! n.

(** what registering does to the nonces: it forgets only the expired, refuses a
    remembered one, and remembers the one it accepted *)
Lemma RegisterVoice_nonces norm raw remote epoch now g :
  let '(res, g') := RegisterVoice norm raw remote epoch now g in
  (∀ n e, nonce_of g n = Some e → now < e → nonce_of g' n = Some e) ∧
  match res with
  | Ok _ => ∃ t, VerifyTicket raw now = Ok t ∧ nonce_of g' (Ticket.Nonce t) = Some (Ticket.Expiry t) ∧
              ∀ e, nonce_of g (Ticket.Nonce t) = Some e → e ≤ now
  | Fault => VerifyTicket raw now = Fault
  | Err _ => True
  end.
Proof.
  pose (Q := λ (res : outcome voice_error (nat * VoiceAccepted)) (k' : core),
    (∀ n e, nonce_of g n = Some e → now < e → k_nonces k' !! n = Some e) ∧
    match res with
    | Ok _ => ∃ t, VerifyTicket raw now = Ok t ∧ k_nonces k' !! (Ticket.Nonce t) = Some (Ticket.Expiry t) ∧
                ∀ e, nonce_of g (Ticket.Nonce t) = Some e → e ≤ now
    | Fault => VerifyTicket raw now = Fault
    | Err _ => True
    end).
  assert (Hr : runs (core_of g) (RegisterVoice norm raw remote epoch now) Q).
  { unfold RegVoice.RegisterVoice. destruct (negb _); [by apply runs_ret|]. destruct norm as [norm|]; [|by apply runs_ret].
    destruct (VerifyTicket raw now) as [t|[]|] eqn:Hv; [|by apply runs_ret..].
    destruct (negb _); [by apply runs_ret|]. destruct (negb _); [by apply runs_ret|]. apply runs_nonces.
    set (k := k_set_nonces _ _).
    assert (Hkeep : ∀ n e, nonce_of g n = Some e → now < e → k_nonces k !! n = Some e).
    { intros n e Hn He. by apply map_lookup_filter_Some. }
    assert (Hold : ∀ e, k_nonces k !! Ticket.Nonce t = None → nonce_of g (Ticket.Nonce t) = Some e → e ≤ now).
    { intros e Hno He. destruct (decide (now < e)) as [Hlt|]; [|lia]. by rewrite (Hkeep _ _ He Hlt) in Hno. }
    clearbody k. apply runs_gets. intros g1 Hg1. case_bool_decide as Hu; [by apply runs_ret|].
    assert (Hnone : k_nonces k !! Ticket.Nonce t = None).
    { rewrite <- Hg1. by apply eq_None_not_Some. }
    apply runs_find. destruct (k_rooms k !! norm) as [rm|]; [|by apply runs_ret]. keep.
    destruct (r_ended _); [by apply runs_ret|]. destruct (r_participants _ !! _); [|by apply runs_ret].
    destruct (r_voice _) as [vr|]; [|by apply runs_ret]. destruct (_ && _); [by apply runs_ret|].
    apply runs_nonces. keep. apply runs_new. do 4 keep. apply runs_ret. split; cbn.
    - intros nn e Hn He. specialize (Hkeep nn e Hn He). rewrite lookup_insert_ne; [done|]. congruence.
    - exists t. rewrite lookup_insert_eq. split; [done|]. split; [done|]. intros e. by apply Hold. }
  specialize (Hr g eq_refl). destruct (RegisterVoice norm raw remote epoch now g) as [res g']. exact Hr.
Qed.
#[local] Notation step := (step opts tokens unicode_upper unicode_lower obfuscate fingerprint hmac_sha256).

(** a step in which no session registers after [T] *)
Definition steps_until (T : Z) (g g' : Registry) : Prop :=
  ∃ t, step g t g' ∧ ∀ now, t = Some now → now ≤ T.

Lemma step_spares g g' n e T :
  steps_until T g g' → nonce_of g n = Some e → T < e → nonce_of g' n = Some e.
Proof.
  intros (t & Hs & Ht) Hn He. unfold nonce_of in *. destruct Hs.
  18: { pose proof (RegisterVoice_nonces norm raw remote epoch now g) as H.
    destruct (RegisterVoice norm raw remote epoch now g) as [res g']. apply (proj1 H); [done|].
    specialize (Ht now eq_refl). lia. }
  all: assert (Hsp : ∀ {A} (m : St A), spares m → g_voiceNonces (snd (m g)) !! n = Some e)
    by (intros A mm Hm; by rewrite (Hm g)).
  all: apply Hsp.
  all: first [apply spares_Join | apply spares_Leave | apply spares_writeLoop | apply spares_HandleCommand
    | apply spares_attach_commit | apply spares_EndRoom | apply spares_grace_fire | apply spares_AttachVouched
    | apply spares_DetachVouched | apply spares_BroadcastExpired | apply spares_Refresh
    | apply spares_UpsertStatic | apply spares_ReplaceStatic | apply spares_Mint | apply spares_AdoptDynamic
    | apply spares_keeps; solve [keeps_tac]].
Qed.
Lemma steps_spare g g' n e T :
  rtc (steps_until T) g g' → nonce_of g n = Some e → T < e → nonce_of g' n = Some e.
Proof. induction 1; intros; [done|]. eauto using step_spares. Qed.

(** C28. A voice ticket registers one session. Once RegisterVoice has accepted a
    ticket, it refuses that ticket from then on, whoever presents it and
    wherever, whatever the registry did in between, as long as the clock does
    not run backwards: the nonce is forgotten only when the ticket has expired. *)
Theorem voice_ticket_once g norm raw remote epoch now acc g2 T norm2 remote2 epoch2 now2 :
  fst (RegisterVoice norm raw remote epoch now g) = Ok acc →
  rtc (steps_until T) (snd (RegisterVoice norm raw remote epoch now g)) g2 → T ≤ now2 →
  ∃ e, fst (RegisterVoice norm2 raw remote2 epoch2 now2 g2) = Err e.
Proof.
  intros Hok Hsteps HT. pose proof (RegisterVoice_nonces norm raw remote epoch now g) as H1.
  destruct (RegisterVoice norm raw remote epoch now g) as [res g1]. cbn [fst snd] in *. subst res.
  destruct H1 as (_ & t & Hv & Hn & _).
  destruct (verify_timely hmac_sha256 _ raw now now2 t Hv) as [_ Hv2].
  pose proof (RegisterVoice_nonces norm2 raw remote2 epoch2 now2 g2) as H2.
  destruct (RegisterVoice norm2 raw remote2 epoch2 now2 g2) as [[acc2|e|] g3]; cbn [fst].
  - destruct H2 as (_ & t' & Hv' & _ & Hold). rewrite Hv2 in Hv'.
    destruct (now2 <? Ticket.Expiry t) eqn:Hexp; [|done]. injection Hv' as <-.
    pose proof (steps_spare _ _ _ _ T Hsteps Hn ltac:(lia)) as Hn2. specialize (Hold _ Hn2). lia.
  - by exists e.
  - destruct H2 as [_ H2]. rewrite Hv2 in H2. by destruct (now2 <? Ticket.Expiry t).
Qed.
End Tickets.

(** ** A voice room to try it on *)
Module VoiceSample.
Import Sample.
Definition vopts : Options :=
  NewOptions (MkOptions 0 0 0 0 [] false false false false false false false true [] (repeat 1 32) 0 0).
Definition lobby : bytes := str "lobby"%string.
Definition set_up : Registry :=
  snd (UpsertStatic vopts same same (λ _, [])
         (MkStatic lobby [] [] [] 0 0 [] [] (Some (MkMumble [] false)) false) bs 100 NewRegistry).
Definition peopled : Registry :=
  snd (Join vopts same same (λ _, []) lobby hello (MkGrants false true None) [] 200 set_up).
Definition ticket : bytes :=
  match Ticket.MintTicket hmac (repeat 1 32)
          (Ticket.MkTicket lobby 1 (str "ann"%string) (repeat 9 16) 5 (60 * 10 ^ 9)) with
  | Ok raw => raw
  | _ => []
  end.
Definition register (now : Z) (g : Registry) : outcome voice_error (nat * VoiceAccepted) * Registry :=
  RegisterVoice vopts same hmac (Some lobby) ticket [] (Some 5) now g.

Lemma voice_ticket_once_witness :
  (∃ acc, fst (register 300 peopled) = Ok acc) ∧
  ∃ e, fst (register 400 (snd (Leave vopts same 1 350 (snd (register 300 peopled))))) = Err e.
Proof.
  assert (Hok : ∃ acc, fst (register 300 peopled) = Ok acc) by (eexists; vm_compute; reflexivity).
  split; [exact Hok|]. destruct Hok as [acc Hok].
  eapply (voice_ticket_once vopts None same same (λ _, []) (λ _, []) hmac peopled (Some lobby) ticket [] (Some 5)
           300 acc _ 400 (Some lobby) [] (Some 5) 400 Hok); [|lia].
  apply rtc_once. exists None. split; [apply step_leave|done].
Defined.
End VoiceSample.
