(* ===== verification/RegDeliver.v ===== *)
(** internal/roomsrv: who is told what, who gets in.

    The sequenced broadcast as the members' queues see it, and the two gates of
    a room: the grants decided before a session is upgraded ([CheckJoin]) and
    the join itself ([Join]). *)
From S2P Require Export RegSpec.
#[local] Open Scope Z_scope.
Import RoomEvent(RoomEvent) RoomHello(RoomHello).

(** ** Queues *)

(** what queueing a record does to a participant *)
Definition enqueued (rec : option bytes) (pt : Participant) : Participant :=
  if zlen (p_outbox pt) <? outboxDepth then set_p_outbox (λ q, q ++ [rec]) pt
  else set_p_leaveReason (λ _, LeftTimeout) pt.
Definition eviction (p : nat) : effect :=
  ConnClose p CloseCodeSubscriberUnresponsive (str "control queue overflow"%string).

Lemma enqueue_effect p rec g pt :
  g_parts g !! p = Some pt →
  let g' := snd (enqueueLocked p rec g) in
  g_parts g' = <[p := enqueued rec pt]> (g_parts g) ∧ g_heap g' = g_heap g ∧
  g_log g' = g_log g ++ (if zlen (p_outbox pt) <? outboxDepth then [] else [eviction p]).
Proof.
  intros Hp. cbv zeta. unfold enqueueLocked, get_part, gets, mbind, st_bind, enqueued. rewrite Hp.
  change (default zero_part (Some pt)) with pt.
  assert (Halter : ∀ f : Participant → Participant, alter f p (g_parts g) = <[p := f pt]> (g_parts g)).
  { intros f. apply map_eq. intros q. destruct (decide (q = p)) as [->|Hne].
    - by rewrite lookup_alter_eq, lookup_insert_eq, Hp.
    - by rewrite lookup_alter_ne, lookup_insert_ne. }
  destruct (_ <? _); cbn; rewrite Halter, ?app_nil_r; done.
Qed.

(** a record to everybody on a list but one *)
Definition send_all (rec : option bytes) (skip_id : Z) (l : list (Z * nat)) : St unit :=
  forM l (λ '(id, p), if id =? skip_id then skip else enqueueLocked p rec).
Definition told (skip_id : Z) (l : list (Z * nat)) (p : nat) : Prop :=
  ∃ id, (id, p) ∈ l ∧ id ≠ skip_id.

Lemma send_all_effect rec skip_id l : ∀ g,
  NoDup l.*2 → (∀ i p, (i, p) ∈ l → is_Some (g_parts g !! p)) →
  let g' := snd (send_all rec skip_id l g) in
  g_heap g' = g_heap g ∧ g_log g `prefix_of` g_log g' ∧
  (∀ p pt, g_parts g !! p = Some pt → ¬ told skip_id l p → g_parts g' !! p = Some pt) ∧
  (∀ p pt, g_parts g !! p = Some pt → told skip_id l p →
     g_parts g' !! p = Some (enqueued rec pt) ∧
     (outboxDepth ≤ zlen (p_outbox pt) → eviction p ∈ g_log g')).
Proof.
  induction l as [|[i q] l IH]; intros g Hnd Hin; cbn zeta.
  { split; [done|]. split; [done|]. split; [done|]. intros p pt _ (j & Hj & _). by apply not_elem_of_nil in Hj. }
  cbn [fmap list_fmap snd] in Hnd. apply NoDup_cons in Hnd as [Hq Hnd].
  set (g1 := snd ((if i =? skip_id then skip else enqueueLocked q rec) g)).
  assert (Hrun : snd (send_all rec skip_id ((i, q) :: l) g) = snd (send_all rec skip_id l g1)).
  { unfold send_all, g1; cbn [forM]. unfold mbind, st_bind. by destruct ((if i =? skip_id then skip else enqueueLocked q rec) g). }
  rewrite Hrun. destruct (Hin i q) as [qt Hqt]; [by left|].
  assert (Htold : ∀ p, told skip_id ((i, q) :: l) p ↔ (p = q ∧ i ≠ skip_id) ∨ told skip_id l p).
  { intros p. unfold told. split.
    - intros (j & [[= -> ->]|Hj]%elem_of_cons & Hne); [by left|right; by exists j].
    - intros [[-> Hne]|(j & Hj & Hne)]; [exists i|exists j]; (split; [|done]); [by left|by right]. }
  assert (Hnq : ¬ told skip_id l q).
  { intros (j & Hj & _). apply Hq, list_elem_of_fmap. by exists (j, q). }
  assert (H1 : g_heap g1 = g_heap g ∧ g_log g `prefix_of` g_log g1 ∧
    (∀ p, p ≠ q → g_parts g1 !! p = g_parts g !! p) ∧
    (i = skip_id → g_parts g1 !! q = Some qt) ∧
    (i ≠ skip_id → g_parts g1 !! q = Some (enqueued rec qt) ∧
       (outboxDepth ≤ zlen (p_outbox qt) → eviction q ∈ g_log g1))).
  { unfold g1. destruct (Z.eqb_spec i skip_id) as [He|Hne]; [by split_and!|].
    destruct (enqueue_effect q rec g qt Hqt) as (Hp & Hh & Hl). rewrite Hp, Hh, Hl.
    split; [done|]. split; [by apply prefix_app_r|]. split; [intros p Hne'; by rewrite lookup_insert_ne|].
    split; [done|]. intros _. rewrite lookup_insert_eq. split; [done|]. intros Hfull.
    replace (_ <? _) with false by lia. apply elem_of_app. right. by left. }
  destruct H1 as (Hh1 & Hl1 & Hother & Hskip & Hsent).
  assert (Hsome : ∀ j p, (j, p) ∈ l → is_Some (g_parts g1 !! p)).
  { intros j p Hj. rewrite Hother; [apply (Hin j); by right|]. intros ->. apply Hq, list_elem_of_fmap. by exists (j, q). }
  destruct (IH g1 Hnd Hsome) as (Hh & Hl & Hno & Hyes). split; [by rewrite Hh|]. split; [by etransitivity|]. split.
  - intros p pt Hp Hnt. rewrite Htold in Hnt. destruct (decide (p = q)) as [->|Hne].
    + apply Hno; [|done]. assert (pt = qt) as -> by congruence. destruct (decide (i = skip_id)); [by apply Hskip|tauto].
    + apply Hno; [by rewrite Hother|tauto].
  - intros p pt Hp [[-> Hne]|Ht]%Htold.
    + assert (pt = qt) as -> by congruence. destruct (Hsent Hne) as [Hs Hev]. split; [by apply Hno|].
      intros Hfull. eapply elem_of_prefix; [|exact Hl]. by apply Hev.
    + destruct (decide (p = q)) as [->|Hne]; [done|]. apply Hyes; [by rewrite Hother|done].
Qed.

(** [only_log m]: [m] publishes, and changes nothing *)
Definition only_log {A} (m : St A) : Prop := ∀ g, ∃ l, snd (m g) = set_g_log (λ x, x ++ l) g.
Lemma only_log_skip : only_log skip.
Proof. intros g. exists []. destruct g. unfold set_g_log; cbn. by rewrite app_nil_r. Qed.
Lemma only_log_emitLocked opts rm now d : only_log (emitLocked opts rm now d).
Proof.
  intros g. unfold emitLocked, get_room, gets, mbind, st_bind. destruct (HasOnEvent opts); [by eexists|].
  apply only_log_skip.
Qed.
Lemma only_log_busEvent opts rm ev now : only_log (busEventLocked opts rm ev now).
Proof.
  intros g. unfold busEventLocked, get_room at 1. unfold gets at 1, mbind at 1, st_bind at 1. cbv zeta.
  repeat (case_match; [apply only_log_emitLocked|]). apply only_log_skip.
Qed.

Lemma elem_of_map_snd_NoDup (ps : gmap Z nat) :
  (∀ i j p, ps !! i = Some p → ps !! j = Some p → i = j) → NoDup (map_to_list ps).*2.
Proof.
  intros Hinj. apply NoDup_fmap_2_strong; [|apply NoDup_map_to_list].
  intros [i p] [j q] Hi%elem_of_map_to_list Hj%elem_of_map_to_list Heq. cbn in Heq. subst q. by rewrite (Hinj i j p).
Qed.

Section Deliver.
Context (opts : Options) (tokens : option Tokens).
Context (unicode_upper unicode_lower obfuscate fingerprint : bytes → bytes).
Context (hmac_sha256 : bytes → bytes → bytes).
#[local] Notation reachable := (reachable opts tokens unicode_upper unicode_lower obfuscate fingerprint hmac_sha256).

(** a member's handle is registered once, under the ID it carries *)
Lemma member_unique g rm m : Inv g → g_heap g !! rm = Some m →
  (∀ i p, r_participants m !! i = Some p → ∃ pt, g_parts g !! p = Some pt ∧ p_id pt = i) ∧
  NoDup (map_to_list (r_participants m)).*2.
Proof.
  intros Hg Hm. pose proof (ci_ok _ _ Hg rm _ (heap_core _ _ _ Hm)) as Hok.
  assert (Hmem : ∀ i p, r_participants m !! i = Some p → ∃ pt, g_parts g !! p = Some pt ∧ p_id pt = i).
  { intros i p Hp. destruct (ro_member _ _ _ _ _ Hok i p Hp) as (_ & nick & Hpt & _).
    cbn in Hpt. rewrite lookup_fmap in Hpt. destruct (g_parts g !! p) as [pt|]; [|done].
    injection Hpt as _ Hid _. by exists pt. }
  split; [exact Hmem|]. apply elem_of_map_snd_NoDup. intros i j p Hi Hj.
  destruct (Hmem i p Hi) as (pt & Hpt & <-), (Hmem j p Hj) as (pt' & Hpt' & <-). congruence.
Qed.

(** C29. A room's events are sequenced and complete. When an event is broadcast
    in a room, the room's sequence number goes up by one (wrapping at 2^32) and
    every member but the one left out has exactly that record appended to its
    queue; a member whose queue is full gets nothing more, is marked as timed
    out and has its session closed with 4001. Nobody else's queue changes. *)
Theorem broadcast_delivers g rm m ev skip_id now rec :
  reachable g → g_heap g !! rm = Some m →
  AppendRoomEvent unicode_upper [] (RegEvents.set_seq (uint32 (r_seq m + 1)) ev) = Ok rec →
  let g' := snd (broadcastLocked opts unicode_upper rm ev skip_id now g) in
  g_heap g' = <[rm := set_r_seq (λ _, uint32 (r_seq m + 1)) m]> (g_heap g) ∧
  ∀ p pt, g_parts g !! p = Some pt →
    if bool_decide (r_participants m !! p_id pt = Some p) && negb (p_id pt =? skip_id) then
      g_parts g' !! p = Some (enqueued (frame rec) pt) ∧
      (outboxDepth ≤ zlen (p_outbox pt) → eviction p ∈ g_log g')
    else g_parts g' !! p = Some pt.
Proof.
  intros Hg%reachable_inv Hm Hrec. cbv zeta.
  destruct (member_unique g rm m Hg Hm) as [Hmem Hnd].
  set (m1 := set_r_seq (λ _, uint32 (r_seq m + 1)) m).
  set (g1 := snd (upd_room rm (set_r_seq (λ s, uint32 (s + 1))) g)).
  assert (Hh1 : g_heap g1 = <[rm := m1]> (g_heap g)).
  { cbn. apply map_eq. intros q. destruct (decide (q = rm)) as [->|Hne].
    - by rewrite lookup_alter_eq, lookup_insert_eq, Hm.
    - by rewrite lookup_alter_ne, lookup_insert_ne. }
  set (g2 := snd (send_all (frame rec) skip_id (map_to_list (r_participants m)) g1)).
  assert (Hrun : ∃ l, snd (broadcastLocked opts unicode_upper rm ev skip_id now g) = set_g_log (λ x, x ++ l) g2).
  { unfold broadcastLocked. unfold mbind at 1, st_bind at 1. change (upd_room rm (set_r_seq (λ s, uint32 (s + 1))) g) with (tt, g1).
    cbv iota. unfold mbind at 1, st_bind at 1, get_room, gets. rewrite Hh1, lookup_insert_eq.
    change (default zero_room (Some m1)) with m1. cbv zeta. change (r_seq m1) with (uint32 (r_seq m + 1)).
    rewrite Hrec. change (r_participants m1) with (r_participants m). unfold mbind, st_bind.
    fold (send_all (frame rec) skip_id (map_to_list (r_participants m))).
    unfold g2. destruct (send_all _ _ _ g1) as [[] g2'] eqn:E. cbn [snd].
    apply only_log_busEvent. }
  destruct Hrun as [l ->].
  destruct (send_all_effect (frame rec) skip_id (map_to_list (r_participants m)) g1) as (Hh & Hl & Hno & Hyes).
  { exact Hnd. }
  { intros i p Hi%elem_of_map_to_list. destruct (Hmem i p Hi) as (pt & Hpt & _). by exists pt. }
  fold g2 in Hh, Hl, Hno, Hyes. split; [cbn; by rewrite Hh, Hh1|].
  intros p pt Hp.
  assert (Ht : told skip_id (map_to_list (r_participants m)) p ↔ r_participants m !! p_id pt = Some p ∧ p_id pt ≠ skip_id).
  { split.
    - intros (i & Hi%elem_of_map_to_list & Hne). destruct (Hmem i p Hi) as (pt' & Hpt' & <-).
      rewrite Hp in Hpt'. by injection Hpt' as <-.
    - intros [Hi Hne]. exists (p_id pt). by rewrite elem_of_map_to_list. }
  case_bool_decide as Hin; cbn [andb]; [destruct (Z.eqb_spec (p_id pt) skip_id) as [He|Hne]; cbn [negb]|].
  - apply Hno; [done|]. rewrite Ht. tauto.
  - destruct (Hyes p pt Hp) as [H1 H2]; [by apply Ht|]. split; [done|]. intros Hfull. cbn.
    apply elem_of_app. left. by apply H2.
  - apply Hno; [done|]. rewrite Ht. tauto.
Qed.

(** ** Joining *)

Lemma next_pid_total m : is_uint 16 (r_nextPID m) → Z.of_nat (size (r_participants m)) < 65535 →
  ∃ pid, next_pid m = Some pid.
Proof.
  intros Hn Hs. destruct (pid_loop_total (elements (dom (r_participants m))) (r_nextPID m) Hn) as [r Hr].
  - unfold zlen. rewrite <- size_dom in Hs. exact Hs.
  - exists r. exact Hr.
Qed.
(** every ID is in use: the search has no end *)
Lemma next_pid_full m :
  is_uint 16 (r_nextPID m) → (∀ i p, r_participants m !! i = Some p → 1 ≤ i < 65536) →
  Z.of_nat (size (r_participants m)) = 65535 → next_pid m = None.
Proof.
  intros Hn Hb Hfull. unfold next_pid. generalize (Z.to_nat 65536). intros fuel.
  apply pid_loop_full; [done|]. intros x Hx. apply elem_of_elements.
  assert (Heq : dom (r_participants m) = list_to_set (C := gset Z) (seqZ 1 65535)).
  { apply set_subseteq_size_eq.
    - intros i [a Ha]%elem_of_dom. apply elem_of_list_to_set, elem_of_seqZ. apply Hb in Ha. lia.
    - rewrite size_list_to_set by apply NoDup_seqZ. rewrite length_seqZ, size_dom. lia. }
  rewrite Heq. apply elem_of_list_to_set, elem_of_seqZ. lia.
Qed.

(** the rest of [Join], once an ID is found *)
Lemma runs_Join_rest k rm m r pid norm hello grants token now :
  CI None k → k_heap k !! rm = Some m → room_core_of r = m → rc_ended m = false → next_pid r = Some pid →
  runs k
    (_ ← upd_room rm (set_r_nextPID (λ _, let n := uint16 (pid + 1) in if n =? 0 then 1 else n));
     nick ← uniqueNickLocked rm (RoomHello.Nickname hello) pid;
     p ← new;
     _ ← modify (set_g_parts (<[p := MkParticipant rm pid (RoomHello.ClientKind hello) nick [] grants
               (has_flag (RoomHello.WantCaps hello) RoomCapVoice) token [] false false
               LeftUnset 0 []]>));
     _ ← upd_room rm (set_r_participants (<[pid := p]>));
     wasEmpty ← clearEmptyGraceLocked rm;
     joined ← recordLocked p;
     _ ← broadcastLocked opts unicode_upper rm (participant_event RoomEventParticipantJoined joined) pid now;
     rec ← stateRecordLocked unicode_upper obfuscate rm p;
     _ ← enqueueLocked p rec;
     _ ← sendVoiceRosterToLocked unicode_upper rm p;
     _ ← upd_part p (set_p_firstState (λ _, []));
     _ ← upd_room rm (set_r_voiceOnly (λ _, false));
     _ ← (if (wasEmpty : bool) && HasOnRoomEmpty opts then emit (OnRoomEmpty norm false) else skip);
     mret (Ok (E := reg_error) p))
    (λ res k', res = Ok (k_next k) ∧ rc_parts m !! pid = None ∧
       ∃ nick m', text_ok nick MaxRoomNicknameLen ∧
         k_heap k' !! rm = Some m' ∧ rc_parts m' = <[pid := k_next k]> (rc_parts m) ∧
         rc_ended m' = false ∧ rc_timer m' = false ∧ rc_atts m' = rc_atts m ∧
         k_parts k' = <[k_next k := (rm, pid, nick)]> (k_parts k) ∧ k_rooms k' = k_rooms k ∧
         ∀ rm', rm' ≠ rm → k_heap k' !! rm' = k_heap k !! rm').
Proof.
  intros Hk Hm Hr He Hpid. pose proof (ci_ok _ _ Hk rm m Hm) as Hok.
  apply next_pid_Some in Hpid as [Hb Hnone];
    [|change (r_nextPID r) with (rc_next (room_core_of r)); rewrite Hr; apply (ro_next _ _ _ _ _ Hok)].
  change (r_participants r) with (rc_parts (room_core_of r)) in Hnone. rewrite Hr in Hnone.
  set (n := if uint16 (pid + 1) =? 0 then 1 else uint16 (pid + 1)).
  set (m1 := rc_set_next n m). set (k1 := k_set_room rm m1 k).
  apply (runs_upd_room _ _ _ _ _ m m1); [done|by intros ? <-|].
  assert (Hk1 : CI None k1).
  { apply CI_next; [done|done|]. unfold n. case_match; [by vm_compute|]. apply Z.mod_pos_bound. lia. }
  apply (runs_unique_nick _ _ m1); [by left|apply heap_set|lia|]. intros nick Ht _.
  apply runs_new, runs_put_part. cbn [part_core p_room p_id p_nick].
  set (m4 := rc_set_parts (<[pid := k_next k]> (rc_parts m1)) m1).
  apply (runs_upd_room _ _ _ _ _ m1 m4); [apply heap_set|by intros ? <-|].
  apply runs_bind. eapply runs_clear; [apply heap_set|]. intros wasEmpty. rewrite k_set_room_twice.
  do 8 keep. apply runs_ret. split; [done|]. split; [done|].
  exists nick, (rc_set_timer false (rc_gen m4) m4). split; [done|]. split; [apply heap_set|].
  split_and!; try done. intros rm' Hne. cbn. by rewrite !lookup_insert_ne.
Qed.

(** C30. [Join], on every branch, in a reachable state. No such room: refused,
    nothing changed. The room is at its limit: refused, nothing changed. Every
    one of the 65535 IDs is in use and the limit allows more: the search for an
    ID does not end. Otherwise the join succeeds: the new participant is
    registered in that room, and nowhere else, under an ID nobody in it has,
    the grace timer is off, the attachments are as before, and no other room or
    participant is touched. *)
Theorem Join_spec g code hello grants token now :
  reachable g →
  let '(res, g') := Join opts unicode_upper unicode_lower obfuscate code hello grants token now g in
  match NormalizeCode unicode_lower code ≫= (g_rooms g !!.) with
  | None => res = Err ErrNotFound ∧ g' = g
  | Some rm => ∃ m, g_heap g !! rm = Some m ∧
      let n := Z.of_nat (size (r_participants m)) in
      if n >=? participantLimit opts m then res = Err ErrFull ∧ g' = g
      else if n =? 65535 then res = Fault ∧ g' = g
      else ∃ pid m' pt, res = Ok (g_next g) ∧ r_participants m !! pid = None ∧
        g_heap g' !! rm = Some m' ∧ r_participants m' = <[pid := g_next g]> (r_participants m) ∧
        r_ended m' = false ∧ r_emptyTimer m' = false ∧
        map att_core (r_attachments m') = map att_core (r_attachments m) ∧
        g_parts g' !! g_next g = Some pt ∧ p_room pt = rm ∧ p_id pt = pid ∧
        text_ok (p_nick pt) MaxRoomNicknameLen ∧ g_rooms g' = g_rooms g ∧
        (∀ rm', rm' ≠ rm → room_core_of <$> (g_heap g' !! rm') = room_core_of <$> (g_heap g !! rm')) ∧
        (∀ p, p ≠ g_next g → part_core <$> (g_parts g' !! p) = part_core <$> (g_parts g !! p))
  end.
Proof.
  intros Hg%reachable_inv. unfold Join. destruct (NormalizeCode unicode_lower code) as [norm|]; [|by split].
  change (Some norm ≫= (g_rooms g !!.)) with (g_rooms g !! norm). unfold mbind at 1, st_bind at 1, gets at 1. cbv iota beta.
  destruct (g_rooms g !! norm) as [rm|] eqn:Hreg; [|by split].
  destruct (ci_rooms _ _ Hg norm rm Hreg) as (m0 & (m & Hm & <-)%core_heap & Hc & He).
  unfold mbind at 1, st_bind at 1, get_room at 1, gets at 1. rewrite Hm.
  change (default zero_room (Some m)) with m. cbv iota beta. change (r_ended m) with (rc_ended (room_core_of m)).
  rewrite He. cbv zeta.
  pose proof (ci_ok _ _ Hg rm _ (heap_core _ _ _ Hm)) as Hok.
  destruct (_ >=? _) eqn:Hl; [exists m; split; [done|]; cbv zeta; by rewrite Hl|].
  assert (Hbound : ∀ i p, r_participants m !! i = Some p → 1 ≤ i < 65536).
  { intros i p Hi. apply (ro_member _ _ _ _ _ Hok i p Hi). }
  pose proof (size_bound _ Hbound) as Hs.
  destruct (Z.of_nat (size (r_participants m)) =? 65535) eqn:Hfull.
  { apply Z.eqb_eq in Hfull.
    rewrite (next_pid_full m (ro_next _ _ _ _ _ Hok) Hbound Hfull). exists m. split; [done|]. cbv zeta. by rewrite Hl, Hfull. }
  destruct (next_pid_total m (ro_next _ _ _ _ _ Hok)) as [pid Hpid]; [lia|]. rewrite Hpid.
  match goal with |- let '(_, _) := ?prog g in _ =>
    pose proof (runs_Join_rest (core_of g) rm _ m pid norm hello grants token now Hg (heap_core _ _ _ Hm)
                  eq_refl He Hpid g eq_refl) as Hrun; destruct (prog g) as [res g'] end.
  cbn [fst snd] in Hrun.
  destruct Hrun as (Hres & Hnone & nick & m1 & Ht & (m' & Hm' & <-)%core_heap & Hp & He' & Hti & Ha & Hps & Hrooms & Hother).
  exists m. split; [done|]. cbv zeta. rewrite Hl, Hfull.
  assert (Hpt : k_parts (core_of g') !! g_next g = Some (rm, pid, nick)) by (rewrite Hps; apply lookup_insert_eq).
  cbn in Hpt. rewrite lookup_fmap in Hpt. destruct (g_parts g' !! g_next g) as [pt|] eqn:Hgp; [|done].
  injection Hpt as H1 H2 H3. exists pid, m', pt. split_and!; try done.
  - by rewrite H3.
  - intros rm' Hne. specialize (Hother rm' Hne). cbn in Hother. by rewrite !lookup_fmap in Hother.
  - intros p Hne. apply (f_equal (.!! p)) in Hps. cbn in Hps. rewrite lookup_insert_ne in Hps by done.
    by rewrite !lookup_fmap in Hps.
Qed.

End Deliver.

(** ** The gate before the upgrade *)
Section Gate.
Context (opts : Options) (tokens : option Tokens) (unicode_lower : bytes → bytes).

(** the secret a caller has to present: the resolver's, when it found one *)
Definition resolved_secret (have : bool) (resolved : option (outcome unit (option bytes))) : option bytes :=
  match (if have then resolved else None) with Some (Ok found) => found | _ => None end.

(** What a session can be granted. If [CheckJoin] lets a session in, the
    room is live and below its participant limit; the session is a creator
    exactly when it sent a token, and then the token is the hexadecimal form of
    one the server's secret verifies for that room; and it may attach exactly
    when the room is not a party wall and is dynamic, or asks for no secret, or
    the session presented the secret. An attach key for a party wall is
    refused. *)
Theorem CheckJoin_grants code creatorToken attachSecret have resolved g gr :
  CheckJoin opts tokens unicode_lower code creatorToken attachSecret have resolved g = Ok gr →
  ∃ norm rm, NormalizeCode unicode_lower code = Some norm ∧ g_rooms g !! norm = Some rm ∧
    let m := default zero_room (g_heap g !! rm) in
    let secret := resolved_secret have resolved in
    let expected := default (r_attachSecret m) secret in
    r_ended m = false ∧ Z.of_nat (size (r_participants m)) < participantLimit opts m ∧
    (Creator gr = true ↔ creatorToken ≠ []) ∧
    (Creator gr = true → ∃ tok tk, decodeHex creatorToken = Some tok ∧ tokens = Some tk ∧
                           VerifyCreator tk norm tok = true) ∧
    (AttachOK gr = true ↔ is_wall m = false ∧
       (r_kind m = KindDynamic ∨ (expected = [] ∧ secret = None) ∨
        (have = true ∧ attachSecret = expected ∧ expected ≠ []))) ∧
    (is_wall m = true → have = false).
Proof.
  unfold CheckJoin. destruct (NormalizeCode unicode_lower code) as [norm|]; [|done]. intros H. exists norm.
  assert (Hres : ∃ c : option bytes → outcome reg_error Grants,
    (secret ← match (if have then resolved else None) with
              | Some (Ok found) => Ok found | Some _ => Err ErrUnavailable | None => Ok None end; c secret) = Ok gr →
    c (resolved_secret have resolved) = Ok gr) by by exists (λ _, Ok gr).
  clear Hres.
  assert (Hs : match (if have then resolved else None) with
     | Some (Ok found) => Ok found | Some _ => Err ErrUnavailable | None => Ok None end =
     Ok (E := reg_error) (resolved_secret have resolved)).
  { unfold resolved_secret. destruct (if have then resolved else None) as [[found|e|]|]; try done; by cbn in H. }
  rewrite Hs in H. cbn [mbind outcome_bind] in H. set (secret := resolved_secret have resolved) in *.
  destruct (g_rooms g !! norm) as [rm|]; [|done]. exists rm. split; [done|]. split; [done|]. cbv zeta.
  set (m := default zero_room (g_heap g !! rm)) in *. set (expected := default (r_attachSecret m) secret) in *.
  destruct (r_ended m); [done|]. destruct (is_wall m && have) eqn:Hw; [done|].
  destruct (if bool_decide (creatorToken = []) then _ else _) as [creator|e|] eqn:Hc; [|done..].
  cbn [mbind outcome_bind] in H.
  destruct (if is_wall m then _ else _) as [ok|e|] eqn:Ha; [|done..]. cbn [mbind outcome_bind] in H.
  destruct (_ >=? _) eqn:Hl; [done|]. injection H as <-. cbn [Creator AttachOK].
  split; [done|]. split; [lia|].
  assert (Hcr : (creator = true ↔ creatorToken ≠ []) ∧ (creator = true → ∃ tok tk,
    decodeHex creatorToken = Some tok ∧ tokens = Some tk ∧ VerifyCreator tk norm tok = true)).
  { destruct (decide (creatorToken = [])) as [He|He];
      [rewrite (bool_decide_eq_true_2 _ He) in Hc; by injection Hc as <-|
       rewrite (bool_decide_eq_false_2 _ He) in Hc].
    destruct (decodeHex creatorToken) as [tok|]; [|done]. destruct tokens as [tk|]; [|done].
    destruct (VerifyCreator tk norm tok) eqn:Hv; [|done]. injection Hc as <-. split; [done|]. by exists tok, tk. }
  destruct Hcr as [Hcr1 Hcr2]. split; [exact Hcr1|]. split; [exact Hcr2|]. split.
  - destruct (is_wall m); [injection Ha as <-; naive_solver|].
    destruct (decide (r_kind m = KindDynamic)) as [Hd|Hd];
      [rewrite (bool_decide_eq_true_2 _ Hd) in Ha; injection Ha as <-; naive_solver|
       rewrite (bool_decide_eq_false_2 _ Hd) in Ha].
    destruct (decide (expected = [])) as [He|He];
      [rewrite (bool_decide_eq_true_2 _ He) in Ha|rewrite (bool_decide_eq_false_2 _ He) in Ha]; cbn [andb] in Ha.
    + destruct secret as [sec|] eqn:Hsec; [rewrite bool_decide_eq_true_2 in Ha by by eexists|
        rewrite bool_decide_eq_false_2 in Ha by (by intros [? ?])]; cbn [negb] in Ha.
      * destruct have; [done|injection Ha as <-; naive_solver].
      * injection Ha as <-. naive_solver.
    + destruct have; [|injection Ha as <-; naive_solver].
      cbn [orb] in Ha. destruct (decide (attachSecret = expected)) as [Hx|Hx];
        [rewrite (bool_decide_eq_true_2 _ Hx) in Ha|by rewrite (bool_decide_eq_false_2 _ Hx) in Ha].
      injection Ha as <-. naive_solver.
  - intros Hwall. by rewrite Hwall in Hw.
Qed.
End Gate.

(** ** At work *)
Module DeliverSample.
Import Sample SampleFacts.
Definition anns : Registry :=
  snd (Join opts same same (λ _, []) code hello (MkGrants true true None) [] 200 minted).
Lemma anns_reachable : reachable opts tokens same same (λ _, []) (λ _, []) hmac anns.
Proof. eapply rtc_r; [exact minted_reachable|]. exists None. apply step_join. Qed.
Definition ann_room : room := default zero_room (g_heap anns !! 0%nat).

Lemma Join_spec_witness :
  ∃ pid m', g_heap anns !! 0%nat = Some m' ∧ r_participants m' !! pid = Some (g_next minted).
Proof.
  pose proof (Join_spec opts tokens same same (λ _, []) (λ _, []) hmac minted code hello (MkGrants true true None)
                [] 200 minted_reachable) as H.
  change anns with (snd (Join opts same same (λ _, []) code hello (MkGrants true true None) [] 200 minted)).
  destruct (Join opts same same (λ _, []) code hello (MkGrants true true None) [] 200 minted) as [res g'].
  replace (NormalizeCode same code ≫= (g_rooms minted !!.)) with (Some 0%nat) in H by by vm_compute.
  destruct H as (m & Hm & H). assert (m = minted_room) as -> by (vm_compute in Hm; by injection Hm as <-).
  cbv zeta in H.
  replace (Z.of_nat (size (r_participants minted_room)) >=? participantLimit opts minted_room) with false in H
    by (vm_compute; reflexivity).
  replace (Z.of_nat (size (r_participants minted_room)) =? 65535) with false in H by (vm_compute; reflexivity).
  destruct H as (pid & m' & pt & _ & _ & Hm' & Hp & _). exists pid, m'. split; [exact Hm'|].
  rewrite Hp. apply lookup_insert_eq.
Defined.
Lemma broadcast_delivers_witness :
  ∃ rec, option_map p_outbox (g_parts (snd (broadcastLocked opts same 0
    (participant_event RoomEventParticipantLeft (only_id 9)) 0 300 anns)) !! 1%nat) =
    option_map (λ pt, p_outbox pt ++ [frame rec]) (g_parts anns !! 1%nat).
Proof.
  assert (Hrec : ∃ rec, AppendRoomEvent same [] (RegEvents.set_seq (uint32 (r_seq ann_room + 1))
    (participant_event RoomEventParticipantLeft (only_id 9))) = Ok rec) by (eexists; vm_compute; reflexivity).
  destruct Hrec as [rec Hrec]. exists rec.
  destruct (g_parts anns !! 1%nat) as [pt|] eqn:Hpt; [|by vm_compute in Hpt].
  destruct (broadcast_delivers opts tokens same same (λ _, []) (λ _, []) hmac anns 0 ann_room
    (participant_event RoomEventParticipantLeft (only_id 9)) 0 300 rec anns_reachable) as [_ H];
    [by vm_compute|exact Hrec|]. specialize (H 1%nat pt Hpt).
  assert (Hin : option_map (λ pt, (p_id pt, zlen (p_outbox pt) <? outboxDepth)) (g_parts anns !! 1%nat) =
    Some (1, true)) by (vm_compute; reflexivity).
  rewrite Hpt in Hin. injection Hin as Hid Hlen.
  replace (bool_decide _ && _) with true in H by (rewrite Hid; vm_compute; reflexivity).
  destruct H as [H _]. rewrite H. cbn [option_map]. unfold enqueued. by rewrite Hlen.
Defined.
Lemma CheckJoin_grants_witness :
  ∃ norm, NormalizeCode same code = Some norm ∧ is_Some (g_rooms minted !! norm).
Proof.
  assert (H : CheckJoin opts tokens same code [] [] false None minted = Ok (MkGrants false true None))
    by (vm_compute; reflexivity).
  apply CheckJoin_grants in H as (norm & rm & Hn & Hr & _). exists norm. split; [exact Hn|by exists rm].
Defined.
End DeliverSample.

(** ** What the invariant rules out, when it is not kept *)
Module Interleavings.
Import Sample.
#[local] Notation upsert c pop g := (snd (UpsertStatic opts same same (λ _, [])
  (MkStatic c [] [] [] 0 0 pop [] None false) bs 100 g)).
Definition wall : bytes := str "wall"%string.
Definition lobby : bytes := str "lobby"%string.
Definition ids_in (g : Registry) (c : bytes) : list bytes :=
  match g_rooms g !! c ≫= (g_heap g !!.) with Some m => map a_id (r_attachments m) | None => [] end.

(** a wall with a broadcast on it, and a plain room with a member *)
Definition before : Registry :=
  let g := upsert wall (str "pop-a"%string) NewRegistry in
  let g := snd (AttachVouched opts same same wall (str "pop-a"%string) broadcast [] bs 110 g) in
  let g := upsert lobby [] g in
  snd (Join opts same same (λ _, []) lobby hello (MkGrants false true None) [] 120 g).

(** [attach] looks at the room's kind before it takes the mutex. When the room
    becomes a party wall in between, the member's broadcast lands on a wall, and
    if it is on another wall its slot there is overwritten: the broadcast is on
    two walls, and its expiry clears one of them only. *)
Example attach_race :
  ∃ member st, attach_check tokens same before member broadcast [] bs = inr st ∧
  let g := upsert lobby (str "pop-b"%string) before in
  let g := snd (attach_commit opts same member broadcast [] st 130 g) in
  ids_in g wall = [broadcast] ∧ ids_in g lobby = [broadcast] ∧ g_walls g !! broadcast = Some lobby ∧
  let g := snd (BroadcastExpired opts same broadcast 140 g) in
  ids_in g wall = [broadcast] ∧ ids_in g lobby = [] ∧ g_walls g !! broadcast = None.
Proof. exists 2%nat, (MkBState true 3). vm_compute. repeat split. Qed.

Definition flags_of (g : Registry) (p : nat) : Z := RoomParticipant.Flags (fst (recordLocked p g)).
Definition queue_len (g : Registry) (p : nat) : Z := zlen (p_outbox (default zero_part (g_parts g !! p))).

(** A re-attach moves the attachment to its new owner and announces that one
    only: the previous owner is no longer streaming, and of the two records the
    room is sent none says so. *)
Example reattach_is_silent :
  let join g := snd (Join opts same same (λ _, []) lobby hello (MkGrants false true None) [] 120 g) in
  let g := join (join (upsert lobby [] NewRegistry)) in
  let g1 := snd (attach opts tokens same 1 broadcast [] [] bs 130 g) in
  let g2 := snd (attach opts tokens same 2 broadcast [] [] bs 140 g1) in
  flags_of g1 1 = RoomParticipantFlagStreaming ∧ flags_of g2 1 = 0 ∧
  flags_of g2 2 = RoomParticipantFlagStreaming ∧
  drop (Z.to_nat (queue_len g1 1)) (p_outbox (default zero_part (g_parts g2 !! 1%nat))) =
    map (λ e, match AppendRoomEvent same [] e with Ok rec => frame rec | _ => None end)
      [RegEvents.set_seq 5 (attachment_event RoomEventAttachmentUpdated
         (RoomAttachment.Build_RoomAttachment broadcast [] true 3) 0);
       RegEvents.set_seq 6 (participant_event RoomEventParticipantUpdated (fst (recordLocked 2 g2)))].
Proof. vm_compute. repeat split. Qed.
End Interleavings.
