(* ===== verification/GF256.v ===== *)
(** The field GF(2^8) of parity.go: the exponent and logarithm tables as the
    package's [init] builds them, table multiplication and division, and their
    equivalence with polynomial multiplication modulo x^8+x^4+x^3+x^2+1. *)
From S2P Require Export WireBase.

(** ** The tables *)

(** One step of [init]: multiply by the generator 2, reducing modulo 0x11D. *)
Definition gf_step (x : Z) : Z :=
  let hi := Z.land x 0x80 <>? 0 in
  let x := uint8 (Z.shiftl x 1) in
  if hi then Z.lxor x 0x1d else x.

(** [for i := 0; i < 255; i++ { gfExp[i] = x; gfLog[x] = i; ... }] *)
Fixpoint init_loop (n : nat) (i : Z) (x : Z) (exp log : list Z) : list Z * list Z :=
  match n with
  | O => (exp, log)
  | S n' => init_loop n' (i + 1) (gf_step x)
              (<[Z.to_nat i := x]> exp) (<[Z.to_nat x := uint8 i]> log)
  end.

(** [for i := 255; i < 512; i++ { gfExp[i] = gfExp[i-255] }] *)
Fixpoint dup_loop (n : nat) (i : nat) (exp : list Z) : list Z :=
  match n with
  | O => exp
  | S n' => dup_loop n' (S i) (<[i := exp !!! (i - 255)%nat]> exp)
  end.

Definition gf_tables : list Z * list Z :=
  let '(exp, log) := init_loop 255 0 1 (replicate 512 0) (replicate 256 0) in
  (dup_loop 257 255 exp, log).
Definition gfExp : list Z := Eval vm_compute in gf_tables.1.
Definition gfLog : list Z := Eval vm_compute in gf_tables.2.

Definition gfMul (a b : Z) : Z :=
  if (a =? 0) || (b =? 0) then 0
  else gfExp !!! Z.to_nat (gfLog !!! Z.to_nat a + gfLog !!! Z.to_nat b).

(** division panics on zero *)
Definition gfDiv (a b : Z) : res Z :=
  if b =? 0 then Fault
  else if a =? 0 then Ok 0
  else Ok (gfExp !!! Z.to_nat (gfLog !!! Z.to_nat a - gfLog !!! Z.to_nat b + 255)).

(** [g^i], the Q coefficient of data chunk [i] *)
Definition gfPow2 (i : Z) : Z := gfExp !!! Z.to_nat (Z.rem i 255).

(** ** Reference: polynomials over GF(2) modulo 0x11D *)

(** multiplication by x *)
Definition xtime (a : Z) : Z :=
  Z.lxor (Z.land (Z.shiftl a 1) 0xff) (if Z.testbit a 7 then 0x1d else 0).

(** sum of the [a * x^k] for the bits [k] of [b] *)
Fixpoint pmul_bits (n : nat) (k : Z) (a b : Z) : Z :=
  match n with
  | O => 0
  | S n' => Z.lxor (if Z.testbit b k then a else 0) (pmul_bits n' (k + 1) (xtime a) b)
  end.
Definition pmul (a b : Z) : Z := pmul_bits 8 0 a b.

(** ** Bytes and [Z.lxor] *)

Lemma byte_bits a : is_byte a ↔ 0 ≤ a ∧ ∀ k, 8 ≤ k → Z.testbit a k = false.
Proof.
  unfold is_byte. split.
  - intros [H0 H1]. split; [done|]. intros k Hk.
    rewrite Z.testbit_false by lia. rewrite Z.div_small; [done|].
    split; [done|]. apply Z.lt_le_trans with (2 ^ 8); [done|]. apply Z.pow_le_mono_r; lia.
  - intros [H0 Hk]. split; [done|]. destruct (Z.ltb_spec a 256); [done|]. exfalso.
    assert (Hl : 8 ≤ Z.log2 a) by (apply (Z.log2_le_mono 256); lia).
    specialize (Hk (Z.log2 a) Hl). rewrite Z.bit_log2 in Hk by lia. done.
Qed.

Lemma lxor_byte a b : is_byte a → is_byte b → is_byte (Z.lxor a b).
Proof.
  rewrite !byte_bits. intros [? Ha] [? Hb]. split; [by apply Z.lxor_nonneg|].
  intros k Hk. by rewrite Z.lxor_spec, Ha, Hb.
Qed.

(** Identities of sums modulo 2, bit by bit. *)
Ltac xor_solve :=
  apply Z.bits_inj'; intros ? _; rewrite ?Z.lxor_spec, ?Z.bits_0;
  repeat match goal with |- context [Z.testbit ?a ?n] => destruct (Z.testbit a n) end;
  reflexivity.

Lemma lxor_cancel a b : Z.lxor (Z.lxor a b) b = a.
Proof. by rewrite Z.lxor_assoc, Z.lxor_nilpotent, Z.lxor_0_r. Qed.

#[export] Hint Resolve lxor_byte : core.

(** ** [xtime] and [pmul] are linear *)

Lemma xtime_byte a : is_byte (xtime a).
Proof.
  unfold xtime. apply lxor_byte; [|by case_match].
  change 0xff with (Z.ones 8). rewrite Z.land_ones by lia.
  apply Z.mod_pos_bound. lia.
Qed.

Lemma land_lxor a b m : Z.land (Z.lxor a b) m = Z.lxor (Z.land a m) (Z.land b m).
Proof.
  apply Z.bits_inj'. intros n _. rewrite Z.land_spec, !Z.lxor_spec, !Z.land_spec.
  by destruct (Z.testbit a n), (Z.testbit b n), (Z.testbit m n).
Qed.

Lemma xtime_lxor a b : xtime (Z.lxor a b) = Z.lxor (xtime a) (xtime b).
Proof.
  unfold xtime. rewrite Z.shiftl_lxor, land_lxor, Z.lxor_spec.
  by destruct (Z.testbit a 7), (Z.testbit b 7); cbn [xorb]; xor_solve.
Qed.

Lemma xtime_0 : xtime 0 = 0.
Proof. done. Qed.

Lemma pmul_bits_xtime n : ∀ k a b, pmul_bits n k (xtime a) b = xtime (pmul_bits n k a b).
Proof.
  induction n as [|n IH]; intros k a b; [done|]. cbn [pmul_bits].
  rewrite xtime_lxor, IH. by destruct (Z.testbit b k).
Qed.

Lemma pmul_xtime a b : pmul (xtime a) b = xtime (pmul a b).
Proof. apply pmul_bits_xtime. Qed.

Lemma lxor_swap a b c d :
  Z.lxor (Z.lxor a b) (Z.lxor c d) = Z.lxor (Z.lxor a c) (Z.lxor b d).
Proof.
  xor_solve.
Qed.

Lemma pmul_lxor_r a b c : pmul a (Z.lxor b c) = Z.lxor (pmul a b) (pmul a c).
Proof.
  unfold pmul. generalize 8%nat at 1 2 3. intros n. generalize 0. revert a.
  induction n as [|n IH]; intros a k; [done|]. cbn [pmul_bits].
  rewrite Z.lxor_spec, IH, lxor_swap. f_equal.
  destruct (Z.testbit b k), (Z.testbit c k); cbn [xorb];
    by rewrite ?Z.lxor_nilpotent, ?Z.lxor_0_r, ?Z.lxor_0_l.
Qed.

Lemma pmul_0_l b : pmul 0 b = 0.
Proof.
  unfold pmul. generalize 8%nat. intros n. generalize 0 at 1. intros k. revert k.
  induction n as [|n IH]; intros k; [done|]. cbn [pmul_bits].
  change (xtime 0) with 0. rewrite IH. by case_match.
Qed.

Lemma pmul_0_r a : pmul a 0 = 0.
Proof.
  unfold pmul. generalize 8%nat. intros n. generalize 0 at 1. revert a.
  induction n as [|n IH]; intros a k; [done|]. cbn [pmul_bits].
  by rewrite Z.bits_0, IH.
Qed.

(** ** The tables hold the powers of the generator *)

Definition gpow (i : nat) : Z := Nat.iter i xtime 1.

Lemma gpow_byte i : is_byte (gpow i).
Proof. destruct i; [done|]. apply xtime_byte. Qed.

Lemma gfExp_gpow i : (i < 512)%nat → gfExp !!! i = gpow i.
Proof.
  intros Hi.
  assert (Hall : forallb (λ j, gfExp !!! j =? gpow j) (seq 0 512) = true)
    by (vm_compute; reflexivity).
  rewrite forallb_forall in Hall. specialize (Hall i). apply Z.eqb_eq, Hall, in_seq. lia.
Qed.

Lemma pmul_1_l b : is_byte b → pmul 1 b = b.
Proof.
  intros Hb. apply Z.eqb_eq. revert b Hb. apply byte_forall. vm_compute; reflexivity.
Qed.

Lemma pmul_gpow i b : is_byte b → pmul (gpow i) b = Nat.iter i xtime b.
Proof.
  intros Hb. unfold gpow. induction i as [|i IH]; [by apply pmul_1_l|].
  rewrite !Nat.iter_succ. by rewrite pmul_xtime, IH.
Qed.

Lemma pmul_gpow_gpow i j : pmul (gpow i) (gpow j) = gpow (i + j).
Proof.
  rewrite pmul_gpow by apply gpow_byte. unfold gpow. by rewrite Nat.iter_add.
Qed.

(** [gfLog] inverts [gfExp] on the non-zero bytes. *)
Definition glog (a : Z) : Z := gfLog !!! Z.to_nat a.

Lemma glog_spec a :
  is_byte a → a ≠ 0 → 0 ≤ glog a < 255 ∧ gfExp !!! Z.to_nat (glog a) = a.
Proof.
  intros Ha Hz.
  assert (Hall : ∀ b, is_byte b →
    ((b =? 0) || ((0 <=? glog b) && (glog b <? 255) &&
                  (gfExp !!! Z.to_nat (glog b) =? b))) = true)
    by (apply byte_forall; vm_compute; reflexivity).
  specialize (Hall a Ha). lia.
Qed.

Lemma glog_exp k : 0 ≤ k < 510 →
  gfExp !!! Z.to_nat k ≠ 0 ∧ glog (gfExp !!! Z.to_nat k) = (if k <? 255 then k else k - 255).
Proof.
  intros Hk.
  assert (Hall : forallb (λ j, let k := Z.of_nat j in
      negb (gfExp !!! j =? 0) && (glog (gfExp !!! j) =? (if k <? 255 then k else k - 255)))
    (seq 0 510) = true) by (vm_compute; reflexivity).
  rewrite forallb_forall in Hall. specialize (Hall (Z.to_nat k)). cbn zeta in Hall.
  rewrite Z2Nat.id in Hall by lia.
  assert (Hin : In (Z.to_nat k) (seq 0 510)) by (apply in_seq; lia).
  specialize (Hall Hin). apply andb_true_iff in Hall as [H1 H2].
  split; [by apply negb_true_iff, Z.eqb_neq in H1 | by apply Z.eqb_eq].
Qed.

Lemma gfExp_byte k : 0 ≤ k < 512 → is_byte (gfExp !!! Z.to_nat k).
Proof. intros. rewrite gfExp_gpow by lia. apply gpow_byte. Qed.

(** Table multiplication is polynomial multiplication. *)
Lemma gfMul_pmul a b : is_byte a → is_byte b → gfMul a b = pmul a b.
Proof.
  intros Ha Hb. unfold gfMul.
  destruct (Z.eqb_spec a 0) as [->|Ha0]; [by rewrite pmul_0_l|].
  destruct (Z.eqb_spec b 0) as [->|Hb0]; [by rewrite pmul_0_r|].
  cbn [orb]. fold (glog a) (glog b).
  destruct (glog_spec a Ha Ha0) as [Hla Hea], (glog_spec b Hb Hb0) as [Hlb Heb].
  rewrite <- Hea at 2. rewrite <- Heb at 2.
  rewrite !gfExp_gpow by lia. rewrite pmul_gpow_gpow. f_equal. lia.
Qed.

Lemma gfMul_comm a b : gfMul a b = gfMul b a.
Proof. unfold gfMul. rewrite orb_comm. by rewrite (Z.add_comm (gfLog !!! Z.to_nat a)). Qed.

Lemma gfMul_0_r a : gfMul a 0 = 0.
Proof. unfold gfMul. by rewrite orb_true_r. Qed.

Lemma gfMul_byte a b : is_byte a → is_byte b → is_byte (gfMul a b).
Proof.
  intros Ha Hb. unfold gfMul.
  destruct (Z.eqb_spec a 0); [done|]. destruct (Z.eqb_spec b 0); [done|]. cbn [orb].
  destruct (glog_spec a), (glog_spec b); try done. unfold glog in *. apply gfExp_byte. lia.
Qed.
#[export] Hint Resolve gfMul_byte : core.

(** Distributivity over addition, both sides. *)
Lemma gfMul_lxor_r a b c :
  is_byte a → is_byte b → is_byte c →
  gfMul a (Z.lxor b c) = Z.lxor (gfMul a b) (gfMul a c).
Proof. intros. rewrite !gfMul_pmul by auto. apply pmul_lxor_r. Qed.

Lemma gfMul_lxor_l a b c :
  is_byte a → is_byte b → is_byte c →
  gfMul (Z.lxor a b) c = Z.lxor (gfMul a c) (gfMul b c).
Proof. intros. rewrite !(gfMul_comm _ c). by apply gfMul_lxor_r. Qed.

(** Division undoes multiplication by a non-zero element. *)
Lemma gfDiv_gfMul c d :
  is_byte c → c ≠ 0 → is_byte d → gfDiv (gfMul c d) c = Ok d.
Proof.
  intros Hc Hc0 Hd. unfold gfDiv, gfMul. rewrite (proj2 (Z.eqb_neq c 0)) by done.
  destruct (Z.eqb_spec d 0) as [->|Hd0]; [done|]. cbn [orb].
  destruct (glog_spec c) as [Hlc _], (glog_spec d) as [Hld Hed]; try done.
  fold (glog c) (glog d).
  destruct (glog_exp (glog c + glog d)) as [Hn Hl]; [lia|].
  rewrite (proj2 (Z.eqb_neq _ 0) Hn). unfold glog in Hl at 1. rewrite Hl. f_equal.
  case_match.
  - replace (_ + _ - _ + 255) with (glog d + 255) by lia.
    rewrite <- Hed at 2.
    assert (Hd2 : ∀ j, 0 ≤ j < 255 → gfExp !!! Z.to_nat (j + 255) = gfExp !!! Z.to_nat j).
    { intros j Hj.
      assert (Hall : forallb (λ j, gfExp !!! (j + 255)%nat =? gfExp !!! j) (seq 0 255) = true)
        by (vm_compute; reflexivity).
      rewrite forallb_forall in Hall. specialize (Hall (Z.to_nat j)).
      replace (Z.to_nat (j + 255)) with (Z.to_nat j + 255)%nat by lia.
      apply Z.eqb_eq, Hall, in_seq. lia. }
    by apply Hd2.
  - replace (_ + _ - _ - _ + 255) with (glog d) by lia. done.
Qed.

(** The Q coefficients of at most 255 chunks are distinct and non-zero. *)
Lemma gfPow2_byte i : 0 ≤ i → is_byte (gfPow2 i).
Proof.
  intros. unfold gfPow2. rewrite Z.rem_mod_nonneg by lia.
  pose proof (Z.mod_pos_bound i 255). apply gfExp_byte. lia.
Qed.
Lemma gfPow2_nonzero i : 0 ≤ i → gfPow2 i ≠ 0.
Proof.
  intros. unfold gfPow2. rewrite Z.rem_mod_nonneg by lia.
  pose proof (Z.mod_pos_bound i 255). apply glog_exp. lia.
Qed.
Lemma gfPow2_inj i j : 0 ≤ i < 255 → 0 ≤ j < 255 → gfPow2 i = gfPow2 j → i = j.
Proof.
  intros Hi Hj. unfold gfPow2. rewrite !Z.rem_mod_nonneg, !Z.mod_small by lia. intros He.
  destruct (glog_exp i) as [_ Li], (glog_exp j) as [_ Lj]; try lia.
  rewrite He, Lj in Li. repeat case_match; lia.
Qed.

(** ** Properties *)

(** C36. The log/antilog tables multiply like polynomials over GF(2) modulo
    0x11D, on every pair of bytes; division undoes multiplication, panics only
    on a zero divisor, and the Q coefficients of the 255 chunk positions are
    non-zero and pairwise different. *)
Theorem gf_tables_correct :
  (∀ a b, is_byte a → is_byte b → gfMul a b = pmul a b ∧ is_byte (gfMul a b)) ∧
  (∀ a b, is_byte a → is_byte b → b ≠ 0 → gfDiv (gfMul b a) b = Ok a) ∧
  (∀ a b, gfDiv a b = Fault ↔ b = 0) ∧
  (∀ i j, 0 ≤ i < 255 → 0 ≤ j < 255 →
     gfPow2 i ≠ 0 ∧ (gfPow2 i = gfPow2 j → i = j)).
Proof.
  split; [|split; [|split]].
  - intros a b Ha Hb. split; [by apply gfMul_pmul|by apply gfMul_byte].
  - intros a b Ha Hb Hne. by apply gfDiv_gfMul.
  - intros a b. unfold gfDiv. destruct (Z.eqb_spec b 0) as [->|Hne]; [done|].
    by case_match.
  - intros i j Hi Hj. split; [apply gfPow2_nonzero; lia|by apply gfPow2_inj].
Qed.
