(* ===== verification/Parity.v ===== *)
(** Forward parity (parity.go): RAID-6 P/Q symbols over the data chunks of a
    delta frame, recovery of up to two erasures, and the ParityChunk datagram. *)
From S2P Require Export GF256.
From Stdlib Require Import Sorting.Sorted.

(** ** ComputeParity *)

(** [for b, v := range c { p[b] ^= v }] on a buffer at least as long as [c] *)
Fixpoint xor_into (p c : bytes) : bytes :=
  match p, c with
  | x :: p', v :: c' => Z.lxor x v :: xor_into p' c'
  | _, _ => p
  end.
(** [for b, v := range c { q[b] ^= gfMul(coeff, v) }] *)
Fixpoint mul_xor_into (coeff : Z) (q c : bytes) : bytes :=
  match q, c with
  | x :: q', v :: c' => Z.lxor x (gfMul coeff v) :: mul_xor_into coeff q' c'
  | _, _ => q
  end.

(** the loop over the chunks, with the symbols P and Q *)
Fixpoint parity_loop (i : Z) (chunks : list bytes) (p q : bytes) : bytes * bytes :=
  match chunks with
  | [] => (p, q)
  | c :: chunks' =>
      parity_loop (i + 1) chunks' (xor_into p c) (mul_xor_into (gfPow2 i) q c)
  end.

(** the longest chunk *)
Definition chunk_width (chunks : list bytes) : Z :=
  fold_left (λ w c, if zlen c >? w then zlen c else w) chunks 0.

Definition ComputeParity (chunks : list bytes) (k : Z) : res (list bytes) :=
  reject (k <? 0) || (k >? MaxParitySymbols) with ErrParityUnsupported;
  let n := zlen chunks in
  if (k =? 0) || (n =? 0) then Ok [] else
  reject n >? MaxParityDataChunks with ErrParityUnsupported;
  let k := if k >? n then n else k in
  let width := chunk_width chunks in
  reject width >? MaxChunkPayload with ErrParityUnsupported;
  let zeros := replicate (Z.to_nat width) 0 in
  let '(p, q) := parity_loop 0 chunks zeros zeros in
  Ok (if k >? 1 then [p; q] else [p]).

(** ** RecoverChunks *)

(** the indices of the [nil] entries *)
Fixpoint missing_from (i : Z) (chunks : list (option bytes)) : list Z :=
  match chunks with
  | [] => []
  | None :: chunks' => i :: missing_from (i + 1) chunks'
  | Some _ :: chunks' => missing_from (i + 1) chunks'
  end.

(** every received chunk has the length the header implies *)
Fixpoint lengths_ok (i n width lastLen : Z) (chunks : list (option bytes)) : bool :=
  match chunks with
  | [] => true
  | None :: chunks' => lengths_ok (i + 1) n width lastLen chunks'
  | Some c :: chunks' =>
      let want := if i =? n - 1 then lastLen else width in
      if zlen c <>? want then false else lengths_ok (i + 1) n width lastLen chunks'
  end.

(** [buf := make([]byte, width); copy(buf, c)] *)
Definition pad (width : Z) (c : bytes) : bytes :=
  take (Z.to_nat width) c ++ replicate (Z.to_nat width - length c) 0.
Definition padded_chunk (width : Z) (c : option bytes) : bytes :=
  match c with Some c => pad width c | None => replicate (Z.to_nat width) 0 end.

(** [acc[b] ^= c[b]] and [acc[b] ^= gfMul(coeff, c[b])] over the chunks that
    [skip] does not exclude *)
Fixpoint xor_survivors (skip : Z → bool) (i : Z) (padded : list bytes) (acc : bytes) : bytes :=
  match padded with
  | [] => acc
  | c :: padded' =>
      xor_survivors skip (i + 1) padded' (if skip i then acc else zip_with Z.lxor acc c)
  end.
Fixpoint mul_survivors (skip : Z → bool) (i : Z) (padded : list bytes) (acc : bytes) : bytes :=
  match padded with
  | [] => acc
  | c :: padded' =>
      mul_survivors skip (i + 1) padded'
        (if skip i then acc
         else zip_with (λ a v, Z.lxor a (gfMul (gfPow2 i) v)) acc c)
  end.

(** [for b := range acc { acc[b] = f(acc[b]) }] where [f] may panic *)
Fixpoint map_outcome {E} (f : Z → outcome E Z) (l : bytes) : outcome E bytes :=
  match l with
  | [] => Ok []
  | x :: l' => y ← f x; r ← map_outcome f l'; Ok (y :: r)
  end.

(** [for _, i := range missing { chunks[i] = out }], the last chunk cut to
    its real length *)
Fixpoint store_missing (missing : list Z) (n lastLen : Z) (padded : list bytes)
    (chunks : list (option bytes)) : list (option bytes) :=
  match missing with
  | [] => chunks
  | i :: missing' =>
      let out := padded !!! Z.to_nat i in
      let out := if i =? n - 1 then take (Z.to_nat lastLen) out else out in
      store_missing missing' n lastLen padded (<[Z.to_nat i := Some out]> chunks)
  end.

(** The solved padded chunks, by the number of erasures. *)
Definition solve (missing : list Z) (haveP haveQ : option bytes) (padded : list bytes)
    : res (list bytes) :=
  match missing with
  | [x] =>
      match haveP with
      | Some P => Ok (<[Z.to_nat x := xor_survivors (Z.eqb x) 0 padded P]> padded)
      | None =>
          let Q := default [] haveQ in
          let acc := mul_survivors (Z.eqb x) 0 padded Q in
          let inv := gfPow2 x in
          acc ← map_outcome (λ a, gfDiv a inv) acc;
          Ok (<[Z.to_nat x := acc]> padded)
      end
  | [x; y] =>
      let skip i := (i =? x) || (i =? y) in
      let pm := xor_survivors skip 0 padded (default [] haveP) in
      let qm := mul_survivors skip 0 padded (default [] haveQ) in
      let gx := gfPow2 x in
      let gy := gfPow2 y in
      let den := Z.lxor gx gy in
      reject den =? 0 with ErrParityUnsupported;
      dx ← map_outcome (λ a, gfDiv a den) (zip_with (λ p q, Z.lxor (gfMul gy p) q) pm qm);
      let dy := zip_with Z.lxor pm dx in
      Ok (<[Z.to_nat y := dy]> (<[Z.to_nat x := dx]> padded))
  | _ => Ok padded
  end.

(** The chunk list is updated in place; on an error it is unchanged. *)
Definition RecoverChunks (chunks parity : list (option bytes)) (frameBytes : Z)
    : res (list (option bytes)) :=
  let n := zlen chunks in
  reject n =? 0 with ErrParityUnsupported;
  reject n >? MaxParityDataChunks with ErrParityUnsupported;
  let missing := missing_from 0 chunks in
  if zlen missing =? 0 then Ok chunks else
  let haveP := match parity with p :: _ => p | [] => None end in
  let haveQ := match parity with _ :: q :: _ => q | _ => None end in
  let avail := match haveP with Some _ => 1 | None => 0 end +
               match haveQ with Some _ => 1 | None => 0 end in
  reject zlen missing >? avail with ErrParityUnrecoverable;
  let width := match haveP, haveQ with
               | Some p, _ => zlen p | None, Some q => zlen q | None, None => 0 end in
  reject width =? 0 with ErrParityUnrecoverable;
  reject (match haveP, haveQ with Some p, Some q => zlen p <>? zlen q | _, _ => false end)
    with ErrParityUnsupported;
  let lastLen := frameBytes - (n - 1) * width in
  reject (lastLen <=? 0) || (lastLen >? width) with ErrParityUnsupported;
  reject negb (lengths_ok 0 n width lastLen chunks) with ErrParityUnsupported;
  let padded := padded_chunk width <$> chunks in
  padded ← solve missing haveP haveQ padded;
  Ok (store_missing missing n lastLen padded chunks).

(** ** Sanity: a three-chunk frame loses two chunks and gets them back. *)
Example recover_two :
  RecoverChunks [None; Some [4; 5; 6]; None]
    (Some <$> match ComputeParity [[1; 2; 3]; [4; 5; 6]; [7]] 2 with Ok ps => ps | _ => [] end) 7
  = Ok [Some [1; 2; 3]; Some [4; 5; 6]; Some [7]].
Proof. vm_compute. reflexivity. Qed.

(** ** Column sums

    Byte [b] of every buffer is a sum modulo 2 over the chunks. [gsum w keep]
    adds [w i z] for the column entries [z] whose index [i] is kept: P has
    weight [w i z = z], Q has weight [g^i * z]. *)
Fixpoint gsum (w : Z → Z → Z) (keep : Z → bool) (i : Z) (col : list Z) : Z :=
  match col with
  | [] => 0
  | z :: col' => Z.lxor (if keep i then w i z else 0) (gsum w keep (i + 1) col')
  end.

Definition wP (i z : Z) : Z := z.
Definition wQ (i z : Z) : Z := gfMul (gfPow2 i) z.

(** Both accumulation loops, over any weight. *)
Fixpoint survivors (w : Z → Z → Z) (skip : Z → bool) (i : Z) (V : list bytes) (acc : bytes)
    : bytes :=
  match V with
  | [] => acc
  | c :: V' =>
      survivors w skip (i + 1) V'
        (if skip i then acc else zip_with (λ a v, Z.lxor a (w i v)) acc c)
  end.

Lemma xor_survivors_gen skip V : ∀ i acc,
  xor_survivors skip i V acc = survivors wP skip i V acc.
Proof. induction V as [|c V IH]; intros i acc; [done|]. cbn. by rewrite IH. Qed.
Lemma mul_survivors_gen skip V : ∀ i acc,
  mul_survivors skip i V acc = survivors wQ skip i V acc.
Proof. induction V as [|c V IH]; intros i acc; [done|]. cbn. by rewrite IH. Qed.

Section Sums.
Context (w : Z → Z → Z).

Lemma gsum_disjoint k1 k2 k3 col : ∀ i,
  (∀ j, k3 j = k1 j || k2 j) → (∀ j, k1 j && k2 j = false) →
  gsum w k3 i col = Z.lxor (gsum w k1 i col) (gsum w k2 i col).
Proof.
  intros i H3 H12. revert i. induction col as [|z col IH]; intros i; [done|]. cbn [gsum].
  rewrite IH, lxor_swap. f_equal. rewrite H3. specialize (H12 i).
  destruct (k1 i), (k2 i); cbn; rewrite ?Z.lxor_0_r, ?Z.lxor_0_l; done.
Qed.

Lemma gsum_ext keep col1 col2 : ∀ i,
  length col1 = length col2 →
  (∀ j, keep (i + Z.of_nat j) = true → col1 !!! j = col2 !!! j) →
  gsum w keep i col1 = gsum w keep i col2.
Proof.
  revert col2. induction col1 as [|z1 col1 IH]; intros [|z2 col2] i Hl Hj;
    try discriminate; [done|]. cbn [gsum]. f_equal.
  - pose proof (Hj 0%nat) as H0. cbn in H0. rewrite Z.add_0_r in H0.
    destruct (keep i); [|done]. by rewrite H0.
  - apply IH; [by injection Hl|]. intros j Hk. apply (Hj (S j)).
    by replace (i + Z.of_nat (S j)) with (i + 1 + Z.of_nat j) by lia.
Qed.

Lemma gsum_none keep col : ∀ i,
  (∀ j, (j < length col)%nat → keep (i + Z.of_nat j) = false) → gsum w keep i col = 0.
Proof.
  induction col as [|z col IH]; intros i Hk; [done|]. cbn [gsum length] in *.
  pose proof (Hk 0%nat ltac:(lia)) as H0. rewrite Z.add_0_r in H0. rewrite H0, IH; [done|].
  intros j Hj. replace (i + 1 + Z.of_nat j) with (i + Z.of_nat (S j)) by lia. apply Hk. lia.
Qed.

Lemma gsum_single x col : ∀ i,
  i ≤ x < i + zlen col → gsum w (Z.eqb x) i col = w x (col !!! Z.to_nat (x - i)).
Proof.
  induction col as [|z col IH]; intros i Hx; [zlia|]. cbn [gsum].
  destruct (Z.eqb_spec x i) as [->|Hne].
  - rewrite gsum_none, Z.lxor_0_r, Z.sub_diag; [done|]. intros. lia.
  - rewrite IH by zlia. rewrite Z.lxor_0_l.
    rewrite lookup_total_cons_Z by zlia. do 3 f_equal. lia.
Qed.

Lemma gsum_byte keep col : ∀ i,
  (∀ i z, 0 ≤ i → is_byte z → is_byte (w i z)) → 0 ≤ i → bytes_ok col →
  is_byte (gsum w keep i col).
Proof.
  intros i Hw. revert i. induction col as [|z col IH]; intros i Hi Hc; [done|].
  apply Forall_cons_iff in Hc as [Hz Hc]. cbn [gsum].
  apply lxor_byte; [|apply IH; [lia|done]]. case_match; [by apply Hw|done].
Qed.

(** Byte [b] of every vector of [V]. *)
Definition column (b : nat) (V : list bytes) : list Z := (λ v, v !!! b) <$> V.

Lemma survivors_length n skip V : ∀ i acc,
  length acc = n → Forall (λ v, length v = n) V → length (survivors w skip i V acc) = n.
Proof.
  induction V as [|c V IH]; intros i acc Ha HV; [done|].
  apply Forall_cons_iff in HV as [Hc HV]. cbn [survivors].
  apply IH; [|done]. case_match; [done|]. rewrite length_zip_with. lia.
Qed.

Lemma survivors_lookup n skip V b : ∀ i acc,
  length acc = n → Forall (λ v, length v = n) V → (b < n)%nat →
  survivors w skip i V acc !!! b =
    Z.lxor (acc !!! b) (gsum w (λ j, negb (skip j)) i (column b V)).
Proof.
  induction V as [|c V IH]; intros i acc Ha HV Hb; [by rewrite Z.lxor_0_r|].
  apply Forall_cons_iff in HV as [Hc HV]. cbn [survivors column fmap list_fmap gsum].
  fold (column b V). destruct (skip i); cbn [negb].
  - by rewrite IH, Z.lxor_0_l.
  - rewrite IH by (rewrite ?length_zip_with; (done || lia)).
    rewrite <- Z.lxor_assoc. f_equal.
    apply list_lookup_total_correct. rewrite lookup_zip_with.
    rewrite (list_lookup_lookup_total_lt acc), (list_lookup_lookup_total_lt c) by lia. done.
Qed.

End Sums.

(** ** ComputeParity as column sums *)

Lemma pad_length w c : length (pad w c) = Z.to_nat w.
Proof. unfold pad. rewrite length_app, length_take, length_replicate. lia. Qed.

Lemma pad_lookup w c b :
  zlen c ≤ w → (b < Z.to_nat w)%nat → pad w c !!! b = default 0 (c !! b).
Proof.
  intros Hc Hb. unfold pad. rewrite take_ge by (unfold zlen in *; lia).
  apply list_lookup_total_correct. destruct (c !! b) as [v|] eqn:E; cbn.
  - rewrite lookup_app_l; [done|]. by apply lookup_lt_Some in E.
  - apply lookup_ge_None in E. rewrite lookup_app_r by done.
    apply lookup_replicate. split; [done|lia].
Qed.

Lemma pad_id w c : zlen c = w → pad w c = c.
Proof.
  intros <-. unfold pad, zlen. rewrite Nat2Z.id, Nat.sub_diag, take_ge by lia. apply app_nil_r.
Qed.

Lemma pad_take w c : zlen c ≤ w → take (Z.to_nat (zlen c)) (pad w c) = c.
Proof.
  intros. unfold pad, zlen in *. rewrite (take_ge c) by lia. by rewrite Nat2Z.id, take_app_length.
Qed.

Lemma pad_bytes_ok w c : bytes_ok c → bytes_ok (pad w c).
Proof.
  intros. apply Forall_app_2; [by apply Forall_take|]. by apply Forall_replicate.
Qed.

Lemma xor_into_pad w p c :
  length p = Z.to_nat w → zlen c ≤ w →
  xor_into p c = zip_with (λ a v, Z.lxor a v) p (pad w c).
Proof.
  intros Hp Hc. unfold pad. rewrite take_ge by (unfold zlen in *; lia).
  rewrite <- Hp. unfold zlen in Hc. assert (Hl : (length c ≤ length p)%nat) by lia.
  clear -Hl. revert c Hl. induction p as [|x p IH]; intros [|v c] Hl; cbn in *; try done; try lia.
  - f_equal; [by rewrite Z.lxor_0_r|]. clear. induction p as [|y p IH]; [done|]. cbn.
    by rewrite Z.lxor_0_r, <- IH.
  - f_equal. apply IH. lia.
Qed.

Lemma mul_xor_into_pad w k q c :
  length q = Z.to_nat w → zlen c ≤ w →
  mul_xor_into k q c = zip_with (λ a v, Z.lxor a (gfMul k v)) q (pad w c).
Proof.
  intros Hp Hc. unfold pad. rewrite take_ge by (unfold zlen in *; lia).
  rewrite <- Hp. unfold zlen in Hc. assert (Hl : (length c ≤ length q)%nat) by lia.
  clear -Hl. revert c Hl. induction q as [|x q IH]; intros [|v c] Hl; cbn in *; try done; try lia.
  - f_equal; [by rewrite gfMul_0_r, Z.lxor_0_r|]. clear. induction q as [|y q IH]; [done|]. cbn.
    by rewrite gfMul_0_r, Z.lxor_0_r, <- IH.
  - f_equal. apply IH. lia.
Qed.

Lemma parity_loop_survivors w D : ∀ i p q,
  length p = Z.to_nat w → length q = Z.to_nat w → Forall (λ c, zlen c ≤ w) D →
  parity_loop i D p q =
    (survivors wP (λ _, false) i (pad w <$> D) p, survivors wQ (λ _, false) i (pad w <$> D) q).
Proof.
  induction D as [|c D IH]; intros i p q Hp Hq HD; [done|].
  apply Forall_cons_iff in HD as [Hc HD]. cbn [parity_loop fmap list_fmap survivors].
  rewrite (xor_into_pad w), (mul_xor_into_pad w) by done.
  apply IH; [..|done]; rewrite length_zip_with, pad_length; lia.
Qed.

(** ** Recovery *)

(** a received slot: either missing or the original *)
Definition erased {A} (c : option A) (d : A) : Prop := c = None ∨ c = Some d.

Lemma missing_from_spec chunks x : ∀ i,
  x ∈ missing_from i chunks ↔ i ≤ x ∧ chunks !! Z.to_nat (x - i) = Some None.
Proof.
  induction chunks as [|c chunks IH]; intros i; cbn [missing_from].
  - split; [by intros ?%not_elem_of_nil | intros [_ H]; by rewrite lookup_nil in H].
  - assert (Hs : i < x → (c :: chunks) !! Z.to_nat (x - i) = chunks !! Z.to_nat (x - (i + 1))).
    { intros. by replace (Z.to_nat (x - i)) with (S (Z.to_nat (x - (i + 1)))) by lia. }
    assert (H0 : x = i → (c :: chunks) !! Z.to_nat (x - i) = Some c).
    { intros ->. by rewrite Z.sub_diag. }
    destruct c as [c|]; rewrite ?elem_of_cons, IH;
      (destruct (Z.lt_trichotomy x i) as [?|[?|?]];
        [split; intros; exfalso; lia | rewrite H0 by done | rewrite Hs by done]);
      intuition (lia || congruence).
Qed.

Lemma missing_from_sorted chunks : ∀ i, StronglySorted Z.lt (missing_from i chunks).
Proof.
  induction chunks as [|[c|] chunks IH]; intros i; cbn [missing_from];
    [constructor|apply IH|]. constructor; [apply IH|].
  apply Forall_forall. intros x [Hx _]%missing_from_spec. lia.
Qed.

Lemma map_outcome_ok {E} (f : Z → outcome E Z) acc v :
  length acc = length v →
  (∀ b, (b < length v)%nat → f (acc !!! b) = Ok (v !!! b)) → map_outcome f acc = Ok v.
Proof.
  revert v. induction acc as [|x acc IH]; intros [|y v] Hl Hf; try discriminate; [done|].
  pose proof (Hf 0%nat ltac:(cbn; lia)) as H0. cbn in H0. cbn [map_outcome]. rewrite H0.
  cbn [mbind outcome_bind]. rewrite (IH v); [done|by injection Hl|].
  intros b Hb. apply (Hf (S b)). cbn. lia.
Qed.

Lemma zip_with_lookup_total (f : Z → Z → Z) l k b n :
  length l = n → length k = n → (b < n)%nat →
  zip_with f l k !!! b = f (l !!! b) (k !!! b).
Proof.
  intros Hl Hk Hb. apply list_lookup_total_correct. rewrite lookup_zip_with.
  rewrite (list_lookup_lookup_total_lt l), (list_lookup_lookup_total_lt k) by lia. done.
Qed.

Lemma list_eq_total (l k : bytes) n :
  length l = n → length k = n → (∀ b, (b < n)%nat → l !!! b = k !!! b) → l = k.
Proof.
  intros Hl Hk H. apply list_eq. intros b.
  destruct (decide (b < n)%nat) as [Hb|Hb].
  - rewrite !list_lookup_lookup_total_lt by lia. by rewrite H.
  - by rewrite !lookup_ge_None_2 by lia.
Qed.

Section Recovery.
Context (w : Z) (D : list bytes).
Context (Hw : Forall (λ c, zlen c ≤ w) D) (Hb : Forall (λ c, bytes_ok c) D).
Context (Hn : zlen D ≤ MaxParityDataChunks).

Let V : list bytes := pad w <$> D.
Let n : nat := Z.to_nat w.
Definition symbolP : bytes := survivors wP (λ _, false) 0 V (replicate n 0).
Definition symbolQ : bytes := survivors wQ (λ _, false) 0 V (replicate n 0).

Lemma V_lengths : Forall (λ v, length v = n) V.
Proof. apply Forall_fmap, Forall_true. intros c. apply pad_length. Qed.
Lemma V_bytes x : bytes_ok (V !!! x).
Proof.
  destruct (V !! x) as [v|] eqn:E.
  - rewrite (list_lookup_total_correct _ _ _ E). unfold V in E.
    apply list_lookup_fmap_Some in E as (c & -> & Hc). apply pad_bytes_ok.
    by eapply Forall_lookup_1 in Hb.
  - rewrite list_lookup_total_alt, E. constructor.
Qed.
Lemma V_byte x b : is_byte (V !!! x !!! b).
Proof.
  pose proof (V_bytes x) as H. destruct (V !!! x !! b) as [z|] eqn:E.
  - rewrite (list_lookup_total_correct _ _ _ E). by eapply Forall_lookup_1 in H.
  - by rewrite list_lookup_total_alt, E.
Qed.

Lemma symbol_length wt : length (survivors wt (λ _, false) 0 V (replicate n 0)) = n.
Proof. apply survivors_length; [apply length_replicate|apply V_lengths]. Qed.

Lemma symbol_lookup wt b : (b < n)%nat →
  survivors wt (λ _, false) 0 V (replicate n 0) !!! b =
    gsum wt (λ _, true) 0 (column b V).
Proof.
  intros Hbn. rewrite (survivors_lookup wt n) by
    (done || apply length_replicate || apply V_lengths).
  rewrite lookup_total_replicate_2 by done. apply Z.lxor_0_l.
Qed.

Context (chunks : list (option bytes)) (Hch : Forall2 erased chunks D).
Let padded : list bytes := padded_chunk w <$> chunks.

Lemma padded_lengths : Forall (λ v, length v = n) padded.
Proof.
  apply Forall_fmap, Forall_true. intros [c|]; [apply pad_length|apply length_replicate].
Qed.

Lemma padded_column b j :
  Z.of_nat j ∉ missing_from 0 chunks → column b padded !!! j = column b V !!! j.
Proof.
  intros Hj. rewrite !list_lookup_total_alt. unfold column, padded, V.
  rewrite !list_lookup_fmap.
  destruct (chunks !! j) as [c|] eqn:Ec.
  - destruct (Forall2_lookup_l _ _ _ _ _ Hch Ec) as (d & Hd & [->| ->]); rewrite Hd; [|done].
    exfalso. apply Hj, missing_from_spec. rewrite Z.sub_0_r, Nat2Z.id. split; [lia|done].
  - apply Forall2_length in Hch. apply lookup_ge_None in Ec.
    by rewrite (lookup_ge_None_2 D) by lia.
Qed.

(** What the accumulation leaves of a full symbol: the sum over the erased
    chunks only. *)
Lemma survivors_missing wt skip b :
  (b < n)%nat → (∀ x, x ∈ missing_from 0 chunks → skip x = true) →
  survivors wt skip 0 padded (survivors wt (λ _, false) 0 V (replicate n 0)) !!! b =
    gsum wt skip 0 (column b V).
Proof.
  intros Hbn Hskip.
  rewrite (survivors_lookup wt n) by (done || apply symbol_length || apply padded_lengths).
  rewrite symbol_lookup by done.
  rewrite (gsum_ext wt (λ j, negb (skip j)) (column b padded) (column b V)).
  - rewrite (gsum_disjoint wt skip (λ j, negb (skip j)) (λ _, true)).
    + apply lxor_cancel.
    + intros j. by destruct (skip j).
    + intros j. by destruct (skip j).
  - unfold column, padded, V. rewrite !length_fmap. by eapply Forall2_length.
  - intros j Hj. apply padded_column. intros Hin. rewrite Z.add_0_l in Hj.
    by rewrite Hskip in Hj.
Qed.

Lemma survivors_missing_length wt skip :
  length (survivors wt skip 0 padded (survivors wt (λ _, false) 0 V (replicate n 0))) = n.
Proof. apply survivors_length; [apply symbol_length|apply padded_lengths]. Qed.

Lemma missing_bound x : x ∈ missing_from 0 chunks → 0 ≤ x < zlen D ∧ x < 255.
Proof.
  intros [H0 Hx]%missing_from_spec. apply lookup_lt_Some in Hx.
  apply Forall2_length in Hch. wire_const. unfold zlen in *. lia.
Qed.

Lemma column_lookup x b :
  0 ≤ x < zlen D → column b V !!! Z.to_nat (x - 0) = V !!! Z.to_nat x !!! b.
Proof.
  intros Hx. rewrite Z.sub_0_r. unfold column.
  apply list_lookup_total_correct.
  rewrite list_lookup_fmap, list_lookup_lookup_total_lt; [done|].
  unfold V. rewrite length_fmap. unfold zlen in Hx. lia.
Qed.

Lemma V_length_at x : 0 ≤ x < zlen D → length (V !!! Z.to_nat x) = n.
Proof.
  intros Hx. pose proof V_lengths as H. rewrite Forall_lookup in H. apply (H (Z.to_nat x)).
  apply list_lookup_lookup_total_lt. unfold V, zlen in *. rewrite length_fmap. lia.
Qed.

Lemma zlen_column b : zlen (column b V) = zlen D.
Proof. unfold zlen, column, V. by rewrite !length_fmap. Qed.

Lemma one_missing wt x b :
  missing_from 0 chunks = [x] → (b < n)%nat →
  survivors wt (Z.eqb x) 0 padded (survivors wt (λ _, false) 0 V (replicate n 0)) !!! b =
    wt x (V !!! Z.to_nat x !!! b).
Proof.
  intros Hm Hbn. rewrite survivors_missing; [|done|].
  - rewrite gsum_single, column_lookup; [done| |rewrite zlen_column];
      apply missing_bound; rewrite Hm; set_solver.
  - rewrite Hm. intros y ->%list_elem_of_singleton. apply Z.eqb_refl.
Qed.

Lemma two_missing wt x y b :
  missing_from 0 chunks = [x; y] → (b < n)%nat →
  survivors wt (λ i, (i =? x) || (i =? y)) 0 padded
      (survivors wt (λ _, false) 0 V (replicate n 0)) !!! b =
    Z.lxor (wt x (V !!! Z.to_nat x !!! b)) (wt y (V !!! Z.to_nat y !!! b)).
Proof.
  intros Hm Hbn.
  assert (Hxy : x < y).
  { pose proof (missing_from_sorted chunks 0) as Hs. rewrite Hm in Hs.
    apply StronglySorted_inv in Hs as [_ Hs]. by apply Forall_cons_iff in Hs as [? _]. }
  rewrite survivors_missing; [|done|].
  - rewrite (gsum_disjoint wt (Z.eqb x) (Z.eqb y)); [|intros; lia|intros; lia].
    rewrite !gsum_single, !column_lookup; try done;
      rewrite ?zlen_column; apply missing_bound; rewrite Hm; set_solver.
  - rewrite Hm. intros z Hz. set_unfold. lia.
Qed.

Lemma missing_in x : x ∈ missing_from 0 chunks → (Z.to_nat x < length padded)%nat.
Proof.
  intros Hx. destruct (missing_bound x Hx) as [Hx1 _]. unfold padded.
  rewrite length_fmap, (Forall2_length _ _ _ Hch). unfold zlen in Hx1. lia.
Qed.

(** One erasure: either symbol repairs it. *)
Lemma solve_one x haveP haveQ :
  missing_from 0 chunks = [x] →
  (haveP = None ∨ haveP = Some symbolP) → (haveQ = None ∨ haveQ = Some symbolQ) →
  (haveP ≠ None ∨ haveQ ≠ None) →
  ∃ V', solve [x] haveP haveQ padded = Ok V' ∧ V' !!! Z.to_nat x = V !!! Z.to_nat x.
Proof.
  intros Hm HP HQ Hc.
  assert (Hx : x ∈ missing_from 0 chunks) by (rewrite Hm; set_solver).
  pose proof (missing_in x Hx) as Hin. destruct (missing_bound x Hx) as [Hx1 Hx2].
  unfold solve. destruct HP as [->| ->].
  - destruct HQ as [->| ->]; [by destruct Hc|]. cbn [default from_option id].
    rewrite mul_survivors_gen. unfold symbolQ.
    rewrite (map_outcome_ok _ _ (V !!! Z.to_nat x)).
    + eexists; split; [done|]. by apply list_lookup_total_insert_eq.
    + rewrite V_length_at by done. apply survivors_missing_length.
    + rewrite V_length_at by done. intros b Hbn. rewrite (one_missing wQ x) by done.
      apply gfDiv_gfMul; [apply gfPow2_byte; lia|apply gfPow2_nonzero; lia|apply V_byte].
  - eexists; split; [done|]. rewrite list_lookup_total_insert_eq by done.
    rewrite xor_survivors_gen.
    apply (list_eq_total _ _ n); [apply survivors_missing_length|by apply V_length_at|].
    intros b Hbn. by apply (one_missing wP x).
Qed.

(** Two erasures: P and Q are two independent equations in them, and the
    coefficients of two chunks differ as there are at most 255 chunks. *)
Lemma solve_two x y :
  missing_from 0 chunks = [x; y] →
  ∃ V', solve [x; y] (Some symbolP) (Some symbolQ) padded = Ok V' ∧
    V' !!! Z.to_nat x = V !!! Z.to_nat x ∧ V' !!! Z.to_nat y = V !!! Z.to_nat y.
Proof.
  intros Hm.
  assert (Hx : x ∈ missing_from 0 chunks) by (rewrite Hm; set_solver).
  assert (Hy : y ∈ missing_from 0 chunks) by (rewrite Hm; set_solver).
  pose proof (missing_in x Hx). pose proof (missing_in y Hy).
  destruct (missing_bound x Hx) as [Hx1 Hx2]. destruct (missing_bound y Hy) as [Hy1 Hy2].
  assert (Hxy : x < y).
  { pose proof (missing_from_sorted chunks 0) as Hs. rewrite Hm in Hs.
    apply StronglySorted_inv in Hs as [_ Hs]. by apply Forall_cons_iff in Hs as [? _]. }
  unfold solve. cbn [default from_option id]. rewrite mul_survivors_gen, xor_survivors_gen.
  set (skip := λ i, (i =? x) || (i =? y)).
  set (pm := survivors wP skip 0 padded symbolP). set (qm := survivors wQ skip 0 padded symbolQ).
  set (dx := V !!! Z.to_nat x). set (dy := V !!! Z.to_nat y).
  assert (Hgx := gfPow2_byte x ltac:(lia)). assert (Hgy := gfPow2_byte y ltac:(lia)).
  assert (Hden : Z.lxor (gfPow2 x) (gfPow2 y) ≠ 0).
  { intros He%Z.lxor_eq. apply gfPow2_inj in He; lia. }
  rewrite (proj2 (Z.eqb_neq _ 0) Hden).
  assert (Hpl : length pm = n) by apply survivors_missing_length.
  assert (Hql : length qm = n) by apply survivors_missing_length.
  assert (Hdl : length dx = n) by by apply V_length_at.
  assert (Hp : ∀ b, (b < n)%nat → pm !!! b = Z.lxor (dx !!! b) (dy !!! b))
    by (intros; by apply (two_missing wP x y)).
  assert (Hq : ∀ b, (b < n)%nat → qm !!! b =
      Z.lxor (gfMul (gfPow2 x) (dx !!! b)) (gfMul (gfPow2 y) (dy !!! b)))
    by (intros; by apply (two_missing wQ x y)).
  rewrite (map_outcome_ok _ _ dx); [|rewrite length_zip_with, Hpl, Hql, Hdl; apply Nat.min_id|].
  - cbn [mbind outcome_bind]. eexists; split; [done|].
    replace (zip_with Z.lxor pm dx) with dy.
    + rewrite list_lookup_total_insert_ne, list_lookup_total_insert_eq by (done || lia).
      by rewrite list_lookup_total_insert_eq by (by rewrite length_insert).
    + apply (list_eq_total _ _ n);
        [by apply V_length_at|rewrite length_zip_with, Hpl, Hdl; apply Nat.min_id|].
      intros b Hbn. rewrite (zip_with_lookup_total _ _ _ _ n), Hp by done. xor_solve.
  - rewrite Hdl. intros b Hbn. rewrite (zip_with_lookup_total _ _ _ _ n), Hp, Hq by done.
    assert (Hbx : is_byte (dx !!! b)) by apply V_byte.
    assert (Hby : is_byte (dy !!! b)) by apply V_byte.
    rewrite <- (gfDiv_gfMul (Z.lxor (gfPow2 x) (gfPow2 y)) (dx !!! b)) by auto.
    f_equal. rewrite gfMul_lxor_r, gfMul_lxor_l by done. xor_solve.
Qed.

(** The solver gives back the erased chunks, zero-padded. *)
Lemma solve_correct (haveP haveQ : option bytes) :
  (haveP = None ∨ haveP = Some symbolP) → (haveQ = None ∨ haveQ = Some symbolQ) →
  0 < zlen (missing_from 0 chunks) ≤
    match haveP with Some _ => 1 | None => 0 end + match haveQ with Some _ => 1 | None => 0 end →
  ∃ V', solve (missing_from 0 chunks) haveP haveQ padded = Ok V' ∧
    ∀ x, x ∈ missing_from 0 chunks → V' !!! Z.to_nat x = V !!! Z.to_nat x.
Proof.
  intros HP HQ Hc. destruct (missing_from 0 chunks) as [|x [|y [|z m]]] eqn:Hm.
  - change (zlen []) with 0 in Hc. lia.
  - destruct (solve_one x haveP haveQ Hm HP HQ) as (V' & HV & Hx).
    + destruct haveP; [by left|]. destruct haveQ; [by right|zlia].
    + exists V'. split; [done|]. by intros ? ->%list_elem_of_singleton.
  - destruct HP as [->| ->], HQ as [->| ->]; try zlia.
    destruct (solve_two x y Hm) as (V' & HV & Hx & Hy). exists V'. split; [done|].
    intros v Hv. by assert (v = x ∨ v = y) as [->| ->] by set_solver.
  - exfalso. destruct HP as [->| ->], HQ as [->| ->]; zlia.
Qed.

End Recovery.

(** ** The frame shape

    What a chunker produces: every chunk but the last is [w] bytes long, the
    last is shorter but not empty; a single chunk is its own width. *)
Definition frame_chunks (w : Z) (D : list bytes) : Prop :=
  ∃ front last, D = front ++ [last] ∧ Forall (λ c, zlen c = w) front ∧
    0 < zlen last ≤ w ∧ (front = [] → zlen last = w).

(** the received entries of a list of slots *)
Definition present {A} (l : list (option A)) : Z := zlen (omap id l).

Lemma frame_chunks_le w D : frame_chunks w D → Forall (λ c, zlen c ≤ w) D.
Proof.
  intros (front & last & -> & Hf & Hl & _). apply Forall_app_2.
  - eapply Forall_impl; [done|]. cbn. lia.
  - constructor; [lia|done].
Qed.

Lemma frame_chunks_concat w front last :
  Forall (λ c : bytes, zlen c = w) front →
  zlen (concat (front ++ [last])) = zlen front * w + zlen last.
Proof.
  intros Hf. rewrite concat_app, zlen_app. cbn [concat]. rewrite app_nil_r. f_equal.
  induction Hf as [|c front Hc _ IH]; [done|]. cbn [concat].
  rewrite zlen_app, zlen_cons, IH, Hc. lia.
Qed.

Lemma frame_chunks_last w D :
  frame_chunks w D → 0 < zlen (concat D) - (zlen D - 1) * w ≤ w.
Proof.
  intros (front & last & -> & Hf & Hl & _).
  rewrite (frame_chunks_concat w), zlen_app, zlen_cons by done. change (zlen []) with 0. lia.
Qed.

Lemma frame_chunks_lookup w D j d :
  frame_chunks w D → D !! j = Some d →
  zlen d = if Z.of_nat j =? zlen D - 1 then zlen (concat D) - (zlen D - 1) * w else w.
Proof.
  intros (front & last & -> & Hf & Hl & _) Hd.
  rewrite (frame_chunks_concat w), zlen_app, zlen_cons by done. change (zlen []) with 0.
  replace (zlen front + (1 + 0) - 1) with (zlen front) by lia.
  apply lookup_app_Some in Hd as [Hd|[Hj Hd]].
  - pose proof (lookup_lt_Some _ _ _ Hd). rewrite (proj2 (Z.eqb_neq _ _)) by (unfold zlen; lia).
    by apply (Forall_lookup_1 _ _ _ _ Hf Hd).
  - apply list_lookup_singleton_Some in Hd as [Hj0 <-].
    rewrite (proj2 (Z.eqb_eq _ _)) by (unfold zlen; lia). lia.
Qed.

Lemma fold_width l : ∀ acc,
  let r := fold_left (λ w (c : bytes), if zlen c >? w then zlen c else w) l acc in
  acc ≤ r ∧ Forall (λ c, zlen c ≤ r) l ∧ (r = acc ∨ Exists (λ c, zlen c = r) l).
Proof.
  induction l as [|c l IH]; intros acc; cbn [fold_left]; [by split; [|split; [|left]]|].
  destruct (IH (if zlen c >? acc then zlen c else acc)) as (H1 & H2 & H3).
  cbn zeta. set (r := fold_left _ l _) in *.
  split; [case_match; lia|]. split; [constructor; [case_match; lia|done]|].
  destruct H3 as [H3|H3]; [|right; by apply Exists_cons_tl].
  rewrite H3. case_match; [right; by apply Exists_cons_hd|by left].
Qed.

Lemma frame_chunks_width w D : frame_chunks w D → chunk_width D = w.
Proof.
  intros HD. unfold chunk_width. pose proof (frame_chunks_le w D HD) as Hle.
  destruct (fold_width D 0) as (H1 & H2 & H3). cbn zeta in *. set (r := fold_left _ D 0) in *.
  destruct HD as (front & last & -> & Hf & Hl & H0).
  apply Forall_app in H2 as [H2f H2l]. apply Forall_cons_iff in H2l as [H2l _].
  assert (Hlow : w ≤ r).
  { destruct Hf as [|c front Hc Hf]; [specialize (H0 eq_refl); lia|].
    apply Forall_cons_iff in H2f as [? _]. lia. }
  destruct H3 as [H3|H3]; [lia|]. apply Exists_exists in H3 as (c & Hin & Hc).
  rewrite Forall_forall in Hle. specialize (Hle c Hin). lia.
Qed.

Lemma missing_present (chunks : list (option bytes)) : ∀ i,
  zlen (missing_from i chunks) + present chunks = zlen chunks.
Proof.
  unfold present. induction chunks as [|[c|] chunks IH]; intros i; [done|..];
    cbn [missing_from omap list_omap]; specialize (IH (i + 1)); cbn; zlia.
Qed.

(** Both symbols of a frame, as [ComputeParity] returns them. *)
Lemma ComputeParity_symbols w D k ps :
  frame_chunks w D → ComputeParity D k = Ok ps →
  ps = [] ∨ ps = [symbolP w D] ∨ ps = [symbolP w D; symbolQ w D].
Proof.
  intros HD. unfold ComputeParity. rewrite (frame_chunks_width w D HD).
  case_match; [done|]. case_match; [intros [= <-]; by left|].
  case_match; [done|]. case_match; [done|].
  rewrite (parity_loop_survivors w) by
    (rewrite ?length_replicate; (done || by apply frame_chunks_le)).
  intros [= <-]. right. case_match; [by right|by left].
Qed.

Lemma lengths_ok_true chunks n w lastLen : ∀ i,
  (∀ j c, chunks !! j = Some (Some c) →
     zlen c = if i + Z.of_nat j =? n - 1 then lastLen else w) →
  lengths_ok i n w lastLen chunks = true.
Proof.
  induction chunks as [|c chunks IH]; intros i H; [done|].
  assert (IH' : lengths_ok (i + 1) n w lastLen chunks = true).
  { apply IH. intros j d Hd. rewrite (H (S j) d Hd).
    by replace (i + Z.of_nat (S j)) with (i + 1 + Z.of_nat j) by lia. }
  cbn [lengths_ok]. destruct c as [c|]; [|done].
  pose proof (H 0%nat c eq_refl) as Hc. rewrite Z.add_0_r in Hc.
  rewrite Hc, Z.eqb_refl. done.
Qed.

Lemma store_missing_lookup missing n lastLen padded j : ∀ chunks,
  (j < length chunks)%nat → Forall (λ x, 0 ≤ x) missing →
  store_missing missing n lastLen padded chunks !! j =
    if bool_decide (Z.of_nat j ∈ missing)
    then Some (Some (if Z.of_nat j =? n - 1 then take (Z.to_nat lastLen) (padded !!! j)
                     else padded !!! j))
    else chunks !! j.
Proof.
  induction missing as [|x missing IH]; intros chunks Hj Hm; [done|].
  apply Forall_cons_iff in Hm as [Hx Hm]. cbn [store_missing].
  rewrite IH by (rewrite ?length_insert; done).
  destruct (decide (Z.of_nat j ∈ missing)) as [Hin|Hin].
  { rewrite !bool_decide_eq_true_2 by set_solver. done. }
  rewrite bool_decide_eq_false_2 by done.
  destruct (decide (x = Z.of_nat j)) as [->|Hne].
  - rewrite bool_decide_eq_true_2 by set_solver.
    rewrite Nat2Z.id, list_lookup_insert_eq by done. done.
  - rewrite bool_decide_eq_false_2 by set_solver. by rewrite list_lookup_insert_ne by lia.
Qed.

Lemma store_missing_length missing n lastLen padded : ∀ chunks,
  length (store_missing missing n lastLen padded chunks) = length chunks.
Proof.
  induction missing as [|x m IH]; intros chunks; [done|]. cbn [store_missing].
  by rewrite IH, length_insert.
Qed.

(** The stored result: every slot holds its original chunk. *)
Lemma store_missing_correct w D chunks V' :
  frame_chunks w D → Forall2 erased chunks D →
  (∀ x, x ∈ missing_from 0 chunks → V' !!! Z.to_nat x = pad w (D !!! Z.to_nat x)) →
  store_missing (missing_from 0 chunks) (zlen chunks)
    (zlen (concat D) - (zlen chunks - 1) * w) V' chunks = Some <$> D.
Proof.
  intros HD Hch HV. pose proof (Forall2_length _ _ _ Hch) as Hlen.
  assert (Hz : zlen chunks = zlen D) by (unfold zlen; lia).
  apply list_eq. intros j. rewrite list_lookup_fmap.
  destruct (chunks !! j) as [c|] eqn:Ec.
  - rewrite store_missing_lookup; [|by apply lookup_lt_Some in Ec|].
    + destruct (Forall2_lookup_l _ _ _ _ _ Hch Ec) as (d & Hd & Her).
      pose proof (frame_chunks_lookup w D j d HD Hd) as Hzd. rewrite Hd. cbn.
      case_bool_decide as Hin.
      * do 2 f_equal. specialize (HV _ Hin). rewrite Nat2Z.id in HV. rewrite HV.
        rewrite (list_lookup_total_correct _ _ _ Hd), Hz.
        destruct (Z.eqb_spec (Z.of_nat j) (zlen D - 1)).
        -- rewrite <- Hzd. apply pad_take.
           pose proof (frame_chunks_le w D HD) as Hle. by eapply Forall_lookup_1 in Hle.
        -- by apply pad_id.
      * destruct Her as [->| ->]; [|done]. exfalso. apply Hin, missing_from_spec.
        rewrite Z.sub_0_r, Nat2Z.id. split; [lia|done].
    + apply Forall_forall. by intros x [? _]%missing_from_spec.
  - apply lookup_ge_None in Ec. rewrite (lookup_ge_None_2 D) by lia.
    apply lookup_ge_None. by rewrite store_missing_length.
Qed.

(** ** The RAID-6 guarantee *)

Lemma zlen_symbol w D wt : 0 ≤ w →
  zlen (survivors wt (λ _, false) 0 (pad w <$> D) (replicate (Z.to_nat w) 0)) = w.
Proof.
  intros. unfold zlen. rewrite (survivors_length wt (Z.to_nat w));
    [lia|apply length_replicate|].
  apply Forall_fmap, Forall_true. intros c. apply pad_length.
Qed.

(** [RecoverChunks] once the parity slots are taken apart. *)
Lemma recover_slots w D chunks parity haveP haveQ :
  frame_chunks w D → Forall (λ c, bytes_ok c) D → zlen D ≤ MaxParityDataChunks →
  Forall2 erased chunks D →
  (parity = [] ∧ haveP = None ∧ haveQ = None ∨ parity = [haveP] ∧ haveQ = None ∨
   parity = [haveP; haveQ]) →
  (haveP = None ∨ haveP = Some (symbolP w D)) → (haveQ = None ∨ haveQ = Some (symbolQ w D)) →
  0 < zlen (missing_from 0 chunks) ≤ present parity →
  RecoverChunks chunks parity (zlen (concat D)) = Ok (Some <$> D).
Proof.
  intros HD Hb Hn Hch Hpar HP HQ Hm.
  pose proof (Forall2_length _ _ _ Hch) as Hlen. pose proof HD as (_ & last & _ & _ & Hw & _).
  assert (Hz : zlen chunks = zlen D) by (unfold zlen; lia).
  assert (Hpos : 0 < zlen D) by (destruct HD as (? & ? & -> & _); zlia).
  assert (Hav : present parity =
    match haveP with Some _ => 1 | None => 0 end + match haveQ with Some _ => 1 | None => 0 end)
    by (destruct Hpar as [(-> & -> & ->)|[[-> ->]| ->]];
        [done|by destruct haveP|by destruct haveP, haveQ]).
  destruct (solve_correct w D (frame_chunks_le w D HD) Hb Hn chunks Hch haveP haveQ HP HQ) as (V' & Hs & HV); [lia|].
  assert (HlP : zlen (symbolP w D) = w) by (apply zlen_symbol; lia).
  assert (HlQ : zlen (symbolQ w D) = w) by (apply zlen_symbol; lia).
  pose proof (frame_chunks_last w D HD) as Hlast.
  unfold RecoverChunks. rewrite Hz. wire_const.
  replace (zlen D =? 0) with false by lia. replace (zlen D >? 255) with false by lia.
  replace (zlen (missing_from 0 chunks) =? 0) with false by lia.
  replace (match parity with p :: _ => p | [] => None end) with haveP
    by (destruct Hpar as [(-> & -> & ->)|[[-> ->]| ->]]; done).
  replace (match parity with _ :: q :: _ => q | _ => None end) with haveQ
    by (destruct Hpar as [(-> & -> & ->)|[[-> ->]| ->]]; done).
  rewrite <- Hav. replace (_ >? present parity) with false by lia.
  replace (match haveP, haveQ with Some p, _ => zlen p | None, Some q => zlen q
           | None, None => 0 end) with w
    by (destruct HP as [->| ->], HQ as [->| ->]; cbn in Hav; lia).
  replace (w =? 0) with false by lia.
  replace (match haveP, haveQ with Some p, Some q => zlen p <>? zlen q | _, _ => false end)
    with false by (destruct HP as [->| ->], HQ as [->| ->]; try done;
                   rewrite HlP, HlQ, Z.eqb_refl; done).
  replace (_ || _) with false by lia.
  rewrite lengths_ok_true; cbn [negb].
  - rewrite Hs. cbn [mbind outcome_bind]. f_equal. rewrite <- Hz.
    apply store_missing_correct; [done|done|]. intros x Hx. rewrite (HV x Hx).
    apply list_lookup_total_correct. rewrite list_lookup_fmap, list_lookup_lookup_total_lt; [done|].
    destruct (missing_bound w D Hn chunks Hch x Hx) as [Hx1 _]. unfold zlen in Hx1. lia.
  - intros j c Hj. rewrite Z.add_0_l.
    destruct (Forall2_lookup_l _ _ _ _ _ Hch Hj) as (d & Hd & [?|[= ->]]); [done|].
    by apply frame_chunks_lookup.
Qed.

(** Nothing missing: the chunks are returned as they are. *)
Lemma erased_complete chunks (D : list bytes) :
  Forall2 erased chunks D → missing_from 0 chunks = [] → chunks = Some <$> D.
Proof.
  intros Hch Hm0. pose proof (Forall2_length _ _ _ Hch) as Hlen. apply list_eq. intros j.
  rewrite list_lookup_fmap. destruct (chunks !! j) as [c|] eqn:Ec.
  - destruct (Forall2_lookup_l _ _ _ _ _ Hch Ec) as (d & -> & [->| ->]); [|done].
    exfalso. apply (not_elem_of_nil (Z.of_nat j)). rewrite <- Hm0.
    apply missing_from_spec. rewrite Z.sub_0_r, Nat2Z.id. split; [lia|done].
  - apply lookup_ge_None in Ec. by rewrite (lookup_ge_None_2 D) by lia.
Qed.

Lemma RecoverChunks_complete chunks parity n :
  0 < zlen chunks ≤ MaxParityDataChunks → missing_from 0 chunks = [] →
  RecoverChunks chunks parity n = Ok chunks.
Proof.
  intros Hn Hm. unfold RecoverChunks. rewrite Hm. wire_const.
  replace (zlen chunks =? 0) with false by lia. by replace (zlen chunks >? 255) with false by lia.
Qed.

(** The last branch: not [nil], too many erasures. *)
Lemma missing_from_nonempty (chunks : list (option bytes)) :
  missing_from 0 chunks = [] ∨ 0 < zlen (missing_from 0 chunks).
Proof. destruct (missing_from 0 chunks); [by left|right; zlia]. Qed.

(** C1. Any two erasures are repaired: whatever chunks and parity symbols of a
    frame are lost, if at least as many arrive in total as the frame has data
    chunks, [RecoverChunks] gives back the frame, byte for byte and with the
    last chunk at its real length. *)
Theorem RecoverChunks_correct w D k ps chunks parity :
  frame_chunks w D → Forall (λ c, bytes_ok c) D → zlen D ≤ MaxParityDataChunks →
  ComputeParity D k = Ok ps →
  Forall2 erased chunks D → Forall2 erased parity ps →
  zlen D ≤ present chunks + present parity →
  RecoverChunks chunks parity (zlen (concat D)) = Ok (Some <$> D).
Proof.
  intros HD Hb Hn Hps Hch Hpar Hcount. pose proof (Forall2_length _ _ _ Hch) as Hlen.
  assert (Hz : zlen chunks = zlen D) by (unfold zlen; lia).
  assert (Hpos : 0 < zlen D) by (destruct HD as (? & ? & -> & _); zlia).
  destruct (missing_from_nonempty chunks) as [Hm|Hm].
  { rewrite RecoverChunks_complete by (done || lia). f_equal. by apply erased_complete. }
  pose proof (missing_present chunks 0) as Hmp.
  assert (Hin : ∀ (c : option bytes) d, erased c d → c = None ∨ c = Some d)
    by (intros ?? [->| ->]; auto).
  destruct (ComputeParity_symbols w D k ps HD Hps) as [->|[->| ->]].
  - inversion Hpar; subst. apply (recover_slots w D chunks [] None None); auto. lia.
  - inversion Hpar as [|p ? ? ? Hp Hr]; subst. inversion Hr; subst.
    apply (recover_slots w D chunks [p] p None); auto. lia.
  - inversion Hpar as [|p ? ? ? Hp Hr]; subst. inversion Hr as [|q ? ? ? Hq Hr']; subst.
    inversion Hr'; subst. apply (recover_slots w D chunks [p; q] p q); auto. lia.
Qed.

Definition demo_frame : list bytes := [[1; 2; 3]; [4; 5; 6]; [7]].
Lemma RecoverChunks_correct_witness :
  ∃ ps, ComputeParity demo_frame 2 = Ok ps ∧
    RecoverChunks [None; Some [4; 5; 6]; None] (Some <$> ps) 7 = Ok (Some <$> demo_frame).
Proof.
  eexists. split; [vm_compute; reflexivity|].
  eapply (RecoverChunks_correct 3 demo_frame 2).
  - exists [[1; 2; 3]; [4; 5; 6]], [7]. split; [reflexivity|].
    split; [repeat constructor|]. split; [vm_compute; split; [reflexivity|discriminate]|discriminate].
  - unfold demo_frame. repeat constructor; unfold is_byte; lia.
  - vm_compute. discriminate.
  - vm_compute. reflexivity.
  - unfold demo_frame, erased. repeat (apply Forall2_cons_2; [first [by left|by right]|]).
    apply Forall2_nil_2.
  - unfold erased. cbn [fmap list_fmap].
    repeat (apply Forall2_cons_2; [first [by left|by right]|]). apply Forall2_nil_2.
  - vm_compute. discriminate.
Defined.

(** ** Errors and panics *)

(** Pass the early returns in front of the goal's computation. *)
Ltac guards :=
  repeat lazymatch goal with
  | |- (if ?b then Err _ else _) ≠ Fault => destruct b; [done|]
  | |- (if ?b then Ok _ else _) ≠ Fault => destruct b; [done|]
  | |- (if ?b then Err _ else _) = Ok _ → _ => destruct b; [discriminate|]
  end.

Lemma map_outcome_nofault {E} (f : Z → outcome E Z) acc :
  (∀ a, f a ≠ Fault) → map_outcome f acc ≠ Fault.
Proof.
  intros Hf. induction acc as [|a acc IH]; [done|]. cbn [map_outcome].
  destruct (f a) eqn:He; [|done|by apply Hf in He]. cbn [mbind outcome_bind].
  by destruct (map_outcome f acc).
Qed.

Lemma gfDiv_nofault a c : c ≠ 0 → gfDiv a c ≠ Fault.
Proof. intros Hc. unfold gfDiv. rewrite (proj2 (Z.eqb_neq _ _) Hc). by case_match. Qed.

(** The solver divides only by powers of the generator and by checked
    differences of two of them. *)
Lemma solve_nofault missing haveP haveQ padded :
  Forall (λ x, 0 ≤ x) missing → solve missing haveP haveQ padded ≠ Fault.
Proof.
  intros Hm. destruct missing as [|x [|y [|]]]; [done|..|done]; cbn [solve].
  - apply Forall_cons_iff in Hm as [Hx _]. destruct haveP; [done|].
    destruct (map_outcome _ _) eqn:He; [done..|].
    exfalso. revert He. apply map_outcome_nofault. intros a.
    by apply gfDiv_nofault, gfPow2_nonzero.
  - case_match eqn:Hd; [done|]. apply Z.eqb_neq in Hd.
    destruct (map_outcome _ _) eqn:He; [done..|].
    exfalso. revert He. apply map_outcome_nofault. intros a. by apply gfDiv_nofault.
Qed.

(** [RecoverChunks] returns on every input: no slot list, symbol list or
    claimed frame length makes it panic. *)
Theorem RecoverChunks_total chunks parity frameBytes :
  RecoverChunks chunks parity frameBytes ≠ Fault.
Proof.
  unfold RecoverChunks. guards.
  destruct (solve _ _ _ _) eqn:He; [done..|]. exfalso. revert He. apply solve_nofault.
  apply Forall_forall. by intros x [? _]%missing_from_spec.
Qed.

(** the symbols [RecoverChunks] looks at: P and Q *)
Definition usable_parity (parity : list (option bytes)) : Z := present (take 2 parity).

Lemma usable_parity_slots parity :
  usable_parity parity =
  (match (match parity with p :: _ => p | [] => None end) with Some _ => 1 | None => 0 end) +
  (match (match parity with _ :: q :: _ => q | _ => None end) with Some _ => 1 | None => 0 end).
Proof. destruct parity as [|[p|] [|[q|] parity]]; reflexivity. Qed.

(** More erasures than parity symbols is the expected loss error, checked
    before anything that depends on the symbols' contents. *)
Theorem RecoverChunks_unrecoverable chunks parity frameBytes :
  0 < zlen chunks ≤ MaxParityDataChunks →
  zlen chunks - present chunks > usable_parity parity →
  RecoverChunks chunks parity frameBytes = Err ErrParityUnrecoverable.
Proof.
  intros Hn Hc. pose proof (missing_present chunks 0) as Hmp. rewrite usable_parity_slots in Hc.
  assert (0 < zlen (missing_from 0 chunks)) by (repeat case_match; lia).
  unfold RecoverChunks. wire_const.
  replace (zlen chunks =? 0) with false by lia. replace (zlen chunks >? 255) with false by lia.
  replace (zlen (missing_from 0 chunks) =? 0) with false by lia.
  match goal with |- context [?a >? ?b] => replace (a >? b) with true by lia end. done.
Qed.

Lemma RecoverChunks_unrecoverable_witness :
  RecoverChunks [None; Some [4]; None] [None; Some [9]] 3 = Err ErrParityUnrecoverable.
Proof.
  apply (RecoverChunks_unrecoverable [None; Some [4]; None] [None; Some [9]] 3).
  - vm_compute. split; [reflexivity|discriminate].
  - vm_compute. reflexivity.
Defined.

Lemma store_missing_filled missing n lastLen padded chunks :
  missing = missing_from 0 chunks →
  Forall2 (λ c r, r ≠ None ∧ (c ≠ None → r = c)) chunks
    (store_missing missing n lastLen padded chunks).
Proof.
  intros ->. apply Forall2_same_length_lookup_2; [by rewrite store_missing_length|].
  intros j c r Hc Hr. rewrite store_missing_lookup in Hr.
  - case_bool_decide as Hin.
    + injection Hr as <-. split; [done|]. intros Hne.
      apply missing_from_spec in Hin as [_ Hin]. rewrite Z.sub_0_r, Nat2Z.id in Hin. congruence.
    + rewrite Hc in Hr. injection Hr as <-. split; [|done]. intros ->. apply Hin.
      apply missing_from_spec. rewrite Z.sub_0_r, Nat2Z.id. split; [lia|done].
  - by apply lookup_lt_Some in Hc.
  - apply Forall_forall. by intros x [? _]%missing_from_spec.
Qed.

(** A result is never partial: every slot is filled and the received
    chunks are untouched, for any symbols, honest or not. *)
Theorem RecoverChunks_preserves chunks parity frameBytes out :
  RecoverChunks chunks parity frameBytes = Ok out →
  Forall2 (λ c r, r ≠ None ∧ (c ≠ None → r = c)) chunks out.
Proof.
  unfold RecoverChunks. guards.
  destruct (missing_from_nonempty chunks) as [Hm|Hm].
  { rewrite Hm. intros [= <-]. apply Forall2_same_length_lookup_2; [done|].
    intros j c r Hc Hr. rewrite Hc in Hr. injection Hr as <-. split; [|done]. intros ->.
    apply (not_elem_of_nil (Z.of_nat j)). rewrite <- Hm. apply missing_from_spec.
    rewrite Z.sub_0_r, Nat2Z.id. split; [lia|done]. }
  replace (zlen (missing_from 0 chunks) =? 0) with false by lia.
  guards. intros (V & _ & [= <-])%outcome_bind_Ok.
  by apply store_missing_filled.
Qed.

Lemma RecoverChunks_preserves_witness :
  ∃ r, RecoverChunks [Some [1]; None] [Some [5]] 2 = Ok [Some [1]; r] ∧ r ≠ None.
Proof.
  eexists. split; [vm_compute; reflexivity|].
  pose proof (RecoverChunks_preserves [Some [1]; None] [Some [5]] 2 [Some [1]; Some [4]]
    ltac:(vm_compute; reflexivity)) as H.
  inversion H as [|? ? ? ? _ H2]; subst. inversion H2 as [|? ? ? ? [H3 _] _]; subst. exact H3.
Defined.

(** P alone is the one-symbol code: the symbols for a lower level are the
    first ones of a higher level, so a relay may serve any prefix; there are
    never more symbols than chunks, and each is as long as the longest
    chunk. *)
Theorem ComputeParity_prefix D ps :
  ComputeParity D 2 = Ok ps →
  ComputeParity D 1 = Ok (take 1 ps) ∧ ComputeParity D 0 = Ok [] ∧
  zlen ps = Z.min 2 (zlen D) ∧ Forall (λ p, zlen p = chunk_width D) ps.
Proof.
  unfold ComputeParity. wire_const. change ((2 <? 0) || (2 >? 2)) with false.
  change ((1 <? 0) || (1 >? 2)) with false. change ((0 <? 0) || (0 >? 2)) with false.
  change (2 =? 0) with false. change (1 =? 0) with false. change (0 =? 0) with true.
  cbn [orb]. destruct (Z.eqb_spec (zlen D) 0) as [H0|H0].
  { intros [= <-]. rewrite H0. by repeat split. }
  case_match; [done|]. pose proof (zlen_nonneg D). replace (1 >? zlen D) with false by lia.
  case_match; [done|]. change (1 >? 1) with false.
  pose proof (fold_width D 0) as (Hw0 & Hw & _). fold (chunk_width D) in Hw0, Hw.
  rewrite (parity_loop_survivors (chunk_width D)) by (rewrite ?length_replicate; done).
  intros [= <-].
  assert (Hlen : ∀ wt, zlen (survivors wt (λ _, false) 0 (pad (chunk_width D) <$> D)
    (replicate (Z.to_nat (chunk_width D)) 0)) = chunk_width D) by (intros; by apply zlen_symbol).
  destruct (Z.gtb_spec 2 (zlen D)) as [Hgt|Hle].
  - replace (zlen D) with 1 by lia. change (1 >? 1) with false. cbn [take].
    split; [done|]. split; [done|]. split; [done|]. repeat constructor. apply Hlen.
  - change (2 >? 1) with true. cbn [take]. split; [done|]. split; [done|].
    split; [change (2 = Z.min 2 (zlen D)); lia|]. repeat constructor; apply Hlen.
Qed.

Lemma ComputeParity_prefix_witness :
  ComputeParity demo_frame 1 = Ok [[2; 7; 5]].
Proof.
  destruct (ComputeParity_prefix demo_frame
    match ComputeParity demo_frame 2 with Ok ps => ps | _ => [] end) as (H & _).
  - vm_compute. reflexivity.
  - exact H.
Defined.

(** ** The ParityChunk datagram (0x0E) *)
Module ParityChunk.

Record ParityChunkHeader := {
  FrameID : Z;
  ParityIndex : Z;
  ChunkCount : Z;
  FrameBytes : Z;
}.

Definition AppendParityChunk (dst : bytes) (h : ParityChunkHeader) (payload : bytes)
    : res bytes :=
  reject zlen payload >? MaxChunkPayload with ErrPayloadTooLarge;
  reject (ChunkCount h =? 0) || (ChunkCount h >? MaxParityDataChunks) with ErrBadChunkCount;
  reject ParityIndex h >=? MaxParitySymbols with ErrBadChunkCount;
  let dst := dst ++ [Version; TypeParityChunk] in
  let dst := AppendUint32 dst (FrameID h) in
  let dst := dst ++ [ParityIndex h] in
  let dst := AppendUint16 dst (ChunkCount h) in
  let dst := AppendUint32 dst (FrameBytes h) in
  Ok (dst ++ payload).

Definition ParseParityChunk (dgram : bytes) : res (ParityChunkHeader * bytes) :=
  reject zlen dgram <? ParityChunkHeaderSize with ErrShortDatagram;
  reject zlen dgram >? MaxDatagramSize with ErrPayloadTooLarge;
  _ ← expect_prefix dgram TypeParityChunk;
  frameID ← slice dgram 2 6 ≫= Uint32;
  parityIndex ← index dgram 6;
  chunkCount ← slice dgram 7 9 ≫= Uint16;
  frameBytes ← slice dgram 9 13 ≫= Uint32;
  reject (chunkCount =? 0) || (chunkCount >? MaxParityDataChunks) with ErrBadChunkCount;
  reject parityIndex >=? MaxParitySymbols with ErrBadChunkCount;
  payload ← slice_from dgram ParityChunkHeaderSize;
  Ok ({| FrameID := frameID; ParityIndex := parityIndex; ChunkCount := chunkCount;
         FrameBytes := frameBytes |}, payload).

#[export] Instance codec : Codec (ParityChunkHeader * bytes) := {
  cappend dst m := AppendParityChunk dst m.1 m.2;
  cparse := ParseParityChunk;
  cwf m := is_uint 32 (FrameID m.1) ∧ is_uint 8 (ParityIndex m.1) ∧
           is_uint 16 (ChunkCount m.1) ∧ is_uint 32 (FrameBytes m.1);
}.

#[export] Instance lawful : LawfulCodec (ParityChunkHeader * bytes).
Proof.
  split.
  - intros dst [[fid pi cc fb] pl] out (Hf & Hp & Hc & Hb); cbn in *.
    unfold AppendParityChunk; cbn. append_guards.
    unfold ParseParityChunk; wire_const.
    parse_run; rewrite expect_prefix_ok; parse_run;
      rewrite !be_decode_16, !be_decode_32 by done; parse_run; done.
  - append_total AppendParityChunk.
  - parse_total ParseParityChunk.
Qed.

End ParityChunk.
