(* ===== verification/Netip.v ===== *)
(** The part of Go's [net/netip] the moderation package uses: addresses,
    prefixes, masking and containment, with the reading of an address as a
    list of bits that the trie proofs work on. *)
From S2P Require Export Prelude.
From stdpp Require Import countable.
#[local] Open Scope Z_scope.

(** ** Addresses and prefixes *)

(** [netip.Addr]: the zero value, an IPv4 address (32-bit value) or an IPv6
    address (128-bit value) with its zone. *)
Inductive Addr :=
  | NoAddr
  | Addr4 (v : Z)
  | Addr6 (v : Z) (zone : bytes).
#[export] Instance Addr_eq_dec : EqDecision Addr.
Proof. solve_decision. Defined.
#[export] Instance Addr_countable : Countable Addr.
Proof.
  refine (inj_countable'
    (λ a, match a with NoAddr => inl () | Addr4 v => inr (inl v)
          | Addr6 v z => inr (inr (v, z)) end)
    (λ c, match c with inl () => NoAddr | inr (inl v) => Addr4 v
          | inr (inr (v, z)) => Addr6 v z end) _).
  by intros [].
Defined.

(** [netip.Prefix]; [Bits p = -1] is the invalid prefix. *)
Record Prefix := MkPrefix { PrefixAddr : Addr; Bits : Z }.
#[export] Instance Prefix_eq_dec : EqDecision Prefix.
Proof. solve_decision. Defined.
#[export] Instance Prefix_countable : Countable Prefix.
Proof.
  refine (inj_countable' (λ p, (PrefixAddr p, Bits p)) (λ c, MkPrefix c.1 c.2) _).
  by intros [].
Defined.

Definition BitLen (a : Addr) : Z :=
  match a with NoAddr => 0 | Addr4 _ => 32 | Addr6 _ _ => 128 end.
Definition IsValid (a : Addr) : bool := match a with NoAddr => false | _ => true end.
Definition Is4 (a : Addr) : bool := match a with Addr4 _ => true | _ => false end.
Definition Is4In6 (a : Addr) : bool :=
  match a with Addr6 v _ => Z.shiftr v 32 =? 0xffff | _ => false end.
Definition hasZone (a : Addr) : bool :=
  match a with Addr6 _ (_ :: _) => true | _ => false end.
Definition WithZone (a : Addr) (zone : bytes) : Addr :=
  match a with Addr6 v _ => Addr6 v zone | _ => a end.
Definition Unmap (a : Addr) : Addr :=
  match a with
  | Addr6 v _ => if Is4In6 a then Addr4 (Z.land v (Z.ones 32)) else a
  | _ => a
  end.

(** The 16 and 4 bytes, most significant first; an IPv4 address widens to
    its v4-mapped form. *)
Definition As16 (a : Addr) : bytes :=
  match a with
  | NoAddr => replicate 16 0
  | Addr4 v => be_encode 16 (Z.lor (Z.shiftl 0xffff 32) v)
  | Addr6 v _ => be_encode 16 v
  end.
(** [As4] panics on the zero address and on an IPv6 address that is not
    v4-mapped. *)
Definition As4 {E} (a : Addr) : outcome E bytes :=
  match a with
  | Addr4 v => Ok (be_encode 4 v)
  | Addr6 v _ => if Is4In6 a then Ok (be_encode 4 v) else Fault
  | NoAddr => Fault
  end.

(** the numeric value *)
Definition addr_val (a : Addr) : Z :=
  match a with NoAddr => 0 | Addr4 v => v | Addr6 v _ => v end.
Definition set_val (a : Addr) (v : Z) : Addr :=
  match a with NoAddr => NoAddr | Addr4 _ => Addr4 v | Addr6 _ z => Addr6 v z end.

(** the [w]-bit mask with the [n] high bits set *)
Definition high_mask (w n : Z) : Z := Z.shiftl (Z.ones n) (w - n).

Definition PrefixFrom (a : Addr) (bits : Z) : Prefix :=
  if IsValid a && (0 <=? bits) && (bits <=? BitLen a)
  then MkPrefix (WithZone a []) bits else MkPrefix (WithZone a []) (-1).

(** [Prefix.Masked]: the address with the host bits cleared, the zero prefix
    for an invalid one. *)
Definition Masked (p : Prefix) : Prefix :=
  let a := WithZone (PrefixAddr p) [] in
  if IsValid a && (0 <=? Bits p) && (Bits p <=? BitLen a)
  then PrefixFrom (set_val a (Z.land (addr_val a) (high_mask (BitLen a) (Bits p)))) (Bits p)
  else MkPrefix NoAddr (-1).

Definition PrefixIsValid (p : Prefix) : bool := 0 <=? Bits p.

Definition Contains (p : Prefix) (ip : Addr) : bool :=
  if negb (PrefixIsValid p) || hasZone ip then false else
  let f1 := BitLen (PrefixAddr p) in
  let f2 := BitLen ip in
  if (f1 =? 0) || (f2 =? 0) || negb (f1 =? f2) then false else
  let x := Z.lxor (addr_val ip) (addr_val (PrefixAddr p)) in
  if Is4 ip then Z.shiftr x (32 - Bits p) =? 0
  else Z.land x (high_mask 128 (Bits p)) =? 0.

(** ** Addresses as bit strings *)

(** a value in range for its family *)
Definition addr_ok (a : Addr) : Prop := 0 ≤ addr_val a < 2 ^ BitLen a.

(** bit [i], the most significant one first *)
Definition abit (a : Addr) (i : Z) : bool := Z.testbit (addr_val a) (BitLen a - 1 - i).
Definition abits (a : Addr) : list bool :=
  map (λ i, abit a (Z.of_nat i)) (seq 0 (Z.to_nat (BitLen a))).
Definition pbits (p : Prefix) : list bool := take (Z.to_nat (Bits p)) (abits (PrefixAddr p)).

(** What the trie stores under one root: a masked prefix of the family of
    width [w], without a zone. *)
Record network (w : Z) (p : Prefix) : Prop := {
  net_width : BitLen (PrefixAddr p) = w;
  net_pos : 0 < w;
  net_ok : addr_ok (PrefixAddr p);
  net_zone : hasZone (PrefixAddr p) = false;
  net_bits : 0 ≤ Bits p ≤ w;
  net_masked : ∀ i, Bits p ≤ i < w → abit (PrefixAddr p) i = false;
}.

(** an address looked up under that root *)
Record host (w : Z) (a : Addr) : Prop := {
  host_width : BitLen a = w;
  host_pos : 0 < w;
  host_ok : addr_ok a;
  host_zone : hasZone a = false;
}.

Lemma network_host w p : network w p → host w (PrefixAddr p).
Proof. by intros []. Qed.
#[export] Hint Resolve network_host : core.

Lemma abits_length w a : host w a → length (abits a) = Z.to_nat w.
Proof. intros [<- ? ? ?]. unfold abits. by rewrite length_map, length_seq. Qed.

Lemma abits_lookup w a i : host w a → 0 ≤ i < w → abits a !! Z.to_nat i = Some (abit a i).
Proof.
  intros [<- ? ? ?] Hi. unfold abits. rewrite list_lookup_fmap, lookup_seq_lt by lia.
  cbn. do 2 f_equal. lia.
Qed.

Lemma pbits_length w p : network w p → length (pbits p) = Z.to_nat (Bits p).
Proof.
  intros Hp. unfold pbits. rewrite length_take, (abits_length w) by eauto.
  destruct Hp. lia.
Qed.

(** Reading a prefix of a bit string, index by index. *)
Lemma take_prefix_iff (l k : list bool) n :
  (n ≤ length l)%nat → (n ≤ length k)%nat →
  take n l `prefix_of` k ↔ ∀ i, (i < n)%nat → l !! i = k !! i.
Proof.
  intros Hl Hk. split.
  - intros [r Hr] i Hi. rewrite Hr, lookup_app_l, lookup_take_lt by (rewrite ?length_take; lia).
    done.
  - intros H. exists (drop n k). rewrite <- (take_drop n k) at 1. f_equal.
    apply list_eq. intros i. destruct (decide (i < n)%nat).
    + rewrite !lookup_take_lt by lia. symmetry. auto.
    + by rewrite !lookup_take_ge by lia.
Qed.

(** ** Containment is the prefix order *)

Lemma testbit_above w x j : 0 ≤ w → 0 ≤ x < 2 ^ w → w ≤ j → Z.testbit x j = false.
Proof.
  intros Hw Hx Hj. destruct (decide (x = 0)) as [->|]; [apply Z.bits_0|].
  apply Z.bits_above_log2; [lia|]. assert (Z.log2 x < w) by (apply Z.log2_lt_pow2; lia). lia.
Qed.

Lemma high_mask_spec w n j :
  0 ≤ n ≤ w → 0 ≤ j → Z.testbit (high_mask w n) j = (w - n <=? j) && (j <? w).
Proof.
  intros Hn Hj. unfold high_mask. rewrite Z.shiftl_spec by lia.
  rewrite Z.testbit_ones by lia. lia.
Qed.

Section HighBits.
Context (w n x y : Z) (Hn : 0 ≤ n ≤ w) (Hx : 0 ≤ x < 2 ^ w) (Hy : 0 ≤ y < 2 ^ w).

Definition high_agree : Prop :=
  ∀ i, 0 ≤ i < n → Z.testbit x (w - 1 - i) = Z.testbit y (w - 1 - i).

Lemma shiftr_agree : Z.shiftr (Z.lxor x y) (w - n) = 0 ↔ high_agree.
Proof.
  unfold high_agree. split.
  - intros H i Hi. assert (Hb : Z.testbit (Z.shiftr (Z.lxor x y) (w - n)) (n - 1 - i) = false)
      by (rewrite H; apply Z.bits_0).
    rewrite Z.shiftr_spec, Z.lxor_spec in Hb by lia.
    replace (n - 1 - i + (w - n)) with (w - 1 - i) in Hb by lia. by apply xorb_eq.
  - intros H. apply Z.bits_inj_0. intros j. destruct (decide (j < 0)); [by apply Z.testbit_neg_r|].
    rewrite Z.shiftr_spec, Z.lxor_spec by lia. destruct (decide (j < n)).
    + specialize (H (n - 1 - j)). replace (w - 1 - (n - 1 - j)) with (j + (w - n)) in H by lia.
      rewrite H by lia. apply xorb_nilpotent.
    + by rewrite !(testbit_above w) by lia.
Qed.

Lemma land_agree : Z.land (Z.lxor x y) (high_mask w n) = 0 ↔ high_agree.
Proof.
  rewrite <- shiftr_agree. split; intros H.
  - apply Z.bits_inj_0. intros j. destruct (decide (j < 0)); [by apply Z.testbit_neg_r|].
    rewrite Z.shiftr_spec by lia. destruct (decide (j + (w - n) < w)).
    + assert (Hb : Z.testbit (Z.land (Z.lxor x y) (high_mask w n)) (j + (w - n)) = false)
        by (rewrite H; apply Z.bits_0).
      rewrite Z.land_spec, high_mask_spec in Hb by lia.
      replace ((w - n <=? j + (w - n)) && (j + (w - n) <? w)) with true in Hb by lia.
      by rewrite andb_true_r in Hb.
    + rewrite Z.lxor_spec. by rewrite !(testbit_above w) by lia.
  - apply Z.bits_inj_0. intros j. destruct (decide (j < 0)); [by apply Z.testbit_neg_r|].
    rewrite Z.land_spec, high_mask_spec by lia. destruct (decide (w - n ≤ j)).
    + assert (Hb : Z.testbit (Z.shiftr (Z.lxor x y) (w - n)) (j - (w - n)) = false)
        by (rewrite H; apply Z.bits_0).
      rewrite Z.shiftr_spec in Hb by lia. replace (j - (w - n) + (w - n)) with j in Hb by lia.
      by rewrite Hb.
    + replace (w - n <=? j) with false by lia. apply andb_false_r.
Qed.
End HighBits.

Lemma prefix_agree w p a :
  network w p → host w a →
  pbits p `prefix_of` abits a ↔
  ∀ i, 0 ≤ i < Bits p → abit (PrefixAddr p) i = abit a i.
Proof.
  intros Hp Ha. pose proof (network_host w p Hp) as Hpa. unfold pbits.
  destruct Hp as [? ? ? ? Hb ?].
  rewrite take_prefix_iff by (rewrite (abits_length w) by done; lia). split; intros H i Hi.
  - assert (Hl : abits (PrefixAddr p) !! Z.to_nat i = abits a !! Z.to_nat i) by (apply H; lia).
    rewrite !(abits_lookup w) in Hl by (done || lia). by injection Hl.
  - rewrite <- (Nat2Z.id i). rewrite !(abits_lookup w) by (done || lia).
    f_equal. apply H. lia.
Qed.

Lemma Contains_spec w p a :
  network w p → host w a → Contains p a = true ↔ pbits p `prefix_of` abits a.
Proof.
  intros Hp Ha. rewrite (prefix_agree w) by done. unfold Contains, PrefixIsValid.
  destruct Hp as [Hw Hpos Hok Hz Hb Hm], Ha as [Hwa _ Hoka Hza].
  rewrite Hza, Hw, Hwa. replace (0 <=? Bits p) with true by lia. cbn [negb orb].
  rewrite Z.eqb_refl. replace (w =? 0) with false by lia. cbn [negb orb].
  unfold addr_ok in *. rewrite Hw in Hok. rewrite Hwa in Hoka.
  assert (Hag : high_agree w (Bits p) (addr_val a) (addr_val (PrefixAddr p)) ↔
    ∀ i, 0 ≤ i < Bits p → abit (PrefixAddr p) i = abit a i).
  { unfold high_agree, abit. rewrite Hw, Hwa. split; intros H i Hi; symmetry; by apply H. }
  rewrite <- Hag. case_match eqn:H4.
  - assert (w = 32) as -> by (by destruct a). by rewrite Z.eqb_eq, shiftr_agree.
  - assert (w = 128) as -> by (destruct a; cbn in *; (done || lia)).
    by rewrite Z.eqb_eq, land_agree.
Qed.

(** Two networks with the same bits are the same network. *)
Lemma pbits_inj w p q : network w p → network w q → pbits p = pbits q → p = q.
Proof.
  intros Hp Hq He. assert (Hb : Bits p = Bits q).
  { pose proof (pbits_length w p Hp). pose proof (pbits_length w q Hq).
    destruct Hp, Hq. rewrite He in *. lia. }
  assert (Hag : ∀ i, 0 ≤ i < Bits p → abit (PrefixAddr p) i = abit (PrefixAddr q) i).
  { apply (prefix_agree w); [done|eauto|]. rewrite He. unfold pbits. apply prefix_take. }
  destruct Hp as [Hw Hpos Hok Hz ? Hm], Hq as [Hw' _ Hok' Hz' ? Hm'].
  assert (Hv : addr_val (PrefixAddr p) = addr_val (PrefixAddr q)).
  { unfold addr_ok in *. apply Z.bits_inj_iff'. intros j Hj.
    destruct (decide (w ≤ j)); [by rewrite !(testbit_above w) by (lia || congruence)|].
    assert (Hi : abit (PrefixAddr p) (w - 1 - j) = abit (PrefixAddr q) (w - 1 - j)).
    { destruct (decide (w - 1 - j < Bits p)); [apply Hag; lia|].
      rewrite Hm, Hm' by lia. done. }
    unfold abit in Hi. rewrite Hw, Hw' in Hi. by replace (w - 1 - (w - 1 - j)) with j in Hi by lia. }
  destruct p as [[|v|v [|]] b], q as [[|v'|v' [|]] b']; cbn in *; try (done || lia); congruence.
Qed.

(** ** Constructors of networks and hosts *)

Lemma IsValid_width a : IsValid a = true → 0 < BitLen a.
Proof. by destruct a. Qed.
Lemma WithZone_val a z : addr_val (WithZone a z) = addr_val a.
Proof. by destruct a. Qed.
Lemma WithZone_width a z : BitLen (WithZone a z) = BitLen a.
Proof. by destruct a. Qed.
Lemma WithZone_valid a z : IsValid (WithZone a z) = IsValid a.
Proof. by destruct a. Qed.
Lemma WithZone_nil_hasZone a : hasZone (WithZone a []) = false.
Proof. by destruct a. Qed.
Lemma WithZone_nil_id a : hasZone a = false → WithZone a [] = a.
Proof. by destruct a as [| |? []]. Qed.
Lemma WithZone_ok a z : addr_ok a → addr_ok (WithZone a z).
Proof. unfold addr_ok. by rewrite WithZone_val, WithZone_width. Qed.

Lemma host_intro a :
  IsValid a = true → addr_ok a → host (BitLen a) (WithZone a []).
Proof.
  intros Hv Ho. split; [apply WithZone_width|by apply IsValid_width|
    by apply WithZone_ok|apply WithZone_nil_hasZone].
Qed.

Lemma PrefixFrom_ok a n :
  IsValid a = true → 0 ≤ n ≤ BitLen a → PrefixFrom a n = MkPrefix (WithZone a []) n.
Proof.
  intros Hv Hn. unfold PrefixFrom. rewrite Hv.
  by replace (true && (0 <=? n) && (n <=? BitLen a)) with true by lia.
Qed.

(** A host prefix. *)
Lemma PrefixFrom_host w a : host w a → network w (PrefixFrom a w).
Proof.
  intros [Hw Hpos Hok Hz]. assert (IsValid a = true) by (destruct a; cbn in *; (done || lia)).
  rewrite PrefixFrom_ok, WithZone_nil_id by (done || lia).
  split; cbn; (done || lia || (intros; lia)).
Qed.

Lemma masked_bit w n v i : 0 ≤ n ≤ w → n ≤ i < w →
  Z.testbit (Z.land v (high_mask w n)) (w - 1 - i) = false.
Proof.
  intros Hn Hi. rewrite Z.land_spec, high_mask_spec by lia.
  replace (w - n <=? w - 1 - i) with false by lia. apply andb_false_r.
Qed.

Lemma land_range w v m : 0 ≤ w → 0 ≤ v < 2 ^ w → 0 ≤ m → 0 ≤ Z.land v m < 2 ^ w.
Proof.
  intros Hw Hv Hm. assert (0 ≤ Z.land v m) by (apply Z.land_nonneg; lia). split; [done|].
  destruct (decide (Z.land v m = 0)) as [->|]; [lia|].
  apply Z.log2_lt_pow2; [lia|]. pose proof (Z.log2_land v m ltac:(lia) Hm).
  destruct (decide (v = 0)) as [->|]; [by rewrite Z.land_0_l in *|].
  assert (Z.log2 v < w) by (apply Z.log2_lt_pow2; lia). lia.
Qed.

Lemma high_mask_nonneg w n : 0 ≤ n ≤ w → 0 ≤ high_mask w n.
Proof.
  intros. unfold high_mask. apply Z.shiftl_nonneg. rewrite Z.ones_equiv.
  pose proof (Z.pow_pos_nonneg 2 n). lia.
Qed.

(** Masking gives the network an address and a length name. *)
Lemma Masked_network p :
  IsValid (PrefixAddr p) = true → addr_ok (PrefixAddr p) →
  0 ≤ Bits p ≤ BitLen (PrefixAddr p) →
  network (BitLen (PrefixAddr p)) (Masked p) ∧ Bits (Masked p) = Bits p ∧
  addr_val (PrefixAddr (Masked p)) =
    Z.land (addr_val (PrefixAddr p)) (high_mask (BitLen (PrefixAddr p)) (Bits p)).
Proof.
  intros Hv Hok Hb. unfold Masked.
  rewrite WithZone_valid, WithZone_width, Hv.
  replace (true && (0 <=? Bits p) && (Bits p <=? BitLen (PrefixAddr p))) with true by lia.
  destruct p as [a n]; cbn [PrefixAddr Bits] in *.
  set (w := BitLen a) in *. set (v := Z.land (addr_val (WithZone a [])) (high_mask w n)).
  assert (Hvr : 0 ≤ v < 2 ^ w).
  { apply land_range; [lia|rewrite WithZone_val; exact Hok|by apply high_mask_nonneg]. }
  assert (Hs : IsValid (set_val (WithZone a []) v) = true ∧
    BitLen (set_val (WithZone a []) v) = w ∧
    addr_val (set_val (WithZone a []) v) = v ∧ hasZone (set_val (WithZone a []) v) = false)
    by (destruct a; done).
  destruct Hs as (Hs1 & Hs2 & Hs3 & Hs4).
  rewrite PrefixFrom_ok, WithZone_nil_id by (done || lia). cbn [PrefixAddr Bits].
  rewrite Hs3. unfold v at 2. rewrite WithZone_val. split; [|by split].
  split; cbn [PrefixAddr Bits]; try done.
  - unfold w. by apply IsValid_width.
  - unfold addr_ok. by rewrite Hs2, Hs3.
  - intros i Hi. unfold abit. rewrite Hs2, Hs3. apply masked_bit; lia.
Qed.

Lemma Masked_id w p : network w p → Masked p = p.
Proof.
  intros Hp. pose proof Hp as [Hw Hpos Hok Hz Hb Hm]. subst w.
  assert (Hv : IsValid (PrefixAddr p) = true) by (destruct (PrefixAddr p); cbn in *; (done || lia)).
  destruct (Masked_network p Hv Hok Hb) as (Hn & Hbits & Hval).
  apply (pbits_inj _ _ _ Hn Hp). destruct Hn as [Hw' _ Hok' _ _ _].
  unfold pbits. rewrite Hbits. f_equal. unfold abits. rewrite Hw'. apply map_ext_in.
  intros i [_ Hi]%in_seq. unfold abit. rewrite Hw', Hval, Z.land_spec, high_mask_spec by lia.
  set (w := BitLen (PrefixAddr p)) in *.
  destruct (decide (Z.of_nat i < Bits p)).
  - replace ((w - Bits p <=? w - 1 - Z.of_nat i) && (w - 1 - Z.of_nat i <? w)) with true by lia.
    by rewrite andb_true_r.
  - specialize (Hm (Z.of_nat i) ltac:(lia)). unfold abit in Hm. fold w in Hm. by rewrite Hm.
Qed.

(** ** Unmapping *)

Lemma Is4In6_bits v : 0 ≤ v < 2 ^ 128 → Is4In6 (Addr6 v []) = true →
  Z.testbit v 32 = true.
Proof.
  unfold Is4In6. intros _ H%Z.eqb_eq.
  change 32 with (0 + 32). by rewrite <- Z.shiftr_spec, H by lia.
Qed.

Lemma Unmap_host w a : host w a →
  host (BitLen (Unmap a)) (Unmap a) ∧ Is4In6 (Unmap a) = false.
Proof.
  intros [Hw Hpos Hok Hz]. destruct a as [|v|v z]; [cbn in *; lia|by split|].
  unfold Unmap. destruct (Is4In6 (Addr6 v z)) eqn:H46; [|by split].
  split; [|done]. split; [done|done| |done]. unfold addr_ok. cbn.
  change (Z.land v 4294967295) with (Z.land v (Z.ones 32)).
  rewrite Z.land_ones by lia. apply Z.mod_pos_bound. lia.
Qed.

(** A masked v4-mapped network is at least /96, and dropping the mapping
    leaves a masked IPv4 network. *)
Lemma unmap_network p : network 128 p → Is4In6 (PrefixAddr p) = true →
  96 ≤ Bits p ∧ network 32 (PrefixFrom (Unmap (PrefixAddr p)) (Bits p - 96)).
Proof.
  intros [Hw _ Hok Hz Hb Hm] H46. destruct p as [[|v|v z] n]; try done.
  cbn [PrefixAddr Bits] in *. unfold addr_ok in Hok. cbn in Hok.
  assert (Hn : 96 ≤ n).
  { destruct (decide (96 ≤ n)); [done|]. specialize (Hm 95 ltac:(lia)).
    unfold abit in Hm. change (Z.testbit v 32 = false) in Hm.
    by rewrite (Is4In6_bits v) in Hm. }
  split; [done|]. unfold Unmap. rewrite H46. rewrite PrefixFrom_ok by (cbn; (done || lia)).
  split; cbn [PrefixAddr Bits WithZone BitLen]; try (done || lia).
  - unfold addr_ok. cbn. change (Z.land v 4294967295) with (Z.land v (Z.ones 32)).
    rewrite Z.land_ones by lia. apply Z.mod_pos_bound. lia.
  - intros i Hi. specialize (Hm (i + 96) ltac:(lia)). unfold abit in *.
    cbn [BitLen addr_val] in *. rewrite Z.land_spec.
    replace (32 - 1 - i) with (128 - 1 - (i + 96)) by lia. by rewrite Hm.
Qed.

(** ** Stepping down a bit string *)

Lemma abits_take_step w a n : host w a → 0 ≤ n < w →
  take (Z.to_nat (n + 1)) (abits a) = take (Z.to_nat n) (abits a) ++ [abit a n].
Proof.
  intros Ha Hn. replace (Z.to_nat (n + 1)) with (S (Z.to_nat n)) by lia.
  apply take_S_r. by apply (abits_lookup w).
Qed.

(** A network that contains an address is the beginning of its bits. *)
Lemma Contains_take w p a : network w p → host w a →
  Contains p a = true ↔ pbits p = take (Z.to_nat (Bits p)) (abits a).
Proof.
  intros Hp Ha. rewrite (Contains_spec w) by done. pose proof (pbits_length w p Hp) as Hl.
  split.
  - intros [k Hk]. by rewrite Hk, <- Hl, take_app_length.
  - intros ->. apply prefix_take.
Qed.

Lemma Contains_step w p a : network w p → host w a → Bits p < w →
  Contains p a = true → pbits p ++ [abit a (Bits p)] `prefix_of` abits a.
Proof.
  intros Hp Ha Hlt Hc. rewrite (Contains_take w) in Hc by done. rewrite Hc.
  destruct Hp. rewrite <- (abits_take_step w) by (done || lia). apply prefix_take.
Qed.

(** ... and a strictly shorter one is the beginning of a longer prefix. *)
Lemma pbits_prefix_take w p q n : network w q → n ≤ Bits q → 0 ≤ n →
  p = take (Z.to_nat n) (abits (PrefixAddr q)) → p `prefix_of` pbits q.
Proof.
  intros Hq Hn H0 ->. unfold pbits.
  replace (Z.to_nat n) with (Nat.min (Z.to_nat n) (Z.to_nat (Bits q))) by lia.
  rewrite <- take_take. apply prefix_take.
Qed.
