(* ===== verification/Moderation.v ===== *)
(** moderation/moderation.go: ban targets, their canonical form, lazy expiry
    and the deterministic name of a Ban object. *)
From S2P Require Export GoStrings Netip BroadcastID.
#[local] Open Scope Z_scope.

(** ** Records *)

(** Go's [TargetType] is a string with two declared values. *)
Abbreviation TargetType := bytes (only parsing).
Definition TargetBroadcastID : TargetType := str "broadcastId"%string.
Definition TargetIP : TargetType := str "ip"%string.

Record Target := MkTarget { Type_ : TargetType; Value : bytes }.

(** [ExpiresAt] is an instant in nanoseconds; [None] is a permanent ban. *)
Record BanRecord := MkBanRecord {
  target : Target;
  ExpiresAt : option Z;
  Reason : bytes;
  CreatedBy : bytes;
}.
#[export] Instance Target_eq_dec : EqDecision Target.
Proof. solve_decision. Defined.
#[export] Instance BanRecord_eq_dec : EqDecision BanRecord.
Proof. solve_decision. Defined.

Definition with_value (r : BanRecord) (v : bytes) : BanRecord :=
  MkBanRecord (MkTarget (Type_ (target r)) v) (ExpiresAt r) (Reason r) (CreatedBy r).

Inductive mod_error := ErrInvalidTarget.
#[export] Instance mod_error_eq_dec : EqDecision mod_error.
Proof. solve_decision. Defined.
Abbreviation mres := (outcome mod_error).

Definition Active (r : BanRecord) (now : Z) : bool :=
  match ExpiresAt r with None => true | Some t => now <? t end.

(** ** Normalization *)

Definition CanonicalAddr (a : Addr) : Addr := Unmap (WithZone a []).

(** The text forms of [net/netip] and the case tables of [strings]. *)
Class Text := {
  unicode_upper : bytes → bytes;
  netip_ParseAddr : bytes → option Addr;
  netip_ParsePrefix : bytes → option Prefix;
  Prefix_String : Prefix → bytes;
}.

Definition slash := 47.

Section Normalize.
Context `{Text}.

Definition ParsePrefix (value : bytes) : mres Prefix :=
  let s := TrimSpace value in
  reject bool_decide (s = []) with ErrInvalidTarget;
  if negb (bool_decide (slash ∈ s)) then
    match netip_ParseAddr s with
    | None => Err ErrInvalidTarget
    | Some addr => let addr := CanonicalAddr addr in Ok (PrefixFrom addr (BitLen addr))
    end
  else
    match netip_ParsePrefix s with
    | None => Err ErrInvalidTarget
    | Some p =>
        let p := Masked (PrefixFrom (WithZone (PrefixAddr p) []) (Bits p)) in
        Ok (if Is4In6 (PrefixAddr p)
            then PrefixFrom (Unmap (PrefixAddr p)) (Bits p - 96) else p)
    end.

Definition Normalize (r : BanRecord) : mres BanRecord :=
  if bool_decide (Type_ (target r) = TargetBroadcastID) then
    match BroadcastID.Normalize unicode_upper (TrimSpace (Value (target r))) with
    | None => Err ErrInvalidTarget
    | Some id => Ok (with_value r id)
    end
  else if bool_decide (Type_ (target r) = TargetIP) then
    p ← ParsePrefix (Value (target r));
    Ok (with_value r (Prefix_String p))
  else Err ErrInvalidTarget.

(** ** Names of Ban objects *)

Definition CRName (sha256 : bytes → bytes) (t : Target) : mres bytes :=
  norm ← Normalize (MkBanRecord t None [] []);
  if bool_decide (Type_ (target norm) = TargetBroadcastID) then
    Ok (str "ban-id-"%string ++ map ascii_lower (Value (target norm)))
  else if bool_decide (Type_ (target norm) = TargetIP) then
    h ← slice (hex (sha256 (Value (target norm)))) 0 12;
    Ok (str "ban-ip-"%string ++ h)
  else Err ErrInvalidTarget.

End Normalize.

(** ** Canonical prefixes *)

(** What [ParsePrefix] returns: a masked prefix, never v4-mapped. *)
Definition canonical (p : Prefix) : Prop :=
  network (BitLen (PrefixAddr p)) p ∧ Is4In6 (PrefixAddr p) = false.

(** The documented behaviour of [net/netip] the package relies on: the
    parsers return well-formed values, and [Prefix.String] prints a prefix
    that [netip.ParsePrefix] reads back. *)
Class LawfulText `{Text} := {
  parse_addr_valid : ∀ s a, netip_ParseAddr s = Some a → IsValid a = true ∧ addr_ok a;
  parse_prefix_valid : ∀ s p, netip_ParsePrefix s = Some p →
    IsValid (PrefixAddr p) = true ∧ addr_ok (PrefixAddr p) ∧
    0 ≤ Bits p ≤ BitLen (PrefixAddr p);
  string_parse : ∀ p, canonical p → netip_ParsePrefix (Prefix_String p) = Some p;
  string_slash : ∀ p, canonical p → slash ∈ Prefix_String p;
  string_trimmed : ∀ p, canonical p → trimmed (Prefix_String p);
}.

Lemma CanonicalAddr_host a : IsValid a = true → addr_ok a →
  host (BitLen (CanonicalAddr a)) (CanonicalAddr a) ∧ Is4In6 (CanonicalAddr a) = false.
Proof.
  intros Hv Hok. unfold CanonicalAddr. apply (Unmap_host (BitLen a)). by apply host_intro.
Qed.

Section Laws.
Context `{Text} `{!LawfulText}.

Lemma ParsePrefix_canonical v p : ParsePrefix v = Ok p → canonical p.
Proof.
  unfold ParsePrefix. case_match; [done|]. case_match.
  - destruct (netip_ParseAddr _) as [a|] eqn:Ha; [|done]. intros [= <-].
    apply parse_addr_valid in Ha as [Hv Hok].
    destruct (CanonicalAddr_host a Hv Hok) as [Hh H46].
    pose proof Hh as [_ Hpos _ Hz]. set (c := CanonicalAddr a) in *.
    assert (IsValid c = true) by (destruct c; cbn in *; (done || lia)).
    pose proof (PrefixFrom_host _ _ Hh) as Hn.
    rewrite PrefixFrom_ok, WithZone_nil_id in * by (done || lia). by split.
  - destruct (netip_ParsePrefix _) as [q|] eqn:Hq; [|done]. intros [= <-].
    apply parse_prefix_valid in Hq as (Hv & Hok & Hb).
    rewrite PrefixFrom_ok by (rewrite ?WithZone_valid, ?WithZone_width; done).
    set (q' := MkPrefix (WithZone (WithZone (PrefixAddr q) []) []) (Bits q)).
    destruct (Masked_network q') as (Hn & Hbits & _).
    { by destruct q as [[] ?]. } { by destruct q as [[] ?]. } { by destruct q as [[] ?]. }
    assert (Hn' : network (BitLen (PrefixAddr (Masked q'))) (Masked q'))
      by (pose proof Hn as []; congruence).
    case_match eqn:H46; [|by split].
    assert (Hw : BitLen (PrefixAddr (Masked q')) = 128) by (by destruct (PrefixAddr (Masked q'))).
    rewrite Hw in Hn'. destruct (unmap_network _ Hn' H46) as [? Hn4].
    set (n := PrefixFrom (Unmap _) _) in *. pose proof (net_width _ _ Hn4) as Hw4.
    split; [by rewrite Hw4|]. by destruct (PrefixAddr n).
Qed.

Lemma canonical_zone p : canonical p → WithZone (PrefixAddr p) [] = PrefixAddr p.
Proof. intros [[] _]. by apply WithZone_nil_id. Qed.

(** The canonical text of a prefix is read back as that prefix. *)
Lemma ParsePrefix_String p : canonical p → ParsePrefix (Prefix_String p) = Ok p.
Proof.
  intros Hc. unfold ParsePrefix. rewrite trimmed_TrimSpace by (by apply string_trimmed).
  pose proof (string_slash p Hc) as Hs.
  rewrite bool_decide_eq_false_2 by (intros He; rewrite He in Hs; set_solver).
  rewrite bool_decide_eq_true_2 by done. cbn [negb]. rewrite string_parse by done.
  rewrite canonical_zone by done. destruct Hc as [Hn H46]. pose proof Hn as [_ Hpos _ Hz Hb _].
  assert (Hp : PrefixFrom (PrefixAddr p) (Bits p) = p).
  { rewrite PrefixFrom_ok, WithZone_nil_id by
      (try done; destruct (PrefixAddr p); cbn in *; (done || lia)). by destruct p. }
  rewrite Hp. rewrite (Masked_id _ p Hn). by rewrite H46.
Qed.

Lemma valid_id_trimmed id : valid_id id → trimmed id.
Proof.
  intros [Hl Ha]. assert (Hx : ∀ x, x ∈ Alphabet → ∀ s,
    strip_any spaces (x :: s) = None ∧ strip_any (map (@rev Z) spaces) (x :: s) = None).
  { intros x Hx s. assert (Hall : Forall (λ x, ∀ s, strip_any spaces (x :: s) = None ∧
      strip_any (map (@rev Z) spaces) (x :: s) = None) Alphabet)
      by (unfold Alphabet; cbn; repeat constructor).
    rewrite Forall_forall in Hall. by apply Hall. }
  unfold trimmed. pose proof (Forall_rev Ha) as Hr. split.
  - destruct id as [|x id]; [done|]. apply Forall_cons_iff in Ha as [Hin _]. exact (proj1 (Hx x Hin id)).
  - destruct (rev id) as [|x l]; [done|]. apply Forall_cons_iff in Hr as [Hin _].
    exact (proj2 (Hx x Hin l)).
Qed.

(** Three kinds of result. *)
Lemma Normalize_cases r n : Normalize r = Ok n →
  Type_ (target r) = TargetBroadcastID ∧ n = with_value r (Value (target n)) ∧
    valid_id (Value (target n)) ∨
  Type_ (target r) = TargetIP ∧ ∃ p, canonical p ∧ n = with_value r (Prefix_String p).
Proof.
  unfold Normalize. case_bool_decide as Hid.
  - destruct (BroadcastID.Normalize _ _) as [id|] eqn:E; [|done]. intros [= <-]. left.
    split; [done|]. split; [done|]. by eapply Normalize_valid.
  - case_bool_decide as Hip; [|done]. intros (p & Hp & [= <-])%outcome_bind_Ok. right.
    split; [done|]. exists p. split; [|done]. by eapply ParsePrefix_canonical.
Qed.

(** A normalized record is its own normal form. *)
Lemma Normalize_fixed r n : Normalize r = Ok n → Normalize n = Ok n.
Proof.
  intros [(Ht & Hn & Hv)|(Ht & p & Hc & ->)]%Normalize_cases.
  - unfold Normalize. rewrite Hn. cbn [with_value target Type_ Value].
    rewrite bool_decide_eq_true_2 by done.
    by rewrite trimmed_TrimSpace, (Normalize_id _ _ Hv) by (by apply valid_id_trimmed).
  - unfold Normalize. cbn [with_value target Type_ Value]. rewrite Ht.
    rewrite bool_decide_eq_false_2, bool_decide_eq_true_2 by done.
    by rewrite ParsePrefix_String.
Qed.

(** Only the target is normalized. *)
Lemma Normalize_target r n e re c : Normalize r = Ok n →
  ∃ n', Normalize (MkBanRecord (target r) e re c) = Ok n' ∧ target n' = target n.
Proof.
  unfold Normalize. cbn [target]. case_bool_decide.
  - destruct (BroadcastID.Normalize _ _) as [id|]; [|done]. intros [= <-]. by eexists.
  - case_bool_decide; [|done]. intros (q & Hq & [= <-])%outcome_bind_Ok.
    rewrite Hq. by eexists.
Qed.

Lemma ParsePrefix_nofault v : ParsePrefix v ≠ Fault.
Proof. unfold ParsePrefix. repeat case_match; done. Qed.
Lemma Normalize_nofault r : Normalize r ≠ Fault.
Proof.
  unfold Normalize. repeat case_match; try done.
  destruct (ParsePrefix _) eqn:E; [done..|]. by apply ParsePrefix_nofault in E.
Qed.

End Laws.

(** ** Object names *)

Definition name_char (c : Z) : bool :=
  ((48 <=? c) && (c <=? 57)) || ((97 <=? c) && (c <=? 122)) || (c =? 45).
Definition name_edge (c : Z) : bool := name_char c && negb (c =? 45).
(** RFC 1123: up to 63 lower-case letters, digits and '-', the latter neither
    first nor last. *)
Definition dns_label (s : bytes) : bool :=
  (1 <=? zlen s) && (zlen s <=? 63) && forallb name_char s &&
  match head s with Some c => name_edge c | None => false end &&
  match last s with Some c => name_edge c | None => false end.

Lemma dns_label_intro (pre s : bytes) :
  dns_label (pre ++ [48]) = true → zlen (pre ++ s) ≤ 63 → s ≠ [] →
  Forall (λ c, name_edge c = true) s → dns_label (pre ++ s) = true.
Proof.
  unfold dns_label. rewrite !andb_true_iff. intros [[[[_ _] Hf] Hh] _] Hl Hne Hs.
  assert (Hch : Forall (λ c, name_char c = true) s).
  { eapply Forall_impl; [done|]. cbn. by intros c [? _]%andb_true_iff. }
  assert (Hlast : ∃ c, last s = Some c) by (apply last_is_Some; done).
  destruct Hlast as [c Hc]. zlen_pos. rewrite !zlen_app in *.
  assert (0 < zlen s) by (destruct s; [done|]; rewrite zlen_cons; pose proof (zlen_nonneg s); lia).
  repeat split; [zlia|zlia| | |].
  - rewrite forallb_app in *. apply andb_true_iff in Hf as [-> _]. cbn.
    apply forallb_forall. intros x Hx%list_elem_of_In. rewrite Forall_forall in Hch. by apply Hch.
  - destruct pre; [|done]. destruct s; [done|]. by apply Forall_cons_iff in Hs as [? _].
  - rewrite last_app, Hc. apply last_Some_elem_of in Hc. rewrite Forall_forall in Hs. by apply Hs.
Qed.

Lemma hex_edges s : bytes_ok s → Forall (λ c, name_edge c = true) (hex s).
Proof.
  intros Hs. unfold hex. apply Forall_flat_map. eapply Forall_impl; [exact Hs|]. intros c Hc.
  assert (Hall : ∀ b, is_byte b →
    name_edge (hex_digit (Z.shiftr b 4)) && name_edge (hex_digit (Z.land b 15)) = true)
    by (apply byte_forall; vm_compute; reflexivity).
  specialize (Hall c Hc). apply andb_true_iff in Hall as [? ?]. by repeat constructor.
Qed.
Lemma lower_symbol c : c ∈ Alphabet → name_edge (ascii_lower c) = true.
Proof.
  intros Hc. assert (Hall : Forall (λ c, name_edge (ascii_lower c) = true) Alphabet)
    by (unfold Alphabet; repeat constructor). rewrite Forall_forall in Hall. by apply Hall.
Qed.
Lemma lower_inj c d : c ∈ Alphabet → d ∈ Alphabet → ascii_lower c = ascii_lower d → c = d.
Proof.
  intros Hc Hd. assert (Hall : Forall (λ c, Forall (λ d, ascii_lower c = ascii_lower d → c = d)
    Alphabet) Alphabet).
  { apply Forall_forall. intros x Hx. apply Forall_forall. intros y Hy.
    assert (H : forallb (λ x, forallb (λ y, implb (ascii_lower x =? ascii_lower y) (x =? y))
      Alphabet) Alphabet = true) by (vm_compute; reflexivity).
    rewrite forallb_forall in H. apply list_elem_of_In in Hx, Hy. specialize (H x Hx).
    rewrite forallb_forall in H. specialize (H y Hy).
    intros He. rewrite He, Z.eqb_refl in H. cbn in H. lia. }
  rewrite Forall_forall in Hall. specialize (Hall c Hc). rewrite Forall_forall in Hall. by apply Hall.
Qed.
Lemma lower_map_inj s : ∀ s', Forall (.∈ Alphabet) s → Forall (.∈ Alphabet) s' →
  map ascii_lower s = map ascii_lower s' → s = s'.
Proof.
  induction s as [|c s IH]; intros [|d s'] Hs Hs' He; try done.
  apply Forall_cons_iff in Hs as [Hc Hs], Hs' as [Hd Hs'].
  injection He as He1 He2. f_equal; [by apply lower_inj|by apply IH].
Qed.

Section Names.
Context `{Text} `{!LawfulText}.
Context (sha256 : bytes → bytes) (Hsha : ∀ s, bytes_ok (sha256 s) ∧ zlen (sha256 s) = 32).

(** The name in terms of the normal form of the target. *)
Lemma CRName_normal t n : Normalize (MkBanRecord t None [] []) = Ok n →
  (Type_ t = TargetBroadcastID ∧ valid_id (Value (target n)) ∧
   CRName sha256 t = Ok (str "ban-id-"%string ++ map ascii_lower (Value (target n)))) ∨
  (Type_ t = TargetIP ∧
   CRName sha256 t = Ok (str "ban-ip-"%string ++ take 12 (hex (sha256 (Value (target n)))))).
Proof.
  intros Hn. unfold CRName. rewrite Hn. cbn [mbind outcome_bind].
  destruct (Normalize_cases _ n Hn) as [(Ht & He & Hv)|(Ht & p & Hc & He)]; cbn [target] in Ht.
  - left. split; [done|]. split; [done|].
    assert (Htn : Type_ (target n) = TargetBroadcastID) by (by rewrite He).
    by rewrite bool_decide_eq_true_2.
  - right. split; [done|].
    assert (Htn : Type_ (target n) = TargetIP) by (by rewrite He).
    rewrite bool_decide_eq_false_2, bool_decide_eq_true_2 by (by rewrite Htn).
    destruct (Hsha (Value (target n))) as [_ Hl].
    rewrite slice_ok by (rewrite ?hex_length, ?Hl; lia). done.
Qed.

Lemma CRName_label t name : CRName sha256 t = Ok name → dns_label name = true.
Proof.
  intros HC. pose proof HC as Hc. unfold CRName in Hc. apply outcome_bind_Ok in Hc as (n & Hn & _).
  destruct (CRName_normal t n Hn) as [(_ & [Hl Ha] & He)|(_ & He)];
    rewrite HC in He; apply Ok_inj in He; rewrite He; apply dns_label_intro; try reflexivity.
  - rewrite zlen_app. unfold zlen in *. rewrite length_map. change (length (str "ban-id-"%string)) with 7%nat.
    unfold Length in Hl. lia.
  - intros Hnil%map_eq_nil. by rewrite Hnil in Hl.
  - apply Forall_map. eapply Forall_impl; [exact Ha|]. apply lower_symbol.
  - unfold zlen. rewrite length_app, length_take. change (length (str "ban-ip-"%string)) with 7%nat. lia.
  - destruct (Hsha (Value (target n))) as [_ Hl]. intros Hnil. apply (f_equal length) in Hnil.
    pose proof (hex_length (sha256 (Value (target n)))) as Hh. rewrite Hl in Hh.
    unfold zlen in Hh. rewrite length_take in Hnil. change (length []) with 0%nat in Hnil. lia.
  - apply Forall_take, hex_edges. by apply Hsha.
Qed.
End Names.

(** ** A concrete text form

    A textual form of addresses with the laws of [LawfulText], for the
    witnesses: a family letter, '/', the 16 bytes of the value, the prefix
    length and a full stop. It stands for no code. *)
Definition raw_family (p : Prefix) : Z := if Is4 (PrefixAddr p) then 52 else 54.
Definition raw_String (p : Prefix) : bytes :=
  [raw_family p; slash] ++ be_encode 16 (addr_val (PrefixAddr p)) ++ [Bits p; 46].
Definition raw_ParsePrefix (s : bytes) : option Prefix :=
  match s with
  | f :: _ :: rest =>
      if negb (length rest =? 18)%nat then None else
      let v := be_decode (take 16 rest) in
      let n := rest !!! 16%nat in
      if f =? 52 then
        if (0 <=? v) && (v <? 2 ^ 32) && (0 <=? n) && (n <=? 32)
        then Some (MkPrefix (Addr4 v) n) else None
      else
        if (0 <=? v) && (v <? 2 ^ 128) && (0 <=? n) && (n <=? 128)
        then Some (MkPrefix (Addr6 v []) n) else None
  | _ => None
  end.
Definition raw_ParseAddr (s : bytes) : option Addr :=
  match s with
  | [a; b; c; d] =>
      let v := be_decode [a; b; c; d] in
      if (0 <=? v) && (v <? 2 ^ 32) then Some (Addr4 v) else None
  | _ => None
  end.
Definition raw_text : Text := {|
  unicode_upper := id;
  netip_ParseAddr := raw_ParseAddr;
  netip_ParsePrefix := raw_ParsePrefix;
  Prefix_String := raw_String;
|}.

Lemma raw_lawful : @LawfulText raw_text.
Proof.
  assert (Hv : ∀ p, canonical p → 0 ≤ addr_val (PrefixAddr p) < 2 ^ 128).
  { intros p [[_ _ Hok _ _ _] _]. unfold addr_ok in Hok. destruct (PrefixAddr p); cbn in *; lia. }
  split; cbn [netip_ParseAddr netip_ParsePrefix Prefix_String raw_text].
  - intros s a. unfold raw_ParseAddr. repeat (case_match; try done). intros [= <-].
    split; [done|]. unfold addr_ok. cbn [addr_val BitLen PrefixAddr Bits IsValid]. lia.
  - intros s p. unfold raw_ParsePrefix. destruct s as [|f [|g rest]]; [done..|].
    destruct (negb _); [done|]. destruct (f =? 52).
    + case_match eqn:E; [|done]. intros [= <-]. unfold addr_ok. cbn [addr_val BitLen PrefixAddr Bits IsValid]. split; [done|]. lia.
    + case_match eqn:E; [|done]. intros [= <-]. unfold addr_ok. cbn [addr_val BitLen PrefixAddr Bits IsValid]. split; [done|]. lia.
  - intros p Hc. pose proof (Hv p Hc) as Hr. unfold raw_ParsePrefix, raw_String. cbn [app].
    rewrite length_app, length_be_encode. cbn [length Nat.add Nat.eqb negb].
    rewrite take_app_le, firstn_all2, be_decode_encode by (rewrite ?length_be_encode; lia).
    rewrite lookup_total_app_r by (rewrite length_be_encode; lia). rewrite length_be_encode.
    change (([Bits p; 46] : bytes) !!! (16 - 16)%nat) with (Bits p).
    destruct p as [a n], Hc as [[Hw Hpos Hok Hz Hb Hm] H46]. cbn [PrefixAddr Bits] in *.
    unfold addr_ok in Hok. unfold raw_family. cbn [PrefixAddr].
    destruct a as [|v|v [|]]; cbn [Is4 BitLen addr_val hasZone Z.eqb Pos.eqb] in *; [lia|..|done];
      match goal with |- (if ?b then _ else _) = _ => replace b with true by lia end; done.
  - intros p _. right. by left.
  - intros p _. unfold trimmed, raw_String, raw_family. split.
    + by destruct (Is4 (PrefixAddr p)).
    + rewrite rev_app_distr, rev_app_distr. cbn [rev app]. reflexivity.
Qed.

(** ** Properties *)

(** Normalization never panics; a normalized record is its own normal
    form, keeps type, expiry, reason and author, and names either a valid
    broadcast code or a masked prefix that is never v4-mapped. *)
Theorem Normalize_normal_form `{Text} `{!LawfulText} r :
  Normalize r ≠ Fault ∧
  ∀ n, Normalize r = Ok n →
    Normalize n = Ok n ∧ ExpiresAt n = ExpiresAt r ∧ Reason n = Reason r ∧
    CreatedBy n = CreatedBy r ∧
    (Type_ (target n) = TargetBroadcastID ∧ valid_id (Value (target n)) ∨
     Type_ (target n) = TargetIP ∧ ∃ p, canonical p ∧ ParsePrefix (Value (target n)) = Ok p ∧
       Value (target n) = Prefix_String p).
Proof.
  split; [apply Normalize_nofault|]. intros n Hn. split; [by eapply Normalize_fixed|].
  destruct (Normalize_cases r n Hn) as [(Ht & He & Hv)|(Ht & p & Hc & ->)].
  - rewrite He at 1 2 3. split; [done|]. split; [done|]. split; [done|]. left.
    split; [by rewrite He|done].
  - split; [done|]. split; [done|]. split; [done|]. right. split; [done|]. exists p.
    split; [done|]. split; [|done]. by apply ParsePrefix_String.
Qed.

Lemma Normalize_normal_form_witness :
  @Normalize raw_text (MkBanRecord (MkTarget TargetBroadcastID (str " ab2345 "%string)) None [] [])
    ≠ Fault.
Proof.
  exact (proj1 (@Normalize_normal_form raw_text raw_lawful
    (MkBanRecord (MkTarget TargetBroadcastID (str " ab2345 "%string)) None [] []))).
Defined.

(** A Ban object's name is always a DNS-1123 label, depends only on the
    normal form of the target, and tells two broadcast codes apart. *)
Theorem CRName_deterministic `{Text} `{!LawfulText} sha256 t t' :
  (∀ s, bytes_ok (sha256 s) ∧ zlen (sha256 s) = 32) →
  (∀ name, CRName sha256 t = Ok name → dns_label name = true) ∧
  (∀ n n', Normalize (MkBanRecord t None [] []) = Ok n →
     Normalize (MkBanRecord t' None [] []) = Ok n' →
     (target n = target n' → CRName sha256 t = CRName sha256 t') ∧
     (Type_ t = TargetBroadcastID → Type_ t' = TargetBroadcastID →
        CRName sha256 t = CRName sha256 t' → Value (target n) = Value (target n'))).
Proof.
  intros Hsha. split; [intros name; by apply CRName_label|]. intros n n' Hn Hn'. split.
  - intros He. unfold CRName. rewrite Hn, Hn'. cbn [mbind outcome_bind]. by rewrite He.
  - intros Ht Ht' He.
    destruct (CRName_normal sha256 Hsha t n Hn) as [(_ & [_ Hv] & Hc)|(Ht2 & _)];
      [|rewrite Ht in Ht2; discriminate].
    destruct (CRName_normal sha256 Hsha t' n' Hn') as [(_ & [_ Hv'] & Hc')|(Ht2 & _)];
      [|rewrite Ht' in Ht2; discriminate].
    rewrite Hc, Hc' in He. apply Ok_inj in He. apply app_inv_head in He.
    by apply lower_map_inj.
Qed.

Lemma CRName_deterministic_witness :
  @CRName raw_text (λ _, replicate 32 171) (MkTarget TargetIP [100; 0; 0; 1])
    = Ok (str "ban-ip-abababababab"%string) ∧
  dns_label (str "ban-ip-abababababab"%string) = true.
Proof.
  split; [vm_compute; reflexivity|].
  refine (proj1 (@CRName_deterministic raw_text raw_lawful (λ _, replicate 32 171)
    (MkTarget TargetIP [100; 0; 0; 1]) (MkTarget TargetIP []) _) _ _).
  - intros s. split; [repeat constructor; unfold is_byte; lia|reflexivity].
  - vm_compute. reflexivity.
Defined.
