(* ===== verification/BanTrie.v ===== *)
(** The patricia trie of moderation/set.go: insertion, deletion and
    longest-prefix lookup over banned networks, against the finite map from
    networks to records that the trie stands for. *)
From S2P Require Export Moderation.
From stdpp Require Import gmap.
#[local] Open Scope Z_scope.

(** ** The trie *)

(** [*trieNode]: [Nil] is the nil pointer; a glue node has [rec = None]. *)
Inductive trieNode :=
  | Nil
  | Node (prefix : Prefix) (rec : option BanRecord) (child0 child1 : trieNode).
#[export] Instance trieNode_eq_dec : EqDecision trieNode.
Proof. solve_decision. Defined.

Definition is_nil (t : trieNode) : bool := match t with Nil => true | _ => false end.

(** [bitAt]: bit [i] of an address, the most significant one first *)
Definition bitAt (a : Addr) (i : Z) : mres Z :=
  b ← (if Is4 a then v4 ← As4 a; Ok (v4 ++ replicate 12 0) else Ok (As16 a));
  x ← index b (Z.quot i 8);
  Ok (Z.land (Z.shiftr x (7 - Z.rem i 8)) 1).

(** the loop of [commonPrefixLen] with [fuel] bits to go *)
Fixpoint commonPrefixLen_loop (fuel : nat) (a b : Addr) (i : Z) : mres Z :=
  match fuel with
  | O => Ok i
  | S fuel' =>
      x ← bitAt a i;
      y ← bitAt b i;
      if negb (x =? y) then Ok i else commonPrefixLen_loop fuel' a b (i + 1)
  end.
Definition commonPrefixLen (a b : Addr) : mres Z :=
  commonPrefixLen_loop (Z.to_nat (BitLen a)) a b 0.

(** [n.child[b]] and the assignment to it *)
Definition child (n : trieNode) (b : Z) : trieNode :=
  match n with Nil => Nil | Node _ _ c0 c1 => if b =? 0 then c0 else c1 end.
Definition set_child (n : trieNode) (b : Z) (c : trieNode) : trieNode :=
  match n with
  | Nil => Nil
  | Node p r c0 c1 => if b =? 0 then Node p r c c1 else Node p r c0 c
  end.

(** the node spliced in between two disjoint prefixes *)
Definition splice (n : trieNode) (np p : Prefix) (rec : BanRecord) : mres trieNode :=
  cl ← commonPrefixLen (PrefixAddr np) (PrefixAddr p);
  let cl := if cl >? Bits np then Bits np else cl in
  let cl := if cl >? Bits p then Bits p else cl in
  let glue := Node (Masked (PrefixFrom (PrefixAddr p) cl)) None Nil Nil in
  bn ← bitAt (PrefixAddr np) cl;
  let glue := set_child glue bn n in
  bp ← bitAt (PrefixAddr p) cl;
  Ok (set_child glue bp (Node p (Some rec) Nil Nil)).

Fixpoint trieInsert (n : trieNode) (p : Prefix) (rec : BanRecord) : mres trieNode :=
  match n with
  | Nil => Ok (Node p (Some rec) Nil Nil)
  | Node np nrec c0 c1 =>
      if bool_decide (np = p) then Ok (Node np (Some rec) c0 c1)
      else if (Bits np <? Bits p) && Contains np (PrefixAddr p) then
        b ← bitAt (PrefixAddr p) (Bits np);
        if b =? 0 then c ← trieInsert c0 p rec; Ok (Node np nrec c c1)
        else c ← trieInsert c1 p rec; Ok (Node np nrec c0 c)
      else if (Bits p <? Bits np) && Contains p (PrefixAddr np) then
        b ← bitAt (PrefixAddr np) (Bits p);
        Ok (set_child (Node p (Some rec) Nil Nil) b n)
      else splice n np p rec
  end.

(** the collapse of a node without a record *)
Definition prune (n : trieNode) : trieNode :=
  match n with
  | Node _ None c0 c1 =>
      if is_nil c0 && is_nil c1 then Nil
      else if is_nil c0 then c1
      else if is_nil c1 then c0
      else n
  | _ => n
  end.

Fixpoint trieDelete (n : trieNode) (p : Prefix) : mres trieNode :=
  match n with
  | Nil => Ok Nil
  | Node np nrec c0 c1 =>
      if bool_decide (np = p) then Ok (prune (Node np None c0 c1))
      else if (Bits np <? Bits p) && Contains np (PrefixAddr p) then
        b ← bitAt (PrefixAddr p) (Bits np);
        if b =? 0 then c ← trieDelete c0 p; Ok (prune (Node np nrec c c1))
        else c ← trieDelete c1 p; Ok (prune (Node np nrec c0 c))
      else Ok n
  end.

(** the loop of [trieLookup], [best] the last unexpired hit *)
Fixpoint trieLookup_loop (n : trieNode) (ip : Addr) (now : Z) (best : option BanRecord)
    : mres (option BanRecord) :=
  match n with
  | Nil => Ok best
  | Node np nrec c0 c1 =>
      if negb (Contains np ip) then Ok best else
      let best := match nrec with
                  | Some r => if Active r now then Some r else best
                  | None => best
                  end in
      if Bits np >=? BitLen ip then Ok best else
      b ← bitAt ip (Bits np);
      if b =? 0 then trieLookup_loop c0 ip now best else trieLookup_loop c1 ip now best
  end.
Definition trieLookup (n : trieNode) (ip : Addr) (now : Z) : mres (option BanRecord) :=
  trieLookup_loop n ip now None.

(** [trieWalk]: the records, parents first *)
Fixpoint trieWalk (n : trieNode) : list BanRecord :=
  match n with
  | Nil => []
  | Node _ rec c0 c1 =>
      match rec with Some r => [r] | None => [] end ++ trieWalk c0 ++ trieWalk c1
  end.

(** ** The invariant and the map a trie stands for *)

(** every prefix of [t] continues [l] *)
Definition below (l : list bool) (t : trieNode) : Prop :=
  match t with Nil => True | Node p _ _ _ => l `prefix_of` pbits p end.

Inductive trie_ok (w : Z) : trieNode → Prop :=
  | ok_nil : trie_ok w Nil
  | ok_node p rec c0 c1 :
      network w p →
      (rec = None → c0 ≠ Nil ∧ c1 ≠ Nil) →
      trie_ok w c0 → trie_ok w c1 →
      below (pbits p ++ [false]) c0 → below (pbits p ++ [true]) c1 →
      trie_ok w (Node p rec c0 c1).
#[export] Hint Constructors trie_ok : core.

Definition add_rec (p : Prefix) (rec : option BanRecord) (m : gmap Prefix BanRecord)
    : gmap Prefix BanRecord :=
  match rec with Some r => <[p := r]> m | None => m end.
Fixpoint trie_map (t : trieNode) : gmap Prefix BanRecord :=
  match t with
  | Nil => ∅
  | Node p rec c0 c1 => add_rec p rec (trie_map c0 ∪ trie_map c1)
  end.

(** ** Bits *)

Lemma be_encode_lookup n v k :
  0 ≤ k < Z.of_nat n → be_encode n v !!! Z.to_nat k = be_byte v (Z.of_nat n - 1 - k).
Proof.
  revert k. induction n as [|n IH]; intros k Hk; [lia|]. cbn [be_encode].
  destruct (decide (k = 0)) as [->|].
  - change (Z.to_nat 0) with 0%nat. cbn [lookup_total list_lookup_total]. f_equal. lia.
  - rewrite lookup_total_cons_Z, IH by lia. f_equal. lia.
Qed.

Lemma low_bit x k : 0 ≤ k → Z.land (Z.shiftr x k) 1 = Z.b2z (Z.testbit x k).
Proof.
  intros. change 1 with (Z.ones 1) at 1. rewrite Z.land_ones, Z.shiftr_div_pow2 by lia.
  symmetry. by apply Z.testbit_spec'.
Qed.

(** bit [i] of the [n]-byte big-endian form of [v] *)
Lemma be_bit n v i : 0 ≤ i < 8 * Z.of_nat n →
  Z.land (Z.shiftr (be_encode n v !!! Z.to_nat (Z.quot i 8)) (7 - Z.rem i 8)) 1 =
  Z.b2z (Z.testbit v (8 * Z.of_nat n - 1 - i)).
Proof.
  intros Hi. rewrite Z.quot_div_nonneg, Z.rem_mod_nonneg by lia.
  pose proof (Z.div_mod i 8 ltac:(lia)). pose proof (Z.mod_pos_bound i 8 ltac:(lia)).
  rewrite be_encode_lookup, low_bit by lia. f_equal. unfold be_byte.
  change 255 with (Z.ones 8).
  rewrite Z.land_spec, Z.shiftr_spec, Z.ones_spec_low, andb_true_r by lia. f_equal. lia.
Qed.

Lemma bitAt_ok w a i : host w a → 0 ≤ i < w → bitAt a i = Ok (Z.b2z (abit a i)).
Proof.
  intros [Hw Hpos _ _] Hi. unfold bitAt, abit. subst w.
  assert (Hq : 0 ≤ Z.quot i 8 < BitLen a / 8).
  { rewrite Z.quot_div_nonneg by lia. split; [apply Z.div_pos; lia|].
    destruct a; cbn [BitLen] in *; [lia| |]; change (32 / 8) with 4; change (128 / 8) with 16;
      apply Z.div_lt_upper_bound; lia. }
  destruct a as [|v|v z]; cbn [BitLen addr_val Is4 As4 As16 mbind outcome_bind] in *; [lia|..].
  - change (32 / 8) with 4 in Hq.
    rewrite index_ok by (rewrite zlen_app, zlen_be_encode; change (zlen (replicate 12 0)) with 12; lia).
    cbn [mbind outcome_bind]. rewrite lookup_total_app_l by (rewrite length_be_encode; lia).
    f_equal. apply (be_bit 4). lia.
  - change (128 / 8) with 16 in Hq. rewrite index_ok by (rewrite zlen_be_encode; lia).
    cbn [mbind outcome_bind]. f_equal. apply (be_bit 16). lia.
Qed.

Lemma b2z_eqb0 b : (Z.b2z b =? 0) = negb b.
Proof. by destruct b. Qed.

(** [commonPrefixLen] returns the first index where the addresses differ. *)
Lemma commonPrefixLen_loop_ok w a b fuel : ∀ i,
  host w a → host w b → 0 ≤ i → i + Z.of_nat fuel = w →
  ∃ cl, commonPrefixLen_loop fuel a b i = Ok cl ∧ i ≤ cl ≤ w ∧
    (∀ j, i ≤ j < cl → abit a j = abit b j) ∧ (cl < w → abit a cl ≠ abit b cl).
Proof.
  induction fuel as [|fuel IH]; intros i Ha Hb Hi Hw; cbn [commonPrefixLen_loop].
  { exists i. split; [done|]. split; [lia|]. split; intros; lia. }
  rewrite (bitAt_ok w a), (bitAt_ok w b) by (done || lia). cbn [mbind outcome_bind].
  destruct (Z.eqb_spec (Z.b2z (abit a i)) (Z.b2z (abit b i))) as [He|He]; cbn [negb].
  - apply Z.b2z_inj in He. destruct (IH (i + 1)) as (cl & Hcl & H1 & H2 & H3); [done..|lia|lia|].
    exists cl. split; [done|]. split; [lia|]. split; [|done]. intros j Hj.
    destruct (decide (j = i)) as [->|]; [done|]. apply H2. lia.
  - exists i. split; [done|]. split; [lia|]. split; [intros; lia|]. intros _ H. by rewrite H in He.
Qed.

Lemma commonPrefixLen_ok w a b :
  host w a → host w b →
  ∃ cl, commonPrefixLen a b = Ok cl ∧ 0 ≤ cl ≤ w ∧
    (∀ j, 0 ≤ j < cl → abit a j = abit b j) ∧ (cl < w → abit a cl ≠ abit b cl).
Proof.
  intros Ha Hb. unfold commonPrefixLen. rewrite (host_width w a Ha).
  pose proof (host_pos w a Ha). apply commonPrefixLen_loop_ok; (done || lia).
Qed.

(** ** Keys of a trie *)

Lemma below_trans l k t : l `prefix_of` k → below k t → below l t.
Proof. destruct t; [done|]. cbn. apply transitivity. Qed.

Lemma map_keys w t : trie_ok w t → ∀ l q r,
  below l t → trie_map t !! q = Some r → network w q ∧ l `prefix_of` pbits q.
Proof.
  induction 1 as [|p rec c0 c1 Hp Hglue H0 IH0 H1 IH1 Hb0 Hb1]; intros l q r Hl Hq.
  { cbn [trie_map] in Hq. by rewrite lookup_empty in Hq. }
  cbn [below] in Hl. cbn [trie_map] in Hq. destruct (decide (q = p)) as [->|Hne]; [by split|].
  assert (Hu : (trie_map c0 ∪ trie_map c1) !! q = Some r)
    by (destruct rec; cbn in Hq; rewrite ?lookup_insert_ne in Hq by done; done).
  assert (Hlt : ∀ b, l `prefix_of` pbits p ++ [b]).
  { intros b. etrans; [exact Hl|]. by exists [b]. }
  apply lookup_union_Some_raw in Hu as [Hu|[_ Hu]]; 
    [apply (IH0 l q r)|apply (IH1 l q r)]; try done.
  - exact (below_trans _ _ _ (Hlt false) Hb0).
  - exact (below_trans _ _ _ (Hlt true) Hb1).
Qed.

(** no key of a child is the node's own prefix, and the children differ *)
Lemma child_key w t p b q r :
  trie_ok w t → below (pbits p ++ [b]) t → trie_map t !! q = Some r →
  q ≠ p ∧ pbits p ++ [b] `prefix_of` pbits q.
Proof.
  intros Ht Hb Hq. destruct (map_keys w t Ht _ q r Hb Hq) as [_ Hpre]. split; [|done].
  intros ->. apply prefix_length in Hpre. rewrite length_app in Hpre. cbn in Hpre. lia.
Qed.

Lemma fork_inj l b b' (k : list bool) :
  l ++ [b] `prefix_of` k → l ++ [b'] `prefix_of` k → b = b'.
Proof. intros [x ->] [y Hy]. rewrite <- !app_assoc in Hy. simplify_list_eq. done. Qed.

Lemma child_key_none w t p b q :
  trie_ok w t → below (pbits p ++ [b]) t → pbits p ++ [negb b] `prefix_of` pbits q →
  trie_map t !! q = None.
Proof.
  intros Ht Hb Hq. destruct (trie_map t !! q) as [r|] eqn:E; [|done].
  destruct (child_key w t p b q r Ht Hb E) as [_ H].
  pose proof (fork_inj _ _ _ _ H Hq) as Hbb. by destruct b.
Qed.

Lemma own_key_none w t p b :
  trie_ok w t → below (pbits p ++ [b]) t → trie_map t !! p = None.
Proof.
  intros Ht Hb. destruct (trie_map t !! p) as [r|] eqn:E; [|done].
  by destruct (child_key w t p b p r Ht Hb E).
Qed.

Lemma add_rec_insert p rec q r m :
  q ≠ p → add_rec p rec (<[q := r]> m) = <[q := r]> (add_rec p rec m).
Proof. intros. destruct rec; cbn; [by rewrite insert_insert_ne|done]. Qed.
Lemma add_rec_delete p rec q m :
  q ≠ p → add_rec p rec (delete q m) = delete q (add_rec p rec m).
Proof. intros. destruct rec; cbn; [by rewrite delete_insert_ne|done]. Qed.

(** The guard that sends a prefix below a node, and the branch it takes. *)
Definition goes_below (n p : Prefix) : bool := (Bits n <? Bits p) && Contains n (PrefixAddr p).

Lemma goes_below_spec w n p :
  network w n → network w p → goes_below n p = true →
  bitAt (PrefixAddr p) (Bits n) = Ok (Z.b2z (abit (PrefixAddr p) (Bits n))) ∧
  pbits n ++ [abit (PrefixAddr p) (Bits n)] `prefix_of` pbits p.
Proof.
  intros Hn Hp [Hlt Hc]%andb_true_iff. apply Z.ltb_lt in Hlt.
  assert (Hr : 0 ≤ Bits n < w) by (destruct Hn, Hp; lia).
  split; [apply (bitAt_ok w); eauto|].
  apply (Contains_take w) in Hc; [|done|eauto].
  apply (pbits_prefix_take w _ _ (Bits n + 1)); [done|lia|lia|].
  rewrite (abits_take_step w) by eauto. by rewrite Hc.
Qed.

(** A key at or under a node's prefix is the node's own or goes below it. *)
Lemma under_spec w n p :
  network w n → network w p → pbits n `prefix_of` pbits p → n = p ∨ goes_below n p = true.
Proof.
  intros Hn Hp Hpre. pose proof (prefix_length _ _ Hpre) as Hl.
  rewrite (pbits_length w n Hn), (pbits_length w p Hp) in Hl.
  assert (0 ≤ Bits n ∧ 0 ≤ Bits p) as [? ?] by (destruct Hn, Hp; lia).
  destruct (decide (Bits n = Bits p)) as [He|Hne].
  - left. apply (pbits_inj w); [done..|]. apply prefix_length_eq; [done|].
    rewrite (pbits_length w n Hn), (pbits_length w p Hp). lia.
  - right. apply andb_true_iff. split; [lia|]. apply (Contains_spec w); [done|eauto|].
    etrans; [exact Hpre|]. apply prefix_take.
Qed.

(** ** Insertion *)

Lemma trie_map_leaf p r : trie_map (Node p (Some r) Nil Nil) = {[p := r]}.
Proof. cbn. by rewrite (left_id_L ∅ (∪)). Qed.

Lemma leaf_ok w p r : network w p → trie_ok w (Node p (Some r) Nil Nil).
Proof. by constructor. Qed.

(** Adding [n] under a node that has no children yet. *)
Lemma set_child_map p rec b n : n ≠ Nil →
  trie_map (set_child (Node p rec Nil Nil) (Z.b2z b) n) = add_rec p rec (trie_map n).
Proof.
  intros _. destruct b; cbn; by rewrite ?(left_id_L ∅ (∪)), ?(right_id_L ∅ (∪)).
Qed.

(** Two non-empty subtries joined under the prefix they share. *)
Definition fork (g : Prefix) (b : bool) (n m : trieNode) : trieNode :=
  if b then Node g None m n else Node g None n m.

Lemma fork_ok w g b n m :
  network w g → trie_ok w n → trie_ok w m → n ≠ Nil → m ≠ Nil →
  below (pbits g ++ [b]) n → below (pbits g ++ [negb b]) m → trie_ok w (fork g b n m).
Proof. intros. by destruct b; constructor. Qed.

(** The two addresses of a splice diverge at [cl], inside both prefixes. *)
Lemma diverge w np p cl :
  network w np → network w p → np ≠ p → goes_below np p = false → goes_below p np = false →
  (∀ j, 0 ≤ j < cl → abit (PrefixAddr np) j = abit (PrefixAddr p) j) →
  cl < Bits np ∧ cl < Bits p.
Proof.
  intros Hn Hp Hne Hb1 Hb2 Hag.
  assert (Hno : ∀ q q', network w q → network w q' → q ≠ q' → goes_below q q' = false →
    ¬ pbits q `prefix_of` pbits q').
  { intros q q' Hq Hq' Hqq Hg [?|?]%(under_spec w); congruence. }
  assert (Hpre : ∀ q q', network w q → network w q' → Bits q ≤ Bits q' →
    (∀ j, 0 ≤ j < Bits q → abit (PrefixAddr q) j = abit (PrefixAddr q') j) →
    pbits q `prefix_of` pbits q').
  { intros q q' Hq Hq' Hle Hj. apply (prefix_agree w) in Hj; [|done|eauto].
    apply (pbits_prefix_take w _ _ (Bits q)); [done|done|destruct Hq; lia|].
    apply (Contains_take w); [done|eauto|]. apply (Contains_spec w); [done|eauto|done]. }
  split; apply Z.nle_gt; intros Hle.
  - destruct (Z.le_ge_cases (Bits np) (Bits p)).
    + apply (Hno np p); [done..|]. apply Hpre; [done..|]. intros; apply Hag; lia.
    + apply (Hno p np); [done..|congruence|done|]. apply Hpre; [done..|].
      intros; symmetry; apply Hag; lia.
  - destruct (Z.le_ge_cases (Bits np) (Bits p)).
    + apply (Hno np p); [done..|]. apply Hpre; [done..|]. intros; apply Hag; lia.
    + apply (Hno p np); [done..|congruence|done|]. apply Hpre; [done..|].
      intros; symmetry; apply Hag; lia.
Qed.

(** The glue prefix: the first [cl] bits of [p]. *)
Lemma glue_network w p cl : network w p → 0 ≤ cl ≤ w →
  let g := Masked (PrefixFrom (PrefixAddr p) cl) in
  network w g ∧ Bits g = cl ∧ pbits g = take (Z.to_nat cl) (abits (PrefixAddr p)).
Proof.
  intros Hp Hcl. destruct Hp as [Hw Hpos Hok Hz Hb Hm].
  assert (Hv : IsValid (PrefixAddr p) = true) by (destruct (PrefixAddr p); cbn in *; (done || lia)).
  rewrite PrefixFrom_ok, WithZone_nil_id by (done || lia).
  destruct (Masked_network (MkPrefix (PrefixAddr p) cl)) as (Hn & Hbits & Hval); cbn; [done..|lia|].
  cbn zeta. set (g := Masked _) in *. cbn [PrefixAddr Bits] in *. rewrite Hw in *.
  split; [done|]. split; [done|]. rewrite <- Hbits. apply (Contains_take w);
    [done|by split|]. apply (Contains_spec w); [done|by split|].
  apply (prefix_agree w); [done|by split|]. intros i Hi. unfold abit.
  rewrite (net_width _ _ Hn), Hw, Hval, Z.land_spec, high_mask_spec by lia.
  replace ((w - cl <=? w - 1 - i) && (w - 1 - i <? w)) with true by lia. apply andb_true_r.
Qed.

Lemma splice_ok w np nrec c0 c1 p rec :
  trie_ok w (Node np nrec c0 c1) → network w p →
  np ≠ p → goes_below np p = false → goes_below p np = false →
  ∃ g b, splice (Node np nrec c0 c1) np p rec =
      Ok (fork g b (Node np nrec c0 c1) (Node p (Some rec) Nil Nil)) ∧
    network w g ∧ pbits g ++ [b] `prefix_of` pbits np ∧ pbits g ++ [negb b] `prefix_of` pbits p.
Proof.
  intros Hok Hp Hne Hb1 Hb2. inversion Hok as [|? ? ? ? Hn _ _ _ _ _]; subst.
  destruct (commonPrefixLen_ok w (PrefixAddr np) (PrefixAddr p)) as (cl & Hcl & Hr & Hag & Hd);
    [eauto..|].
  destruct (diverge w np p cl Hn Hp Hne Hb1 Hb2 Hag) as [Hl1 Hl2].
  assert (Hw : Bits np ≤ w ∧ Bits p ≤ w) by (destruct Hn, Hp; lia).
  destruct (glue_network w p cl Hp ltac:(lia)) as (Hg & _ & Hgb). specialize (Hd ltac:(lia)).
  assert (Hgn : pbits (Masked (PrefixFrom (PrefixAddr p) cl)) =
    take (Z.to_nat cl) (abits (PrefixAddr np))).
  { rewrite Hgb. apply list_eq. intros i. destruct (decide (i < Z.to_nat cl)%nat).
    - rewrite !lookup_take_lt by done. rewrite <- (Nat2Z.id i).
      rewrite !(abits_lookup w) by (eauto || lia). f_equal. symmetry. apply Hag. lia.
    - by rewrite !lookup_take_ge by lia. }
  unfold splice. rewrite Hcl. cbn [mbind outcome_bind].
  replace (cl >? Bits np) with false by lia. replace (cl >? Bits p) with false by lia.
  rewrite !(bitAt_ok w) by (eauto || lia). cbn [mbind outcome_bind].
  exists (Masked (PrefixFrom (PrefixAddr p) cl)), (abit (PrefixAddr np) cl).
  assert (Hneg : abit (PrefixAddr p) cl = negb (abit (PrefixAddr np) cl))
    by (destruct (abit (PrefixAddr p) cl), (abit (PrefixAddr np) cl); done).
  rewrite Hneg. split; [by destruct (abit (PrefixAddr np) cl)|]. split; [done|]. split.
  - rewrite Hgn, <- (abits_take_step w) by (eauto || lia).
    eapply (pbits_prefix_take w _ _ (cl + 1)); (done || lia).
  - rewrite Hgb, <- Hneg, <- (abits_take_step w) by (eauto || lia).
    eapply (pbits_prefix_take w _ _ (cl + 1)); (done || lia).
Qed.

(** the shared prefix is the longest one *)
Lemma fork_common l g b (n p : list bool) :
  l `prefix_of` n → l `prefix_of` p → g ++ [b] `prefix_of` n → g ++ [negb b] `prefix_of` p →
  l `prefix_of` g.
Proof.
  intros Hn Hp Hgn Hgp. assert (Hg : g `prefix_of` n) by (etrans; [by exists [b]|done]).
  destruct (prefix_weak_total _ _ _ Hn Hg) as [?|[[|x k] ->]]; [done|by rewrite app_nil_r|].
  rewrite cons_middle, app_assoc in Hn, Hp. apply prefix_app_l in Hn, Hp.
  pose proof (fork_inj _ _ _ _ Hn Hgn). pose proof (fork_inj _ _ _ _ Hp Hgp).
  subst. by destruct b.
Qed.

Lemma fork_map w g b n p r :
  trie_ok w n → trie_map n !! p = None →
  trie_map (fork g b n (Node p (Some r) Nil Nil)) = <[p := r]> (trie_map n).
Proof.
  intros Hn Hnone. pose proof (trie_map_leaf p r) as Hl.
  destruct b; unfold fork; cbn [trie_map add_rec] in *; rewrite Hl.
  - by rewrite <- insert_union_singleton_l.
  - by rewrite <- insert_union_singleton_r.
Qed.

(** Storing in child [b] is storing in the node. *)
Lemma map_insert_child w p rec c0 c1 q r (b : bool) :
  trie_ok w c0 → trie_ok w c1 → below (pbits p ++ [false]) c0 → below (pbits p ++ [true]) c1 →
  pbits p ++ [b] `prefix_of` pbits q →
  add_rec p rec (if b then trie_map c0 ∪ <[q := r]> (trie_map c1)
                 else <[q := r]> (trie_map c0) ∪ trie_map c1) =
  <[q := r]> (add_rec p rec (trie_map c0 ∪ trie_map c1)).
Proof.
  intros H0 H1 Hb0 Hb1 Hq.
  assert (Hne : q ≠ p) by (intros ->; apply prefix_length in Hq; rewrite length_app in Hq; cbn in Hq; lia).
  rewrite <- add_rec_insert by done. f_equal. destruct b.
  - symmetry. apply insert_union_r. by apply (child_key_none w c0 p false).
  - symmetry. apply insert_union_l.
Qed.

Lemma map_delete_child w p rec c0 c1 q (b : bool) :
  trie_ok w c0 → trie_ok w c1 → below (pbits p ++ [false]) c0 → below (pbits p ++ [true]) c1 →
  pbits p ++ [b] `prefix_of` pbits q →
  add_rec p rec (if b then trie_map c0 ∪ delete q (trie_map c1)
                 else delete q (trie_map c0) ∪ trie_map c1) =
  delete q (add_rec p rec (trie_map c0 ∪ trie_map c1)).
Proof.
  intros H0 H1 Hb0 Hb1 Hq.
  assert (Hne : q ≠ p) by (intros ->; apply prefix_length in Hq; rewrite length_app in Hq; cbn in Hq; lia).
  rewrite <- add_rec_delete by done. f_equal. rewrite delete_union. destruct b; f_equal.
  - symmetry. apply delete_id. by apply (child_key_none w c0 p false).
  - symmetry. apply delete_id. by apply (child_key_none w c1 p true).
Qed.

Lemma trieInsert_ok w t p r : trie_ok w t → network w p →
  ∃ t', trieInsert t p r = Ok t' ∧ trie_ok w t' ∧ t' ≠ Nil ∧
    trie_map t' = <[p := r]> (trie_map t) ∧
    (∀ l, below l t → l `prefix_of` pbits p → below l t').
Proof.
  intros Ht Hp. induction Ht as [|np nrec c0 c1 Hn Hglue H0 IH0 H1 IH1 Hb0 Hb1];
    cbn [trieInsert].
  { exists (Node p (Some r) Nil Nil). rewrite trie_map_leaf.
    split; [done|]. split; [by apply leaf_ok|]. done. }
  case_bool_decide as Heq; [subst np|].
  { exists (Node p (Some r) c0 c1). split; [done|]. split; [by constructor|].
    split; [done|]. split; [|by intros l ? _]. cbn [trie_map].
    destruct nrec; cbn [add_rec]; by rewrite ?insert_insert_eq. }
  fold (goes_below np p). fold (goes_below p np).
  destruct (goes_below np p) eqn:Hg1.
  { destruct (goes_below_spec w np p Hn Hp Hg1) as [-> Hpre]. cbn [mbind outcome_bind].
    rewrite b2z_eqb0.
    pose proof (map_insert_child w np nrec c0 c1 p r _ H0 H1 Hb0 Hb1 Hpre) as Hmap.
    destruct (abit (PrefixAddr p) (Bits np)); cbn [negb].
    - destruct IH1 as (c & -> & Hc & Hnil & Hm & Hbel). cbn [mbind outcome_bind].
      eexists; split; [done|]. split; [constructor; naive_solver|]. split; [done|].
      split; [cbn [trie_map]; by rewrite Hm|by intros l ? _].
    - destruct IH0 as (c & -> & Hc & Hnil & Hm & Hbel). cbn [mbind outcome_bind].
      eexists; split; [done|]. split; [constructor; naive_solver|]. split; [done|].
      split; [cbn [trie_map]; by rewrite Hm|by intros l ? _]. }
  assert (Hok : trie_ok w (Node np nrec c0 c1)) by by constructor.
  assert (Hnone : ¬ pbits np `prefix_of` pbits p)
    by (intros [?|?]%(under_spec w); congruence).
  assert (Hnk : trie_map (Node np nrec c0 c1) !! p = None).
  { destruct (_ !! p) as [r'|] eqn:E; [|done]. exfalso. apply Hnone.
    apply (map_keys w _ Hok (pbits np) p r'); [by cbn|done]. }
  destruct (goes_below p np) eqn:Hg2.
  - destruct (goes_below_spec w p np Hp Hn Hg2) as [-> Hpre]. cbn [mbind outcome_bind].
    eexists; split; [done|]. rewrite set_child_map by done.
    split; [|split; [by destruct (abit _ _)|split; [done|]]].
    + destruct (abit (PrefixAddr np) (Bits p)); by constructor.
    + intros l _ Hl. by destruct (abit _ _).
  - destruct (splice_ok w np nrec c0 c1 p r Hok Hp Heq Hg1 Hg2) as (g & b & -> & Hg & Hl1 & Hl2).
    eexists; split; [done|]. split; [apply fork_ok; try done; by apply leaf_ok|].
    split; [by destruct b|]. split; [by apply (fork_map w)|].
    intros l Hl Hlp. assert (Hlg : l `prefix_of` pbits g); [|by destruct b].
    by apply (fork_common l (pbits g) b (pbits np) (pbits p)).
Qed.

(** ** Deletion *)

Lemma is_nil_spec t : is_nil t = true ↔ t = Nil.
Proof. by destruct t. Qed.

(** Collapsing a node keeps the map and the invariant. *)
Lemma prune_ok w p rec c0 c1 :
  network w p → trie_ok w c0 → trie_ok w c1 →
  below (pbits p ++ [false]) c0 → below (pbits p ++ [true]) c1 →
  trie_ok w (prune (Node p rec c0 c1)) ∧
  trie_map (prune (Node p rec c0 c1)) = add_rec p rec (trie_map c0 ∪ trie_map c1) ∧
  (∀ l, l `prefix_of` pbits p → below l (prune (Node p rec c0 c1))).
Proof.
  intros Hp H0 H1 Hb0 Hb1.
  assert (Hlt : ∀ b l, l `prefix_of` pbits p → l `prefix_of` pbits p ++ [b])
    by (intros b l Hl; etrans; [exact Hl|by exists [b]]).
  unfold prune. destruct rec as [r|]; [split; [by constructor|by split]|].
  destruct (is_nil c0) eqn:E0, (is_nil c1) eqn:E1; cbn [andb add_rec];
    repeat match goal with H : is_nil _ = true |- _ => apply is_nil_spec in H end;
    subst; cbn [trie_map];
    rewrite ?(left_id_L ∅ (∪)), ?(right_id_L ∅ (∪)).
  - by split.
  - split; [done|].  split; [done|]. intros l Hl. exact (below_trans _ _ _ (Hlt true l Hl) Hb1).
  - split; [done|]. split; [done|]. intros l Hl. exact (below_trans _ _ _ (Hlt false l Hl) Hb0).
  - assert (c0 ≠ Nil ∧ c1 ≠ Nil) by (split; intros ->; done).
    split; [by constructor|]. by split.
Qed.

Lemma trieDelete_ok w t p : trie_ok w t → network w p →
  ∃ t', trieDelete t p = Ok t' ∧ trie_ok w t' ∧ trie_map t' = delete p (trie_map t) ∧
    (∀ l, below l t → below l t').
Proof.
  intros Ht Hp. induction Ht as [|np nrec c0 c1 Hn Hglue H0 IH0 H1 IH1 Hb0 Hb1];
    cbn [trieDelete].
  { exists Nil. cbn [trie_map]. by rewrite delete_empty. }
  case_bool_decide as Heq; [subst np|].
  { destruct (prune_ok w p None c0 c1 Hn H0 H1 Hb0 Hb1) as (Hok & Hm & Hbel).
    eexists; split; [done|]. split; [done|]. split; [|by intros l ?; apply Hbel].
    rewrite Hm. cbn [trie_map add_rec]. assert (Hnone : (trie_map c0 ∪ trie_map c1) !! p = None).
    { apply lookup_union_None. split; [by apply (own_key_none w c0 p false)|].
      by apply (own_key_none w c1 p true). }
    destruct nrec; cbn [add_rec]; rewrite ?delete_insert_eq; symmetry; by apply delete_id. }
  fold (goes_below np p). destruct (goes_below np p) eqn:Hg1.
  - destruct (goes_below_spec w np p Hn Hp Hg1) as [-> Hpre]. cbn [mbind outcome_bind].
    rewrite b2z_eqb0.
    pose proof (map_delete_child w np nrec c0 c1 p _ H0 H1 Hb0 Hb1 Hpre) as Hmap.
    destruct (abit (PrefixAddr p) (Bits np)); cbn [negb].
    + destruct IH1 as (c & -> & Hc & Hm & Hbel). cbn [mbind outcome_bind].
      destruct (prune_ok w np nrec c0 c Hn H0 Hc Hb0 (Hbel _ Hb1)) as (Hok & Hmp & Hbelp).
      eexists; split; [done|]. split; [done|]. split; [|by intros l ?; apply Hbelp].
      cbn [trie_map]. by rewrite Hmp, Hm.
    + destruct IH0 as (c & -> & Hc & Hm & Hbel). cbn [mbind outcome_bind].
      destruct (prune_ok w np nrec c c1 Hn Hc H1 (Hbel _ Hb0) Hb1) as (Hok & Hmp & Hbelp).
      eexists; split; [done|]. split; [done|]. split; [|by intros l ?; apply Hbelp].
      cbn [trie_map]. by rewrite Hmp, Hm.
  - eexists; split; [done|]. split; [by constructor|]. split; [|done].
    symmetry. apply delete_id. destruct (_ !! p) as [r'|] eqn:E; [|done]. exfalso.
    assert (Hok : trie_ok w (Node np nrec c0 c1)) by by constructor.
    destruct (map_keys w _ Hok (pbits np) p r') as [_ Hpre]; [by cbn|done|].
    destruct (under_spec w np p Hn Hp Hpre); congruence.
Qed.

(** ** Lookup *)

(** The answer a lookup owes: the record of the most specific banned network
    that contains [ip] and has not expired. *)
Definition matching (m : gmap Prefix BanRecord) (ip : Addr) (now : Z) (p : Prefix) (r : BanRecord)
    : Prop := m !! p = Some r ∧ Active r now = true ∧ Contains p ip = true.
Definition longest_match (m : gmap Prefix BanRecord) (ip : Addr) (now : Z)
    (out : option BanRecord) : Prop :=
  match out with
  | Some r => ∃ p, matching m ip now p r ∧
                   ∀ q r', matching m ip now q r' → Bits q ≤ Bits p
  | None => ∀ q r, ¬ matching m ip now q r
  end.

Lemma trie_map_node w p rec c0 c1 q r :
  trie_ok w (Node p rec c0 c1) →
  trie_map (Node p rec c0 c1) !! q = Some r ↔
  q = p ∧ rec = Some r ∨ trie_map c0 !! q = Some r ∨ trie_map c1 !! q = Some r.
Proof.
  intros Hok. inversion Hok as [|? ? ? ? Hp _ H0 H1 Hb0 Hb1]; subst. cbn [trie_map].
  assert (Hn0 := own_key_none w c0 p false H0 Hb0). assert (Hn1 := own_key_none w c1 p true H1 Hb1).
  assert (Hd : trie_map c0 ##ₘ trie_map c1).
  { apply map_disjoint_spec. intros k x y Hx Hy.
    destruct (child_key w c0 p false k x H0 Hb0 Hx) as [_ ?].
    destruct (child_key w c1 p true k y H1 Hb1 Hy) as [_ ?].
    by assert (false = true) by by eapply fork_inj. }
  destruct (decide (q = p)) as [->|Hne].
  - assert (Hu : (trie_map c0 ∪ trie_map c1) !! p = None) by by apply lookup_union_None.
    destruct rec; cbn [add_rec]; rewrite ?lookup_insert_eq; naive_solver congruence.
  - transitivity ((trie_map c0 ∪ trie_map c1) !! q = Some r).
    + destruct rec; cbn [add_rec]; by rewrite ?lookup_insert_ne by done.
    + rewrite lookup_union_Some by done. naive_solver.
Qed.

(** A node that does not contain the address hides nothing that does. *)
Lemma Contains_below w p q ip :
  network w p → network w q → host w ip → pbits p `prefix_of` pbits q →
  Contains q ip = true → Contains p ip = true.
Proof.
  intros Hp Hq Hip Hpre Hc. apply (Contains_spec w); [done..|]. etrans; [exact Hpre|].
  by apply (Contains_spec w).
Qed.

Definition pick (nrec best : option BanRecord) (now : Z) : option BanRecord :=
  match nrec with Some r => if Active r now then Some r else best | None => best end.

(** The loop returns the longest match of the trie, or [best] if none. *)
Definition lookup_result (m : gmap Prefix BanRecord) (ip : Addr) (now : Z)
    (best out : option BanRecord) : Prop :=
  out = best ∧ longest_match m ip now None ∨
  ∃ r, out = Some r ∧ longest_match m ip now (Some r).

Lemma matching_node w p rec c0 c1 ip now q r :
  trie_ok w (Node p rec c0 c1) →
  matching (trie_map (Node p rec c0 c1)) ip now q r ↔
  q = p ∧ rec = Some r ∧ Active r now = true ∧ Contains p ip = true ∨
  matching (trie_map c0) ip now q r ∨ matching (trie_map c1) ip now q r.
Proof.
  intros Hok. unfold matching. rewrite (trie_map_node w) by done. naive_solver.
Qed.

(** A match in child [b] lies on the address's own branch. *)
Lemma matching_child w p c (b : bool) ip now q r :
  network w p → host w ip → trie_ok w c → below (pbits p ++ [b]) c →
  matching (trie_map c) ip now q r →
  Contains p ip = true ∧ Bits p < Bits q ≤ w ∧ pbits p ++ [b] `prefix_of` abits ip.
Proof.
  intros Hp Hip Hc Hb (Hq & _ & Hcq). destruct (map_keys w c Hc _ q r Hb Hq) as [Hqn Hpre].
  assert (Hpq : pbits p `prefix_of` pbits q) by (etrans; [by exists [b]|done]).
  split; [by apply (Contains_below w p q)|]. split.
  - apply prefix_length in Hpre. rewrite length_app in Hpre. cbn in Hpre.
    rewrite (pbits_length w p Hp), (pbits_length w q Hqn) in Hpre. destruct Hp, Hqn. lia.
  - etrans; [exact Hpre|]. by apply (Contains_spec w).
Qed.

(** Combining a node's own record with the result of the one child whose
    keys can match. *)
Lemma lookup_combine m mc p rec ip now best out :
  Contains p ip = true →
  (∀ q r, matching m ip now q r ↔
     q = p ∧ rec = Some r ∧ Active r now = true ∧ Contains p ip = true ∨
     matching mc ip now q r) →
  (∀ q r, matching mc ip now q r → Bits p < Bits q) →
  lookup_result mc ip now (pick rec best now) out → lookup_result m ip now best out.
Proof.
  intros Hc Hm Hlt [[-> Hnone]|(r & -> & q & Hq & Hmax)].
  - unfold pick. destruct rec as [r|]; [destruct (Active r now) eqn:Ha|].
    + right. exists r. split; [done|]. exists p. split; [apply Hm; by left|].
      intros q r' [(-> & _)|H]%Hm; [done|]. by apply Hnone in H.
    + left. split; [done|]. intros q r' [(_ & [= <-] & ? & _)|H]%Hm; [congruence|].
      by apply Hnone in H.
    + left. split; [done|]. intros q r' [(_ & ? & _)|H]%Hm; [done|]. by apply Hnone in H.
  - right. exists r. split; [done|]. exists q. split; [apply Hm; by right|].
    intros q' r' [(-> & _)|H]%Hm; [apply Hlt in Hq; lia|]. by apply (Hmax q' r').
Qed.

Lemma trieLookup_loop_ok w t ip now : trie_ok w t → host w ip → ∀ best,
  ∃ out, trieLookup_loop t ip now best = Ok out ∧ lookup_result (trie_map t) ip now best out.
Proof.
  intros Ht Hip. induction Ht as [|np nrec c0 c1 Hn Hglue H0 IH0 H1 IH1 Hb0 Hb1];
    intros best; cbn [trieLookup_loop].
  { exists best. split; [done|]. left. split; [done|]. intros q r (Hq & _).
    cbn [trie_map] in Hq. by rewrite lookup_empty in Hq. }
  assert (Hok : trie_ok w (Node np nrec c0 c1)) by by constructor.
  assert (Hm := λ q r, matching_node w np nrec c0 c1 ip now q r Hok).
  assert (M0 := λ q r, matching_child w np c0 false ip now q r Hn Hip H0 Hb0).
  assert (M1 := λ q r, matching_child w np c1 true ip now q r Hn Hip H1 Hb1).
  destruct (Sumbool.sumbool_of_bool (Contains np ip)) as [Hc|Hc]; rewrite Hc; cbn [negb].
  2: { exists best. split; [done|]. left. split; [done|].
       intros q r [(_ & _ & _ & ?)|[(? & _)%M0|(? & _)%M1]]%Hm; congruence. }
  fold (pick nrec best now). rewrite (host_width w ip Hip).
  destruct (Z.geb_spec (Bits np) w) as [Hge|Hlt].
  - eexists; split; [done|]. apply (lookup_combine _ ∅ np nrec); [done|..].
    + intros q r. rewrite Hm. split; [|intros [?|(Hq & _)]; [by left|by rewrite lookup_empty in Hq]].
      intros [?|[(_ & ? & _)%M0|(_ & ? & _)%M1]]; [by left|lia|lia].
    + by intros q r (Hq & _); rewrite lookup_empty in Hq.
    + left. split; [done|]. by intros q r (Hq & _); rewrite lookup_empty in Hq.
  - rewrite (bitAt_ok w) by (done || (destruct Hn; lia)). cbn [mbind outcome_bind].
    rewrite b2z_eqb0. pose proof (Contains_step w np ip Hn Hip Hlt Hc) as Hstep.
    destruct (abit ip (Bits np)); cbn [negb].
    + destruct (IH1 (pick nrec best now)) as (out & -> & Hout). exists out. split; [done|].
      apply (lookup_combine _ (trie_map c1) np nrec); [done|..|done].
      * intros q r. rewrite Hm. split; [|clear; tauto].
        intros [?|[(_ & _ & ?)%M0|?]]; [by left| |by right].
        by assert (false = true) by by eapply fork_inj.
      * by intros q r (_ & [? _] & _)%M1.
    + destruct (IH0 (pick nrec best now)) as (out & -> & Hout). exists out. split; [done|].
      apply (lookup_combine _ (trie_map c0) np nrec); [done|..|done].
      * intros q r. rewrite Hm. split; [|clear; tauto].
        intros [?|[?|(_ & _ & ?)%M1]]; [by left|by right|].
        by assert (false = true) by by eapply fork_inj.
      * by intros q r (_ & [? _] & _)%M0.
Qed.

Lemma trieLookup_ok w t ip now : trie_ok w t → host w ip →
  ∃ out, trieLookup t ip now = Ok out ∧ longest_match (trie_map t) ip now out.
Proof.
  intros Ht Hip. destruct (trieLookup_loop_ok w t ip now Ht Hip None) as (out & Ho & H).
  exists out. split; [done|]. by destruct H as [[-> ?]|(r & -> & ?)].
Qed.

(** The answer is unique: at most one network of a length contains an
    address. *)
Lemma longest_match_unique w m ip now o1 o2 :
  (∀ p r, m !! p = Some r → network w p) → host w ip →
  longest_match m ip now o1 → longest_match m ip now o2 → o1 = o2.
Proof.
  intros Hm Hip H1 H2.
  destruct o1 as [r1|], o2 as [r2|]; [|by destruct H1 as (? & ? & _); exfalso; eapply H2
    |by destruct H2 as (? & ? & _); exfalso; eapply H1|done].
  destruct H1 as (p1 & M1 & X1), H2 as (p2 & M2 & X2).
  assert (Hb : Bits p1 = Bits p2) by (apply Z.le_antisymm; eauto).
  destruct M1 as (L1 & _ & C1), M2 as (L2 & _ & C2).
  pose proof (Hm _ _ L1) as N1. pose proof (Hm _ _ L2) as N2.
  apply (Contains_take w) in C1, C2; [|done..].
  assert (p1 = p2) as -> by (apply (pbits_inj w); [done..|]; congruence). congruence.
Qed.

(** ** Walking *)

Lemma union_to_list (m1 m2 : gmap Prefix BanRecord) :
  m1 ##ₘ m2 → map_to_list (m1 ∪ m2) ≡ₚ map_to_list m1 ++ map_to_list m2.
Proof.
  induction m1 as [|i x m Hi IH] using map_ind; intros Hd.
  { by rewrite (left_id_L ∅ (∪)), map_to_list_empty. }
  apply map_disjoint_insert_l in Hd as [Hi2 Hd].
  rewrite <- insert_union_l, !map_to_list_insert by (done || by apply lookup_union_None).
  by rewrite IH.
Qed.

(** [trieWalk] visits every stored record once. *)
Lemma trieWalk_map w t : trie_ok w t → trieWalk t ≡ₚ (map_to_list (trie_map t)).*2.
Proof.
  induction 1 as [|p rec c0 c1 Hp _ H0 IH0 H1 IH1 Hb0 Hb1]; cbn [trieWalk trie_map].
  { by rewrite map_to_list_empty. }
  assert (Hn0 := own_key_none w c0 p false H0 Hb0). assert (Hn1 := own_key_none w c1 p true H1 Hb1).
  assert (Hd : trie_map c0 ##ₘ trie_map c1).
  { apply map_disjoint_spec. intros k x y Hx Hy.
    destruct (child_key w c0 p false k x H0 Hb0 Hx) as [_ ?].
    destruct (child_key w c1 p true k y H1 Hb1 Hy) as [_ ?].
    by assert (false = true) by by eapply fork_inj. }
  assert (Hu : (map_to_list (trie_map c0 ∪ trie_map c1)).*2 ≡ₚ trieWalk c0 ++ trieWalk c1).
  { rewrite union_to_list by done. by rewrite fmap_app, IH0, IH1. }
  destruct rec as [r|]; cbn [add_rec app]; [|by rewrite Hu].
  rewrite map_to_list_insert by (by apply lookup_union_None). cbn. by rewrite Hu.
Qed.

(** ** Properties *)

(** Inserting a network returns (no bit index out of range), keeps the
    trie well formed and adds exactly that network to the map the trie stands
    for, whatever the trie's shape: same prefix, below, above or disjoint. *)
Theorem trieInsert_refines w t p r :
  trie_ok w t → network w p →
  ∃ t', trieInsert t p r = Ok t' ∧ trie_ok w t' ∧ trie_map t' = <[p := r]> (trie_map t).
Proof.
  intros Ht Hp. destruct (trieInsert_ok w t p r Ht Hp) as (t' & H1 & H2 & _ & H3 & _).
  by exists t'.
Qed.

(** Deleting a network removes exactly it, prunes the trie back to the
    well-formed shape, and is a no-op for a network that is not stored. *)
Theorem trieDelete_refines w t p :
  trie_ok w t → network w p →
  ∃ t', trieDelete t p = Ok t' ∧ trie_ok w t' ∧ trie_map t' = delete p (trie_map t).
Proof.
  intros Ht Hp. destruct (trieDelete_ok w t p Ht Hp) as (t' & H1 & H2 & H3 & _). by exists t'.
Qed.

(** C19. A lookup returns the record of the most specific banned network that
    contains the address and has not expired, or nothing if there is none; in
    particular an expired ban never hides a broader one still in force. *)
Theorem trieLookup_longest w t ip now :
  trie_ok w t → host w ip →
  ∃ out, trieLookup t ip now = Ok out ∧ longest_match (trie_map t) ip now out ∧
    ∀ out', longest_match (trie_map t) ip now out' → out' = out.
Proof.
  intros Ht Hip. destruct (trieLookup_ok w t ip now Ht Hip) as (out & Ho & Hm).
  exists out. split; [done|]. split; [done|]. intros out' Hm'.
  apply (longest_match_unique w (trie_map t) ip now); [|done..]. intros p r Hp.
  apply (map_keys w t Ht [] p r); [destruct t; [done|apply prefix_nil]|done].
Qed.

(** 10.0.0.0/8 and 10.1.0.0/16 *)
Definition net8 : Prefix := MkPrefix (Addr4 0x0A000000) 8.
Definition net16 : Prefix := MkPrefix (Addr4 0x0A010000) 16.
Definition ban (e : option Z) : BanRecord := MkBanRecord (MkTarget TargetIP []) e [] [].

Lemma network4 v n :
  0 ≤ v < 2 ^ 32 → 0 ≤ n ≤ 32 → v mod 2 ^ (32 - n) = 0 → network 32 (MkPrefix (Addr4 v) n).
Proof.
  intros Hv Hn Hm. split; cbn [PrefixAddr Bits BitLen hasZone]; [done|lia|exact Hv|done|done|].
  intros i Hi. unfold abit. cbn [BitLen addr_val].
  assert (Hb : Z.testbit (v mod 2 ^ (32 - n)) (32 - 1 - i) = false) by (rewrite Hm; apply Z.bits_0).
  by rewrite Z.mod_pow2_bits_low in Hb by lia.
Qed.
Lemma net8_ok : network 32 net8.
Proof. apply network4; [lia|lia|reflexivity]. Qed.
Lemma net16_ok : network 32 net16.
Proof. apply network4; [lia|lia|reflexivity]. Qed.
Lemma demo_trie_ok : trie_ok 32 (Node net8 (Some (ban None)) (Node net16 (Some (ban (Some 50))) Nil Nil) Nil).
Proof.
  constructor; [apply net8_ok|done| |constructor| |done].
  - by apply leaf_ok, net16_ok.
  - exists (drop 9 (pbits net16)). reflexivity.
Qed.

Lemma trieInsert_refines_witness :
  ∃ t', trieInsert (Node net8 (Some (ban None)) Nil Nil) net16 (ban (Some 50)) = Ok t' ∧
    trie_map t' !! net16 = Some (ban (Some 50)).
Proof.
  destruct (trieInsert_refines 32 (Node net8 (Some (ban None)) Nil Nil) net16 (ban (Some 50))
    (leaf_ok 32 net8 (ban None) net8_ok) net16_ok) as (t' & H1 & _ & H3).
  exists t'. split; [exact H1|]. rewrite H3. apply lookup_insert_eq.
Defined.
Lemma trieDelete_refines_witness :
  ∃ t', trieDelete (Node net8 (Some (ban None)) (Node net16 (Some (ban (Some 50))) Nil Nil) Nil)
          net8 = Ok t' ∧ trie_map t' !! net8 = None.
Proof.
  destruct (trieDelete_refines 32 _ net8 demo_trie_ok net8_ok) as (t' & H1 & _ & H3).
  exists t'. split; [exact H1|]. rewrite H3. apply lookup_delete_eq.
Defined.
Lemma trieLookup_longest_witness :
  ∃ out, trieLookup (Node net8 (Some (ban None)) (Node net16 (Some (ban (Some 50))) Nil Nil) Nil)
           (Addr4 0x0A010203) 60 = Ok out ∧ out = Some (ban None).
Proof.
  destruct (trieLookup_longest 32 _ (Addr4 0x0A010203) 60 demo_trie_ok) as (out & H1 & _).
  - split; cbn; [reflexivity|lia|unfold addr_ok; cbn; lia|reflexivity].
  - exists out. split; [exact H1|]. vm_compute in H1. injection H1 as <-. reflexivity.
Defined.
