(* ===== verification/BanSet.v ===== *)
(** moderation/set.go: the in-memory ban list ([Set]), as a refinement of a
    finite map from ban targets to records. *)
From S2P Require Export BanTrie.
From stdpp Require Import gmap.
#[local] Open Scope Z_scope.

(** ** The set *)

Record BanSet := MkBanSet {
  ids : gmap bytes BanRecord;
  root4 : trieNode;
  root6 : trieNode;
}.

Definition NewSet : BanSet := MkBanSet ∅ Nil Nil.

(** A ban target, one key per target however it is spelled. *)
Inductive key := KeyID (id : bytes) | KeyNet (p : Prefix).
#[export] Instance key_eq_dec : EqDecision key.
Proof. solve_decision. Defined.
#[export] Instance key_countable : Countable key.
Proof.
  refine (inj_countable' (λ k, match k with KeyID i => inl i | KeyNet p => inr p end)
    (λ s, match s with inl i => KeyID i | inr p => KeyNet p end) _). by intros [].
Defined.
#[export] Instance KeyID_inj : Inj (=) (=) KeyID.
Proof. by intros ?? [=]. Qed.
#[export] Instance KeyNet_inj : Inj (=) (=) KeyNet.
Proof. by intros ?? [=]. Qed.

Section Set_.
Context `{Text}.

(** The switch over the normalized target's type that [Replace] and [Upsert]
    share. *)
Definition store (s : BanSet) (norm : BanRecord) : mres BanSet :=
  if bool_decide (Type_ (target norm) = TargetBroadcastID) then
    Ok (MkBanSet (<[Value (target norm) := norm]> (ids s)) (root4 s) (root6 s))
  else if bool_decide (Type_ (target norm) = TargetIP) then
    p ← ParsePrefix (Value (target norm));
    if Is4 (PrefixAddr p)
    then t ← trieInsert (root4 s) p norm; Ok (MkBanSet (ids s) t (root6 s))
    else t ← trieInsert (root6 s) p norm; Ok (MkBanSet (ids s) (root4 s) t)
  else Ok s.

(** A record that does not normalize is skipped. *)
Fixpoint Replace_loop (all : list BanRecord) (s : BanSet) : mres BanSet :=
  match all with
  | [] => Ok s
  | r :: all' =>
      match Normalize r with
      | Err _ => Replace_loop all' s
      | Fault => Fault
      | Ok norm =>
          match store s norm with
          | Err _ => Replace_loop all' s
          | Fault => Fault
          | Ok s' => Replace_loop all' s'
          end
      end
  end.

(** The nil receiver is [None]; every method accepts it. *)
Definition Replace (s : option BanSet) (all : list BanRecord) : mres (option BanSet) :=
  match s with
  | None => Ok None
  | Some _ => s' ← Replace_loop all NewSet; Ok (Some s')
  end.

Definition Upsert (s : option BanSet) (r : BanRecord) : mres (option BanSet) :=
  norm ← Normalize r;
  match s with
  | None => Ok None
  | Some s => s' ← store s norm; Ok (Some s')
  end.

Definition Remove (s : option BanSet) (t : Target) : mres (option BanSet) :=
  norm ← Normalize (MkBanRecord t None [] []);
  match s with
  | None => Ok None
  | Some s =>
      if bool_decide (Type_ (target norm) = TargetBroadcastID) then
        Ok (Some (MkBanSet (delete (Value (target norm)) (ids s)) (root4 s) (root6 s)))
      else if bool_decide (Type_ (target norm) = TargetIP) then
        p ← ParsePrefix (Value (target norm));
        if Is4 (PrefixAddr p)
        then t ← trieDelete (root4 s) p; Ok (Some (MkBanSet (ids s) t (root6 s)))
        else t ← trieDelete (root6 s) p; Ok (Some (MkBanSet (ids s) (root4 s) t))
      else Ok (Some s)
  end.

Definition BannedID (s : option BanSet) (normID : bytes) (now : Z) : option BanRecord :=
  match s with
  | None => None
  | Some s =>
      match ids s !! normID with
      | Some rec => if negb (Active rec now) then None else Some rec
      | None => None
      end
  end.

Definition BannedIP (s : option BanSet) (ip : Addr) (now : Z) : mres (option BanRecord) :=
  match s with
  | None => Ok None
  | Some s =>
      if negb (IsValid ip) then Ok None else
      let ip := CanonicalAddr ip in
      let root := if Is4 ip then root4 s else root6 s in
      trieLookup root ip now
  end.

Definition count_active (now : Z) (rs : list BanRecord) : Z :=
  fold_left (λ n r, if Active r now then n + 1 else n) rs 0.

Definition ActiveCounts (s : option BanSet) (now : Z) : gmap bytes Z :=
  match s with
  | None => <[TargetBroadcastID := 0]> (<[TargetIP := 0]> ∅)
  | Some s =>
      <[TargetBroadcastID := count_active now (map_to_list (ids s)).*2]>
      (<[TargetIP := count_active now (trieWalk (root4 s) ++ trieWalk (root6 s))]> ∅)
  end.

(** ** The abstract ban list *)

(** the key of a normalized record *)
Definition key_of (norm : BanRecord) : option key :=
  if bool_decide (Type_ (target norm) = TargetBroadcastID) then Some (KeyID (Value (target norm)))
  else match ParsePrefix (Value (target norm)) with Ok p => Some (KeyNet p) | _ => None end.

Definition nets (s : BanSet) : gmap Prefix BanRecord := trie_map (root4 s) ∪ trie_map (root6 s).
Definition bans (s : BanSet) : gmap key BanRecord := kmap KeyID (ids s) ∪ kmap KeyNet (nets s).

Definition set_ok (s : BanSet) : Prop := trie_ok 32 (root4 s) ∧ trie_ok 128 (root6 s).

(** What [Upsert] and [Replace] promise of the ban list. *)
Definition spec_upsert (r : BanRecord) (b : gmap key BanRecord) : gmap key BanRecord :=
  match Normalize r with
  | Ok n => match key_of n with Some k => <[k := n]> b | None => b end
  | _ => b
  end.

(** ** Lemmas *)

Lemma NewSet_ok : set_ok NewSet.
Proof. split; constructor. Qed.
Lemma bans_NewSet : bans NewSet = ∅.
Proof. unfold bans, nets. cbn. by rewrite (left_id_L ∅ (∪)), !kmap_empty, (left_id_L ∅ (∪)). Qed.

Lemma bans_ID s id : bans s !! KeyID id = ids s !! id.
Proof.
  unfold bans. destruct (ids s !! id) as [r|] eqn:E.
  - apply lookup_union_Some_l. by rewrite (lookup_kmap KeyID).
  - apply lookup_union_None. rewrite (lookup_kmap KeyID). split; [done|].
    apply (lookup_kmap_None KeyNet). by intros ? [=].
Qed.
Lemma bans_Net s p : bans s !! KeyNet p = nets s !! p.
Proof.
  unfold bans. rewrite lookup_union_r; [by rewrite (lookup_kmap KeyNet)|].
  apply (lookup_kmap_None KeyID). by intros ? [=].
Qed.
Lemma bans_ext s b :
  (∀ id, ids s !! id = b !! KeyID id) → (∀ p, nets s !! p = b !! KeyNet p) → bans s = b.
Proof.
  intros H1 H2. apply map_eq. intros [id|p]; [by rewrite bans_ID|by rewrite bans_Net].
Qed.

(** the families do not overlap *)
Lemma root_keys w t q r : trie_ok w t → trie_map t !! q = Some r → network w q.
Proof.
  intros Ht Hq. apply (map_keys w t Ht [] q r); [|done].
  destruct t; [done|]. apply prefix_nil.
Qed.
Lemma family_none w w' t q : trie_ok w t → network w' q → w ≠ w' → trie_map t !! q = None.
Proof.
  intros Ht Hq Hne. destruct (trie_map t !! q) as [r|] eqn:E; [|done].
  pose proof (root_keys w t q r Ht E) as []. destruct Hq. congruence.
Qed.

Lemma canonical_family p : canonical p →
  if Is4 (PrefixAddr p) then network 32 p else network 128 p.
Proof.
  intros [Hn _]. pose proof (net_pos _ _ Hn). destruct (PrefixAddr p); cbn in *; (done || lia).
Qed.
End Set_.

Section Refinement.
Context `{Text} `{!LawfulText}.

(** A normalized record has a key, and its kind decides where it is kept. *)
Lemma Normalize_key r n : Normalize r = Ok n →
  Type_ (target n) = TargetBroadcastID ∧ key_of n = Some (KeyID (Value (target n))) ∨
  Type_ (target n) ≠ TargetBroadcastID ∧ Type_ (target n) = TargetIP ∧
    ∃ p, canonical p ∧ ParsePrefix (Value (target n)) = Ok p ∧ key_of n = Some (KeyNet p).
Proof.
  intros [(Ht & Hn & _)|(Ht & p & Hc & ->)]%Normalize_cases.
  - left. assert (Htn : Type_ (target n) = TargetBroadcastID) by (by rewrite Hn).
    split; [done|]. unfold key_of. by rewrite bool_decide_eq_true_2.
  - right. cbn [target with_value Type_ Value]. rewrite Ht. split; [done|]. split; [done|].
    exists p. split; [done|]. unfold key_of. cbn [target with_value Type_ Value]. rewrite Ht.
    rewrite bool_decide_eq_false_2 by done. by rewrite ParsePrefix_String.
Qed.

(** One update of the two maps is one update of the ban list. *)
Lemma bans_insert_ID s id n i4 i6 :
  nets (MkBanSet (ids s) i4 i6) = nets s →
  bans (MkBanSet (<[id := n]> (ids s)) i4 i6) = <[KeyID id := n]> (bans s).
Proof.
  intros Hn. apply bans_ext; [intros id'|intros q].
  - cbn [ids]. destruct (decide (id' = id)) as [->|]; [by rewrite !lookup_insert_eq|].
    rewrite !lookup_insert_ne by congruence. by rewrite bans_ID.
  - rewrite lookup_insert_ne, bans_Net by done. by rewrite <- Hn.
Qed.
Lemma bans_insert_Net s p n i4 i6 :
  nets (MkBanSet (ids s) i4 i6) = <[p := n]> (nets s) →
  bans (MkBanSet (ids s) i4 i6) = <[KeyNet p := n]> (bans s).
Proof.
  intros Hn. apply bans_ext; [intros id'|intros q]; [by rewrite lookup_insert_ne, bans_ID by done|].
  rewrite Hn. destruct (decide (q = p)) as [->|]; [by rewrite !lookup_insert_eq|].
  rewrite !lookup_insert_ne by congruence. by rewrite bans_Net.
Qed.
Lemma bans_delete_ID s id i4 i6 :
  nets (MkBanSet (ids s) i4 i6) = nets s →
  bans (MkBanSet (delete id (ids s)) i4 i6) = delete (KeyID id) (bans s).
Proof.
  intros Hn. apply bans_ext; [intros id'|intros q].
  - cbn [ids]. destruct (decide (id' = id)) as [->|]; [by rewrite !lookup_delete_eq|].
    rewrite !lookup_delete_ne by congruence. by rewrite bans_ID.
  - rewrite lookup_delete_ne, bans_Net by done. by rewrite <- Hn.
Qed.
Lemma bans_delete_Net s p i4 i6 :
  nets (MkBanSet (ids s) i4 i6) = delete p (nets s) →
  bans (MkBanSet (ids s) i4 i6) = delete (KeyNet p) (bans s).
Proof.
  intros Hn. apply bans_ext; [intros id'|intros q]; [by rewrite lookup_delete_ne, bans_ID by done|].
  rewrite Hn. destruct (decide (q = p)) as [->|]; [by rewrite !lookup_delete_eq|].
  rewrite !lookup_delete_ne by congruence. by rewrite bans_Net.
Qed.

Lemma store_ok s r n : set_ok s → Normalize r = Ok n →
  ∃ s' k, store s n = Ok s' ∧ key_of n = Some k ∧ set_ok s' ∧ bans s' = <[k := n]> (bans s).
Proof.
  intros [H4 H6] [[Ht Hk]|(Hid & Ht & p & Hc & Hp & Hk)]%Normalize_key; unfold store.
  { rewrite bool_decide_eq_true_2 by done. eexists _, _.
    split; [done|]. split; [done|]. split; [done|]. by apply bans_insert_ID. }
  rewrite bool_decide_eq_false_2, bool_decide_eq_true_2, Hp by done. cbn [mbind outcome_bind].
  pose proof (canonical_family p Hc) as Hn. destruct (Is4 (PrefixAddr p)).
  - destruct (trieInsert_ok 32 (root4 s) p n H4 Hn) as (t & -> & Ht4 & _ & Hm & _).
    cbn [mbind outcome_bind]. eexists _, _. split; [done|]. split; [done|]. split; [done|].
    apply bans_insert_Net. unfold nets. cbn [root4 root6]. by rewrite Hm, insert_union_l.
  - destruct (trieInsert_ok 128 (root6 s) p n H6 Hn) as (t & -> & Ht6 & _ & Hm & _).
    cbn [mbind outcome_bind]. eexists _, _. split; [done|]. split; [done|]. split; [done|].
    apply bans_insert_Net. unfold nets. cbn [root4 root6].
    by rewrite Hm, insert_union_r by by apply (family_none 32 128).
Qed.

Lemma Remove_ok s t n : set_ok s → Normalize (MkBanRecord t None [] []) = Ok n →
  ∃ s' k, Remove (Some s) t = Ok (Some s') ∧ key_of n = Some k ∧ set_ok s' ∧
    bans s' = delete k (bans s).
Proof.
  intros [H4 H6] Hnorm. unfold Remove. rewrite Hnorm. cbn [mbind outcome_bind].
  destruct (Normalize_key _ n Hnorm) as [[Ht Hk]|(Hid & Ht & p & Hc & Hp & Hk)].
  { rewrite bool_decide_eq_true_2 by done. eexists _, _.
    split; [done|]. split; [done|]. split; [done|]. by apply bans_delete_ID. }
  rewrite bool_decide_eq_false_2, bool_decide_eq_true_2, Hp by done. cbn [mbind outcome_bind].
  pose proof (canonical_family p Hc) as Hn. destruct (Is4 (PrefixAddr p)).
  - destruct (trieDelete_ok 32 (root4 s) p H4 Hn) as (t' & -> & Ht4 & Hm & _).
    cbn [mbind outcome_bind]. eexists _, _. split; [done|]. split; [done|]. split; [done|].
    apply bans_delete_Net. unfold nets. cbn [root4 root6].
    by rewrite delete_union, Hm, (delete_id (trie_map (root6 s))) by by apply (family_none 128 32).
  - destruct (trieDelete_ok 128 (root6 s) p H6 Hn) as (t' & -> & Ht6 & Hm & _).
    cbn [mbind outcome_bind]. eexists _, _. split; [done|]. split; [done|]. split; [done|].
    apply bans_delete_Net. unfold nets. cbn [root4 root6].
    by rewrite delete_union, Hm, (delete_id (trie_map (root4 s))) by by apply (family_none 32 128).
Qed.

(** A rejected record changes nothing. *)
Lemma spec_upsert_step s r : set_ok s →
  ∃ s', set_ok s' ∧ bans s' = spec_upsert r (bans s) ∧
    ∀ all, Replace_loop (r :: all) s = Replace_loop all s'.
Proof.
  intros Hs. unfold spec_upsert. cbn [Replace_loop].
  destruct (Normalize r) as [n|e|] eqn:Hn; [|by exists s|by apply Normalize_nofault in Hn].
  destruct (store_ok s r n Hs Hn) as (s' & k & -> & -> & Hs' & Hb). by exists s'.
Qed.

Lemma Replace_loop_ok all : ∀ s, set_ok s →
  ∃ s', Replace_loop all s = Ok s' ∧ set_ok s' ∧
    bans s' = fold_left (λ b r, spec_upsert r b) all (bans s).
Proof.
  induction all as [|r all IH]; intros s Hs; [by exists s|].
  destruct (spec_upsert_step s r Hs) as (s1 & Hs1 & Hb1 & ->).
  destruct (IH s1 Hs1) as (s' & -> & Hs' & Hb). exists s'. split; [done|]. split; [done|].
  rewrite Hb, Hb1. done.
Qed.

(** The lookup over the trie of the address's family is the lookup over all
    networks. *)
Lemma longest_match_family s ip now out : set_ok s →
  host (BitLen ip) ip →
  longest_match (trie_map (if Is4 ip then root4 s else root6 s)) ip now out →
  longest_match (nets s) ip now out.
Proof.
  intros [H4 H6] Hip.
  assert (Hiff : ∀ p r, matching (nets s) ip now p r ↔
    matching (trie_map (if Is4 ip then root4 s else root6 s)) ip now p r).
  { assert (Hfam : ∀ w t p r, trie_ok w t → trie_map t !! p = Some r → Contains p ip = true →
      BitLen ip = w).
    { intros w t p r Ht Hp Hc. pose proof (root_keys w t p r Ht Hp) as Hn.
      pose proof (net_width _ _ Hn) as Hw. pose proof (host_pos _ _ Hip) as Hpos.
      unfold Contains in Hc. rewrite Hw in Hc. revert Hc. case_match; [done|].
      case_match eqn:E; [done|]. intros _. apply orb_false_iff in E as [_ E].
      apply negb_false_iff, Z.eqb_eq in E. done. }
    pose proof (host_pos _ _ Hip) as Hpos.
    intros p r. unfold matching, nets. split; intros (Hl & Ha & Hc); split; try done.
    - apply lookup_union_Some_raw in Hl as [Hl|[_ Hl]].
      + pose proof (Hfam _ _ _ _ H4 Hl Hc). by destruct ip.
      + pose proof (Hfam _ _ _ _ H6 Hl Hc). by destruct ip.
    - destruct (Is4 ip) eqn:E; [by apply lookup_union_Some_l|].
      rewrite lookup_union_r; [done|]. apply (family_none 32 128); [done| |done].
      by apply (root_keys 128 (root6 s) p r). }
  destruct out as [r|]; cbn.
  - intros (p & Hm & Hmax). exists p. split; [by apply Hiff|].
    intros q r' Hq%Hiff. by apply (Hmax q r').
  - intros Hnone q r Hq%Hiff. by apply (Hnone q r).
Qed.

Lemma BannedIP_ok s ip now : set_ok s → IsValid ip = true → addr_ok ip →
  ∃ out, BannedIP (Some s) ip now = Ok out ∧ longest_match (nets s) (CanonicalAddr ip) now out.
Proof.
  intros Hs Hv Hok. unfold BannedIP. rewrite Hv. cbn [negb].
  destruct (CanonicalAddr_host ip Hv Hok) as [Hh _]. set (a := CanonicalAddr ip) in *.
  assert (Hr : trie_ok (BitLen a) (if Is4 a then root4 s else root6 s)).
  { pose proof (host_pos _ _ Hh). destruct Hs. destruct a; cbn in *; (done || lia). }
  destruct (trieLookup_ok _ _ a now Hr Hh) as (out & Ho & Hm).
  exists out. split; [done|]. by apply longest_match_family.
Qed.

Lemma count_active_filter now rs : ∀ acc,
  fold_left (λ n r, if Active r now then n + 1 else n) rs acc =
  acc + zlen (filter (λ r, Active r now = true) rs).
Proof.
  induction rs as [|r rs IH]; intros acc; cbn [fold_left]; [cbn; unfold zlen; cbn; lia|].
  rewrite IH, filter_cons. destruct (Active r now).
  - rewrite decide_True, zlen_cons by done. lia.
  - rewrite decide_False by done. lia.
Qed.

End Refinement.

(** ** Properties *)

(** [Upsert] is an update of the abstract ban list at the target's
    canonical key: a valid record replaces the record of its target, however
    the target was spelled, and touches no other; an invalid one is refused
    and changes nothing. *)
Theorem Upsert_refines `{Text} `{!LawfulText} s r :
  set_ok s →
  match Normalize r with
  | Ok n => ∃ s' k, Upsert (Some s) r = Ok (Some s') ∧ key_of n = Some k ∧ set_ok s' ∧
              bans s' = <[k := n]> (bans s)
  | Err e => Upsert (Some s) r = Err e
  | Fault => False
  end.
Proof.
  intros Hs. unfold Upsert. destruct (Normalize r) as [n|e|] eqn:Hn.
  - destruct (store_ok s r n Hs Hn) as (s' & k & Hst & Hk & Hs' & Hb).
    exists s', k. cbn [mbind outcome_bind]. by rewrite Hst.
  - done.
  - by apply Normalize_nofault in Hn.
Qed.

(** [Remove] deletes exactly the target's key from the abstract ban list,
    and is a no-op when it is absent. *)
Theorem Remove_refines `{Text} `{!LawfulText} s t :
  set_ok s →
  match Normalize (MkBanRecord t None [] []) with
  | Ok n => ∃ s' k, Remove (Some s) t = Ok (Some s') ∧ key_of n = Some k ∧ set_ok s' ∧
              bans s' = delete k (bans s)
  | Err e => Remove (Some s) t = Err e
  | Fault => False
  end.
Proof.
  intros Hs. destruct (Normalize (MkBanRecord t None [] [])) as [n|e|] eqn:Hn.
  - by apply Remove_ok.
  - unfold Remove. by rewrite Hn.
  - by apply Normalize_nofault in Hn.
Qed.

(** [Replace] builds, from nothing, the list its records give one by one:
    later records win, invalid ones are skipped, the old contents are gone. *)
Theorem Replace_refines `{Text} `{!LawfulText} s all :
  ∃ s', Replace (Some s) all = Ok (Some s') ∧ set_ok s' ∧
    bans s' = fold_left (λ b r, spec_upsert r b) all ∅.
Proof.
  destruct (Replace_loop_ok all NewSet NewSet_ok) as (s' & Hl & Hs' & Hb).
  exists s'. unfold Replace. rewrite Hl. rewrite bans_NewSet in Hb. by split.
Qed.

(** The publish-path check: an address is answered with the most specific
    unexpired banned network that contains its canonical form (v4-mapped
    addresses as IPv4), over both families; an ID with its own unexpired
    record; a nil set bans nothing. *)
Theorem Banned_spec `{Text} s ip id now :
  set_ok s → IsValid ip = true → addr_ok ip →
  (∃ out, BannedIP (Some s) ip now = Ok out ∧ longest_match (nets s) (CanonicalAddr ip) now out) ∧
  BannedID (Some s) id now =
    (match bans s !! KeyID id with
     | Some r => if Active r now then Some r else None
     | None => None
     end) ∧
  BannedIP None ip now = Ok None ∧ BannedID None id now = None.
Proof.
  intros Hs Hv Hok. split; [by apply BannedIP_ok|]. split; [|done].
  unfold BannedID. rewrite bans_ID. destruct (ids s !! id) as [r|]; [|done].
  by destruct (Active r now).
Qed.

(** C18. Enforcement end to end: once a network is banned, every address in it
    is refused until the ban expires, however the operator wrote the network
    and whatever else is on the list; after [Remove] of the target that record
    is never the answer again. *)
Theorem ban_enforced `{Text} `{!LawfulText} s r n p ip now :
  set_ok s → Normalize r = Ok n → key_of n = Some (KeyNet p) →
  IsValid ip = true → addr_ok ip → Contains p (CanonicalAddr ip) = true →
  ∃ s1 s2,
    Upsert (Some s) r = Ok (Some s1) ∧ Remove (Some s1) (target n) = Ok (Some s2) ∧
    (Active r now = true →
       ∃ hit q, BannedIP (Some s1) ip now = Ok (Some hit) ∧ bans s1 !! KeyNet q = Some hit ∧
         Active hit now = true ∧ Contains q (CanonicalAddr ip) = true ∧ Bits p ≤ Bits q) ∧
    bans s2 !! KeyNet p = None.
Proof.
  intros Hs Hn Hk Hv Hok Hc. pose proof (Normalize_fixed r n Hn) as Hfix.
  destruct (store_ok s r n Hs Hn) as (s1 & k & Hst & Hk1 & Hs1 & Hb1).
  assert (k = KeyNet p) as -> by congruence.
  assert (Htn : ∃ n', Normalize (MkBanRecord (target n) None [] []) = Ok n' ∧ target n' = target n).
  { by apply Normalize_target. }
  destruct Htn as (n' & Hn' & Ht').
  destruct (Remove_ok s1 (target n) n' Hs1 Hn') as (s2 & k2 & Hr & Hk2 & Hs2 & Hb2).
  assert (k2 = KeyNet p) as ->.
  { unfold key_of in Hk, Hk2. rewrite Ht' in Hk2. congruence. }
  exists s1, s2. unfold Upsert. rewrite Hn. cbn [mbind outcome_bind]. rewrite Hst.
  split; [done|]. split; [done|]. split; [|by rewrite Hb2, lookup_delete_eq].
  intros Ha. destruct (BannedIP_ok s1 ip now Hs1 Hv Hok) as (out & Ho & Hm).
  assert (Hmatch : matching (nets s1) (CanonicalAddr ip) now p n).
  { split; [by rewrite <- bans_Net, Hb1, lookup_insert_eq|]. split; [|done].
    destruct (Normalize_cases r n Hn) as [(_ & -> & _)|(_ & q & _ & ->)]; exact Ha. }
  destruct out as [hit|]; [|by apply Hm in Hmatch].
  destruct Hm as (q & (Hq & Hqa & Hqc) & Hmax). exists hit, q. rewrite bans_Net.
  split; [done|]. split; [done|]. split; [done|]. split; [done|]. by apply (Hmax p n).
Qed.

(** The gauge counts the unexpired bans of each kind once each. *)
Theorem ActiveCounts_spec s now :
  set_ok s →
  ActiveCounts (Some s) now !! TargetBroadcastID =
    Some (zlen (filter (λ r, Active r now = true) (map_to_list (ids s)).*2)) ∧
  ActiveCounts (Some s) now !! TargetIP =
    Some (zlen (filter (λ r, Active r now = true) (map_to_list (nets s)).*2)).
Proof.
  intros [H4 H6]. unfold ActiveCounts, count_active. rewrite !count_active_filter, !Z.add_0_l.
  split; [by rewrite lookup_insert_eq|].
  rewrite lookup_insert_ne, lookup_insert_eq by done. f_equal. unfold nets, zlen. f_equal.
  apply Permutation_length. rewrite union_to_list.
  - rewrite fmap_app. by rewrite (trieWalk_map 32 _ H4), (trieWalk_map 128 _ H6).
  - apply map_disjoint_spec. intros q x y Hx Hy.
    pose proof (root_keys _ _ _ _ H6 Hy) as Hq. rewrite (family_none 32 128 _ q H4 Hq) in Hx; done.
Qed.

(** *** Witnesses *)

(** "4/", 100.0.0.0, "/8" in the raw text form *)
Definition demo_ban (e : option Z) : BanRecord :=
  MkBanRecord (MkTarget TargetIP (raw_String (MkPrefix (Addr4 0x64000000) 8))) e [1] [2].

Lemma Upsert_refines_witness :
  ∃ s', @Upsert raw_text (Some NewSet) (demo_ban None) = Ok (Some s') ∧ set_ok s'.
Proof.
  pose proof (@Upsert_refines raw_text raw_lawful NewSet (demo_ban None) NewSet_ok) as Hu.
  assert (Hn : @Normalize raw_text (demo_ban None) = Ok (demo_ban None)) by (vm_compute; reflexivity).
  rewrite Hn in Hu. destruct Hu as (s' & k & H1 & _ & H3 & _). exists s'. split; [exact H1|exact H3].
Defined.
Lemma Remove_refines_witness :
  ∃ s', @Remove raw_text (Some NewSet) (target (demo_ban None)) = Ok (Some s') ∧ set_ok s'.
Proof.
  pose proof (@Remove_refines raw_text raw_lawful NewSet (target (demo_ban None)) NewSet_ok) as Hu.
  assert (Hn : ∃ n, @Normalize raw_text (MkBanRecord (target (demo_ban None)) None [] []) = Ok n)
    by (eexists; vm_compute; reflexivity).
  destruct Hn as [n Hn]. rewrite Hn in Hu. destruct Hu as (s' & k & H1 & _ & H3 & _).
  exists s'. split; [exact H1|exact H3].
Defined.
Lemma Replace_refines_witness :
  ∃ s', @Replace raw_text (Some NewSet) [demo_ban None; demo_ban (Some 5)] = Ok (Some s') ∧ set_ok s'.
Proof.
  destruct (@Replace_refines raw_text raw_lawful NewSet [demo_ban None; demo_ban (Some 5)])
    as (s' & H1 & H2 & _). exists s'. split; [exact H1|exact H2].
Defined.
Lemma Banned_spec_witness : BannedID (Some NewSet) [65] 0 = None.
Proof.
  destruct (@Banned_spec raw_text NewSet (Addr4 1) [65] 0 NewSet_ok eq_refl) as (_ & H & _).
  - unfold addr_ok. cbn [addr_val BitLen]. lia.
  - rewrite H. reflexivity.
Defined.
Lemma ban_enforced_witness :
  ∃ s1 hit, @Upsert raw_text (Some NewSet) (demo_ban (Some 100)) = Ok (Some s1) ∧
    BannedIP (Some s1) (Addr6 0xFFFF64010203 []) 99 = Ok (Some hit).
Proof.
  destruct (@ban_enforced raw_text raw_lawful NewSet (demo_ban (Some 100)) (demo_ban (Some 100))
    (MkPrefix (Addr4 0x64000000) 8) (Addr6 0xFFFF64010203 []) 99 NewSet_ok)
    as (s1 & s2 & H1 & _ & H2 & _).
  - vm_compute. reflexivity.
  - vm_compute. reflexivity.
  - reflexivity.
  - unfold addr_ok. cbn [addr_val BitLen]. lia.
  - vm_compute. reflexivity.
  - destruct (H2 eq_refl) as (hit & q & H3 & _). exists s1, hit. split; [exact H1|exact H3].
Defined.
Lemma ActiveCounts_spec_witness : ActiveCounts (Some NewSet) 7 !! TargetIP = Some 0.
Proof. exact (proj2 (ActiveCounts_spec NewSet 7 NewSet_ok)). Defined.
