(* ===== verification/Dvr.v ===== *)
(** internal/hub/dvr.go: the per-broadcast DVR ring and its cursors, against
    the unbounded history of everything appended. *)
From S2P Require Export GoStrings WireControl.
#[local] Open Scope Z_scope.

(** ** State *)

(** Instants and durations are nanoseconds. *)
Record dvrGop := MkGop {
  seq_ : Z;
  at_ : Z;
  keyframe : bytes;
  records : list bytes;
  gbytes : Z;
  complete : bool;
}.
Record DVRCursor := MkCursor { gopSeq : Z; recordIdx : Z }.

(** [wake] numbers the wake channels: the ring holds the open channel [wake],
    every channel with a smaller number is closed. *)
Record DVRRing := MkRing {
  Window : Z;
  MaxBytes : Z;
  gops : list dvrGop;
  nextSeq : Z;
  rbytes : Z;
  wake : Z;
}.
#[export] Instance dvrGop_inhabited : Inhabited dvrGop :=
  populate (MkGop 0 0 [] [] 0 false).

(** ** Cursors *)

Definition AtFirstRecord (c : DVRCursor) : DVRCursor :=
  if recordIdx c <? 0 then MkCursor (gopSeq c) 0 else c.
Definition Next (c : DVRCursor) : DVRCursor := MkCursor (gopSeq c) (recordIdx c + 1).
Definition NeedsKeyframe (c : DVRCursor) : bool := recordIdx c <? 0.

(** ** The ring *)

Definition NewDVRRing (window maxBytes : Z) : DVRRing := MkRing window maxBytes [] 0 0 0.

(** the channel [Wait] returns, and whether it is closed *)
Definition Wait (r : DVRRing) : Z := wake r.
Definition closed_chan (r : DVRRing) (ch : Z) : bool := ch <? wake r.
Definition wakeLocked (r : DVRRing) : DVRRing :=
  MkRing (Window r) (MaxBytes r) (gops r) (nextSeq r) (rbytes r) (wake r + 1).

(** [dropOldestLocked]; both eviction loops stop before the last GOP *)
Definition dropOldestLocked (r : DVRRing) : DVRRing :=
  match gops r with
  | [] => r
  | g :: rest =>
      MkRing (Window r) (MaxBytes r) rest (nextSeq r) (rbytes r - gbytes g) (wake r)
  end.

(** The loops [for cond { dropOldestLocked() }]: every round drops a GOP, so
    the number of GOPs is fuel enough. *)
Fixpoint drop_while (cond : DVRRing → bool) (fuel : nat) (r : DVRRing) : DVRRing :=
  match fuel with
  | O => r
  | S fuel' => if cond r then drop_while cond fuel' (dropOldestLocked r) else r
  end.
Definition oldest_at (r : DVRRing) : Z := match gops r with g :: _ => at_ g | [] => 0 end.

Definition too_old (now : Z) (r : DVRRing) : bool :=
  (zlen (gops r) >? 1) && (now - oldest_at r >? Window r).
Definition too_big (r : DVRRing) : bool :=
  (zlen (gops r) >? 1) && (MaxBytes r >? 0) && (rbytes r >? MaxBytes r).
Definition evictLocked (now : Z) (r : DVRRing) : DVRRing :=
  let r := drop_while (too_old now) (length (gops r)) r in
  drop_while too_big (length (gops r)) r.

(** [f] applied to the newest GOP *)
Definition on_newest (f : dvrGop → dvrGop) (l : list dvrGop) : list dvrGop :=
  alter f (pred (length l)) l.

Definition set_complete (g : dvrGop) : dvrGop :=
  MkGop (seq_ g) (at_ g) (keyframe g) (records g) (gbytes g) true.
Definition add_record (rec : bytes) (g : dvrGop) : dvrGop :=
  MkGop (seq_ g) (at_ g) (keyframe g) (records g ++ [rec]) (gbytes g + zlen rec) (complete g).

Definition AppendKeyframe (r : DVRRing) (msg : bytes) (at0 : Z) : DVRRing :=
  let gs := if zlen (gops r) >? 0 then on_newest set_complete (gops r) else gops r in
  let g := MkGop (nextSeq r) at0 msg [] (zlen msg) false in
  let r := MkRing (Window r) (MaxBytes r) (gs ++ [g]) (nextSeq r + 1) (rbytes r + gbytes g)
                  (wake r) in
  wakeLocked (evictLocked at0 r).

Definition AppendRecord (r : DVRRing) (rec : bytes) (at0 : Z) : DVRRing :=
  if zlen (gops r) =? 0 then r else
  let gs := on_newest (add_record rec) (gops r) in
  let r := MkRing (Window r) (MaxBytes r) gs (nextSeq r) (rbytes r + zlen rec) (wake r) in
  wakeLocked (evictLocked at0 r).

Definition newestCursorLocked (r : DVRRing) : DVRCursor :=
  match last (gops r) with
  | None => MkCursor (nextSeq r) (-1)
  | Some g => MkCursor (seq_ g) (-1)
  end.
Definition NewCursor := newestCursorLocked.
Definition ResyncCursor := NewCursor.

Fixpoint findLocked (l : list dvrGop) (sq : Z) : option dvrGop :=
  match l with
  | [] => None
  | g :: l' => if seq_ g =? sq then Some g else findLocked l' sq
  end.

Definition Keyframe (r : DVRRing) (c : DVRCursor) : option bytes :=
  match findLocked (gops r) (gopSeq c) with None => None | Some g => Some (keyframe g) end.

Definition Record_ (r : DVRRing) (c : DVRCursor) : option bytes :=
  match findLocked (gops r) (gopSeq c) with
  | None => None
  | Some g =>
      if (recordIdx c <? 0) || (recordIdx c >=? zlen (records g)) then None
      else Some (records g !!! Z.to_nat (recordIdx c))
  end.

Definition GopComplete (r : DVRRing) (c : DVRCursor) : bool :=
  match findLocked (gops r) (gopSeq c) with None => false | Some g => complete g end.

Fixpoint next_gop (l : list dvrGop) (c : DVRCursor) : DVRCursor * bool :=
  match l with
  | [] => (c, false)
  | g :: l' => if seq_ g >? gopSeq c then (MkCursor (seq_ g) (-1), true) else next_gop l' c
  end.
Definition NextGop (r : DVRRing) (c : DVRCursor) : DVRCursor * bool := next_gop (gops r) c.

Definition FellOffTail (r : DVRRing) (c : DVRCursor) : bool :=
  match gops r with [] => false | g :: _ => gopSeq c <? seq_ g end.

Definition LagMs (r : DVRRing) (c : DVRCursor) : Z :=
  match findLocked (gops r) (gopSeq c), last (gops r) with
  | Some g, Some newest => Z.quot (at_ newest - at_ g) 1000000
  | _, _ => 0
  end.

Definition OldestGopSeq (r : DVRRing) : Z :=
  match gops r with [] => nextSeq r | g :: _ => seq_ g end.

(** [None] is the zero [time.Time] *)
Definition GopAt (r : DVRRing) (c : DVRCursor) : option Z :=
  match findLocked (gops r) (gopSeq c) with
  | Some g => Some (at_ g)
  | None => match last (gops r) with Some g => Some (at_ g) | None => None end
  end.

Definition Bytes (r : DVRRing) : Z := rbytes r.
Definition Gops (r : DVRRing) : Z := zlen (gops r).

Definition EvictTo (r : DVRRing) (sq : Z) : DVRRing :=
  drop_while (λ r, (zlen (gops r) >? 0) && (match gops r with g :: _ => seq_ g <? sq | [] => false end))
    (length (gops r)) r.

(** [dvrFellBehind] of a subscriber with declared buffer [bufferMs] *)
Definition dvrFellBehind (r : DVRRing) (c : DVRCursor) (bufferMs : Z) : bool :=
  if FellOffTail r c then true
  else let lag := LagMs r c in (bufferMs >? 0) && (lag >? bufferMs).

(** ** Negotiation *)

Definition DefaultDVRWindow := 3 * 10 ^ 9.
Definition MinDVRBufferMs := 1000.

Definition NegotiateDelivery (reliable : bool) (raw : bytes) (window : Z) : Z * Z :=
  if negb reliable then (DeliveryAck.DeliveryDatagrams, 0) else
  match Atoi (TrimSpace raw) with
  | None => (DeliveryAck.DeliveryReliable, 0)
  | Some ms =>
      if ms <=? 0 then (DeliveryAck.DeliveryReliable, 0)
      else if ms <? MinDVRBufferMs then (DeliveryAck.DeliveryReliable, 0)
      else
        let window := if window <=? 0 then DefaultDVRWindow else window in
        let max := Z.quot window 1000000 in
        let ms := if ms >? max then max else ms in
        if ms <? MinDVRBufferMs then (DeliveryAck.DeliveryReliable, 0)
        else (DeliveryAck.DeliveryDVR, ms)
  end.

(** ** The history

    Everything appended, with no bound: what the ring would hold if it never
    evicted. The ring is a non-empty suffix of it. *)
Definition gop_size (g : dvrGop) : Z :=
  zlen (keyframe g) + fold_right (λ rec n, zlen rec + n) 0 (records g).
Definition total_bytes (l : list dvrGop) : Z := fold_right (λ g n, gbytes g + n) 0 l.

Definition hist_keyframe (H : list dvrGop) (msg : bytes) (at0 : Z) : list dvrGop :=
  on_newest set_complete H ++ [MkGop (zlen H) at0 msg [] (zlen msg) false].
Definition hist_record (H : list dvrGop) (rec : bytes) : list dvrGop :=
  on_newest (add_record rec) H.

Definition hist_ok (H : list dvrGop) : Prop :=
  ∀ i g, H !! i = Some g →
    seq_ g = Z.of_nat i ∧ gbytes g = gop_size g ∧ complete g = (Z.of_nat i + 1 <? zlen H).

Record ring_ok (r : DVRRing) (H : list dvrGop) : Prop := {
  ring_hist : hist_ok H;
  ring_suffix : ∃ k, gops r = drop k H ∧ (H = [] ∨ (k < length H)%nat);
  ring_next : nextSeq r = zlen H;
  ring_bytes : rbytes r = total_bytes (gops r);
}.

(** The stream of a history from a cursor on: what a viewer at the cursor is
    still owed. *)
Inductive item := Key (msg : bytes) | Rec (rec : bytes).
Definition gop_items (g : dvrGop) : list item := Key (keyframe g) :: map Rec (records g).
Definition owed (H : list dvrGop) (c : DVRCursor) : list item :=
  match drop (Z.to_nat (gopSeq c)) H with
  | [] => []
  | g :: rest =>
      (if recordIdx c <? 0 then gop_items g
       else drop (Z.to_nat (recordIdx c)) (map Rec (records g)))
      ++ concat (map gop_items rest)
  end.

(** a cursor the ring hands out, or one derived from it by reading *)
Definition cursor_ok (H : list dvrGop) (c : DVRCursor) : Prop :=
  0 ≤ gopSeq c ∧
  ((∃ g, H !! Z.to_nat (gopSeq c) = Some g ∧ recordIdx c ≤ zlen (records g)) ∨
   (H = [] ∧ gopSeq c = 0 ∧ recordIdx c < 0)).

(** ** Lemmas: the newest GOP *)

Lemma on_newest_snoc f l g : on_newest f (l ++ [g]) = l ++ [f g].
Proof.
  unfold on_newest. rewrite length_app. cbn [length]. rewrite Nat.add_1_r. cbn [pred].
  rewrite alter_app_r_alt by lia. by rewrite Nat.sub_diag.
Qed.
Lemma on_newest_length f l : length (on_newest f l) = length l.
Proof. apply length_alter. Qed.

Lemma drop_snoc {A} k (l : list A) x : (k ≤ length l)%nat → drop k (l ++ [x]) = drop k l ++ [x].
Proof. intros. rewrite drop_app_le by lia. done. Qed.

Lemma on_newest_drop f k l : (k < length l)%nat → on_newest f (drop k l) = drop k (on_newest f l).
Proof.
  intros Hk. destruct l as [|g l _] using rev_ind; [cbn in Hk; lia|].
  rewrite length_app in Hk. cbn in Hk.
  rewrite drop_snoc, !on_newest_snoc, drop_snoc by lia. done.
Qed.

(** ** Lemmas: eviction *)

Lemma drop_while_inv (P : DVRRing → Prop) cond n : ∀ r,
  (∀ r, P r → cond r = true → P (dropOldestLocked r)) → P r → P (drop_while cond n r).
Proof.
  induction n as [|n IH]; intros r Hstep Hr; cbn [drop_while]; [done|].
  destruct (cond r) eqn:Hc; [|done]. apply IH; [done|]. by apply Hstep.
Qed.

Lemma dropOldest_length r : (length (gops (dropOldestLocked r)) = pred (length (gops r)))%nat.
Proof. unfold dropOldestLocked. destruct (gops r) as [|g l] eqn:E; cbn; by rewrite ?E. Qed.

(** The fuel is enough: the loop ends because its condition is false. *)
Lemma drop_while_done cond n : ∀ r,
  (∀ r, cond r = true → gops r ≠ []) → (length (gops r) ≤ n)%nat →
  cond (drop_while cond n r) = false.
Proof.
  induction n as [|n IH]; intros r Hne Hn; cbn [drop_while].
  - destruct (cond r) eqn:Hc; [|done]. apply Hne in Hc. destruct (gops r); [done|cbn in Hn; lia].
  - destruct (cond r) eqn:Hc; [|done]. apply IH; [done|]. rewrite dropOldest_length. lia.
Qed.

Lemma cond_nonempty r b : (zlen (gops r) >? 1) && b = true → gops r ≠ [].
Proof. intros [H _]%andb_true_iff E. by rewrite E in H. Qed.

(** The parts eviction leaves alone. *)
Lemma evict_frame (now : Z) r :
  Window (evictLocked now r) = Window r ∧ MaxBytes (evictLocked now r) = MaxBytes r ∧
  nextSeq (evictLocked now r) = nextSeq r ∧ wake (evictLocked now r) = wake r.
Proof.
  set (P r' := Window r' = Window r ∧ MaxBytes r' = MaxBytes r ∧ nextSeq r' = nextSeq r ∧
    wake r' = wake r).
  assert (Hs : ∀ cond r', P r' → cond r' = true → P (dropOldestLocked r')).
  { intros cond r' HP _. unfold dropOldestLocked. by destruct (gops r'). }
  unfold evictLocked. apply (drop_while_inv P); [apply Hs|].
  apply (drop_while_inv P); [apply Hs|]. done.
Qed.

(** Dropping the oldest of several GOPs keeps a non-empty suffix. *)
Lemma dropOldest_ok r H :
  ring_ok r H → (1 < length (gops r))%nat → ring_ok (dropOldestLocked r) H.
Proof.
  intros [Hh (k & Hk & Hlt) Hn Hb] Hlen. unfold dropOldestLocked.
  rewrite Hk in *. destruct (drop k H) as [|g rest] eqn:Hd; [cbn in Hlen; lia|].
  assert (Hlk : (1 < length H - k)%nat) by (rewrite <- length_drop, Hd; done).
  split; cbn [gops nextSeq rbytes]; [done| |done|].
  - exists (S k). split; [|right; lia]. replace (S k) with (k + 1)%nat by lia.
    by rewrite <- drop_drop, Hd.
  - rewrite Hb. cbn [total_bytes fold_right]. fold (total_bytes rest). lia.
Qed.

Lemma evict_ok now r H : ring_ok r H → ring_ok (evictLocked now r) H.
Proof.
  intros Hr. assert (Hs : ∀ (b : DVRRing → bool) r', ring_ok r' H →
    (zlen (gops r') >? 1) && b r' = true → ring_ok (dropOldestLocked r') H).
  { intros b r' Hr' [Hz _]%andb_true_iff. apply dropOldest_ok; [done|]. unfold zlen in Hz. lia. }
  unfold evictLocked. apply (drop_while_inv (λ r, ring_ok r H)).
  - intros r' Hr' Hc. unfold too_big in Hc. rewrite <- andb_assoc in Hc.
    by apply (Hs (λ r', (MaxBytes r' >? 0) && (rbytes r' >? MaxBytes r'))).
  - apply (drop_while_inv (λ r, ring_ok r H)); [|done].
    intros r' Hr' Hc. unfold too_old in Hc. by apply (Hs (λ r', now - oldest_at r' >? Window r')).
Qed.

(** ** Lemmas: appends extend the history *)

Lemma on_newest_lookup f l i g : on_newest f l !! i = Some g →
  ∃ g0, l !! i = Some g0 ∧ g = if decide (S i = length l) then f g0 else g0.
Proof.
  unfold on_newest. intros Hg.
  assert (Hi : (i < length l)%nat) by (apply lookup_lt_Some in Hg; by rewrite length_alter in Hg).
  destruct (decide (i = pred (length l))) as [->|Hne].
  - rewrite list_lookup_alter_eq in Hg. apply fmap_Some in Hg as (g0 & Hg0 & ->).
    exists g0. split; [done|]. by rewrite decide_True by lia.
  - rewrite list_lookup_alter_ne in Hg by lia. exists g. split; [done|].
    by rewrite decide_False by lia.
Qed.

Lemma total_bytes_app l k : total_bytes (l ++ k) = total_bytes l + total_bytes k.
Proof.
  induction l as [|g l IH]; [done|].
  unfold total_bytes in *. cbn [app fold_right]. lia.
Qed.
Lemma total_bytes_newest f d l :
  (∀ g, gbytes (f g) = gbytes g + d) → l ≠ [] → total_bytes (on_newest f l) = total_bytes l + d.
Proof.
  intros Hf Hl. destruct l as [|g l _] using rev_ind; [done|].
  rewrite on_newest_snoc, !total_bytes_app. cbn. rewrite Hf. lia.
Qed.

Lemma fold_size_snoc l rec :
  fold_right (λ (rec : bytes) n, zlen rec + n) 0 (l ++ [rec]) =
  fold_right (λ rec n, zlen rec + n) 0 l + zlen rec.
Proof. induction l as [|r l IH]; cbn [app fold_right]; lia. Qed.

Lemma hist_keyframe_ok H msg at0 : hist_ok H → hist_ok (hist_keyframe H msg at0).
Proof.
  intros HH i g Hg. unfold hist_keyframe in *. rewrite zlen_app, zlen_cons.
  change (zlen []) with 0. unfold zlen at 1. rewrite on_newest_length. fold (zlen H).
  apply lookup_app_Some in Hg as [Hg|[Hi Hg]].
  - apply on_newest_lookup in Hg as (g0 & Hg0 & ->).
    destruct (HH i g0 Hg0) as (Hs & Hb & Hc). apply lookup_lt_Some in Hg0. unfold zlen in *.
    case_decide; (split; [done|]; split; [done|]); cbn [complete set_complete]; [lia|]. rewrite Hc. transitivity true; lia.
  - rewrite on_newest_length in *. apply list_lookup_singleton_Some in Hg as [Hi0 <-].
    cbn [seq_ gbytes complete]. unfold gop_size. cbn [keyframe records fold_right].
    unfold zlen in *. split; [lia|]. split; [lia|]. symmetry. apply Z.ltb_ge. lia.
Qed.

Lemma hist_record_ok H rec : hist_ok H → hist_ok (hist_record H rec).
Proof.
  intros HH i g Hg. unfold hist_record in *. unfold zlen. rewrite on_newest_length.
  apply on_newest_lookup in Hg as (g0 & Hg0 & ->).
  destruct (HH i g0 Hg0) as (Hs & Hb & Hc). case_decide; [|done].
  split; [done|]. split; [|done]. unfold gop_size in *. cbn [gbytes add_record keyframe records].
  rewrite fold_size_snoc. lia.
Qed.

Lemma wakeLocked_ok r H : ring_ok r H → ring_ok (wakeLocked r) H.
Proof. by intros []. Qed.

Lemma AppendKeyframe_ok r H msg at0 :
  ring_ok r H → ring_ok (AppendKeyframe r msg at0) (hist_keyframe H msg at0).
Proof.
  intros [Hh (k & Hk & Hlt) Hn Hb]. unfold AppendKeyframe.
  apply wakeLocked_ok, evict_ok.
  replace (if zlen (gops r) >? 0 then on_newest set_complete (gops r) else gops r)
    with (on_newest set_complete (gops r)) by (by destruct (gops r)).
  assert (Hkl : (k ≤ length H)%nat ∨ H = []) by (destruct Hlt; [by right|left; lia]).
  split; cbn [gops nextSeq rbytes].
  - by apply hist_keyframe_ok.
  - destruct Hlt as [->|Hlt].
    + exists 0%nat. rewrite Hk, drop_nil. unfold hist_keyframe. cbn. rewrite Hn.
      split; [done|]. right. lia.
    + exists k. unfold hist_keyframe. rewrite Hk, on_newest_drop, drop_snoc, Hn
        by (rewrite ?on_newest_length; lia).
      split; [done|]. right. rewrite length_app, on_newest_length. cbn. lia.
  - unfold hist_keyframe. rewrite zlen_app, Hn. unfold zlen. rewrite on_newest_length. done.
  - rewrite total_bytes_app. cbn [total_bytes fold_right gbytes]. fold (total_bytes (gops r)).
    destruct (decide (gops r = [])) as [E|E].
    + rewrite Hb, E. cbn. lia.
    + rewrite (total_bytes_newest _ 0) by (done || (intros; cbn [set_complete gbytes]; lia)). lia.
Qed.

Lemma AppendRecord_ok r H rec at0 :
  ring_ok r H → ring_ok (AppendRecord r rec at0) (hist_record H rec).
Proof.
  intros [Hh (k & Hk & Hlt) Hn Hb]. unfold AppendRecord. case_match eqn:E0.
  - assert (H = []) as ->.
    { destruct Hlt as [->|Hlt]; [done|]. exfalso. apply Z.eqb_eq in E0.
      unfold zlen in E0. rewrite Hk, length_drop in E0. lia. }
    cbn. by split; [| exists k | |].
  - assert (Hne : gops r ≠ []) by (intros E; by rewrite E in E0).
    assert (Hlt' : (k < length H)%nat) by (destruct Hlt as [->|?]; [by rewrite Hk, drop_nil in Hne|done]).
    apply wakeLocked_ok, evict_ok. split; cbn [gops nextSeq rbytes].
    + by apply hist_record_ok.
    + exists k. unfold hist_record. rewrite Hk, on_newest_drop by done. split; [done|].
      right. by rewrite on_newest_length.
    + unfold hist_record, zlen. rewrite on_newest_length. done.
    + rewrite (total_bytes_newest _ (zlen rec)) by done. lia.
Qed.

(** ** Lemmas: finding a GOP *)

(** sequence numbers counting up from [b] *)
Definition consecutive (b : Z) (l : list dvrGop) : Prop :=
  ∀ i g, l !! i = Some g → seq_ g = b + Z.of_nat i.

Lemma consecutive_cons b g l :
  consecutive b (g :: l) → seq_ g = b ∧ consecutive (b + 1) l.
Proof.
  intros Hc. split; [rewrite (Hc 0%nat g eq_refl); lia|].
  intros i g' Hg. rewrite (Hc (S i) g' Hg). lia.
Qed.

Lemma hist_drop_consecutive H k : hist_ok H → consecutive (Z.of_nat k) (drop k H).
Proof.
  intros HH i g Hg. rewrite lookup_drop in Hg. destruct (HH _ _ Hg) as [-> _]. lia.
Qed.

Lemma findLocked_spec l sq : ∀ b, consecutive b l →
  findLocked l sq = if b <=? sq then l !! Z.to_nat (sq - b) else None.
Proof.
  induction l as [|g l IH]; intros b Hc; cbn [findLocked]; [by destruct (b <=? sq)|].
  apply consecutive_cons in Hc as [-> Hc]. destruct (Z.eqb_spec b sq) as [->|Hne].
  - rewrite (proj2 (Z.leb_le _ _)) by lia. by rewrite Z.sub_diag.
  - rewrite (IH (b + 1) Hc). destruct (Z.leb_spec b sq).
    + rewrite (proj2 (Z.leb_le _ _)) by lia.
      by replace (Z.to_nat (sq - b)) with (S (Z.to_nat (sq - (b + 1)))) by lia.
    + by rewrite (proj2 (Z.leb_gt _ _)) by lia.
Qed.

Lemma next_gop_spec l c : ∀ b, consecutive b l →
  next_gop l c =
  let s := Z.max b (gopSeq c + 1) in
  if s <? b + zlen l then (MkCursor s (-1), true) else (c, false).
Proof.
  induction l as [|g l IH]; intros b Hc; cbn [next_gop]; cbn zeta.
  - replace (_ <? _) with false; [done|]. change (zlen []) with 0. lia.
  - apply consecutive_cons in Hc as [-> Hc]. rewrite zlen_cons. pose proof (zlen_nonneg l).
    destruct (Z.gtb_spec b (gopSeq c)).
    + rewrite Z.max_l by lia. by rewrite (proj2 (Z.ltb_lt _ _)) by lia.
    + rewrite (IH (b + 1) Hc). cbn zeta. rewrite !Z.max_r by lia.
      by replace (b + 1 + zlen l) with (b + (1 + zlen l)) by lia.
Qed.

(** The eviction frontier is the position of the ring's suffix. *)
Lemma ring_frontier r H : ring_ok r H → H ≠ [] →
  ∃ k, gops r = drop k H ∧ (k < length H)%nat ∧ OldestGopSeq r = Z.of_nat k.
Proof.
  intros [Hh (k & Hk & [?|Hlt]) Hn _] Hne; [done|]. exists k. split; [done|]. split; [done|].
  unfold OldestGopSeq. rewrite Hk. apply lookup_lt_is_Some in Hlt as [g Hg].
  rewrite (drop_S _ _ _ Hg). by destruct (Hh _ _ Hg) as [-> _].
Qed.

(** A GOP of the ring is the one of the history, from the eviction frontier
    on. *)
Lemma find_hist r H sq : ring_ok r H → H ≠ [] →
  findLocked (gops r) sq = if OldestGopSeq r <=? sq then H !! Z.to_nat sq else None.
Proof.
  intros Hr Hne. destruct (ring_frontier r H Hr Hne) as (k & -> & Hlt & ->).
  rewrite (findLocked_spec _ _ (Z.of_nat k)) by (apply hist_drop_consecutive; by destruct Hr).
  destruct (Z.leb_spec (Z.of_nat k) sq); [|done]. rewrite lookup_drop. f_equal. lia.
Qed.

Lemma find_some r H sq g : ring_ok r H → findLocked (gops r) sq = Some g →
  OldestGopSeq r ≤ sq ∧ 0 ≤ sq ∧ H !! Z.to_nat sq = Some g.
Proof.
  intros Hr Hf. assert (Hne : H ≠ []).
  { intros ->. destruct Hr as [_ (k & Hk & _) _ _]. by rewrite Hk, drop_nil in Hf. }
  rewrite (find_hist r H sq Hr Hne) in Hf. case_match eqn:Hle; [|done].
  destruct (ring_frontier r H Hr Hne) as (k & _ & _ & Ho). split; [lia|split; [lia|done]].
Qed.

(** ** Lemmas: reading and the owed stream *)

Lemma owed_at H c g : H !! Z.to_nat (gopSeq c) = Some g →
  owed H c = (if recordIdx c <? 0 then gop_items g
              else drop (Z.to_nat (recordIdx c)) (map Rec (records g)))
             ++ concat (map gop_items (drop (S (Z.to_nat (gopSeq c))) H)).
Proof. intros Hg. unfold owed. by rewrite (drop_S _ _ _ Hg). Qed.

Lemma Keyframe_owed r H c k : ring_ok r H → NeedsKeyframe c = true → Keyframe r c = Some k →
  owed H c = Key k :: owed H (AtFirstRecord c).
Proof.
  unfold NeedsKeyframe, Keyframe. intros Hr Hneed.
  destruct (findLocked _ _) as [g|] eqn:Hf; [|done]. intros [= <-].
  apply (find_some r H) in Hf as (_ & _ & Hg); [|done].
  assert (Hc : AtFirstRecord c = MkCursor (gopSeq c) 0)
    by (unfold AtFirstRecord; by rewrite Hneed).
  rewrite Hc, (owed_at H c g Hg), (owed_at H (MkCursor (gopSeq c) 0) g Hg), Hneed. done.
Qed.

Lemma Record_owed r H c rec : ring_ok r H → Record_ r c = Some rec →
  owed H c = Rec rec :: owed H (Next c).
Proof.
  unfold Record_. intros Hr.
  destruct (findLocked _ _) as [g|] eqn:Hf; [|done]. case_match eqn:E; [done|]. intros [= <-].
  apply (find_some r H) in Hf as (_ & _ & Hg); [|done].
  apply orb_false_iff in E as [E1 E2].
  rewrite (owed_at H c g Hg), (owed_at H (Next c) g Hg), E1. cbn [Next recordIdx gopSeq].
  replace (recordIdx c + 1 <? 0) with false by lia.
  assert (Hlt : (Z.to_nat (recordIdx c) < length (records g))%nat) by (unfold zlen in *; lia).
  apply list_lookup_lookup_total_lt in Hlt.
  rewrite (drop_S _ (Rec (records g !!! Z.to_nat (recordIdx c))))
    by (by rewrite list_lookup_fmap, Hlt).
  by replace (S (Z.to_nat (recordIdx c))) with (Z.to_nat (recordIdx c + 1)) by lia.
Qed.

Lemma NextGop_owed r H c c' : ring_ok r H →
  NeedsKeyframe c = false → Record_ r c = None → GopComplete r c = true →
  NextGop r c = (c', true) →
  c' = MkCursor (gopSeq c + 1) (-1) ∧ owed H c = owed H c'.
Proof.
  unfold NeedsKeyframe, Record_, GopComplete. intros Hr Hneed.
  destruct (findLocked _ _) as [g|] eqn:Hf; [|done].
  apply (find_some r H) in Hf as (Hold & H0 & Hg); [|done].
  rewrite Hneed. cbn [orb]. case_match eqn:Hi; [|done]. intros _ _ Hnext.
  assert (Hne : H ≠ []) by (intros ->; by rewrite lookup_nil in Hg).
  destruct (ring_frontier r H Hr Hne) as (k & Hk & Hlt & Ho). unfold NextGop in Hnext.
  rewrite Hk, (next_gop_spec _ _ (Z.of_nat k)) in Hnext
    by (apply hist_drop_consecutive; by destruct Hr). cbn zeta in Hnext.
  rewrite Z.max_r in Hnext by lia.
  destruct (Z.ltb_spec (gopSeq c + 1) (Z.of_nat k + zlen (drop k H))) as [Hb|]; [|done].
  injection Hnext as <-. split; [done|].
  unfold zlen in Hb. rewrite length_drop in Hb.
  assert (Hlt' : (S (Z.to_nat (gopSeq c)) < length H)%nat) by lia.
  apply lookup_lt_is_Some in Hlt' as [g' Hg'].
  rewrite (owed_at H c g Hg), Hneed.
  rewrite drop_ge by (rewrite length_map; unfold zlen in *; lia). cbn [app].
  rewrite (drop_S _ _ _ Hg'). unfold owed. cbn [gopSeq recordIdx].
  replace (Z.to_nat (gopSeq c + 1)) with (S (Z.to_nat (gopSeq c))) by lia.
  by rewrite (drop_S _ _ _ Hg').
Qed.

(** Appending extends what every cursor is owed, at its end. *)
Lemma owed_app H c k : (Z.to_nat (gopSeq c) < length H)%nat →
  owed (H ++ k) c = owed H c ++ concat (map gop_items k).
Proof.
  intros Hlt. unfold owed. rewrite drop_app_le by lia.
  destruct (drop (Z.to_nat (gopSeq c)) H) as [|g l] eqn:E.
  { apply (f_equal length) in E. rewrite length_drop in E. cbn in E. lia. }
  cbn [app]. by rewrite map_app, concat_app, app_assoc.
Qed.

(** ... and completing the newest GOP changes nothing. *)
Lemma owed_complete H c : owed (on_newest set_complete H) c = owed H c.
Proof.
  destruct H as [|g H _] using rev_ind; [done|]. rewrite on_newest_snoc.
  unfold owed. destruct (decide (Z.to_nat (gopSeq c) ≤ length H)%nat).
  - rewrite !drop_snoc by done. destruct (drop _ H) as [|g' k]; cbn [app]; [done|].
    by rewrite !map_app.
  - by rewrite !drop_ge by (rewrite length_app; cbn; lia).
Qed.

Lemma owed_hist_keyframe H c msg at0 : cursor_ok H c →
  owed (hist_keyframe H msg at0) c = owed H c ++ [Key msg].
Proof.
  intros [H0 [(g & Hg & _)|(-> & Hs & Hi)]]; unfold hist_keyframe.
  - rewrite owed_app by (rewrite on_newest_length; by apply lookup_lt_Some in Hg).
    by rewrite owed_complete.
  - unfold owed. rewrite Hs. cbn. by rewrite (proj2 (Z.ltb_lt _ _) Hi).
Qed.

Lemma owed_hist_record H c rec : cursor_ok H c → H ≠ [] →
  owed (hist_record H rec) c = owed H c ++ [Rec rec].
Proof.
  intros [H0 [(g & Hg & Hi)|(-> & _)]] Hne; [|done]. unfold hist_record.
  destruct H as [|gn H _] using rev_ind; [done|]. rewrite on_newest_snoc.
  destruct (decide (Z.to_nat (gopSeq c) < length H)%nat) as [Hlt|Hge].
  - rewrite !owed_app by done. rewrite <- app_assoc. f_equal. cbn [map concat].
    rewrite !app_nil_r. unfold gop_items. cbn [keyframe records add_record]. by rewrite map_app.
  - pose proof (lookup_lt_Some _ _ _ Hg) as Hl. rewrite length_app in Hl. cbn in Hl.
    assert (He : Z.to_nat (gopSeq c) = length H) by lia.
    rewrite He, lookup_app_r, Nat.sub_diag in Hg by lia. injection Hg as ->.
    unfold owed. rewrite He, !drop_app_length. cbn [map concat]. rewrite !app_nil_r.
    unfold gop_items. cbn [keyframe records add_record]. rewrite map_app. cbn [map].
    destruct (Z.ltb_spec (recordIdx c) 0); [done|].
    rewrite drop_app_le; [done|]. rewrite length_map. unfold zlen in Hi. lia.
Qed.

(** ** Lemmas: reading never wedges *)

Lemma not_fallen r H c : ring_ok r H → H ≠ [] → FellOffTail r c = false →
  OldestGopSeq r ≤ gopSeq c.
Proof.
  intros Hr Hne. destruct (ring_frontier r H Hr Hne) as (k & Hk & Hlt & _).
  unfold FellOffTail, OldestGopSeq. rewrite Hk. destruct (drop k H) eqn:E; [|lia].
  apply (f_equal length) in E. rewrite length_drop in E. cbn in E. lia.
Qed.

(** A cursor that is owed something can read, or step to the next GOP. *)
Lemma read_progress r H c : ring_ok r H → cursor_ok H c → FellOffTail r c = false →
  owed H c ≠ [] →
  if NeedsKeyframe c then Keyframe r c ≠ None
  else Record_ r c ≠ None ∨ GopComplete r c = true ∧ (NextGop r c).2 = true.
Proof.
  intros Hr [H0 [(g & Hg & Hi)|(-> & _)]] Hf Ho; [|by unfold owed in Ho; rewrite drop_nil in Ho].
  assert (Hne : H ≠ []) by (intros ->; by rewrite lookup_nil in Hg).
  pose proof (not_fallen r H c Hr Hne Hf) as Hold.
  pose proof (find_hist r H (gopSeq c) Hr Hne) as Hfind.
  rewrite (proj2 (Z.leb_le _ _) Hold), Hg in Hfind.
  unfold NeedsKeyframe, Keyframe, Record_, GopComplete. rewrite Hfind.
  destruct (Z.ltb_spec (recordIdx c) 0) as [|Hidx]; [done|].
  destruct (Z.geb_spec (recordIdx c) (zlen (records g))) as [Hge|]; [right|by left].
  destruct (ring_frontier r H Hr Hne) as (k & Hk & Hlt & Hok).
  rewrite (owed_at H c g Hg), (proj2 (Z.ltb_ge _ _) Hidx) in Ho.
  rewrite drop_ge in Ho by (rewrite length_map; unfold zlen in *; lia).
  assert (Hlast : (S (Z.to_nat (gopSeq c)) < length H)%nat).
  { destruct (decide (S (Z.to_nat (gopSeq c)) < length H)%nat); [done|].
    by rewrite drop_ge in Ho by lia. }
  split.
  - destruct (ring_hist r H Hr _ _ Hg) as (_ & _ & ->). apply Z.ltb_lt. unfold zlen. lia.
  - unfold NextGop. rewrite Hk, (next_gop_spec _ _ (Z.of_nat k))
      by (apply hist_drop_consecutive; by destruct Hr). cbn zeta.
    rewrite (proj2 (Z.ltb_lt _ _)); [done|]. unfold zlen. rewrite length_drop. lia.
Qed.

(** Cursors stay valid. *)
Lemma cursor_ok_new r H : ring_ok r H → cursor_ok H (NewCursor r).
Proof.
  intros Hr. unfold NewCursor, newestCursorLocked. destruct (decide (H = [])) as [->|Hne].
  - destruct Hr as [_ (k & Hk & _) Hn _]. rewrite Hk, drop_nil, Hn. cbn.
    split; [done|]. by right.
  - destruct (ring_frontier r H Hr Hne) as (k & Hk & Hlt & _). rewrite Hk.
    destruct H as [|g l _] using rev_ind; [done|].
    rewrite length_app in Hlt. cbn in Hlt. rewrite drop_snoc, last_snoc by lia.
    assert (Hg : (l ++ [g]) !! length l = Some g) by (by rewrite lookup_app_r, Nat.sub_diag by lia).
    destruct (ring_hist _ _ Hr _ _ Hg) as [Hs _]. rewrite Hs. split; [cbn [gopSeq]; lia|].
    left. exists g. cbn [gopSeq recordIdx]. rewrite Nat2Z.id. split; [done|].
    pose proof (zlen_nonneg (records g)). lia.
Qed.

Lemma cursor_ok_first r H c k : ring_ok r H → Keyframe r c = Some k → cursor_ok H c →
  cursor_ok H (AtFirstRecord c).
Proof.
  unfold Keyframe, AtFirstRecord. intros Hr Hk Hc.
  destruct (findLocked _ _) as [g|] eqn:Hf; [|done].
  apply (find_some r H) in Hf as (_ & H0 & Hg); [|done]. case_match; [|done].
  split; [done|]. left. exists g. split; [done|]. apply zlen_nonneg.
Qed.

Lemma cursor_ok_next r H c rec : ring_ok r H → Record_ r c = Some rec → cursor_ok H (Next c).
Proof.
  unfold Record_. intros Hr. destruct (findLocked _ _) as [g|] eqn:Hf; [|done].
  case_match eqn:E; [done|]. intros _.
  apply (find_some r H) in Hf as (_ & H0 & Hg); [|done].
  split; [done|]. left. exists g. split; [done|]. cbn [Next recordIdx]. lia.
Qed.

Lemma cursor_ok_gop r H c c' : ring_ok r H → cursor_ok H c →
  NextGop r c = (c', true) → cursor_ok H c'.
Proof.
  intros Hr [H0 Hc] Hn. assert (Hne : H ≠ []).
  { intros ->. destruct Hr as [_ (k & Hk & _) _ _].
    unfold NextGop in Hn. by rewrite Hk, drop_nil in Hn. }
  destruct (ring_frontier r H Hr Hne) as (k & Hk & Hlt & _). unfold NextGop in Hn.
  rewrite Hk, (next_gop_spec _ _ (Z.of_nat k)) in Hn
    by (apply hist_drop_consecutive; by destruct Hr). cbn zeta in Hn.
  destruct (Z.ltb_spec (Z.max (Z.of_nat k) (gopSeq c + 1)) (Z.of_nat k + zlen (drop k H)))
    as [Hb|]; [|done]. injection Hn as <-.
  unfold zlen in Hb. rewrite length_drop in Hb. split; [cbn; lia|]. left. cbn [gopSeq recordIdx].
  destruct (lookup_lt_is_Some_2 H (Z.to_nat (Z.max (Z.of_nat k) (gopSeq c + 1)))) as [g Hg]; [lia|].
  exists g. split; [done|]. pose proof (zlen_nonneg (records g)). lia.
Qed.

Lemma on_newest_extends f l i g : l !! i = Some g → ∃ g', on_newest f l !! i = Some g' ∧
  (g' = g ∨ g' = f g).
Proof.
  intros Hg. unfold on_newest. destruct (decide (i = pred (length l))) as [->|].
  - exists (f g). rewrite list_lookup_alter_eq, Hg. cbn. auto.
  - exists g. rewrite list_lookup_alter_ne by done. auto.
Qed.

Lemma cursor_ok_keyframe H c msg at0 : cursor_ok H c → cursor_ok (hist_keyframe H msg at0) c.
Proof.
  intros [H0 [(g & Hg & Hi)|(-> & Hs & Hi)]]; (split; [done|left]); unfold hist_keyframe.
  - destruct (on_newest_extends set_complete H _ g Hg) as (g' & Hg' & Hgg).
    exists g'. split; [by apply lookup_app_l_Some|]. by destruct Hgg as [->| ->].
  - rewrite Hs. eexists; split; [done|]. cbn [records]. change (zlen []) with 0. lia.
Qed.

Lemma cursor_ok_record H c rec : cursor_ok H c → cursor_ok (hist_record H rec) c.
Proof.
  intros [H0 [(g & Hg & Hi)|(-> & Hs & Hi)]]; (split; [done|]); [left|by right].
  destruct (on_newest_extends (add_record rec) H _ g Hg) as (g' & Hg' & Hgg).
  exists g'. split; [done|]. destruct Hgg as [->| ->]; [done|].
  cbn [records add_record]. zlia.
Qed.

(** ** A ring and a viewer, step by step *)

(** Rings a broadcast reaches, with their history. *)
Inductive ring_run (w mb : Z) : DVRRing → list dvrGop → Prop :=
  | run_new : ring_run w mb (NewDVRRing w mb) []
  | run_keyframe r H msg at0 :
      ring_run w mb r H →
      ring_run w mb (AppendKeyframe r msg at0) (hist_keyframe H msg at0)
  | run_record r H rec at0 :
      ring_run w mb r H → ring_run w mb (AppendRecord r rec at0) (hist_record H rec).

Lemma ring_run_ok w mb r H : ring_run w mb r H → ring_ok r H.
Proof.
  induction 1 as [| |]; [|by apply AppendKeyframe_ok|by apply AppendRecord_ok].
  split; [by intros i g Hg; rewrite lookup_nil in Hg| |done|done].
  exists 0%nat. split; [done|]. by left.
Qed.

(** A viewer that joined at [NewCursor] and only reads: [sent] is what it was
    given, [due] everything from its join point on. *)
Inductive viewer (w mb : Z) : DVRRing → DVRCursor → list item → list item → Prop :=
  | view_join r H :
      ring_run w mb r H → viewer w mb r (NewCursor r) [] (owed H (NewCursor r))
  | view_keyframe r c sent due msg at0 :
      viewer w mb r c sent due →
      viewer w mb (AppendKeyframe r msg at0) c sent (due ++ [Key msg])
  | view_record r c sent due rec at0 :
      viewer w mb r c sent due → gops r ≠ [] →
      viewer w mb (AppendRecord r rec at0) c sent (due ++ [Rec rec])
  | view_orphan r c sent due rec at0 :
      viewer w mb r c sent due → gops r = [] → viewer w mb (AppendRecord r rec at0) c sent due
  | view_read_key r c sent due k :
      viewer w mb r c sent due → NeedsKeyframe c = true → Keyframe r c = Some k →
      viewer w mb r (AtFirstRecord c) (sent ++ [Key k]) due
  | view_read_rec r c sent due rec :
      viewer w mb r c sent due → NeedsKeyframe c = false → Record_ r c = Some rec →
      viewer w mb r (Next c) (sent ++ [Rec rec]) due
  | view_next r c c' sent due :
      viewer w mb r c sent due → NeedsKeyframe c = false → Record_ r c = None →
      GopComplete r c = true → NextGop r c = (c', true) → viewer w mb r c' sent due.

Lemma gops_nil r H : ring_ok r H → gops r = [] ↔ H = [].
Proof.
  intros Hr. split.
  - intros Hg. destruct (decide (H = [])) as [|Hne]; [done|].
    destruct (ring_frontier r H Hr Hne) as (k & Hk & Hlt & _). rewrite Hk in Hg.
    apply (f_equal length) in Hg. rewrite length_drop in Hg. cbn in Hg. lia.
  - intros ->. destruct Hr as [_ (k & Hk & _) _ _]. by rewrite Hk, drop_nil.
Qed.

Lemma viewer_inv w mb r c sent due : viewer w mb r c sent due →
  ∃ H, ring_run w mb r H ∧ cursor_ok H c ∧ due = sent ++ owed H c.
Proof.
  induction 1 as [r H Hrun|r c sent due msg at0 _ IH|r c sent due rec at0 _ IH Hne
    |r c sent due rec at0 _ IH Hnil|r c sent due k _ IH Hn Hk|r c sent due rec _ IH Hn Hk
    |r c c' sent due _ IH Hn Hrec Hcm Hnx].
  - exists H. split; [done|]. split; [|done]. apply (cursor_ok_new r). by eapply ring_run_ok.
  - destruct IH as (H & Hrun & Hc & ->). exists (hist_keyframe H msg at0).
    split; [by constructor|]. split; [by apply cursor_ok_keyframe|].
    by rewrite owed_hist_keyframe, app_assoc.
  - destruct IH as (H & Hrun & Hc & ->). exists (hist_record H rec).
    split; [by constructor|]. split; [by apply cursor_ok_record|].
    rewrite owed_hist_record, app_assoc; [done..|].
    intros HH. apply Hne. by apply (gops_nil r H (ring_run_ok _ _ _ _ Hrun)).
  - destruct IH as (H & Hrun & Hc & ->). apply (gops_nil r H (ring_run_ok _ _ _ _ Hrun)) in Hnil.
    subst H. exists (hist_record [] rec). split; [by constructor|]. by split.
  - destruct IH as (H & Hrun & Hc & ->). pose proof (ring_run_ok _ _ _ _ Hrun) as Hr.
    exists H. split; [done|]. split; [by eapply cursor_ok_first|].
    by rewrite (Keyframe_owed r H c k), <- app_assoc.
  - destruct IH as (H & Hrun & Hc & ->). pose proof (ring_run_ok _ _ _ _ Hrun) as Hr.
    exists H. split; [done|]. split; [by eapply cursor_ok_next|].
    by rewrite (Record_owed r H c rec), <- app_assoc.
  - destruct IH as (H & Hrun & Hc & ->). pose proof (ring_run_ok _ _ _ _ Hrun) as Hr.
    exists H. split; [done|]. split; [by eapply cursor_ok_gop|].
    by destruct (NextGop_owed r H c c' Hr Hn Hrec Hcm Hnx) as [_ ->].
Qed.

(** ** Lemmas: the bounds *)

(** arrival times never go back *)
Definition monotone (l : list dvrGop) : Prop :=
  ∀ i j g g', (i ≤ j)%nat → l !! i = Some g → l !! j = Some g' → at_ g ≤ at_ g'.

Lemma monotone_tail g l : monotone (g :: l) → monotone l.
Proof. intros Hm i j a b Hij Ha Hb. apply (Hm (S i) (S j) a b); [lia|done|done]. Qed.

Definition in_window (now : Z) (r : DVRRing) : Prop :=
  monotone (gops r) ∧ (zlen (gops r) ≤ 1 ∨ now - oldest_at r ≤ Window r).

Lemma dropOldest_window now r : in_window now r → in_window now (dropOldestLocked r).
Proof.
  unfold in_window, dropOldestLocked, oldest_at.
  destruct (gops r) as [|g [|g' l]] eqn:E; intros [Hm Hw]; cbn [gops Window].
  - by rewrite E.
  - split; [by eapply monotone_tail|left]. zlia.
  - split; [by eapply monotone_tail|right]. destruct Hw as [Hw|Hw]; [zlia|].
    specialize (Hm 0%nat 1%nat g g' ltac:(lia) eq_refl eq_refl). lia.
Qed.

Lemma drop_while_monotone cond n r : monotone (gops r) → monotone (gops (drop_while cond n r)).
Proof.
  intros Hm. apply (drop_while_inv (λ r, monotone (gops r))); [|done]. intros r' Hr' _.
  unfold dropOldestLocked. destruct (gops r') as [|g l] eqn:E; [by rewrite E|].
  cbn [gops]. by eapply monotone_tail.
Qed.

Lemma evict_bounds now r : monotone (gops r) →
  let r' := evictLocked now r in
  zlen (gops r') ≤ 1 ∨
  now - oldest_at r' ≤ Window r' ∧ (MaxBytes r' ≤ 0 ∨ rbytes r' ≤ MaxBytes r').
Proof.
  intros Hm. cbn zeta. unfold evictLocked.
  set (r1 := drop_while (too_old now) (length (gops r)) r).
  set (r2 := drop_while too_big (length (gops r1)) r1).
  assert (H1 : in_window now r1).
  { split; [by apply drop_while_monotone|].
    assert (Hd : too_old now r1 = false).
    { apply drop_while_done; [|lia]. intros r' Hc. unfold too_old in Hc. by eapply cond_nonempty. }
    unfold too_old in Hd. lia. }
  assert (H2 : in_window now r2).
  { apply (drop_while_inv (in_window now)); [|done]. intros r' Hr' _. by apply dropOldest_window. }
  assert (Hd : too_big r2 = false).
  { apply drop_while_done; [|lia]. intros r' Hc. unfold too_big in Hc.
    rewrite <- andb_assoc in Hc. by eapply cond_nonempty. }
  unfold too_big in Hd. destruct H2 as [_ Hw]. lia.
Qed.

(** ** Properties *)

(** C17. Whatever a broadcast appends, the ring is a suffix of the history with
    consecutive sequence numbers, never without the newest GOP; its byte
    counter is the bytes it holds, and exactly the newest GOP is still open. *)
Theorem ring_is_history_suffix w mb r H :
  ring_run w mb r H →
  ∃ k, gops r = drop k H ∧ (H = [] ∨ (k < length H)%nat) ∧
    nextSeq r = zlen H ∧
    rbytes r = fold_right (λ g n, gop_size g + n) 0 (gops r) ∧
    ∀ i g, gops r !! i = Some g →
      seq_ g = Z.of_nat (k + i) ∧ complete g = (Z.of_nat i + 1 <? zlen (gops r)).
Proof.
  intros [Hh (k & Hk & Hlt) Hn Hb]%ring_run_ok. exists k.
  split; [done|]. split; [done|]. split; [done|]. split.
  - rewrite Hb. unfold total_bytes. rewrite Hk. clear -Hh.
    assert (Hall : Forall (λ g, gbytes g = gop_size g) (drop k H)).
    { apply Forall_lookup. intros i g Hg. rewrite lookup_drop in Hg.
      by destruct (Hh _ _ Hg) as (_ & ? & _). }
    induction Hall as [|g l Hg _ IH]; [done|]. cbn [fold_right]. by rewrite Hg, IH.
  - rewrite Hk. intros i g Hg. pose proof (lookup_lt_Some _ _ _ Hg) as Hi.
    rewrite lookup_drop in Hg. destruct (Hh _ _ Hg) as (-> & _ & ->).
    split; [done|]. unfold zlen. rewrite length_drop in *.
    apply Bool.eq_iff_eq_true. rewrite !Z.ltb_lt. lia.
Qed.

Definition demo_ring : DVRRing :=
  AppendRecord (AppendKeyframe (AppendRecord (AppendKeyframe (NewDVRRing 100 6) [1; 2] 0) [3] 5)
    [4; 5; 6] 10) [7; 8] 20.
Definition demo_hist : list dvrGop :=
  hist_record (hist_keyframe (hist_record (hist_keyframe [] [1; 2] 0) [3]) [4; 5; 6] 10) [7; 8].
Lemma demo_run : ring_run 100 6 demo_ring demo_hist.
Proof. apply run_record, run_keyframe, run_record, run_keyframe, run_new. Qed.

Lemma ring_is_history_suffix_witness : ∃ k, gops demo_ring = drop k demo_hist ∧ (k < 2)%nat.
Proof.
  destruct (ring_is_history_suffix 100 6 demo_ring demo_hist demo_run) as (k & Hk & [Hn|Hlt] & _).
  - vm_compute in Hn. discriminate.
  - exists k. split; [exact Hk|exact Hlt].
Defined.

(** After every append the retention bounds hold: unless a single GOP is
    left, the oldest is within the window and the payload is within the byte
    cap. The eviction loops run to their exit (no bound on rounds is hit). *)
Theorem append_bounds r msg rec now :
  monotone (gops r) → Forall (λ g, at_ g ≤ now) (gops r) →
  let bounded r' :=
    zlen (gops r') ≤ 1 ∨
    now - oldest_at r' ≤ Window r ∧ (MaxBytes r ≤ 0 ∨ rbytes r' ≤ MaxBytes r) in
  bounded (AppendKeyframe r msg now) ∧
  (gops r ≠ [] → bounded (AppendRecord r rec now)).
Proof.
  intros Hm Hat. assert (Hnew : ∀ f, (∀ g, at_ (f g) = at_ g) → monotone (on_newest f (gops r)) ∧
    Forall (λ g, at_ g ≤ now) (on_newest f (gops r))).
  { intros f Hf. split.
    - intros i j a b Hij (a0 & Ha & ->)%on_newest_lookup (b0 & Hb & ->)%on_newest_lookup.
      pose proof (Hm i j a0 b0 Hij Ha Hb). do 2 case_decide; rewrite ?Hf; done.
    - apply Forall_lookup. intros i a (a0 & Ha & ->)%on_newest_lookup.
      rewrite Forall_lookup in Hat. specialize (Hat _ _ Ha). case_decide; rewrite ?Hf; done. }
  cbn zeta. split.
  - unfold AppendKeyframe.
    replace (if zlen (gops r) >? 0 then on_newest set_complete (gops r) else gops r)
      with (on_newest set_complete (gops r)) by (by destruct (gops r)).
    set (r0 := MkRing _ _ _ _ _ _). destruct (evict_frame now r0) as (Hw & Hmb & _).
    destruct (Hnew set_complete ltac:(done)) as [Hm1 Ha1].
    destruct (evict_bounds now r0) as [?|[? ?]]; [|by left|right; cbn in *; by rewrite Hw, Hmb in *].
    intros i j a b Hij Ha Hb. unfold r0 in Ha, Hb. cbn [gops] in Ha, Hb.
    apply lookup_app_Some in Ha as [Ha|[Hi Ha]], Hb as [Hb|[Hj Hb]].
    + by apply (Hm1 i j).
    + apply list_lookup_singleton_Some in Hb as [_ <-]. cbn [at_].
      rewrite Forall_lookup in Ha1. by apply (Ha1 i).
    + apply lookup_lt_Some in Hb. lia.
    + apply list_lookup_singleton_Some in Ha as [_ <-], Hb as [_ <-]. done.
  - intros Hne. unfold AppendRecord.
    replace (zlen (gops r) =? 0) with false by (by destruct (gops r)).
    set (r0 := MkRing _ _ _ _ _ _). destruct (evict_frame now r0) as (Hw & Hmb & _).
    destruct (Hnew (add_record rec) ltac:(done)) as [Hm1 _].
    destruct (evict_bounds now r0) as [?|[? ?]]; [done|by left|right; cbn in *; by rewrite Hw, Hmb in *].
Qed.

Lemma append_bounds_witness :
  let r' := AppendKeyframe demo_ring [9] 150 in
  zlen (gops r') ≤ 1 ∨ 150 - oldest_at r' ≤ 100 ∧ (6 ≤ 0 ∨ rbytes r' ≤ 6).
Proof.
  refine (proj1 (append_bounds demo_ring [9] [] 150 _ _)).
  - intros [|[|i]] [|[|j]] a b Hij Ha Hb; vm_compute in Ha, Hb; try discriminate; try lia;
      injection Ha as <-; injection Hb as <-; vm_compute; discriminate.
  - vm_compute. repeat constructor; discriminate.
Defined.


Lemma demo_viewer : viewer 100 6
  (AppendRecord (AppendKeyframe (NewDVRRing 100 6) [1; 2] 0) [3] 5)
  (MkCursor 0 1) [Key [1; 2]; Rec [3]] [Key [1; 2]; Rec [3]].
Proof.
  eapply (view_read_rec _ _ _ (MkCursor 0 0) [Key [1; 2]]); [|done|done].
  eapply (view_read_key _ _ _ (MkCursor 0 (-1)) []); [|done|done].
  eapply (view_record _ _ _ _ [] [Key [1; 2]]); [|done].
  eapply (view_keyframe _ _ _ _ [] []). exact (view_join 100 6 _ [] (run_new 100 6)).
Qed.

(** A viewer is never wedged: unless its GOP was evicted, as long as it is
    owed anything one of the three reads (keyframe, record, next GOP) moves
    it, and when it is caught up the next append closes the wake channel it
    took before reading. *)
Theorem viewer_progress w mb r c sent due :
  viewer w mb r c sent due → FellOffTail r c = false → sent ≠ due →
  if NeedsKeyframe c then Keyframe r c ≠ None
  else Record_ r c ≠ None ∨ GopComplete r c = true ∧ (NextGop r c).2 = true.
Proof.
  intros (H & Hrun & Hc & ->)%viewer_inv Hf Hne. apply (read_progress r H); [|done|done|].
  - by eapply ring_run_ok.
  - intros He. apply Hne. by rewrite He, app_nil_r.
Qed.

Lemma demo_viewer_behind : viewer 100 6
  (AppendRecord (AppendKeyframe (NewDVRRing 100 6) [1; 2] 0) [3] 5)
  (MkCursor 0 0) [Key [1; 2]] [Key [1; 2]; Rec [3]].
Proof.
  eapply (view_read_key _ _ _ (MkCursor 0 (-1)) []); [|done|done].
  eapply (view_record _ _ _ _ [] [Key [1; 2]]); [|done].
  eapply (view_keyframe _ _ _ _ [] []). exact (view_join 100 6 _ [] (run_new 100 6)).
Qed.
Lemma viewer_progress_witness :
  let r := AppendRecord (AppendKeyframe (NewDVRRing 100 6) [1; 2] 0) [3] 5 in
  Record_ r (MkCursor 0 0) ≠ None ∨
  GopComplete r (MkCursor 0 0) = true ∧ (NextGop r (MkCursor 0 0)).2 = true.
Proof.
  exact (viewer_progress 100 6 _ _ _ _ demo_viewer_behind eq_refl ltac:(discriminate)).
Defined.

(** No wake-up is lost: the channel taken before an append that changed
    the ring is closed after it; an append that changed nothing (a record
    before any keyframe) wakes nobody. *)
Theorem append_wakes r msg rec at0 :
  closed_chan r (Wait r) = false ∧
  closed_chan (AppendKeyframe r msg at0) (Wait r) = true ∧
  (closed_chan (AppendRecord r rec at0) (Wait r) = true ↔ gops r ≠ []) ∧
  (gops r = [] → AppendRecord r rec at0 = r).
Proof.
  unfold closed_chan, Wait. split; [lia|].
  assert (Hw : ∀ r0, wake r <? wake (wakeLocked (evictLocked at0 r0)) = (wake r <? wake r0 + 1)).
  { intros r0. destruct (evict_frame at0 r0) as (_ & _ & _ & He). cbn. by rewrite He. }
  unfold AppendKeyframe. rewrite Hw. cbn [wake]. split; [lia|].
  unfold AppendRecord. destruct (gops r) as [|g l] eqn:E.
  - change (zlen [] =? 0) with true. cbn iota. rewrite Z.ltb_irrefl. split; [|done].
    split; [done|]. intros Hn. by destruct Hn.
  - replace (zlen (g :: l) =? 0) with false by zlia. rewrite Hw. cbn [wake].
    split; [|done]. split; [done|lia].
Qed.

(** Delivery negotiation never rejects: it grants a ring exactly when a
    reliable viewer asks for at least the minimum buffer and the relay's
    window (its default when unset) holds that much; the grant is then the
    smaller of the two, and every other request degrades to no ring. *)
Theorem NegotiateDelivery_spec reliable raw window :
  let windowMs := (if window <=? 0 then DefaultDVRWindow else window) / 1000000 in
  NegotiateDelivery reliable raw window =
  if negb reliable then (DeliveryAck.DeliveryDatagrams, 0) else
  match Atoi (TrimSpace raw) with
  | Some want =>
      if MinDVRBufferMs <=? Z.min want windowMs
      then (DeliveryAck.DeliveryDVR, Z.min want windowMs)
      else (DeliveryAck.DeliveryReliable, 0)
  | None => (DeliveryAck.DeliveryReliable, 0)
  end.
Proof.
  cbn zeta. unfold NegotiateDelivery. destruct reliable; [|done]. cbn [negb].
  destruct (Atoi (TrimSpace raw)) as [ms|]; [|done].
  assert (Hw : 0 ≤ (if window <=? 0 then DefaultDVRWindow else window))
    by (unfold DefaultDVRWindow; case_match; lia).
  set (w := if window <=? 0 then DefaultDVRWindow else window) in *. cbn zeta.
  rewrite Z.quot_div_nonneg by lia. unfold MinDVRBufferMs.
  destruct (Z.leb_spec ms 0); [by rewrite (proj2 (Z.leb_gt _ _)) by lia|].
  destruct (Z.ltb_spec ms 1000); [by rewrite (proj2 (Z.leb_gt _ _)) by lia|].
  destruct (Z.gtb_spec ms (w / 1000000)); cbn zeta.
  - rewrite Z.min_r by lia. destruct (Z.ltb_spec (w / 1000000) 1000).
    + by rewrite (proj2 (Z.leb_gt _ _)) by lia.
    + by rewrite (proj2 (Z.leb_le _ _)) by lia.
  - rewrite Z.min_l by lia. rewrite (proj2 (Z.ltb_ge _ _)) by lia.
    by rewrite (proj2 (Z.leb_le _ _)) by lia.
Qed.

Example negotiate_examples :
  (NegotiateDelivery true (str " 1500 "%string) 0, NegotiateDelivery true (str "999"%string) 0,
   NegotiateDelivery true (str "60000"%string) 0, NegotiateDelivery false (str "1500"%string) 0,
   NegotiateDelivery true (str "1500"%string) (500 * 10 ^ 6)) =
  ((2, 1500), (1, 0), (2, 3000), (0, 0), (1, 0)).
Proof. reflexivity. Qed.
