(* ===== verification/DvrAudio.v ===== *)
(** internal/hub/dvr_audio.go: the audio ring beside the DVR ring. *)
From S2P Require Export Prelude.
#[local] Open Scope Z_scope.

(** Instants are nanoseconds; [awake] numbers the wake channels like
    [Dvr.wake]. *)
Record dvrAudioPacket := MkPacket { pseq : Z; pat : Z; pdata : bytes }.
Record DVRAudioRing := MkAudioRing {
  aWindow : Z;
  aMaxBytes : Z;
  packets : list dvrAudioPacket;
  anextSeq : Z;
  abytes : Z;
  awake : Z;
}.

Definition AudioSkewBudget := 500 * 10 ^ 6.

(** the loop of [Append] that drops the oldest packets *)
Fixpoint audio_evict (now window maxBytes : Z) (ps : list dvrAudioPacket) (n : Z)
    : list dvrAudioPacket * Z :=
  match ps with
  | [] => (ps, n)
  | p :: rest =>
      match rest with
      | [] => (ps, n)
      | _ :: _ =>
          if (now - pat p >? window) || ((maxBytes >? 0) && (n >? maxBytes))
          then audio_evict now window maxBytes rest (n - zlen (pdata p))
          else (ps, n)
      end
  end.

Definition AudioAppend (r : DVRAudioRing) (dgram : bytes) (at0 : Z) : DVRAudioRing :=
  let ps := packets r ++ [MkPacket (anextSeq r) at0 dgram] in
  let '(ps, n) := audio_evict at0 (aWindow r) (aMaxBytes r) ps (abytes r + zlen dgram) in
  MkAudioRing (aWindow r) (aMaxBytes r) ps (anextSeq r + 1) n (awake r + 1).

Definition NewDVRAudioRing (window maxBytes : Z) : DVRAudioRing :=
  MkAudioRing window maxBytes [] 0 0 0.

(** A cursor is the sequence number of the next packet. *)
Definition AudioNext (c : Z) : Z := c + 1.
Definition AudioOldest (r : DVRAudioRing) : Z :=
  match packets r with [] => anextSeq r | p :: _ => pseq p end.
Definition AudioNewest (r : DVRAudioRing) : Z := anextSeq r.
Fixpoint find_packet (ps : list dvrAudioPacket) (c : Z) : option (bytes * Z) :=
  match ps with
  | [] => None
  | p :: ps' => if pseq p =? c then Some (pdata p, pat p) else find_packet ps' c
  end.
Definition AudioAt (r : DVRAudioRing) (c : Z) : option (bytes * Z) := find_packet (packets r) c.
Definition AudioFellOffTail (r : DVRAudioRing) (c : Z) : bool :=
  match packets r with [] => false | p :: _ => c <? pseq p end.
Definition DueFor (packetAt videoAt budget : Z) : bool := negb (packetAt >? videoAt + budget).

(** ** The history *)

(** every packet ever appended: data and arrival time *)
Definition audio_hist (H : list (bytes * Z)) : list dvrAudioPacket :=
  imap (λ i h, MkPacket (Z.of_nat i) h.2 h.1) H.
Definition audio_bytes (ps : list dvrAudioPacket) : Z :=
  fold_right (λ p n, zlen (pdata p) + n) 0 ps.

Record audio_ok (r : DVRAudioRing) (H : list (bytes * Z)) : Prop := {
  audio_suffix : ∃ k, packets r = drop k (audio_hist H) ∧ (H = [] ∨ (k < length H)%nat);
  audio_next : anextSeq r = zlen H;
  audio_count : abytes r = audio_bytes (packets r);
}.

Inductive audio_run (w mb : Z) : DVRAudioRing → list (bytes * Z) → Prop :=
  | arun_new : audio_run w mb (NewDVRAudioRing w mb) []
  | arun_append r H d at0 :
      audio_run w mb r H → audio_run w mb (AudioAppend r d at0) (H ++ [(d, at0)]).

Lemma audio_hist_snoc H h :
  audio_hist (H ++ [h]) = audio_hist H ++ [MkPacket (zlen H) h.2 h.1].
Proof. unfold audio_hist, zlen. rewrite imap_app. cbn. by rewrite Nat.add_0_r. Qed.
Lemma audio_hist_length H : length (audio_hist H) = length H.
Proof. apply length_imap. Qed.
Lemma audio_hist_lookup H i : audio_hist H !! i =
  (λ h, MkPacket (Z.of_nat i) h.2 h.1) <$> H !! i.
Proof. apply list_lookup_imap. Qed.

(** The loop drops a prefix, keeps the newest packet and the byte count, and
    stops within both bounds. *)
Lemma audio_evict_spec now w mb ps : ∀ n, ps ≠ [] → n = audio_bytes ps →
  ∃ k, audio_evict now w mb ps n = (drop k ps, audio_bytes (drop k ps)) ∧ (k < length ps)%nat ∧
    (length (drop k ps) = 1%nat ∨
     (∀ p, head (drop k ps) = Some p → now - pat p ≤ w) ∧ (mb ≤ 0 ∨ audio_bytes (drop k ps) ≤ mb)).
Proof.
  induction ps as [|p [|q rest] IH]; intros n Hne Hn; [done| |].
  - exists 0%nat. cbn [audio_evict]. rewrite Hn. split; [done|]. cbn. split; [lia|by left].
  - change (audio_evict now w mb (p :: q :: rest) n) with
      (if (now - pat p >? w) || ((mb >? 0) && (n >? mb))
       then audio_evict now w mb (q :: rest) (n - zlen (pdata p)) else (p :: q :: rest, n)).
    destruct (_ || _) eqn:Hc.
    + destruct (IH (n - zlen (pdata p))) as (k & He & Hk & Hb); [done| |].
      { rewrite Hn. unfold audio_bytes. cbn [fold_right]. lia. }
      exists (S k). split; [exact He|]. cbn [length] in *. split; [lia|exact Hb].
    + exists 0%nat. rewrite Hn. split; [done|]. cbn [length drop]. split; [lia|]. right.
      rewrite <- Hn. split; [|lia]. intros p' [= <-]. lia.
Qed.

Lemma AudioAppend_ok r H d at0 : audio_ok r H → audio_ok (AudioAppend r d at0) (H ++ [(d, at0)]).
Proof.
  intros [(k & Hk & Hlt) Hn Hb]. unfold AudioAppend.
  set (ps := packets r ++ [MkPacket (anextSeq r) at0 d]).
  destruct (audio_evict_spec at0 (aWindow r) (aMaxBytes r) ps (abytes r + zlen d))
    as (j & -> & Hj & _).
  { unfold ps. by destruct (packets r). }
  { unfold ps. rewrite Hb. clear. induction (packets r) as [|p l IH]; [cbn; lia|].
    cbn [app]. unfold audio_bytes in *. cbn [fold_right]. lia. }
  assert (Hps : ∃ k', ps = drop k' (audio_hist (H ++ [(d, at0)])) ∧ (k' < S (length H))%nat).
  { unfold ps. rewrite audio_hist_snoc, Hk, Hn. cbn [fst snd]. destruct Hlt as [->|Hlt].
    - exists 0%nat. change (audio_hist []) with (@nil dvrAudioPacket); rewrite drop_nil. split; [done|]. cbn. lia.
    - exists k. rewrite drop_app_le by (rewrite audio_hist_length; lia). split; [done|lia]. }
  destruct Hps as (k' & Hps & Hk').
  split; cbn [packets anextSeq abytes]; [|by rewrite zlen_app, Hn|done].
  exists (k' + j)%nat. rewrite Hps, drop_drop. split; [done|]. right.
  rewrite Hps, length_drop, audio_hist_length in Hj. lia.
Qed.

Lemma audio_run_ok w mb r H : audio_run w mb r H → audio_ok r H.
Proof.
  induction 1 as [|r H d at0 _ IH]; [|by apply AudioAppend_ok].
  split; [|done..]. exists 0%nat. split; [done|by left].
Qed.

Lemma find_packet_spec H c : ∀ k, find_packet (drop k (audio_hist H)) c =
  if Z.of_nat k <=? c then H !! Z.to_nat c else None.
Proof.
  intros k. remember (length H - k)%nat as n eqn:Hn. revert k Hn.
  induction n as [|n IH]; intros k Hn.
  - rewrite drop_ge by (rewrite audio_hist_length; lia). cbn [find_packet].
    case_match; [|done]. symmetry. apply lookup_ge_None. lia.
  - destruct (lookup_lt_is_Some_2 H k) as [h Hh]; [lia|].
    rewrite (drop_S _ (MkPacket (Z.of_nat k) h.2 h.1)) by (by rewrite audio_hist_lookup, Hh).
    cbn [find_packet pseq pdata pat]. destruct (Z.eqb_spec (Z.of_nat k) c) as [<-|Hne].
    + rewrite (proj2 (Z.leb_le _ _)), Nat2Z.id, Hh by lia. by destruct h.
    + rewrite IH by lia. destruct (Z.leb_spec (Z.of_nat k) c).
      * by rewrite (proj2 (Z.leb_le _ _)) by lia.
      * by rewrite (proj2 (Z.leb_gt _ _)) by lia.
Qed.

Lemma audio_frontier r H : audio_ok r H → H ≠ [] →
  ∃ k, packets r = drop k (audio_hist H) ∧ (k < length H)%nat ∧ AudioOldest r = Z.of_nat k.
Proof.
  intros [(k & Hk & [?|Hlt]) Hn _] Hne; [done|]. exists k. split; [done|]. split; [done|].
  unfold AudioOldest. rewrite Hk. destruct (lookup_lt_is_Some_2 H k Hlt) as [h Hh].
  by rewrite (drop_S _ (MkPacket (Z.of_nat k) h.2 h.1)) by (by rewrite audio_hist_lookup, Hh).
Qed.

(** ** Properties *)

(** Every audio packet appended can be read at its cursor until it is
    evicted, a cursor behind the frontier is told so, and a joiner or a resync
    ([Oldest]) lands on a packet that is there. *)
Theorem audio_ring_reads w mb r H c :
  audio_run w mb r H → H ≠ [] →
  (AudioFellOffTail r c = true ↔ c < AudioOldest r) ∧
  (AudioOldest r ≤ c → AudioAt r c = H !! Z.to_nat c) ∧
  AudioAt r (AudioOldest r) ≠ None ∧ AudioAt r (AudioNewest r) = None.
Proof.
  intros Hr%audio_run_ok Hne. destruct (audio_frontier r H Hr Hne) as (k & Hk & Hlt & Ho).
  assert (Hat : ∀ c, AudioAt r c = if Z.of_nat k <=? c then H !! Z.to_nat c else None)
    by (intros c'; unfold AudioAt; rewrite Hk; apply find_packet_spec).
  rewrite !Hat, Ho, Z.leb_refl, Nat2Z.id. split; [|split; [|split]].
  - unfold AudioFellOffTail. unfold AudioOldest in Ho. destruct (packets r) as [|p l] eqn:E.
    + exfalso. apply (f_equal length) in Hk. rewrite length_drop, audio_hist_length in Hk.
      cbn in Hk. lia.
    + rewrite Ho. apply Z.ltb_lt.
  - intros Hc. by rewrite (proj2 (Z.leb_le _ _)) by lia.
  - by apply lookup_lt_is_Some_2 in Hlt as [h ->].
  - unfold AudioNewest. rewrite (audio_next r H Hr). case_match; [|done].
    apply lookup_ge_None. unfold zlen. lia.
Qed.

Definition demo_audio : DVRAudioRing :=
  AudioAppend (AudioAppend (AudioAppend (NewDVRAudioRing 100 10) [1] 0) [2; 2] 60) [3] 120.
Lemma audio_ring_reads_witness :
  AudioAt demo_audio 1 = Some ([2; 2], 60) ∧ AudioFellOffTail demo_audio 0 = true.
Proof.
  assert (Hrun : audio_run 100 10 demo_audio [([1], 0); ([2; 2], 60); ([3], 120)]).
  { apply (arun_append _ _ _ [([1], 0); ([2; 2], 60)]), (arun_append _ _ _ [([1], 0)]),
      (arun_append _ _ _ []), arun_new. }
  destruct (audio_ring_reads _ _ _ _ 1 Hrun ltac:(discriminate)) as (_ & H1 & _).
  destruct (audio_ring_reads _ _ _ _ 0 Hrun ltac:(discriminate)) as (H0 & _).
  split; [apply H1; vm_compute; discriminate|apply H0; vm_compute; reflexivity].
Defined.
