(* ===== verification/FanOut.v ===== *)
(** internal/hub: striped delivery (stripe.go), the per-subscriber parity
    prefix (parity.go) and the fan-out of one datagram to the subscribers of a
    broadcast with their bounded queues (hub.go). *)
From S2P Require Export WireMedia Dvr DvrAudio Parity.
#[local] Open Scope Z_scope.

(** ** Dial parameters *)

Definition ownerTokenLen := 16.
Definition owner_char (c : Z) : bool :=
  ((48 <=? c) && (c <=? 57)) || ((97 <=? c) && (c <=? 102)).
Definition ValidOwnerToken (s : bytes) : bool :=
  if zlen s <>? ownerTokenLen then false else forallb owner_char s.

Record StripeLeg := MkLeg { N_ : Z; Member : Z; Owner : bytes }.
Inductive stripe_error := ErrStripeRejected.

(** [Ok None] is the ordinary-viewer path ([isLeg] false, no error). *)
Definition NegotiateStripe (stripeParam legParam ownerParam : bytes) (enabled reliable : bool)
    : outcome stripe_error (option StripeLeg) :=
  let empty (s : bytes) := bool_decide (s = []) in
  if empty stripeParam && empty legParam then Ok None else
  reject empty stripeParam || empty legParam with ErrStripeRejected;
  reject negb enabled with ErrStripeRejected;
  reject reliable with ErrStripeRejected;
  reject negb (ValidOwnerToken ownerParam) with ErrStripeRejected;
  match Atoi stripeParam with
  | None => Err ErrStripeRejected
  | Some n =>
      reject (n <? 1) || (n >? MaxStripeLegs) with ErrStripeRejected;
      match Atoi legParam with
      | None => Err ErrStripeRejected
      | Some member =>
          reject (member <? 0) || (member >=? n) with ErrStripeRejected;
          Ok (Some (MkLeg n member ownerParam))
      end
  end.

Definition NegotiateParity (param : bytes) (fleetDefault : Z) : Z * Z :=
  let requested :=
    if negb (bool_decide (param = [])) then
      match Atoi param with
      | Some v => if (v >=? 0) && (v <=? MaxParitySymbols) then v else fleetDefault
      | None => fleetDefault
      end
    else fleetDefault in
  let served := if requested >? fleetDefault then fleetDefault else requested in
  let served := if served <? 0 then 0 else served in
  (requested, served).

(** ** Classification *)

Definition has_type (dgram : bytes) (types : list Z) : bool :=
  match PeekType dgram with Ok (_, typ) => bool_decide (typ ∈ types) | _ => false end.
Definition isParityDatagram (dgram : bytes) : bool := has_type dgram [TypeParityChunk].
Definition isCarrierMediaDatagram (dgram : bytes) : bool :=
  has_type dgram [TypeVideoChunk; TypeParityChunk].
Definition isAudioDatagram (dgram : bytes) : bool :=
  has_type dgram [TypeAudioFrame; TypeAudioConfig].

Definition parityIndexOf (dgram : bytes) : Z :=
  match ParityChunk.ParseParityChunk dgram with
  | Ok (h, _) => ParityChunk.ParityIndex h
  | _ => -1
  end.
Definition parityIndexIfParity (dgram : bytes) : Z :=
  if negb (isParityDatagram dgram) then -1 else parityIndexOf dgram.

(** [None] is [isDelta] false *)
Definition deltaOrdinal (dgram : bytes) : option Z :=
  match PeekType dgram with
  | Ok (_, typ) =>
      if typ =? TypeVideoChunk then
        match VideoChunk.ParseVideoChunk dgram with
        | Ok (h, _) =>
            Some (StripeState.StripeOrdinal (VideoChunk.ChunkIndex h) (VideoChunk.ChunkCount h) (-1))
        | _ => None
        end
      else if typ =? TypeParityChunk then
        match ParityChunk.ParseParityChunk dgram with
        | Ok (h, _) =>
            Some (StripeState.StripeOrdinal 0 (ParityChunk.ChunkCount h) (ParityChunk.ParityIndex h))
        | _ => None
        end
      else None
  | _ => None
  end.

(** ** Subscribers *)

(** what is fixed at subscribe time; [hasDvr]: it reads the rings *)
Record SubConfig := MkConfig {
  internal : bool;
  reliable : bool;
  hasDvr : bool;
  hasDvrAudio : bool;
  stripeLeg : bool;
  stripeN : Z;
  stripeMember : Z;
  owner : bytes;
  parityK : Z;
  queueCap : Z;
  audioCap : option Z;
}.
(** the suppression deadline of a primary (0: none) *)
Record StripeInfo := MkStripe {
  stripeUntil : Z;
  stripeNInfo : Z;
  stripeTransitions : Z;
}.
(** the outgoing lanes and their counters *)
Record Lanes := MkLanes {
  queue : list bytes;
  audioQueue : list bytes;
  dropped : Z;
  carrierRecordsDropped : Z;
  carrierQueueOverflow : Z;
  carDeadRotation : Z;
  carRotations : Z;
}.
Record Subscriber := MkSub { cfg : SubConfig; stripe : StripeInfo; lanes : Lanes }.

(** *** Stripe state *)

Definition StripeStateTTL := 5 * 10 ^ 9.

Definition ApplyStripeState (s : Subscriber) (st : StripeState.StripeState) (now : Z) : Subscriber :=
  let c := cfg s in
  if internal c || reliable c || hasDvr c || stripeLeg c || bool_decide (owner c = []) then s else
  let prev := stripeUntil (stripe s) in
  let tr := stripeTransitions (stripe s) in
  if StripeState.Striped st then
    MkSub c (MkStripe (now + StripeStateTTL) (StripeState.StripeN st)
               (if prev =? 0 then tr + 1 else tr)) (lanes s)
  else MkSub c (MkStripe 0 0 (if prev <>? 0 then tr + 1 else tr)) (lanes s).

Definition stripeSuppressed (s : Subscriber) (nowNanos : Z) : bool :=
  let until := stripeUntil (stripe s) in (until <>? 0) && (nowNanos <? until).

Definition wantsDeltaLocked (s : Subscriber) (ord nowNanos : Z) : bool :=
  if stripeLeg (cfg s) then Z.rem ord (stripeN (cfg s)) =? stripeMember (cfg s)
  else negb (stripeSuppressed s nowNanos).

(** *** Queues *)

(** a non-blocking send on a channel of capacity [cap] *)
Definition try_send (q : list bytes) (cap : Z) (d : bytes) : option (list bytes) :=
  if zlen q <? cap then Some (q ++ [d]) else None.

(** [purgeQueuedDeltasLocked]: the queue after it, and how many it discarded *)
Fixpoint purge_split (q : list bytes) : Z * list bytes :=
  match q with
  | [] => (0, [])
  | d :: q' =>
      let '(purged, keep) := purge_split q' in
      if isCarrierMediaDatagram d then (purged + 1, keep) else (purged, d :: keep)
  end.
Definition purgeQueuedDeltasLocked (q : list bytes) (cap : Z) : list bytes * Z :=
  let '(purged, keep) := purge_split q in
  (fold_left (λ q d, match try_send q cap d with Some q' => q' | None => q end) keep [], purged).

Definition enqueue_lanes (c : SubConfig) (l : Lanes) (dgram : bytes) : Lanes :=
  if hasDvr c && isCarrierMediaDatagram dgram then l
  else if hasDvrAudio c && isAudioDatagram dgram then l
  else match (if isAudioDatagram dgram then audioCap c else None) with
  | Some cap =>
      match try_send (audioQueue l) cap dgram with
      | Some q => MkLanes (queue l) q (dropped l) (carrierRecordsDropped l)
                          (carrierQueueOverflow l) (carDeadRotation l) (carRotations l)
      | None => MkLanes (queue l) (audioQueue l) (dropped l + 1) (carrierRecordsDropped l)
                        (carrierQueueOverflow l) (carDeadRotation l) (carRotations l)
      end
  | None =>
      if reliable c && isCarrierMediaDatagram dgram && (carDeadRotation l =? carRotations l + 1)
      then MkLanes (queue l) (audioQueue l) (dropped l) (carrierRecordsDropped l + 1)
                   (carrierQueueOverflow l) (carDeadRotation l) (carRotations l)
      else match try_send (queue l) (queueCap c) dgram with
      | Some q => MkLanes q (audioQueue l) (dropped l) (carrierRecordsDropped l)
                          (carrierQueueOverflow l) (carDeadRotation l) (carRotations l)
      | None =>
          if negb (reliable c) then
            MkLanes (queue l) (audioQueue l) (dropped l + 1) (carrierRecordsDropped l)
                    (carrierQueueOverflow l) (carDeadRotation l) (carRotations l)
          else
            let '(q, purged) := purgeQueuedDeltasLocked (queue l) (queueCap c) in
            MkLanes q (audioQueue l) (dropped l + 1) (carrierRecordsDropped l + purged)
                    (carrierQueueOverflow l + 1) (carRotations l + 1) (carRotations l)
      end
  end.
Definition enqueueLocked (s : Subscriber) (dgram : bytes) : Subscriber :=
  MkSub (cfg s) (stripe s) (enqueue_lanes (cfg s) (lanes s) dgram).

(** ** The fan-out *)

Record Counters := MkCounters {
  datagramsRelayed : Z;
  stripeSuppressedDatagrams : Z;
  parityDatagramsForwarded : Z;
  paritySuppressed : Z;
}.
Record Hub := MkHub {
  subs : list Subscriber;
  counters : Counters;
  dvr : option DVRRing;
  dvrAudio : option DVRAudioRing;
}.

(** the effect of one datagram on one subscriber and on the counters *)
Definition fan_parity (idx : Z) (dgram : bytes) (now : Z) (s : Subscriber) (k : Counters)
    : Subscriber * Counters :=
  if internal (cfg s) || (idx <? parityK (cfg s)) then
    let held :=
      if stripeLeg (cfg s) || (stripeUntil (stripe s) <>? 0) then
        match deltaOrdinal dgram with
        | Some ord => negb (wantsDeltaLocked s ord now)
        | None => false
        end
      else false in
    if held then
      (s, if negb (stripeLeg (cfg s))
          then MkCounters (datagramsRelayed k) (stripeSuppressedDatagrams k + 1)
                          (parityDatagramsForwarded k) (paritySuppressed k)
          else k)
    else (enqueueLocked s dgram,
          MkCounters (datagramsRelayed k) (stripeSuppressedDatagrams k)
                     (parityDatagramsForwarded k + 1) (paritySuppressed k))
  else (s, MkCounters (datagramsRelayed k) (stripeSuppressedDatagrams k)
                      (parityDatagramsForwarded k) (paritySuppressed k + 1)).

Definition fan_other (dgram : bytes) (now : Z) (s : Subscriber) (k : Counters)
    : Subscriber * Counters :=
  if stripeLeg (cfg s) || (stripeUntil (stripe s) <>? 0) then
    match deltaOrdinal dgram with
    | None => if stripeLeg (cfg s) then (s, k) else (enqueueLocked s dgram, k)
    | Some ord =>
        if negb (wantsDeltaLocked s ord now) then
          (s, if negb (stripeLeg (cfg s))
              then MkCounters (datagramsRelayed k) (stripeSuppressedDatagrams k + 1)
                              (parityDatagramsForwarded k) (paritySuppressed k)
              else k)
        else (enqueueLocked s dgram, k)
    end
  else (enqueueLocked s dgram, k).

(** the loop over [b.subs]; Go visits the map in some order, the model in the
    order of the list *)
Fixpoint fan_loop (step : Subscriber → Counters → Subscriber * Counters)
    (ss : list Subscriber) (k : Counters) : list Subscriber * Counters :=
  match ss with
  | [] => ([], k)
  | s :: ss' =>
      let '(s', k) := step s k in
      let '(ss', k) := fan_loop step ss' k in
      (s' :: ss', k)
  end.

(** [now] is the clock: the two ring appends and the stripe deadline read it *)
Definition fanOutLocked (b : Hub) (dgram : bytes) (now : Z) : Hub :=
  let k := MkCounters (datagramsRelayed (counters b) + 1) (stripeSuppressedDatagrams (counters b))
             (parityDatagramsForwarded (counters b)) (paritySuppressed (counters b)) in
  let ring := match dvr b with
              | Some r => Some (if isCarrierMediaDatagram dgram then AppendRecord r dgram now else r)
              | None => None
              end in
  let audio := match dvrAudio b with
               | Some r => Some (if isAudioDatagram dgram then AudioAppend r dgram now else r)
               | None => None
               end in
  let idx := parityIndexIfParity dgram in
  let '(ss, k) :=
    if idx >=? 0 then fan_loop (fan_parity idx dgram now) (subs b) k
    else fan_loop (fan_other dgram now) (subs b) k in
  MkHub ss k ring audio.

(** ** Routing *)

(** The promise of the fan-out, per subscriber: a parity symbol outside the
    subscriber's prefix is withheld (edge sessions are exempt), a delta goes
    to the leg its ordinal names and to a primary that is not suppressed, and
    everything else to all but the legs. *)
Definition in_prefix (s : Subscriber) (dgram : bytes) : bool :=
  let idx := parityIndexIfParity dgram in
  if idx >=? 0 then internal (cfg s) || (idx <? parityK (cfg s)) else true.
Definition stripe_wants (s : Subscriber) (dgram : bytes) (now : Z) : bool :=
  match deltaOrdinal dgram with
  | Some ord => wantsDeltaLocked s ord now
  | None => negb (stripeLeg (cfg s))
  end.
Definition wants (s : Subscriber) (dgram : bytes) (now : Z) : bool :=
  in_prefix s dgram && stripe_wants s dgram now.

Definition tally (P : Subscriber → bool) (ss : list Subscriber) : Z :=
  fold_right (λ s n, (if P s then 1 else 0) + n) 0 ss.

(** a primary's withheld delta *)
Definition withheld (dgram : bytes) (now : Z) (s : Subscriber) : bool :=
  in_prefix s dgram && negb (stripeLeg (cfg s)) && negb (stripe_wants s dgram now).

Lemma has_type_peek dgram types : has_type dgram types = true →
  ∃ v t, PeekType dgram = Ok (v, t) ∧ t ∈ types.
Proof.
  unfold has_type. destruct (PeekType dgram) as [[v t]| |]; [|done..].
  intros Ht%bool_decide_eq_true. by exists v, t.
Qed.

(** A datagram with a parity index is a delta. *)
Lemma parity_is_delta dgram : 0 ≤ parityIndexIfParity dgram → ∃ ord, deltaOrdinal dgram = Some ord.
Proof.
  unfold parityIndexIfParity, parityIndexOf, isParityDatagram, deltaOrdinal.
  destruct (has_type _ _) eqn:Ht; cbn [negb]; [|lia].
  apply has_type_peek in Ht as (v & t & -> & ->%list_elem_of_singleton).
  destruct (ParityChunk.ParseParityChunk dgram) as [[h pl]| |]; [|lia..]. intros _.
  cbn. by eexists.
Qed.

(** Not involved in striping: nothing to withhold. *)
Lemma uninvolved s dgram now :
  stripeLeg (cfg s) || (stripeUntil (stripe s) <>? 0) = false → stripe_wants s dgram now = true.
Proof.
  intros [Hl Hu]%orb_false_iff. unfold stripe_wants, wantsDeltaLocked, stripeSuppressed.
  rewrite Hl, Hu. by destruct (deltaOrdinal dgram).
Qed.

Definition routed (dgram : bytes) (now : Z) (s : Subscriber) : Subscriber :=
  if wants s dgram now then enqueueLocked s dgram else s.
Definition b2n (b : bool) : Z := if b then 1 else 0.

Lemma fan_parity_spec dgram now s k : 0 ≤ parityIndexIfParity dgram →
  fan_parity (parityIndexIfParity dgram) dgram now s k =
  (routed dgram now s,
   MkCounters (datagramsRelayed k) (stripeSuppressedDatagrams k + b2n (withheld dgram now s))
     (parityDatagramsForwarded k + b2n (wants s dgram now))
     (paritySuppressed k + b2n (negb (in_prefix s dgram)))).
Proof.
  intros Hidx. destruct (parity_is_delta dgram Hidx) as [ord Hord].
  unfold fan_parity, routed, wants, withheld, in_prefix.
  replace (parityIndexIfParity dgram >=? 0) with true by lia.
  destruct (internal (cfg s) || _); cbn [andb negb b2n]; [|by rewrite !Z.add_0_r].
  destruct (stripeLeg (cfg s) || (stripeUntil (stripe s) <>? 0)) eqn:Hinv.
  - unfold stripe_wants. rewrite Hord. destruct k as [a b c d]; cbn.
    destruct (wantsDeltaLocked s ord now), (stripeLeg (cfg s)); cbn; by rewrite ?Z.add_0_r.
  - rewrite (uninvolved s dgram now Hinv). destruct k as [a b c d]; cbn.
    rewrite andb_false_r. cbn. by rewrite !Z.add_0_r.
Qed.

Lemma fan_other_spec dgram now s k : parityIndexIfParity dgram < 0 →
  fan_other dgram now s k =
  (routed dgram now s,
   MkCounters (datagramsRelayed k) (stripeSuppressedDatagrams k + b2n (withheld dgram now s))
     (parityDatagramsForwarded k) (paritySuppressed k)).
Proof.
  intros Hidx. unfold fan_other, routed, wants, withheld, in_prefix.
  replace (parityIndexIfParity dgram >=? 0) with false by lia. cbn [andb].
  destruct (stripeLeg (cfg s) || (stripeUntil (stripe s) <>? 0)) eqn:Hinv.
  - unfold stripe_wants. destruct k as [a b c d]; cbn.
    destruct (deltaOrdinal dgram) as [ord|];
      [destruct (wantsDeltaLocked s ord now)|]; destruct (stripeLeg (cfg s)); cbn;
      by rewrite ?Z.add_0_r.
  - rewrite (uninvolved s dgram now Hinv). destruct k as [a b c d]; cbn.
    rewrite andb_false_r. cbn. by rewrite Z.add_0_r.
Qed.

(** Running one step per subscriber adds the contributions up. *)
Lemma fan_loop_spec step f (d1 d2 d3 : Subscriber → bool) ss : ∀ k,
  (∀ s k, step s k = (f s, MkCounters (datagramsRelayed k)
     (stripeSuppressedDatagrams k + b2n (d1 s)) (parityDatagramsForwarded k + b2n (d2 s))
     (paritySuppressed k + b2n (d3 s)))) →
  fan_loop step ss k = (map f ss, MkCounters (datagramsRelayed k)
     (stripeSuppressedDatagrams k + tally d1 ss) (parityDatagramsForwarded k + tally d2 ss)
     (paritySuppressed k + tally d3 ss)).
Proof.
  induction ss as [|s ss IH]; intros k Hstep.
  - destruct k; cbn. by rewrite !Z.add_0_r.
  - cbn [fan_loop]. rewrite Hstep, (IH _ Hstep). cbn [map tally fold_right]. f_equal.
    cbn [datagramsRelayed stripeSuppressedDatagrams parityDatagramsForwarded paritySuppressed].
    unfold b2n. f_equal; rewrite <- Z.add_assoc; reflexivity.
Qed.

(** The subscribers after a fan-out, and that no counter of it goes down. *)
Lemma fan_subs b dgram now : subs (fanOutLocked b dgram now) = map (routed dgram now) (subs b).
Proof.
  unfold fanOutLocked. set (k0 := MkCounters (_ + 1) _ _ _).
  destruct (Z.geb_spec (parityIndexIfParity dgram) 0) as [Hidx|Hidx].
  - by rewrite (fan_loop_spec _ (routed dgram now) (withheld dgram now) (λ s, wants s dgram now)
      (λ s, negb (in_prefix s dgram))) by (intros; apply fan_parity_spec; lia).
  - rewrite (fan_loop_spec _ (routed dgram now) (withheld dgram now) (λ _, false) (λ _, false)); [done|].
    intros s k. rewrite fan_other_spec by lia. cbn. by rewrite !Z.add_0_r.
Qed.
Lemma tally_nonneg P ss : 0 ≤ tally P ss.
Proof. unfold tally. induction ss as [|s ss IH]; cbn [fold_right]; [lia|]. destruct (P s); lia. Qed.
Definition counters_le (a b : Counters) : Prop :=
  datagramsRelayed a ≤ datagramsRelayed b ∧ stripeSuppressedDatagrams a ≤ stripeSuppressedDatagrams b ∧
  parityDatagramsForwarded a ≤ parityDatagramsForwarded b ∧ paritySuppressed a ≤ paritySuppressed b.
Lemma fan_counters b dgram now : counters_le (counters b) (counters (fanOutLocked b dgram now)).
Proof.
  unfold fanOutLocked. set (k0 := MkCounters (_ + 1) _ _ _). unfold counters_le.
  destruct (Z.geb_spec (parityIndexIfParity dgram) 0) as [Hidx|Hidx].
  - rewrite (fan_loop_spec _ (routed dgram now) (withheld dgram now) (λ s, wants s dgram now)
      (λ s, negb (in_prefix s dgram))) by (intros; apply fan_parity_spec; lia). cbn.
    pose proof (tally_nonneg (withheld dgram now) (subs b)).
    pose proof (tally_nonneg (λ s, wants s dgram now) (subs b)).
    pose proof (tally_nonneg (λ s, negb (in_prefix s dgram)) (subs b)). lia.
  - rewrite (fan_loop_spec _ (routed dgram now) (withheld dgram now) (λ _, false) (λ _, false)).
    2: { intros s k. rewrite fan_other_spec by lia. cbn. by rewrite !Z.add_0_r. }
    cbn. pose proof (tally_nonneg (withheld dgram now) (subs b)).
    pose proof (tally_nonneg (λ _, false) (subs b)). lia.
Qed.

(** ** Queues *)

Lemma purge_split_spec q :
  purge_split q = (zlen (filter (λ d, isCarrierMediaDatagram d = true) q),
                   filter (λ d, isCarrierMediaDatagram d = false) q).
Proof.
  induction q as [|d q IH]; [done|]. cbn [purge_split]. rewrite IH, !filter_cons.
  destruct (isCarrierMediaDatagram d); cbn [decide].
  - rewrite decide_True, decide_False, zlen_cons by done. f_equal. lia.
  - rewrite decide_False, decide_True by done. done.
Qed.

Lemma resend_all cap keep : ∀ q, zlen q + zlen keep ≤ cap →
  fold_left (λ q d, match try_send q cap d with Some q' => q' | None => q end) keep q = q ++ keep.
Proof.
  induction keep as [|d keep IH]; intros q Hcap; [by rewrite app_nil_r|].
  rewrite zlen_cons in Hcap. pose proof (zlen_nonneg keep). cbn [fold_left].
  unfold try_send at 2. rewrite (proj2 (Z.ltb_lt _ _)) by lia.
  rewrite IH by zlia. by rewrite <- app_assoc.
Qed.

(** The purge keeps exactly the control datagrams, in order: they always fit
    back. *)
Lemma purge_spec q cap : zlen q ≤ cap →
  purgeQueuedDeltasLocked q cap =
  (filter (λ d, isCarrierMediaDatagram d = false) q,
   zlen (filter (λ d, isCarrierMediaDatagram d = true) q)).
Proof.
  intros Hcap. unfold purgeQueuedDeltasLocked. rewrite purge_split_spec. f_equal.
  rewrite resend_all; [done|]. change (zlen []) with 0.
  assert (Hle : (length (filter (λ d, isCarrierMediaDatagram d = false) q) ≤ length q)%nat)
    by apply length_filter.
  unfold zlen in *. lia.
Qed.

Definition lanes_ok (c : SubConfig) (l : Lanes) : Prop :=
  zlen (queue l) ≤ queueCap c ∧
  match audioCap c with Some cap => zlen (audioQueue l) ≤ cap | None => True end.
Definition control (q : list bytes) : list bytes :=
  filter (λ d, isCarrierMediaDatagram d = false) q.

Lemma try_send_ok q cap d q' : try_send q cap d = Some q' → q' = q ++ [d] ∧ zlen q' ≤ cap.
Proof.
  unfold try_send. case_match eqn:E; [|done]. intros [= <-]. split; [done|].
  rewrite zlen_app, zlen_cons. change (zlen []) with 0. lia.
Qed.

Lemma control_app q k : control q `prefix_of` control (q ++ k).
Proof. unfold control. rewrite filter_app. by eexists. Qed.
Lemma control_idemp q : control (control q) = control q.
Proof. apply list_filter_filter_l. auto. Qed.

Lemma enqueue_safe c l dgram : lanes_ok c l →
  lanes_ok c (enqueue_lanes c l dgram) ∧
  control (queue l) `prefix_of` control (queue (enqueue_lanes c l dgram)) ∧
  audioQueue l `prefix_of` audioQueue (enqueue_lanes c l dgram).
Proof.
  intros [Hq Ha]. unfold enqueue_lanes.
  destruct (hasDvr c && _); [by repeat split|]. destruct (hasDvrAudio c && _); [by repeat split|].
  destruct (if isAudioDatagram dgram then audioCap c else None) as [cap|] eqn:Hcap.
  - assert (Hac : audioCap c = Some cap) by (by destruct (isAudioDatagram dgram)).
    destruct (try_send (audioQueue l) cap dgram) as [q'|] eqn:Ht; [|by repeat split].
    apply try_send_ok in Ht as [-> Hl]. unfold lanes_ok. cbn [queue audioQueue].
    rewrite Hac. repeat split; [done..|]. by eexists.
  - destruct (reliable c && _ && _); [by repeat split|].
    destruct (try_send (queue l) (queueCap c) dgram) as [q'|] eqn:Ht.
    + apply try_send_ok in Ht as [-> Hl]. unfold lanes_ok. cbn [queue audioQueue].
      repeat split; [done..|apply control_app|done].
    + destruct (negb (reliable c)); [by repeat split|]. rewrite purge_spec by done.
      unfold lanes_ok. cbn [queue audioQueue]. fold (control (queue l)). rewrite control_idemp.
      repeat split; [|done..]. etrans; [|exact Hq]. unfold zlen.
      apply Nat2Z.inj_le. apply length_filter.
Qed.

(** ** Properties *)

(** C32. The fan-out delivers a datagram to exactly the subscribers that want
    it, touches no other, and its counters are the number of deltas withheld
    from suppressed primaries, of parity symbols forwarded and of parity
    symbols outside a prefix. The rings are fed once, with media and audio. *)
Theorem fanOut_routes b dgram now :
  let b' := fanOutLocked b dgram now in
  let k := counters b in
  let parity := parityIndexIfParity dgram >=? 0 in
  subs b' = map (λ s, if wants s dgram now then enqueueLocked s dgram else s) (subs b) ∧
  counters b' = MkCounters (datagramsRelayed k + 1)
    (stripeSuppressedDatagrams k + tally (withheld dgram now) (subs b))
    (parityDatagramsForwarded k +
       (if parity then tally (λ s, wants s dgram now) (subs b) else 0))
    (paritySuppressed k +
       (if parity then tally (λ s, negb (in_prefix s dgram)) (subs b) else 0)) ∧
  dvr b' = option_map (λ r, if isCarrierMediaDatagram dgram then AppendRecord r dgram now else r)
             (dvr b) ∧
  dvrAudio b' = option_map (λ r, if isAudioDatagram dgram then AudioAppend r dgram now else r)
             (dvrAudio b).
Proof.
  cbn zeta. unfold fanOutLocked. set (k0 := MkCounters (_ + 1) _ _ _).
  destruct (Z.geb_spec (parityIndexIfParity dgram) 0) as [Hidx|Hidx].
  - rewrite (fan_loop_spec _ (routed dgram now) (withheld dgram now) (λ s, wants s dgram now)
      (λ s, negb (in_prefix s dgram))) by (intros; apply fan_parity_spec; lia).
    cbn [subs counters dvr dvrAudio]. split; [done|]. split; [done|].
    by destruct (dvr b), (dvrAudio b).
  - rewrite (fan_loop_spec _ (routed dgram now) (withheld dgram now) (λ _, false) (λ _, false)).
    2: { intros s k. rewrite fan_other_spec by lia. cbn. by rewrite !Z.add_0_r. }
    assert (Hz : ∀ ss, tally (λ _, false) ss = 0)
      by (intros ss; unfold tally; induction ss as [|s ss IH]; [done|]; cbn [fold_right]; lia).
    rewrite !Hz. cbn [subs counters dvr dvrAudio]. split; [done|]. split; [done|].
    by destruct (dvr b), (dvrAudio b).
Qed.

(** No hole: of the N legs of a stripe, exactly one wants a given delta
    inside their common parity prefix, and no leg ever wants anything else. *)
Theorem legs_partition_deltas (legs : list Subscriber) N K dgram now :
  1 ≤ N → zlen legs = N →
  (∀ j s, legs !! j = Some s → stripeLeg (cfg s) = true ∧ stripeN (cfg s) = N ∧
     stripeMember (cfg s) = Z.of_nat j ∧ internal (cfg s) = false ∧ parityK (cfg s) = K) →
  bytes_ok dgram →
  (∃ ord, deltaOrdinal dgram = Some ord) ∧ parityIndexIfParity dgram < K →
  ∃ j s, legs !! j = Some s ∧ wants s dgram now = true ∧
    ∀ j' s', legs !! j' = Some s' → wants s' dgram now = true → j' = j.
Proof.
  intros HN Hlen Hlegs Hb [[ord Hord] HK].
  assert (H0 : 0 ≤ ord).
  { revert Hord. unfold deltaOrdinal. destruct (PeekType dgram) as [[v t]| |]; [|done..].
    case_match.
    - destruct (VideoChunk.ParseVideoChunk dgram) as [[h pl]| |] eqn:E; [|done..].
      intros [= <-]. by apply (VideoChunk.parse_nonneg dgram h pl).
    - case_match; [|done].
      destruct (ParityChunk.ParseParityChunk dgram) as [[h pl]| |] eqn:E; [|done..].
      intros [= <-]. unfold StripeState.StripeOrdinal. case_match; [|lia].
      unfold uint32. apply Z.mod_pos_bound. lia. }
  assert (Hw : ∀ j s, legs !! j = Some s → wants s dgram now = (ord mod N =? Z.of_nat j)).
  { intros j s Hs. destruct (Hlegs j s Hs) as (Hl & Hn & Hm & Hi & Hk).
    unfold wants, in_prefix, stripe_wants, wantsDeltaLocked.
    rewrite Hord, Hl, Hn, Hm, Hi, Hk, Z.rem_mod_nonneg by lia.
    replace (if parityIndexIfParity dgram >=? 0 then false || (parityIndexIfParity dgram <? K)
             else true) with true; [done|]. case_match; lia. }
  pose proof (Z.mod_pos_bound ord N ltac:(lia)) as Hmod.
  destruct (lookup_lt_is_Some_2 legs (Z.to_nat (ord mod N))) as [s Hs]; [unfold zlen in Hlen; lia|].
  exists (Z.to_nat (ord mod N)), s. split; [done|]. split.
  - rewrite (Hw _ _ Hs). apply Z.eqb_eq. lia.
  - intros j' s' Hs' Hw'. rewrite (Hw _ _ Hs') in Hw'. lia.
Qed.

Definition demo_cfg (leg : bool) (j : Z) : SubConfig :=
  MkConfig false false false false leg 2 j (str "0123456789abcdef"%string) 1 4 None.
Definition demo_sub (leg : bool) (j : Z) : Subscriber :=
  MkSub (demo_cfg leg j) (MkStripe 0 0 0) (MkLanes [] [] 0 0 0 0 0).
(** the second of three chunks of a delta frame *)
Definition demo_delta : bytes :=
  [1; 1; 0; 0; 0; 0; 0; 7; 0; 1; 0; 3; 0; 0; 0; 0; 0; 0; 0; 0; 42].

Lemma legs_partition_deltas_witness :
  ∃ j s, [demo_sub true 0; demo_sub true 1] !! j = Some s ∧ wants s demo_delta 5 = true.
Proof.
  destruct (legs_partition_deltas [demo_sub true 0; demo_sub true 1] 2 1 demo_delta 5)
    as (j & s & Hs & Hw & _).
  - lia.
  - reflexivity.
  - intros [|[|j]] s Hs; [injection Hs as <-; by repeat split..|discriminate].
  - unfold demo_delta. repeat constructor; unfold is_byte; lia.
  - split; [exists 1; vm_compute; reflexivity|vm_compute; reflexivity].
  - exists j, s. split; [exact Hs|exact Hw].
Defined.

(** How many of the ordinals below [m] a leg owns. *)
Definition leg_share (N j : Z) (m : nat) : Z :=
  zlen (filter (λ d, d mod N = j) (map Z.of_nat (seq 0 m))).

(** The ordinals of a frame of [n] data chunks and its parity symbols are
    0, 1, ..., so every leg's share of the frame differs from any other leg's
    by at most one datagram. *)
Theorem legs_share_evenly N j (m : nat) :
  1 ≤ N → 0 ≤ j < N →
  leg_share N j m = Z.of_nat m / N + (if j <? Z.of_nat m mod N then 1 else 0) ∧
  (∀ n i, StripeState.StripeOrdinal i n (-1) = i) ∧
  (∀ n p, 0 ≤ p < MaxParitySymbols → 0 ≤ n ≤ MaxParityDataChunks →
     StripeState.StripeOrdinal 0 n p = n + p).
Proof.
  intros HN Hj. split; [|split].
  - unfold leg_share. induction m as [|m IH].
    { cbn. rewrite Z.mod_0_l, Z.div_0_l by lia. replace (j <? 0) with false by lia. done. }
    rewrite seq_S, map_app, filter_app, zlen_app, IH. cbn [map Nat.add].
    rewrite filter_cons. change (filter (λ d, d mod N = j) []) with (@nil Z).
    pose proof (Z.mod_pos_bound (Z.of_nat m) N ltac:(lia)) as Hb.
    pose proof (Z.div_mod (Z.of_nat m) N ltac:(lia)) as Hd.
    set (q := Z.of_nat m / N) in *. set (r := Z.of_nat m mod N) in *.
    destruct (decide (r = N - 1)) as [Hr|Hr].
    + assert (Z.of_nat (S m) / N = q + 1 ∧ Z.of_nat (S m) mod N = 0) as [-> ->].
      { replace (Z.of_nat (S m)) with (0 + (q + 1) * N) by nia.
        rewrite Z.div_add, Z.mod_add, Z.div_0_l, Z.mod_0_l by lia. lia. }
      case_decide; [rewrite zlen_cons|]; change (zlen []) with 0; repeat case_match; lia.
    + assert (Z.of_nat (S m) / N = q ∧ Z.of_nat (S m) mod N = r + 1) as [-> ->].
      { replace (Z.of_nat (S m)) with (r + 1 + q * N) by nia.
        rewrite Z.div_add, Z.mod_add, Z.div_small, Z.mod_small by lia. lia. }
      case_decide; [rewrite zlen_cons|]; change (zlen []) with 0; repeat case_match; lia.
  - reflexivity.
  - intros n p Hp Hn. unfold StripeState.StripeOrdinal, uint32. wire_const.
    replace (p >=? 0) with true by lia.
    rewrite (Z.mod_small p) by lia. apply Z.mod_small. lia.
Qed.

Lemma legs_share_evenly_witness : leg_share 3 1 8 = 3.
Proof. destruct (legs_share_evenly 3 1 8 ltac:(lia) ltac:(lia)) as [H _]. exact H. Defined.

(** may a StripeState suppress this session? *)
Definition suppressible (s : Subscriber) : bool :=
  let c := cfg s in
  negb (internal c || reliable c || hasDvr c || stripeLeg c || bool_decide (owner c = [])).
Definition armed (s : Subscriber) : bool := stripeUntil (stripe s) <>? 0.

(** A StripeState suppresses an owned datagram primary's deltas from its
    arrival for exactly the TTL, an unstriped state resumes them at once, and
    on any other session it changes nothing. The transition counter moves
    exactly when the level flips, so a refresh does not count. *)
Theorem ApplyStripeState_spec s st now t :
  0 ≤ now →
  let s' := ApplyStripeState s st now in
  cfg s' = cfg s ∧ lanes s' = lanes s ∧
  (suppressible s = false → s' = s) ∧
  (suppressible s = true →
     stripeSuppressed s' t = StripeState.Striped st && (t <? now + StripeStateTTL) ∧
     armed s' = StripeState.Striped st ∧
     stripeTransitions (stripe s') = stripeTransitions (stripe s) +
       (if Bool.eqb (armed s) (StripeState.Striped st) then 0 else 1)).
Proof.
  intros Hnow. cbn zeta. unfold ApplyStripeState, suppressible, armed.
  destruct (_ || _); cbn [negb]; [by repeat split|].
  destruct st as [[|] n]; cbn [StripeState.Striped StripeState.StripeN].
  - split; [done|]. split; [done|]. split; [done|]. intros _.
    unfold stripeSuppressed, StripeStateTTL. cbn [stripe stripeUntil stripeTransitions].
    replace (now + 5 * 10 ^ 9 <>? 0) with true by lia. split; [done|]. split; [done|].
    destruct (stripeUntil (stripe s) =? 0); cbn; lia.
  - split; [done|]. split; [done|]. split; [done|]. intros _.
    unfold stripeSuppressed. cbn [stripe stripeUntil stripeTransitions]. split; [done|].
    split; [done|]. destruct (stripeUntil (stripe s) =? 0); cbn; lia.
Qed.

Lemma ApplyStripeState_spec_witness :
  let s' := ApplyStripeState (demo_sub false 0) (StripeState.Build_StripeState true 2) 1000 in
  stripeSuppressed s' 2000 = true ∧ stripeSuppressed s' 5000001000 = false.
Proof.
  split.
  - destruct (ApplyStripeState_spec (demo_sub false 0) (StripeState.Build_StripeState true 2)
      1000 2000 ltac:(lia)) as (_ & _ & _ & H). exact (proj1 (H eq_refl)).
  - destruct (ApplyStripeState_spec (demo_sub false 0) (StripeState.Build_StripeState true 2)
      1000 5000001000 ltac:(lia)) as (_ & _ & _ & H). exact (proj1 (H eq_refl)).
Defined.



(** A stripe dial is accepted exactly when both parameters are integers in
    range, the owner token is 16 lower-case hex digits, striping is enabled
    and delivery is by datagrams; with neither parameter it is an ordinary
    viewer, and everything else is rejected. *)
Theorem NegotiateStripe_spec sp lp op enabled reliable :
  NegotiateStripe sp lp op enabled reliable =
  if bool_decide (sp = []) && bool_decide (lp = []) then Ok None else
  match Atoi sp, Atoi lp with
  | Some n, Some j =>
      if enabled && negb reliable && ValidOwnerToken op &&
         (1 <=? n) && (n <=? MaxStripeLegs) && (0 <=? j) && (j <? n)
      then Ok (Some (MkLeg n j op)) else Err ErrStripeRejected
  | _, _ => Err ErrStripeRejected
  end.
Proof.
  assert (Hnil : Atoi [] = None) by reflexivity. unfold NegotiateStripe.
  destruct (bool_decide_reflect (sp = [])) as [->|Hs],
    (bool_decide_reflect (lp = [])) as [->|Hl]; cbn [andb orb].
  - done.
  - by rewrite Hnil.
  - rewrite Hnil. by destruct (Atoi sp).
  - destruct enabled, reliable, (ValidOwnerToken op); cbn [negb andb];
      try (by destruct (Atoi sp), (Atoi lp)).
    destruct (Atoi sp) as [n|]; [|done]. destruct (Atoi lp) as [j|]; [|by case_match].
    wire_const. destruct (Z.ltb_spec n 1); [by rewrite (proj2 (Z.leb_gt 1 n)) by lia|].
    rewrite (proj2 (Z.leb_le 1 n)) by lia. cbn [orb andb].
    destruct (Z.gtb_spec n 4); [by rewrite (proj2 (Z.leb_gt n 4)) by lia|].
    rewrite (proj2 (Z.leb_le n 4)) by lia. cbn [orb andb].
    destruct (Z.ltb_spec j 0); [by rewrite (proj2 (Z.leb_gt 0 j)) by lia|].
    rewrite (proj2 (Z.leb_le 0 j)) by lia. cbn [orb andb].
    destruct (Z.geb_spec j n); [by rewrite (proj2 (Z.ltb_ge j n)) by lia|].
    by rewrite (proj2 (Z.ltb_lt j n)) by lia.
Qed.

(** Parity negotiation never serves more than the fleet emits nor less
    than nothing, and within that serves what the viewer asked for; an absent
    or unusable request means the fleet's level. *)
Theorem NegotiateParity_spec param fleet :
  let '(requested, served) := NegotiateParity param fleet in
  served = Z.max 0 (Z.min requested fleet) ∧
  requested = match Atoi param with
              | Some v => if (0 <=? v) && (v <=? MaxParitySymbols) then v else fleet
              | None => fleet
              end.
Proof.
  unfold NegotiateParity. set (req := if negb _ then _ else _).
  assert (Hreq : req = match Atoi param with
    | Some v => if (0 <=? v) && (v <=? MaxParitySymbols) then v else fleet | None => fleet end).
  { unfold req. case_bool_decide as Hp; cbn [negb]; [by subst|].
    destruct (Atoi param) as [v|]; [|done]. by rewrite Z.geb_leb. }
  split; [|done]. clearbody req. repeat case_match; lia.
Qed.
