(* ===== verification/WireSpec.v ===== *)
(** Properties of the wire package as a whole: round trips, canonical forms,
    totality, stream framing. *)
From S2P Require Export WireMedia WireControl WireVoice RoomMessages LocalRelay Parity.
#[local] Open Scope Z_scope.

(** ** What the messages share *)

#[local] Existing Instances VideoChunk.codec VideoChunk.lawful DecoderConfig.codec
  DecoderConfig.lawful AudioFrame.codec AudioFrame.lawful AudioConfig.codec AudioConfig.lawful
  StreamFrame.codec StreamFrame.lawful TimeSync.codec TimeSync.lawful TimeSync.strict
  ClockMapping.codec ClockMapping.lawful ClockMapping.strict ViewerCount.codec
  ViewerCount.lawful ViewerCount.strict DeliveryAck.codec DeliveryAck.lawful
  DeliveryAck.strict VideoUndeliverable.codec VideoUndeliverable.lawful
  VideoUndeliverable.strict StripeState.codec StripeState.lawful BroadcastAnnounce.codec
  BroadcastAnnounce.lawful ResumeToken.codec ResumeToken.lawful ResumeToken.strict
  TelemetryHello.codec TelemetryHello.lawful TelemetryHello.strict RelayCapabilities.codec
  RelayCapabilities.lawful RelayCapabilities.strict SessionClosing.codec
  SessionClosing.lawful SessionClosing.strict RelayIdentity.codec RelayIdentity.lawful
  ParityChunk.codec ParityChunk.lawful VoiceHello.codec VoiceHello.lawful VoiceFrame.codec
  VoiceFrame.lawful VoiceState.codec VoiceState.lawful VoiceState.strict VoiceControl.codec
  VoiceControl.lawful VoiceControl.strict hello_codec hello_lawful hello_strict
  info_codec info_lawful offer_codec offer_lawful.

Definition roundtrips A `{Codec A} : Prop := ∀ dst (a : A) out,
  cwf a → cappend dst a = Ok out → ∃ enc, out = dst ++ enc ∧ cparse enc = Ok a.
Definition is_canonical A `{Codec A} : Prop := ∀ d (a : A),
  bytes_ok d → cparse d = Ok a → cappend [] a = Ok d.
Definition never_panics A `{Codec A} : Prop :=
  (∀ d, bytes_ok d → cparse (A:=A) d ≠ Fault) ∧ (∀ dst (a : A), cappend dst a ≠ Fault).

Lemma lawful_roundtrips A `{LawfulCodec A} : roundtrips A.
Proof. intros dst a out. apply codec_append. Qed.
Lemma strict_canonical A `{StrictCodec A} : is_canonical A.
Proof. intros d a. apply codec_canonical. Qed.
Lemma lawful_never_panics A `{LawfulCodec A} : never_panics A.
Proof. split; [apply codec_parse_nofault|apply codec_append_nofault]. Qed.


(** The strict messages have one encoding per value: whatever parses
    is exactly what [AppendX] writes for the result, so a relay that re-encodes
    a parsed message forwards the bytes it received. *)
Theorem messages_canonical :
  is_canonical TimeSync.msg ∧ is_canonical ClockMapping.msg ∧ is_canonical ViewerCount.msg ∧
  is_canonical DeliveryAck.msg ∧ is_canonical VideoUndeliverable.VideoUndeliverable ∧
  is_canonical ResumeToken.msg ∧ is_canonical TelemetryHello.TelemetryHello ∧
  is_canonical RelayCapabilities.RelayCapabilities ∧ is_canonical SessionClosing.msg ∧
  is_canonical VoiceState.VoiceState ∧ is_canonical VoiceControl.msg ∧
  is_canonical RoomHello.RoomHello.
Proof. repeat split; apply strict_canonical; apply _. Qed.


(** ** Video chunks *)

(** A video chunk fits a datagram and parses back exactly, if its frame has
    at most [MaxChunkCount] chunks; with more, [AppendVideoChunk] writes it all
    the same and [ParseVideoChunk] refuses it. *)
Theorem video_chunk_roundtrip dst h payload out :
  VideoChunk.wf h → VideoChunk.AppendVideoChunk dst h payload = Ok out →
  ∃ enc, out = dst ++ enc ∧ zlen enc = VideoChunkHeaderSize + zlen payload ∧
    zlen enc ≤ MaxDatagramSize ∧
    VideoChunk.ParseVideoChunk enc =
      if VideoChunk.ChunkCount h <=? MaxChunkCount then Ok (h, payload) else Err ErrBadChunkCount.
Proof.
  destruct h as [kf fid ci cc ts]. intros (Hf & Hi & Hc & Ht); cbn in *.
  unfold VideoChunk.AppendVideoChunk; cbn. append_guards. wire_const.
  split; [destruct kf; zlia|]. split; [destruct kf; zlia|].
  unfold VideoChunk.ParseVideoChunk; wire_const.
  destruct kf; parse_run; rewrite expect_prefix_ok; parse_run;
    rewrite !be_decode_16, !be_decode_32, !be_decode_64 by done;
    (destruct (Z.leb_spec cc 3000);
     [parse_run; done|by replace (_ || (cc >? 3000)) with true by (symmetry; apply orb_true_intro; lia)]).
Qed.

Lemma video_chunk_roundtrip_witness :
  ∃ enc, [9] ++ enc = [9; 1; 1; 1; 0; 0; 0; 0; 7; 0; 1; 0; 3; 0; 0; 0; 0; 0; 0; 0; 5; 42] ∧
    VideoChunk.ParseVideoChunk enc =
      Ok (VideoChunk.Build_VideoChunkHeader true 7 1 3 5, [42]).
Proof.
  destruct (video_chunk_roundtrip [9] (VideoChunk.Build_VideoChunkHeader true 7 1 3 5) [42]
    [9; 1; 1; 1; 0; 0; 0; 0; 7; 0; 1; 0; 3; 0; 0; 0; 0; 0; 0; 0; 5; 42])
    as (enc & He & _ & _ & Hp).
  - repeat split; vm_compute; (reflexivity || discriminate).
  - vm_compute. reflexivity.
  - exists enc. split; [symmetry; exact He|exact Hp].
Defined.

(** ** Keyframe streams *)

(** The header of a keyframe stream is read from the front of any longer
    buffer, and an accepted header never declares more than the keyframe
    ceiling: the sum is computed without wrap-around, so it bounds what a
    reader allocates. *)
Theorem stream_frame_bounded buf h :
  bytes_ok buf → StreamFrame.ParseStreamFrameHeader buf = Ok h →
  0 ≤ StreamFrame.ConfigLen h ∧ 0 ≤ StreamFrame.PayloadLen h ∧
  StreamFrameHeaderSize + StreamFrame.ConfigLen h + StreamFrame.PayloadLen h ≤ MaxKeyframeBytes ∧
  ∃ out, StreamFrame.AppendStreamFrameHeader [] h = Ok out ∧
    ∀ rest, StreamFrame.ParseStreamFrameHeader (out ++ rest) = Ok h.
Proof.
  intros Hb Hp. destruct (StreamFrame.parse_bound buf h Hb Hp) as [Hwf Hmax].
  pose proof Hwf as (_ & _ & Hc & Hl). split; [lia|]. split; [lia|]. split; [done|].
  assert (Ho : ∃ out, StreamFrame.AppendStreamFrameHeader [] h = Ok out).
  { unfold StreamFrame.AppendStreamFrameHeader, uint64. wire_const.
    rewrite (Z.mod_small (24 + _)), Z.mod_small by lia.
    replace (_ >? 8 * 2 ^ 20) with false by lia. by eexists. }
  destruct Ho as [out Ho]. exists out. split; [done|]. intros rest.
  by destruct (StreamFrame.parse_header_append [] h out rest Hwf Ho) as (enc & -> & _ & H).
Qed.

Lemma stream_frame_bounded_witness :
  ∃ h, StreamFrame.ParseStreamFrameHeader
         [1; 4; 1; 0; 0; 0; 0; 7; 0; 0; 0; 0; 0; 0; 0; 5; 0; 0; 0; 3; 0; 0; 1; 0; 77] = Ok h ∧
    StreamFrameHeaderSize + StreamFrame.ConfigLen h + StreamFrame.PayloadLen h ≤ MaxKeyframeBytes.
Proof.
  eexists. split; [vm_compute; reflexivity|].
  refine (proj1 (proj2 (proj2 (stream_frame_bounded
    [1; 4; 1; 0; 0; 0; 0; 7; 0; 0; 0; 0; 0; 0; 0; 5; 0; 0; 0; 3; 0; 0; 1; 0; 77] _ _ _)))).
  - repeat constructor; unfold is_byte; lia.
  - vm_compute. reflexivity.
Defined.

(** ** Carrier streams *)

(** A sequence of records appended one after the other, and a reader that
    takes records off the front of what it has received until it needs more
    (every record is at least three bytes, so the length is fuel enough). *)
Fixpoint frame_all (dst : bytes) (recs : list bytes) : res bytes :=
  match recs with
  | [] => Ok dst
  | r :: recs' => dst ← Carrier.AppendCarrierRecord dst r; frame_all dst recs'
  end.
Fixpoint unframe (fuel : nat) (buf : bytes) : list bytes * bytes :=
  match fuel with
  | O => ([], buf)
  | S fuel' =>
      match Carrier.ParseCarrierRecord buf with
      | Ok (r, rest) => let '(rs, rest) := unframe fuel' rest in (r :: rs, rest)
      | _ => ([], buf)
      end
  end.

Definition sized (r : bytes) : Prop := 0 < zlen r ≤ MaxDatagramSize.
Definition enc_record (r : bytes) : bytes := be_encode 2 (zlen r) ++ r.
Definition enc_all (recs : list bytes) : bytes := concat (map enc_record recs).

Lemma append_record dst r : sized r → Carrier.AppendCarrierRecord dst r = Ok (dst ++ enc_record r).
Proof.
  unfold sized, Carrier.AppendCarrierRecord, AppendUint16, uint16. wire_const. intros Hr.
  replace (_ || _) with false by lia. rewrite Z.mod_small by lia.
  unfold enc_record. by rewrite app_assoc.
Qed.
Lemma frame_all_enc recs : ∀ dst, Forall sized recs → frame_all dst recs = Ok (dst ++ enc_all recs).
Proof.
  induction recs as [|r recs IH]; intros dst Hs; cbn [frame_all]; [by rewrite app_nil_r|].
  apply Forall_cons_iff in Hs as [Hr Hs]. rewrite append_record by done. cbn [mbind outcome_bind].
  rewrite IH by done. unfold enc_all. cbn [map concat]. by rewrite app_assoc.
Qed.
Lemma parse_record r rest : sized r →
  Carrier.ParseCarrierRecord (enc_record r ++ rest) = Ok (r, rest).
Proof.
  intros Hr. destruct (Carrier.parse_record_append [] r (enc_record r) rest) as (enc & -> & Hp); [|done].
  by rewrite append_record.
Qed.
Lemma parse_partial r k : sized r → (k < length (enc_record r))%nat →
  Carrier.ParseCarrierRecord (take k (enc_record r)) = Err ErrShortDatagram.
Proof. intros Hr. apply (Carrier.parse_prefix [] r (enc_record r)); [by rewrite append_record|done]. Qed.

Lemma length_enc r : (2 ≤ length (enc_record r))%nat.
Proof. unfold enc_record. rewrite length_app, length_be_encode. lia. Qed.

Lemma unframe_all recs : ∀ fuel, Forall sized recs → (length (enc_all recs) ≤ fuel)%nat →
  unframe fuel (enc_all recs) = (recs, []).
Proof.
  induction recs as [|r recs IH]; intros fuel Hs Hf; [by destruct fuel|].
  apply Forall_cons_iff in Hs as [Hr Hs]. pose proof (length_enc r).
  unfold enc_all in *. cbn [map concat] in *. rewrite length_app in Hf.
  destruct fuel as [|fuel]; [lia|]. cbn [unframe]. rewrite parse_record by done.
  by rewrite IH by (done || lia).
Qed.

Lemma unframe_cut recs : ∀ s1 s2 fuel, Forall sized recs → enc_all recs = s1 ++ s2 →
  (length s1 ≤ fuel)%nat →
  ∃ n rest, unframe fuel s1 = (take n recs, rest) ∧
    Carrier.ParseCarrierRecord rest = Err ErrShortDatagram ∧ rest ++ s2 = enc_all (drop n recs).
Proof.
  induction recs as [|r recs IH]; intros s1 s2 fuel Hs He Hf.
  { apply eq_sym, app_nil in He as [-> ->]. exists 0%nat, []. by destruct fuel. }
  apply Forall_cons_iff in Hs as [Hr Hs]. pose proof (length_enc r).
  unfold enc_all in He. cbn [map concat] in He. fold (enc_all recs) in He.
  destruct (decide (length s1 < length (enc_record r))%nat) as [Hlt|Hge].
  - assert (H1 : s1 = take (length s1) (enc_record r)).
    { rewrite <- (take_app_le (enc_record r) (enc_all recs)) by lia. by rewrite He, take_app_length. }
    assert (Hp : Carrier.ParseCarrierRecord s1 = Err ErrShortDatagram)
      by (rewrite H1; by apply parse_partial).
    exists 0%nat, s1. split; [|by split]. destruct fuel; [done|]. cbn [unframe]. by rewrite Hp.
  - assert (H1 : s1 = enc_record r ++ drop (length (enc_record r)) s1).
    { rewrite <- (take_drop (length (enc_record r)) s1) at 1. f_equal.
      rewrite <- (take_app_le s1 s2) by lia. by rewrite <- He, take_app_length. }
    set (s1' := drop _ s1) in *. rewrite H1, <- app_assoc in He. apply app_inv_head in He.
    destruct fuel as [|fuel]; [lia|]. rewrite H1, length_app in Hf.
    destruct (IH s1' s2 fuel Hs He ltac:(lia)) as (n & rest & Hu & Hp & Hr2).
    exists (S n), rest. cbn [unframe]. by rewrite H1, parse_record, Hu.
Qed.

(** Carrier framing: a stream of records reads back as exactly those
    records, and wherever the bytes received so far are cut, the reader has the
    records that arrived whole, is told to read more, and continues with the
    next record when the rest arrives. *)
Theorem carrier_stream_roundtrip recs :
  Forall sized recs →
  ∃ s, frame_all [] recs = Ok s ∧ unframe (length s) s = (recs, []) ∧
    ∀ s1 s2, s = s1 ++ s2 → ∃ n rest,
      unframe (length s1) s1 = (take n recs, rest) ∧
      Carrier.ParseCarrierRecord rest = Err ErrShortDatagram ∧
      unframe (length (rest ++ s2)) (rest ++ s2) = (drop n recs, []).
Proof.
  intros Hs. exists (enc_all recs). rewrite frame_all_enc by done. split; [done|].
  split; [by apply unframe_all|]. intros s1 s2 He.
  destruct (unframe_cut recs s1 s2 (length s1) Hs He ltac:(lia)) as (n & rest & Hu & Hp & Hr).
  exists n, rest. split; [done|]. split; [done|]. rewrite Hr.
  apply unframe_all; [by apply Forall_drop|lia].
Qed.

Lemma carrier_stream_roundtrip_witness :
  ∃ s, frame_all [] [[7]; [8; 9]] = Ok s ∧ unframe (length s) s = ([[7]; [8; 9]], []).
Proof.
  destruct (carrier_stream_roundtrip [[7]; [8; 9]]) as (s & Hs & Hu & _).
  - repeat constructor; vm_compute; discriminate.
  - exists s. split; [exact Hs|exact Hu].
Defined.

(** ** Extensible and identifier messages *)

(** The relay messages grow at their end. Bytes appended by a newer relay
    to a RelayIdentity are ignored, except that the first of them is the notices
    byte when the encoder wrote none; bytes after a LocalRelayInfo or a
    LocalRelayOffer are ignored. *)
Theorem relay_messages_extend :
  (∀ dst m out, RelayIdentity.AppendRelayIdentity dst m = Ok out →
   ∃ enc, out = dst ++ enc ∧ ∀ ext,
    RelayIdentity.ParseRelayIdentity (enc ++ ext) =
      Ok (RelayIdentity.Build_RelayIdentity (RelayIdentity.ServerVersion m) (RelayIdentity.Name m)
            (if RelayIdentity.Notices m <>? 0 then RelayIdentity.Notices m else hd 0 ext))) ∧
  (∀ dst m out, LocalRelayInfo.AppendLocalRelayInfo dst m = Ok out →
   ∃ enc, out = dst ++ enc ∧ ∀ ext, LocalRelayInfo.ParseLocalRelayInfo (enc ++ ext) = Ok m) ∧
  (∀ dst m out, LocalRelayOffer.AppendLocalRelayOffer dst m = Ok out →
   is_uint 32 (LocalRelayOffer.Validity m) →
   Forall candidate_typed (LocalRelayOffer.Candidates m) →
   ∃ enc, out = dst ++ enc ∧ ∀ ext, LocalRelayOffer.ParseLocalRelayOffer (enc ++ ext) = Ok m).
Proof.
  split; [|split; [exact parse_info_ext|exact parse_offer_ext]].
  intros dst m out Ho.
  destruct (RelayIdentity.parse_identity_append dst m out [] Ho) as (enc & -> & _).
  exists enc. split; [done|]. intros ext.
  destruct (RelayIdentity.parse_identity_append dst m _ ext Ho) as (enc' & Heq & Hp).
  apply app_inv_head in Heq as <-. exact Hp.
Qed.

(** An announce message is accepted exactly when its length byte matches
    and every byte of the ID is in the broadcast alphabet; the ID may be empty,
    which the encoder refuses to write. *)
Theorem announce_parse_iff d id : bytes_ok d →
  BroadcastAnnounce.ParseBroadcastAnnounce d = Ok id ↔
  d = Version :: TypeBroadcastAnnounce :: zlen id :: id ∧ Forall (.∈ Alphabet) id.
Proof.
  intros Hb. unfold BroadcastAnnounce.ParseBroadcastAnnounce.
  assert (Hal : ∀ s, forallb in_alphabet s = true ↔ Forall (.∈ Alphabet) s).
  { intros s. rewrite forallb_forall, Forall_forall. unfold in_alphabet.
    split; intros H x Hx; apply list_elem_of_In in Hx.
    - apply H in Hx. by apply bool_decide_eq_true in Hx.
    - apply bool_decide_eq_true. by apply H. }
  split.
  - parse_inv. apply expect_prefix_inv in Hpre as [rest ->].
    destruct rest as [|n id']; [zlia|]. wire_const. parse_run. parse_inv.
    intros He. parse_simpl_in He. revert He. parse_run. parse_inv. intros [= ->].
    apply negb_false_iff in Heqb1. split; [|by apply Hal]. do 2 f_equal. f_equal. zlia.
  - intros [-> Ha]. wire_const. parse_run. rewrite expect_prefix_ok. parse_run.
    apply Hal in Ha. by rewrite Ha.
Qed.

Lemma announce_parse_iff_witness :
  BroadcastAnnounce.ParseBroadcastAnnounce [1; 3; 0] = Ok [].
Proof.
  apply (announce_parse_iff [1; 3; 0] []).
  - repeat constructor; unfold is_byte; lia.
  - split; [reflexivity|constructor].
Defined.
