(* ===== verification/Ingress.v ===== *)
(** internal/hub/ingress.go: the ingress-loss window of a broadcast, against
    the set of chunks that arrived. *)
From S2P Require Export WireBase.
From stdpp Require Import gmap.
#[local] Open Scope Z_scope.

(** ** The window *)

Definition ingressWindowFrames := 1024.
Definition maxIngressChunkWords := 16.

Record ingressTally := MkTally {
  framesLost : Z;
  framesDamaged : Z;
  framesExpected : Z;
  chunksLost : Z;
  chunksExpected : Z;
}.
Definition zeroTally := MkTally 0 0 0 0 0.
Definition add_tally (t o : ingressTally) : ingressTally :=
  MkTally (framesLost t + framesLost o) (framesDamaged t + framesDamaged o)
    (framesExpected t + framesExpected o) (chunksLost t + chunksLost o)
    (chunksExpected t + chunksExpected o).

(** [chunkBits]: the words, [] for nil *)
Record ingressFrame := MkFrame {
  frameID : Z;
  active : bool;
  seen : bool;
  chunkCount : Z;
  chunksSeen : Z;
  chunkBits : list Z;
}.
Definition zeroFrame := MkFrame 0 false false 0 0 [].
Definition freshFrame (id : Z) := MkFrame id true false 0 0 [].
#[export] Instance ingressFrame_inhabited : Inhabited ingressFrame := populate zeroFrame.

Record ingressWindow := MkWindow { slots : list ingressFrame; started : bool; maxSeen : Z }.
Definition reset : ingressWindow :=
  MkWindow (replicate (Z.to_nat ingressWindowFrames) zeroFrame) false 0.

(** ** One frame *)

Definition finalize (f : ingressFrame) : ingressTally :=
  if negb (active f) then zeroTally
  else if negb (seen f) then MkTally 1 0 1 0 0
  else if chunksSeen f <? chunkCount f
  then MkTally 0 1 1 (chunkCount f - chunksSeen f) (chunkCount f)
  else MkTally 0 0 1 0 (chunkCount f).

Definition mark_bit (f : ingressFrame) (chunkIndex : Z) : ingressFrame :=
  let word := Z.to_nat (chunkIndex / 64) in
  let bit := Z.shiftl 1 (chunkIndex mod 64) in
  let w := chunkBits f !!! word in
  if Z.land w bit =? 0
  then MkFrame (frameID f) (active f) (seen f) (chunkCount f) (chunksSeen f + 1)
         (<[word := Z.lor w bit]> (chunkBits f))
  else f.
Definition markChunk (f : ingressFrame) (chunkIndex count : Z) : ingressFrame :=
  let f := MkFrame (frameID f) (active f) true (chunkCount f) (chunksSeen f) (chunkBits f) in
  if (count <=? 0) || (chunkIndex <? 0) || (chunkIndex >=? count) then f
  else
    let words := Z.quot (count + 63) 64 in
    if words >? maxIngressChunkWords then f
    else
      let f := if bool_decide (chunkBits f = []) || (chunkCount f <>? count)
               then MkFrame (frameID f) (active f) (seen f) count 0 (replicate (Z.to_nat words) 0)
               else f in
      mark_bit f chunkIndex.

(** ** Observations *)

(** the slot of a frameID, an index below 1024 *)
Definition slot_of (id : Z) : nat := Z.to_nat (id mod ingressWindowFrames).

(** the loop over the IDs a newer frame advances past; [None]: out of fuel *)
Fixpoint advance (fuel : nat) (ss : list ingressFrame) (id last : Z) (out : ingressTally)
    : option (list ingressFrame * ingressTally) :=
  match fuel with
  | O => None
  | S fuel' =>
      let out := add_tally out (finalize (ss !!! slot_of id)) in
      let ss := <[slot_of id := freshFrame id]> ss in
      if id =? last then Some (ss, out) else advance fuel' ss (uint32 (id + 1)) last out
  end.

Definition finalizeAll (ss : list ingressFrame) : ingressTally :=
  fold_left (λ out f, add_tally out (finalize f)) ss zeroTally.
Definition emptied (ss : list ingressFrame) : list ingressFrame := map (λ _, zeroFrame) ss.

Definition start_at (ss : list ingressFrame) (id chunkIndex count : Z) : ingressWindow :=
  MkWindow (<[slot_of id := markChunk (freshFrame id) chunkIndex count]> ss) true id.
(** what follows the switch: the frame's slot, retracked if it holds another *)
Definition mark_slot (ss : list ingressFrame) (top id chunkIndex count : Z) : ingressWindow :=
  let f := ss !!! slot_of id in
  let f := if negb (active f) || (frameID f <>? id) then freshFrame id else f in
  MkWindow (<[slot_of id := markChunk f chunkIndex count]> ss) true top.

(** [id] is a uint32; the difference wraps, then reads as an int32 *)
Definition observeChunk (w : ingressWindow) (id chunkIndex count : Z)
    : option (ingressWindow * ingressTally) :=
  if negb (started w) then Some (start_at (slots w) id chunkIndex count, zeroTally)
  else
    let d := int32 (uint32 (id - maxSeen w)) in
    if d >? 0 then
      if d >=? ingressWindowFrames then
        Some (start_at (emptied (slots w)) id chunkIndex count, finalizeAll (slots w))
      else
        match advance (Z.to_nat ingressWindowFrames) (slots w) (uint32 (maxSeen w + 1)) id zeroTally with
        | Some (ss, out) => Some (mark_slot ss id id chunkIndex count, out)
        | None => None
        end
    else if d <=? - ingressWindowFrames then Some (w, zeroTally)
    else Some (mark_slot (slots w) (maxSeen w) id chunkIndex count, zeroTally).
Definition observeFrame (w : ingressWindow) (id : Z) := observeChunk w id 0 1.

(** ** Tallies add up in any order *)

Definition sum_tally (l : list ingressTally) : ingressTally := foldr add_tally zeroTally l.

Ltac tally := repeat match goal with t : ingressTally |- _ => destruct t end;
  unfold add_tally; cbn [framesLost framesDamaged framesExpected chunksLost chunksExpected];
  f_equal; lia.
Lemma add_tally_assoc a b c : add_tally a (add_tally b c) = add_tally (add_tally a b) c.
Proof. tally. Qed.
Lemma add_tally_comm a b : add_tally a b = add_tally b a.
Proof. tally. Qed.
Lemma add_tally_0_l a : add_tally zeroTally a = a.
Proof. by destruct a. Qed.
Lemma add_tally_0_r a : add_tally a zeroTally = a.
Proof. rewrite add_tally_comm. apply add_tally_0_l. Qed.

Lemma sum_tally_app l1 l2 : sum_tally (l1 ++ l2) = add_tally (sum_tally l1) (sum_tally l2).
Proof.
  induction l1 as [|t l1 IH]; cbn [sum_tally foldr app]; [by rewrite add_tally_0_l|].
  fold (sum_tally (l1 ++ l2)). fold (sum_tally l1). by rewrite IH, add_tally_assoc.
Qed.
#[export] Instance sum_tally_perm : Proper ((≡ₚ) ==> (=)) sum_tally.
Proof.
  induction 1 as [|t l1 l2 _ IH|t1 t2 l|l1 l2 l3 _ IH1 _ IH2]; [done| | |congruence].
  - unfold sum_tally in *. cbn [foldr]. by rewrite IH.
  - cbn [sum_tally foldr]. rewrite !add_tally_assoc. by rewrite (add_tally_comm t2).
Qed.
Lemma fold_tally (l : list ingressFrame) t :
  fold_left (λ out f, add_tally out (finalize f)) l t = add_tally t (sum_tally (finalize <$> l)).
Proof.
  revert t. induction l as [|f l IH]; intros t; cbn; [by rewrite add_tally_0_r|].
  by rewrite IH, <- add_tally_assoc.
Qed.
Lemma finalizeAll_sum ss : finalizeAll ss = sum_tally (finalize <$> ss).
Proof. unfold finalizeAll. by rewrite fold_tally, add_tally_0_l. Qed.

(** ** The reference: what arrived *)

(** per frame, the chunk count it declared (0: none usable) and the chunks seen;
    frames are numbered without wrapping *)
Abbreviation arrivals := (gmap Z (Z * gset Z)).

Definition usable (i c : Z) : bool := (0 <? c) && (0 <=? i) && (i <? c) && (c <=? 1024).
Definition arrive (a : option (Z * gset Z)) (i c : Z) : Z * gset Z :=
  let '(c0, X) := default (0, ∅) a in
  if negb (usable i c) then (c0, X)
  else if c0 =? c then (c0, {[i]} ∪ X) else (c, {[i]}).

Definition zsize (X : gset Z) : Z := Z.of_nat (size X).
(** the score of frame [u] of a session whose first frame is [first] *)
Definition score (H : arrivals) (first u : Z) : ingressTally :=
  match H !! u with
  | Some (c, X) =>
      if zsize X <? c then MkTally 0 1 1 (c - zsize X) c else MkTally 0 0 1 0 c
  | None => if first <=? u then MkTally 1 0 1 0 0 else zeroTally
  end.

(** *** A slot stands for a frame *)

Definition bits_ok (bits : list Z) (c : Z) (X : gset Z) : Prop :=
  length bits = Z.to_nat (Z.quot (c + 63) 64) ∧
  (∀ i, i ∈ X → 0 ≤ i < c) ∧
  ∀ i, 0 ≤ i < c → Z.testbit (bits !!! Z.to_nat (i / 64)) (i mod 64) = bool_decide (i ∈ X).
Definition holds (first u : Z) (a : option (Z * gset Z)) (fr : ingressFrame) : Prop :=
  match a with
  | Some (c, X) =>
      frameID fr = uint32 u ∧ active fr = true ∧ seen fr = true ∧ chunkCount fr = c ∧
      chunksSeen fr = zsize X ∧ 0 ≤ c ∧ bits_ok (chunkBits fr) c X
  | None => if first <=? u then fr = freshFrame (uint32 u) else active fr = false
  end.

Lemma holds_score H first u fr : holds first u (H !! u) fr → finalize fr = score H first u.
Proof.
  unfold holds, score, finalize. destruct (H !! u) as [[c X]|].
  - intros (_ & -> & -> & -> & -> & _). cbn [negb]. by destruct (zsize X <? c).
  - destruct (first <=? u); [by intros ->|by intros ->].
Qed.

(** *** Marking a chunk *)

(** the frame a chunk is marked on: the tracked one, or a fresh one *)
Definition live (u : Z) (a : option (Z * gset Z)) (fr : ingressFrame) : Prop :=
  match a with Some _ => holds u u a fr | None => fr = freshFrame (uint32 u) end.

Lemma bit_clear w b : 0 ≤ b → (Z.land w (Z.shiftl 1 b) =? 0) = negb (Z.testbit w b).
Proof.
  intros Hb. rewrite Z.shiftl_1_l. destruct (Z.testbit w b) eqn:E; cbn [negb].
  - apply Z.eqb_neq. intros H0.
    assert (Z.testbit (Z.land w (2 ^ b)) b = true) as H1
      by (rewrite Z.land_spec, E, Z.pow2_bits_true by done; done).
    by rewrite H0, Z.bits_0 in H1.
  - apply Z.eqb_eq, Z.bits_inj'. intros n Hn. rewrite Z.land_spec, Z.bits_0.
    destruct (decide (n = b)) as [->|]; [by rewrite E|].
    rewrite Z.pow2_bits_false by lia. by rewrite andb_false_r.
Qed.
Lemma words_bound c i : 0 ≤ i < c → (Z.to_nat (i / 64) < Z.to_nat (Z.quot (c + 63) 64))%nat.
Proof.
  intros. rewrite Z.quot_div_nonneg by lia.
  assert (i / 64 < (c + 63) / 64); [|pose proof (Z.div_pos i 64); lia].
  apply Z.lt_le_trans with ((i / 64) + 1); [lia|].
  replace (i / 64 + 1) with ((i + 1 * 64) / 64) by (rewrite Z.div_add by lia; lia).
  apply Z.div_le_mono; lia.
Qed.
Lemma zsize_add i (X : gset Z) : i ∉ X → zsize ({[i]} ∪ X) = zsize X + 1.
Proof. intros Hi. unfold zsize. rewrite size_union, size_singleton by set_solver. lia. Qed.

(** setting a bit: the word list stands for one index more *)
Lemma bits_set bits c X i : bits_ok bits c X → 0 ≤ i < c →
  bits_ok (<[Z.to_nat (i / 64) := Z.lor (bits !!! Z.to_nat (i / 64)) (Z.shiftl 1 (i mod 64))]> bits)
    c ({[i]} ∪ X).
Proof.
  intros (Hl & Hin & Hb) Hi. pose proof (words_bound c i Hi) as Hw.
  pose proof (Z.mod_pos_bound i 64 ltac:(lia)).
  split; [by rewrite length_insert|]. split; [set_solver|]. intros j Hj.
  pose proof (Z.mod_pos_bound j 64 ltac:(lia)).
  destruct (decide (Z.to_nat (i / 64) = Z.to_nat (j / 64))) as [Hij|Hij].
  - rewrite <- Hij, list_lookup_total_insert_eq by lia.
    rewrite Z.lor_spec, Z.shiftl_spec by lia. rewrite Hij, Hb by done.
    assert (i / 64 = j / 64) as Hdiv
      by (pose proof (Z.div_pos i 64); pose proof (Z.div_pos j 64); lia).
    destruct (decide (i = j)) as [<-|Hne].
    + rewrite Z.sub_diag. rewrite orb_true_r. symmetry. apply bool_decide_eq_true_2. set_solver.
    + assert (i mod 64 ≠ j mod 64) by (pose proof (Z.div_mod i 64); pose proof (Z.div_mod j 64); lia).
      replace (Z.testbit 1 (j mod 64 - i mod 64)) with false.
      * rewrite orb_false_r. apply bool_decide_ext. set_solver.
      * symmetry. destruct (decide (j mod 64 < i mod 64)); [apply Z.testbit_neg_r; lia|].
        change 1 with (2 ^ 0). apply Z.pow2_bits_false. lia.
  - rewrite list_lookup_total_insert_ne by done. rewrite Hb by done.
    apply bool_decide_ext. split; [set_solver|]. intros [->%elem_of_singleton|]%elem_of_union; done.
Qed.

Lemma bits_fresh c : 0 < c → bits_ok (replicate (Z.to_nat (Z.quot (c + 63) 64)) 0) c ∅.
Proof.
  intros Hc. split; [by rewrite length_replicate|]. split; [set_solver|]. intros i Hi.
  rewrite lookup_total_replicate_2 by (by apply words_bound).
  rewrite Z.bits_0. by rewrite bool_decide_eq_false_2 by set_solver.
Qed.

Lemma mark_bit_holds u c X fr i :
  holds u u (Some (c, X)) fr → 0 ≤ i < c → holds u u (Some (c, {[i]} ∪ X)) (mark_bit fr i).
Proof.
  intros (Hid & Ha & Hs & Hc & Hn & H0 & Hbits) Hi. unfold mark_bit.
  pose proof Hbits as (Hl & Hin & Hb). rewrite bit_clear by (apply Z.mod_pos_bound; lia).
  rewrite Hb by done. case_bool_decide as Hm; cbn [negb].
  - replace ({[i]} ∪ X) with X by set_solver. done.
  - cbn. split_and!; try done; [|by apply bits_set]. rewrite zsize_add by done. congruence.
Qed.

Lemma live_default u a fr : live u a fr →
  holds u u (Some (default (0, ∅) a)) (MkFrame (frameID fr) (active fr) true (chunkCount fr)
    (chunksSeen fr) (chunkBits fr)).
Proof.
  unfold live. destruct a as [[c X]|]; cbn; [naive_solver|]. intros ->. cbn.
  split_and!; try done. split_and!; [done|set_solver|lia].
Qed.

Lemma holds_some first u p fr : holds u u (Some p) fr → holds first u (Some p) fr.
Proof. done. Qed.

Lemma markChunk_holds first u a fr i c : live u a fr →
  holds first u (Some (arrive a i c)) (markChunk fr i c).
Proof.
  intros Hl%live_default. apply holds_some. unfold markChunk, arrive.
  set (f := MkFrame _ _ _ _ _ _) in *. destruct (default (0, ∅) a) as [c0 X]. clearbody f.
  unfold usable. destruct ((c <=? 0) || (i <? 0) || (i >=? c)) eqn:Ebad.
  { replace (_ && _ && _ && _) with false by lia. done. }
  assert (0 < c ∧ 0 ≤ i < c) as [Hc Hi] by lia.
  replace (_ >? maxIngressChunkWords) with (negb (c <=? 1024)).
  2:{ unfold maxIngressChunkWords. rewrite Z.quot_div_nonneg by lia.
      destruct (c <=? 1024) eqn:E; cbn [negb]; symmetry.
      - assert ((c + 63) / 64 < 17) by (apply Z.div_lt_upper_bound; lia). lia.
      - assert (17 ≤ (c + 63) / 64) by (apply Z.div_le_lower_bound; lia). lia. }
  destruct (c <=? 1024) eqn:E; cbn [negb]; [|by rewrite andb_false_r].
  replace (_ && _ && _ && _) with true by lia. cbn [negb].
  destruct (c0 =? c) eqn:E0.
  - assert (c0 = c) as -> by lia. destruct Hl as (Hid & Ha & Hs & Hcc & Hn & H0 & Hbits).
    rewrite bool_decide_eq_false_2, Hcc, Z.eqb_refl; cbn [negb orb].
    + apply mark_bit_holds; [done|lia].
    + intros Hnil. destruct Hbits as (Hlen & _). rewrite Hnil in Hlen.
      pose proof (words_bound c i ltac:(lia)). cbn in Hlen. lia.
  - destruct Hl as (Hid & Ha & Hs & Hcc & Hn & H0 & Hbits).
    replace (bool_decide _ || _) with true by (rewrite Hcc, E0; by rewrite orb_true_r).
    replace {[i]} with ({[i]} ∪ ∅ : gset Z) by set_solver. apply mark_bit_holds; [|done].
    cbn. split_and!; try done; [lia|]. by apply bits_fresh.
Qed.

(** ** The window stands for the arrivals *)

Lemma slot_uint32 u : slot_of (uint32 u) = Z.to_nat (u mod 1024).
Proof.
  unfold slot_of, uint32, ingressWindowFrames. f_equal.
  rewrite <- (Znumtheory.Zmod_div_mod 1024 (2 ^ 32) u); [done|lia..|].
  exists (2 ^ 22). lia.
Qed.
Lemma slot_inj u v : -1024 < u - v < 1024 → slot_of (uint32 u) = slot_of (uint32 v) → u = v.
Proof.
  rewrite !slot_uint32. intros Huv He.
  pose proof (Z.mod_pos_bound u 1024 ltac:(lia)). pose proof (Z.mod_pos_bound v 1024 ltac:(lia)).
  pose proof (Z.div_mod u 1024 ltac:(lia)). pose proof (Z.div_mod v 1024 ltac:(lia)). lia.
Qed.
Lemma slot_lt u : (slot_of (uint32 u) < Z.to_nat 1024)%nat.
Proof. rewrite slot_uint32. pose proof (Z.mod_pos_bound u 1024 ltac:(lia)). lia. Qed.
Lemma slot_wrap u : slot_of (uint32 (u + 1024)) = slot_of (uint32 u).
Proof.
  rewrite !slot_uint32. replace (u + 1024) with (u + 1 * 1024) by lia. by rewrite Z_mod_plus_full.
Qed.

(** the slots of the frames in [(m - 1024, m]], [first] being the session's first *)
Definition tracks (first m : Z) (H : arrivals) (ss : list ingressFrame) : Prop :=
  length ss = Z.to_nat 1024 ∧
  ∀ u, m - 1024 < u ≤ m → holds first u (H !! u) (ss !!! slot_of (uint32 u)).
Definition spans (first m : Z) (H : arrivals) : Prop :=
  first ≤ m ∧ ∀ u p, H !! u = Some p → first - 1024 < u ≤ m.

Lemma tracks_zero u i c ss : length ss = Z.to_nat 1024 → (∀ k, ss !!! k = zeroFrame) →
  tracks u u {[u := arrive None i c]}
    (<[slot_of (uint32 u) := markChunk (freshFrame (uint32 u)) i c]> ss).
Proof.
  intros Hl Hz. split; [by rewrite length_insert|]. intros v Hv.
  destruct (decide (v = u)) as [->|Hne].
  - rewrite lookup_singleton_eq, list_lookup_total_insert_eq by (rewrite Hl; apply slot_lt).
    by apply markChunk_holds.
  - rewrite lookup_singleton_ne by done. rewrite list_lookup_total_insert_ne.
    + unfold holds. replace (u <=? v) with false by lia. by rewrite Hz.
    + intros He%slot_inj; lia.
Qed.

(** a newer ID takes the slot of the oldest one, which is scored *)
Lemma tracks_advance first m H ss : tracks first m H ss → spans first m H →
  tracks first (m + 1) H (<[slot_of (uint32 (m + 1)) := freshFrame (uint32 (m + 1))]> ss) ∧
  finalize (ss !!! slot_of (uint32 (m + 1))) = score H first (m - 1023).
Proof.
  intros [Hl Ht] [Hf Hs]. split.
  - split; [by rewrite length_insert|]. intros u Hu.
    destruct (decide (u = m + 1)) as [->|].
    + rewrite list_lookup_total_insert_eq by (rewrite Hl; apply slot_lt).
      unfold holds. destruct (H !! (m + 1)) eqn:E; [apply Hs in E; lia|].
      by replace (first <=? m + 1) with true by lia.
    + rewrite list_lookup_total_insert_ne by (intros He%slot_inj; lia). apply Ht. lia.
  - replace (m + 1) with (m - 1023 + 1024) by lia. rewrite slot_wrap.
    apply holds_score, Ht. lia.
Qed.

Lemma spans_mono first m m' H : spans first m H → m ≤ m' → spans first m' H.
Proof. intros [Hf Hs] Hm. split; [lia|]. intros u p Hp%Hs. lia. Qed.

Definition scores (H : arrivals) (first lo n : Z) : ingressTally :=
  sum_tally (score H first <$> seqZ lo n).
Lemma scores_app H first lo n k : 0 ≤ n → 0 ≤ k →
  scores H first lo (n + k) = add_tally (scores H first lo n) (scores H first (lo + n) k).
Proof. intros. unfold scores. by rewrite seqZ_app, fmap_app, sum_tally_app. Qed.
Lemma scores_1 H first lo : scores H first lo 1 = score H first lo.
Proof. apply add_tally_0_r. Qed.

Lemma advance_tracks first H n m ss out fuel : tracks first m H ss → spans first m H →
  (1 ≤ n)%nat → (n ≤ fuel)%nat → Z.of_nat n ≤ 1024 →
  ∃ ss', advance fuel ss (uint32 (m + 1)) (uint32 (m + Z.of_nat n)) out =
           Some (ss', add_tally out (scores H first (m - 1023) (Z.of_nat n))) ∧
         tracks first (m + Z.of_nat n) H ss'.
Proof.
  intros Ht Hs. revert m ss out n Ht Hs. induction fuel as [|fuel IH]; intros m ss out n Ht Hs H1 Hn Hb;
    [lia|]. cbn [advance].
  destruct (tracks_advance first m H ss Ht Hs) as [Ht' ->].
  destruct (decide (n = 1%nat)) as [->|].
  - rewrite Z.eqb_refl. change (Z.of_nat 1) with 1. rewrite scores_1. by eexists.
  - replace (_ =? _) with false
      by (symmetry; apply Z.eqb_neq; intros He%uint32_inj; [lia|change (2 ^ 31) with 2147483648 in *; lia]).
    rewrite uint32_add.
    destruct (IH (m + 1) _ (add_tally out (score H first (m - 1023))) (n - 1)%nat Ht'
                (spans_mono first m (m + 1) H Hs ltac:(lia)) ltac:(lia) ltac:(lia) ltac:(lia)) as (ss' & He & Ht'').
    replace (m + 1 + Z.of_nat (n - 1)) with (m + Z.of_nat n) in * by lia.
    exists ss'. split; [|done]. rewrite He. do 2 f_equal.
    rewrite <- add_tally_assoc. f_equal. rewrite <- scores_1.
    replace (m + 1 - 1023) with (m - 1023 + 1) by lia. rewrite <- scores_app by lia.
    f_equal. lia.
Qed.

(** the slot a chunk is marked in, whatever it held *)
Lemma tracks_mark first m H ss u i c : tracks first m H ss → m - 1024 < u ≤ m →
  tracks first m (<[u := arrive (H !! u) i c]> H)
    (slots (mark_slot ss (uint32 m) (uint32 u) i c)).
Proof.
  intros [Hl Ht] Hu. unfold mark_slot. cbn [slots]. split; [by rewrite length_insert|]. intros v Hv.
  destruct (decide (v = u)) as [->|Hne].
  - rewrite lookup_insert_eq, list_lookup_total_insert_eq by (rewrite Hl; apply slot_lt).
    apply markChunk_holds. specialize (Ht u Hu). unfold holds, live in *.
    set (fr := ss !!! slot_of (uint32 u)) in *. destruct (H !! u) as [[k X]|].
    + destruct Ht as (Hid & Ha & Hrest). rewrite Ha, Hid, Z.eqb_refl. cbn [negb orb]. done.
    + destruct (first <=? u); [rewrite Ht|rewrite Ht; done].
      cbn [active frameID freshFrame]. by rewrite Z.eqb_refl.
  - rewrite lookup_insert_ne by done.
    rewrite list_lookup_total_insert_ne by (intros He%slot_inj; lia). by apply Ht.
Qed.

(** ** Sessions *)

(** The state of a session whose first frame was [first] and newest is [m],
    after the arrivals [H]: everything older than the window is scored. *)
Definition session (first m : Z) (H : arrivals) (w : ingressWindow) (out : ingressTally) : Prop :=
  started w = true ∧ maxSeen w = uint32 m ∧ tracks first m H (slots w) ∧ spans first m H ∧
  out = scores H first (first - 1023) (m - first).

Lemma scores_ext H H' first lo n :
  (∀ u, lo ≤ u < lo + n → H !! u = H' !! u) → scores H first lo n = scores H' first lo n.
Proof.
  intros He. unfold scores. f_equal. apply list_fmap_ext. intros k u Hk%list_elem_of_lookup_2%elem_of_seqZ.
  unfold score. by rewrite He by lia.
Qed.

Lemma session_mark first m H w out u i c : tracks first m H (slots w) → spans first m H →
  out = scores H first (first - 1023) (m - first) → m - 1024 < u ≤ m →
  session first m (<[u := arrive (H !! u) i c]> H) (mark_slot (slots w) (uint32 m) (uint32 u) i c) out.
Proof.
  intros Ht [Hf Hs] Ho Hu. split; [done|]. split; [done|]. split; [by apply tracks_mark|]. split.
  - split; [done|]. intros v p. destruct (decide (v = u)) as [->|]; [lia|].
    rewrite lookup_insert_ne by done. apply Hs.
  - rewrite Ho. apply scores_ext. intros v Hv. rewrite lookup_insert_ne; [done|lia].
Qed.

Lemma session_start w u i c : length (slots w) = Z.to_nat 1024 → (∀ k, slots w !!! k = zeroFrame) →
  session u u {[u := arrive None i c]} (start_at (slots w) (uint32 u) i c) zeroTally.
Proof.
  intros Hl Hz. split; [done|]. split; [done|]. split; [by apply tracks_zero|]. split.
  - split; [done|]. intros v p. destruct (decide (v = u)) as [->|]; [lia|].
    by rewrite lookup_singleton_ne.
  - by rewrite Z.sub_diag.
Qed.

(** the window's slots, in their own order *)
Lemma window_scores first m H ss : tracks first m H ss →
  finalizeAll ss = scores H first (m - 1023) 1024.
Proof.
  intros [Hl Ht]. rewrite finalizeAll_sum. unfold scores. apply sum_tally_perm.
  assert (ss = (λ k, ss !!! k) <$> seq 0 (Z.to_nat 1024)) as Hss.
  { apply list_eq. intros k. rewrite list_lookup_fmap. destruct (decide (k < Z.to_nat 1024)%nat).
    - rewrite lookup_seq_lt by done. cbn. by rewrite list_lookup_lookup_total_lt by lia.
    - rewrite lookup_ge_None_2 by lia. by rewrite lookup_seq_ge by lia. }
  assert ((λ u, slot_of (uint32 u)) <$> seqZ (m - 1023) 1024 ≡ₚ seq 0 (Z.to_nat 1024)) as Hp.
  { apply NoDup_Permutation_bis.
    - apply NoDup_ListNoDup, NoDup_fmap_2_strong; [|apply NoDup_seqZ]. intros u v Hu%elem_of_seqZ Hv%elem_of_seqZ.
      apply slot_inj. lia.
    - rewrite length_fmap, length_seqZ, length_seq. done.
    - intros k (u & -> & _)%list_elem_of_In%list_elem_of_fmap. apply list_elem_of_In. apply elem_of_seq. pose proof (slot_lt u). lia. }
  rewrite Hss, <- Hp, <- !list_fmap_compose. apply reflexive_eq; apply list_fmap_ext.
  intros k u Hk%list_elem_of_lookup_2%elem_of_seqZ. cbn. apply holds_score, Ht. lia.
Qed.

Lemma session_observe first m H w out u i c : session first m H w out →
  - 2 ^ 31 ≤ u - m < ingressWindowFrames →
  ∃ w' o, observeChunk w (uint32 u) i c = Some (w', o) ∧
    if u <=? m - ingressWindowFrames then w' = w ∧ o = zeroTally
    else session first (Z.max m u) (<[u := arrive (H !! u) i c]> H) w' (add_tally out o).
Proof.
  intros (Hst & Hm & Ht & Hs & Ho) Hu. unfold observeChunk. rewrite Hst, Hm. cbn [negb].
  unfold ingressWindowFrames in *. rewrite int32_serial by lia.
  destruct (u - m >? 0) eqn:Ed.
  - replace (u - m >=? 1024) with false by lia. replace (u <=? m - 1024) with false by lia.
    rewrite uint32_add.
    destruct (advance_tracks first H (Z.to_nat (u - m)) m (slots w) zeroTally (Z.to_nat 1024)
                Ht Hs ltac:(lia) ltac:(lia) ltac:(lia)) as (ss' & He & Ht').
    rewrite Z2Nat.id in He, Ht' by lia. replace (m + (u - m)) with u in He, Ht' by lia.
    rewrite He. do 2 eexists. split; [done|]. replace (Z.max m u) with u by lia.
    apply (session_mark first u H (MkWindow ss' true 0)); [done|apply (spans_mono first m); [done|lia]| |lia].
    rewrite Ho, add_tally_0_l. destruct Hs as [Hf _].
    replace (m - 1023) with (first - 1023 + (m - first)) by lia. rewrite <- scores_app by lia.
    f_equal. lia.
  - destruct (u <=? m - 1024) eqn:El.
    + replace (u - m <=? - (1024)) with true by lia. by do 2 eexists.
    + replace (u - m <=? - (1024)) with false by lia. do 2 eexists. split; [done|].
      replace (Z.max m u) with m by lia. rewrite add_tally_0_r. by apply session_mark; [..|lia].
Qed.

(** a jump of a window or more: everything tracked is scored, and a session
    starts over *)
Lemma session_jump first m H w out u i c : session first m H w out →
  ingressWindowFrames ≤ u - m < 2 ^ 31 →
  ∃ w', observeChunk w (uint32 u) i c = Some (w', scores H first (m - 1023) 1024) ∧
    session u u {[u := arrive None i c]} w' zeroTally.
Proof.
  intros (Hst & Hm & Ht & Hs & Ho) Hu. unfold observeChunk. rewrite Hst, Hm. cbn [negb].
  unfold ingressWindowFrames in *. rewrite int32_serial by lia.
  replace (u - m >? 0) with true by lia. replace (u - m >=? 1024) with true by lia.
  rewrite (window_scores first m H) by done. eexists. split; [done|].
  apply (session_start (MkWindow (emptied (slots w)) true 0)); cbn [slots]; unfold emptied.
  - rewrite length_map. apply Ht.
  - intros k. rewrite list_lookup_total_alt, list_lookup_fmap. by destruct (slots w !! k).
Qed.

(** ** Runs, against the reference *)

Record reference := MkRef { scored : ingressTally; first_ : Z; top_ : Z; arrived : arrivals }.

(** What an observation of frame [u] means: too old for the window, it is
    dropped; a window or more ahead, a session ends and another starts. *)
Definition ref_observe (s : reference) (u i c : Z) : reference :=
  if u <=? top_ s - ingressWindowFrames then s
  else if u <? top_ s + ingressWindowFrames
  then MkRef (scored s) (first_ s) (Z.max (top_ s) u) (<[u := arrive (arrived s !! u) i c]> (arrived s))
  else MkRef (add_tally (scored s)
                (scores (arrived s) (first_ s) (first_ s - 1023) (top_ s - first_ s + 1024)))
         u u {[u := arrive None i c]}.
Definition ref_start (u i c : Z) : reference := MkRef zeroTally u u {[u := arrive None i c]}.
Definition ref_total (s : reference) : ingressTally :=
  add_tally (scored s) (scores (arrived s) (first_ s) (first_ s - 1023) (top_ s - first_ s + 1024)).

(** frame, chunk index, chunk count; frames are numbered without wrapping *)
Abbreviation observation := (Z * Z * Z)%type.
Fixpoint observe_all (w : ingressWindow) (obs : list observation) (out : ingressTally)
    : option (ingressWindow * ingressTally) :=
  match obs with
  | [] => Some (w, out)
  | (u, i, c) :: obs' =>
      match observeChunk w (uint32 u) i c with
      | Some (w', o) => observe_all w' obs' (add_tally out o)
      | None => None
      end
  end.
Definition ref_all (s : reference) (obs : list observation) : reference :=
  fold_left (λ s '(u, i, c), ref_observe s u i c) obs s.

(** each frame is within the range of serial arithmetic of the newest so far *)
Fixpoint serial (top : Z) (obs : list observation) : Prop :=
  match obs with
  | [] => True
  | (u, _, _) :: obs' =>
      - 2 ^ 31 ≤ u - top < 2 ^ 31 ∧
      serial (if u <=? top - ingressWindowFrames then top else Z.max top u) obs'
  end.

Definition stands (s : reference) (w : ingressWindow) (out : ingressTally) : Prop :=
  ∃ t, session (first_ s) (top_ s) (arrived s) w t ∧ out = add_tally (scored s) t.

Lemma stands_observe s w out u i c : stands s w out → - 2 ^ 31 ≤ u - top_ s < 2 ^ 31 →
  ∃ w' o, observeChunk w (uint32 u) i c = Some (w', o) ∧
    stands (ref_observe s u i c) w' (add_tally out o).
Proof.
  intros (t & Hss & ->) Hu. unfold ref_observe.
  destruct (decide (u - top_ s < ingressWindowFrames)) as [Hw|Hw].
  - destruct (session_observe _ _ _ _ _ u i c Hss ltac:(lia)) as (w' & o & He & Hs').
    exists w', o. split; [done|]. destruct (u <=? top_ s - ingressWindowFrames).
    + destruct Hs' as [-> ->]. rewrite add_tally_0_r. by exists t.
    + replace (u <? _) with true by lia. eexists. split; [done|]. by rewrite add_tally_assoc.
  - destruct (session_jump _ _ _ _ _ u i c Hss ltac:(lia)) as (w' & He & Hs').
    eexists w', _. split; [done|]. unfold ingressWindowFrames in *.
    replace (u <=? _) with false by lia. replace (u <? _) with false by lia.
    exists zeroTally. split; [done|]. cbn [scored]. rewrite add_tally_0_r, <- add_tally_assoc.
    f_equal. destruct Hss as (_ & _ & _ & [Hf _] & ->).
    replace (top_ s - 1023) with (first_ s - 1023 + (top_ s - first_ s)) by lia.
    symmetry. apply scores_app; lia.
Qed.

Lemma ref_top s u i c : - 2 ^ 31 ≤ u - top_ s →
  top_ (ref_observe s u i c) =
  (if u <=? top_ s - ingressWindowFrames then top_ s else Z.max (top_ s) u).
Proof.
  intros. unfold ref_observe, ingressWindowFrames. destruct (u <=? _); [done|].
  destruct (u <? _) eqn:E; cbn [top_]; [done|lia].
Qed.

Lemma stands_all s w out obs : stands s w out → serial (top_ s) obs →
  ∃ w' out', observe_all w obs out = Some (w', out') ∧ stands (ref_all s obs) w' out'.
Proof.
  revert s w out. induction obs as [|[[u i] c] obs IH]; intros s w out Hs Hser; [by do 2 eexists|].
  destruct Hser as [Hu Hser]. cbn [observe_all].
  destruct (stands_observe _ _ _ u i c Hs Hu) as (w' & o & -> & Hs').
  apply IH; [done|]. rewrite ref_top by lia. done.
Qed.

Lemma stands_total s w out : stands s w out → add_tally out (finalizeAll (slots w)) = ref_total s.
Proof.
  intros (t & (_ & _ & Ht & [Hf Hs] & ->) & ->). unfold ref_total.
  rewrite (window_scores _ _ _ _ Ht), <- add_tally_assoc. f_equal.
  replace (top_ s - 1023) with (first_ s - 1023 + (top_ s - first_ s)) by lia.
  symmetry. apply scores_app; lia.
Qed.

Lemma ingress_run u i c obs : serial u obs →
  ∃ w out, observe_all reset ((u, i, c) :: obs) zeroTally = Some (w, out) ∧
    add_tally out (finalizeAll (slots w)) = ref_total (ref_all (ref_start u i c) obs).
Proof.
  intros Hser. cbn [observe_all]. change (observeChunk reset (uint32 u) i c)
    with (Some (start_at (slots reset) (uint32 u) i c, zeroTally)). cbn iota beta.
  destruct (stands_all (ref_start u i c) (start_at (slots reset) (uint32 u) i c)
              (add_tally zeroTally zeroTally) obs) as (w & out & He & Hs); [|done|].
  - exists zeroTally. split; [|done]. apply session_start; cbn [slots reset].
    + apply length_replicate.
    + intros k. rewrite list_lookup_total_alt. destruct (replicate _ _ !! k) eqn:E; [|done].
      by apply lookup_replicate in E as [-> _].
  - exists w, out. split; [done|]. by apply stands_total.
Qed.

(** From a reset window, every chunk of every frame (its ID wrapping at 2^32)
    is accepted, no loop runs out of fuel, and what has been reported plus what
    the window still holds is exactly the reference score of the frames that
    were due: nothing is counted twice or dropped when a slot is reused. *)
Theorem ingress_refines u i c obs : serial u obs →
  ∃ w out, observe_all reset ((u, i, c) :: obs) zeroTally = Some (w, out) ∧
    add_tally out (finalizeAll (slots w)) = ref_total (ref_all (ref_start u i c) obs).
Proof. apply ingress_run. Qed.

(** *** In plain counts *)

(** every frame within a window of the newest so far *)
Fixpoint in_window (top : Z) (obs : list observation) : Prop :=
  match obs with
  | [] => True
  | (u, _, _) :: obs' =>
      top - ingressWindowFrames < u < top + ingressWindowFrames ∧ in_window (Z.max top u) obs'
  end.
(** the newest frame *)
Definition newest (top : Z) (obs : list observation) : Z :=
  fold_left (λ m '(u, _, _), Z.max m u) obs top.
(** the distinct chunks of frame [u] *)
Definition chunks_of (obs : list observation) (u : Z) : gset Z :=
  list_to_set (omap (λ '(v, i, _), if decide (v = u) then Some i else None) obs).
(** what the counters should say of frame [u], of [cnt u] chunks, when [first]
    was the first frame of the session *)
Definition due (cnt : Z → Z) (first : Z) (obs : list observation) (u : Z) : ingressTally :=
  let k := zsize (chunks_of obs u) in
  if k =? 0 then if first <=? u then MkTally 1 0 1 0 0 else zeroTally
  else if k <? cnt u then MkTally 0 1 1 (cnt u - k) (cnt u) else MkTally 0 0 1 0 (cnt u).

Definition arrivals_of (H : arrivals) (obs : list observation) : arrivals :=
  fold_left (λ H '(u, i, c), <[u := arrive (H !! u) i c]> H) obs H.

Lemma in_window_serial top obs : in_window top obs → serial top obs.
Proof.
  revert top. induction obs as [|[[u i] c] obs IH]; intros top; [done|]. intros [Hu Hr].
  unfold ingressWindowFrames in *. split; [lia|].
  replace (u <=? top - ingressWindowFrames) with false by (unfold ingressWindowFrames; lia). by apply IH.
Qed.
Lemma in_window_ref s obs : in_window (top_ s) obs →
  ref_all s obs = MkRef (scored s) (first_ s) (newest (top_ s) obs) (arrivals_of (arrived s) obs).
Proof.
  revert s. induction obs as [|[[u i] c] obs IH]; intros s; [by destruct s|]. intros [Hu Hr].
  cbn [ref_all fold_left]. unfold ref_observe at 2. unfold ingressWindowFrames in *.
  replace (u <=? _) with false by lia. replace (u <? _) with true by lia.
  apply (IH (MkRef (scored s) (first_ s) (Z.max (top_ s) u) (<[u:=arrive (arrived s !! u) i c]> (arrived s))) Hr).
Qed.

Lemma zsize_zero X : (zsize X =? 0) = bool_decide (X = ∅).
Proof.
  unfold zsize. apply eq_bool_prop_intro. rewrite bool_decide_spec, Is_true_true, Z.eqb_eq.
  rewrite <- leibniz_equiv_iff, <- size_empty_iff. lia.
Qed.
Lemma chunks_of_snoc obs v i c u :
  chunks_of (obs ++ [(v, i, c)]) u = (if decide (v = u) then {[i]} else ∅) ∪ chunks_of obs u.
Proof.
  unfold chunks_of. rewrite omap_app, list_to_set_app_L. cbn [omap list_omap].
  destruct (decide (v = u)); cbn [list_to_set]; set_solver.
Qed.

Definition consistent (cnt : Z → Z) (o : observation) : Prop :=
  let '(u, i, c) := o in c = cnt u ∧ 0 ≤ i < c ∧ c ≤ 1024.
Lemma arrivals_chunks cnt obs u : Forall (consistent cnt) obs →
  arrivals_of ∅ obs !! u =
  (if decide (chunks_of obs u = ∅) then None else Some (cnt u, chunks_of obs u)).
Proof.
  induction obs as [|[[v i] c] obs IH] using rev_ind; [done|].
  intros [Hf [[Hc Hi] _]%Forall_cons]%Forall_app. rewrite chunks_of_snoc.
  unfold arrivals_of. rewrite fold_left_app. cbn [fold_left]. fold (arrivals_of ∅ obs).
  specialize (IH Hf). destruct (decide (v = u)) as [->|Hne].
  - rewrite lookup_insert_eq, decide_False by set_solver. f_equal. rewrite IH.
    unfold arrive, usable. replace (_ && _ && _ && _) with true by lia. cbn [negb].
    destruct (decide _) as [He|]; cbn [default].
    + replace (0 =? c) with false by lia. rewrite He. f_equal; [done|set_solver].
    + unfold id. subst c. by rewrite Z.eqb_refl.
  - rewrite lookup_insert_ne, IH by done. by rewrite !(left_id_L ∅ (∪)).
Qed.


(** *** Samples *)

(** frames 10, 12 and 13 arrive, 12 before 11's slot is due, 13 with a chunk missing *)
Definition sample : list observation := [(10, 0, 2); (12, 0, 1); (10, 1, 2); (13, 1, 3); (13, 0, 3)].
Example sample_losses :
  option_map (λ '(w, out), add_tally out (finalizeAll (slots w))) (observe_all reset sample zeroTally) =
  Some (MkTally 1 1 4 1 6).
Proof. vm_compute. reflexivity. Qed.

(** [maxIngressChunkWords] is sized for 1000 chunks; the protocol allows 3000.
    Of a frame of 2000 chunks only one arrives, and nothing counts as lost. *)
Example wide_frame_losses :
  option_map (λ '(w, out), add_tally out (finalizeAll (slots w)))
    (observe_all reset [(10, 0, 2000)] zeroTally) = Some (MkTally 0 0 1 0 0).
Proof. vm_compute. reflexivity. Qed.

Lemma ingress_refines_witness : ∃ w out,
  observe_all reset ((4294967295, 0, 2) :: [(4294967297, 0, 1); (4294967295, 1, 2); (4294970000, 0, 1)])
    zeroTally = Some (w, out) ∧
  add_tally out (finalizeAll (slots w)) =
  ref_total (ref_all (ref_start 4294967295 0 2) [(4294967297, 0, 1); (4294967295, 1, 2); (4294970000, 0, 1)]).
Proof. apply ingress_refines. repeat split; vm_compute; congruence. Defined.

