(* ===== verification/MapSum.v ===== *)
(** Sums over a finite map, for totals kept across its entries. *)
From stdpp Require Export gmap.
From S2P Require Export Prelude.
#[local] Open Scope Z_scope.

Section MapSum.
Context {K A : Type} `{Countable K}.
Implicit Types (m : gmap K A) (f : A → Z).

Definition msum f m : Z := map_fold (λ _ x n, f x + n) 0 m.

Lemma msum_empty f : msum f ∅ = 0.
Proof. apply map_fold_empty. Qed.
Lemma msum_insert f m i x : m !! i = None → msum f (<[i := x]> m) = f x + msum f m.
Proof. intros Hi. unfold msum. apply (map_fold_insert_L (λ _ x n, f x + n)); [|done]. intros. lia. Qed.
Lemma msum_delete f m i x : m !! i = Some x → msum f m = f x + msum f (delete i m).
Proof. intros Hi. unfold msum. apply (map_fold_delete_L (λ _ x n, f x + n)); [|done]. intros. lia. Qed.
Lemma msum_le f f' m : (∀ i x, m !! i = Some x → f x ≤ f' x) → msum f m ≤ msum f' m.
Proof.
  induction m as [|i x m Hi IH] using map_ind; intros Hle; [by rewrite !msum_empty|].
  rewrite !msum_insert by done.
  assert (f x ≤ f' x) by (apply (Hle i); apply lookup_insert_eq).
  assert (msum f m ≤ msum f' m); [|lia]. apply IH. intros j y Hj. apply (Hle j).
  rewrite lookup_insert_ne; [done|]. congruence.
Qed.
Lemma msum_ext f f' m : (∀ i x, m !! i = Some x → f x = f' x) → msum f m = msum f' m.
Proof.
  intros He. apply Z.le_antisymm; apply msum_le; intros i x Hi; rewrite (He i x Hi); lia.
Qed.
Lemma msum_nonneg f m : (∀ i x, m !! i = Some x → 0 ≤ f x) → 0 ≤ msum f m.
Proof.
  intros Hf. assert (E : msum (λ _, 0) m = 0).
  { clear Hf. induction m as [|i x m Hi IH] using map_ind; [apply msum_empty|]. by rewrite msum_insert, IH. }
  rewrite <- E. by apply msum_le.
Qed.
Lemma msum_alter f m i h x : m !! i = Some x → msum f (alter h i m) = msum f m - f x + f (h x).
Proof.
  intros Hi. rewrite (msum_delete f m i x Hi).
  rewrite (msum_delete f (alter h i m) i (h x)) by (by rewrite lookup_alter_eq, Hi).
  assert (delete i (alter h i m) = delete i m) as ->; [|lia].
  apply map_eq. intros j. destruct (decide (j = i)) as [->|]; [by rewrite !lookup_delete_eq|].
  by rewrite !lookup_delete_ne, lookup_alter_ne.
Qed.
Lemma msum_alter_none f m i h : m !! i = None → alter h i m = m.
Proof.
  intros Hi. apply map_eq. intros j. destruct (decide (j = i)) as [->|]; [by rewrite lookup_alter_eq, Hi|].
  by rewrite lookup_alter_ne.
Qed.
Lemma msum_alter_le f m i h : (∀ x, m !! i = Some x → f x ≤ f (h x)) → msum f m ≤ msum f (alter h i m).
Proof.
  intros Hh. destruct (m !! i) as [x|] eqn:Hi; [|by rewrite (msum_alter_none f)].
  rewrite (msum_alter _ _ _ _ x Hi). specialize (Hh x eq_refl). lia.
Qed.
Lemma msum_to_list f m : msum f m = fold_right (λ e n, f (snd e) + n) 0 (map_to_list m).
Proof.
  unfold msum. rewrite map_fold_foldr. induction (map_to_list m) as [|[i x] l IH]; cbn; [done|].
  by rewrite <- IH.
Qed.
End MapSum.
