(* ===== verification/Conc.v ===== *)
(** Goroutines over a shared state, and a rely-guarantee logic for them.

    A goroutine is a program of atomic actions: a section under a mutex, an
    access to an atomic, a call of the outside that answers. The scheduler picks
    who moves and what the outside answers. A program is judged by [wp]: between
    any two of its actions the others may have done anything their guarantees
    allow. *)
From stdpp Require Export relations.
From S2P Require Export Prelude.

(** ** Programs *)

Section Progs.
Context {Ans S K : Type}.

(** [f]: [None] while the action is blocked. [sp]: the goroutines it starts, by
    name; they may run as soon as the action is done. *)
Inductive prog (A : Type) : Type :=
  | Ret (a : A)
  | Act {B : Type} (f : Ans → S → option (B * S)) (sp : B → list K) (k : B → prog A).
Arguments Ret {A} _.
Arguments Act {A B} _ _ _.

Fixpoint pbind {A B} (h : A → prog B) (p : prog A) : prog B :=
  match p with Ret a => h a | Act f sp k => Act f sp (λ b, pbind h (k b)) end.

(** an action that does not block, one that starts nothing, a read, an update *)
Definition act {B} (f : Ans → S → option (B * S)) : prog B := Act f (λ _, []) (λ b, Ret b).
Definition sect {B} (f : Ans → S → B * S) : prog B := act (λ a s, Some (f a s)).
Definition pgets {B} (f : S → B) : prog B := sect (λ _ s, (f s, s)).
Definition pmodify (f : S → S) : prog unit := sect (λ _ s, (tt, f s)).
Definition sect_go {B} (f : Ans → S → B * S) (sp : B → list K) : prog B :=
  Act (λ a s, Some (f a s)) sp (λ b, Ret b).

(** ** The scheduler *)

(** The code of a goroutine by its name; it ends, or goes on as another. *)
Context (code : K → prog (option K)).
(** a goroutine: under which name it runs, what it has still to do *)
Definition thread : Type := K * prog (option K).
Definition start (k : K) : thread := (k, code k).

(** one action of a goroutine *)
Definition step_thread (a : Ans) (t : thread) (s : S) : option (list thread * S) :=
  match snd t with
  | Ret None => Some ([], s)
  | Ret (Some k) => Some ([start k], s)
  | Act f sp k =>
      match f a s with
      | Some (b, s') => Some ((fst t, k b) :: map start (sp b), s')
      | None => None
      end
  end.

(** The scheduler's choices: goroutine [i] moves, or the program's clients start one. *)
Inductive pick := Move (i : nat) (a : Ans) | Call (k : K).
Definition config : Type := list thread * S.
Definition step (c : pick) (x : config) : config :=
  let '(pool, s) := x in
  match c with
  | Call k => (pool ++ [start k], s)
  | Move i a =>
      match pool !! i with
      | None => x
      | Some t =>
          match step_thread a t s with
          | Some (ts, s') => (take i pool ++ ts ++ drop (i + 1) pool, s')
          | None => x
          end
      end
  end.
Definition sched (l : list pick) (x : config) : config := fold_left (λ x c, step c x) l x.

(** ** Rely and guarantee *)

(** [Inv]: the invariant of the shared state. [G k]: what an action of [k] may
    do. [own k]: the token [k] holds, and no other goroutine; [used]: the tokens
    given out. [pre k]: what [k] starts from. *)
Context {T : Type} (Inv : S → Prop) (G : K → S → S → Prop) (own : K → option T) (used : S → T → Prop)
        (pre : K → S → Prop).

Definition apart (k k' : K) : Prop := own k = None ∨ own k ≠ own k'.
(** what the others do between two actions of [k] *)
Definition rely (k : K) (s s' : S) : Prop :=
  Inv s ∧ Inv s' ∧ ∃ k', apart k k' ∧ apart k' k ∧ G k' s s'.
Definition started (s s' : S) (k : K) : Prop :=
  pre k s' ∧ match own k with Some t => ¬ used s t ∧ used s' t | None => True end.

Fixpoint wp {A} (k : K) (p : prog A) (Q : A → S → Prop) (s : S) : Prop :=
  match p with
  | Ret a => Q a s
  | Act f sp h =>
      ∀ s1, rtc (rely k) s s1 → Inv s1 → ∀ a b s2, f a s1 = Some (b, s2) →
        Inv s2 ∧ G k s1 s2 ∧ (∀ t, used s1 t → used s2 t) ∧
        (Forall (started s1 s2) (sp b) ∧ NoDup (omap own (sp b))) ∧ wp k (h b) Q s2
  end.

Lemma wp_mono {A} k (p : prog A) (Q Q' : A → S → Prop) s :
  (∀ a s, Q a s → Q' a s) → wp k p Q s → wp k p Q' s.
Proof.
  intros HQ. revert s. induction p as [a|B f sp h IH]; cbn; intros s H; [by apply HQ|].
  intros s1 Hr Hi a b s2 Hf. destruct (H s1 Hr Hi a b s2 Hf) as (?&?&?&?&?). eauto 10.
Qed.

Lemma wp_bind {A B} k (p : prog A) (h : A → prog B) Q s :
  wp k p (λ a, wp k (h a) Q) s → wp k (pbind h p) Q s.
Proof.
  revert s. induction p as [a|C f sp g IH]; cbn; intros s H; [done|].
  intros s1 Hr Hi a b s2 Hf. destruct (H s1 Hr Hi a b s2 Hf) as (?&?&?&?&?). eauto 10.
Qed.

(** ** Soundness *)

Definition post (k : K) (r : option K) (s : S) : Prop :=
  match r with Some k' => pre k' s ∧ own k' = own k | None => True end.
Definition thread_ok (s : S) (t : thread) : Prop :=
  wp (fst t) (snd t) (post (fst t)) s ∧ ∀ tok, own (fst t) = Some tok → used s tok.
Definition pool_ok (x : config) : Prop :=
  Inv (snd x) ∧ Forall (thread_ok (snd x)) (fst x) ∧ NoDup (omap own (map fst (fst x))).
(** a goroutine the clients may start at any time *)
Definition client (k : K) : Prop := own k = None ∧ ∀ s, Inv s → pre k s.

Hypothesis pre_stable : ∀ k s s', rely k s s' → pre k s → pre k s'.
Hypothesis code_ok : ∀ k s, Inv s → pre k s → wp k (code k) (post k) s.

Lemma thread_ok_rely s s' t : rely (fst t) s s' → (∀ tok, used s tok → used s' tok) →
  thread_ok s t → thread_ok s' t.
Proof.
  intros Hr Hu [Hw Ht]. split; [|eauto]. destruct t as [k p]. cbn [fst snd] in *.
  destruct p as [r|B f sp h]; cbn in *.
  - destruct r as [k'|]; cbn in *; [|done]. destruct Hw as [Hp Ho]. split; [|done].
    apply (pre_stable k' s); [|done]. destruct Hr as (Hi & Hi' & k'' & A1 & A2 & HG).
    split_and!; [done..|]. exists k''. unfold apart in *. by rewrite Ho.
  - intros s1 Hs1. apply Hw. by eapply rtc_l.
Qed.

Lemma started_ok s s' k : Inv s' → started s s' k → thread_ok s' (start k).
Proof.
  intros Hi [Hp Ho]. split; [by apply code_ok|]. cbn. intros tok E. rewrite E in Ho. by destruct Ho.
Qed.

Lemma omap_own_used s pool tok : Forall (thread_ok s) pool → tok ∈ omap own (map fst pool) → used s tok.
Proof.
  intros Hp Ht. apply list_elem_of_omap in Ht as (k & Hk & Ho). apply list_elem_of_fmap in Hk as (t & -> & Ht).
  rewrite Forall_forall in Hp. by apply (Hp t Ht).
Qed.

Lemma pool_apart (t t' : thread) pool1 pool2 : NoDup (omap own (map fst (pool1 ++ t :: pool2))) →
  t' ∈ pool1 ++ pool2 → apart (fst t') (fst t).
Proof.
  unfold apart. rewrite map_app, omap_app, elem_of_app. cbn [map omap].
  intros Hn Ht. destruct (own (fst t')) as [tok|] eqn:E'; [|by left]. right. intros E.
  assert (Hin : tok ∈ omap own (map fst pool1) ∨ tok ∈ omap own (map fst pool2)).
  { destruct Ht as [Ht|Ht]; [left|right]; apply list_elem_of_omap; exists (fst t'); split; try done;
      by apply list_elem_of_fmap_2. }
  cbn in Hn. rewrite <- E in Hn. apply NoDup_app in Hn as (_ & Hd & Hn).
  apply NoDup_cons in Hn as [Hn _].
  destruct Hin as [Hin|Hin]; [|done]. apply (Hd _ Hin). by left.
Qed.

Lemma pool_replace s s' t ts pool1 pool2 :
  Inv s' → Forall (thread_ok s) (pool1 ++ t :: pool2) → NoDup (omap own (map fst (pool1 ++ t :: pool2))) →
  (∀ t', t' ∈ pool1 ++ pool2 → thread_ok s t' → thread_ok s' t') →
  Forall (thread_ok s') ts →
  NoDup (omap own (map fst ts)) →
  (∀ tok, tok ∈ omap own (map fst ts) → own (fst t) = Some tok ∨ ¬ used s tok) →
  pool_ok (pool1 ++ ts ++ pool2, s').
Proof.
  intros Hi Hp Hn Hk Hts Hnt Htok. split; [done|]. cbn [fst snd].
  assert (Hp' := Hp). apply Forall_app in Hp' as [Hp1 Hp2]. apply Forall_cons in Hp2 as [Ht Hp2].
  split.
  - rewrite !Forall_app. split_and!; [|done|]; rewrite Forall_forall in *; intros t' Ht';
      (apply Hk; [rewrite elem_of_app; tauto|auto]).
  - rewrite !map_app, !omap_app in *. cbn [map] in Hn.
    assert (Hn' : NoDup (omap own (map fst pool1) ++ omap own (map fst pool2)) ∧
      ∀ tok, own (fst t) = Some tok → tok ∉ omap own (map fst pool1) ++ omap own (map fst pool2)).
    { cbn in Hn. destruct (own (fst t)) as [tok|] eqn:E; [|by split].
      rewrite <- Permutation_middle in Hn. apply NoDup_cons in Hn as [Hx Hn].
      split; [done|]. by intros ? [= <-]. }
    destruct Hn' as [Hn12 Hx]. rewrite NoDup_app in Hn12. destruct Hn12 as (N1 & D & N2).
    assert (Hfresh : ∀ tok, tok ∈ omap own (map fst ts) →
      tok ∉ omap own (map fst pool1) ∧ tok ∉ omap own (map fst pool2)).
    { intros tok Hin. destruct (Htok _ Hin) as [E|Hu].
      - specialize (Hx _ E). rewrite elem_of_app in Hx. tauto.
      - split; intros Hin'; apply Hu; [by eapply (omap_own_used s pool1)|by eapply (omap_own_used s pool2)]. }
    rewrite !NoDup_app. split_and!; try done.
    + intros tok H1 H2. apply elem_of_app in H2 as [H2|H2].
      * by destruct (Hfresh tok H2).
      * exact (D tok H1 H2).
    + intros tok H1. by apply Hfresh.
Qed.

Lemma step_ok c x : match c with Call k => client k | Move _ _ => True end →
  pool_ok x → pool_ok (step c x).
Proof.
  destruct x as [pool s]. intros Hc (Hi & Hp & Hn). cbn [fst snd] in *. destruct c as [i a|k]; cbn [step].
  - destruct (pool !! i) as [t|] eqn:Ht; [|by split_and!].
    destruct (step_thread a t s) as [[ts s']|] eqn:Hs; [|by split_and!].
    apply take_drop_middle in Ht. rewrite Nat.add_1_r. rewrite <- Ht in Hp, Hn. clear Ht.
    set (pool1 := take i pool) in *. set (pool2 := drop _ pool) in *.
    assert (Ht : thread_ok s t) by (rewrite Forall_app, Forall_cons in Hp; tauto).
    destruct t as [k p]. unfold step_thread in Hs. cbn [fst snd] in *.
    destruct p as [[k'|]|B f sp h].
    + injection Hs as <- <-. destruct Ht as [[Hpre Ho] Hu]. cbn [fst snd] in *.
      eapply (pool_replace s s (k, Ret (Some k'))); try done.
      * constructor; [|done]. split; [by apply code_ok|]. cbn. rewrite Ho. done.
      * cbn. destruct (own k'); [apply NoDup_singleton|constructor].
      * cbn. rewrite <- Ho. destruct (own k') as [tok'|]; intros tok Hin; [|by apply elem_of_nil in Hin].
        apply list_elem_of_singleton in Hin as ->. by left.
    + injection Hs as <- <-. eapply (pool_replace s s (k, Ret None)); try done; [constructor|].
      intros tok Hin. by apply elem_of_nil in Hin.
    + destruct (f a s) as [[b s2]|] eqn:Hf; [|done]. injection Hs as <- <-.
      destruct Ht as [Hw Hu]. cbn in Hw.
      destruct (Hw s (rtc_refl _ _) Hi a b s2 Hf) as (Hi2 & HG & Hused & [Hst Hnd] & Hh).
      eapply (pool_replace s s2 (k, Act f sp h)); try done.
      * intros t' Hin Ht'. apply (thread_ok_rely s); [|done|done].
        split_and!; [done..|]. exists k. pose proof (pool_apart _ _ _ _ Hn Hin) as A. cbn in A.
        split_and!; [done| |done]. unfold apart in *. destruct A as [A|A]; [|right; congruence].
        destruct (own k) eqn:E; [|by left]. right. by rewrite A.
      * constructor; [split; [done|cbn; eauto]|]. rewrite Forall_map. eapply Forall_impl; [exact Hst|].
        intros k'. by apply started_ok.
      * assert (E : omap own (map fst (map start (sp b))) = omap own (sp b)).
        { rewrite map_map. cbn. by rewrite map_id. }
        cbn [map fst]. cbn. destruct (own k) as [tok|] eqn:Eo; rewrite E; [|done].
        apply NoDup_cons. split; [|done]. intros Hin. apply list_elem_of_omap in Hin as (k' & Hk' & Eo').
        rewrite Forall_forall in Hst. destruct (Hst _ Hk') as [_ Hst']. rewrite Eo' in Hst'.
        destruct Hst' as [Hst' _]. by apply Hst', Hu.
      * assert (E : omap own (map fst (map start (sp b))) = omap own (sp b)).
        { rewrite map_map. cbn. by rewrite map_id. }
        cbn [map fst]. cbn. intros tok Hin.
        assert (Hin' : own k = Some tok ∨ tok ∈ omap own (sp b)).
        { rewrite E in Hin. destruct (own k); [apply elem_of_cons in Hin as [->|Hin]; auto|auto]. }
        destruct Hin' as [?|Hin']; [by left|]. right. apply list_elem_of_omap in Hin' as (k' & Hk' & Eo').
        rewrite Forall_forall in Hst. destruct (Hst _ Hk') as [_ Hst']. rewrite Eo' in Hst'. by destruct Hst'.
  - destruct Hc as [Ho Hpre]. split; [done|]. cbn [fst snd]. split.
    + apply Forall_app. split; [done|]. constructor; [|done]. split; [apply code_ok; auto|].
      cbn. by rewrite Ho.
    + rewrite map_app, omap_app. cbn. rewrite Ho. by rewrite app_nil_r.
Qed.

Theorem sched_ok l x : Forall (λ c, match c with Call k => client k | Move _ _ => True end) l →
  pool_ok x → pool_ok (sched l x).
Proof.
  intros Hl. revert x. induction Hl as [|c l Hc _ IH]; intros x Hx; [done|]. by apply IH, step_ok.
Qed.

(** a move of a goroutine is what its name guarantees *)
Theorem step_guarantee i a x : pool_ok x →
  match fst x !! i with
  | Some t => snd (step (Move i a) x) = snd x ∨ G (fst t) (snd x) (snd (step (Move i a) x))
  | None => snd (step (Move i a) x) = snd x
  end.
Proof.
  destruct x as [pool s]. intros (Hi & Hp & _). cbn [fst snd step] in *.
  destruct (pool !! i) as [t|] eqn:Ht; [|done]. rewrite Forall_forall in Hp.
  destruct (Hp t (list_elem_of_lookup_2 _ _ _ Ht)) as [Hw _].
  destruct t as [k p]. unfold step_thread. cbn [fst snd] in *. destruct p as [[k'|]|B f sp h]; [by left|by left|].
  destruct (f a s) as [[b s2]|] eqn:Hf; [|by left]. right. cbn [snd].
  cbn in Hw. by destruct (Hw s (rtc_refl _ _) Hi a b s2 Hf) as (_ & ? & _).
Qed.
End Progs.
Arguments prog : clear implicits.
Arguments Ret {Ans S K A} _.
Arguments Act {Ans S K A B} _ _ _.
#[export] Instance prog_ret Ans S K : MRet (prog Ans S K) := λ A a, Ret a.
#[export] Instance prog_bind Ans S K : MBind (prog Ans S K) := λ A B h p, pbind h p.
