(* ===== verification/HubData.v ===== *)
(** internal/hub: the state of the broadcast registry (hub.go).

    Hubs, publishers and subscribers are Go pointers that outlive their
    registration, so the state holds a heap of each, indexed by handles ([nat]);
    [h_hubs] names the registered hubs by broadcast ID. The registry runs its
    critical sections under one mutex: each is a function on [Registry] in the
    state monad. What happens outside (sessions closed, hooks called, events
    published, keyframes handed to a subscriber) is appended to [h_log]. *)
From stdpp Require Export gmap.
From S2P Require Export StateM Ingress FanOut BroadcastID.
#[local] Open Scope Z_scope.

(** ** Counters

    The cumulative uint64 counters of a hub, of a subscriber and of the
    registry's totals, by name ([Kf*]: the four causes of KeyframeDrops). *)
Inductive counter :=
  | FramesRelayed | DatagramsRelayed | DatagramsDropped | BadDatagrams
  | BandwidthDroppedDatagrams | BandwidthDroppedBytes
  | KeyframeStreamsIn | KeyframeBytesIn | KeyframeStreamsOversize | KeyframeStreamsSent
  | KfSuperseded | KfSlow | KfBandwidth | KfOpenFailed
  | SendErrors | IngressDatagramBytes | EgressDatagramBytes | EgressKeyframeBytes
  | CarrierStreams | CarrierRecords | CarrierRecordsDropped | CarrierQueueOverflow
  | DVRResyncs | EgressCarrierBytes
  | ParityDatagramsForwarded | ParitySuppressed | EgressParityBytes
  | StripeSuppressedDatagrams | StripeTransitions | StripeLegsReaped
  | UplinkCarriers | UplinkRecords | UplinkRecordsStale | UplinkCarriersRejected.
#[export] Instance counter_eq_dec : EqDecision counter.
Proof. solve_decision. Defined.

Definition counts : Type := counter → Z.
Definition no_counts : counts := λ _, 0.
Definition bump (k : counter) (n : Z) (t : counts) : counts :=
  λ k', if bool_decide (k' = k) then t k' + n else t k'.

(** ** The parts of a hub *)

(** the cached primes replayed to a joiner *)
Record Primes := MkPrimes {
  cachedKeyframe : option bytes;
  cachedKeyframeID : Z;
  cachedKeyframeHasConfig : bool;
  cachedClockMapping : option bytes;
  cachedAudioConfig : option bytes;
  cachedViewerCount : option bytes;
}.
Definition no_primes := MkPrimes None 0 false None None None.
Definition with_keyframe (msg : bytes) (id : Z) (hasConfig : bool) (x : Primes) : Primes :=
  MkPrimes (Some msg) id hasConfig (cachedClockMapping x) (cachedAudioConfig x) (cachedViewerCount x).
Definition with_clock (d : bytes) (x : Primes) : Primes :=
  MkPrimes (cachedKeyframe x) (cachedKeyframeID x) (cachedKeyframeHasConfig x) (Some d)
    (cachedAudioConfig x) (cachedViewerCount x).
Definition with_audio (d : bytes) (x : Primes) : Primes :=
  MkPrimes (cachedKeyframe x) (cachedKeyframeID x) (cachedKeyframeHasConfig x)
    (cachedClockMapping x) (Some d) (cachedViewerCount x).
Definition with_count (d : bytes) (x : Primes) : Primes :=
  MkPrimes (cachedKeyframe x) (cachedKeyframeID x) (cachedKeyframeHasConfig x)
    (cachedClockMapping x) (cachedAudioConfig x) (Some d).

(** codec family, AVCC config, coded height *)
Record Probe := MkProbe { codec_ : bytes; avccConfig : bool; codedHeight : Z }.
Definition no_probe := MkProbe [] false 0.
(** the count pump's last emit *)
Record Pump := MkPump { lastViewerCount : Z; lastEmitAt : Z; everEmitted : bool }.

(** Times are Unix nanoseconds; [None] is the zero [time.Time].
    [b_publisher] is a handle, [b_subs] the set of subscriber handles, [b_n] the counters
    not in [b_fan]. *)
Record broadcastHub := MkBHub {
  b_id : bytes;
  b_active : bool;
  b_session : bytes;
  b_kind : bytes;
  b_epoch : bytes;
  b_publisher : option nat;
  b_generation : Z;
  b_graceTimer : option nat;
  b_graceStart : option Z;
  b_stalledSince : option Z;
  b_stalledReported : bool;
  b_edge : bool;
  b_subs : list nat;
  b_primes : Primes;
  b_keyframeSeq : Z;
  b_startedAt : Z;
  b_client : bytes * bytes * bytes;
  b_probe : Probe;
  b_leftAt : option Z;
  b_peak : Z;
  b_dvr : option DVRRing;
  b_dvrAudio : option DVRAudioRing;
  b_pump : Pump;
  b_fan : Counters;
  b_n : counts;
  b_ingress : ingressWindow;
  b_ingressLoss : ingressTally;
}.

Definition set_b_active (f : bool → bool) (x : broadcastHub) : broadcastHub :=
  MkBHub (b_id x) (f (b_active x)) (b_session x) (b_kind x) (b_epoch x) (b_publisher x) (b_generation x) (b_graceTimer x) (b_graceStart x) (b_stalledSince x) (b_stalledReported x) (b_edge x) (b_subs x) (b_primes x) (b_keyframeSeq x) (b_startedAt x) (b_client x) (b_probe x) (b_leftAt x) (b_peak x) (b_dvr x) (b_dvrAudio x) (b_pump x) (b_fan x) (b_n x) (b_ingress x) (b_ingressLoss x).
Definition set_b_session (f : bytes → bytes) (x : broadcastHub) : broadcastHub :=
  MkBHub (b_id x) (b_active x) (f (b_session x)) (b_kind x) (b_epoch x) (b_publisher x) (b_generation x) (b_graceTimer x) (b_graceStart x) (b_stalledSince x) (b_stalledReported x) (b_edge x) (b_subs x) (b_primes x) (b_keyframeSeq x) (b_startedAt x) (b_client x) (b_probe x) (b_leftAt x) (b_peak x) (b_dvr x) (b_dvrAudio x) (b_pump x) (b_fan x) (b_n x) (b_ingress x) (b_ingressLoss x).
Definition set_b_kind (f : bytes → bytes) (x : broadcastHub) : broadcastHub :=
  MkBHub (b_id x) (b_active x) (b_session x) (f (b_kind x)) (b_epoch x) (b_publisher x) (b_generation x) (b_graceTimer x) (b_graceStart x) (b_stalledSince x) (b_stalledReported x) (b_edge x) (b_subs x) (b_primes x) (b_keyframeSeq x) (b_startedAt x) (b_client x) (b_probe x) (b_leftAt x) (b_peak x) (b_dvr x) (b_dvrAudio x) (b_pump x) (b_fan x) (b_n x) (b_ingress x) (b_ingressLoss x).
Definition set_b_epoch (f : bytes → bytes) (x : broadcastHub) : broadcastHub :=
  MkBHub (b_id x) (b_active x) (b_session x) (b_kind x) (f (b_epoch x)) (b_publisher x) (b_generation x) (b_graceTimer x) (b_graceStart x) (b_stalledSince x) (b_stalledReported x) (b_edge x) (b_subs x) (b_primes x) (b_keyframeSeq x) (b_startedAt x) (b_client x) (b_probe x) (b_leftAt x) (b_peak x) (b_dvr x) (b_dvrAudio x) (b_pump x) (b_fan x) (b_n x) (b_ingress x) (b_ingressLoss x).
Definition set_b_publisher (f : (option nat) → option nat) (x : broadcastHub) : broadcastHub :=
  MkBHub (b_id x) (b_active x) (b_session x) (b_kind x) (b_epoch x) (f (b_publisher x)) (b_generation x) (b_graceTimer x) (b_graceStart x) (b_stalledSince x) (b_stalledReported x) (b_edge x) (b_subs x) (b_primes x) (b_keyframeSeq x) (b_startedAt x) (b_client x) (b_probe x) (b_leftAt x) (b_peak x) (b_dvr x) (b_dvrAudio x) (b_pump x) (b_fan x) (b_n x) (b_ingress x) (b_ingressLoss x).
Definition set_b_generation (f : Z → Z) (x : broadcastHub) : broadcastHub :=
  MkBHub (b_id x) (b_active x) (b_session x) (b_kind x) (b_epoch x) (b_publisher x) (f (b_generation x)) (b_graceTimer x) (b_graceStart x) (b_stalledSince x) (b_stalledReported x) (b_edge x) (b_subs x) (b_primes x) (b_keyframeSeq x) (b_startedAt x) (b_client x) (b_probe x) (b_leftAt x) (b_peak x) (b_dvr x) (b_dvrAudio x) (b_pump x) (b_fan x) (b_n x) (b_ingress x) (b_ingressLoss x).
Definition set_b_graceTimer (f : (option nat) → option nat) (x : broadcastHub) : broadcastHub :=
  MkBHub (b_id x) (b_active x) (b_session x) (b_kind x) (b_epoch x) (b_publisher x) (b_generation x) (f (b_graceTimer x)) (b_graceStart x) (b_stalledSince x) (b_stalledReported x) (b_edge x) (b_subs x) (b_primes x) (b_keyframeSeq x) (b_startedAt x) (b_client x) (b_probe x) (b_leftAt x) (b_peak x) (b_dvr x) (b_dvrAudio x) (b_pump x) (b_fan x) (b_n x) (b_ingress x) (b_ingressLoss x).
Definition set_b_graceStart (f : (option Z) → option Z) (x : broadcastHub) : broadcastHub :=
  MkBHub (b_id x) (b_active x) (b_session x) (b_kind x) (b_epoch x) (b_publisher x) (b_generation x) (b_graceTimer x) (f (b_graceStart x)) (b_stalledSince x) (b_stalledReported x) (b_edge x) (b_subs x) (b_primes x) (b_keyframeSeq x) (b_startedAt x) (b_client x) (b_probe x) (b_leftAt x) (b_peak x) (b_dvr x) (b_dvrAudio x) (b_pump x) (b_fan x) (b_n x) (b_ingress x) (b_ingressLoss x).
Definition set_b_stalledSince (f : (option Z) → option Z) (x : broadcastHub) : broadcastHub :=
  MkBHub (b_id x) (b_active x) (b_session x) (b_kind x) (b_epoch x) (b_publisher x) (b_generation x) (b_graceTimer x) (b_graceStart x) (f (b_stalledSince x)) (b_stalledReported x) (b_edge x) (b_subs x) (b_primes x) (b_keyframeSeq x) (b_startedAt x) (b_client x) (b_probe x) (b_leftAt x) (b_peak x) (b_dvr x) (b_dvrAudio x) (b_pump x) (b_fan x) (b_n x) (b_ingress x) (b_ingressLoss x).
Definition set_b_stalledReported (f : bool → bool) (x : broadcastHub) : broadcastHub :=
  MkBHub (b_id x) (b_active x) (b_session x) (b_kind x) (b_epoch x) (b_publisher x) (b_generation x) (b_graceTimer x) (b_graceStart x) (b_stalledSince x) (f (b_stalledReported x)) (b_edge x) (b_subs x) (b_primes x) (b_keyframeSeq x) (b_startedAt x) (b_client x) (b_probe x) (b_leftAt x) (b_peak x) (b_dvr x) (b_dvrAudio x) (b_pump x) (b_fan x) (b_n x) (b_ingress x) (b_ingressLoss x).
Definition set_b_edge (f : bool → bool) (x : broadcastHub) : broadcastHub :=
  MkBHub (b_id x) (b_active x) (b_session x) (b_kind x) (b_epoch x) (b_publisher x) (b_generation x) (b_graceTimer x) (b_graceStart x) (b_stalledSince x) (b_stalledReported x) (f (b_edge x)) (b_subs x) (b_primes x) (b_keyframeSeq x) (b_startedAt x) (b_client x) (b_probe x) (b_leftAt x) (b_peak x) (b_dvr x) (b_dvrAudio x) (b_pump x) (b_fan x) (b_n x) (b_ingress x) (b_ingressLoss x).
Definition set_b_subs (f : (list nat) → list nat) (x : broadcastHub) : broadcastHub :=
  MkBHub (b_id x) (b_active x) (b_session x) (b_kind x) (b_epoch x) (b_publisher x) (b_generation x) (b_graceTimer x) (b_graceStart x) (b_stalledSince x) (b_stalledReported x) (b_edge x) (f (b_subs x)) (b_primes x) (b_keyframeSeq x) (b_startedAt x) (b_client x) (b_probe x) (b_leftAt x) (b_peak x) (b_dvr x) (b_dvrAudio x) (b_pump x) (b_fan x) (b_n x) (b_ingress x) (b_ingressLoss x).
Definition set_b_primes (f : Primes → Primes) (x : broadcastHub) : broadcastHub :=
  MkBHub (b_id x) (b_active x) (b_session x) (b_kind x) (b_epoch x) (b_publisher x) (b_generation x) (b_graceTimer x) (b_graceStart x) (b_stalledSince x) (b_stalledReported x) (b_edge x) (b_subs x) (f (b_primes x)) (b_keyframeSeq x) (b_startedAt x) (b_client x) (b_probe x) (b_leftAt x) (b_peak x) (b_dvr x) (b_dvrAudio x) (b_pump x) (b_fan x) (b_n x) (b_ingress x) (b_ingressLoss x).
Definition set_b_keyframeSeq (f : Z → Z) (x : broadcastHub) : broadcastHub :=
  MkBHub (b_id x) (b_active x) (b_session x) (b_kind x) (b_epoch x) (b_publisher x) (b_generation x) (b_graceTimer x) (b_graceStart x) (b_stalledSince x) (b_stalledReported x) (b_edge x) (b_subs x) (b_primes x) (f (b_keyframeSeq x)) (b_startedAt x) (b_client x) (b_probe x) (b_leftAt x) (b_peak x) (b_dvr x) (b_dvrAudio x) (b_pump x) (b_fan x) (b_n x) (b_ingress x) (b_ingressLoss x).
Definition set_b_client (f : (bytes * bytes * bytes) → bytes * bytes * bytes) (x : broadcastHub) : broadcastHub :=
  MkBHub (b_id x) (b_active x) (b_session x) (b_kind x) (b_epoch x) (b_publisher x) (b_generation x) (b_graceTimer x) (b_graceStart x) (b_stalledSince x) (b_stalledReported x) (b_edge x) (b_subs x) (b_primes x) (b_keyframeSeq x) (b_startedAt x) (f (b_client x)) (b_probe x) (b_leftAt x) (b_peak x) (b_dvr x) (b_dvrAudio x) (b_pump x) (b_fan x) (b_n x) (b_ingress x) (b_ingressLoss x).
Definition set_b_probe (f : Probe → Probe) (x : broadcastHub) : broadcastHub :=
  MkBHub (b_id x) (b_active x) (b_session x) (b_kind x) (b_epoch x) (b_publisher x) (b_generation x) (b_graceTimer x) (b_graceStart x) (b_stalledSince x) (b_stalledReported x) (b_edge x) (b_subs x) (b_primes x) (b_keyframeSeq x) (b_startedAt x) (b_client x) (f (b_probe x)) (b_leftAt x) (b_peak x) (b_dvr x) (b_dvrAudio x) (b_pump x) (b_fan x) (b_n x) (b_ingress x) (b_ingressLoss x).
Definition set_b_leftAt (f : (option Z) → option Z) (x : broadcastHub) : broadcastHub :=
  MkBHub (b_id x) (b_active x) (b_session x) (b_kind x) (b_epoch x) (b_publisher x) (b_generation x) (b_graceTimer x) (b_graceStart x) (b_stalledSince x) (b_stalledReported x) (b_edge x) (b_subs x) (b_primes x) (b_keyframeSeq x) (b_startedAt x) (b_client x) (b_probe x) (f (b_leftAt x)) (b_peak x) (b_dvr x) (b_dvrAudio x) (b_pump x) (b_fan x) (b_n x) (b_ingress x) (b_ingressLoss x).
Definition set_b_peak (f : Z → Z) (x : broadcastHub) : broadcastHub :=
  MkBHub (b_id x) (b_active x) (b_session x) (b_kind x) (b_epoch x) (b_publisher x) (b_generation x) (b_graceTimer x) (b_graceStart x) (b_stalledSince x) (b_stalledReported x) (b_edge x) (b_subs x) (b_primes x) (b_keyframeSeq x) (b_startedAt x) (b_client x) (b_probe x) (b_leftAt x) (f (b_peak x)) (b_dvr x) (b_dvrAudio x) (b_pump x) (b_fan x) (b_n x) (b_ingress x) (b_ingressLoss x).
Definition set_b_dvr (f : (option DVRRing) → option DVRRing) (x : broadcastHub) : broadcastHub :=
  MkBHub (b_id x) (b_active x) (b_session x) (b_kind x) (b_epoch x) (b_publisher x) (b_generation x) (b_graceTimer x) (b_graceStart x) (b_stalledSince x) (b_stalledReported x) (b_edge x) (b_subs x) (b_primes x) (b_keyframeSeq x) (b_startedAt x) (b_client x) (b_probe x) (b_leftAt x) (b_peak x) (f (b_dvr x)) (b_dvrAudio x) (b_pump x) (b_fan x) (b_n x) (b_ingress x) (b_ingressLoss x).
Definition set_b_dvrAudio (f : (option DVRAudioRing) → option DVRAudioRing) (x : broadcastHub) : broadcastHub :=
  MkBHub (b_id x) (b_active x) (b_session x) (b_kind x) (b_epoch x) (b_publisher x) (b_generation x) (b_graceTimer x) (b_graceStart x) (b_stalledSince x) (b_stalledReported x) (b_edge x) (b_subs x) (b_primes x) (b_keyframeSeq x) (b_startedAt x) (b_client x) (b_probe x) (b_leftAt x) (b_peak x) (b_dvr x) (f (b_dvrAudio x)) (b_pump x) (b_fan x) (b_n x) (b_ingress x) (b_ingressLoss x).
Definition set_b_pump (f : Pump → Pump) (x : broadcastHub) : broadcastHub :=
  MkBHub (b_id x) (b_active x) (b_session x) (b_kind x) (b_epoch x) (b_publisher x) (b_generation x) (b_graceTimer x) (b_graceStart x) (b_stalledSince x) (b_stalledReported x) (b_edge x) (b_subs x) (b_primes x) (b_keyframeSeq x) (b_startedAt x) (b_client x) (b_probe x) (b_leftAt x) (b_peak x) (b_dvr x) (b_dvrAudio x) (f (b_pump x)) (b_fan x) (b_n x) (b_ingress x) (b_ingressLoss x).
Definition set_b_fan (f : Counters → Counters) (x : broadcastHub) : broadcastHub :=
  MkBHub (b_id x) (b_active x) (b_session x) (b_kind x) (b_epoch x) (b_publisher x) (b_generation x) (b_graceTimer x) (b_graceStart x) (b_stalledSince x) (b_stalledReported x) (b_edge x) (b_subs x) (b_primes x) (b_keyframeSeq x) (b_startedAt x) (b_client x) (b_probe x) (b_leftAt x) (b_peak x) (b_dvr x) (b_dvrAudio x) (b_pump x) (f (b_fan x)) (b_n x) (b_ingress x) (b_ingressLoss x).
Definition set_b_n (f : counts → counts) (x : broadcastHub) : broadcastHub :=
  MkBHub (b_id x) (b_active x) (b_session x) (b_kind x) (b_epoch x) (b_publisher x) (b_generation x) (b_graceTimer x) (b_graceStart x) (b_stalledSince x) (b_stalledReported x) (b_edge x) (b_subs x) (b_primes x) (b_keyframeSeq x) (b_startedAt x) (b_client x) (b_probe x) (b_leftAt x) (b_peak x) (b_dvr x) (b_dvrAudio x) (b_pump x) (b_fan x) (f (b_n x)) (b_ingress x) (b_ingressLoss x).
Definition set_b_ingress (f : ingressWindow → ingressWindow) (x : broadcastHub) : broadcastHub :=
  MkBHub (b_id x) (b_active x) (b_session x) (b_kind x) (b_epoch x) (b_publisher x) (b_generation x) (b_graceTimer x) (b_graceStart x) (b_stalledSince x) (b_stalledReported x) (b_edge x) (b_subs x) (b_primes x) (b_keyframeSeq x) (b_startedAt x) (b_client x) (b_probe x) (b_leftAt x) (b_peak x) (b_dvr x) (b_dvrAudio x) (b_pump x) (b_fan x) (b_n x) (f (b_ingress x)) (b_ingressLoss x).
Definition set_b_ingressLoss (f : ingressTally → ingressTally) (x : broadcastHub) : broadcastHub :=
  MkBHub (b_id x) (b_active x) (b_session x) (b_kind x) (b_epoch x) (b_publisher x) (b_generation x) (b_graceTimer x) (b_graceStart x) (b_stalledSince x) (b_stalledReported x) (b_edge x) (b_subs x) (b_primes x) (b_keyframeSeq x) (b_startedAt x) (b_client x) (b_probe x) (b_leftAt x) (b_peak x) (b_dvr x) (b_dvrAudio x) (b_pump x) (b_fan x) (b_n x) (b_ingress x) (f (b_ingressLoss x)).

(** [s_sub]: what the fan-out touches. [s_folded]: Close has run to its end; [s_n]: the
    counters not in [s_sub]. *)
Record HubSubscriber := MkHSub {
  s_hub : nat;
  s_sub : Subscriber;
  s_closed : bool;
  s_folded : bool;
  s_parityRequested : Z;
  s_ownerKey : bytes;
  s_leg : bool;
  s_legCarrier : bool;
  s_sessionID : bytes;
  s_downstream : Z;
  s_lastInbound : Z;
  s_bufferMs : Z;
  s_cursor : option DVRCursor;
  s_audioCursor : option Z;
  s_n : counts;
}.

Definition set_s_sub (f : Subscriber → Subscriber) (x : HubSubscriber) : HubSubscriber :=
  MkHSub (s_hub x) (f (s_sub x)) (s_closed x) (s_folded x) (s_parityRequested x) (s_ownerKey x) (s_leg x) (s_legCarrier x) (s_sessionID x) (s_downstream x) (s_lastInbound x) (s_bufferMs x) (s_cursor x) (s_audioCursor x) (s_n x).
Definition set_s_closed (f : bool → bool) (x : HubSubscriber) : HubSubscriber :=
  MkHSub (s_hub x) (s_sub x) (f (s_closed x)) (s_folded x) (s_parityRequested x) (s_ownerKey x) (s_leg x) (s_legCarrier x) (s_sessionID x) (s_downstream x) (s_lastInbound x) (s_bufferMs x) (s_cursor x) (s_audioCursor x) (s_n x).
Definition set_s_folded (f : bool → bool) (x : HubSubscriber) : HubSubscriber :=
  MkHSub (s_hub x) (s_sub x) (s_closed x) (f (s_folded x)) (s_parityRequested x) (s_ownerKey x) (s_leg x) (s_legCarrier x) (s_sessionID x) (s_downstream x) (s_lastInbound x) (s_bufferMs x) (s_cursor x) (s_audioCursor x) (s_n x).
Definition set_s_sessionID (f : bytes → bytes) (x : HubSubscriber) : HubSubscriber :=
  MkHSub (s_hub x) (s_sub x) (s_closed x) (s_folded x) (s_parityRequested x) (s_ownerKey x) (s_leg x) (s_legCarrier x) (f (s_sessionID x)) (s_downstream x) (s_lastInbound x) (s_bufferMs x) (s_cursor x) (s_audioCursor x) (s_n x).
Definition set_s_downstream (f : Z → Z) (x : HubSubscriber) : HubSubscriber :=
  MkHSub (s_hub x) (s_sub x) (s_closed x) (s_folded x) (s_parityRequested x) (s_ownerKey x) (s_leg x) (s_legCarrier x) (s_sessionID x) (f (s_downstream x)) (s_lastInbound x) (s_bufferMs x) (s_cursor x) (s_audioCursor x) (s_n x).
Definition set_s_lastInbound (f : Z → Z) (x : HubSubscriber) : HubSubscriber :=
  MkHSub (s_hub x) (s_sub x) (s_closed x) (s_folded x) (s_parityRequested x) (s_ownerKey x) (s_leg x) (s_legCarrier x) (s_sessionID x) (s_downstream x) (f (s_lastInbound x)) (s_bufferMs x) (s_cursor x) (s_audioCursor x) (s_n x).
Definition set_s_n (f : counts → counts) (x : HubSubscriber) : HubSubscriber :=
  MkHSub (s_hub x) (s_sub x) (s_closed x) (s_folded x) (s_parityRequested x) (s_ownerKey x) (s_leg x) (s_legCarrier x) (s_sessionID x) (s_downstream x) (s_lastInbound x) (s_bufferMs x) (s_cursor x) (s_audioCursor x) (f (s_n x)).

(** [p_conn], [p_send]: a session closer, a sender is bound *)
Record Publisher := MkPub {
  p_hub : nat;
  p_closed : bool;
  p_generation : Z;
  p_conn : bool;
  p_send : bool;
  p_lastSeen : Z;
  p_carriers : Z;
}.

Definition set_p_closed (f : bool → bool) (x : Publisher) : Publisher :=
  MkPub (p_hub x) (f (p_closed x)) (p_generation x) (p_conn x) (p_send x) (p_lastSeen x) (p_carriers x).
Definition set_p_conn (f : bool → bool) (x : Publisher) : Publisher :=
  MkPub (p_hub x) (p_closed x) (p_generation x) (f (p_conn x)) (p_send x) (p_lastSeen x) (p_carriers x).
Definition set_p_send (f : bool → bool) (x : Publisher) : Publisher :=
  MkPub (p_hub x) (p_closed x) (p_generation x) (p_conn x) (f (p_send x)) (p_lastSeen x) (p_carriers x).
Definition set_p_lastSeen (f : Z → Z) (x : Publisher) : Publisher :=
  MkPub (p_hub x) (p_closed x) (p_generation x) (p_conn x) (p_send x) (f (p_lastSeen x)) (p_carriers x).
Definition set_p_carriers (f : Z → Z) (x : Publisher) : Publisher :=
  MkPub (p_hub x) (p_closed x) (p_generation x) (p_conn x) (p_send x) (p_lastSeen x) (f (p_carriers x)).

(** A [time.AfterFunc] whose callback is [handleGraceExpiry(t_id, t_gen)]. Once
    [Fired] the callback waits for the mutex and [Stop] has no effect on it. *)
Inductive timer_state := Armed | Stopped | Fired | Ran.
#[export] Instance timer_state_eq_dec : EqDecision timer_state.
Proof. solve_decision. Defined.

Record graceTimer := MkTimer {
  t_id : bytes;
  t_gen : Z;
  t_at : Z;
  t_state : timer_state;
}.

Definition set_t_state (f : timer_state → timer_state) (x : graceTimer) : graceTimer :=
  MkTimer (t_id x) (t_gen x) (t_at x) (f (t_state x)).

(** ** The outside *)

Inductive ended_reason := EndedGC | EndedKilled | EndedStopped | EndedReplaced.
#[export] Instance ended_reason_eq_dec : EqDecision ended_reason.
Proof. solve_decision. Defined.
Inductive bus_data :=
  | BroadcastStarted
  | BroadcastEnded (reason : ended_reason)
  | BroadcastPublisherAway
  | BroadcastPublisherBack
  | BroadcastViewers (edge : bool) (local global : Z).
(** the broadcast is the subject; [e_pop] names its PoP *)
Record bus_event := MkBus { e_id : bytes; e_pop : bytes; e_data : bus_data }.

Inductive effect :=
  (** [CloseWithError] on a subscriber's or a publisher's session *)
  | SubscriberClosed (s : nat) (code : Z)
  | PublisherClosed (p : nat) (code : Z)
  | SendKeyframe (s : nat) (msg : bytes) (seq : Z)
  | PushDatagram (p : nat) (dgram : bytes)
  | Bus (e : bus_event)
  | OnPublisherClosed (id : bytes)
  | OnBroadcastExpired (id : bytes)
  | OnPublisherStalled (id : bytes) (stalled : bool)
  | OnOriginEnded (duration peak : Z).

Record Registry := MkRegistry {
  h_hubs : gmap bytes nat;
  h_heap : gmap nat broadcastHub;
  h_pubs : gmap nat Publisher;
  h_subs : gmap nat HubSubscriber;
  h_timers : gmap nat graceTimer;
  h_total : counts;
  h_ingress : ingressTally;
  h_edgeIngress : ingressTally;
  h_popIngress : ingressTally;
  h_next : nat;
  h_log : list effect;
}.

Definition set_h_hubs (f : (gmap bytes nat) → gmap bytes nat) (x : Registry) : Registry :=
  MkRegistry (f (h_hubs x)) (h_heap x) (h_pubs x) (h_subs x) (h_timers x) (h_total x) (h_ingress x) (h_edgeIngress x) (h_popIngress x) (h_next x) (h_log x).
Definition set_h_heap (f : (gmap nat broadcastHub) → gmap nat broadcastHub) (x : Registry) : Registry :=
  MkRegistry (h_hubs x) (f (h_heap x)) (h_pubs x) (h_subs x) (h_timers x) (h_total x) (h_ingress x) (h_edgeIngress x) (h_popIngress x) (h_next x) (h_log x).
Definition set_h_pubs (f : (gmap nat Publisher) → gmap nat Publisher) (x : Registry) : Registry :=
  MkRegistry (h_hubs x) (h_heap x) (f (h_pubs x)) (h_subs x) (h_timers x) (h_total x) (h_ingress x) (h_edgeIngress x) (h_popIngress x) (h_next x) (h_log x).
Definition set_h_subs (f : (gmap nat HubSubscriber) → gmap nat HubSubscriber) (x : Registry) : Registry :=
  MkRegistry (h_hubs x) (h_heap x) (h_pubs x) (f (h_subs x)) (h_timers x) (h_total x) (h_ingress x) (h_edgeIngress x) (h_popIngress x) (h_next x) (h_log x).
Definition set_h_timers (f : (gmap nat graceTimer) → gmap nat graceTimer) (x : Registry) : Registry :=
  MkRegistry (h_hubs x) (h_heap x) (h_pubs x) (h_subs x) (f (h_timers x)) (h_total x) (h_ingress x) (h_edgeIngress x) (h_popIngress x) (h_next x) (h_log x).
Definition set_h_total (f : counts → counts) (x : Registry) : Registry :=
  MkRegistry (h_hubs x) (h_heap x) (h_pubs x) (h_subs x) (h_timers x) (f (h_total x)) (h_ingress x) (h_edgeIngress x) (h_popIngress x) (h_next x) (h_log x).
Definition set_h_ingress (f : ingressTally → ingressTally) (x : Registry) : Registry :=
  MkRegistry (h_hubs x) (h_heap x) (h_pubs x) (h_subs x) (h_timers x) (h_total x) (f (h_ingress x)) (h_edgeIngress x) (h_popIngress x) (h_next x) (h_log x).
Definition set_h_edgeIngress (f : ingressTally → ingressTally) (x : Registry) : Registry :=
  MkRegistry (h_hubs x) (h_heap x) (h_pubs x) (h_subs x) (h_timers x) (h_total x) (h_ingress x) (f (h_edgeIngress x)) (h_popIngress x) (h_next x) (h_log x).
Definition set_h_popIngress (f : ingressTally → ingressTally) (x : Registry) : Registry :=
  MkRegistry (h_hubs x) (h_heap x) (h_pubs x) (h_subs x) (h_timers x) (h_total x) (h_ingress x) (h_edgeIngress x) (f (h_popIngress x)) (h_next x) (h_log x).
Definition set_h_next (f : nat → nat) (x : Registry) : Registry :=
  MkRegistry (h_hubs x) (h_heap x) (h_pubs x) (h_subs x) (h_timers x) (h_total x) (h_ingress x) (h_edgeIngress x) (h_popIngress x) (f (h_next x)) (h_log x).
Definition set_h_log (f : (list effect) → list effect) (x : Registry) : Registry :=
  MkRegistry (h_hubs x) (h_heap x) (h_pubs x) (h_subs x) (h_timers x) (h_total x) (h_ingress x) (h_edgeIngress x) (h_popIngress x) (h_next x) (f (h_log x)).

(** ** Access *)

Abbreviation St := (State Registry).
Definition emit (e : effect) : St unit := modify (set_h_log (λ l, l ++ [e])).

Definition zero_counters := MkCounters 0 0 0 0.
Definition zero_hub : broadcastHub :=
  MkBHub [] false [] [] [] None 0 None None None false false [] no_primes 0 0 ([], [], []) no_probe
    None 0 None None (MkPump 0 0 false) zero_counters no_counts reset zeroTally.
Definition zero_sub : HubSubscriber :=
  MkHSub 0 (MkSub (MkConfig false false false false false 0 0 [] 0 0 None) (MkStripe 0 0 0)
    (MkLanes [] [] 0 0 0 0 0)) true true 0 [] false false [] 0 0 0 None None no_counts.
Definition zero_pub : Publisher := MkPub 0 true 0 false false 0 0.

(** handles are never dangling: the default is not reached *)
Definition hub_of (g : Registry) (b : nat) : broadcastHub := default zero_hub (h_heap g !! b).
Definition sub_of (g : Registry) (s : nat) : HubSubscriber := default zero_sub (h_subs g !! s).
Definition pub_of (g : Registry) (p : nat) : Publisher := default zero_pub (h_pubs g !! p).
Definition get_hub (b : nat) : St broadcastHub := gets (λ g, hub_of g b).
Definition get_sub (s : nat) : St HubSubscriber := gets (λ g, sub_of g s).
Definition get_pub (p : nat) : St Publisher := gets (λ g, pub_of g p).
Definition upd_hub (b : nat) (f : broadcastHub → broadcastHub) : St unit := modify (set_h_heap (alter f b)).
Definition upd_sub (s : nat) (f : HubSubscriber → HubSubscriber) : St unit := modify (set_h_subs (alter f s)).
Definition upd_pub (p : nat) (f : Publisher → Publisher) : St unit := modify (set_h_pubs (alter f p)).
(** a fresh handle *)
Definition new : St nat := λ g, (h_next g, set_h_next S g).

(** counting on a hub, on a subscriber, on the totals *)
Definition count (b : nat) (k : counter) (n : Z) : St unit := upd_hub b (set_b_n (bump k n)).
Definition sub_count (s : nat) (k : counter) (n : Z) : St unit := upd_sub s (set_s_n (bump k n)).
Definition total_count (k : counter) (n : Z) : St unit := modify (set_h_total (bump k n)).

