(* ===== verification/HubOps.v ===== *)
(** internal/hub/hub.go: publishers. Claiming, superseding and releasing the
    publisher slot of a broadcast, and ending broadcasts.

    Each definition is a critical section of the registry's mutex, or (where the
    Go function unlocks and goes on) the section and what follows it. [now] is
    the clock, [rnd] what crypto/rand returns. *)
From S2P Require Export HubData.
#[local] Open Scope Z_scope.

(** ** Options *)

Record Options := MkOptions {
  MaxSubscribers : Z;
  QueueDepth : Z;
  DVRWindow : Z;
  DVRMaxBytes : Z;
  DVRAudio : bool;
  LiveEdgeAudioOnReliableStream : bool;
  StripedDelivery : bool;
  StripeLegLease : Z;
  UndeliverableAfter : Z;
  DVRProgressTimeout : Z;
  BroadcastGrace : Z;
  PublisherStallTimeout : Z;
  PublisherStallEnds : bool;
  MaxBroadcasts : Z;
  MaxTotalSubscribers : Z;
  opt_MaxKeyframeBytes : Z;
  KeyframeWriteTimeout : Z;
  HasOnPublisherClosed : bool;
  HasOnBroadcastExpired : bool;
  HasOnPublisherStalled : bool;
  HasOnOriginEnded : bool;
  HasOnEvent : bool;
  IDReserved : option (bytes → bool);
  PopOf : option (bytes → bytes);
}.

Definition DefaultStripeLegLease := 20 * 10 ^ 9.
Definition UndeliverableVideoAfter := 3 * 10 ^ 9.
Definition DefaultDVRMaxBytes := 24 * 2 ^ 20.
Definition DefaultDVRProgressTimeout := 6 * 10 ^ 9.

(** the defaults [NewRegistry] fills in *)
Definition with_defaults (o : Options) : Options :=
  let dflt v d := if v <=? 0 then d else v in
  {| MaxSubscribers := dflt (MaxSubscribers o) 15;
     QueueDepth := dflt (QueueDepth o) 1024;
     DVRWindow := dflt (DVRWindow o) DefaultDVRWindow;
     DVRMaxBytes := dflt (DVRMaxBytes o) DefaultDVRMaxBytes;
     DVRAudio := DVRAudio o;
     LiveEdgeAudioOnReliableStream := LiveEdgeAudioOnReliableStream o;
     StripedDelivery := StripedDelivery o;
     StripeLegLease := dflt (StripeLegLease o) DefaultStripeLegLease;
     UndeliverableAfter := dflt (UndeliverableAfter o) UndeliverableVideoAfter;
     DVRProgressTimeout := dflt (DVRProgressTimeout o) DefaultDVRProgressTimeout;
     BroadcastGrace := dflt (BroadcastGrace o) (300 * 10 ^ 9);
     PublisherStallTimeout := PublisherStallTimeout o;
     PublisherStallEnds := PublisherStallEnds o;
     MaxBroadcasts := dflt (MaxBroadcasts o) 5;
     MaxTotalSubscribers := dflt (MaxTotalSubscribers o) 50;
     opt_MaxKeyframeBytes := dflt (opt_MaxKeyframeBytes o) MaxKeyframeBytes;
     KeyframeWriteTimeout := dflt (KeyframeWriteTimeout o) (10 ^ 9);
     HasOnPublisherClosed := HasOnPublisherClosed o;
     HasOnBroadcastExpired := HasOnBroadcastExpired o;
     HasOnPublisherStalled := HasOnPublisherStalled o;
     HasOnOriginEnded := HasOnOriginEnded o;
     HasOnEvent := HasOnEvent o;
     IDReserved := IDReserved o;
     PopOf := PopOf o |}.
Definition NewRegistry : Registry :=
  MkRegistry ∅ ∅ ∅ ∅ ∅ no_counts zeroTally zeroTally zeroTally 0 [].

Inductive hub_error :=
  | ErrPublisherActive | ErrFull | ErrNotFound | ErrMaxBroadcasts | ErrTotalSubscribers
  | ErrMint | ErrCollision | ErrStripe.
#[export] Instance hub_error_eq_dec : EqDecision hub_error.
Proof. solve_decision. Defined.
Abbreviation result := (outcome hub_error).

(** wire.CloseCode* *)
Definition CloseCodeBroadcastEnded := 4000.
Definition CloseCodeSubscriberUnresponsive := 4001.
Definition CloseCodePublisherSuperseded := 4004.
Definition CloseCodeStripeLegOrphaned := 4005.
Definition CloseCodeTerminatedByOperator := 4006.
Definition CloseCodeBroadcasterStopped := 4014.
Definition PublisherKindPopLeg : bytes := str "pop-leg"%string.

Section Ops.
Context (opts : Options) (unicode_upper : bytes → bytes).
#[local] Notation NormalizeID := (BroadcastID.Normalize unicode_upper).

(** ** The event bus (eventbus.go) *)

Definition popOf (id : bytes) : bytes := match PopOf opts with Some f => f id | None => [] end.
Definition emitEvent (id : bytes) (d : bus_data) : St unit :=
  if HasOnEvent opts then emit (Bus (MkBus id (popOf id) d)) else skip.
Definition busStarted (id : bytes) : St unit := emitEvent id BroadcastStarted.
Definition busEnded (id : bytes) (reason : ended_reason) : St unit := emitEvent id (BroadcastEnded reason).
Definition busStalled (id : bytes) (stalled : bool) : St unit :=
  emitEvent id (if stalled then BroadcastPublisherAway else BroadcastPublisherBack).
(** an edge reports its local count as the global one too *)
Definition busViewers (id : bytes) (local global : Z) (edge : bool) : St unit :=
  emitEvent id (BroadcastViewers edge local (if edge then local else global)).

(** ** Ingress accounting by leg *)

Inductive ingress_leg := legBroadcaster | legEdge | legPop.
Definition ingressLeg (h : broadcastHub) : ingress_leg :=
  if b_edge h then legEdge
  else if bool_decide (b_kind h = PublisherKindPopLeg) then legPop else legBroadcaster.
Definition foldIngressLocked (b : nat) : St unit :=
  h ← get_hub b;
  match ingressLeg h with
  | legEdge => modify (set_h_edgeIngress (λ t, add_tally t (b_ingressLoss h)))
  | legPop => modify (set_h_popIngress (λ t, add_tally t (b_ingressLoss h)))
  | legBroadcaster => modify (set_h_ingress (λ t, add_tally t (b_ingressLoss h)))
  end.
Definition setPublisherKindLocked (b : nat) (kind : bytes) : St unit :=
  h ← get_hub b;
  if bool_decide (b_kind h = kind) then skip else
  _ ← foldIngressLocked b;
  upd_hub b (λ h, set_b_kind (λ _, kind) (set_b_ingressLoss (λ _, zeroTally) h)).
Definition setRoleLocked (b : nat) (edge : bool) : St unit :=
  h ← get_hub b;
  if bool_decide (b_edge h = edge) then skip else
  _ ← foldIngressLocked b;
  upd_hub b (λ h, set_b_edge (λ _, edge) (set_b_ingressLoss (λ _, zeroTally) h)).

(** ** Grace timers *)

Definition stop_timer (t : nat) : St unit :=
  modify (set_h_timers (alter (set_t_state (λ s, if bool_decide (s = Armed) then Stopped else s)) t)).
Definition arm_timer (id : bytes) (gen at_ : Z) : St nat :=
  t ← new;
  _ ← modify (set_h_timers (<[t := MkTimer id gen at_ Armed]>));
  mret t.
Definition stop_grace (b : nat) : St unit :=
  h ← get_hub b;
  match b_graceTimer h with
  | Some t => _ ← stop_timer t; upd_hub b (set_b_graceTimer (λ _, None))
  | None => skip
  end.

(** ** Claiming the publisher slot *)

Definition newHubLocked (id : bytes) (now : Z) : St nat :=
  b ← new;
  _ ← modify (set_h_heap (<[b :=
    MkBHub id false [] [] [] None 0 None None None false false [] no_primes 0 now ([], [], []) no_probe
      None 0 None None (MkPump 0 0 false) zero_counters no_counts reset zeroTally]>));
  _ ← modify (set_h_hubs (<[id := b]>));
  mret b.

(** the session-bound state a claim resets; [b_keyframeSeq] is not *)
Definition fresh_session (epoch : bytes) (h : broadcastHub) : broadcastHub :=
  set_b_epoch (λ _, epoch) (set_b_generation (λ n, uint64 (n + 1)) (set_b_stalledSince (λ _, None)
  (set_b_primes (λ _, no_primes) (set_b_probe (λ _, no_probe)
  (set_b_pump (λ p, MkPump (lastViewerCount p) (lastEmitAt p) false)
  (set_b_ingress (λ _, reset) h)))))).
(** a running grace timer is cancelled, [b_graceStart] with it *)
Definition cancel_grace (b : nat) : St unit :=
  h ← get_hub b;
  match b_graceTimer h with
  | Some t => _ ← stop_timer t; upd_hub b (λ h, set_b_graceStart (λ _, None) (set_b_graceTimer (λ _, None) h))
  | None => skip
  end.
Definition claimPublisherLocked (b : nat) (rnd : bytes) (now : Z) : St (result nat) :=
  h ← get_hub b;
  if b_active h then mret (Err ErrPublisherActive) else
  _ ← cancel_grace b;
  _ ← upd_hub b (λ h, set_b_session (λ _, []) (set_b_active (λ _, true) h));
  _ ← setPublisherKindLocked b [];
  _ ← upd_hub b (fresh_session (hex rnd));
  p ← new;
  h ← get_hub b;
  _ ← modify (set_h_pubs (<[p := MkPub b false (b_generation h) false false now 0]>));
  _ ← upd_hub b (set_b_publisher (λ _, Some p));
  mret (Ok p).

(** [Options.IDReserved] *)
Definition idReserved (id : bytes) : bool :=
  match IDReserved opts with Some f => f id | None => false end.
(** at most [n] draws, each of [broadcastid.Mint] from its own random blocks *)
Fixpoint draw_loop (n : nat) (draws : list (list bytes)) (g : Registry) : result bytes :=
  match n with
  | O => Err ErrCollision
  | S n' =>
      match Mint (default [] (head draws)) with
      | None => Err ErrMint
      | Some id =>
          if bool_decide (h_hubs g !! id = None) && negb (idReserved id) then Ok id
          else draw_loop n' (tail draws) g
      end
  end.
Definition drawIDLocked (draws : list (list bytes)) : St (result bytes) := gets (draw_loop 10 draws).
Definition MintUnusedID := drawIDLocked.

Definition at_capacity (g : Registry) : bool :=
  (MaxBroadcasts opts >? 0) && (Z.of_nat (size (h_hubs g)) >=? MaxBroadcasts opts).
Definition CheckPublishNew (g : Registry) : result unit :=
  if at_capacity g then Err ErrMaxBroadcasts else Ok tt.

(** what follows a claim: an error returns, a success sets the role and is
    announced *)
Definition claimed (id : bytes) (b : nat) (r : result nat) (edge announce : bool)
    : St (result (bytes * nat)) :=
  match r with
  | Ok p =>
      _ ← setRoleLocked b edge;
      _ ← (if announce then busStarted id else skip);
      mret (Ok (id, p))
  | Err e => mret (Err e)
  | Fault => mret Fault
  end.

Definition StartPublish (id : bytes) (draws : list (list bytes)) (rnd : bytes) (now : Z)
    : St (result (bytes * nat)) :=
  target ← (if negb (bool_decide (id = [])) then
              mret (match NormalizeID id with Some norm => Ok norm | None => Err ErrNotFound end)
            else
              full ← gets at_capacity;
              if full : bool then mret (Err ErrMaxBroadcasts) else
              drawn ← drawIDLocked draws;
              match drawn with
              | Ok newID => _ ← newHubLocked newID now; mret (Ok newID)
              | other => mret other
              end);
  match target with
  | Ok id =>
      found ← gets (λ g, h_hubs g !! id);
      match found with
      | None => mret (Err ErrNotFound)
      | Some b => r ← claimPublisherLocked b rnd now; claimed id b r false true
      end
  | Err e => mret (Err e)
  | Fault => mret Fault
  end.

Definition ResumePublish (id rnd : bytes) (now : Z) : St (result (bytes * nat)) :=
  match NormalizeID id with
  | None => mret (Err ErrNotFound)
  | Some norm =>
      found ← gets (λ g, h_hubs g !! norm);
      full ← gets at_capacity;
      match found with
      | Some b => r ← claimPublisherLocked b rnd now; claimed norm b r false true
      | None =>
          if full : bool then mret (Err ErrMaxBroadcasts) else
          b ← newHubLocked norm now;
          r ← claimPublisherLocked b rnd now; claimed norm b r false true
      end
  end.

Definition EdgePublish (id rnd : bytes) (now : Z) : St (result (bytes * nat)) :=
  match NormalizeID id with
  | None => mret (Err ErrNotFound)
  | Some norm =>
      found ← gets (λ g, h_hubs g !! norm);
      b ← (match found with Some b => mret b | None => newHubLocked norm now end);
      r ← claimPublisherLocked b rnd now; claimed norm b r true false
  end.

(** the incumbent, marked closed and out of the slot *)
Definition depose (b : nat) : St (option nat) :=
  h ← get_hub b;
  match b_publisher h with
  | Some old =>
      if b_active h then
        _ ← upd_pub old (set_p_closed (λ _, true));
        _ ← upd_hub b (λ h, set_b_publisher (λ _, None) (set_b_active (λ _, false) h));
        mret (Some old)
      else mret None
  | None => mret None
  end.
Definition close_deposed (old : option nat) (code : Z) : St unit :=
  match old with
  | Some p => pt ← get_pub p; if p_conn pt then emit (PublisherClosed p code) else skip
  | None => skip
  end.
Definition TakeOverPublish (id rnd : bytes) (now : Z) : St (result (bytes * nat)) :=
  match NormalizeID id with
  | None => mret (Err ErrNotFound)
  | Some norm =>
      found ← gets (λ g, h_hubs g !! norm);
      match found with
      | None => mret (Err ErrNotFound)
      | Some b =>
          old ← depose b;
          r ← claimPublisherLocked b rnd now;
          match r with
          | Ok p =>
              _ ← setRoleLocked b false;
              _ ← (if bool_decide (is_Some old) then busEnded norm EndedReplaced else skip);
              _ ← busStarted norm;
              _ ← close_deposed old CloseCodePublisherSuperseded;
              mret (Ok (norm, p))
          | Err e => mret (Err e)
          | Fault => mret Fault
          end
      end
  end.

Definition InvalidatePrimes (id : bytes) : St unit :=
  match NormalizeID id with
  | None => skip
  | Some norm =>
      found ← gets (λ g, h_hubs g !! norm);
      match found with
      | None => skip
      | Some b => upd_hub b (set_b_primes (λ _, no_primes))
      end
  end.

(** ** A publisher's own calls *)

Definition NoteSeen (p : nat) (now : Z) : St unit := upd_pub p (set_p_lastSeen (λ _, now)).
Definition BindConn (p : nat) : St bool :=
  pt ← get_pub p;
  if p_closed pt then mret false else _ ← upd_pub p (set_p_conn (λ _, true)); mret true.
Definition BindSend (p : nat) : St unit :=
  pt ← get_pub p;
  if p_closed pt then skip else upd_pub p (set_p_send (λ _, true)).
(** [p.closed || p.hub.publisher != p] *)
Definition holds_slot (p : nat) (pt : Publisher) (h : broadcastHub) : bool :=
  negb (p_closed pt) && bool_decide (b_publisher h = Some p).
Definition SetTelemetrySession (p : nat) (sessionID : bytes) : St unit :=
  if bool_decide (sessionID = []) then skip else
  pt ← get_pub p;
  h ← get_hub (p_hub pt);
  if negb (holds_slot p pt h) then skip else upd_hub (p_hub pt) (set_b_session (λ _, sessionID)).
Definition SetKind (p : nat) (kind : bytes) : St unit :=
  pt ← get_pub p;
  h ← get_hub (p_hub pt);
  if negb (holds_slot p pt h) then skip else setPublisherKindLocked (p_hub pt) kind.
Definition SetClient (p : nat) (info : bytes * bytes * bytes) : St unit :=
  pt ← get_pub p;
  if p_closed pt then skip else upd_hub (p_hub pt) (set_b_client (λ _, info)).

Definition PublisherClose (p : nat) (now : Z) : St unit :=
  pt ← get_pub p;
  if p_closed pt then skip else
  let b := p_hub pt in
  _ ← upd_pub p (λ x, set_p_send (λ _, false) (set_p_closed (λ _, true) x));
  _ ← upd_hub b (λ h, set_b_session (λ _, []) (set_b_active (λ _, false) h));
  _ ← setPublisherKindLocked b [];
  _ ← upd_hub b (λ h, set_b_leftAt (λ _, Some now) (set_b_publisher (λ _, None) h));
  h ← get_hub b;
  _ ← (if BroadcastGrace opts >? 0 then
         _ ← upd_hub b (set_b_graceStart (λ _, Some now));
         t ← arm_timer (b_id h) (b_generation h) (now + BroadcastGrace opts);
         upd_hub b (set_b_graceTimer (λ _, Some t))
       else skip);
  if negb (b_edge h) && HasOnPublisherClosed opts then emit (OnPublisherClosed (b_id h)) else skip.
End Ops.
