(* ===== verification/HubSubs.v ===== *)
(** internal/hub/hub.go, stripe.go: subscribers. Admission, join primes, closing
    (with the stripe legs a primary takes along) and the viewer counts. *)
From S2P Require Export HubOps.
#[local] Open Scope Z_scope.

Definition sub_internal (s : HubSubscriber) : bool := internal (cfg (s_sub s)).
Definition sub_leg (s : HubSubscriber) : bool := stripeLeg (cfg (s_sub s)).
Definition sub_owner (s : HubSubscriber) : bytes := owner (cfg (s_sub s)).

(** ** Counting sessions *)

Definition count_subs (g : Registry) (h : broadcastHub) (f : HubSubscriber → Z) : Z :=
  fold_right (λ s n, f (sub_of g s) + n) 0 (b_subs h).
Definition externalSubsLocked (g : Registry) (h : broadcastHub) : Z :=
  count_subs g h (λ s, if sub_internal s then 0 else 1).
Definition externalHumansLocked (g : Registry) (h : broadcastHub) : Z :=
  count_subs g h (λ s, if negb (sub_internal s) && negb (sub_leg s) then 1 else 0).
(** saturates at MaxUint32; the sum itself does not reach 2^64 *)
Definition globalViewersLocked (g : Registry) (h : broadcastHub) : Z :=
  let n := count_subs g h (λ s, if sub_internal s then s_downstream s else if sub_leg s then 0 else 1) in
  if n >? 2 ^ 32 - 1 then 2 ^ 32 - 1 else n.
Definition totalExternalSubsLocked (g : Registry) : Z :=
  fold_right (λ e n, externalSubsLocked g (hub_of g (snd e)) + n) 0 (map_to_list (h_hubs g)).
Definition edgeGlobalViewersLocked (g : Registry) (h : broadcastHub) : Z :=
  match cachedViewerCount (b_primes h) with
  | Some d => match ViewerCount.ParseViewerCount d with Ok n => n | _ => externalHumansLocked g h end
  | None => externalHumansLocked g h
  end.

Section Subs.
Context (opts : Options) (unicode_upper : bytes → bytes).
(** the MAC of an owner token under the registry's stats key *)
Context (stripeOwnerKey : bytes → bytes).
#[local] Notation NormalizeID := (BroadcastID.Normalize unicode_upper).

Definition on_hub {A} (g : Registry) (id : bytes) (unknown : A) (f : broadcastHub → A) : A :=
  match NormalizeID id with
  | None => unknown
  | Some norm => match h_hubs g !! norm with Some b => f (hub_of g b) | None => unknown end
  end.
Definition ExternalSubscribers (g : Registry) (id : bytes) : Z := on_hub g id 0 (externalSubsLocked g).
Definition ViewerSubscribers (g : Registry) (id : bytes) : Z := on_hub g id 0 (externalHumansLocked g).
Definition DownstreamSessions (g : Registry) (id : bytes) : Z := on_hub g id 0 (λ h, zlen (b_subs h)).
Definition EdgeDemand (g : Registry) (id : bytes) : Z * Z :=
  on_hub g id (0, 0) (λ h, (zlen (b_subs h), globalViewersLocked g h)).
(** Msg, FrameID, PublisherEpoch, Codec *)
Definition ScreeningKeyframe (g : Registry) (id : bytes) : option (bytes * Z * bytes * bytes) :=
  on_hub g id None (λ h,
    if negb (b_active h) then None else
    match cachedKeyframe (b_primes h) with
    | None => None
    | Some msg => Some (msg, cachedKeyframeID (b_primes h), b_epoch h, codec_ (b_probe h))
    end).

(** *** Stalled publishers *)

Definition silentForLocked (g : Registry) (h : broadcastHub) (now : Z) : Z :=
  match b_publisher h with
  | Some p => if b_active h then now - p_lastSeen (pub_of g p) else 0
  | None => 0
  end.
Definition stalledLocked (g : Registry) (h : broadcastHub) (now : Z) : bool :=
  let t := PublisherStallTimeout opts in
  (t >? 0) && negb (b_edge h) && (silentForLocked g h now >? t).
(** live, viewers, known *)
Definition BroadcastState (g : Registry) (id : bytes) (now : Z) : bool * Z * bool :=
  on_hub g id (false, 0, false) (λ h,
    if b_edge h then (b_active h, edgeGlobalViewersLocked g h, true)
    else (b_active h && negb (stalledLocked g h now), globalViewersLocked g h, true)).

(** ** Admission *)

Definition hub_full (g : Registry) (h : broadcastHub) : bool := externalSubsLocked g h >=? MaxSubscribers opts.
Definition relay_full (g : Registry) : bool :=
  (MaxTotalSubscribers opts >? 0) && (totalExternalSubsLocked g >=? MaxTotalSubscribers opts).
Definition CheckSubscribe (g : Registry) (id : bytes) : result unit :=
  match NormalizeID id with
  | None => Err ErrNotFound
  | Some norm =>
      match h_hubs g !! norm with
      | None => Err ErrNotFound
      | Some b =>
          reject hub_full g (hub_of g b) with ErrFull;
          reject relay_full g with ErrTotalSubscribers;
          Ok tt
      end
  end.

Record subscribeOpts := MkSubOpts {
  so_internal : bool;
  so_reliable : bool;
  so_dvr : bool;
  so_bufferMs : Z;
  so_parityK : Z;
  so_parityRequested : Z;
  so_stripeLeg : bool;
  so_stripeN : Z;
  so_stripeMember : Z;
  so_owner : bytes;
  so_leg : bool;
  so_legCarrier : bool;
}.
Definition plain_opts (internal reliable : bool) : subscribeOpts :=
  MkSubOpts internal reliable false 0 0 0 false 0 0 [] false false.

Definition AudioSidebandQueueDepth := 64.
(** who gets an audio lane *)
Definition audio_lane (so : subscribeOpts) : option Z :=
  if (so_reliable so && negb (so_legCarrier so)) ||
     (LiveEdgeAudioOnReliableStream opts && negb (so_internal so) && negb (so_stripeLeg so))
  then Some AudioSidebandQueueDepth else None.

Definition enqueue_to (s : nat) (dgram : bytes) : St unit :=
  upd_sub s (λ x, set_s_sub (λ q, enqueueLocked q dgram) x).
Definition enqueue_prime (s : nat) (d : option bytes) : St unit :=
  match d with Some d => enqueue_to s d | None => skip end.

(** the hub's rings, allocated for its first DVR subscriber and seeded with the
    cached keyframe *)
Definition ensure_rings (h : broadcastHub) (now : Z) : broadcastHub :=
  match b_dvr h with
  | Some _ => h
  | None =>
      let r := NewDVRRing (DVRWindow opts) (DVRMaxBytes opts) in
      let r := match cachedKeyframe (b_primes h) with Some m => AppendKeyframe r m now | None => r end in
      set_b_dvr (λ _, Some r)
        (set_b_dvrAudio (λ a, if DVRAudio opts then Some (NewDVRAudioRing (DVRWindow opts) (DVRMaxBytes opts))
                              else a) h)
  end.

Definition subscribeOptsLocked (id : bytes) (so : subscribeOpts) (now : Z)
    : St (result (nat * option (bytes * Z))) :=
  let ownerKey := if negb (bool_decide (so_owner so = [])) && StripedDelivery opts
                  then stripeOwnerKey (so_owner so) else [] in
  match NormalizeID id with
  | None => mret (Err ErrNotFound)
  | Some norm =>
  found ← gets (λ g, h_hubs g !! norm);
  match found with
  | None => mret (Err ErrNotFound)
  | Some b =>
  h ← get_hub b;
  full ← gets (λ g, hub_full g h);
  total ← gets relay_full;
  if negb (so_internal so) && full then mret (Err ErrFull) else
  if negb (so_internal so) && total then mret (Err ErrTotalSubscribers) else
  _ ← (if so_dvr so then upd_hub b (λ h, ensure_rings h now) else skip);
  h ← get_hub b;
  s ← new;
  let c := MkConfig (so_internal so) (so_reliable so) (so_dvr so)
             (so_dvr so && bool_decide (is_Some (b_dvrAudio h)))
             (so_stripeLeg so) (so_stripeN so) (so_stripeMember so) (so_owner so) (so_parityK so)
             (QueueDepth opts) (audio_lane so) in
  _ ← modify (set_h_subs (<[s :=
        MkHSub b (MkSub c (MkStripe 0 0 0) (MkLanes [] [] 0 0 0 0 0)) false false (so_parityRequested so)
          ownerKey (so_leg so) (so_legCarrier so) [] 0 (if so_stripeLeg so then now else 0) (so_bufferMs so)
          (if so_dvr so then NewCursor <$> b_dvr h else None)
          (if so_dvr so then AudioNewest <$> b_dvrAudio h else None) no_counts]>));
  _ ← upd_hub b (set_b_subs (λ l, l ++ [s]));
  _ ← (if so_stripeLeg so then skip else
         _ ← enqueue_prime s (cachedClockMapping (b_primes h));
         _ ← enqueue_prime s (cachedViewerCount (b_primes h));
         enqueue_prime s (cachedAudioConfig (b_primes h)));
  mret (Ok (s, match cachedKeyframe (b_primes h) with
               | Some msg => if so_dvr so || so_stripeLeg so then None else Some (msg, b_keyframeSeq h)
               | None => None
               end))
  end end.
(** the keyframe prime goes out after the unlock *)
Definition subscribeOpts_ (id : bytes) (so : subscribeOpts) (now : Z) : St (result nat) :=
  r ← subscribeOptsLocked id so now;
  match r with
  | Ok (s, Some (msg, seq)) => _ ← emit (SendKeyframe s msg seq); mret (Ok s)
  | Ok (s, None) => mret (Ok s)
  | Err e => mret (Err e)
  | Fault => mret Fault
  end.

Definition Subscribe (id : bytes) := subscribeOpts_ id (plain_opts false false).
Definition SubscribeInternal (id : bytes) := subscribeOpts_ id (plain_opts true false).
Definition SubscribeReliable (id : bytes) (parityK : Z) :=
  subscribeOpts_ id (MkSubOpts false true false 0 parityK parityK false 0 0 [] false false).
Definition SubscribeDVR (id : bytes) (bufferMs parityK : Z) :=
  subscribeOpts_ id (MkSubOpts false true true bufferMs parityK parityK false 0 0 [] false false).
Definition SubscribeParity (id : bytes) (parityK : Z) (owner : bytes) :=
  subscribeOpts_ id (MkSubOpts false false false 0 parityK parityK false 0 0 owner false false).
Definition SubscribeLeg (id : bytes) (carrier : bool) :=
  subscribeOpts_ id (MkSubOpts true carrier false 0 0 0 false 0 0 [] true carrier).
Definition SubscribeStripeLeg (id : bytes) (l : StripeLeg) (parityK now : Z) : St (result nat) :=
  if (N_ l <? 1) || (N_ l >? MaxStripeLegs) || (Member l <? 0) || (Member l >=? N_ l)
  then mret (Err ErrStripe) else
  if negb (ValidOwnerToken (Owner l)) then mret (Err ErrStripe) else
  subscribeOpts_ id (MkSubOpts false false false 0 parityK parityK true (uint8 (N_ l)) (uint8 (Member l))
                       (Owner l) false false) now.

(** ** Closing a subscriber *)

Definition registered (g : Registry) (b : nat) : bool :=
  bool_decide (h_hubs g !! b_id (hub_of g b) = Some b).

(** the legs of a closing primary; the reap is counted *)
Definition orphaned (g : Registry) (s : nat) : list nat :=
  let x := sub_of g s in
  if sub_leg x || sub_internal x || bool_decide (sub_owner x = []) then []
  else if negb (registered g (s_hub x)) then []
  else List.filter (λ l, sub_leg (sub_of g l) && bool_decide (sub_owner (sub_of g l) = sub_owner x))
         (b_subs (hub_of g (s_hub x))).
Definition orphanedLegsLocked (s : nat) : St (list nat) :=
  legs ← gets (λ g, orphaned g s);
  x ← get_sub s;
  _ ← (if negb (bool_decide (legs = [])) then count (s_hub x) StripeLegsReaped (zlen legs) else skip);
  mret legs.

(** Close up to its unlock; [None]: it was closed already *)
Definition close_begin (s : nat) : St (option (list nat)) :=
  x ← get_sub s;
  if s_closed x then mret None else
  _ ← upd_sub s (set_s_closed (λ _, true));
  _ ← upd_hub (s_hub x) (set_b_subs (List.filter (λ s', negb (Nat.eqb s' s))));
  legs ← orphanedLegsLocked s;
  mret (Some legs).

(** the counters of a subscriber, by name *)
Definition counter_of_sub (x : HubSubscriber) (k : counter) : Z :=
  s_n x k + match k with
  | DatagramsDropped => dropped (lanes (s_sub x))
  | CarrierRecordsDropped => carrierRecordsDropped (lanes (s_sub x))
  | CarrierQueueOverflow => carrierQueueOverflow (lanes (s_sub x))
  | StripeTransitions => stripeTransitions (stripe (s_sub x))
  | _ => 0
  end.
(** what Close folds once the drains are done *)
Definition folded_at_close : list counter :=
  [StripeTransitions; DatagramsDropped; KeyframeStreamsSent; KfSuperseded; KfSlow; KfBandwidth; KfOpenFailed;
   SendErrors; EgressDatagramBytes; EgressParityBytes; EgressKeyframeBytes; CarrierStreams; CarrierRecords;
   CarrierRecordsDropped; CarrierQueueOverflow; EgressCarrierBytes; DVRResyncs].
Definition close_fold (s : nat) : St unit :=
  x ← get_sub s;
  live ← gets (λ g, registered g (s_hub x));
  _ ← forM folded_at_close (λ k,
        if live : bool then count (s_hub x) k (counter_of_sub x k) else total_count k (counter_of_sub x k));
  upd_sub s (set_s_folded (λ _, true)).

(** Close, the legs it reaps closed before its counters are folded. The legs'
    own Close reaps nothing: two levels are enough. *)
Fixpoint SubscriberClose (fuel : nat) (s : nat) : St unit :=
  match fuel with
  | O => skip
  | S fuel' =>
      begun ← close_begin s;
      match begun with
      | None => skip
      | Some legs =>
          _ ← forM legs (λ l, _ ← emit (SubscriberClosed l CloseCodeStripeLegOrphaned); SubscriberClose fuel' l);
          close_fold s
      end
  end.
Definition Close_ (s : nat) : St unit := SubscriberClose 2 s.

(** a session the relay ends *)
Definition end_session (code : Z) (s : nat) : St unit := _ ← emit (SubscriberClosed s code); Close_ s.
Definition closeUnresponsive (s : nat) : St unit := end_session CloseCodeSubscriberUnresponsive s.
Definition CloseInternalSubscribers (id : bytes) (code : Z) : St unit :=
  match NormalizeID id with
  | None => skip
  | Some norm =>
      found ← gets (λ g, h_hubs g !! norm);
      match found with
      | None => skip
      | Some b =>
          l ← gets (λ g, List.filter (λ s, sub_internal (sub_of g s)) (b_subs (hub_of g b)));
          forM l (end_session code)
      end
  end.

(** *** Stripe-leg leases *)

Definition NoteLegAlive (s : nat) (now : Z) : St unit :=
  x ← get_sub s;
  if negb (sub_leg x) then skip else upd_sub s (set_s_lastInbound (λ _, now)).
Definition countStripeLegsReaped (b : nat) (n : Z) : St unit :=
  live ← gets (λ g, registered g b);
  if live : bool then count b StripeLegsReaped n else total_count StripeLegsReaped n.
(** one firing of the lease timer: [None] ends the watch, [Some d] re-arms it *)
Definition legLeaseWatch (s : nat) (lease now : Z) : St (option Z) :=
  x ← get_sub s;
  let remaining := lease - (now - s_lastInbound x) in
  if remaining >? 0 then mret (Some remaining) else
  if s_closed x then mret None else
  _ ← countStripeLegsReaped (s_hub x) 1;
  _ ← end_session CloseCodeStripeLegOrphaned s;
  mret None.

(** ** Small calls *)

Definition RecordDownstreamViewers (s : nat) (n : Z) : St unit := upd_sub s (set_s_downstream (λ _, n)).
Definition SetSubscriberSession (s : nat) (sessionID : bytes) : St unit :=
  if bool_decide (sessionID = []) then skip else upd_sub s (set_s_sessionID (λ _, sessionID)).
Definition SetStripeState (s : nat) (st : StripeState.StripeState) (now : Z) : St unit :=
  upd_sub s (set_s_sub (λ q, ApplyStripeState q st now)).
(** a bandwidth-limited datagram, or only its bytes for a keyframe *)
Definition countBandwidthDrop (b : nat) (n : Z) : St unit :=
  live ← gets (λ g, registered g b);
  if live : bool then _ ← count b BandwidthDroppedDatagrams 1; count b BandwidthDroppedBytes n
  else _ ← total_count BandwidthDroppedDatagrams 1; total_count BandwidthDroppedBytes n.
Definition countBandwidthDropBytes (b : nat) (n : Z) : St unit :=
  live ← gets (λ g, registered g b);
  if live : bool then count b BandwidthDroppedBytes n else total_count BandwidthDroppedBytes n.
End Subs.
