(* ===== verification/HubEnd.v ===== *)
(** internal/hub/hub.go: the end of a broadcast. Every way a hub is removed, the
    publishers that stall, the viewer-count pump, and the totals of Stats. *)
From S2P Require Export HubSubs.
#[local] Open Scope Z_scope.

(** ** Counters across a removal *)

(** the counters of a hub, by name *)
Definition counter_of_hub (h : broadcastHub) (k : counter) : Z :=
  b_n h k + match k with
  | DatagramsRelayed => datagramsRelayed (b_fan h)
  | StripeSuppressedDatagrams => stripeSuppressedDatagrams (b_fan h)
  | ParityDatagramsForwarded => parityDatagramsForwarded (b_fan h)
  | ParitySuppressed => paritySuppressed (b_fan h)
  | _ => 0
  end.
(** what a removal folds into the totals *)
Definition folded_at_removal : list counter :=
  [FramesRelayed; DatagramsRelayed; DatagramsDropped; BadDatagrams; BandwidthDroppedDatagrams;
   BandwidthDroppedBytes; KeyframeStreamsIn; KeyframeBytesIn; KeyframeStreamsOversize; KeyframeStreamsSent;
   KfSuperseded; KfSlow; KfBandwidth; KfOpenFailed; SendErrors; IngressDatagramBytes; EgressDatagramBytes;
   EgressKeyframeBytes; CarrierStreams; CarrierRecords; CarrierRecordsDropped; CarrierQueueOverflow;
   DVRResyncs; EgressCarrierBytes; ParityDatagramsForwarded; ParitySuppressed; EgressParityBytes;
   StripeSuppressedDatagrams; StripeTransitions; StripeLegsReaped; UplinkCarriers; UplinkRecords;
   UplinkRecordsStale; UplinkCarriersRejected].

(** [Stats]: one of the totals, as a scrape sees it: what was folded, and the
    registered hubs with their open subscribers *)
Definition hub_total (g : Registry) (h : broadcastHub) (k : counter) : Z :=
  counter_of_hub h k + count_subs g h (λ s, counter_of_sub s k).
Definition Stats_total (g : Registry) (k : counter) : Z :=
  h_total g k + fold_right (λ e n, hub_total g (hub_of g (snd e)) k + n) 0 (map_to_list (h_hubs g)).

Section End_.
Context (opts : Options) (unicode_upper : bytes → bytes).
#[local] Notation NormalizeID := (BroadcastID.Normalize unicode_upper).
#[local] Notation busEnded := (busEnded opts).
#[local] Notation busViewers := (busViewers opts).

(** ** Removal *)

(** what the removal does after the unlock needs *)
Record removal := MkRemoval {
  r_deposed : option nat;
  r_subs : list nat;
  r_edge : bool;
  r_end : option (Z * Z);
}.

(** the broadcast's active life and peak, of an origin that had a publisher *)
Definition broadcast_end (g : Registry) (h : broadcastHub) (now : Z) : option (Z * Z) :=
  if negb (b_edge h) && (b_active h || bool_decide (is_Some (b_leftAt h))) then
    let endAt := if b_active h then now else default 0 (b_leftAt h) in
    Some (Z.max (endAt - b_startedAt h) 0, Z.max (b_peak h) (globalViewersLocked g h))
  else None.

(** Up to the unlock. [ok]: the caller's condition, seen under the mutex;
    [None]: nothing to remove. *)
Definition remove_locked (id : bytes) (ok : nat → broadcastHub → bool) (force : bool) (now : Z)
    : St (option removal) :=
  found ← gets (λ g, h_hubs g !! id);
  match found with
  | None => mret None
  | Some b =>
  h ← get_hub b;
  if (negb force && b_active h) || negb (ok b h) then mret None else
  _ ← modify (set_h_hubs (delete id));
  ending ← gets (λ g, broadcast_end g h now);
  deposed ← (match b_publisher h with
             | Some old => if b_active h then _ ← upd_pub old (set_p_closed (λ _, true)); mret (Some old)
                           else mret None
             | None => mret None
             end);
  _ ← upd_hub b (λ h, set_b_session (λ _, []) (set_b_active (λ _, false) h));
  _ ← setPublisherKindLocked b [];
  _ ← upd_hub b (set_b_publisher (λ _, None));
  h ← get_hub b;
  _ ← forM folded_at_removal (λ k, total_count k (counter_of_hub h k));
  _ ← foldIngressLocked b;
  _ ← stop_grace b;
  _ ← upd_hub b (λ h, set_b_graceStart (λ _, None) (set_b_primes (λ _, no_primes)
                       (set_b_dvr (λ _, None) (set_b_dvrAudio (λ _, None) h))));
  h ← get_hub b;
  mret (Some (MkRemoval deposed (b_subs h) (b_edge h) ending))
  end.

Definition bus_reason (code : Z) : ended_reason :=
  if code =? CloseCodeTerminatedByOperator then EndedKilled
  else if code =? CloseCodeBroadcasterStopped then EndedStopped else EndedGC.
(** After the unlock: the publisher's session first, then every subscriber's,
    then the hooks and the bus, for an origin. *)
Definition remove_tail (id : bytes) (code : Z) (r : removal) : St unit :=
  _ ← close_deposed (r_deposed r) code;
  _ ← forM (r_subs r) (end_session code);
  _ ← (if negb (r_edge r) && HasOnBroadcastExpired opts then emit (OnBroadcastExpired id) else skip);
  _ ← (match r_end r with
       | Some (d, peak) => if HasOnOriginEnded opts then emit (OnOriginEnded d peak) else skip
       | None => skip
       end);
  if negb (r_edge r) then busEnded id (bus_reason code) else skip.
Definition removeBroadcast (id : bytes) (ok : nat → broadcastHub → bool) (force : bool) (code now : Z)
    : St bool :=
  r ← remove_locked id ok force now;
  match r with
  | None => mret false
  | Some r => _ ← remove_tail id code r; mret true
  end.

Definition expireBroadcast (id : bytes) (ok : nat → broadcastHub → bool) (now : Z) : St bool :=
  removeBroadcast id ok false CloseCodeBroadcastEnded now.
Definition handleGraceExpiry (id : bytes) (gen now : Z) : St bool :=
  expireBroadcast id (λ _ h, b_generation h =? gen) now.
Definition EndBroadcast (id : bytes) (now : Z) : St bool :=
  match NormalizeID id with
  | None => mret false
  | Some norm => expireBroadcast norm (λ _ _, true) now
  end.
Definition EndBroadcastWithCode (id : bytes) (code now : Z) : St bool :=
  match NormalizeID id with
  | None => mret false
  | Some norm => removeBroadcast norm (λ _ _, true) false code now
  end.
Definition TerminateBroadcast (id : bytes) (code now : Z) : St bool :=
  match NormalizeID id with
  | None => mret false
  | Some norm => removeBroadcast norm (λ _ _, true) true code now
  end.
Definition ExpireEdgeIfViewerless (id : bytes) (now : Z) : St bool :=
  match NormalizeID id with
  | None => mret true
  | Some norm =>
      gone ← expireBroadcast norm (λ _ h, b_edge h && bool_decide (b_subs h = [])) now;
      if gone : bool then mret true
      else gets (λ g, bool_decide (h_hubs g !! norm = None))
  end.
(** [p.Close] and the removal, which looks again whether the hub is still this session's *)
Definition PublisherStop (p : nat) (now : Z) : St bool :=
  _ ← PublisherClose opts p now;
  pt ← get_pub p;
  h ← get_hub (p_hub pt);
  removeBroadcast (b_id h) (λ b cur, Nat.eqb b (p_hub pt) && (b_generation cur =? p_generation pt))
    false CloseCodeBroadcasterStopped now.

(** A grace timer: it fires, and its callback gets the mutex later. *)
Definition timer_fires (t : nat) : St unit :=
  modify (set_h_timers (alter (set_t_state (λ s, if bool_decide (s = Armed) then Fired else s)) t)).
Definition timer_callback (t : nat) (now : Z) : St unit :=
  found ← gets (λ g, h_timers g !! t);
  match found with
  | Some tm =>
      if bool_decide (t_state tm = Fired) then
        _ ← modify (set_h_timers (alter (set_t_state (λ _, Ran)) t));
        _ ← handleGraceExpiry (t_id tm) (t_gen tm) now; skip
      else skip
  | None => skip
  end.

(** ** The stall sweep *)

(** one hub: its transition to report, and whether it is to be ended *)
Definition sweep_hub (now : Z) (e : bytes * nat) : St (option (bytes * bool) * bool) :=
  let '(id, b) := e in
  h ← get_hub b;
  stalled ← gets (λ g, stalledLocked opts g h now);
  silent ← gets (λ g, silentForLocked g h now);
  let changed := negb (eqb stalled (b_stalledReported h)) && negb (b_edge h) in
  _ ← (if changed then upd_hub b (set_b_stalledReported (λ _, stalled)) else skip);
  _ ← upd_hub b (set_b_stalledSince (λ since,
        if stalled then match since with Some t => Some t | None => Some now end else None));
  mret (if changed then Some (id, stalled) else None,
        stalled && PublisherStallEnds opts && (BroadcastGrace opts >? 0) && (silent >=? BroadcastGrace opts)).
Fixpoint sweep_loop (now : Z) (l : list (bytes * nat)) : St (list (bytes * bool) * list bytes) :=
  match l with
  | [] => mret ([], [])
  | e :: l' =>
      r ← sweep_hub now e;
      rest ← sweep_loop now l';
      mret (match fst r with Some t => t :: fst rest | None => fst rest end,
            if snd r : bool then fst e :: snd rest else snd rest)
  end.
Definition SweepStalledPublishers (now : Z) : St unit :=
  l ← gets (λ g, map_to_list (h_hubs g));
  r ← sweep_loop now l;
  _ ← (if HasOnPublisherStalled opts then forM (fst r) (λ t, emit (OnPublisherStalled (fst t) (snd t))) else skip);
  _ ← forM (fst r) (λ t, busStalled opts (fst t) (snd t));
  forM (snd r) (λ id, _ ← TerminateBroadcast id CloseCodeBroadcastEnded now; skip).

(** ** Fan-out and the viewer-count pump *)

(** [fanOutLocked] on the subscribers, rings and counters of a hub *)
Definition hub_fan (b : nat) (dgram : bytes) (now : Z) : St unit :=
  h ← get_hub b;
  ss ← gets (λ g, map (λ s, s_sub (sub_of g s)) (b_subs h));
  let r := fanOutLocked (MkHub ss (b_fan h) (b_dvr h) (b_dvrAudio h)) dgram now in
  _ ← forM (zip (b_subs h) (subs r)) (λ e, upd_sub (fst e) (set_s_sub (λ _, snd e)));
  upd_hub b (λ h, set_b_fan (λ _, counters r) (set_b_dvr (λ _, dvr r) (set_b_dvrAudio (λ _, dvrAudio r) h))).
Definition cacheAndFanViewerCountLocked (b : nat) (dgram : bytes) (now : Z) : St unit :=
  _ ← upd_hub b (set_b_primes (with_count dgram));
  hub_fan b dgram now.

Definition ViewerCountKeepalive := 5 * 10 ^ 9.
Definition pump_hub (now : Z) (e : bytes * nat) : St (option (nat * bytes)) :=
  let '(id, b) := e in
  h ← get_hub b;
  local ← gets (λ g, externalHumansLocked g h);
  if b_edge h then _ ← busViewers (b_id h) local 0 true; mret None else
  n ← gets (λ g, globalViewersLocked g h);
  _ ← upd_hub b (set_b_peak (λ p, Z.max p n));
  _ ← busViewers (b_id h) local n false;
  if everEmitted (b_pump h) && (n =? lastViewerCount (b_pump h)) &&
     (now - lastEmitAt (b_pump h) <? ViewerCountKeepalive)
  then mret None else
  _ ← upd_hub b (set_b_pump (λ _, MkPump n now true));
  let dgram := ViewerCount.AppendViewerCount [] n in
  _ ← cacheAndFanViewerCountLocked b dgram now;
  match b_publisher h with
  | Some p => pt ← get_pub p; mret (if p_send pt then Some (p, dgram) else None)
  | None => mret None
  end.
Fixpoint pump_loop (now : Z) (l : list (bytes * nat)) : St (list (nat * bytes)) :=
  match l with
  | [] => mret []
  | e :: l' =>
      push ← pump_hub now e;
      rest ← pump_loop now l';
      mret (match push with Some x => x :: rest | None => rest end)
  end.
Definition PumpViewerCounts (now : Z) : St unit :=
  l ← gets (λ g, map_to_list (h_hubs g));
  pushes ← pump_loop now l;
  forM pushes (λ x, emit (PushDatagram (fst x) (snd x))).
End End_.
