(* ===== verification/HubMedia.v ===== *)
(** internal/hub/hub.go, uplink.go: what a publisher session sends. Delta
    datagrams, keyframe streams and uplink carriers, into the caches, the
    counters and the fan-out of its hub. *)
From S2P Require Export HubEnd.
#[local] Open Scope Z_scope.

Definition UplinkSenderCarriers := 2.
Definition uplinkResetSlack := 1.
Definition MaxUplinkCarriers := UplinkSenderCarriers + uplinkResetSlack.

Inductive ingest_error := ErrRead | ErrBadStream | ErrOversize | ErrTrailing | ErrUplinkCarrierLimit | ErrBadUplinkRecord.

(** ** Probing the media *)

Record configProbe := MkConfigProbe { c_codec : bytes; c_avcc : bool; c_height : Z }.

Section Media.
Context (opts : Options).
(** mediaprobe.go: the codec family of a codec string, the coded height in a
    config's extradata, and in a keyframe *)
Context (CodecFamily : bytes → bytes) (ExtradataHeight : bytes → bytes → Z) (KeyframeHeight : bytes → Z).

Definition CodecH264 : bytes := str "h264"%string.
Definition probeConfig (dgram : bytes) : configProbe :=
  match DecoderConfig.ParseDecoderConfig dgram with
  | Ok dc =>
      let family := CodecFamily (DecoderConfig.Codec dc) in
      MkConfigProbe family
        (bool_decide (family = CodecH264) && (zlen (DecoderConfig.Extradata dc) >? 0))
        (ExtradataHeight family (DecoderConfig.Extradata dc))
  | _ => MkConfigProbe [] false 0
  end.
Definition applyConfigProbe (c : configProbe) (x : Probe) : Probe :=
  if bool_decide (c_codec c = []) then x
  else MkProbe (c_codec c) (c_avcc c) (if c_height c >? 0 then c_height c else codedHeight x).
Definition noteConfig (p : nat) (dgram : bytes) : St unit :=
  let c := probeConfig dgram in
  pt ← get_pub p;
  if p_closed pt then skip else upd_hub (p_hub pt) (set_b_probe (applyConfigProbe c)).

(** ** Datagrams *)

Definition countBad (b : nat) : St unit := count b BadDatagrams 1.
Definition countKeyframeOversize (b : nat) : St unit := count b KeyframeStreamsOversize 1.

Definition relayDatagram (p : nat) (dgram : bytes) (now : Z) : St unit :=
  pt ← get_pub p;
  if p_closed pt then skip else
  _ ← count (p_hub pt) IngressDatagramBytes (zlen dgram);
  hub_fan (p_hub pt) dgram now.
Definition relayViewerCount (p : nat) (dgram : bytes) (now : Z) : St unit :=
  pt ← get_pub p;
  h ← get_hub (p_hub pt);
  if p_closed pt || negb (b_edge h) then skip else
  _ ← count (p_hub pt) IngressDatagramBytes (zlen dgram);
  cacheAndFanViewerCountLocked (p_hub pt) dgram now.
Definition relayClockMapping (p : nat) (dgram : bytes) (now : Z) : St unit :=
  pt ← get_pub p;
  if p_closed pt then skip else
  _ ← upd_hub (p_hub pt) (set_b_primes (with_clock dgram));
  _ ← count (p_hub pt) IngressDatagramBytes (zlen dgram);
  hub_fan (p_hub pt) dgram now.
Definition relayAudioConfig (p : nat) (dgram : bytes) (now : Z) : St unit :=
  pt ← get_pub p;
  if p_closed pt then skip else
  _ ← upd_hub (p_hub pt) (set_b_primes (with_audio dgram));
  _ ← count (p_hub pt) IngressDatagramBytes (zlen dgram);
  hub_fan (p_hub pt) dgram now.

(** the ingress window's answer, [w] unchanged where the model of its loop
    would run out of fuel (Ingress.v: it does not) *)
Definition observed (h : broadcastHub) (id chunk cnt : Z) : broadcastHub :=
  match observeChunk (b_ingress h) id chunk cnt with
  | Some (w, t) => set_b_ingress (λ _, w) (set_b_ingressLoss (λ x, add_tally x t) h)
  | None => h
  end.
Definition relayVideoChunk (p : nat) (hdr : VideoChunk.VideoChunkHeader) (dgram : bytes) (now : Z) : St unit :=
  pt ← get_pub p;
  let b := p_hub pt in
  if p_closed pt then skip else
  _ ← (if VideoChunk.ChunkIndex hdr =? 0 then count b FramesRelayed 1 else skip);
  _ ← count b IngressDatagramBytes (zlen dgram);
  _ ← upd_hub b (λ h, observed h (VideoChunk.FrameID hdr) (VideoChunk.ChunkIndex hdr) (VideoChunk.ChunkCount hdr));
  hub_fan b dgram now.

Definition HandleDatagram (p : nat) (dgram : bytes) (now : Z) : St unit :=
  _ ← NoteSeen p now;
  pt ← get_pub p;
  let bad := countBad (p_hub pt) in
  if zlen dgram >? MaxDatagramSize then bad else
  match PeekType dgram with
  | Ok (ver, typ) =>
      if ver <>? Version then bad
      else if typ =? TypeVideoChunk then
        match VideoChunk.ParseVideoChunk dgram with
        | Ok (hdr, _) => relayVideoChunk p hdr dgram now
        | _ => bad
        end
      else if typ =? TypeDecoderConfig then
        match DecoderConfig.ParseDecoderConfig dgram with
        | Ok _ => _ ← noteConfig p dgram; relayDatagram p dgram now
        | _ => bad
        end
      else if typ =? TypeParityChunk then
        match ParityChunk.ParseParityChunk dgram with Ok _ => relayDatagram p dgram now | _ => bad end
      else if typ =? TypeClockMapping then
        match ClockMapping.ParseClockMapping dgram with Ok _ => relayClockMapping p dgram now | _ => bad end
      else if typ =? TypeViewerCount then
        match ViewerCount.ParseViewerCount dgram with Ok _ => relayViewerCount p dgram now | _ => bad end
      else if typ =? TypeAudioFrame then
        match AudioFrame.ParseAudioFrame dgram with Ok _ => relayDatagram p dgram now | _ => bad end
      else if typ =? TypeAudioConfig then
        match AudioConfig.ParseAudioConfig dgram with Ok _ => relayAudioConfig p dgram now | _ => bad end
      else bad
  | _ => bad
  end.

(** ** Keyframes *)

(** the embedded config ([None]: none) and the payload *)
Definition splitKeyframe (msg : bytes) (hdr : StreamFrame.StreamFrameHeader) : option bytes * bytes :=
  let off := StreamFrameHeaderSize in
  let last := off + StreamFrame.ConfigLen hdr in
  if last >? zlen msg then (None, [])
  else (if StreamFrame.ConfigLen hdr >? 0
        then Some (take (Z.to_nat (StreamFrame.ConfigLen hdr)) (drop (Z.to_nat off) msg)) else None,
        drop (Z.to_nat last) msg).
Definition kf_probe (cfg : option bytes) (payload : bytes) (x : Probe) : Probe :=
  let x := match cfg with Some c => applyConfigProbe (probeConfig c) x | None => x end in
  let h := KeyframeHeight payload in
  if (h >? 0) && negb (avccConfig x) then MkProbe (codec_ x) (avccConfig x) h else x.
Definition onKeyframeLocked (p : nat) (msg : bytes) (hdr : StreamFrame.StreamFrameHeader) (now : Z)
    : St (list nat * Z) :=
  let '(conf, payload) := splitKeyframe msg hdr in
  pt ← get_pub p;
  let b := p_hub pt in
  if p_closed pt then mret ([], 0) else
  _ ← upd_hub b (λ h, set_b_probe (kf_probe conf payload)
                 (set_b_primes (with_keyframe msg (StreamFrame.FrameID hdr) (StreamFrame.ConfigLen hdr >? 0))
                 (set_b_dvr (fmap (λ r, AppendKeyframe r msg now))
                 (set_b_keyframeSeq (λ n, n + 1) h))));
  _ ← count b KeyframeStreamsIn 1;
  _ ← count b KeyframeBytesIn (zlen msg);
  _ ← count b FramesRelayed 1;
  _ ← upd_hub b (λ h, observed h (StreamFrame.FrameID hdr) 0 1);
  h ← get_hub b;
  l ← gets (λ g, List.filter (λ s, negb (hasDvr (cfg (s_sub (sub_of g s)))) && negb (sub_leg (sub_of g s))) (b_subs h));
  mret (l, b_keyframeSeq h).
(** the streams are written after the unlock *)
Definition onKeyframe (p : nat) (msg : bytes) (hdr : StreamFrame.StreamFrameHeader) (now : Z) : St unit :=
  r ← onKeyframeLocked p msg hdr now;
  forM (fst r) (λ s, emit (SendKeyframe s msg (snd r))).

(** [stream]: the bytes the reader yields before its end or error *)
Definition IngestKeyframeStream (p : nat) (stream : bytes) (now : Z) : St (outcome ingest_error unit) :=
  _ ← NoteSeen p now;
  pt ← get_pub p;
  let b := p_hub pt in
  if zlen stream <? StreamFrameHeaderSize then _ ← countBad b; mret (Err ErrRead) else
  let header := take (Z.to_nat StreamFrameHeaderSize) stream in
  match StreamFrame.ParseStreamFrameHeader header with
  | Ok hdr =>
      let total := StreamFrameHeaderSize + StreamFrame.ConfigLen hdr + StreamFrame.PayloadLen hdr in
      if total >? opt_MaxKeyframeBytes opts then _ ← countKeyframeOversize b; mret (Err ErrOversize) else
      if zlen stream <? total then _ ← countBad b; mret (Err ErrRead) else
      if zlen stream >? total then _ ← countBad b; mret (Err ErrTrailing) else
      _ ← onKeyframe p stream hdr now;
      mret (Ok tt)
  | _ => _ ← countBad b; mret (Err ErrBadStream)
  end.

(** ** Uplink carriers (uplink.go) *)

Definition acquireUplinkCarrier (p : nat) : St bool :=
  pt ← get_pub p;
  if p_carriers pt >=? MaxUplinkCarriers then _ ← count (p_hub pt) UplinkCarriersRejected 1; mret false
  else
    _ ← upd_pub p (set_p_carriers (λ n, n + 1));
    _ ← count (p_hub pt) UplinkCarriers 1;
    mret true.
Definition releaseUplinkCarrier (p : nat) : St unit := upd_pub p (set_p_carriers (λ n, n - 1)).
Definition admitUplinkRecord (p : nat) (frameID : Z) : St bool :=
  pt ← get_pub p;
  let b := p_hub pt in
  if p_closed pt then mret false else
  h ← get_hub b;
  if bool_decide (is_Some (cachedKeyframe (b_primes h))) &&
     (int32 (uint32 (frameID - cachedKeyframeID (b_primes h))) <? 0)
  then _ ← count b UplinkRecordsStale 1; mret false
  else _ ← count b UplinkRecords 1; mret true.
Definition uplinkRecordFrameID (rec : bytes) : option Z :=
  match PeekType rec with
  | Ok (ver, typ) =>
      if ver <>? Version then None
      else if typ =? TypeVideoChunk then
        match VideoChunk.ParseVideoChunk rec with Ok (h, _) => Some (VideoChunk.FrameID h) | _ => None end
      else if typ =? TypeParityChunk then
        match ParityChunk.ParseParityChunk rec with Ok (h, _) => Some (ParityChunk.FrameID h) | _ => None end
      else None
  | _ => None
  end.

(** The records of a carrier, after its prologue; [fin]: the stream ends with
    a FIN, not an error. Each turn takes two bytes or
    more off [stream], so its length is fuel enough. *)
Fixpoint carrier_loop (fuel : nat) (p : nat) (stream : bytes) (fin : bool) (now : Z) : St (outcome ingest_error unit) :=
  match fuel with
  | O => mret Fault
  | S fuel' =>
      pt ← get_pub p;
      let b := p_hub pt in
      match stream with
      | [] => mret (if fin then Ok tt else Err ErrRead)
      | hi :: lo :: rest =>
          let n := be_decode [hi; lo] in
          if (n =? 0) || (n >? MaxDatagramSize) then _ ← countBad b; mret (Err ErrBadUplinkRecord) else
          if zlen rest <? n then mret (Err ErrRead) else
          let rec := take (Z.to_nat n) rest in
          match uplinkRecordFrameID rec with
          | None => _ ← countBad b; mret (Err ErrBadUplinkRecord)
          | Some frameID =>
              ok ← admitUplinkRecord p frameID;
              _ ← (if ok : bool then HandleDatagram p rec now else skip);
              carrier_loop fuel' p (drop (Z.to_nat n) rest) fin now
          end
      | _ => mret (Err ErrRead)
      end
  end.
Definition IngestUplinkCarrier (p : nat) (stream : bytes) (fin : bool) (now : Z) : St (outcome ingest_error unit) :=
  got ← acquireUplinkCarrier p;
  if negb got then mret (Err ErrUplinkCarrierLimit) else
  _ ← NoteSeen p now;
  pt ← get_pub p;
  r ← (if zlen stream <? CarrierPrologueSize then mret (Err ErrRead) else
       match Carrier.ParseCarrierPrologue (take (Z.to_nat CarrierPrologueSize) stream) with
       | Ok _ =>
           let records := drop (Z.to_nat CarrierPrologueSize) stream in
           carrier_loop (S (length records)) p records fin now
       | _ => _ ← countBad (p_hub pt); mret (Err ErrBadStream)
       end);
  _ ← releaseUplinkCarrier p;
  mret r.
End Media.
