(* ===== verification/HubCore.v ===== *)
(** internal/hub: the core of the registry's state, for its invariant.

    The core is who holds which publisher slot, which grace timers run, who is
    subscribed where and what keyframe is cached. Counters, ingress windows,
    queues, rings and labels are outside it: the operations on those are stepped
    over ([keeps]). *)
From S2P Require Export HubMedia.
#[local] Open Scope Z_scope.

(** ** The core of a state *)

Record hub_core := MkHC {
  hc_id : bytes;
  hc_active : bool;
  hc_pub : option nat;
  hc_gen : Z;
  hc_timer : option nat;
  hc_subs : list nat;
  hc_kf : option bytes;
}.
Definition hub_core_of (h : broadcastHub) : hub_core :=
  MkHC (b_id h) (b_active h) (b_publisher h) (b_generation h) (b_graceTimer h) (b_subs h)
    (cachedKeyframe (b_primes h)).
(** hub, closed, generation *)
Definition pub_core (p : Publisher) : nat * bool * Z := (p_hub p, p_closed p, p_generation p).
(** hub, closed, internal *)
Definition sub_core (s : HubSubscriber) : nat * bool * bool := (s_hub s, s_closed s, sub_internal s).

Record core := MkCore {
  k_hubs : gmap bytes nat;
  k_heap : gmap nat hub_core;
  k_pubs : gmap nat (nat * bool * Z);
  k_subs : gmap nat (nat * bool * bool);
  k_timers : gmap nat graceTimer;
  k_next : nat;
}.
Definition core_of (g : Registry) : core :=
  MkCore (h_hubs g) (hub_core_of <$> h_heap g) (pub_core <$> h_pubs g) (sub_core <$> h_subs g)
    (h_timers g) (h_next g).

(** *** Updates of the core *)
Definition k_set_hubs (f : gmap bytes nat → gmap bytes nat) (k : core) : core :=
  MkCore (f (k_hubs k)) (k_heap k) (k_pubs k) (k_subs k) (k_timers k) (k_next k).
Definition k_set_hub (b : nat) (h : hub_core) (k : core) : core :=
  MkCore (k_hubs k) (<[b := h]> (k_heap k)) (k_pubs k) (k_subs k) (k_timers k) (k_next k).
Definition k_set_pub (p : nat) (x : nat * bool * Z) (k : core) : core :=
  MkCore (k_hubs k) (k_heap k) (<[p := x]> (k_pubs k)) (k_subs k) (k_timers k) (k_next k).
Definition k_set_sub (s : nat) (x : nat * bool * bool) (k : core) : core :=
  MkCore (k_hubs k) (k_heap k) (k_pubs k) (<[s := x]> (k_subs k)) (k_timers k) (k_next k).
Definition k_set_timers (f : gmap nat graceTimer → gmap nat graceTimer) (k : core) : core :=
  MkCore (k_hubs k) (k_heap k) (k_pubs k) (k_subs k) (f (k_timers k)) (k_next k).
Definition k_alloc (k : core) : core :=
  MkCore (k_hubs k) (k_heap k) (k_pubs k) (k_subs k) (k_timers k) (S (k_next k)).

Abbreviation keeps := (StateM.keeps core_of).
Abbreviation runs := (StateM.runs core_of).

(** ** Operations that keep the core *)

Lemma hkeeps_emit e : keeps (emit e).
Proof. done. Qed.
Lemma keeps_upd_hub b f : (∀ h, hub_core_of (f h) = hub_core_of h) → keeps (upd_hub b f).
Proof. intros Hf g. unfold core_of; cbn. by rewrite fmap_alter_same. Qed.
Lemma keeps_upd_pub p f : (∀ x, pub_core (f x) = pub_core x) → keeps (upd_pub p f).
Proof. intros Hf g. unfold core_of; cbn. by rewrite fmap_alter_same. Qed.
Lemma keeps_upd_sub s f : (∀ x, sub_core (f x) = sub_core x) → keeps (upd_sub s f).
Proof. intros Hf g. unfold core_of; cbn. by rewrite fmap_alter_same. Qed.
Lemma keeps_total k n : keeps (total_count k n).
Proof. done. Qed.
Lemma keeps_count b k n : keeps (count b k n).
Proof. by apply keeps_upd_hub. Qed.
Lemma keeps_set_ingress f : keeps (modify (set_h_ingress f)).
Proof. done. Qed.
Lemma keeps_set_edge f : keeps (modify (set_h_edgeIngress f)).
Proof. done. Qed.
Lemma keeps_set_pop f : keeps (modify (set_h_popIngress f)).
Proof. done. Qed.
Lemma keeps_get_hub b : keeps (get_hub b).
Proof. done. Qed.
Lemma keeps_get_sub s : keeps (get_sub s).
Proof. done. Qed.
Lemma keeps_get_pub p : keeps (get_pub p).
Proof. done. Qed.
Lemma keeps_skip : keeps skip.
Proof. done. Qed.

Create HintDb hubkeeps discriminated.
#[export] Hint Resolve keeps_ret keeps_gets hkeeps_emit keeps_total keeps_count keeps_set_ingress
  keeps_set_edge keeps_set_pop keeps_get_hub keeps_get_sub keeps_get_pub keeps_skip : hubkeeps.
#[export] Hint Extern 1 (StateM.keeps _ (upd_hub _ _)) => apply keeps_upd_hub; reflexivity : hubkeeps.
#[export] Hint Extern 1 (StateM.keeps _ (upd_pub _ _)) => apply keeps_upd_pub; reflexivity : hubkeeps.
#[export] Hint Extern 1 (StateM.keeps _ (upd_sub _ _)) => apply keeps_upd_sub; reflexivity : hubkeeps.

Ltac hubkeeps_step :=
  match goal with
  | |- StateM.keeps _ (mbind _ _) => apply keeps_bind; [|intros ?]
  | |- StateM.keeps _ (forM _ _) => apply keeps_forM; intros ?
  | |- StateM.keeps _ (let '_ := ?x in _) => destruct x
  | |- StateM.keeps _ (match ?x with _ => _ end) => destruct x
  | |- StateM.keeps _ (if ?b then _ else _) => destruct b
  | |- StateM.keeps _ _ => solve [auto 2 with hubkeeps nocore]
  end.
Ltac hubkeeps_tac := repeat (cbv beta zeta; hubkeeps_step).

Section Keeps.
Context (opts : Options).

Lemma keeps_event id d : keeps (emitEvent opts id d).
Proof. unfold emitEvent. hubkeeps_tac. Qed.
Hint Resolve keeps_event : hubkeeps.
Lemma keeps_started id : keeps (busStarted opts id).
Proof. unfold busStarted. hubkeeps_tac. Qed.
Lemma keeps_ended id r : keeps (busEnded opts id r).
Proof. unfold busEnded. hubkeeps_tac. Qed.
Lemma keeps_stalled id b : keeps (busStalled opts id b).
Proof. unfold busStalled. hubkeeps_tac. Qed.
Lemma keeps_viewers id l n e : keeps (busViewers opts id l n e).
Proof. unfold busViewers. hubkeeps_tac. Qed.
Lemma keeps_fold b : keeps (foldIngressLocked b).
Proof. unfold foldIngressLocked. hubkeeps_tac. Qed.
Hint Resolve keeps_fold : hubkeeps.
Lemma keeps_kind b kind : keeps (setPublisherKindLocked b kind).
Proof. unfold setPublisherKindLocked. hubkeeps_tac. Qed.
Lemma keeps_role b e : keeps (setRoleLocked b e).
Proof. unfold setRoleLocked. hubkeeps_tac. Qed.
Lemma keeps_draw draws : keeps (drawIDLocked opts draws).
Proof. unfold drawIDLocked. hubkeeps_tac. Qed.
Lemma keeps_close_deposed old code : keeps (close_deposed old code).
Proof. unfold close_deposed. hubkeeps_tac. Qed.
Hint Resolve keeps_kind keeps_role keeps_started keeps_ended keeps_stalled keeps_viewers : hubkeeps.
Lemma keeps_claimed id b r edge announce : keeps (claimed opts id b r edge announce).
Proof. unfold claimed. hubkeeps_tac. Qed.

(** *** A publisher's and a subscriber's calls *)
Lemma keeps_NoteSeen p now : keeps (NoteSeen p now).
Proof. unfold NoteSeen. hubkeeps_tac. Qed.
Lemma keeps_BindConn p : keeps (BindConn p).
Proof. unfold BindConn. hubkeeps_tac. Qed.
Lemma keeps_BindSend p : keeps (BindSend p).
Proof. unfold BindSend. hubkeeps_tac. Qed.
Lemma keeps_SetTelemetrySession p id : keeps (SetTelemetrySession p id).
Proof. unfold SetTelemetrySession. hubkeeps_tac. Qed.
Lemma keeps_SetKind p kind : keeps (SetKind p kind).
Proof. unfold SetKind. hubkeeps_tac. Qed.
Lemma keeps_SetClient p info : keeps (SetClient p info).
Proof. unfold SetClient. hubkeeps_tac. Qed.
Lemma keeps_enqueue_to s d : keeps (enqueue_to s d).
Proof. unfold enqueue_to. hubkeeps_tac. Qed.
Hint Resolve keeps_enqueue_to : hubkeeps.
Lemma keeps_enqueue_prime s d : keeps (enqueue_prime s d).
Proof. unfold enqueue_prime. hubkeeps_tac. Qed.
Lemma keeps_orphaned s : keeps (orphanedLegsLocked s).
Proof. unfold orphanedLegsLocked. hubkeeps_tac. Qed.
Lemma keeps_close_fold s : keeps (close_fold s).
Proof. unfold close_fold. hubkeeps_tac. Qed.
Lemma keeps_NoteLegAlive s now : keeps (NoteLegAlive s now).
Proof. unfold NoteLegAlive. hubkeeps_tac. Qed.
Lemma keeps_reaped b n : keeps (countStripeLegsReaped b n).
Proof. unfold countStripeLegsReaped. hubkeeps_tac. Qed.
Lemma keeps_RecordDownstreamViewers s n : keeps (RecordDownstreamViewers s n).
Proof. unfold RecordDownstreamViewers. hubkeeps_tac. Qed.
Lemma keeps_SetSubscriberSession s id : keeps (SetSubscriberSession s id).
Proof. unfold SetSubscriberSession. hubkeeps_tac. Qed.
Lemma keeps_SetStripeState s st now : keeps (SetStripeState s st now).
Proof.
  apply keeps_upd_sub. intros x. unfold sub_core, sub_internal, ApplyStripeState; cbn.
  do 2 (case_match; [done|]). done.
Qed.
Lemma keeps_bandwidth b n : keeps (countBandwidthDrop b n).
Proof. unfold countBandwidthDrop. hubkeeps_tac. Qed.
Lemma keeps_bandwidth_bytes b n : keeps (countBandwidthDropBytes b n).
Proof. unfold countBandwidthDropBytes. hubkeeps_tac. Qed.
Lemma keeps_sub_count s k n : keeps (sub_count s k n).
Proof. unfold sub_count. hubkeeps_tac. Qed.
End Keeps.
#[export] Hint Resolve keeps_event keeps_started keeps_ended keeps_stalled keeps_viewers keeps_fold keeps_kind
  keeps_role keeps_draw keeps_close_deposed keeps_claimed keeps_enqueue_to keeps_enqueue_prime keeps_orphaned
  keeps_close_fold keeps_reaped keeps_bandwidth keeps_bandwidth_bytes keeps_sub_count keeps_NoteSeen : hubkeeps.

(** ** Steps on the core *)

Lemma runs_htail {A} k (m : St A) Q : runs k (m ≫= mret) Q → runs k m Q.
Proof. intros Hm g Hg. specialize (Hm g Hg). unfold mbind, st_bind in Hm. by destruct (m g). Qed.
Lemma runs_get_hub {B} k b hc (c : broadcastHub → St B) Q :
  k_heap k !! b = Some hc → (∀ h, hub_core_of h = hc → runs k (c h) Q) → runs k (get_hub b ≫= c) Q.
Proof.
  intros Hb Hc. apply runs_gets. intros g <-. apply Hc. unfold hub_of. cbn in Hb.
  rewrite lookup_fmap in Hb. destruct (h_heap g !! b); [|done]. by injection Hb.
Qed.
(** a handle that stands for nothing reads as the zero value *)
Lemma runs_get_hub_or {B} k b (c : broadcastHub → St B) Q :
  (∀ h, k_heap k !! b = Some (hub_core_of h) → runs k (c h) Q) →
  (k_heap k !! b = None → runs k (c zero_hub) Q) → runs k (get_hub b ≫= c) Q.
Proof.
  intros Hc Hz. apply runs_gets. intros g <-. unfold hub_of. destruct (h_heap g !! b) as [h|] eqn:Hb;
    [|apply Hz; cbn; by rewrite lookup_fmap, Hb].
  apply Hc. cbn. by rewrite lookup_fmap, Hb.
Qed.
Lemma runs_get_pub {B} k p (c : Publisher → St B) Q :
  (∀ x, k_pubs k !! p = Some (pub_core x) → runs k (c x) Q) →
  (k_pubs k !! p = None → runs k (c zero_pub) Q) → runs k (get_pub p ≫= c) Q.
Proof.
  intros Hc Hz. apply runs_gets. intros g <-. unfold pub_of. destruct (h_pubs g !! p) as [x|] eqn:Hp;
    [|apply Hz; cbn; by rewrite lookup_fmap, Hp].
  apply Hc. cbn. by rewrite lookup_fmap, Hp.
Qed.
Lemma runs_get_sub {B} k s (c : HubSubscriber → St B) Q :
  (∀ x, k_subs k !! s = Some (sub_core x) → runs k (c x) Q) →
  (k_subs k !! s = None → runs k (c zero_sub) Q) → runs k (get_sub s ≫= c) Q.
Proof.
  intros Hc Hz. apply runs_gets. intros g <-. unfold sub_of. destruct (h_subs g !! s) as [x|] eqn:Hs;
    [|apply Hz; cbn; by rewrite lookup_fmap, Hs].
  apply Hc. cbn. by rewrite lookup_fmap, Hs.
Qed.
Lemma runs_upd_hub {B} k b f hc hc' (c : unit → St B) Q :
  k_heap k !! b = Some hc → (∀ h, hub_core_of h = hc → hub_core_of (f h) = hc') →
  runs (k_set_hub b hc' k) (c tt) Q → runs k (upd_hub b f ≫= c) Q.
Proof.
  intros Hb Hf. apply runs_modify. intros g <-. unfold core_of, k_set_hub. cbn in *. f_equal.
  by apply fmap_alter_to with hc.
Qed.
Lemma runs_upd_pub {B} k p f pc pc' (c : unit → St B) Q :
  k_pubs k !! p = Some pc → (∀ x, pub_core x = pc → pub_core (f x) = pc') →
  runs (k_set_pub p pc' k) (c tt) Q → runs k (upd_pub p f ≫= c) Q.
Proof.
  intros Hb Hf. apply runs_modify. intros g <-. unfold core_of, k_set_pub. cbn in *. f_equal.
  by apply fmap_alter_to with pc.
Qed.
Lemma runs_upd_sub {B} k s f sc sc' (c : unit → St B) Q :
  k_subs k !! s = Some sc → (∀ x, sub_core x = sc → sub_core (f x) = sc') →
  runs (k_set_sub s sc' k) (c tt) Q → runs k (upd_sub s f ≫= c) Q.
Proof.
  intros Hb Hf. apply runs_modify. intros g <-. unfold core_of, k_set_sub. cbn in *. f_equal.
  by apply fmap_alter_to with sc.
Qed.
Lemma runs_hnew {B} k (c : nat → St B) Q : runs (k_alloc k) (c (k_next k)) Q → runs k (new ≫= c) Q.
Proof. intros Hc. apply runs_bind. by intros g <-. Qed.
Lemma runs_hubs {B} k f (c : unit → St B) Q :
  runs (k_set_hubs f k) (c tt) Q → runs k (modify (set_h_hubs f) ≫= c) Q.
Proof. apply runs_modify. by intros g <-. Qed.
Lemma runs_timers {B} k f (c : unit → St B) Q :
  runs (k_set_timers f k) (c tt) Q → runs k (modify (set_h_timers f) ≫= c) Q.
Proof. apply runs_modify. by intros g <-. Qed.
Lemma runs_add_hub {B} k b h (c : unit → St B) Q :
  runs (k_set_hub b (hub_core_of h) k) (c tt) Q → runs k (modify (set_h_heap (<[b := h]>)) ≫= c) Q.
Proof. apply runs_modify. intros g <-. unfold core_of, k_set_hub; cbn. by rewrite fmap_insert. Qed.
Lemma runs_add_pub {B} k p x (c : unit → St B) Q :
  runs (k_set_pub p (pub_core x) k) (c tt) Q → runs k (modify (set_h_pubs (<[p := x]>)) ≫= c) Q.
Proof. apply runs_modify. intros g <-. unfold core_of, k_set_pub; cbn. by rewrite fmap_insert. Qed.
Lemma runs_add_sub {B} k s x (c : unit → St B) Q :
  runs (k_set_sub s (sub_core x) k) (c tt) Q → runs k (modify (set_h_subs (<[s := x]>)) ≫= c) Q.
Proof. apply runs_modify. intros g <-. unfold core_of, k_set_sub; cbn. by rewrite fmap_insert. Qed.
(** the registered hub of an ID, as the operations look it up *)
Lemma runs_found {B} k id (c : option nat → St B) Q :
  runs k (c (k_hubs k !! id)) Q → runs k (gets (λ g, h_hubs g !! id) ≫= c) Q.
Proof. intros Hc. apply runs_gets. by intros g <-. Qed.

Lemma hub_of_alter f b b' g g' : h_heap g' = alter f b (h_heap g) → (∀ h, b_id (f h) = b_id h) →
  b_id (hub_of g' b') = b_id (hub_of g b').
Proof.
  intros E Hf. unfold hub_of. rewrite E. destruct (decide (b' = b)) as [->|].
  - rewrite lookup_alter_eq. destruct (h_heap g !! b); cbn; [apply Hf|done].
  - by rewrite lookup_alter_ne by done.
Qed.
(** what an open handle reads as *)
Lemma core_hub g b h : k_heap (core_of g) !! b = Some h → hub_core_of (hub_of g b) = h.
Proof. cbn. rewrite lookup_fmap. unfold hub_of. destruct (h_heap g !! b); cbn; congruence. Qed.
Lemma core_pub g p x : k_pubs (core_of g) !! p = Some x → pub_core (pub_of g p) = x.
Proof. cbn. rewrite lookup_fmap. unfold pub_of. destruct (h_pubs g !! p); cbn; congruence. Qed.
Lemma core_sub g s x : k_subs (core_of g) !! s = Some x → sub_core (sub_of g s) = x.
Proof. cbn. rewrite lookup_fmap. unfold sub_of. destruct (h_subs g !! s); cbn; congruence. Qed.

Lemma hub_heap_set b h k : k_heap (k_set_hub b h k) !! b = Some h.
Proof. apply lookup_insert_eq. Qed.
Lemma k_set_hub_twice b h h' k : k_set_hub b h' (k_set_hub b h k) = k_set_hub b h' k.
Proof. unfold k_set_hub; cbn. by rewrite insert_insert_eq. Qed.

(** one step over a call that keeps the core; the whole rest when it all does *)
Ltac hkeep := apply runs_keep; [solve [hubkeeps_tac]|intros ?]; cbv beta zeta.
Ltac hkept := apply runs_keep_last; [solve [hubkeeps_tac]|intros ?; try done].
