(* ===== verification/HubInv.v ===== *)
(** internal/hub: the invariant of the registry.

    [CI x k]: the core [k] is well formed, hub [x] excepted from the rule that a
    registered hub without a publisher has a grace timer running. The elementary
    changes of the core that operations are made of each preserve it. *)
From S2P Require Export HubCore.
#[local] Open Scope Z_scope.

(** the grace timer [t] is still to expire broadcast [id] of generation [gen] *)
Definition pending (k : core) (t : nat) (id : bytes) (gen : Z) : Prop :=
  ∃ tm, k_timers k !! t = Some tm ∧ t_id tm = id ∧ t_gen tm = gen ∧ (t_state tm = Armed ∨ t_state tm = Fired).
Definition k_registered (k : core) (b : nat) (h : hub_core) : Prop := k_hubs k !! hc_id h = Some b.

Record HubOk (x : option nat) (k : core) (b : nat) (h : hub_core) : Prop := {
  ho_nodup : NoDup (hc_subs h);
  ho_subs : ∀ s, s ∈ hc_subs h → ∃ i, k_subs k !! s = Some (b, false, i);
  ho_active : hc_active h = bool_decide (is_Some (hc_pub h));
  ho_pub : ∀ p, hc_pub h = Some p → k_pubs k !! p = Some (b, false, hc_gen h);
  ho_live : hc_active h = true → hc_timer h = None ∧ k_registered k b h;
  ho_timer : ∀ t, hc_timer h = Some t → k_registered k b h ∧ pending k t (hc_id h) (hc_gen h);
  ho_grace : k_registered k b h → hc_active h = false → x ≠ Some b → is_Some (hc_timer h);
  ho_gone : ¬ k_registered k b h → hc_kf h = None;
}.

Record CI (x : option nat) (k : core) : Prop := {
  ci_index : ∀ id b, k_hubs k !! id = Some b → ∃ h, k_heap k !! b = Some h ∧ hc_id h = id;
  ci_hub : ∀ b h, k_heap k !! b = Some h → HubOk x k b h;
  ci_pub : ∀ p b gen, k_pubs k !! p = Some (b, false, gen) → ∃ h, k_heap k !! b = Some h ∧ hc_pub h = Some p;
  ci_sub : ∀ s b c i, k_subs k !! s = Some (b, c, i) →
    ∃ h, k_heap k !! b = Some h ∧ (c = false → s ∈ hc_subs h);
  ci_next : ∀ n, (k_next k ≤ n)%nat →
    k_heap k !! n = None ∧ k_pubs k !! n = None ∧ k_subs k !! n = None ∧ k_timers k !! n = None;
}.

Lemma CI_hub_empty : CI None (core_of NewRegistry).
Proof. by split. Qed.

Lemma CI_hub_weaken x k : CI None k → CI x k.
Proof.
  intros [Hi Hh Hp Hs Hn]. split; try done. intros b h Hb. destruct (Hh b h Hb). split; try done. auto.
Qed.

(** *** Consequences *)
Lemma CI_registered x k id b : CI x k → k_hubs k !! id = Some b →
  ∃ h, k_heap k !! b = Some h ∧ hc_id h = id ∧ k_registered k b h.
Proof. intros Hk Hb. destruct (ci_index _ _ Hk _ _ Hb) as (h & Hh & <-). by exists h. Qed.
(** a registered broadcast has a hub *)
Lemma registered_hub g id b : CI None (core_of g) → h_hubs g !! id = Some b →
  k_heap (core_of g) !! b = Some (hub_core_of (hub_of g b)).
Proof.
  intros Hk Hf. destruct (CI_registered _ _ _ _ Hk Hf) as (h & Hb & _ & _). by rewrite (core_hub g b h Hb).
Qed.
(** two hubs share neither a publisher nor a timer *)
Lemma CI_timer_own x k b1 b2 h1 h2 t : CI x k → k_heap k !! b1 = Some h1 → k_heap k !! b2 = Some h2 →
  hc_timer h1 = Some t → hc_timer h2 = Some t → b1 = b2.
Proof.
  intros Hk H1 H2 T1 T2.
  destruct (ho_timer _ _ _ _ (ci_hub _ _ Hk _ _ H1) _ T1) as [R1 (tm1 & E1 & I1 & _)].
  destruct (ho_timer _ _ _ _ (ci_hub _ _ Hk _ _ H2) _ T2) as [R2 (tm2 & E2 & I2 & _)].
  unfold k_registered in *. congruence.
Qed.

(** what a hub's well-formedness rests on, for the hubs a change does not touch *)
Lemma HubOk_frame x x' k k' b h :
  HubOk x k b h →
  (∀ p g, k_pubs k !! p = Some (b, false, g) → k_pubs k' !! p = Some (b, false, g)) →
  (∀ s i, k_subs k !! s = Some (b, false, i) → k_subs k' !! s = Some (b, false, i)) →
  (k_registered k' b h ↔ k_registered k b h) →
  (∀ t, hc_timer h = Some t → pending k t (hc_id h) (hc_gen h) → pending k' t (hc_id h) (hc_gen h)) →
  (x' ≠ Some b → x ≠ Some b) →
  HubOk x' k' b h.
Proof.
  intros [Hn Hs Ha Hp Hl Ht Hg Hx] Fp Fs Fr Ft Fx. split; try done.
  - intros s Hin. destruct (Hs s Hin) as [i Hi]. eauto.
  - intros p Hpub. auto.
  - intros Hact. destruct (Hl Hact). split; [done|by apply Fr].
  - intros t Htm. destruct (Ht t Htm). split; [by apply Fr|auto].
  - intros Hr Hact Hx'. apply Hg; [by apply Fr|done|auto].
  - intros Hr. apply Hx. by rewrite <- Fr.
Qed.
(** the frame, for a timer the hub does not point to *)
Lemma pending_other k t t' f id gen : t ≠ t' → pending k t id gen → pending (k_set_timers (alter f t') k) t id gen.
Proof. intros Hn (tm & Ht & Hr). exists tm. split; [|done]. cbn. by rewrite lookup_alter_ne by done. Qed.
Lemma pending_insert k t t' tm id gen : t ≠ t' → pending k t id gen →
  pending (k_set_timers (<[t' := tm]>) k) t id gen.
Proof. intros Hn (x & Ht & Hr). exists x. split; [|done]. cbn. by rewrite lookup_insert_ne by done. Qed.

(** ** Elementary changes *)

Definition hc_with (act : bool) (pub : option nat) (gen : Z) (timer : option nat) (kf : option bytes) (h : hub_core) : hub_core :=
  MkHC (hc_id h) act pub gen timer (hc_subs h) kf.
Definition hc_set_subs (l : list nat) (h : hub_core) : hub_core :=
  MkHC (hc_id h) (hc_active h) (hc_pub h) (hc_gen h) (hc_timer h) l (hc_kf h).
Definition hc_set_kf (m : option bytes) (h : hub_core) : hub_core :=
  hc_with (hc_active h) (hc_pub h) (hc_gen h) (hc_timer h) m h.
Definition fresh_hub (id : bytes) : hub_core := MkHC id false None 0 None [] None.

(** replacing hub [b] by [h'] in an otherwise adjusted core *)
Ltac split_hub b' b := destruct (decide (b' = b)) as [->|]; [rewrite ?lookup_insert_eq|rewrite ?lookup_insert_ne by done].

Lemma CI_new_hub k id : CI None k → k_hubs k !! id = None →
  CI (Some (k_next k)) (k_set_hubs (<[id := k_next k]>) (k_set_hub (k_next k) (fresh_hub id) (k_alloc k))).
Proof.
  intros Hk Hid. destruct (ci_next _ _ Hk _ (le_n _)) as (Nh & Np & Ns & Nt).
  split; cbn.
  - intros i b. destruct (decide (i = id)) as [->|].
    + rewrite lookup_insert_eq. intros [= <-]. eexists. by rewrite lookup_insert_eq.
    + rewrite lookup_insert_ne by done. intros Hb. destruct (ci_index _ _ Hk _ _ Hb) as (h & Hh & Hi).
      exists h. rewrite lookup_insert_ne; [done|]. congruence.
  - intros b h. split_hub b (k_next k).
    + intros [= <-]. split; cbn; try done; [apply NoDup_nil_2|by intros ? ?%not_elem_of_nil].
    + intros Hb. apply (HubOk_frame None _ k); auto using ci_hub.
      unfold k_registered; cbn. destruct (decide (hc_id h = id)) as [<-|].
      * rewrite lookup_insert_eq, Hid. split; congruence.
      * by rewrite lookup_insert_ne.
  - intros p b gen Hp. destruct (ci_pub _ _ Hk _ _ _ Hp) as (h & Hh & ?). exists h.
    rewrite lookup_insert_ne; [done|congruence].
  - intros s b c i Hp. destruct (ci_sub _ _ Hk _ _ _ _ Hp) as (h & Hh & ?). exists h.
    rewrite lookup_insert_ne; [done|congruence].
  - intros n Hn. destruct (ci_next _ _ Hk n) as (? & ? & ? & ?); [lia|].
    rewrite lookup_insert_ne by lia. done.
Qed.

(** A change confined to hub [b], its publisher, its subscribers and its timer:
    what is left to check is the hub itself. *)
Record confined (x x' : option nat) (k k' : core) (b : nat) (h h' : hub_core) : Prop := {
  cf_at : k_heap k !! b = Some h;
  cf_heap : k_heap k' = <[b := h']> (k_heap k);
  cf_id : hc_id h' = hc_id h;
  cf_hubs : ∀ id i, k_hubs k' !! id = Some i → k_hubs k !! id = Some i;
  cf_reg : ∀ id i, i ≠ b → k_hubs k !! id = Some i → k_hubs k' !! id = Some i;
  cf_pub : ∀ p i g, i ≠ b → k_pubs k' !! p = Some (i, false, g) ↔ k_pubs k !! p = Some (i, false, g);
  cf_pub_own : ∀ p g, k_pubs k' !! p = Some (b, false, g) → hc_pub h' = Some p;
  cf_sub : ∀ s i c n, i ≠ b → k_subs k' !! s = Some (i, c, n) ↔ k_subs k !! s = Some (i, c, n);
  cf_sub_own : ∀ s n, k_subs k' !! s = Some (b, false, n) → s ∈ hc_subs h';
  cf_timer : ∀ t i hi, i ≠ b → k_heap k !! i = Some hi → hc_timer hi = Some t → k_timers k' !! t = k_timers k !! t;
  cf_next : ∀ n, (k_next k' ≤ n)%nat → k_pubs k' !! n = None ∧ k_subs k' !! n = None ∧ k_timers k' !! n = None;
  cf_more : (k_next k ≤ k_next k')%nat;
  cf_x : ∀ i, i ≠ b → x' ≠ Some i → x ≠ Some i;
}.
Lemma CI_change x x' k k' b h h' : CI x k → confined x x' k k' b h h' → HubOk x' k' b h' → CI x' k'.
Proof.
  intros Hk C Hok. split.
  - intros id i Hi. destruct (ci_index _ _ Hk _ _ (cf_hubs _ _ _ _ _ _ _ C _ _ Hi)) as (hi & Hh & Hid).
    rewrite (cf_heap _ _ _ _ _ _ _ C). split_hub i b; [|eauto]. exists h'. split; [done|].
    rewrite (cf_id _ _ _ _ _ _ _ C). pose proof (cf_at _ _ _ _ _ _ _ C). congruence.
  - intros i hi. rewrite (cf_heap _ _ _ _ _ _ _ C). split_hub i b; [by intros [= <-]|]. intros Hi.
    apply (HubOk_frame x _ k); [by apply (ci_hub _ _ Hk)| | | | |].
    + intros p g. by apply (cf_pub _ _ _ _ _ _ _ C).
    + intros s n'. by apply (cf_sub _ _ _ _ _ _ _ C).
    + split; [apply (cf_hubs _ _ _ _ _ _ _ C)|by apply (cf_reg _ _ _ _ _ _ _ C)].
    + intros t Ht (tm & Htm & Hr). exists tm. by rewrite (cf_timer _ _ _ _ _ _ _ C _ _ _ n Hi Ht).
    + by apply (cf_x _ _ _ _ _ _ _ C).
  - intros p i g Hp. rewrite (cf_heap _ _ _ _ _ _ _ C). split_hub i b.
    + exists h'. split; [done|]. by apply (cf_pub_own _ _ _ _ _ _ _ C _ g).
    + apply (ci_pub _ _ Hk _ _ g). by apply (cf_pub _ _ _ _ _ _ _ C).
  - intros s i c n Hs. rewrite (cf_heap _ _ _ _ _ _ _ C). split_hub i b.
    + exists h'. split; [done|]. intros ->. by apply (cf_sub_own _ _ _ _ _ _ _ C _ n).
    + apply (ci_sub _ _ Hk _ _ _ n). by apply (cf_sub _ _ _ _ _ _ _ C).
  - intros n Hn. pose proof (cf_more _ _ _ _ _ _ _ C). rewrite (cf_heap _ _ _ _ _ _ _ C).
    split; [|by apply (cf_next _ _ _ _ _ _ _ C)].
    destruct (ci_next _ _ Hk n) as [Hh _]; [lia|]. rewrite lookup_insert_ne; [done|].
    intros <-. pose proof (cf_at _ _ _ _ _ _ _ C). congruence.
Qed.

(** a change of the timers that concerns only timer [o] *)
Definition only_timer (o : option nat) (f : gmap nat graceTimer → gmap nat graceTimer) : Prop :=
  ∀ m t, (o ≠ Some t → f m !! t = m !! t) ∧ (m !! t = None → f m !! t = None).
Lemma only_timer_id o : only_timer o id.
Proof. by split. Qed.
Lemma only_timer_alter t f : only_timer (Some t) (alter f t).
Proof.
  intros m t'. split.
  - intros Hn. apply lookup_alter_ne. congruence.
  - intros Hm. destruct (decide (t' = t)) as [->|]; [by rewrite lookup_alter_eq, Hm|by rewrite lookup_alter_ne].
Qed.
Lemma only_timer_comp o f g : only_timer o f → only_timer o g → only_timer o (g ∘ f).
Proof.
  intros Hf Hg m t. destruct (Hf m t), (Hg (f m) t). split; cbn; auto.
  intros Hn. by rewrite H1, H.
Qed.

Definition close_pub (b : nat) (h : hub_core) (k : core) : core :=
  match hc_pub h with Some p => k_set_pub p (b, true, hc_gen h) k | None => k end.

Section Changes.
Context (x : option nat) (k : core) (b : nat) (h : hub_core).
Hypothesis Hk : CI x k.
Hypothesis Hb : k_heap k !! b = Some h.
Let Hok := ci_hub _ _ Hk _ _ Hb.

(** handles in use are older than the next *)
Lemma CI_fresh : k_heap k !! k_next k = None ∧ k_pubs k !! k_next k = None ∧
  k_subs k !! k_next k = None ∧ k_timers k !! k_next k = None.
Proof. apply (ci_next _ _ Hk), le_n. Qed.
Lemma CI_next_S n : (S (k_next k) ≤ n)%nat → n ≠ k_next k ∧
  k_pubs k !! n = None ∧ k_subs k !! n = None ∧ k_timers k !! n = None.
Proof. intros Hn. split; [lia|]. apply (ci_next _ _ Hk). lia. Qed.
Lemma CI_pub_own p g : k_pubs k !! p = Some (b, false, g) → hc_pub h = Some p.
Proof. intros Hp. destruct (ci_pub _ _ Hk _ _ _ Hp) as (h' & Hh & ?). congruence. Qed.
Lemma CI_sub_own s n : k_subs k !! s = Some (b, false, n) → s ∈ hc_subs h.
Proof. intros Hs. destruct (ci_sub _ _ Hk _ _ _ _ Hs) as (h' & Hh & Hin). rewrite Hb in Hh.
  injection Hh as <-. by apply Hin. Qed.
Lemma CI_other_timer f i hi t : only_timer (hc_timer h) f → i ≠ b → k_heap k !! i = Some hi →
  hc_timer hi = Some t → f (k_timers k) !! t = k_timers k !! t.
Proof.
  intros Hf Hi Hh Ht. apply Hf. intros E. apply Hi. by apply (CI_timer_own _ _ _ _ _ _ t Hk Hh Hb).
Qed.
Lemma CI_no_pub : hc_active h = false → hc_pub h = None.
Proof.
  intros Ha. pose proof (ho_active _ _ _ _ Hok) as E. rewrite Ha in E. symmetry in E.
  apply bool_decide_eq_false in E. destruct (hc_pub h); [|done]. by destruct E.
Qed.

Lemma CI_claim f gen : (∀ i, x = Some i → i = b) → k_registered k b h → hc_active h = false →
  only_timer (hc_timer h) f →
  CI None (k_set_hub b (hc_with true (Some (k_next k)) gen None None h)
    (k_set_pub (k_next k) (b, false, gen) (k_alloc (k_set_timers f k)))).
Proof.
  intros Hx Hr Ha Hf. destruct CI_fresh as (Nh & Np & Ns & Nt). pose proof (CI_no_pub Ha) as Hpub.
  assert (Hpb : ∀ p g, k_pubs k !! p ≠ Some (b, false, g)).
  { intros p g Hp%CI_pub_own. congruence. }
  apply (CI_change x _ k _ b h (hc_with true (Some (k_next k)) gen None None h)); [done| |].
  - split; cbn; try done.
    + intros p i g Hi. split_hub p (k_next k); [|done]. rewrite Np. split; [|done]. intros [= E]. by destruct Hi.
    + intros p g. split_hub p (k_next k); [done|]. by intros ?%Hpb.
    + intros s n. apply CI_sub_own.
    + intros t i hi. by apply CI_other_timer.
    + intros n Hn. destruct (CI_next_S n Hn) as (? & ? & ? & ?). rewrite lookup_insert_ne by done.
      split_and!; [done|done|]. by apply Hf.
    + lia.
    + intros i Hi _ E. by apply Hi, Hx.
  - destruct Hok. split; cbn; try done. intros p [= <-]. by rewrite lookup_insert_eq.
Qed.

Lemma CI_release p : hc_pub h = Some p → (∀ i, x = Some i → i = b) →
  CI (Some b) (k_set_hub b (hc_with false None (hc_gen h) (hc_timer h) (hc_kf h) h) (close_pub b h k)).
Proof.
  intros Hp Hx. destruct Hok as [Hnd Hs Ha Hpub Hl Ht Hg Hgo]. unfold close_pub. rewrite Hp.
  assert (Hact : hc_active h = true) by by rewrite Ha, Hp.
  apply (CI_change x _ k _ b h (hc_with false None (hc_gen h) (hc_timer h) (hc_kf h) h)); [done| |].
  - split; cbn; try done.
    + intros q i g Hi. split_hub q p; [|done]. rewrite (Hpub _ Hp). split; intros [= E]; by destruct Hi.
    + intros q g. split_hub q p; [done|]. intros E%CI_pub_own. congruence.
    + intros s n. apply CI_sub_own.
    + intros n Hn. destruct (ci_next _ _ Hk n Hn) as (? & Hnp & ? & ?). rewrite lookup_insert_ne; [done|].
      intros <-. by rewrite (Hpub _ Hp) in Hnp.
    + intros i Hi Hi' E. by apply Hi, Hx.
  - destruct (Hl Hact) as [Htm Hr]. split; cbn; try done.
Qed.

Lemma CI_hub_arm gen at_ : x = Some b → k_registered k b h → hc_active h = false → hc_timer h = None → gen = hc_gen h →
  CI None (k_set_hub b (hc_with false (hc_pub h) gen (Some (k_next k)) (hc_kf h) h)
    (k_set_timers (<[k_next k := MkTimer (hc_id h) gen at_ Armed]>) (k_alloc k))).
Proof.
  intros Hx Hr Ha Ht ->. destruct CI_fresh as (Nh & Np & Ns & Nt).
  apply (CI_change x _ k _ b h (hc_with false (hc_pub h) (hc_gen h) (Some (k_next k)) (hc_kf h) h)); [done| |].
  - split; cbn; try done.
    + intros p g. apply CI_pub_own.
    + intros s n. apply CI_sub_own.
    + intros t i hi Hi Hh Hti. rewrite lookup_insert_ne; [done|].
      destruct (ho_timer _ _ _ _ (ci_hub _ _ Hk _ _ Hh) _ Hti) as [_ (tm & E & _)]. congruence.
    + intros n Hn. destruct (CI_next_S n Hn) as (? & ? & ? & ?). by rewrite lookup_insert_ne by done.
    + lia.
    + intros i Hi _. rewrite Hx. congruence.
  - destruct Hok as [Hnd Hs Hact Hpub Hl Htm Hg Hgo]. split; cbn; try done.
    + by rewrite <- Ha.
    + intros t [= <-]. split; [done|]. exists (MkTimer (hc_id h) (hc_gen h) at_ Armed). cbn.
      rewrite lookup_insert_eq. by split_and!; [..|left].
Qed.

Lemma CI_kf m : k_registered k b h ∨ m = None → CI x (k_set_hub b (hc_set_kf m h) k).
Proof.
  intros Hm. apply (CI_change x _ k _ b h (hc_set_kf m h)); [done| |].
  - split; cbn; try done; [intros p g; apply CI_pub_own|intros s n; apply CI_sub_own|].
    intros n Hn. by apply (ci_next _ _ Hk).
  - destruct Hok as [Hnd Hs Hact Hpub Hl Htm Hg Hgo]. split; cbn; try done.
    intros Hr. destruct Hm; [by destruct Hr|done].
Qed.

Lemma CI_subscribe i : k_registered k b h →
  CI x (k_set_hub b (hc_set_subs (hc_subs h ++ [k_next k]) h) (k_set_sub (k_next k) (b, false, i) (k_alloc k))).
Proof.
  intros Hr. destruct CI_fresh as (Nh & Np & Ns & Nt).
  apply (CI_change x _ k _ b h (hc_set_subs (hc_subs h ++ [k_next k]) h)); [done| |].
  - split; cbn; try done.
    + intros p g. apply CI_pub_own.
    + intros s i' c n Hi. split_hub s (k_next k); [|done]. rewrite Ns. split; [|done]. intros [= E]. by destruct Hi.
    + intros s n. rewrite elem_of_app. split_hub s (k_next k); [by right; left|]. intros ?%CI_sub_own. by left.
    + intros n Hn. destruct (CI_next_S n Hn) as (? & ? & ? & ?). by rewrite lookup_insert_ne by done.
    + lia.
  - destruct Hok as [Hnd Hs Hact Hpub Hl Htm Hg Hgo].
    assert (Hout : k_next k ∉ hc_subs h) by (intros [? E]%Hs; congruence).
    split; cbn; try done.
    + apply NoDup_app. split_and!; [done| |apply NoDup_singleton].
      by intros s Hin ->%list_elem_of_singleton.
    + intros s. rewrite elem_of_app, list_elem_of_singleton. split_hub s (k_next k); [eauto|].
      intros [?|?]; [by apply Hs|done].
Qed.

Lemma CI_unsubscribe s i : k_subs k !! s = Some (b, false, i) →
  CI x (k_set_hub b (hc_set_subs (List.filter (λ s', negb (Nat.eqb s' s)) (hc_subs h)) h) (k_set_sub s (b, true, i) k)).
Proof.
  intros Hs0. set (l := List.filter _ _).
  assert (Hl0 : ∀ s', s' ∈ l ↔ s' ∈ hc_subs h ∧ s' ≠ s).
  { intros s'. unfold l. rewrite !list_elem_of_In, List.filter_In, negb_true_iff, Nat.eqb_neq. done. }
  apply (CI_change x _ k _ b h (hc_set_subs l h)); [done| |].
  - split; cbn; try done.
    + intros p g. apply CI_pub_own.
    + intros s' i' c n Hi. split_hub s' s; [|done]. rewrite Hs0. split; intros [= E]; by destruct Hi.
    + intros s' n. split_hub s' s; [done|]. intros ?%CI_sub_own. by apply Hl0.
    + intros n Hn. destruct (ci_next _ _ Hk n Hn) as (? & ? & Hns & ?). rewrite lookup_insert_ne; [done|].
      intros <-. by rewrite Hs0 in Hns.
  - destruct Hok as [Hnd Hs Hact Hpub Hl Htm Hg Hgo]. split; cbn; try done.
    + apply NoDup_ListNoDup, List.NoDup_filter. by apply NoDup_ListNoDup.
    + intros s' [Hin Hn]%Hl0. rewrite lookup_insert_ne by done. by apply Hs.
Qed.

Lemma CI_remove f : (∀ i, x = Some i → i = b) → k_registered k b h → only_timer (hc_timer h) f →
  CI None (k_set_hub b (hc_with false None (hc_gen h) None None h)
    (close_pub b h (k_set_hubs (delete (hc_id h)) (k_set_timers f k)))).
Proof.
  intros Hx Hr Hf. destruct Hok as [Hnd Hs Hact Hpub Hl Htm Hg Hgo].
  assert (Hp' : ∀ p i g, i ≠ b → k_pubs (close_pub b h k) !! p = Some (i, false, g) ↔ k_pubs k !! p = Some (i, false, g)).
  { intros p i g Hi. unfold close_pub. destruct (hc_pub h) as [q|] eqn:Hq; [|done]. cbn. split_hub p q; [|done].
    rewrite (Hpub _ eq_refl). split; intros [= E]; by destruct Hi. }
  assert (Hown : ∀ p g, k_pubs (close_pub b h k) !! p ≠ Some (b, false, g)).
  { intros p g. unfold close_pub. destruct (hc_pub h) as [q|] eqn:Hq; cbn.
    - split_hub p q; [done|]. intros E%CI_pub_own. congruence.
    - intros E%CI_pub_own. congruence. }
  set (h' := hc_with false None (hc_gen h) None None h).
  set (k' := close_pub b h _).
  assert (Ek' : k_pubs k' = k_pubs (close_pub b h k) ∧ k_hubs k' = delete (hc_id h) (k_hubs k)
    ∧ k_heap k' = k_heap k ∧ k_subs k' = k_subs k ∧ k_timers k' = f (k_timers k) ∧ k_next k' = k_next k).
  { unfold k', close_pub. by destruct (hc_pub h). }
  destruct Ek' as (E1 & E2 & E3 & E4 & E5 & E6).
  apply (CI_change x _ k _ b h h'); [done| |].
  - split; unfold k_set_hub; cbn; rewrite ?E1, ?E2, ?E3, ?E4, ?E5, ?E6; try done.
    + by intros id i [_ E]%lookup_delete_Some.
    + intros id i Hi Hid. rewrite lookup_delete_ne; [done|]. intros <-. unfold k_registered in Hr. congruence.
    + intros p g E. by destruct (Hown p g).
    + intros s n. apply CI_sub_own.
    + intros t i hi. by apply CI_other_timer.
    + intros n Hn. destruct (ci_next _ _ Hk n Hn) as (? & Hnp & ? & ?). split_and!; [|done|by apply Hf].
      unfold close_pub. destruct (hc_pub h) as [q|] eqn:Hq; [|done]. cbn. rewrite lookup_insert_ne; [done|].
      intros <-. by rewrite (Hpub _ eq_refl) in Hnp.
    + intros i Hi _ E. by apply Hi, Hx.
  - split; unfold k_set_hub, k_registered; cbn; rewrite ?E2, ?E4; try done. by rewrite lookup_delete_eq.
Qed.
End Changes.

(** a timer that fires is still to expire its broadcast; one no hub points to is
    of no consequence *)
Lemma CI_fire x k t : CI x k →
  CI x (k_set_timers (alter (set_t_state (λ s, if bool_decide (s = Armed) then Fired else s)) t) k).
Proof.
  intros Hk. split; cbn; try apply Hk.
  - intros b h Hb. apply (HubOk_frame x _ k); try done; [by apply (ci_hub _ _ Hk)|].
    intros t' _ (tm & Htm & Hid & Hg & Hst). destruct (decide (t' = t)) as [->|].
    + eexists. cbn. rewrite lookup_alter_eq, Htm. split_and!; [done|done|done|]. cbn. right.
      destruct Hst as [-> | ->]; done.
    + exists tm. cbn. by rewrite lookup_alter_ne.
  - intros n Hn. destruct (ci_next _ _ Hk n Hn) as (? & ? & ? & ?). split_and!; try done.
    by apply (only_timer_alter t).
Qed.
Lemma CI_ran x k t f : CI x k → (∀ b h, k_heap k !! b = Some h → hc_timer h ≠ Some t) →
  CI x (k_set_timers (alter f t) k).
Proof.
  intros Hk Hno. split; cbn; try apply Hk.
  - intros b h Hb. apply (HubOk_frame x _ k); try done; [by apply (ci_hub _ _ Hk)|].
    intros t' Ht. apply pending_other. intros ->. by apply (Hno b h).
  - intros n Hn. destruct (ci_next _ _ Hk n Hn) as (? & ? & ? & ?). split_and!; try done.
    by apply (only_timer_alter t).
Qed.
