(* ===== verification/HubMachine.v ===== *)
(** internal/hub: the registry as an abstract machine.

    [hub_step]: the life of broadcasts, publishers, subscribers and grace timers
    as guarded steps on the core. It is the specification the operations of hub.go
    are shown to refine (HubSteps.v, HubRun.v); invariants are proved of its steps. *)
From S2P Require Export HubInv MapSum.
#[local] Open Scope Z_scope.

(** ** Who counts against the caps *)

Definition k_ext (k : core) (l : list nat) : Z :=
  fold_right (λ s n, (match k_subs k !! s with Some (_, _, true) => 0 | _ => 1 end) + n) 0 l.
Definition k_hub_ext (k : core) (b : nat) : Z :=
  match k_heap k !! b with Some h => k_ext k (hc_subs h) | None => 0 end.
Definition k_total_ext (k : core) : Z := msum (k_hub_ext k) (k_hubs k).

Lemma k_ext_of g h : externalSubsLocked g h = k_ext (core_of g) (b_subs h).
Proof.
  unfold externalSubsLocked, count_subs, k_ext. cbn [k_subs core_of].
  induction (b_subs h) as [|s l IH]; cbn [fold_right]; [done|]. rewrite IH. f_equal.
  rewrite lookup_fmap. unfold sub_of. destruct (h_subs g !! s) as [x|]; [|done]. cbn.
  unfold sub_core. by destruct (sub_internal x).
Qed.
Lemma k_total_ext_of g : totalExternalSubsLocked g = k_total_ext (core_of g).
Proof.
  unfold totalExternalSubsLocked, k_total_ext. rewrite msum_to_list. cbn [k_hubs core_of].
  induction (map_to_list (h_hubs g)) as [|e l IH]; cbn [fold_right]; [done|]. rewrite IH. f_equal.
  rewrite k_ext_of. unfold k_hub_ext. cbn [k_heap core_of]. rewrite lookup_fmap. unfold hub_of.
  by destruct (h_heap g !! snd e).
Qed.

(** ** The steps *)

(** what a step may end: nothing, or only what the label names *)
Inductive label :=
  | Plain
  | LTake (id : bytes)
  | LClose (p : nat)
  | LRemove (id : bytes) (force : bool).

Definition new_hub_core (id : bytes) (k : core) : core :=
  k_set_hubs (<[id := k_next k]>) (k_set_hub (k_next k) (fresh_hub id) (k_alloc k)).
(** the next generation's publisher in the slot, no timer, no keyframe *)
Definition claim_core (b : nat) (h : hub_core) (f : gmap nat graceTimer → gmap nat graceTimer) (k : core) : core :=
  k_set_hub b (hc_with true (Some (k_next k)) (uint64 (hc_gen h + 1)) None None h)
    (k_set_pub (k_next k) (b, false, uint64 (hc_gen h + 1)) (k_alloc (k_set_timers f k))).
Definition release_core (b : nat) (h : hub_core) (k : core) : core :=
  k_set_hub b (hc_with false None (hc_gen h) (hc_timer h) (hc_kf h) h) (close_pub b h k).
Definition arm_core (b : nat) (h : hub_core) (at_ : Z) (k : core) : core :=
  k_set_hub b (hc_with false None (hc_gen h) (Some (k_next k)) (hc_kf h) h)
    (k_set_timers (<[k_next k := MkTimer (hc_id h) (hc_gen h) at_ Armed]>) (k_alloc (close_pub b h k))).
Definition subscribe_core (b : nat) (h : hub_core) (internal : bool) (k : core) : core :=
  k_set_hub b (hc_set_subs (hc_subs h ++ [k_next k]) h) (k_set_sub (k_next k) (b, false, internal) (k_alloc k)).
Definition unsubscribe_core (s b : nat) (h : hub_core) (i : bool) (k : core) : core :=
  k_set_hub b (hc_set_subs (List.filter (λ s', negb (Nat.eqb s' s)) (hc_subs h)) h) (k_set_sub s (b, true, i) k).
Definition remove_core (b : nat) (h : hub_core) (f : gmap nat graceTimer → gmap nat graceTimer) (k : core) : core :=
  k_set_hub b (hc_with false None (hc_gen h) None None h)
    (close_pub b h (k_set_hubs (delete (hc_id h)) (k_set_timers f k))).

Section Machine.
Context (opts : Options).

Inductive hub_step : label → core → core → Prop :=
  | st_open k id f : k_hubs k !! id = None → only_timer None f →
      hub_step Plain k (claim_core (k_next k) (fresh_hub id) f (new_hub_core id k))
  | st_claim k b h f : k_heap k !! b = Some h → k_registered k b h → hc_active h = false →
      only_timer (hc_timer h) f → hub_step Plain k (claim_core b h f k)
  | st_take k b h f : k_heap k !! b = Some h → k_registered k b h → only_timer (hc_timer h) f →
      hub_step (LTake (hc_id h)) k (claim_core b h f (release_core b h k))
  | st_close k p b h at_ : k_heap k !! b = Some h → hc_pub h = Some p →
      hub_step (LClose p) k (arm_core b h at_ k)
  | st_prime k b h m : k_heap k !! b = Some h → k_registered k b h → hub_step Plain k (k_set_hub b (hc_set_kf m h) k)
  | st_subscribe k b h i : k_heap k !! b = Some h → k_registered k b h →
      (i = false → k_hub_ext k b < MaxSubscribers opts ∧
                   (0 < MaxTotalSubscribers opts → k_total_ext k < MaxTotalSubscribers opts)) →
      hub_step Plain k (subscribe_core b h i k)
  | st_unsubscribe k s b h i : k_heap k !! b = Some h → k_subs k !! s = Some (b, false, i) →
      hub_step Plain k (unsubscribe_core s b h i k)
  | st_remove k b h f force : k_heap k !! b = Some h → k_registered k b h → (force = false → hc_active h = false) →
      only_timer (hc_timer h) f → hub_step (LRemove (hc_id h) force) k (remove_core b h f k)
  | st_fire k t : hub_step Plain k (k_set_timers (alter (set_t_state (λ s, if bool_decide (s = Armed) then Fired else s)) t) k)
  | st_ran k t : (∀ b h, k_heap k !! b = Some h → hc_timer h ≠ Some t) →
      hub_step Plain k (k_set_timers (alter (set_t_state (λ _, Ran)) t) k).

(** sequences of steps with labels in [ok] *)
Definition steps (ok : label → Prop) : core → core → Prop := rtc (λ k k', ∃ l, ok l ∧ hub_step l k k').

(** *** The invariant *)

Lemma CI_open_pub x k p b g : CI x k → k_pubs k !! p = Some (b, false, g) →
  ∃ h, k_heap k !! b = Some h ∧ hc_pub h = Some p ∧ hc_gen h = g ∧ hc_active h = true ∧ k_registered k b h
    ∧ hc_timer h = None.
Proof.
  intros Hk Hp. destruct (ci_pub _ _ Hk _ _ _ Hp) as (h & Hb & Hpub). exists h.
  pose proof (ci_hub _ _ Hk _ _ Hb) as Hok. pose proof (ho_pub _ _ _ _ Hok _ Hpub) as Hpp.
  assert (Ha : hc_active h = true) by (rewrite (ho_active _ _ _ _ Hok), Hpub; done).
  destruct (ho_live _ _ _ _ Hok Ha). split_and!; try done. congruence.
Qed.
Lemma CI_slot x k b h p : CI x k → k_heap k !! b = Some h → hc_pub h = Some p →
  hc_active h = true ∧ k_registered k b h ∧ hc_timer h = None.
Proof.
  intros Hk Hb Hp. pose proof (ci_hub _ _ Hk _ _ Hb) as Hok.
  assert (Ha : hc_active h = true) by (rewrite (ho_active _ _ _ _ Hok), Hp; done).
  by destruct (ho_live _ _ _ _ Hok Ha).
Qed.

Lemma CI_take k b h f : CI None k → k_heap k !! b = Some h → k_registered k b h → only_timer (hc_timer h) f →
  CI None (claim_core b h f (release_core b h k)).
Proof.
  intros Hk Hb Hr Hf. destruct (hc_pub h) as [p|] eqn:Hp.
  - assert (Hx : ∀ i, None = Some i → i = b) by done.
    pose proof (CI_release None k b h Hk Hb p Hp Hx) as Hk1. fold (release_core b h k) in Hk1.
    assert (Hx1 : ∀ i, Some b = Some i → i = b) by by intros ? [= <-].
    pose proof (CI_claim (Some b) _ b _ Hk1 (hub_heap_set _ _ _) f (uint64 (hc_gen h + 1)) Hx1) as Hc.
    unfold claim_core. apply Hc; [|done|done]. unfold k_registered, release_core, close_pub. by rewrite Hp.
  - pose proof (ci_hub _ _ Hk _ _ Hb) as Hok. pose proof (ho_active _ _ _ _ Hok) as Ha. rewrite Hp in Ha. cbn in Ha.
    assert (release_core b h k = k) as ->.
    { unfold release_core, close_pub. rewrite Hp. destruct k as [A B C D E F]; unfold k_set_hub; cbn in *. f_equal.
      apply insert_id. rewrite Hb. f_equal. destruct h; cbn in *; by subst. }
    by apply (CI_claim None k b h Hk Hb f).
Qed.
Lemma CI_close_arm k p b h at_ : CI None k → k_heap k !! b = Some h → hc_pub h = Some p → CI None (arm_core b h at_ k).
Proof.
  intros Hk Hb Hp. destruct (CI_slot _ _ _ _ _ Hk Hb Hp) as (Ha & Hr & Ht).
  assert (Hx : ∀ i, None = Some i → i = b) by done.
  pose proof (CI_release None k b h Hk Hb p Hp Hx) as Hk1. unfold close_pub in Hk1. rewrite Hp in Hk1.
  pose proof (CI_hub_arm _ _ _ _ Hk1 (hub_heap_set _ _ _) (hc_gen h) at_ eq_refl Hr eq_refl Ht eq_refl) as Hk2. revert Hk2.
  unfold arm_core, close_pub. rewrite Hp.
  unfold k_set_hub, k_set_pub, k_alloc, k_set_timers, hc_with; cbn. by rewrite !insert_insert_eq.
Qed.
Lemma step_CI l k k' : CI None k → hub_step l k k' → CI None k'.
Proof.
  intros Hk Hs. revert Hk. destruct Hs as [k0 id f Hn Hf | k0 b h f Hb Hr Ha Hf | k0 b h f Hb Hr Hf | k0 p b h at_ Hb Hp | k0 b h m Hb Hr
    | k0 b h i Hb Hr Hi | k0 s b h i Hb Hs | k0 b h f force Hb Hr Ha Hf | k0 t | k0 t Hno];
    intros Hk.
  - pose proof (CI_new_hub k0 id Hk Hn) as Hk1. fold (new_hub_core id k0) in Hk1.
    apply (CI_claim (Some (k_next k0)) (new_hub_core id k0) (k_next k0) (fresh_hub id) Hk1); try done.
    + apply hub_heap_set.
    + by intros ? [= <-].
    + unfold k_registered; cbn. by rewrite lookup_insert_eq.
  - by apply (CI_claim None k0 b h Hk Hb f).
  - by apply CI_take.
  - by apply (CI_close_arm k0 p).
  - apply (CI_kf None k0 b h Hk Hb). by left.
  - by apply CI_subscribe.
  - by apply CI_unsubscribe.
  - by apply (CI_remove None k0 b h Hk Hb f).
  - by apply CI_fire.
  - by apply CI_ran.
Qed.
Lemma steps_CI ok k k' : CI None k → steps ok k k' → CI None k'.
Proof. intros Hk Hs. induction Hs as [|k k1 k2 (l & _ & Hs) _ IH]; [done|]. apply IH. by apply (step_CI l k). Qed.
(** an invariant of the steps, on well-formed cores *)
Lemma steps_invariant (ok : label → Prop) (I : core → Prop) :
  (∀ l k k', CI None k → ok l → hub_step l k k' → I k → I k') →
  ∀ k k', CI None k → steps ok k k' → I k → I k'.
Proof.
  intros HI k k' Hk Hs. induction Hs as [|k k1 k2 (l & Hl & Hs) _ IH]; [done|]. intros Hik.
  apply IH; [by apply (step_CI l k)|by apply (HI l k)].
Qed.
Lemma steps_mono (ok ok' : label → Prop) k k' : (∀ l, ok l → ok' l) → steps ok k k' → steps ok' k k'.
Proof. intros Hm. apply rtc_subrel. intros x y (l & Hl & Hs). exists l. auto. Qed.
End Machine.
