(* ===== verification/HubSteps.v ===== *)
(** internal/hub: the critical sections of the registry refine its machine.

    Each is executed symbolically on the core ([runs]): the calls that [keeps]
    it are stepped over, and the rest is a step of HubMachine.v. [does ok m]:
    from a well-formed registry, [m] makes steps with labels in [ok] only. *)
From S2P Require Export HubMachine.
#[local] Open Scope Z_scope.

Lemma k_set_timers_id k : k_set_timers id k = k.
Proof. by destruct k. Qed.
Lemma k_set_hub_same b h k : k_heap k !! b = Some h → k_set_hub b h k = k.
Proof. intros Hb. destruct k; unfold k_set_hub; cbn in *. by rewrite insert_id. Qed.

(** two cores built by the same changes of the same parts *)
Ltac core_eq := unfold k_set_hub, k_set_pub, k_set_sub, k_set_hubs, k_set_timers, k_alloc;
  cbn [k_hubs k_heap k_pubs k_subs k_timers k_next]; rewrite ?insert_insert_eq; reflexivity.
Ltac core_is k := match goal with |- _ ?k' => replace k' with k by core_eq end.

Section Does.
Context (opts : Options) (ok : label → Prop).
Definition does {A} (m : St A) : Prop := ∀ k, CI None k → runs k m (λ _, steps opts ok k).

Lemma does_keeps {A} (m : St A) : keeps m → does m.
Proof. intros Hm k Hk. apply runs_keep_last; [done|]. intros _. apply rtc_refl. Qed.
Lemma does_ret {A} (a : A) : does (mret a).
Proof. apply does_keeps, keeps_ret. Qed.
Lemma does_bind {A B} (m : St A) (f : A → St B) : does m → (∀ a, does (f a)) → does (m ≫= f).
Proof.
  intros Hm Hf k Hk. apply runs_bind. eapply runs_mono; [by apply Hm|]. intros a k' Hk'.
  eapply runs_mono; [apply Hf; by apply (steps_CI opts ok k)|]. intros ? k'' Hk''. cbv beta in *. by eapply rtc_trans.
Qed.
Lemma does_forM {A} (l : list A) (f : A → St unit) : (∀ a, does (f a)) → does (forM l f).
Proof. intros Hf. induction l; cbn [forM]; [apply does_ret|by apply does_bind]. Qed.
Lemma one_step l k k' : ok l → hub_step opts l k k' → steps opts ok k k'.
Proof. intros Hl Hs. apply rtc_once. by exists l. Qed.
End Does.

(** what an update does to a core known to be a given one *)
Ltac hub_at E :=
  pose proof (f_equal hc_id E); pose proof (f_equal hc_active E); pose proof (f_equal hc_pub E);
  pose proof (f_equal hc_gen E); pose proof (f_equal hc_timer E); pose proof (f_equal hc_subs E);
  pose proof (f_equal hc_kf E); clear E; unfold hub_core_of, hc_set_kf, hc_with, fresh_session in *; cbn in *; f_equal; congruence.

Section Steps.
Context (opts : Options) (unicode_upper stripeOwnerKey : bytes → bytes).
Hypothesis Hgrace : 0 < BroadcastGrace opts.

(** ** The publisher slot *)

Lemma runs_stop_timer {B} k t (c : unit → St B) Q :
  (∀ f, only_timer (Some t) f → runs (k_set_timers f k) (c tt) Q) → runs k (stop_timer t ≫= c) Q.
Proof. intros Hc. apply runs_timers, Hc, only_timer_alter. Qed.

Lemma runs_cancel_grace {B} k b h (c : unit → St B) Q : k_heap k !! b = Some h →
  (∀ f, only_timer (hc_timer h) f →
    runs (k_set_hub b (hc_with (hc_active h) (hc_pub h) (hc_gen h) None (hc_kf h) h) (k_set_timers f k)) (c tt) Q) →
  runs k (cancel_grace b ≫= c) Q.
Proof.
  intros Hb Hc. apply runs_bind. unfold cancel_grace. eapply runs_get_hub; [done|]. intros h0 E.
  change (b_graceTimer h0) with (hc_timer (hub_core_of h0)). rewrite E. destruct (hc_timer h) as [t|] eqn:Ht.
  - apply runs_stop_timer. intros f Hf. apply runs_htail.
    apply (runs_upd_hub _ _ _ h (hc_with (hc_active h) (hc_pub h) (hc_gen h) None (hc_kf h) h));
      [exact Hb|by intros ? <-|]. by apply runs_ret, Hc.
  - apply runs_ret. specialize (Hc id (only_timer_id _)). rewrite k_set_timers_id in Hc.
    rewrite k_set_hub_same in Hc; [done|]. rewrite Hb. f_equal. destruct h; cbn in *; by subst.
Qed.

Lemma runs_claim k b h rnd now Q : k_heap k !! b = Some h →
  (hc_active h = true → Q (Err ErrPublisherActive) k) →
  (hc_active h = false → ∀ f, only_timer (hc_timer h) f →
    Q (Ok (k_next k)) (k_set_hub b (hc_with true (Some (k_next k)) (uint64 (hc_gen h + 1)) None None h)
      (k_set_pub (k_next k) (b, false, uint64 (hc_gen h + 1)) (k_alloc (k_set_timers f k))))) →
  runs k (claimPublisherLocked b rnd now) Q.
Proof.
  intros Hb Hact Hin. unfold claimPublisherLocked. eapply runs_get_hub; [done|]. intros h0 E.
  change (b_active h0) with (hc_active (hub_core_of h0)). rewrite E.
  destruct (hc_active h) eqn:Ha; [by apply runs_ret, Hact|]. specialize (Hin eq_refl).
  eapply runs_cancel_grace; [done|]. intros f Hf.
  eapply (runs_upd_hub _ _ _ _ (hc_with true (hc_pub h) (hc_gen h) None (hc_kf h) h)); [apply hub_heap_set|intros h' E'; by hub_at E'|].
  apply runs_keep; [apply keeps_kind|intros []].
  eapply (runs_upd_hub _ _ _ _ (hc_with true (hc_pub h) (uint64 (hc_gen h + 1)) None None h)); [apply hub_heap_set|intros h' E'; by hub_at E'|].
  apply runs_hnew. eapply runs_get_hub; [apply hub_heap_set|]. intros h3 E3. apply runs_add_pub.
  eapply (runs_upd_hub _ _ _ _ (hc_with true (Some (k_next k)) (uint64 (hc_gen h + 1)) None None h)); [apply hub_heap_set|intros h' E'; by hub_at E'|].
  apply runs_ret. specialize (Hin f Hf). unfold pub_core; cbn [p_hub p_closed p_generation].
  change (b_generation h3) with (hc_gen (hub_core_of h3)). rewrite E3. revert Hin.
  unfold k_set_hub, k_set_pub, k_alloc, k_set_timers; cbn. by rewrite !insert_insert_eq.
Qed.

(** a claim of a registered hub *)
Lemma does_claim_then {A} ok k b h rnd now (c : result nat → St A) : ok Plain →
  k_heap k !! b = Some h → k_registered k b h → (∀ r, keeps (c r)) →
  runs k (r ← claimPublisherLocked b rnd now; c r) (λ _, steps opts ok k).
Proof.
  intros Hok Hb Hr Hc. apply runs_bind. apply (runs_claim _ _ h); [done| |].
  - intros _. apply runs_keep_last; [done|]. intros _. apply rtc_refl.
  - intros Ha f Hf. apply runs_keep_last; [done|]. intros _. apply (one_step _ _ Plain); [done|]. by constructor.
Qed.

Lemma runs_newHub {B} k id now (c : nat → St B) Q :
  runs (k_set_hubs (<[id := k_next k]>) (k_set_hub (k_next k) (fresh_hub id) (k_alloc k))) (c (k_next k)) Q →
  runs k (newHubLocked id now ≫= c) Q.
Proof.
  intros Hc. apply runs_bind. apply runs_hnew. apply runs_add_hub, runs_hubs, runs_ret. exact Hc.
Qed.
Lemma draw_unused n draws g id : draw_loop opts n draws g = Ok id → h_hubs g !! id = None.
Proof.
  revert draws. induction n as [|n IH]; intros draws; cbn [draw_loop]; [done|].
  destruct (Mint _) as [i|]; [|done]. case_bool_decide; cbn [andb]; [|by apply IH].
  destruct (negb _); [by intros [= <-]|by apply IH].
Qed.

Lemma does_on_found {A} ok k id b rnd now (c : result nat → St A) : ok Plain → CI None k → k_hubs k !! id = Some b →
  (∀ r, keeps (c r)) → runs k (r ← claimPublisherLocked b rnd now; c r) (λ _, steps opts ok k).
Proof.
  intros Hok Hk Hf Hc. destruct (CI_registered _ _ _ _ Hk Hf) as (h & Hb & _ & Hr). by eapply does_claim_then.
Qed.
(** a claim of one just registered *)
Lemma does_claim_new {A} ok k id rnd now (c : result nat → St A) : ok Plain → k_hubs k !! id = None → (∀ r, keeps (c r)) →
  runs (new_hub_core id k) (r ← claimPublisherLocked (k_next k) rnd now; c r) (λ _, steps opts ok k).
Proof.
  intros Hok Hn Hc. apply runs_bind. apply (runs_claim _ _ (fresh_hub id)); [apply hub_heap_set|done|].
  intros _ f Hf. apply runs_keep_last; [done|]. intros _. apply (one_step _ _ Plain); [done|].
  by apply (st_open opts k id f).
Qed.

Section Sections.
Context (may : label → Prop).
Hypothesis Hplain : may Plain.
#[local] Notation does := (does opts may).
#[local] Notation steps := (steps opts may).

Lemma does_StartPublish id draws rnd now : does (StartPublish opts unicode_upper id draws rnd now).
Proof.
  intros k Hk. unfold StartPublish. apply runs_bind. destruct (bool_decide (id = [])); cbn [negb].
  - apply runs_gets. intros g Hg. destruct (at_capacity opts g); [by apply runs_ret, runs_ret, rtc_refl|].
    unfold drawIDLocked. apply runs_gets. intros g' Hg'. destruct (draw_loop _ _ _ _) as [new|e|] eqn:Hd.
    2-3: by apply runs_ret, runs_ret, rtc_refl.
    apply draw_unused in Hd. assert (Hn : k_hubs k !! new = None) by (rewrite <- Hg'; exact Hd).
    apply runs_newHub, runs_ret. apply runs_found. cbn [k_hubs k_set_hubs]. rewrite lookup_insert_eq.
    apply (does_claim_new may k new); [done..|]. intros r. apply keeps_claimed.
  - apply runs_ret. destruct (Normalize _ id) as [norm|]; [|by apply runs_ret, rtc_refl].
    apply runs_found. destruct (k_hubs k !! norm) as [b|] eqn:Hf; [|by apply runs_ret, rtc_refl].
    eapply does_on_found; [done..|]. intros r. apply keeps_claimed.
Qed.
Lemma does_ResumePublish id rnd now : does (ResumePublish opts unicode_upper id rnd now).
Proof.
  intros k Hk. unfold ResumePublish. destruct (Normalize _ id) as [norm|]; [|by apply runs_ret, rtc_refl].
  apply runs_found. apply runs_gets. intros g _. destruct (k_hubs k !! norm) as [b|] eqn:Hf.
  - eapply does_on_found; [done..|]. intros r. apply keeps_claimed.
  - destruct (at_capacity opts g); [by apply runs_ret, rtc_refl|].
    apply runs_newHub. apply (does_claim_new may k norm); [done..|]. intros r. apply keeps_claimed.
Qed.
Lemma does_EdgePublish id rnd now : does (EdgePublish opts unicode_upper id rnd now).
Proof.
  intros k Hk. unfold EdgePublish. destruct (Normalize _ id) as [norm|]; [|by apply runs_ret, rtc_refl].
  apply runs_found. destruct (k_hubs k !! norm) as [b|] eqn:Hf.
  - apply runs_bind, runs_ret. eapply does_on_found; [done..|]. intros r. apply keeps_claimed.
  - apply runs_newHub. apply (does_claim_new may k norm); [done..|]. intros r. apply keeps_claimed.
Qed.

Lemma runs_depose x k b h Q : CI x k → k_heap k !! b = Some h →
  (hc_active h = false → Q None k) →
  (∀ p, hc_pub h = Some p →
    Q (Some p) (k_set_hub b (hc_with false None (hc_gen h) (hc_timer h) (hc_kf h) h) (close_pub b h k))) →
  runs k (depose b) Q.
Proof.
  intros Hk Hb Hn Hs. pose proof (ci_hub _ _ Hk _ _ Hb) as Hok. unfold depose. eapply runs_get_hub; [done|]. intros h0 E.
  change (b_publisher h0) with (hc_pub (hub_core_of h0)). change (b_active h0) with (hc_active (hub_core_of h0)).
  rewrite E. pose proof (ho_active _ _ _ _ Hok) as Ha. destruct (hc_pub h) as [p|] eqn:Hp; cbn in Ha.
  - rewrite Ha. pose proof (ho_pub _ _ _ _ Hok _ Hp) as Hpp.
    apply (runs_upd_pub _ _ _ (b, false, hc_gen h) (b, true, hc_gen h)); [done|by intros ? [= <- _ <-]|].
    apply (runs_upd_hub _ _ _ h (hc_with false None (hc_gen h) (hc_timer h) (hc_kf h) h)); [done|by intros ? <-|].
    apply runs_ret. specialize (Hs p eq_refl). unfold close_pub in Hs. by rewrite Hp in Hs.
  - apply runs_ret. by apply Hn.
Qed.
(** a takeover, up to what it tells the deposed session *)
Lemma runs_TakeOver k id norm b h rnd now Q : CI None k → Normalize unicode_upper id = Some norm →
  k_hubs k !! norm = Some b → k_heap k !! b = Some h →
  (∀ f, only_timer (hc_timer h) f →
    Q (Ok (norm, k_next k)) (k_set_hub b (hc_with true (Some (k_next k)) (uint64 (hc_gen h + 1)) None None h)
      (k_set_pub (k_next k) (b, false, uint64 (hc_gen h + 1)) (k_alloc (k_set_timers f (close_pub b h k)))))) →
  runs k (TakeOverPublish opts unicode_upper id rnd now) Q.
Proof.
  intros Hk Hn Hf Hb HQ. unfold TakeOverPublish. rewrite Hn. apply runs_found. rewrite Hf. apply runs_bind.
  assert (Htail : ∀ old p k', Q (Ok (norm, p)) k' →
    runs k' (_ ← setRoleLocked b false; _ ← (if bool_decide (is_Some old) then busEnded opts norm EndedReplaced else skip);
      _ ← busStarted opts norm; _ ← close_deposed old CloseCodePublisherSuperseded; mret (Ok (norm, p))) Q).
  { intros old p k' HQ'. hkeep. hkeep. hkeep. hkeep. by apply runs_ret. }
  assert (Hbc : ∀ q, k_heap (close_pub b q k) = k_heap k) by (intros q; unfold close_pub; by destruct (hc_pub q)).
  assert (Hnc : k_next (close_pub b h k) = k_next k) by (unfold close_pub; by destruct (hc_pub h)).
  apply (runs_depose None _ _ h); [done|done| |].
  - intros Ha. apply runs_bind. apply (runs_claim _ _ h); [done|congruence|]. intros _ f Hft. apply Htail.
    specialize (HQ f Hft). unfold close_pub in HQ. by rewrite (CI_no_pub None k b h Hk Hb Ha) in HQ.
  - intros p Hp. apply runs_bind. set (h1 := hc_with false None (hc_gen h) (hc_timer h) (hc_kf h) h).
    apply (runs_claim _ _ h1); [apply hub_heap_set|done|]. intros _ f Hft. apply Htail.
    specialize (HQ f Hft). revert HQ. rewrite <- Hnc.
    unfold k_set_hub, k_set_pub, k_alloc, k_set_timers, h1, hc_with; cbn. by rewrite Hbc, !insert_insert_eq.
Qed.
Lemma does_TakeOverPublish id rnd now : (∀ norm, Normalize unicode_upper id = Some norm → may (LTake norm)) →
  does (TakeOverPublish opts unicode_upper id rnd now).
Proof.
  intros Htake k Hk. destruct (Normalize unicode_upper id) as [norm|] eqn:Hn.
  2: { unfold TakeOverPublish. rewrite Hn. apply runs_ret, rtc_refl. }
  destruct (k_hubs k !! norm) as [b|] eqn:Hf.
  2: { unfold TakeOverPublish. rewrite Hn. apply runs_found. rewrite Hf. apply runs_ret, rtc_refl. }
  destruct (CI_registered _ _ _ _ Hk Hf) as (h & Hb & Hid & Hr).
  apply (runs_TakeOver k id norm b h); [done..|]. intros f Hft.
  apply (one_step _ _ (LTake norm)); [by apply Htake|]. rewrite <- Hid.
  pose proof (st_take opts k b h f Hb Hr Hft) as Hs. revert Hs. unfold claim_core, release_core.
  unfold close_pub, k_set_hub, k_set_pub, k_alloc, k_set_timers, hc_with.
  destruct (hc_pub h); cbn; by rewrite !insert_insert_eq.
Qed.

Lemma does_InvalidatePrimes id : does (InvalidatePrimes unicode_upper id).
Proof.
  intros k Hk. unfold InvalidatePrimes. destruct (Normalize _ id) as [norm|]; [|by apply runs_ret, rtc_refl].
  apply runs_found. destruct (k_hubs k !! norm) as [b|] eqn:Hf; [|by apply runs_ret, rtc_refl].
  destruct (CI_registered _ _ _ _ Hk Hf) as (h & Hb & _ & Hr). apply runs_htail.
  apply (runs_upd_hub _ _ _ h (hc_set_kf None h)); [done|by intros ? <-|]. apply runs_ret.
  by apply (one_step _ _ Plain), st_prime.
Qed.

Lemma runs_PublisherClose k p now Q : CI None k →
  ((∀ b g, k_pubs k !! p ≠ Some (b, false, g)) → Q tt k) →
  (∀ b h at_, k_heap k !! b = Some h → hc_pub h = Some p → k_pubs k !! p = Some (b, false, hc_gen h) →
    hc_timer h = None → k_registered k b h →
    Q tt (k_set_hub b (hc_with false None (hc_gen h) (Some (k_next k)) (hc_kf h) h)
      (k_set_timers (<[k_next k := MkTimer (hc_id h) (hc_gen h) at_ Armed]>)
        (k_alloc (k_set_pub p (b, true, hc_gen h) k))))) →
  runs k (PublisherClose opts p now) Q.
Proof.
  intros Hk Hno Hc. unfold PublisherClose.
  apply runs_get_pub; [intros x Hp|intros Hp; apply runs_ret, Hno; congruence].
  destruct (p_closed x) eqn:Hx; unfold pub_core in Hp; rewrite Hx in Hp.
  { apply runs_ret, Hno. congruence. }
  destruct (CI_open_pub _ _ _ _ _ Hk Hp) as (h & Hb & Hpub & Hg & Ha & Hr & Ht). rewrite <- Hg in Hp.
  set (b := p_hub x) in *.
  apply (runs_upd_pub _ _ _ (b, false, hc_gen h) (b, true, hc_gen h)); [done|by intros ? [= <- _ <-]|].
  apply (runs_upd_hub _ _ _ h (hc_with false (Some p) (hc_gen h) None (hc_kf h) h)); [done|intros h' E; by hub_at E|].
  hkeep. apply (runs_upd_hub _ _ _ (hc_with false (Some p) (hc_gen h) None (hc_kf h) h)
    (hc_with false None (hc_gen h) None (hc_kf h) h)); [apply hub_heap_set|intros h' E; by hub_at E|].
  eapply runs_get_hub; [apply hub_heap_set|]. intros h1 E1. rewrite (proj2 (Z.gtb_lt _ _)) by lia.
  apply runs_bind. apply runs_keep; [apply keeps_upd_hub; reflexivity|intros []].
  unfold arm_timer. apply runs_bind. apply runs_hnew. apply runs_timers, runs_ret. apply runs_htail.
  apply (runs_upd_hub _ _ _ (hc_with false None (hc_gen h) None (hc_kf h) h)
    (hc_with false None (hc_gen h) (Some (k_next k)) (hc_kf h) h)); [apply hub_heap_set|intros h' E; by hub_at E|].
  apply runs_ret. apply runs_keep_last; [hubkeeps_tac|intros []].
  specialize (Hc b h (now + BroadcastGrace opts) Hb Hpub Hp Ht Hr). revert Hc.
  change (b_id h1) with (hc_id (hub_core_of h1)). change (b_generation h1) with (hc_gen (hub_core_of h1)).
  rewrite E1. unfold k_set_hub, k_set_pub, k_alloc, k_set_timers; cbn. by rewrite !insert_insert_eq.
Qed.
Lemma does_PublisherClose p now : may (LClose p) → does (PublisherClose opts p now).
Proof.
  intros Hp k Hk. apply runs_PublisherClose; [done|intros; apply rtc_refl|]. intros b h at_ Hb Hpub _ Ht Hr.
  apply (one_step _ _ (LClose p)); [done|]. pose proof (st_close opts k p b h at_ Hb Hpub) as Hs. revert Hs.
  unfold arm_core, close_pub. rewrite Hpub. done.
Qed.

(** ** Subscribers *)

Lemma runs_subscribeOptsLocked k id so now Q : CI None k →
  (∀ e, Q (Err e) k) →
  (∀ norm b h prime, Normalize unicode_upper id = Some norm → k_hubs k !! norm = Some b → k_heap k !! b = Some h →
    (so_internal so = false → k_hub_ext k b < MaxSubscribers opts ∧
      (0 < MaxTotalSubscribers opts → k_total_ext k < MaxTotalSubscribers opts)) →
    Q (Ok (k_next k, prime)) (subscribe_core b h (so_internal so) k)) →
  runs k (subscribeOptsLocked opts unicode_upper stripeOwnerKey id so now) Q.
Proof.
  intros Hk Herr Hok. unfold subscribeOptsLocked. destruct (Normalize _ id) as [norm|] eqn:Hn; [|by apply runs_ret].
  apply runs_found. destruct (k_hubs k !! norm) as [b|] eqn:Hf; [|by apply runs_ret].
  destruct (CI_registered _ _ _ _ Hk Hf) as (h & Hb & _ & Hr). specialize (Hok norm b h).
  eapply runs_get_hub; [done|]. intros h0 E. apply runs_gets. intros g1 Hg1. apply runs_gets. intros g2 Hg2.
  destruct (negb _ && hub_full _ _ _) eqn:G1; [by apply runs_ret|].
  destruct (negb _ && relay_full _ _) eqn:G2; [by apply runs_ret|].
  assert (Hcap : so_internal so = false → k_hub_ext k b < MaxSubscribers opts ∧
      (0 < MaxTotalSubscribers opts → k_total_ext k < MaxTotalSubscribers opts)).
  { intros Hi. rewrite Hi in G1, G2. cbn [negb andb] in G1, G2. unfold hub_full, relay_full in *.
    rewrite k_ext_of, Hg1 in G1. rewrite k_total_ext_of, Hg2 in G2. unfold k_hub_ext. rewrite Hb, <- E.
    change (hc_subs (hub_core_of h0)) with (b_subs h0). split; [lia|]. intros Hpos.
    destruct (MaxTotalSubscribers opts >? 0) eqn:G; cbn [andb] in G2; lia. }
  apply runs_keep.
  { destruct (so_dvr so); [|apply keeps_skip]. apply keeps_upd_hub. intros x. unfold ensure_rings. by destruct (b_dvr x). }
  intros []. hkeep. apply runs_hnew. apply runs_add_sub.
  apply (runs_upd_hub _ _ _ h (hc_set_subs (hc_subs h ++ [k_next k]) h)); [done|by intros ? <-|].
  hkeep. by apply runs_ret, Hok.
Qed.
Lemma does_subscribeOptsLocked id so now : does (subscribeOptsLocked opts unicode_upper stripeOwnerKey id so now).
Proof.
  intros k Hk. apply runs_subscribeOptsLocked; [done|intros; apply rtc_refl|]. intros norm b h prime _ Hf Hb Hcap.
  apply (one_step _ _ Plain); [done|]. apply (st_subscribe opts k b h); [done| |done].
  destruct (CI_registered _ _ _ _ Hk Hf) as (h' & Hb' & _ & Hr). congruence.
Qed.

Lemma runs_close_begin k s Q : CI None k →
  ((∀ b i, k_subs k !! s ≠ Some (b, false, i)) → Q None k) →
  (∀ b i h legs, k_subs k !! s = Some (b, false, i) → k_heap k !! b = Some h →
    Q (Some legs) (k_set_hub b (hc_set_subs (List.filter (λ s', negb (Nat.eqb s' s)) (hc_subs h)) h)
      (k_set_sub s (b, true, i) k))) →
  runs k (close_begin s) Q.
Proof.
  intros Hk Hno Hc. unfold close_begin.
  apply runs_get_sub; [intros x Hs|intros Hs; apply runs_ret, Hno; congruence].
  destruct (s_closed x) eqn:Hx; unfold sub_core in Hs; rewrite Hx in Hs.
  { apply runs_ret, Hno. congruence. }
  destruct (ci_sub _ _ Hk _ _ _ _ Hs) as (h & Hb & _).
  apply (runs_upd_sub _ _ _ (s_hub x, false, sub_internal x) (s_hub x, true, sub_internal x)); [done| |].
  { by intros y [= <- _ <-]. }
  apply (runs_upd_hub _ _ _ h (hc_set_subs (List.filter (λ s', negb (Nat.eqb s' s)) (hc_subs h)) h)); [done|by intros ? <-|].
  hkeep. by apply runs_ret, Hc.
Qed.
Lemma does_close_begin s : does (close_begin s).
Proof.
  intros k Hk. apply runs_close_begin; [done|intros; apply rtc_refl|]. intros b i h legs Hs Hb.
  by apply (one_step _ _ Plain), st_unsubscribe.
Qed.
Lemma does_SubscriberClose fuel s : does (SubscriberClose fuel s).
Proof.
  revert s. induction fuel as [|fuel IH]; intros s; cbn [SubscriberClose]; [apply does_ret|].
  apply does_bind; [apply does_close_begin|]. intros [legs|]; [|apply does_ret].
  apply does_bind; [|intros; apply does_keeps, keeps_close_fold]. apply does_forM. intros l.
  apply does_bind; [by apply does_keeps|done].
Qed.
Lemma does_end_session code s : does (end_session code s).
Proof. apply does_bind; [by apply does_keeps|intros; apply does_SubscriberClose]. Qed.
Lemma does_CloseInternal id code : does (CloseInternalSubscribers unicode_upper id code).
Proof.
  unfold CloseInternalSubscribers. destruct (Normalize _ id) as [norm|]; [|apply does_ret].
  apply does_bind; [by apply does_keeps|]. intros [b|]; [|apply does_ret].
  apply does_bind; [by apply does_keeps|]. intros l. apply does_forM. intros s. apply does_end_session.
Qed.
Lemma does_legLease s lease now : does (legLeaseWatch s lease now).
Proof.
  apply does_bind; [by apply does_keeps|]. intros x. cbv zeta. destruct (_ >? 0); [apply does_ret|].
  destruct (s_closed x); [apply does_ret|]. apply does_bind; [apply does_keeps, keeps_reaped|]. intros _.
  apply does_bind; [apply does_end_session|]. intros _. apply does_ret.
Qed.

(** ** Removal *)

Lemma runs_stop_grace {B} k b h (c : unit → St B) Q : k_heap k !! b = Some h →
  (∀ f, only_timer (hc_timer h) f →
    runs (k_set_hub b (hc_with (hc_active h) (hc_pub h) (hc_gen h) None (hc_kf h) h) (k_set_timers f k)) (c tt) Q) →
  runs k (stop_grace b ≫= c) Q.
Proof.
  intros Hb Hc. apply runs_bind. unfold stop_grace. eapply runs_get_hub; [done|]. intros h0 E.
  change (b_graceTimer h0) with (hc_timer (hub_core_of h0)). rewrite E. destruct (hc_timer h) as [t|] eqn:Ht.
  - apply runs_stop_timer. intros f Hf. apply runs_htail.
    apply (runs_upd_hub _ _ _ h (hc_with (hc_active h) (hc_pub h) (hc_gen h) None (hc_kf h) h));
      [exact Hb|by intros ? <-|]. by apply runs_ret, Hc.
  - apply runs_ret. specialize (Hc id (only_timer_id _)). rewrite k_set_timers_id in Hc.
    rewrite k_set_hub_same in Hc; [done|]. rewrite Hb. f_equal. destruct h; cbn in *; by subst.
Qed.

(** The timers may be ahead of the well-formed core [k] by [tf]: the callback
    of a timer has run. *)
Lemma runs_remove_locked k tf id ok force now Q : CI None k →
  (k_hubs k !! id = None → Q None (k_set_timers tf k)) →
  (∀ b h h0, k_hubs k !! id = Some b → k_heap k !! b = Some h → hub_core_of h0 = h →
    (negb force && hc_active h) || negb (ok b h0) = true → Q None (k_set_timers tf k)) →
  (∀ b h h0 f r, k_hubs k !! id = Some b → k_heap k !! b = Some h → hub_core_of h0 = h →
    (force = false → hc_active h = false) → ok b h0 = true → only_timer (hc_timer h) f →
    r_deposed r = hc_pub h → r_subs r = hc_subs h →
    Q (Some r) (k_set_hub b (hc_with false None (hc_gen h) None None h)
      (close_pub b h (k_set_hubs (delete (hc_id h)) (k_set_timers (f ∘ tf) k))))) →
  runs (k_set_timers tf k) (remove_locked id ok force now) Q.
Proof.
  intros Hk Hnone Hno Hyes. unfold remove_locked. apply runs_found. cbn [k_hubs k_set_timers].
  destruct (k_hubs k !! id) as [b|] eqn:Hf; [|by apply runs_ret, Hnone].
  destruct (CI_registered _ _ _ _ Hk Hf) as (h & Hb & Hid & Hr). pose proof (ci_hub _ _ Hk _ _ Hb) as Hok.
  eapply runs_get_hub; [done|]. intros h0 E. change (b_active h0) with (hc_active (hub_core_of h0)). rewrite E.
  destruct ((negb force && hc_active h) || negb (ok b h0)) eqn:G; [by apply runs_ret, (Hno b h h0)|].
  apply orb_false_iff in G as [G1 G2%negb_false_iff].
  assert (Hfa : force = false → hc_active h = false) by (intros ->; exact G1). clear Hno Hnone.
  apply runs_hubs. hkeep. rename a into ending.
  change (b_publisher h0) with (hc_pub (hub_core_of h0)). rewrite E.
  assert (Hdep : ∀ (c : option nat → St (option removal)) k1, k_pubs k1 = k_pubs k →
    runs (close_pub b h k1) (c (hc_pub h)) Q →
    runs k1 ((match hc_pub h with
      | Some old => if hc_active h then _ ← upd_pub old (set_p_closed (λ _, true)); mret (Some old) else mret None
      | None => mret None end) ≫= c) Q).
  { intros c k1 Hk1 Hc. apply runs_bind. pose proof (ho_active _ _ _ _ Hok) as Ha. unfold close_pub in Hc.
    destruct (hc_pub h) as [p|] eqn:Hp; [|by apply runs_ret]. cbn in Ha. rewrite Ha.
    apply (runs_upd_pub _ _ _ (b, false, hc_gen h) (b, true, hc_gen h)).
    - rewrite Hk1. by apply (ho_pub _ _ _ _ Hok).
    - by intros ? [= <- _ <-].
    - by apply runs_ret. }
  apply Hdep; [done|]. set (k1 := close_pub b h _).
  assert (Hb1 : k_heap k1 !! b = Some h) by (unfold k1, close_pub; by destruct (hc_pub h)).
  apply (runs_upd_hub _ _ _ h (hc_with false (hc_pub h) (hc_gen h) (hc_timer h) (hc_kf h) h)); [done|intros h' E'; by hub_at E'|].
  hkeep. apply (runs_upd_hub _ _ _ (hc_with false (hc_pub h) (hc_gen h) (hc_timer h) (hc_kf h) h)
    (hc_with false None (hc_gen h) (hc_timer h) (hc_kf h) h)); [apply hub_heap_set|intros h' E'; by hub_at E'|].
  hkeep. hkeep. hkeep. eapply runs_stop_grace; [apply hub_heap_set|]. intros f Hft.
  apply (runs_upd_hub _ _ _ (hc_with false None (hc_gen h) None (hc_kf h) h)
    (hc_with false None (hc_gen h) None None h)); [apply hub_heap_set|intros h' E'; by hub_at E'|].
  eapply runs_get_hub; [apply hub_heap_set|]. intros h3 E3. apply runs_ret.
  specialize (Hyes b h h0 f (MkRemoval (hc_pub h) (b_subs h3) (b_edge h3) ending) eq_refl Hb E Hfa G2 Hft eq_refl).
  change (b_subs h3) with (hc_subs (hub_core_of h3)) in Hyes. rewrite E3 in Hyes. specialize (Hyes eq_refl). revert Hyes.
  unfold k1, close_pub, k_set_hub, k_set_pub, k_set_hubs, k_set_timers, hc_with; rewrite Hid.
  destruct (hc_pub h); cbn; rewrite !insert_insert_eq; change (hc_subs (hub_core_of h3)) with (b_subs h3); 
  cbn in E3; apply (f_equal hc_subs) in E3; cbn in E3; rewrite E3; done.
Qed.
Lemma does_remove_locked id ok force now : may (LRemove id force) → does (remove_locked id ok force now).
Proof.
  intros Hm k Hk. rewrite <- (k_set_timers_id k) at 1. apply runs_remove_locked; [done| | |].
  - intros _. rewrite k_set_timers_id. apply rtc_refl.
  - intros. rewrite k_set_timers_id. apply rtc_refl.
  - intros b h h0 f r Hf Hb E Hact _ Ht _ _. destruct (CI_registered _ _ _ _ Hk Hf) as (h' & Hb' & Hid & Hr).
    rewrite Hb in Hb'. injection Hb' as <-. apply (one_step _ _ (LRemove id force)); [done|]. rewrite <- Hid.
    by apply (st_remove opts k b h f force).
Qed.
Lemma does_remove_tail id code r : does (remove_tail opts id code r).
Proof.
  apply does_bind; [apply does_keeps, keeps_close_deposed|]. intros _.
  apply does_bind; [apply does_forM; intros; apply does_end_session|]. intros _. apply does_keeps. hubkeeps_tac.
Qed.
Lemma does_remove id ok force code now : may (LRemove id force) → does (removeBroadcast opts id ok force code now).
Proof.
  intros Hm. apply does_bind; [by apply does_remove_locked|]. intros [r|]; [|apply does_ret].
  apply does_bind; [apply does_remove_tail|intros; apply does_ret].
Qed.
Hypothesis Hexpire : ∀ id, may (LRemove id false).
Lemma does_Terminate id code now : (∀ norm, Normalize unicode_upper id = Some norm → may (LRemove norm true)) →
  does (TerminateBroadcast opts unicode_upper id code now).
Proof. intros Hm. unfold TerminateBroadcast. destruct (Normalize _ id); [by apply does_remove, Hm|apply does_ret]. Qed.
Lemma does_End id now : does (EndBroadcast opts unicode_upper id now).
Proof. unfold EndBroadcast. destruct (Normalize _ id); [by apply does_remove|apply does_ret]. Qed.
Lemma does_EndWithCode id code now : does (EndBroadcastWithCode opts unicode_upper id code now).
Proof. unfold EndBroadcastWithCode. destruct (Normalize _ id); [by apply does_remove|apply does_ret]. Qed.
Lemma does_ExpireEdge id now : does (ExpireEdgeIfViewerless opts unicode_upper id now).
Proof.
  unfold ExpireEdgeIfViewerless. destruct (Normalize _ id); [|apply does_ret].
  apply does_bind; [by apply does_remove|]. intros []; [apply does_ret|by apply does_keeps].
Qed.
Lemma does_Stop p now : may (LClose p) → does (PublisherStop opts p now).
Proof.
  intros Hm. apply does_bind; [by apply does_PublisherClose|]. intros _. apply does_bind; [by apply does_keeps|]. intros pt.
  apply does_bind; [by apply does_keeps|]. intros h. by apply does_remove.
Qed.

(** ** Grace timers *)

Lemma does_fires t : does (timer_fires t).
Proof. intros k Hk. apply runs_htail, runs_timers, runs_ret. apply (one_step _ _ Plain); [done|]. by constructor. Qed.
(** The locked part of the callback: the timer has run by then, and if a hub
    still pointed to it, that hub is removed. *)
Lemma runs_callback k t tm now : CI None k → k_timers k !! t = Some tm →
  runs (k_set_timers (alter (set_t_state (λ _, Ran)) t) k)
    (remove_locked (t_id tm) (λ _ h, b_generation h =? t_gen tm) false now) (λ _, steps k).
Proof.
  intros Hk Ht. set (tf := alter _ _).
  assert (Hran : (∀ b h, k_heap k !! b = Some h → hc_timer h ≠ Some t) → steps k (k_set_timers tf k)).
  { intros Hno. apply (one_step _ _ Plain); [done|]. by constructor. }
  assert (Hown : ∀ b h, k_heap k !! b = Some h → hc_timer h = Some t →
    k_hubs k !! t_id tm = Some b ∧ hc_gen h = t_gen tm ∧ hc_active h = false).
  { intros b h Hb Hth. pose proof (ci_hub _ _ Hk _ _ Hb) as Hok.
    destruct (ho_timer _ _ _ _ Hok _ Hth) as [Hr (tm' & Ht' & Hi & Hgen & _)].
    rewrite Ht in Ht'. injection Ht' as <-. rewrite Hi. split_and!; [done|done|].
    destruct (hc_active h) eqn:Ha; [|done]. destruct (ho_live _ _ _ _ Hok Ha). congruence. }
  apply runs_remove_locked; [done| | |].
  - intros Hnone. apply Hran. intros b h Hb Hth. destruct (Hown b h Hb Hth). congruence.
  - intros b h h0 Hf Hb E0 G. apply Hran. intros b' h' Hb' Hth.
    destruct (Hown b' h' Hb' Hth) as (Hf' & Hgen & Ha). assert (b' = b) as -> by congruence.
    assert (h' = h) as -> by congruence. rewrite Ha in G. cbn in G.
    change (b_generation h0) with (hc_gen (hub_core_of h0)) in G. by rewrite E0, Hgen, Z.eqb_refl in G.
  - intros b h h0 f r Hf Hb E0 Hact _ Hft _ _. specialize (Hact eq_refl).
    destruct (CI_registered _ _ _ _ Hk Hf) as (h' & Hb' & Hid & Hr). rewrite Hb in Hb'. injection Hb' as <-.
    destruct (decide (hc_timer h = Some t)) as [Hth|Hth].
    + apply (one_step _ _ (LRemove (hc_id h) false)); [done|].
      apply (st_remove opts k b h (f ∘ tf) false); [done..|]. apply only_timer_comp; [|done].
      rewrite Hth. apply only_timer_alter.
    + eapply rtc_trans; [apply Hran|].
      * intros b' h' Hb' Hth'. destruct (Hown b' h' Hb' Hth') as (Hf' & _).
        assert (b' = b) as -> by congruence. congruence.
      * apply (one_step _ _ (LRemove (hc_id h) false)); [done|].
        by apply (st_remove opts (k_set_timers tf k) b h f false).
Qed.
Lemma does_callback t now : does (timer_callback opts t now).
Proof.
  intros k Hk. unfold timer_callback. apply runs_gets. intros g Hg.
  assert (E : h_timers g = k_timers k) by by subst k. rewrite E.
  destruct (k_timers k !! t) as [tm|] eqn:Ht; [|by apply runs_ret, rtc_refl].
  case_bool_decide as Hst; [|by apply runs_ret, rtc_refl].
  apply runs_timers. unfold handleGraceExpiry, expireBroadcast, removeBroadcast.
  apply runs_bind. apply runs_bind. eapply runs_mono; [by apply runs_callback|]. intros [r|] k' Hk'; [|by apply runs_ret, runs_ret].
  apply runs_bind. eapply runs_mono; [apply does_remove_tail; by apply (steps_CI opts may k)|]. intros [] k'' Hk''.
  apply runs_ret, runs_ret. cbv beta in *. by eapply rtc_trans.
Qed.
End Sections.

(** ** Media *)

Lemma keeps_fan_write l g : (∀ e x, e ∈ l → h_subs g !! fst e = Some x → internal (cfg (snd e)) = sub_internal x) →
  core_of (snd (forM l (λ e, upd_sub (fst e) (set_s_sub (λ _, snd e))) g)) = core_of g.
Proof.
  revert g. induction l as [|[s q] l IH]; intros g Hl; [done|]. cbn [forM].
  unfold mbind at 1, st_bind, upd_sub at 1, modify. cbn [fst snd].
  set (g1 := set_h_subs _ g).
  assert (E : core_of g1 = core_of g).
  { unfold core_of, g1; cbn. f_equal. apply map_eq. intros i. rewrite !lookup_fmap.
    destruct (decide (i = s)) as [->|]; [|by rewrite lookup_alter_ne]. rewrite lookup_alter_eq.
    destruct (h_subs g !! s) as [x|] eqn:Hx; [|done]. cbn. f_equal. unfold sub_core; cbn. f_equal.
    unfold sub_internal; cbn. apply (Hl (s, q) x); [by left|done]. }
  rewrite IH; [done|]. intros e x He Hx.
  assert (∃ x0, h_subs g !! fst e = Some x0 ∧ sub_internal x0 = sub_internal x) as (x0 & Hx0 & <-).
  { apply (f_equal k_subs) in E. cbn in E. apply (f_equal (.!! fst e)) in E. rewrite !lookup_fmap in E.
    unfold g1 in E. cbn in E. cbn in Hx. rewrite Hx in E. cbn in E.
    destruct (h_subs g !! fst e) as [x0|]; [|done]. exists x0. split; [done|]. injection E. congruence. }
  apply Hl; [by right|done].
Qed.
Lemma keeps_hub_fan b dgram now : keeps (hub_fan b dgram now).
Proof.
  intros g. unfold hub_fan, mbind, st_bind. cbn [get_hub gets]. set (h := hub_of g b).
  rewrite fan_subs. cbn [subs]. set (l := zip (b_subs h) _).
  assert (Hl : ∀ e x, e ∈ l → h_subs g !! fst e = Some x → internal (cfg (snd e)) = sub_internal x).
  { intros [s q] x Hin Hx. cbn in *. unfold l in Hin. rewrite !map_map in Hin.
    assert (Hq : q = routed dgram now (s_sub (sub_of g s))).
    { clear - Hin. induction (b_subs h) as [|s' l' IH]; cbn in Hin; [by apply not_elem_of_nil in Hin|].
      apply elem_of_cons in Hin as [[= -> ->]|Hin]; [done|by apply IH]. }
    subst q. unfold sub_of, routed. rewrite Hx. cbn. unfold sub_internal. by destruct (wants _ _ _). }
  pose proof (keeps_fan_write l g Hl) as E. destruct (forM l _ g) as [[] g1]. cbn in E. rewrite <- E.
  by apply (keeps_upd_hub b).
Qed.
End Steps.
#[export] Hint Resolve keeps_hub_fan : hubkeeps.

Section MediaSteps.
Context (opts : Options) (CodecFamily : bytes → bytes) (ExtradataHeight : bytes → bytes → Z)
  (KeyframeHeight : bytes → Z).
#[local] Notation HandleDatagram := (HandleDatagram CodecFamily ExtradataHeight).

Lemma keeps_HandleDatagram p dgram now : keeps (HandleDatagram p dgram now).
Proof.
  assert (Hobs : ∀ h a b c, hub_core_of (observed h a b c) = hub_core_of h).
  { intros h a b c. unfold observed. by destruct (observeChunk _ _ _ _) as [[? ?]|]. }
  assert (Hconf : keeps (noteConfig CodecFamily ExtradataHeight p dgram)) by (unfold noteConfig; hubkeeps_tac).
  assert (Hrel : keeps (relayDatagram p dgram now)) by (unfold relayDatagram; hubkeeps_tac).
  assert (Hclk : keeps (relayClockMapping p dgram now)) by (unfold relayClockMapping; hubkeeps_tac).
  assert (Haud : keeps (relayAudioConfig p dgram now)) by (unfold relayAudioConfig; hubkeeps_tac).
  assert (Hvc : keeps (relayViewerCount p dgram now)).
  { unfold relayViewerCount, cacheAndFanViewerCountLocked. hubkeeps_tac. }
  assert (Hvid : ∀ hdr, keeps (relayVideoChunk p hdr dgram now)).
  { intros hdr. unfold relayVideoChunk. hubkeeps_tac. by apply keeps_upd_hub. }
  unfold HandleDatagram, countBad.
  repeat first [by eauto 1 with nocore|hubkeeps_step].
Qed.
Hint Resolve keeps_HandleDatagram : hubkeeps.

Lemma runs_onKeyframeLocked k p msg hdr now Q : CI None k →
  (∀ r, Q r k) →
  (∀ r b h, k_heap k !! b = Some h → hc_pub h = Some p → k_registered k b h → Q r (k_set_hub b (hc_set_kf (Some msg) h) k)) →
  runs k (onKeyframeLocked CodecFamily ExtradataHeight KeyframeHeight p msg hdr now) Q.
Proof.
  intros Hk Hno Hc. unfold onKeyframeLocked. destruct (splitKeyframe msg hdr) as [conf payload].
  apply runs_get_pub; [intros x Hp|intros Hp; apply runs_ret, Hno].
  destruct (p_closed x) eqn:Hx; [apply runs_ret, Hno|]. unfold pub_core in Hp. rewrite Hx in Hp.
  destruct (CI_open_pub _ _ _ _ _ Hk Hp) as (h & Hb & Hpub & _ & _ & Hr & _).
  apply (runs_upd_hub _ _ _ h (hc_set_kf (Some msg) h)); [done|intros h' E; by hub_at E|].
  hkeep. hkeep. hkeep. apply runs_keep; [|intros []].
  { apply keeps_upd_hub. intros x'. unfold observed. by destruct (observeChunk _ _ _ _) as [[? ?]|]. }
  hkeep. hkeep. by apply runs_ret, (Hc _ _ h).
Qed.
Section Keyframes.
Context (may : label → Prop).
Hypothesis Hplain : may Plain.
#[local] Notation does := (does opts may).
Lemma does_onKeyframe p msg hdr now : does (onKeyframe CodecFamily ExtradataHeight KeyframeHeight p msg hdr now).
Proof.
  apply does_bind; [|intros r; apply does_keeps; hubkeeps_tac].
  intros k Hk. apply runs_onKeyframeLocked; [done|intros; apply rtc_refl|]. intros r b h Hb _ Hr.
  by apply (one_step _ _ Plain), st_prime.
Qed.
Lemma does_IngestKeyframeStream p stream now :
  does (IngestKeyframeStream opts CodecFamily ExtradataHeight KeyframeHeight p stream now).
Proof.
  unfold IngestKeyframeStream, countBad, countKeyframeOversize.
  repeat first [apply does_onKeyframe | apply does_keeps; solve [hubkeeps_tac]
    | apply does_bind; [|intros ?] | case_match].
Qed.
End Keyframes.
Lemma keeps_carrier_loop fuel p stream fin now :
  keeps (carrier_loop CodecFamily ExtradataHeight fuel p stream fin now).
Proof.
  revert stream. induction fuel as [|fuel IH]; intros stream; cbn [carrier_loop]; [hubkeeps_tac|].
  unfold countBad, admitUplinkRecord.
  repeat first [apply IH | hubkeeps_step].
Qed.
Lemma keeps_IngestUplinkCarrier p stream fin now :
  keeps (IngestUplinkCarrier CodecFamily ExtradataHeight p stream fin now).
Proof.
  unfold IngestUplinkCarrier, acquireUplinkCarrier, releaseUplinkCarrier, countBad.
  repeat first [apply keeps_carrier_loop | hubkeeps_step].
Qed.

(** *** The sweep and the pump *)
Lemma keeps_sweep_loop now l : keeps (sweep_loop opts now l).
Proof.
  induction l as [|[id b] l IH]; cbn [sweep_loop]; [hubkeeps_tac|]. unfold sweep_hub.
  repeat first [apply IH | hubkeeps_step].
Qed.
Lemma sweep_loop_none now l k : PublisherStallEnds opts = false →
  runs k (sweep_loop opts now l) (λ r k', k' = k ∧ snd r = []).
Proof.
  intros He. revert k. induction l as [|[i b'] l IH]; intros k; cbn [sweep_loop]; [by apply runs_ret|].
  apply runs_bind. unfold sweep_hub.
  hkeep. hkeep. hkeep. hkeep. hkeep. apply runs_ret. rewrite He, !andb_false_r. cbn [andb snd].
  apply runs_bind. eapply runs_mono; [apply IH|]. intros [ts ids] k' [-> E]. by apply runs_ret.
Qed.
Lemma does_Sweep may unicode_upper now : may Plain → (∀ id, may (LRemove id false)) →
  (PublisherStallEnds opts = true → ∀ id, may (LRemove id true)) →
  does opts may (SweepStalledPublishers opts unicode_upper now).
Proof.
  intros Hp Hx Hm. unfold SweepStalledPublishers. destruct (PublisherStallEnds opts) eqn:He.
  - apply does_bind; [by apply does_keeps|intros l]. apply does_bind; [apply does_keeps, keeps_sweep_loop|intros r].
    apply does_bind; [apply does_keeps; hubkeeps_tac|intros _]. apply does_bind; [apply does_keeps; hubkeeps_tac|intros _].
    apply does_forM. intros id. apply does_bind; [|intros; apply does_ret]. apply does_Terminate; auto.
  - intros k Hk. apply runs_keep; [done|intros l].
    apply runs_bind. eapply runs_mono; [by apply sweep_loop_none|]. intros r k' [-> E]. rewrite E.
    cbn [forM]. apply runs_keep_last; [hubkeeps_tac|intros; apply rtc_refl].
Qed.
Lemma keeps_pump_loop now l : keeps (pump_loop opts now l).
Proof.
  induction l as [|[id b] l IH]; cbn [pump_loop]; [hubkeeps_tac|]. unfold pump_hub, cacheAndFanViewerCountLocked.
  repeat first [apply IH | hubkeeps_step].
Qed.
Lemma keeps_Pump now : keeps (PumpViewerCounts opts now).
Proof. unfold PumpViewerCounts. repeat first [apply keeps_pump_loop | hubkeeps_step]. Qed.
End MediaSteps.
