(* ===== verification/HubRun.v ===== *)
(** internal/hub: runs of the registry.

    [op] lists the critical sections other goroutines can interleave, and the
    calls made of several of them. [reachable g]: some sequence of operations leads from
    [NewRegistry] to [g]. *)
From S2P Require Export HubSteps.
#[local] Open Scope Z_scope.

Inductive op :=
  | OStart (id : bytes) (draws : list (list bytes)) (rnd : bytes) (now : Z)
  | OResume (id rnd : bytes) (now : Z)
  | OEdge (id rnd : bytes) (now : Z)
  | OTakeOver (id rnd : bytes) (now : Z)
  | OInvalidate (id : bytes)
  (* a publisher session *)
  | OBindConn (p : nat) | OBindSend (p : nat)
  | OSession (p : nat) (sessionID : bytes) | OKind (p : nat) (kind : bytes)
  | OClient (p : nat) (info : bytes * bytes * bytes)
  | ODatagram (p : nat) (dgram : bytes) (now : Z)
  | OKeyframe (p : nat) (stream : bytes) (now : Z)
  | OCarrier (p : nat) (stream : bytes) (fin : bool) (now : Z)
  | OClose (p : nat) (now : Z)
  | OStop (p : nat) (now : Z)
  (* a subscriber session *)
  | OSubscribe (id : bytes) (so : subscribeOpts) (now : Z)
  | OCloseBegin (s : nat) | OCloseFold (s : nat) | OSubClose (s : nat)
  | OLegAlive (s : nat) (now : Z) | OLegLease (s : nat) (lease now : Z)
  | ODownstream (s : nat) (n : Z) | OSubSession (s : nat) (sessionID : bytes)
  | OStripeState (s : nat) (st : StripeState.StripeState) (now : Z)
  | OSubCount (s : nat) (k : counter) (n : Z)
  | OBandwidth (b : nat) (n : Z) | OBandwidthBytes (b : nat) (n : Z)
  (* the end of a broadcast *)
  | OEnd (id : bytes) (now : Z) | OEndWithCode (id : bytes) (code now : Z)
  | OTerminate (id : bytes) (code now : Z) | OExpireEdge (id : bytes) (now : Z)
  | OCloseInternal (id : bytes) (code : Z)
  | ORemoveLocked (id : bytes) (ok : nat → broadcastHub → bool) (force : bool) (now : Z)
  | OTimerFires (t : nat) | OTimerCallback (t : nat) (now : Z)
  | OSweep (now : Z) | OPump (now : Z).

(** [NewRegistry] fills in a grace *)
Lemma grace_default o : 0 < BroadcastGrace (with_defaults o).
Proof. cbn. destruct (Z.leb_spec (BroadcastGrace o) 0); lia. Qed.

Section Run.
Context (opts : Options) (unicode_upper stripeOwnerKey : bytes → bytes).
Context (CodecFamily : bytes → bytes) (ExtradataHeight : bytes → bytes → Z) (KeyframeHeight : bytes → Z).

(** the fold of a Close that was begun; a drain goroutine counts until then *)
Definition fold_once (s : nat) : St unit :=
  x ← get_sub s; if s_closed x && negb (s_folded x) then close_fold s else skip.
Definition drain_count (s : nat) (k : counter) (n : Z) : St unit :=
  x ← get_sub s; if s_folded x || (n <? 0) || negb (bool_decide (k ∈ folded_at_close)) then skip else sub_count s k n.

Definition drop_result {A} (m : St A) : St unit := _ ← m; skip.
Definition exec (o : op) : St unit :=
  match o with
  | OStart id draws rnd now => drop_result (StartPublish opts unicode_upper id draws rnd now)
  | OResume id rnd now => drop_result (ResumePublish opts unicode_upper id rnd now)
  | OEdge id rnd now => drop_result (EdgePublish opts unicode_upper id rnd now)
  | OTakeOver id rnd now => drop_result (TakeOverPublish opts unicode_upper id rnd now)
  | OInvalidate id => InvalidatePrimes unicode_upper id
  | OBindConn p => drop_result (BindConn p)
  | OBindSend p => BindSend p
  | OSession p id => SetTelemetrySession p id
  | OKind p kind => SetKind p kind
  | OClient p info => SetClient p info
  | ODatagram p d now => HandleDatagram CodecFamily ExtradataHeight p d now
  | OKeyframe p stream now =>
      drop_result (IngestKeyframeStream opts CodecFamily ExtradataHeight KeyframeHeight p stream now)
  | OCarrier p stream fin now => drop_result (IngestUplinkCarrier CodecFamily ExtradataHeight p stream fin now)
  | OClose p now => PublisherClose opts p now
  | OStop p now => drop_result (PublisherStop opts p now)
  | OSubscribe id so now => drop_result (subscribeOpts_ opts unicode_upper stripeOwnerKey id so now)
  | OCloseBegin s => drop_result (close_begin s)
  | OCloseFold s => fold_once s
  | OSubClose s => Close_ s
  | OLegAlive s now => NoteLegAlive s now
  | OLegLease s lease now => drop_result (legLeaseWatch s lease now)
  | ODownstream s n => RecordDownstreamViewers s n
  | OSubSession s id => SetSubscriberSession s id
  | OStripeState s st now => SetStripeState s st now
  | OSubCount s k n => drain_count s k n
  | OBandwidth b n => countBandwidthDrop b (Z.max 0 n)
  | OBandwidthBytes b n => countBandwidthDropBytes b (Z.max 0 n)
  | OEnd id now => drop_result (EndBroadcast opts unicode_upper id now)
  | OEndWithCode id code now => drop_result (EndBroadcastWithCode opts unicode_upper id code now)
  | OTerminate id code now => drop_result (TerminateBroadcast opts unicode_upper id code now)
  | OExpireEdge id now => drop_result (ExpireEdgeIfViewerless opts unicode_upper id now)
  | OCloseInternal id code => CloseInternalSubscribers unicode_upper id code
  | ORemoveLocked id ok force now => drop_result (remove_locked id ok force now)
  | OTimerFires t => timer_fires t
  | OTimerCallback t now => timer_callback opts t now
  | OSweep now => SweepStalledPublishers opts unicode_upper now
  | OPump now => PumpViewerCounts opts now
  end.
Definition run (l : list op) (g : Registry) : Registry := fold_left (λ g o, snd (exec o g)) l g.
Definition reachable (g : Registry) : Prop := ∃ l, g = run l NewRegistry.

Lemma run_app l l' g : run (l ++ l') g = run l' (run l g).
Proof. apply fold_left_app. Qed.
Lemma reachable_invariant (I : Registry → Prop) : I NewRegistry → (∀ o, preserves I (exec o)) →
  ∀ g, reachable g → I g.
Proof.
  intros H0 Hs g [l ->]. revert H0. generalize NewRegistry. induction l as [|o l IH]; intros g Hg; [done|].
  apply (IH (snd (exec o g))). by apply Hs.
Qed.

Hypothesis Hgrace : 0 < BroadcastGrace opts.

(** what an operation may end *)
Definition may_end (o : op) (l : label) : Prop :=
  match l with
  | Plain | LRemove _ false => True
  | LTake id => match o with OTakeOver id' _ _ => Normalize unicode_upper id' = Some id | _ => False end
  | LClose p => match o with OClose q _ | OStop q _ => q = p | _ => False end
  | LRemove id true =>
      match o with
      | OTerminate id' _ _ => Normalize unicode_upper id' = Some id
      | ORemoveLocked id' _ force _ => force = true ∧ id' = id
      | OSweep _ => PublisherStallEnds opts = true
      | _ => False
      end
  end.

Lemma does_exec o : does opts (may_end o) (exec o).
Proof.
  assert (Hp : may_end o Plain) by done. assert (Hx : ∀ id, may_end o (LRemove id false)) by done.
  destruct o; cbn [exec]; try (apply does_bind; [|intros; apply does_ret]);
    first
    [ by apply does_StartPublish | by apply does_ResumePublish | by apply does_EdgePublish
    | by apply does_TakeOverPublish | by apply does_InvalidatePrimes | by apply does_PublisherClose
    | by apply does_Stop | by apply does_close_begin | by apply does_SubscriberClose | by apply does_legLease
    | by apply does_IngestKeyframeStream | by apply does_End | by apply does_EndWithCode | by apply does_Terminate
    | by apply does_ExpireEdge | by apply does_CloseInternal | by apply does_fires
    | by apply does_callback | by apply does_Sweep
    | apply does_bind; [by apply does_subscribeOptsLocked|intros r; apply does_keeps; destruct r as [[? [[? ?]|]]|?|]; hubkeeps_tac]
    | apply does_remove_locked; by destruct force
    | apply does_keeps ].
  all: first
    [ apply keeps_BindConn | apply keeps_BindSend | apply keeps_SetTelemetrySession | apply keeps_SetKind
    | apply keeps_SetClient | apply keeps_HandleDatagram | apply keeps_IngestUplinkCarrier | apply keeps_NoteLegAlive
    | apply keeps_RecordDownstreamViewers | apply keeps_SetSubscriberSession | apply keeps_SetStripeState
    | apply keeps_bandwidth | apply keeps_bandwidth_bytes | apply keeps_Pump
    | unfold fold_once, drain_count; hubkeeps_tac ].
Qed.
(** an invariant of the machine is one of the registry *)
Lemma exec_invariant (I : core → Prop) o g :
  (∀ l k k', CI None k → may_end o l → hub_step opts l k k' → I k → I k') →
  CI None (core_of g) → I (core_of g) → CI None (core_of (snd (exec o g))) ∧ I (core_of (snd (exec o g))).
Proof.
  intros HI Hk Hi. pose proof (does_exec o (core_of g) Hk g eq_refl) as Hs. cbv beta in Hs.
  split; [by apply (steps_CI opts (may_end o) (core_of g))|by apply (steps_invariant opts (may_end o) I HI (core_of g))].
Qed.
Lemma reachable_core (I : core → Prop) : I (core_of NewRegistry) →
  (∀ l k k', CI None k → hub_step opts l k k' → I k → I k') →
  ∀ g, reachable g → CI None (core_of g) ∧ I (core_of g).
Proof.
  intros H0 HI. apply (reachable_invariant (λ g, CI None (core_of g) ∧ I (core_of g))).
  - split; [apply CI_hub_empty|done].
  - intros o g [Hk Hi]. apply exec_invariant; [|done|done]. intros l k k' Hk' _. by apply HI.
Qed.
Lemma reachable_CI g : reachable g → CI None (core_of g).
Proof. by apply (reachable_core (λ _, True)). Qed.
End Run.
