(* ===== verification/HubLife.v ===== *)
(** internal/hub: the life of a broadcast. A live broadcast outlives everything
    but its own publisher, a takeover and an operator; an abandoned one ends. *)
From S2P Require Export HubRun.
#[local] Open Scope Z_scope.

(** ** A live broadcast *)

(** publisher [p] holds the slot of hub [b], registered under [id] *)
Definition Live (id : bytes) (b p : nat) (k : core) : Prop :=
  k_hubs k !! id = Some b ∧ ∃ h, k_heap k !! b = Some h ∧ hc_pub h = Some p.

Section Live.
Context (opts : Options) (id : bytes) (b p : nat).
#[local] Notation Live := (Live id b p).

Lemma Live_active k : CI None k → Live k → ∃ h, k_heap k !! b = Some h ∧ hc_pub h = Some p ∧ hc_active h = true.
Proof.
  intros Hk (_ & h & Hb & Hp). exists h. split_and!; [done..|].
  by rewrite (ho_active _ _ _ _ (ci_hub _ _ Hk _ _ Hb)), Hp.
Qed.
(** a change of another hub, or one that leaves the slot alone *)
Lemma Live_other k b' h' : b' ≠ b → Live k → Live (k_set_hub b' h' k).
Proof. intros Hn (Hr & h & Hb & Hp). split; [done|]. exists h. cbn. by rewrite lookup_insert_ne. Qed.
Lemma Live_hub k b' h h' : k_heap k !! b' = Some h → hc_pub h' = hc_pub h → Live k → Live (k_set_hub b' h' k).
Proof.
  intros Hb Hp Hl. destruct (decide (b' = b)) as [->|]; [|by apply Live_other].
  destruct Hl as (Hr & h0 & Hb0 & Hp0). split; [done|]. exists h'. split; [apply hub_heap_set|]. congruence.
Qed.
Lemma live_ne k b' h : CI None k → Live k → k_heap k !! b' = Some h → k_registered k b' h → hc_id h ≠ id → b' ≠ b.
Proof.
  intros Hk (Hr & _) Hb' _ Hn ->. destruct (CI_registered _ _ _ _ Hk Hr) as (h0 & Hb & E & _). congruence.
Qed.

(** the steps that may end this broadcast, or take it over *)
Definition fatal (l : label) : Prop := l = LTake id ∨ l = LClose p ∨ l = LRemove id true.
Lemma step_live l k k' : CI None k → ¬ fatal l → hub_step opts l k k' → Live k → Live k'.
Proof.
  intros Hk Hf Hs Hl. destruct (Live_active k Hk Hl) as (h1 & Hb1 & Hp1 & Ha1). revert Hk Hl Hf Hb1.
  assert (Hact : ∀ b' h, k_heap k !! b' = Some h → hc_active h = false → k_heap k !! b = Some h1 → b' ≠ b).
  { intros b' h Hb' Ha Hb1 ->. congruence. }
  revert Hact.
  destruct Hs as [k0 id' f Hn Hf0 | k0 b' h f Hb Hr Ha Hf0 | k0 b' h f Hb Hr Hf0 | k0 p' b' h at_ Hb Hp | k0 b' h m Hb Hr
    | k0 b' h i Hb Hr Hi | k0 s b' h i Hb Hs | k0 b' h f force Hb Hr Ha Hf0 | k0 t | k0 t Hno]; intros Hact Hk Hl Hf Hb1.
  - unfold claim_core, new_hub_core. destruct Hl as (Hr & h & Hb & Hp). split; cbn.
    + rewrite lookup_insert_ne; [done|]. congruence.
    + destruct (ci_next _ _ Hk _ (le_n _)) as (Hnone & _). exists h. rewrite !lookup_insert_ne; [done|congruence..].
  - apply Live_other; [by apply (Hact b' h)|done].
  - assert (Hne : b' ≠ b). { apply (live_ne k0 b' h); try done. intros E. apply Hf. left. by rewrite E. }
    apply Live_other; [done|]. unfold release_core, k_set_pub, k_alloc, k_set_timers, k_set_hub, close_pub.
    destruct Hl as (Hr' & h0 & Hb0 & Hp0). split; [by destruct (hc_pub h)|]. exists h0.
    destruct (hc_pub h); cbn; rewrite lookup_insert_ne; done.
  - assert (Hne : b' ≠ b). { intros ->. apply Hf. right. left. f_equal. congruence. }
    apply Live_other; [done|]. unfold close_pub. by destruct (hc_pub h).
  - by apply (Live_hub _ _ h).
  - by apply (Live_hub _ _ h).
  - by apply (Live_hub _ _ h).
  - assert (Hne : b' ≠ b).
    { destruct force; [|by apply (Hact b' h), Hb1; auto]. apply (live_ne k0 b' h); try done. intros E. apply Hf. right. right. by rewrite E. }
    apply Live_other; [done|]. destruct Hl as (Hr' & h0 & Hb0 & Hp0). split.
    + assert (hc_id h ≠ id) as Hid. { intros E. unfold k_registered in Hr. congruence. }
      unfold close_pub; destruct (hc_pub h); cbn; by rewrite lookup_delete_ne.
    + exists h0. unfold close_pub; by destruct (hc_pub h).
  - done.
  - done.
Qed.
End Live.

Section Theorems.
Context (o : Options) (unicode_upper stripeOwnerKey : bytes → bytes).
Context (CodecFamily : bytes → bytes) (ExtradataHeight : bytes → bytes → Z) (KeyframeHeight : bytes → Z).
#[local] Notation opts := (with_defaults o).
#[local] Notation run := (run opts unicode_upper stripeOwnerKey CodecFamily ExtradataHeight KeyframeHeight).
#[local] Notation reachable := (reachable opts unicode_upper stripeOwnerKey CodecFamily ExtradataHeight KeyframeHeight).

(** C22. In every reachable registry: the index names hubs by their own ID, a hub is
    active exactly when an open publisher of its generation holds its slot, its
    subscribers are its open sessions, an abandoned registered broadcast has a
    grace timer pending for it, and a removed hub keeps neither slot nor
    keyframe. *)
Theorem registry_wf g : reachable g → CI None (core_of g).
Proof. apply reachable_CI, grace_default. Qed.

(** C3. A live broadcast survives: whatever else happens in the registry, it stays
    registered with its publisher in the slot, until that publisher closes or
    stops, its code is taken over, an operator terminates it, or (when
    configured) a stall sweep ends it. *)
Theorem live_survives g id b p l : reachable g →
  h_hubs g !! id = Some b → b_publisher (hub_of g b) = Some p →
  Forall (λ x, ∀ l, may_end opts unicode_upper x l → ¬ fatal id p l) l →
  let g' := run l g in
  h_hubs g' !! id = Some b ∧ b_publisher (hub_of g' b) = Some p ∧
  b_active (hub_of g' b) = true ∧ p_closed (pub_of g' p) = false.
Proof.
  intros Hg Hr Hp Hl. cbn zeta. pose proof (reachable_CI _ _ _ _ _ _ (grace_default o) g Hg) as Hk.
  assert (Hlive : CI None (core_of g) ∧ Live id b p (core_of g)).
  { split; [done|]. split; [done|]. eexists. by split; [apply (registered_hub g id)|]. }
  assert (Hend : CI None (core_of (run l g)) ∧ Live id b p (core_of (run l g))).
  { clear - Hl Hlive. revert g Hlive. induction Hl as [|x l Hx _ IH]; intros g [Hk Hlv]; [done|].
    apply (IH (snd (exec _ _ _ _ _ _ x g))).
    apply exec_invariant; [apply grace_default| |done|done]. intros lb k k' Hk' Hm Hs.
    apply (step_live opts id b p lb); auto. }
  destruct Hend as [Hk' Hl']. destruct (Live_active id b p _ Hk' Hl') as (h & Hb & Hpub & Ha).
  pose proof (core_hub _ _ _ Hb) as E. pose proof (ho_pub _ _ _ _ (ci_hub _ _ Hk' _ _ Hb) _ Hpub) as Hpp.
  pose proof (core_pub _ _ _ Hpp) as E'. split_and!.
  - apply Hl'.
  - change (b_publisher (hub_of ?g b)) with (hc_pub (hub_core_of (hub_of g b))). by rewrite E.
  - change (b_active (hub_of ?g b)) with (hc_active (hub_core_of (hub_of g b))). by rewrite E.
  - by injection E'.
Qed.


(** C24. A deposed publisher can do nothing: what it still sends is dropped (at most
    counted as bad), its keyframes reach neither cache nor subscribers, and its
    Close and Stop leave the registry as it is, unless for Stop its own
    generation is still the one registered and waits in its grace. *)
Theorem deposed_inert g p dgram msg hdr now : p_closed (pub_of g p) = true →
  let b := p_hub (pub_of g p) in
  let seen := snd (NoteSeen p now g) in
  (snd (HandleDatagram CodecFamily ExtradataHeight p dgram now g) = seen ∨
   snd (HandleDatagram CodecFamily ExtradataHeight p dgram now g) = snd (count b BadDatagrams 1 seen)) ∧
  onKeyframeLocked CodecFamily ExtradataHeight KeyframeHeight p msg hdr now g = (([], 0), g) ∧
  PublisherClose opts p now g = (tt, g) ∧
  (h_hubs g !! b_id (hub_of g b) ≠ Some b ∨ b_active (hub_of g b) = true ∨
   b_generation (hub_of g b) ≠ p_generation (pub_of g p) → PublisherStop opts p now g = (false, g)).
Proof.
  intros Hc b seen. split_and!.
  - assert (Hp : pub_of seen p = set_p_lastSeen (λ _, now) (pub_of g p) ∨ pub_of seen p = pub_of g p).
    { unfold seen, pub_of; cbn. rewrite lookup_alter_eq. by destruct (h_pubs g !! p); [left|right]. }
    assert (Hcs : p_closed (pub_of seen p) = true) by by destruct Hp as [-> | ->].
    assert (Hbs : p_hub (pub_of seen p) = b) by by destruct Hp as [-> | ->].
    assert (Hskip : ∀ (m : Publisher → St unit) c, (∀ x, m x = if p_closed x then skip else c x) →
      snd ((pt ← get_pub p; m pt) seen) = seen).
    { intros m c Hm. unfold mbind, st_bind. cbn [get_pub gets]. by rewrite Hm, Hcs. }
    assert (Hrel : snd (relayDatagram p dgram now seen) = seen) by by eapply Hskip.
    assert (Hclk : snd (relayClockMapping p dgram now seen) = seen) by by eapply Hskip.
    assert (Haud : snd (relayAudioConfig p dgram now seen) = seen) by by eapply Hskip.
    assert (Hvid : ∀ hd, snd (relayVideoChunk p hd dgram now seen) = seen) by by intros; eapply Hskip.
    assert (Hvc : snd (relayViewerCount p dgram now seen) = seen).
    { unfold relayViewerCount, mbind, st_bind. cbn [get_pub get_hub gets]. by rewrite Hcs. }
    assert (Hcf : noteConfig CodecFamily ExtradataHeight p dgram seen = (tt, seen)).
    { unfold noteConfig, mbind, st_bind. cbn [get_pub gets]. by rewrite Hcs. }
    enough (Hall : ∀ g2, snd (HandleDatagram CodecFamily ExtradataHeight p dgram now g) = g2 →
      g2 = seen ∨ g2 = snd (count b BadDatagrams 1 seen)) by auto.
    intros g2. unfold HandleDatagram. unfold mbind at 1 2, st_bind at 1 2.
    destruct (NoteSeen p now g) as [[] g1] eqn:E. change (snd (tt, g1)) with g1 in *. subst seen.
    cbn [get_pub gets]. rewrite Hbs. unfold countBad.
    repeat case_match; intros <-; auto.
    left. unfold mbind, st_bind. by rewrite Hcf.
  - unfold onKeyframeLocked. destruct (splitKeyframe msg hdr). unfold mbind, st_bind; cbn. by rewrite Hc.
  - unfold PublisherClose, mbind, st_bind; cbn. by rewrite Hc.
  - intros Hend. unfold PublisherStop, mbind, st_bind.
    assert (PublisherClose opts p now g = (tt, g)) as -> by (unfold PublisherClose, mbind, st_bind; cbn; by rewrite Hc).
    cbn [get_pub get_hub gets]. unfold removeBroadcast, remove_locked, mbind, st_bind. cbn [gets].
    fold b. destruct (h_hubs g !! b_id (hub_of g b)) as [b'|] eqn:Hr; [|done]. cbn [get_hub gets].
    destruct ((negb false && b_active (hub_of g b')) || negb _) eqn:G; [done|exfalso].
    cbn [negb andb] in G. apply orb_false_iff in G as [Ga Gb]. apply negb_false_iff, andb_true_iff in Gb as [Gn Gg].
    apply Nat.eqb_eq in Gn as ->. apply Z.eqb_eq in Gg. fold b in Hr. destruct Hend as [E|[E|E]]; congruence.
Qed.
End Theorems.
