(* ===== verification/HubGone.v ===== *)
(** internal/hub: what the end of a broadcast does, in full: who is closed and
    told, in which order, and what is left of its hub. *)
From S2P Require Export HubLife.
#[local] Open Scope Z_scope.

(** ** Closing the subscribers of a removed hub *)

Definition shut (x : HubSubscriber) : HubSubscriber :=
  set_s_folded (λ _, true) (set_s_closed (λ _, true) x).
Definition without (s : nat) : list nat → list nat := List.filter (λ s', negb (Nat.eqb s' s)).

Lemma forM_totals (l : list counter) (f : counter → Z) g :
  ∃ t, forM l (λ k, total_count k (f k)) g = (tt, set_h_total (λ _, t) g).
Proof.
  revert g. induction l as [|k l IH]; intros g; cbn [forM]; [by exists (h_total g); destruct g|].
  unfold mbind, st_bind, total_count at 1, modify. cbn [fst snd].
  destruct (IH (set_h_total (bump k (f k)) g)) as [t ->]. by exists t.
Qed.

(** what the end of one session touches *)
Record session_ended (g g' : Registry) (b s : nat) (code : Z) : Prop := {
  se_subs : h_subs g' = alter shut s (h_subs g);
  se_heap : h_heap g' = alter (set_b_subs (without s)) b (h_heap g);
  se_hubs : h_hubs g' = h_hubs g;
  se_pubs : h_pubs g' = h_pubs g;
  se_log : h_log g' = h_log g ++ [SubscriberClosed s code];
}.
Lemma end_session_gone code s g x : h_subs g !! s = Some x → s_closed x = false →
  registered g (s_hub x) = false →
  ∃ g', end_session code s g = (tt, g') ∧ session_ended g g' (s_hub x) s code.
Proof.
  intros Hs Hc Hr. set (b := s_hub x) in *.
  set (g1 := set_h_log (λ l, l ++ [SubscriberClosed s code]) g).
  set (g2 := set_h_heap (alter (set_b_subs (without s)) b) (set_h_subs (alter (set_s_closed (λ _, true)) s) g1)).
  assert (Hs2 : sub_of g2 s = set_s_closed (λ _, true) x).
  { unfold sub_of, g2; cbn. by rewrite lookup_alter_eq, Hs. }
  assert (Hr2 : registered g2 b = false).
  { unfold registered. rewrite (hub_of_alter (set_b_subs (without s)) b b g g2); done. }
  assert (Hl : orphaned g2 s = []).
  { unfold orphaned. rewrite Hs2. change (s_hub (set_s_closed (λ _, true) x)) with b. rewrite Hr2.
    by destruct (_ || _ || _). }
  assert (Hbegin : close_begin s g1 = (Some [], g2)).
  { unfold close_begin, get_sub, upd_sub, upd_hub. rewrite bind_gets.
    assert (sub_of g1 s = x) as -> by (unfold sub_of; cbn; by rewrite Hs). rewrite Hc, !bind_modify. fold b.
    change (set_h_heap _ _) with g2. rewrite (bind_run _ _ _ [] g2); [done|].
    unfold orphanedLegsLocked, get_sub. by rewrite !bind_gets, Hl. }
  unfold end_session, Close_, emit. rewrite bind_modify. fold g1. cbn [SubscriberClose].
  rewrite (bind_run _ _ _ _ _ Hbegin). cbn [forM]. unfold skip. rewrite (bind_run _ _ _ tt g2 eq_refl).
  unfold close_fold, get_sub. rewrite !bind_gets, Hs2.
  change (s_hub (set_s_closed (λ _, true) x)) with b. rewrite Hr2.
  destruct (forM_totals folded_at_close (λ k, counter_of_sub (set_s_closed (λ _, true) x) k) g2) as [t E].
  rewrite (bind_run _ _ _ _ _ E). eexists. split; [reflexivity|]. split; try done.
  cbn. by rewrite alter_twice.
Qed.

(** all of them, one after the other *)
Lemma end_sessions_gone code b l g : NoDup l → registered g b = false →
  (∀ s, s ∈ l → ∃ x, h_subs g !! s = Some x ∧ s_closed x = false ∧ s_hub x = b) →
  ∃ g', forM l (end_session code) g = (tt, g') ∧
    (∀ s, h_subs g' !! s = if bool_decide (s ∈ l) then shut <$> h_subs g !! s else h_subs g !! s) ∧
    h_heap g' = alter (set_b_subs (λ subs, fold_left (λ subs s, without s subs) l subs)) b (h_heap g) ∧
    h_hubs g' = h_hubs g ∧ h_pubs g' = h_pubs g ∧ h_log g' = h_log g ++ map (λ s, SubscriberClosed s code) l.
Proof.
  revert g. induction l as [|s l IH]; intros g Hnd Hr Hl.
  { exists g. cbn. split_and!; try done.
    - apply map_eq. intros i. destruct (decide (i = b)) as [->|]; [|by rewrite lookup_alter_ne].
      rewrite lookup_alter_eq. by destruct (h_heap g !! b) as [[]|].
    - by rewrite app_nil_r. }
  apply NoDup_cons in Hnd as [Hs Hnd]. destruct (Hl s) as (x & Hx & Hc & <-); [by left|].
  destruct (end_session_gone code s g x Hx Hc Hr) as (g1 & E1 & [S1 S2 S3 S4 S5]).
  cbn [forM]. rewrite (bind_run _ _ _ _ _ E1).
  destruct (IH g1 Hnd) as (g' & E' & T1 & T2 & T3 & T4 & T5).
  - unfold registered. rewrite S3, (hub_of_alter (set_b_subs (without s)) (s_hub x) (s_hub x) g g1 S2); done.
  - intros s' Hin. destruct (Hl s') as (x' & Hx' & ?); [by right|]. exists x'. rewrite S1.
    rewrite lookup_alter_ne; [done|]. by intros ->.
  - exists g'. split_and!; [done| | |congruence|congruence|].
    + intros s'. rewrite T1, S1. destruct (decide (s' = s)) as [->|Hne].
      * rewrite lookup_alter_eq, (bool_decide_eq_false_2 (s ∈ l)), bool_decide_eq_true_2 by (done || by left). done.
      * rewrite lookup_alter_ne by done. assert (s' ∈ s :: l ↔ s' ∈ l) as E.
        { rewrite elem_of_cons. naive_solver. } by rewrite (bool_decide_ext _ _ E).
    + by rewrite T2, S2, alter_twice.
    + rewrite T5, S5, <- app_assoc. done.
Qed.

(** ** The locked part of a removal *)

(** what it leaves alone *)
Definition left_alone (g : Registry) :=
  (h_subs g, h_log g, p_conn <$> h_pubs g, b_edge <$> h_heap g).
Ltac alone_step :=
  first [ done
        | apply keeps_bind; [|intros ?]
        | apply keeps_forM; intros ?
        | intros ?; unfold left_alone; cbn; rewrite fmap_alter_same by done; reflexivity
        | case_match ].
Lemma remove_leaves_alone id ok force now : StateM.keeps left_alone (remove_locked id ok force now).
Proof.
  unfold remove_locked, setPublisherKindLocked, foldIngressLocked, stop_grace, stop_timer.
  repeat (cbv beta zeta; alone_step).
Qed.

(** what it returns, and the last thing it does *)
Definition purged (b : nat) (g : Registry) : Prop :=
  b_primes (hub_of g b) = no_primes ∧ b_dvr (hub_of g b) = None ∧ b_dvrAudio (hub_of g b) = None ∧
  b_graceStart (hub_of g b) = None.
Definition returns {A} (Q : A → Registry → Prop) (m : St A) : Prop := ∀ g, Q (fst (m g)) (snd (m g)).
Lemma returns_bind {A B} Q (m : St A) (f : A → St B) : (∀ a, returns Q (f a)) → returns Q (m ≫= f).
Proof. intros Hf g. unfold mbind, st_bind. destruct (m g) as [a g']. apply Hf. Qed.

Lemma remove_returns id ok force now g b : h_hubs g !! id = Some b →
  (negb force && b_active (hub_of g b)) || negb (ok b (hub_of g b)) = false →
  ∃ r, fst (remove_locked id ok force now g) = Some r ∧ r_end r = broadcast_end g (hub_of g b) now ∧
    let g' := snd (remove_locked id ok force now g) in
    r_subs r = b_subs (hub_of g' b) ∧ r_edge r = b_edge (hub_of g' b) ∧ purged b g'.
Proof.
  intros Hb Hg. unfold remove_locked, get_hub. rewrite bind_gets, Hb. cbv iota. rewrite bind_gets, Hg. cbv iota.
  rewrite bind_modify, bind_gets.
  change (broadcast_end (set_h_hubs (delete id) g)) with (broadcast_end g).
  generalize (broadcast_end g (hub_of g b) now). intros ending. generalize (set_h_hubs (delete id) g). intros g0.
  match goal with |- ∃ r, fst (?m g0) = _ ∧ _ => set (rest := m) end.
  assert (HQ : returns (λ r g', ∃ d, r = Some (MkRemoval d (b_subs (hub_of g' b)) (b_edge (hub_of g' b)) ending) ∧ purged b g') rest).
  { unfold rest. do 8 (apply returns_bind; intros ?). intros g1. unfold upd_hub. rewrite bind_modify, bind_gets. cbn [fst snd mret st_ret].
    eexists. split; [done|]. unfold purged, hub_of; cbn. rewrite lookup_alter_eq.
    by destruct (h_heap g1 !! b). }
  destruct (HQ g0) as (d & E & Hp). eexists. rewrite E. split; [done|]. by split_and!; try done; destruct Hp as (?&?&?&?).
Qed.

(** ** A removal, in full *)

Lemma elem_of_subs_without s s' l : s' ∈ without s l ↔ s' ∈ l ∧ s' ≠ s.
Proof. unfold without. by rewrite !list_elem_of_In, List.filter_In, negb_true_iff, Nat.eqb_neq. Qed.
Lemma without_all l subs : (∀ s, s ∈ subs → s ∈ l) → fold_left (λ subs s, without s subs) l subs = [].
Proof.
  revert subs. induction l as [|s l IH]; intros subs Hin; cbn.
  - destruct subs as [|s subs]; [done|]. specialize (Hin s (list_elem_of_here _ _)). by apply not_elem_of_nil in Hin.
  - apply IH. intros s' [H' Hne]%elem_of_subs_without. apply Hin, elem_of_cons in H' as [->|]; done.
Qed.

Section Tells.
Context (opts : Options).

(** who is told what, in order: the publisher's session, the subscribers', then,
    for an origin, the hooks and the bus *)
Definition removal_log (g : Registry) (b : nat) (id : bytes) (code now : Z) : list effect :=
  let h := hub_of g b in
  match b_publisher h with
  | Some p => if p_conn (pub_of g p) then [PublisherClosed p code] else []
  | None => []
  end ++
  map (λ s, SubscriberClosed s code) (b_subs h) ++
  (if negb (b_edge h) && HasOnBroadcastExpired opts then [OnBroadcastExpired id] else []) ++
  match broadcast_end g h now with
  | Some (d, peak) => if HasOnOriginEnded opts then [OnOriginEnded d peak] else []
  | None => []
  end ++
  (if negb (b_edge h) && HasOnEvent opts
   then [Bus (MkBus id (popOf opts id) (BroadcastEnded (bus_reason code)))] else []).

(** the state after a removal of hub [b] from [g] *)
Record removed (g g' : Registry) (b : nat) (id : bytes) (code now : Z) : Prop := {
  rm_index : h_hubs g' = delete id (h_hubs g);
  rm_hub : b_active (hub_of g' b) = false ∧ b_publisher (hub_of g' b) = None ∧ b_subs (hub_of g' b) = [];
  rm_purged : purged b g';
  rm_pub : ∀ p, b_publisher (hub_of g b) = Some p → p_closed (pub_of g' p) = true;
  rm_subs : ∀ s, s ∈ b_subs (hub_of g b) → s_closed (sub_of g' s) = true ∧ s_folded (sub_of g' s) = true;
  rm_log : h_log g' = h_log g ++ removal_log g b id code now;
}.

(** the tail: hooks and bus after the sessions *)
Lemma tail_log (r : removal) id code g : ∃ g',
  (_ ← (if negb (r_edge r) && HasOnBroadcastExpired opts then emit (OnBroadcastExpired id) else skip);
   _ ← (match r_end r with
        | Some (d, peak) => if HasOnOriginEnded opts then emit (OnOriginEnded d peak) else skip
        | None => skip
        end);
   if negb (r_edge r) then busEnded opts id (bus_reason code) else skip) g = (tt, g') ∧
  g' = set_h_log (λ l, l ++
    (if negb (r_edge r) && HasOnBroadcastExpired opts then [OnBroadcastExpired id] else []) ++
    match r_end r with
    | Some (d, peak) => if HasOnOriginEnded opts then [OnOriginEnded d peak] else []
    | None => []
    end ++
    (if negb (r_edge r) && HasOnEvent opts
     then [Bus (MkBus id (popOf opts id) (BroadcastEnded (bus_reason code)))] else [])) g.
Proof.
  eexists. split; [|reflexivity]. destruct g. unfold busEnded, emitEvent, mbind, st_bind.
  destruct (negb (r_edge r)), (HasOnBroadcastExpired opts), (r_end r) as [[d peak]|], (HasOnOriginEnded opts),
    (HasOnEvent opts); unfold emit, modify; cbn; unfold set_h_log; cbn; by rewrite ?app_nil_r, <- ?app_assoc.
Qed.

(** what the locked part leaves for the tail *)
Record unhooked (g g1 : Registry) (b : nat) (id : bytes) (r : removal) (now : Z) : Prop := {
  uh_deposed : r_deposed r = b_publisher (hub_of g b);
  uh_subs : r_subs r = b_subs (hub_of g b) ∧ b_subs (hub_of g1 b) = b_subs (hub_of g b);
  uh_edge : r_edge r = b_edge (hub_of g b);
  uh_end : r_end r = broadcast_end g (hub_of g b) now;
  uh_index : h_hubs g1 = delete id (h_hubs g);
  uh_hub : is_Some (h_heap g1 !! b) ∧ b_id (hub_of g1 b) = id ∧ b_active (hub_of g1 b) = false ∧
    b_publisher (hub_of g1 b) = None;
  uh_purged : purged b g1;
  uh_pub : ∀ p, b_publisher (hub_of g b) = Some p →
    p_closed (pub_of g1 p) = true ∧ p_conn (pub_of g1 p) = p_conn (pub_of g p);
  uh_rest : h_subs g1 = h_subs g ∧ h_log g1 = h_log g;
}.
Lemma ahead_index k tf g : core_of g = k_set_timers tf k → k_hubs k = h_hubs g.
Proof. intros Hg. by apply (f_equal k_hubs) in Hg. Qed.
(** [g] may be ahead of a well-formed registry by a timer that has run *)
Lemma locked_unhooks k tf g id ok force now b : CI None k → core_of g = k_set_timers tf k →
  h_hubs g !! id = Some b → (negb force && b_active (hub_of g b)) || negb (ok b (hub_of g b)) = false →
  ∃ r g1, remove_locked id ok force now g = (Some r, g1) ∧ unhooked g g1 b id r now.
Proof.
  intros Hk Hg Hb G. destruct (remove_returns id ok force now g b Hb G) as (r & Er & Hend & Hsubs & Hedge & Hpurge).
  pose proof (remove_leaves_alone id ok force now g) as Halone.
  assert (Hbk : k_hubs k !! id = Some b) by by rewrite (ahead_index _ _ _ Hg).
  destruct (CI_registered _ _ _ _ Hk Hbk) as (h & Hh & Hid & _).
  assert (Hhg : hub_core_of (hub_of g b) = h) by by apply core_hub; rewrite Hg.
  assert (Hcore : runs (k_set_timers tf k) (remove_locked id ok force now) (λ r k', ∀ r0, r = Some r0 →
    r_deposed r0 = hc_pub h ∧ r_subs r0 = hc_subs h ∧ ∃ f,
    k' = k_set_hub b (hc_with false None (hc_gen h) None None h)
      (close_pub b h (k_set_hubs (delete (hc_id h)) (k_set_timers f k))))).
  { apply runs_remove_locked; [done|done|done|]. intros b' h' h0 f r0 Hb' Hh' _ _ _ _ Hd Hs r1 [= <-].
    assert (b' = b) as -> by congruence. assert (h' = h) as -> by congruence. split_and!; [done|done|]. by eexists. }
  specialize (Hcore g Hg r Er). destruct Hcore as (Hdep & Hsubs' & f & Ek).
  destruct (remove_locked id ok force now g) as [ro g1] eqn:E1. cbn [fst snd] in *. subst ro.
  exists r, g1. split; [done|]. unfold left_alone in Halone. injection Halone as As Al Ac Ae.
  assert (Hh1 : hub_core_of (hub_of g1 b) = hc_with false None (hc_gen h) None None h).
  { apply core_hub. rewrite Ek. apply lookup_insert_eq. }
  split; try done.
  - rewrite Hdep, <- Hhg. done.
  - rewrite Hsubs', <- Hhg. split; [done|]. rewrite <- Hhg in Hh1. exact (f_equal hc_subs Hh1).
  - rewrite Hedge. apply (f_equal (.!! b)) in Ae. rewrite !lookup_fmap in Ae. unfold hub_of.
    destruct (h_heap g1 !! b), (h_heap g !! b); cbn in *; congruence.
  - change (h_hubs g1) with (k_hubs (core_of g1)). change (h_hubs g) with (k_hubs (core_of g)). rewrite Ek, Hg.
    unfold close_pub. rewrite <- Hid. by destruct (hc_pub h).
  - split_and!; [|rewrite <- Hid; exact (f_equal hc_id Hh1)|exact (f_equal hc_active Hh1)|exact (f_equal hc_pub Hh1)].
    apply (f_equal (λ k, k_heap k !! b)) in Ek. cbn in Ek. rewrite lookup_fmap, lookup_insert_eq in Ek.
    by destruct (h_heap g1 !! b).
  - intros p Hp. split.
    + assert (Hpc : pub_core (pub_of g1 p) = (b, true, hc_gen h)); [|by injection Hpc].
      apply core_pub. rewrite Ek. cbn. unfold close_pub. rewrite <- Hhg. cbn. rewrite Hp. apply lookup_insert_eq.
    + apply (f_equal (.!! p)) in Ac. rewrite !lookup_fmap in Ac. unfold pub_of.
      destruct (h_pubs g1 !! p), (h_pubs g !! p); cbn in *; congruence.
Qed.

(** the tail tells the deposed session, then ends the subscribers' *)
Lemma deposed_log g g1 b id r code now : unhooked g g1 b id r now →
  close_deposed (r_deposed r) code g1 = (tt, set_h_log (λ l, l ++ match b_publisher (hub_of g b) with
    | Some p => if p_conn (pub_of g p) then [PublisherClosed p code] else []
    | None => []
    end) g1).
Proof.
  intros U. rewrite (uh_deposed _ _ _ _ _ _ U).
  assert (En : set_h_log (λ l, l ++ []) g1 = g1) by (destruct g1; unfold set_h_log; cbn; by rewrite app_nil_r).
  destruct (b_publisher (hub_of g b)) as [p|] eqn:Hp; [|unfold close_deposed; by rewrite En].
  unfold close_deposed, get_pub. rewrite bind_gets. destruct (uh_pub _ _ _ _ _ _ U p Hp) as [_ ->].
  destruct (p_conn (pub_of g p)); [done|by rewrite En].
Qed.
Lemma tail_removes g g1 b id r code now : unhooked g g1 b id r now → NoDup (b_subs (hub_of g b)) →
  (∀ s, s ∈ b_subs (hub_of g b) → ∃ x, h_subs g !! s = Some x ∧ s_closed x = false ∧ s_hub x = b) →
  removed g (snd (remove_tail opts id code r g1)) b id code now.
Proof.
  intros U Hnd Hin. pose proof (deposed_log _ _ _ _ _ code _ U) as Hcd.
  set (g2 := set_h_log _ g1) in Hcd. destruct (uh_rest _ _ _ _ _ _ U) as [As Al].
  destruct (uh_hub _ _ _ _ _ _ U) as (Hsome & Hid & Hact & Hpub).
  destruct (end_sessions_gone code b (b_subs (hub_of g b)) g2 Hnd) as (g3 & E3 & S1 & S2 & S3 & S4 & S5).
  { unfold registered. change (h_hubs g2) with (h_hubs g1). change (hub_of g2 b) with (hub_of g1 b).
    by rewrite (uh_index _ _ _ _ _ _ U), Hid, lookup_delete_eq. }
  { change (h_subs g2) with (h_subs g1). by rewrite As. }
  destruct (tail_log r id code g3) as (g4 & E4 & Hg4).
  assert (Etail : remove_tail opts id code r g1 = (tt, g4)).
  { unfold remove_tail. destruct (uh_subs _ _ _ _ _ _ U) as [Hs _].
    rewrite (bind_run _ _ _ _ _ Hcd), Hs, (bind_run _ _ _ _ _ E3). exact E4. }
  rewrite Etail. cbn [snd].
  assert (Hhub : hub_of g4 b = set_b_subs (λ subs, fold_left (λ subs s, without s subs) (b_subs (hub_of g b)) subs) (hub_of g1 b)).
  { rewrite Hg4. unfold hub_of; cbn. rewrite S2. change (h_heap g2) with (h_heap g1). rewrite lookup_alter_eq.
    by destruct Hsome as [h1 ->]. }
  split.
  - rewrite Hg4; cbn. by rewrite S3, <- (uh_index _ _ _ _ _ _ U).
  - rewrite Hhub; cbn. split_and!; [done|done|]. apply without_all.
    destruct (uh_subs _ _ _ _ _ _ U) as [_ ->]. done.
  - unfold purged. rewrite Hhub. by destruct (uh_purged _ _ _ _ _ _ U) as (? & ? & ? & ?).
  - intros p Hp. destruct (uh_pub _ _ _ _ _ _ U p Hp) as [<- _]. rewrite Hg4. unfold pub_of; cbn. by rewrite S4.
  - intros s Hs. rewrite Hg4. unfold sub_of; cbn. rewrite S1, bool_decide_eq_true_2 by done.
    change (h_subs g2) with (h_subs g1). rewrite As. by destruct (Hin s Hs) as (x & -> & _).
  - rewrite Hg4; cbn. rewrite S5. cbn. rewrite Al, (uh_end _ _ _ _ _ _ U), (uh_edge _ _ _ _ _ _ U). unfold removal_log.
    by rewrite <- !app_assoc.
Qed.

(** when the guard lets it through *)
Lemma remove_removes k tf g id ok force code now b : CI None k → core_of g = k_set_timers tf k →
  h_hubs g !! id = Some b → (negb force && b_active (hub_of g b)) || negb (ok b (hub_of g b)) = false →
  ∃ g', removeBroadcast opts id ok force code now g = (true, g') ∧ removed g g' b id code now.
Proof.
  intros Hk Hg Hb G. unfold removeBroadcast.
  destruct (locked_unhooks k tf g id ok force now b Hk Hg Hb G) as (r & g1 & E1 & U).
  rewrite (bind_run _ _ _ _ _ E1).
  assert (Hbk : k_hubs k !! id = Some b) by by rewrite (ahead_index _ _ _ Hg).
  destruct (CI_registered _ _ _ _ Hk Hbk) as (h & Hh & _ & _). pose proof (ci_hub _ _ Hk _ _ Hh) as Hok.
  assert (Hhg : hub_core_of (hub_of g b) = h) by by apply core_hub; rewrite Hg.
  assert (Hsl : b_subs (hub_of g b) = hc_subs h) by by rewrite <- Hhg.
  pose proof (tail_removes g g1 b id r code now U) as HR. rewrite Hsl in HR.
  destruct (remove_tail opts id code r g1) as [[] g'] eqn:E. rewrite (bind_run _ _ _ _ _ E). exists g'.
  split; [done|]. apply HR; [apply (ho_nodup _ _ _ _ Hok)|].
  intros s Hs. destruct (ho_subs _ _ _ _ Hok s Hs) as [i Hsi].
  change (k_subs k) with (k_subs (k_set_timers tf k)) in Hsi. rewrite <- Hg in Hsi. cbn in Hsi.
  rewrite lookup_fmap in Hsi. destruct (h_subs g !! s) as [x|]; [|done]. injection Hsi. by exists x.
Qed.
(** and otherwise *)
Lemma remove_keeps g id ok force code now :
  (∀ b, h_hubs g !! id = Some b → (negb force && b_active (hub_of g b)) || negb (ok b (hub_of g b)) = true) →
  removeBroadcast opts id ok force code now g = (false, g).
Proof.
  intros Hb. unfold removeBroadcast. rewrite (bind_run _ _ _ None g); [done|].
  unfold remove_locked, get_hub. rewrite bind_gets. destruct (h_hubs g !! id) as [b|]; [|done].
  rewrite bind_gets. by rewrite (Hb b eq_refl).
Qed.
End Tells.

Section Theorems.
Context (o : Options) (unicode_upper stripeOwnerKey : bytes → bytes).
Context (CodecFamily : bytes → bytes) (ExtradataHeight : bytes → bytes → Z) (KeyframeHeight : bytes → Z).
#[local] Notation opts := (with_defaults o).
#[local] Notation reachable := (reachable opts unicode_upper stripeOwnerKey CodecFamily ExtradataHeight KeyframeHeight).

(** C4. A removal either finds nothing to do and changes nothing, or removes the
    whole broadcast: the code is free, the hub holds neither publisher,
    subscribers, primes nor rings, its publisher and every subscriber are
    closed (their counters folded), and they are told, with the hooks and the
    bus, in a fixed order. It passes a live broadcast by unless it forces. *)
Theorem removal_tells g id ok force code now : reachable g →
  match h_hubs g !! id with
  | Some b =>
      if (force || negb (b_active (hub_of g b))) && ok b (hub_of g b) then
        ∃ g', removeBroadcast opts id ok force code now g = (true, g') ∧ removed opts g g' b id code now
      else removeBroadcast opts id ok force code now g = (false, g)
  | None => removeBroadcast opts id ok force code now g = (false, g)
  end.
Proof.
  intros Hg. pose proof (reachable_CI _ _ _ _ _ _ (grace_default o) g Hg) as Hk.
  destruct (h_hubs g !! id) as [b|] eqn:Hb; [|apply remove_keeps; congruence].
  destruct ((force || _) && _) eqn:G.
  - apply (remove_removes _ (core_of g) Datatypes.id); [done|by rewrite k_set_timers_id|done|].
    destruct force, (b_active (hub_of g b)), (ok b (hub_of g b)); done.
  - apply remove_keeps. intros b' [= <-]%(eq_trans (eq_sym Hb)).
    destruct force, (b_active (hub_of g b)), (ok b (hub_of g b)); done.
Qed.

(** C21. An abandoned broadcast ends: a registered broadcast with no publisher has a
    grace timer, and when that timer has fired and its callback runs, the
    broadcast is removed, every subscriber closed with 4000. *)
Theorem abandoned_ends g id b now : reachable g →
  h_hubs g !! id = Some b → b_active (hub_of g b) = false →
  ∃ t, b_graceTimer (hub_of g b) = Some t ∧
    removed opts g (snd (timer_callback opts t now (snd (timer_fires t g)))) b id CloseCodeBroadcastEnded now.
Proof.
  intros Hg Hb Ha. pose proof (reachable_CI _ _ _ _ _ _ (grace_default o) g Hg) as Hk.
  destruct (CI_registered _ _ _ _ Hk Hb) as (h & Hh & Hid & Hr). pose proof (ci_hub _ _ Hk _ _ Hh) as Hok.
  pose proof (core_hub _ _ _ Hh) as Eh.
  assert (Hact : hc_active h = false) by by rewrite <- Eh.
  destruct (ho_grace _ _ _ _ Hok Hr Hact) as [t Ht]; [done|]. exists t.
  split; [rewrite <- Eh in Ht; exact Ht|].
  destruct (ho_timer _ _ _ _ Hok t Ht) as [_ (tm & Htm & Hti & Htg & Hst)].
  change (k_timers (core_of g)) with (h_timers g) in Htm.
  set (g1 := snd (timer_fires t g)).
  assert (Hk1 : CI None (core_of g1)) by by apply (CI_fire None (core_of g) t).
  set (tm1 := set_t_state (λ s, if bool_decide (s = Armed) then Fired else s) tm).
  assert (Htm1 : h_timers g1 !! t = Some tm1) by (unfold g1; cbn; by rewrite lookup_alter_eq, Htm).
  unfold timer_callback. rewrite bind_gets, Htm1. cbv iota.
  assert (t_state tm1 = Fired) as -> by (unfold tm1; cbn; by destruct Hst as [-> | ->]).
  rewrite bool_decide_eq_true_2 by done. rewrite bind_modify.
  set (tf := alter (set_t_state (λ _, Ran)) t). set (g2 := set_h_timers tf g1).
  unfold handleGraceExpiry, expireBroadcast. change (t_id tm1) with (t_id tm). change (t_gen tm1) with (t_gen tm).
  destruct (remove_removes opts (core_of g1) tf g2 (t_id tm) (λ _ h, b_generation h =? t_gen tm) false
    CloseCodeBroadcastEnded now b) as (g' & E & R); [done|done| | |].
  - by rewrite Hti, Hid.
  - change (hub_of g2 b) with (hub_of g b). rewrite Ha, Htg, <- Eh. cbn. by rewrite Z.eqb_refl.
  - rewrite (bind_run _ _ _ _ _ E). cbn [snd skip mret st_ret]. rewrite Hti, Hid in R. destruct R; by split.
Qed.
End Theorems.
