(* ===== verification/HubAcc.v ===== *)
(** internal/hub: the counters. Each lives on a subscriber, then on its hub, then
    in the totals; what is [accounted] for never decreases, and a scrape of a
    quiet registry reports exactly that. *)
From S2P Require Export MapSum HubRun.
#[local] Open Scope Z_scope.

(** ** What is accounted for *)

Definition hub_count (g : Registry) (k : counter) (b : nat) : Z := counter_of_hub (hub_of g b) k.
(** a subscriber's counters, until Close folds them *)
Definition unfolded (k : counter) (x : HubSubscriber) : Z := if s_folded x then 0 else counter_of_sub x k.
Definition accounted (g : Registry) (k : counter) : Z :=
  h_total g k + msum (hub_count g k) (h_hubs g) + msum (unfolded k) (h_subs g).

(** counters are not negative, a subscriber has those Close folds, handles in
    use are older than the next *)
Record Counted (g : Registry) : Prop := {
  ct_hub : ∀ b h k, h_heap g !! b = Some h → 0 ≤ counter_of_hub h k;
  ct_sub : ∀ s x k, h_subs g !! s = Some x → 0 ≤ counter_of_sub x k;
  ct_sub_only : ∀ s x k, h_subs g !! s = Some x → k ∉ folded_at_close → counter_of_sub x k = 0;
  ct_index : ∀ id b, h_hubs g !! id = Some b → is_Some (h_heap g !! b);
  ct_next : ∀ n, (h_next g ≤ n)%nat → h_heap g !! n = None ∧ h_subs g !! n = None;
}.
(** [D] is accounted for, at least *)
Definition Acc (D : counts) (g : Registry) : Prop := Counted g ∧ ∀ k, D k ≤ accounted g k.
Definition grows {A} (m : St A) : Prop := ∀ D, preserves (Acc D) m.

Lemma grows_ret {A} (a : A) : grows (mret a).
Proof. intros D. apply preserves_ret. Qed.
Lemma grows_gets {A} (f : Registry → A) : grows (gets f).
Proof. intros D. apply preserves_gets. Qed.
Lemma grows_skip : grows skip.
Proof. intros D. apply preserves_skip. Qed.
Lemma grows_bind {A B} (m : St A) (f : A → St B) : grows m → (∀ a, grows (f a)) → grows (m ≫= f).
Proof. intros Hm Hf D. apply preserves_bind; [apply Hm|intros; apply Hf]. Qed.
Lemma grows_forM {A} (l : list A) (f : A → St unit) : (∀ a, grows (f a)) → grows (forM l f).
Proof. intros Hf D. apply preserves_forM. intros; apply Hf. Qed.

(** *** Elementary changes *)

(** the counters of a hub or a subscriber do not go down *)
Definition hub_le (h h' : broadcastHub) : Prop := ∀ k, counter_of_hub h k ≤ counter_of_hub h' k.
Definition sub_le (x x' : HubSubscriber) : Prop :=
  s_folded x' = s_folded x ∧ (∀ k, counter_of_sub x k ≤ counter_of_sub x' k) ∧
  ∀ k, k ∉ folded_at_close → counter_of_sub x' k = counter_of_sub x k.
Lemma hub_le_refl h h' : b_n h' = b_n h → b_fan h' = b_fan h → hub_le h h'.
Proof. intros E1 E2 k. unfold counter_of_hub. by rewrite E1, E2. Qed.
Lemma sub_le_refl x x' : s_folded x' = s_folded x → s_n x' = s_n x → s_sub x' = s_sub x → sub_le x x'.
Proof.
  intros E0 E1 E2. unfold sub_le, counter_of_sub. rewrite E1, E2. by split_and!.
Qed.
Lemma bump_ge k n t k' : 0 ≤ n → t k' ≤ bump k n t k'.
Proof. intros Hn. unfold bump. case_bool_decide; lia. Qed.

Lemma hub_of_upd b f g b' : hub_of (set_h_heap (alter f b) g) b' =
  if bool_decide (b' = b ∧ is_Some (h_heap g !! b)) then f (hub_of g b) else hub_of g b'.
Proof.
  unfold hub_of; cbn. destruct (decide (b' = b)) as [->|Hn].
  - rewrite lookup_alter_eq. destruct (h_heap g !! b); cbn; [by rewrite bool_decide_eq_true_2|].
    rewrite bool_decide_eq_false_2; [done|]. by intros [_ []].
  - rewrite lookup_alter_ne by done. rewrite bool_decide_eq_false_2; [done|]. tauto.
Qed.
Lemma Acc_upd_hub D g b f : Acc D g → (∀ h, h_heap g !! b = Some h → hub_le h (f h)) →
  Acc D (set_h_heap (alter f b) g).
Proof.
  intros [[C1 C2 C3 C4 C5] HD] Hf. split.
  - split; cbn; try done.
    + intros b' h k. destruct (decide (b' = b)) as [->|]; [|rewrite lookup_alter_ne by done; apply C1].
      rewrite lookup_alter_eq. destruct (h_heap g !! b) as [h0|] eqn:Hb; [|done]. cbn. intros [= <-].
      etrans; [by apply (C1 b h0 k)|by apply Hf].
    + intros id b' Hr. destruct (decide (b' = b)) as [->|]; [rewrite lookup_alter_eq|rewrite lookup_alter_ne by done]; [|eauto].
      destruct (C4 id b Hr) as [h ->]. by eexists.
    + intros n Hn. destruct (C5 n Hn) as [Hh Hs]. split; [|done]. destruct (decide (n = b)) as [->|].
      * by rewrite lookup_alter_eq, Hh.
      * by rewrite lookup_alter_ne.
  - intros k. etrans; [apply HD|]. unfold accounted; cbn. apply Z.add_le_mono_r, Z.add_le_mono_l, msum_le.
    intros id b' _. unfold hub_count. rewrite hub_of_upd. case_bool_decide as E; [|lia].
    destruct E as [-> [h Hh]]. unfold hub_of. rewrite Hh. by apply Hf.
Qed.
Lemma grows_upd_hub b f : (∀ h, hub_le h (f h)) → grows (upd_hub b f).
Proof. intros Hf D g HD. apply Acc_upd_hub; [done|]. intros h _. apply Hf. Qed.
Lemma Acc_upd_sub D g s f : Acc D g → (∀ x, h_subs g !! s = Some x → sub_le x (f x)) →
  Acc D (set_h_subs (alter f s) g).
Proof.
  intros [[C1 C2 C3 C4 C5] HD] Hf. split.
  - split; cbn; try done.
    + intros s' x k. destruct (decide (s' = s)) as [->|]; [|rewrite lookup_alter_ne by done; apply C2].
      rewrite lookup_alter_eq. destruct (h_subs g !! s) as [x0|] eqn:Hb; [|done]. cbn. intros [= <-].
      etrans; [by apply (C2 s x0 k)|by apply Hf].
    + intros s' x k. destruct (decide (s' = s)) as [->|]; [|rewrite lookup_alter_ne by done; apply C3].
      rewrite lookup_alter_eq. destruct (h_subs g !! s) as [x0|] eqn:Hb; [|done]. cbn. intros [= <-] Hk.
      rewrite (proj2 (proj2 (Hf x0 eq_refl)) k Hk). by apply (C3 s).
    + intros n Hn. destruct (C5 n Hn) as [Hh Hs]. split; [done|]. destruct (decide (n = s)) as [->|].
      * by rewrite lookup_alter_eq, Hs.
      * by rewrite lookup_alter_ne.
  - intros k. etrans; [apply HD|]. unfold accounted; cbn. apply Z.add_le_mono_l.
    apply (msum_alter_le (unfolded k)). intros x Hx. unfold unfolded. destruct (Hf x Hx) as (-> & Hle & _).
    destruct (s_folded x); [done|apply Hle].
Qed.
Lemma grows_upd_sub s f : (∀ x, sub_le x (f x)) → grows (upd_sub s f).
Proof. intros Hf D g HD. apply Acc_upd_sub; [done|]. intros x _. apply Hf. Qed.
Lemma grows_total k n : 0 ≤ n → grows (total_count k n).
Proof.
  intros Hn D. apply preserves_modify. intros g [[C1 C2 C3 C4 C5] HD]. split; [by split|].
  intros k'. etrans; [apply HD|]. unfold accounted; cbn. by apply Z.add_le_mono_r, Z.add_le_mono_r, bump_ge.
Qed.
Lemma grows_new : grows new.
Proof.
  intros D g [[C1 C2 C3 C4 C5] HD]. split; [|done]. split; try done. intros n Hn. cbn in Hn. apply C5. lia.
Qed.
Lemma hub_le_count k n h : 0 ≤ n → hub_le h (set_b_n (bump k n) h).
Proof.
  intros Hn k'. unfold counter_of_hub; cbn. pose proof (bump_ge k n (b_n h) k' Hn). lia.
Qed.
Lemma grows_count b k n : 0 ≤ n → grows (count b k n).
Proof. intros Hn. apply grows_upd_hub. intros h. by apply hub_le_count. Qed.
Lemma grows_sub_count s k n : 0 ≤ n → k ∈ folded_at_close → grows (sub_count s k n).
Proof.
  intros Hn Hk. apply grows_upd_sub. intros x. split_and!; [done| |].
  - intros k'. unfold counter_of_sub; cbn. pose proof (bump_ge k n (s_n x) k' Hn). lia.
  - intros k' Hk'. unfold counter_of_sub; cbn. unfold bump. rewrite bool_decide_eq_false_2; [done|].
    by intros ->.
Qed.

(** a change of what is not counted *)
Lemma grows_aside (f : Registry → Registry) :
  (∀ g, h_hubs (f g) = h_hubs g) → (∀ g, h_heap (f g) = h_heap g) → (∀ g, h_subs (f g) = h_subs g) →
  (∀ g, h_total (f g) = h_total g) → (∀ g, h_next (f g) = h_next g) → grows (modify f).
Proof.
  intros E1 E2 E3 E4 E5 D g [[C1 C2 C3 C4 C5] HD]. unfold modify; cbn [snd].
  split; [split; rewrite ?E1, ?E2, ?E3, ?E5; try done; intros; by rewrite E2, E3; apply C5; rewrite <- E5|].
  intros k. etrans; [apply HD|]. unfold accounted, hub_count, hub_of. rewrite E1, E3, E4.
  apply Z.add_le_mono_r, Z.add_le_mono_l, msum_le. intros. by rewrite E2.
Qed.

(** ** Walking through an operation *)

Create HintDb grows discriminated.
#[export] Hint Resolve grows_ret grows_gets grows_skip grows_new : grows.
#[export] Hint Extern 1 (grows (emit _)) => apply grows_aside; reflexivity : grows.
#[export] Hint Extern 1 (grows (get_hub _)) => apply grows_gets : grows.
#[export] Hint Extern 1 (grows (get_sub _)) => apply grows_gets : grows.
#[export] Hint Extern 1 (grows (get_pub _)) => apply grows_gets : grows.
#[export] Hint Extern 1 (grows (upd_pub _ _)) => apply grows_aside; reflexivity : grows.
#[export] Hint Extern 1 (grows (modify (set_h_timers _))) => apply grows_aside; reflexivity : grows.
#[export] Hint Extern 1 (grows (modify (set_h_pubs _))) => apply grows_aside; reflexivity : grows.
#[export] Hint Extern 1 (grows (modify (set_h_ingress _))) => apply grows_aside; reflexivity : grows.
#[export] Hint Extern 1 (grows (modify (set_h_edgeIngress _))) => apply grows_aside; reflexivity : grows.
#[export] Hint Extern 1 (grows (modify (set_h_popIngress _))) => apply grows_aside; reflexivity : grows.
#[export] Hint Extern 1 (grows (upd_hub _ _)) => apply grows_upd_hub; intros ?; apply hub_le_refl; reflexivity : grows.
#[export] Hint Extern 1 (grows (upd_sub _ _)) => apply grows_upd_sub; intros ?; apply sub_le_refl; reflexivity : grows.
#[export] Hint Extern 1 (grows (count _ _ _)) => apply grows_count; first [lia | apply zlen_nonneg] : grows.
#[export] Hint Extern 1 (grows (total_count _ _)) => apply grows_total; first [lia | apply zlen_nonneg] : grows.

Ltac grows_step :=
  match goal with
  | |- grows (mbind _ _) => apply grows_bind; [|intros ?]
  | |- grows (forM _ _) => apply grows_forM; intros ?
  | |- grows (let '_ := ?x in _) => destruct x
  | |- grows (match ?x with _ => _ end) => destruct x
  | |- grows (if ?b then _ else _) => destruct b
  | |- grows _ => solve [auto 2 with grows nocore]
  end.
Ltac grows_tac := repeat (cbv beta zeta; grows_step).

(** ** Media *)

Lemma purge_nonneg q : 0 ≤ fst (purge_split q).
Proof.
  induction q as [|d q IH]; cbn [purge_split]; [done|]. destruct (purge_split q) as [n keep].
  destruct (isCarrierMediaDatagram d); cbn in *; lia.
Qed.
Lemma enqueue_lanes_le c l d : let l' := enqueue_lanes c l d in
  dropped l ≤ dropped l' ∧ carrierRecordsDropped l ≤ carrierRecordsDropped l' ∧
  carrierQueueOverflow l ≤ carrierQueueOverflow l'.
Proof.
  cbn zeta. pose proof (purge_nonneg (queue l)) as Hp. unfold enqueue_lanes, purgeQueuedDeltasLocked.
  destruct (purge_split (queue l)) as [n keep]; cbn in Hp.
  repeat case_match; simplify_eq/=; lia.
Qed.
Lemma sub_le_enqueue x d : sub_le x (set_s_sub (λ q, enqueueLocked q d) x).
Proof.
  destruct (enqueue_lanes_le (cfg (s_sub x)) (lanes (s_sub x)) d) as (H1 & H2 & H3).
  split_and!; [done| |].
  - intros k. unfold counter_of_sub; cbn. destruct k; lia.
  - intros k Hk. unfold counter_of_sub; cbn. destruct k; try done; exfalso; apply Hk; set_solver.
Qed.
Lemma sub_le_stripe x st now : sub_le x (set_s_sub (λ q, ApplyStripeState q st now) x).
Proof.
  split_and!; [done| |].
  - intros k. unfold counter_of_sub, ApplyStripeState; cbn. destruct k; repeat case_match; cbn; lia.
  - intros k Hk. unfold counter_of_sub, ApplyStripeState; cbn. destruct k; repeat case_match; try done; exfalso; apply Hk; set_solver.
Qed.
Lemma sub_le_refl' x : sub_le x x.
Proof. by apply sub_le_refl. Qed.

(** the writes of a fan-out, each the same value however often it is made *)
Lemma grows_fan_write (q : nat → Subscriber) l D g :
  (∀ s x, s ∈ l → h_subs g !! s = Some x → sub_le x (set_s_sub (λ _, q s) x)) →
  Acc D g → Acc D (snd (forM (map (λ s, (s, q s)) l) (λ e, upd_sub (fst e) (set_s_sub (λ _, snd e))) g)).
Proof.
  revert g. induction l as [|s l IH]; intros g Hq HD; [done|]. cbn [map forM fst snd].
  rewrite (bind_run (upd_sub s (set_s_sub (λ _, q s))) _ _ tt _ eq_refl). apply IH.
  - intros s' x Hin. cbn. destruct (decide (s' = s)) as [->|Hn].
    + rewrite lookup_alter_eq. destruct (h_subs g !! s); [|done]. cbn. intros [= <-]. apply sub_le_refl'.
    + rewrite lookup_alter_ne by done. apply Hq. by right.
  - apply Acc_upd_sub; [done|]. intros x Hx. apply Hq; [by left|done].
Qed.
Lemma zip_map_self {A B} (f : A → B) l : zip l (map f l) = map (λ a, (a, f a)) l.
Proof. induction l as [|a l IH]; cbn; [done|]. f_equal. exact IH. Qed.
Lemma grows_hub_fan b dgram now : grows (hub_fan b dgram now).
Proof.
  intros D g HD. unfold hub_fan, get_hub. rewrite !bind_gets. cbv zeta. set (h := hub_of g b).
  set (r := fanOutLocked _ dgram now).
  assert (Hw : Acc D (snd (forM (zip (b_subs h) (subs r)) (λ e, upd_sub (fst e) (set_s_sub (λ _, snd e))) g))).
  { unfold r. rewrite fan_subs. cbn [subs]. rewrite !map_map, zip_map_self. apply grows_fan_write; [|done].
    intros s x _ Hx. unfold sub_of. rewrite Hx. cbn [default]. unfold routed. change (id x) with x.
    destruct (wants _ _ _); [apply sub_le_enqueue|by apply sub_le_refl]. }
  assert (Hh : ∀ g', snd (forM (zip (b_subs h) (subs r)) (λ e, upd_sub (fst e) (set_s_sub (λ _, snd e))) g) = g' → h_heap g' = h_heap g).
  { intros g' <-. generalize (zip (b_subs h) (subs r)). intros l. clear. revert g.
    induction l as [|e l IH]; intros g; [done|]. cbn [forM].
    rewrite (bind_run (upd_sub (fst e) (set_s_sub (λ _, snd e))) _ _ tt _ eq_refl). by rewrite IH. }
  destruct (forM _ _ g) as [[] g1] eqn:E1. cbn [snd] in *. rewrite (bind_run _ _ _ _ _ E1).
  apply Acc_upd_hub; [done|]. intros h1 Hh1. rewrite (Hh g1 eq_refl) in Hh1.
  assert (h1 = h) as ->. { unfold h, hub_of. by rewrite Hh1. }
  intros k. unfold counter_of_hub; cbn.
  pose proof (fan_counters (MkHub (map (λ s, s_sub (sub_of g s)) (b_subs h)) (b_fan h) (b_dvr h) (b_dvrAudio h)) dgram now) as (?&?&?&?).
  fold r in H, H0, H1, H2. cbn [counters] in *. destruct k; lia.
Qed.
#[export] Hint Resolve grows_hub_fan : grows.

(** ** New hubs and subscribers *)

Lemma zero_hub_counts k b id now : counter_of_hub (MkBHub id false [] [] [] None 0 None None None false false []
  no_primes 0 now ([], [], []) no_probe None 0 None None (MkPump 0 0 false) zero_counters no_counts reset zeroTally) k = 0
  ∧ counter_of_hub (hub_of (MkRegistry ∅ ∅ ∅ ∅ ∅ no_counts zeroTally zeroTally zeroTally 0 []) b) k = 0.
Proof. by destruct k. Qed.
Lemma hub_count_default g k b : h_heap g !! b = None → hub_count g k b = 0.
Proof. intros Hb. unfold hub_count, hub_of. rewrite Hb. by destruct k. Qed.

Lemma Acc_new_hub D g id now : Acc D g → h_hubs g !! id = None → Acc D (snd (newHubLocked id now g)).
Proof.
  intros [[C1 C2 C3 C4 C5] HD] Hid. unfold newHubLocked.
  rewrite (bind_run new _ _ _ _ eq_refl). rewrite !bind_modify. cbn [snd mret st_ret].
  destruct (C5 (h_next g) (le_n _)) as [Hh Hs].
  set (h0 := MkBHub id _ _ _ _ _ _ _ _ _ _ _ _ _ _ _ _ _ _ _ _ _ _ _ _ _ _).
  assert (H0 : ∀ k, counter_of_hub h0 k = 0) by by intros [].
  split.
  - split; cbn; try done.
    + intros b h k. destruct (decide (b = h_next g)) as [->|].
      * rewrite lookup_insert_eq. intros [= <-]. by rewrite H0.
      * rewrite lookup_insert_ne by done. apply C1.
    + intros id' b. destruct (decide (b = h_next g)) as [->|]; [by rewrite lookup_insert_eq|].
      rewrite (lookup_insert_ne (h_heap g)) by done. destruct (decide (id' = id)) as [->|].
      * rewrite lookup_insert_eq. by intros [= <-].
      * rewrite lookup_insert_ne by done. apply C4.
    + intros n Hn. rewrite lookup_insert_ne by lia. apply C5. lia.
  - intros k. etrans; [apply HD|]. unfold accounted; cbn. apply Z.add_le_mono_r, Z.add_le_mono_l.
    rewrite msum_insert by done.
    match goal with |- _ ≤ ?c + _ => assert (c = 0) as -> end.
    { unfold hub_count, hub_of; cbn. rewrite lookup_insert_eq. apply H0. }
    rewrite Z.add_0_l. apply msum_le. intros id' b Hb. unfold hub_count, hub_of; cbn.
    destruct (decide (b = h_next g)) as [->|Hn].
    + destruct (C4 _ _ Hb) as [? E]. congruence.
    + rewrite lookup_insert_ne by done. lia.
Qed.

Lemma Acc_new_sub D g s x : Acc D g → h_subs g !! s = None → (s < h_next g)%nat →
  s_folded x = false → (∀ k, counter_of_sub x k = 0) → Acc D (set_h_subs (<[s := x]>) g).
Proof.
  intros [[C1 C2 C3 C4 C5] HD] Hs Hlt Hf Hx. split.
  - split; cbn; try done.
    + intros s' y k. destruct (decide (s' = s)) as [->|].
      * rewrite lookup_insert_eq. intros [= <-]. by rewrite Hx.
      * rewrite lookup_insert_ne by done. apply C2.
    + intros s' y k. destruct (decide (s' = s)) as [->|].
      * rewrite lookup_insert_eq. intros [= <-] _. apply Hx.
      * rewrite lookup_insert_ne by done. apply C3.
    + intros n Hn. destruct (C5 n Hn). rewrite lookup_insert_ne by lia. done.
  - intros k. etrans; [apply HD|]. unfold accounted; cbn. apply Z.add_le_mono_l.
    rewrite (msum_insert (unfolded k)) by done. unfold unfolded at 2. rewrite Hf, Hx. lia.
Qed.

(** ** Folding a subscriber *)

Definition occurs (l : list counter) (k : counter) : Z := if bool_decide (k ∈ l) then 1 else 0.

(** adding to a counter, where it is: the hub while registered, else the totals *)
Definition credit (live : bool) (b : nat) (k : counter) (n : Z) : St unit :=
  if live then count b k n else total_count k n.
Lemma registered_count b k n g b' : registered (snd (count b k n g)) b' = registered g b'.
Proof.
  unfold registered. cbn [snd count upd_hub modify]. rewrite (hub_of_alter (set_b_n (bump k n)) b b' g); done.
Qed.
Lemma Acc_count D g b k n : Acc D g → registered g b = true → 0 ≤ n → Acc (bump k n D) (snd (count b k n g)).
Proof.
  intros HD Hr Hn. destruct (grows_count b k n Hn D g HD) as [HC _]. split; [done|].
  destruct HD as [[C1 C2 C3 C4 C5] HD]. apply bool_decide_eq_true in Hr. intros k'.
  destruct (C4 _ _ Hr) as [h Hh]. unfold accounted. cbn [snd count upd_hub modify].
  set (g' := set_h_heap _ g). change (h_total g') with (h_total g). change (h_subs g') with (h_subs g).
  change (h_hubs g') with (h_hubs g).
  assert (Hb : ∀ b', hub_count g' k' b' = hub_count g k' b' + if bool_decide (b' = b ∧ k' = k) then n else 0).
  { intros b'. unfold hub_count, g'. rewrite hub_of_upd. destruct (decide (b' = b)) as [->|Hb'].
    - rewrite bool_decide_eq_true_2 by (split; [done|by exists h]). unfold counter_of_hub; cbn. unfold bump.
      repeat case_bool_decide; naive_solver lia.
    - rewrite !bool_decide_eq_false_2 by tauto. lia. }
  assert (msum (hub_count g k') (h_hubs g) + (if bool_decide (k' = k) then n else 0) ≤ msum (hub_count g' k') (h_hubs g)) as Hle.
  { rewrite (msum_delete (hub_count g k') _ _ _ Hr), (msum_delete (hub_count g' k') _ _ _ Hr), Hb.
    assert (msum (hub_count g k') (delete (b_id (hub_of g b)) (h_hubs g)) ≤
      msum (hub_count g' k') (delete (b_id (hub_of g b)) (h_hubs g))).
    { apply msum_le. intros id b' _. rewrite Hb. case_bool_decide; lia. }
    repeat case_bool_decide; naive_solver lia. }
  specialize (HD k'). unfold accounted in HD. unfold bump. case_bool_decide; lia.
Qed.
Lemma Acc_total D g k n : Acc D g → 0 ≤ n → Acc (bump k n D) (snd (total_count k n g)).
Proof.
  intros HD Hn. destruct (grows_total k n Hn D g HD) as [HC _]. split; [done|]. destruct HD as [_ HD].
  intros k'. specialize (HD k'). unfold accounted in *.
  change (bump k n D k' ≤ bump k n (h_total g) k' + msum (hub_count g k') (h_hubs g) + msum (unfolded k') (h_subs g)).
  unfold bump. case_bool_decide; lia.
Qed.

Definition credited (f : counter → Z) (l : list counter) (D : counts) : counts :=
  fold_left (λ D k, bump k (f k) D) l D.
Lemma credited_other f l D k : k ∉ l → credited f l D k = D k.
Proof.
  revert D. unfold credited. induction l as [|k' l IH]; intros D Hk; [done|]. cbn.
  apply not_elem_of_cons in Hk as [Hk Hl]. rewrite IH by done. unfold bump. by rewrite bool_decide_eq_false_2.
Qed.
Lemma credited_in f l D k : (∀ k, 0 ≤ f k) → k ∈ l → D k + f k ≤ credited f l D k.
Proof.
  intros Hf. revert D. induction l as [|k' l IH]; intros D Hk; [by apply not_elem_of_nil in Hk|]. unfold credited; cbn.
  assert (Hge : ∀ l D, D k ≤ credited f l D k).
  { clear - Hf. induction l as [|k2 l IH]; intros D; [done|]. unfold credited; cbn. etrans; [|apply IH].
    by apply bump_ge. }
  apply elem_of_cons in Hk as [->|Hk].
  - etrans; [|apply Hge]. unfold bump. rewrite bool_decide_eq_true_2 by done. done.
  - etrans; [|by apply IH]. pose proof (bump_ge k' (f k') D k (Hf k')). lia.
Qed.
Lemma Acc_credits live b f l D g : (live = true → registered g b = true) → (∀ k, 0 ≤ f k) → Acc D g →
  Acc (credited f l D) (snd (forM l (λ k, credit live b k (f k)) g)) ∧
  h_subs (snd (forM l (λ k, credit live b k (f k)) g)) = h_subs g.
Proof.
  intros Hl Hf. revert D g Hl. unfold credited. induction l as [|k l IH]; intros D g Hl HD; [done|]. cbn [forM fold_left].
  destruct (credit live b k (f k) g) as [[] g1] eqn:E. rewrite (bind_run _ _ _ _ _ E).
  assert (g1 = snd (credit live b k (f k) g)) as Eg1 by by rewrite E.
  destruct (IH (bump k (f k) D) g1) as [H1 H2].
  - intros Hlv. rewrite Eg1. unfold credit. rewrite Hlv, registered_count. auto.
  - rewrite Eg1. unfold credit. destruct live; [apply Acc_count; auto|by apply Acc_total].
  - split; [done|]. rewrite H2, Eg1. unfold credit. by destruct live.
Qed.

Lemma Acc_folded D g s x (f : counter → Z) : Acc (credited f folded_at_close D) g → h_subs g !! s = Some x →
  (∀ k, f k = counter_of_sub x k) → Acc D (set_h_subs (alter (set_s_folded (λ _, true)) s) g).
Proof.
  intros [[C1 C2 C3 C4 C5] HD] Hs Hf. split.
  - split; cbn; try done.
    + intros s' y k. destruct (decide (s' = s)) as [->|]; [|rewrite lookup_alter_ne by done; apply C2].
      rewrite lookup_alter_eq, Hs. cbn. intros [= <-]. apply (C2 s x k Hs).
    + intros s' y k. destruct (decide (s' = s)) as [->|]; [|rewrite lookup_alter_ne by done; apply C3].
      rewrite lookup_alter_eq, Hs. cbn. intros [= <-]. apply (C3 s x k Hs).
    + intros n Hn. destruct (C5 n Hn) as [Hh Hn']. split; [done|]. rewrite lookup_alter_ne; [done|]. congruence.
  - intros k. specialize (HD k). unfold accounted in *; cbn.
    rewrite (msum_alter (unfolded k) _ _ _ x Hs).
    assert (Hu : unfolded k (set_s_folded (λ _, true) x) = 0) by done. rewrite Hu.
    assert (unfolded k x ≤ counter_of_sub x k) as Hle.
    { unfold unfolded. destruct (s_folded x); [by apply (C2 s)|lia]. }
    assert (D k + counter_of_sub x k ≤ credited f folded_at_close D k).
    { rewrite <- Hf. destruct (decide (k ∈ folded_at_close)) as [Hk|Hk].
      - apply credited_in; [|done]. intros k'. rewrite Hf. by apply (C2 s).
      - rewrite credited_other by done. rewrite Hf, (C3 s x k Hs Hk). lia. }
    etrans; [|apply Z.add_le_mono_l, Z.add_le_mono_r, Z.sub_le_mono_l, Hle]. 
    set (A := h_total g k + msum (hub_count g k) (h_hubs g)) in *. 
    match goal with |- _ ≤ ?a + (?u - _ + 0) => change a with A; set (U := u) in * end. lia.
Qed.
Lemma grows_close_fold s : grows (close_fold s).
Proof.
  intros D g HD. unfold close_fold, get_sub. rewrite !bind_gets. set (x := sub_of g s).
  set (live := registered g (s_hub x)).
  change (λ k, if live then count (s_hub x) k (counter_of_sub x k) else total_count k (counter_of_sub x k))
    with (λ k, credit live (s_hub x) k (counter_of_sub x k)).
  assert (Hx : ∀ k, 0 ≤ counter_of_sub x k).
  { intros k. unfold x, sub_of. destruct (h_subs g !! s) as [y|] eqn:Hy; cbn.
    - by apply (ct_sub _ (proj1 HD) s).
    - by destruct k. }
  destruct (Acc_credits live (s_hub x) (counter_of_sub x) folded_at_close D g) as [HA Hsub]; [done|done|done|].
  destruct (forM _ _ g) as [[] g1] eqn:E. cbn [snd] in *. rewrite (bind_run _ _ _ _ _ E).
  cbn [snd upd_sub modify]. destruct (h_subs g !! s) as [y|] eqn:Hy.
  - apply (Acc_folded _ _ _ y (counter_of_sub x)); [done|by rewrite Hsub|]. intros k. unfold x, sub_of. by rewrite Hy.
  - apply Acc_upd_sub; [|intros z; rewrite Hsub; congruence]. split; [apply HA|]. intros k. etrans; [|apply HA].
    destruct (decide (k ∈ folded_at_close)) as [Hk|Hk]; [|by rewrite credited_other].
    pose proof (credited_in (counter_of_sub x) folded_at_close D k Hx Hk). specialize (Hx k). lia.
Qed.
#[export] Hint Resolve grows_close_fold : grows.

(** ** A removal *)

Lemma grows_fold_ingress b : grows (foldIngressLocked b).
Proof. unfold foldIngressLocked. grows_tac. Qed.
#[export] Hint Resolve grows_fold_ingress : grows.
Lemma grows_kind b kind : grows (setPublisherKindLocked b kind).
Proof. unfold setPublisherKindLocked. grows_tac. Qed.
Lemma grows_role b edge : grows (setRoleLocked b edge).
Proof. unfold setRoleLocked. grows_tac. Qed.
Lemma grows_stop_grace b : grows (stop_grace b).
Proof. unfold stop_grace, stop_timer. grows_tac. Qed.
#[export] Hint Resolve grows_kind grows_role grows_stop_grace : grows.

(** the counters of hub [b], which a removal leaves alone until it folds them *)
Definition hub_counts (b : nat) (g : Registry) := (b_n (hub_of g b), b_fan (hub_of g b)).
Lemma keeps_counts_upd b b' f : (∀ h, b_n (f h) = b_n h) → (∀ h, b_fan (f h) = b_fan h) →
  StateM.keeps (hub_counts b) (upd_hub b' f).
Proof.
  intros H1 H2 g. unfold hub_counts. cbn [snd upd_hub modify]. rewrite !hub_of_upd.
  case_bool_decide as E; [|done]. destruct E as [-> _]. by rewrite H1, H2.
Qed.
Ltac counts_tac :=
  repeat (cbv beta zeta; first
    [ apply keeps_counts_upd; reflexivity | apply keeps_bind; [|intros ?]
    | apply keeps_forM; intros ? | case_match | intros ?; reflexivity ]).
Lemma keeps_counts_kind b kind : StateM.keeps (hub_counts b) (setPublisherKindLocked b kind).
Proof. unfold setPublisherKindLocked, foldIngressLocked, get_hub. counts_tac. Qed.

Section Removal.
Context (D c : counts) (b : nat).
(** hub [b] is out of the index, its counters [c] not yet in the totals *)
Let Owed (g : Registry) : Prop := Acc (λ k, D k - c k) g ∧ ∀ k, c k ≤ counter_of_hub (hub_of g b) k.
Lemma owed_step {A B} (m : St A) (f : A → St B) g : Owed g → grows m → StateM.keeps (hub_counts b) m →
  (∀ a g', Owed g' → Acc D (snd (f a g'))) → Acc D (snd ((m ≫= f) g)).
Proof.
  intros [HA Hc] Hm Hk Hf. destruct (m g) as [a g'] eqn:E. rewrite (bind_run _ _ _ _ _ E).
  apply Hf. assert (g' = snd (m g)) as -> by by rewrite E. split; [by apply Hm|].
  intros k. specialize (Hk g). injection Hk as Hn Hfan. unfold counter_of_hub. rewrite Hn, Hfan. apply Hc.
Qed.
Lemma owed_paid g : Owed g → (∀ k, 0 ≤ c k) →
  Acc D (snd (forM folded_at_removal (λ k, total_count k (counter_of_hub (hub_of g b) k)) g)).
Proof.
  intros [HA Hc] Hn. assert (Hf : ∀ k, 0 ≤ counter_of_hub (hub_of g b) k) by (intros k; etrans; [apply Hn|apply Hc]).
  destruct (Acc_credits false b (counter_of_hub (hub_of g b)) folded_at_removal (λ k, D k - c k) g) as [[HC HD] _]; [done|done|exact HA|].
  split; [exact HC|]. intros k. etrans; [|apply HD].
  assert (k ∈ folded_at_removal) as Hk by (destruct k; set_solver).
  pose proof (credited_in (counter_of_hub (hub_of g b)) folded_at_removal (λ k, D k - c k) k Hf Hk) as Hp. cbv beta in Hp. specialize (Hc k). lia.
Qed.
End Removal.

Lemma Acc_delete D g id b : Acc D g → h_hubs g !! id = Some b →
  Acc (λ k, D k - counter_of_hub (hub_of g b) k) (set_h_hubs (delete id) g).
Proof.
  intros [[C1 C2 C3 C4 C5] HD] Hb. split.
  - split; try done. intros i b' Hi. apply (C4 i). cbn in Hi. by apply lookup_delete_Some in Hi as [_ Hi].
  - intros k. specialize (HD k). unfold accounted in *.
    rewrite (msum_delete (hub_count g k) _ _ _ Hb) in HD. unfold hub_count at 1 in HD.
    change (D k - counter_of_hub (hub_of g b) k ≤
      h_total g k + msum (hub_count g k) (delete id (h_hubs g)) + msum (unfolded k) (h_subs g)). lia.
Qed.
Lemma grows_remove_locked id ok force now : grows (remove_locked id ok force now).
Proof.
  intros D g HD. unfold remove_locked, get_hub. rewrite bind_gets.
  destruct (h_hubs g !! id) as [b|] eqn:Hb; [|done]. rewrite bind_gets.
  destruct (_ || _); [done|]. rewrite bind_modify, bind_gets.
  set (c := λ k, counter_of_hub (hub_of g b) k). set (g0 := set_h_hubs _ g).
  assert (Hc : ∀ k, 0 ≤ c k).
  { intros k. unfold c, hub_of. destruct (h_heap g !! b) as [h|] eqn:Hh; cbn; [by apply (ct_hub _ (proj1 HD) b)|by destruct k]. }
  assert (H0 : Acc (λ k, D k - c k) g0 ∧ ∀ k, c k ≤ counter_of_hub (hub_of g0 b) k).
  { split; [by apply Acc_delete|]. intros k. unfold c. change (hub_of g0 b) with (hub_of g b). lia. }
  revert H0. generalize g0. clear g0. intros g0 H0.
  apply (owed_step D c b); [done|grows_tac|counts_tac|]. intros dep g1 H1.
  apply (owed_step D c b); [done|grows_tac|counts_tac|]. intros _ g2 H2.
  apply (owed_step D c b); [done|grows_tac|apply keeps_counts_kind|]. intros _ g3 H3.
  apply (owed_step D c b); [done|grows_tac|counts_tac|]. intros _ g4 H4.
  rewrite bind_gets. pose proof (owed_paid D c b g4 H4 Hc) as H5.
  destruct (forM folded_at_removal _ g4) as [[] g5] eqn:E5. rewrite (bind_run _ _ _ _ _ E5).
  revert H5. cbn [snd]. match goal with |- _ → Acc D (snd (?m g5)) => apply (λ H : grows m, H D g5) end. grows_tac.
Qed.
#[export] Hint Resolve grows_remove_locked : grows.

(** ** Every operation *)

Section Ops.
Context (opts : Options) (unicode_upper stripeOwnerKey : bytes → bytes).
Context (CodecFamily : bytes → bytes) (ExtradataHeight : bytes → bytes → Z) (KeyframeHeight : bytes → Z).

Lemma grows_event id d : grows (emitEvent opts id d).
Proof. unfold emitEvent. grows_tac. Qed.
Lemma grows_cancel_grace b : grows (cancel_grace b).
Proof. unfold cancel_grace, stop_timer. grows_tac. Qed.
Hint Resolve grows_event grows_cancel_grace : grows.
Hint Extern 1 (grows (busStarted _ _)) => apply grows_event : grows.
Hint Extern 1 (grows (busEnded _ _ _)) => apply grows_event : grows.
Hint Extern 1 (grows (busStalled _ _ _)) => apply grows_event : grows.
Hint Extern 1 (grows (busViewers _ _ _ _ _)) => apply grows_event : grows.
Lemma grows_close_deposed old code : grows (close_deposed old code).
Proof. unfold close_deposed. grows_tac. Qed.
Lemma grows_claim b rnd now : grows (claimPublisherLocked b rnd now).
Proof. unfold claimPublisherLocked. grows_tac. Qed.
Lemma grows_claimed id b r edge announce : grows (claimed opts id b r edge announce).
Proof. unfold claimed. grows_tac. Qed.
Lemma grows_depose b : grows (depose b).
Proof. unfold depose. grows_tac. Qed.
Hint Resolve grows_close_deposed grows_claim grows_claimed grows_depose : grows.
Lemma grows_TakeOver id rnd now : grows (TakeOverPublish opts unicode_upper id rnd now).
Proof. unfold TakeOverPublish. grows_tac. Qed.

(** a new hub, where the lookup just found none *)
Lemma Acc_then {A B} D (m : St A) (f : A → St B) g : Acc D (snd (m g)) → (∀ a, grows (f a)) → Acc D (snd ((m ≫= f) g)).
Proof.
  intros Hm Hf. destruct (m g) as [a g'] eqn:E. rewrite (bind_run _ _ _ _ _ E). by apply Hf.
Qed.
Lemma grows_Start id draws rnd now : grows (StartPublish opts unicode_upper id draws rnd now).
Proof.
  unfold StartPublish. intros D g HD. apply Acc_then; [|intros; grows_tac].
  destruct (negb _); [done|]. rewrite bind_gets. destruct (at_capacity opts g); [done|].
  unfold drawIDLocked. rewrite bind_gets. destruct (draw_loop _ _ _ g) as [new|e|] eqn:Hd; [|done..].
  apply Acc_then; [|intros; grows_tac]. apply Acc_new_hub; [done|]. by apply (draw_unused _ _ _ _ _ Hd).
Qed.
Lemma grows_Resume id rnd now : grows (ResumePublish opts unicode_upper id rnd now).
Proof.
  unfold ResumePublish. destruct (Normalize _ id) as [norm|]; [|apply grows_ret]. intros D g HD.
  rewrite !bind_gets. destruct (h_hubs g !! norm) as [b|] eqn:Hb.
  - match goal with |- Acc D (snd (?m g)) => apply (λ H : grows m, H D g HD) end. grows_tac.
  - destruct (at_capacity opts g); [done|]. apply Acc_then; [by apply Acc_new_hub|intros; grows_tac].
Qed.
Lemma grows_Edge id rnd now : grows (EdgePublish opts unicode_upper id rnd now).
Proof.
  unfold EdgePublish. destruct (Normalize _ id) as [norm|]; [|apply grows_ret]. intros D g HD.
  rewrite !bind_gets. apply Acc_then; [|intros; grows_tac].
  destruct (h_hubs g !! norm) as [b|] eqn:Hb; [done|by apply Acc_new_hub].
Qed.
Lemma grows_PublisherClose p now : grows (PublisherClose opts p now).
Proof. unfold PublisherClose, arm_timer. grows_tac. Qed.
Lemma grows_enqueue_to s d : grows (enqueue_to s d).
Proof. apply grows_upd_sub. intros x. apply sub_le_enqueue. Qed.
Lemma grows_enqueue_prime s d : grows (enqueue_prime s d).
Proof. destruct d; [apply grows_enqueue_to|apply grows_skip]. Qed.
Hint Resolve grows_PublisherClose grows_enqueue_prime : grows.
Lemma hub_le_ensure h now : hub_le h (ensure_rings opts h now).
Proof. unfold ensure_rings. destruct (b_dvr h); by apply hub_le_refl. Qed.
Lemma grows_subscribe id so now : grows (subscribeOpts_ opts unicode_upper stripeOwnerKey id so now).
Proof.
  apply grows_bind; [|intros r; grows_tac]. unfold subscribeOptsLocked.
  destruct (Normalize _ id) as [norm|]; [|apply grows_ret]. apply grows_bind; [apply grows_gets|intros [b|]]; [|apply grows_ret].
  do 3 (apply grows_bind; [apply grows_gets|intros ?]). do 2 (destruct (negb _ && _); [apply grows_ret|]).
  apply grows_bind; [destruct (so_dvr so); [|apply grows_skip]; apply grows_upd_hub; intros; apply hub_le_ensure|intros _].
  apply grows_bind; [apply grows_gets|intros h]. intros D g HD.
  rewrite (bind_run new _ _ _ _ eq_refl). rewrite bind_modify.
  match goal with |- Acc D (snd (?m (set_h_subs (<[h_next g := ?x]>) ?g1))) =>
    apply (λ H : grows m, H D (set_h_subs (<[h_next g := x]>) g1)); [grows_tac|];
    apply (Acc_new_sub D g1 (h_next g) x); [by apply grows_new| |cbn; lia|done|by intros []] end.
  apply (ct_next _ (proj1 HD)), le_n.
Qed.
Lemma grows_close_begin s : grows (close_begin s).
Proof. unfold close_begin, orphanedLegsLocked. grows_tac. Qed.
Hint Resolve grows_close_begin : grows.
Lemma grows_SubscriberClose fuel s : grows (SubscriberClose fuel s).
Proof.
  revert s. induction fuel as [|fuel IH]; intros s; cbn [SubscriberClose]; grows_tac.
Qed.
Lemma grows_end_session code s : grows (end_session code s).
Proof. unfold end_session, Close_. grows_tac. apply grows_SubscriberClose. Qed.
Hint Resolve grows_end_session : grows.
Lemma grows_reaped b n : 0 ≤ n → grows (countStripeLegsReaped b n).
Proof. intros Hn. unfold countStripeLegsReaped. grows_tac. Qed.
Lemma grows_legLease s lease now : grows (legLeaseWatch s lease now).
Proof. pose proof (grows_reaped). unfold legLeaseWatch. grows_tac. apply grows_reaped. lia. Qed.
Lemma grows_CloseInternal id code : grows (CloseInternalSubscribers unicode_upper id code).
Proof. unfold CloseInternalSubscribers. grows_tac. Qed.
Lemma grows_bandwidth b n : 0 ≤ n → grows (countBandwidthDrop b n) ∧ grows (countBandwidthDropBytes b n).
Proof. intros Hn. unfold countBandwidthDrop, countBandwidthDropBytes. split; grows_tac. Qed.
Lemma grows_tail id code r : grows (remove_tail opts id code r).
Proof. unfold remove_tail. grows_tac. Qed.
Hint Resolve grows_tail : grows.
Lemma grows_remove id ok force code now : grows (removeBroadcast opts id ok force code now).
Proof. unfold removeBroadcast. grows_tac. Qed.
Hint Resolve grows_remove : grows.
Lemma grows_Terminate id code now : grows (TerminateBroadcast opts unicode_upper id code now).
Proof. unfold TerminateBroadcast. grows_tac. Qed.
Hint Resolve grows_Terminate : grows.
Lemma grows_sweep_loop now l : grows (sweep_loop opts now l).
Proof.
  induction l as [|[id b] l IH]; cbn [sweep_loop]; [apply grows_ret|]. unfold sweep_hub. repeat first [apply IH|grows_step].
Qed.
Lemma grows_pump_loop now l : grows (pump_loop opts now l).
Proof.
  induction l as [|[id b] l IH]; cbn [pump_loop]; [apply grows_ret|].
  unfold pump_hub, cacheAndFanViewerCountLocked. repeat first [apply IH|grows_step].
Qed.
Lemma hub_le_observed h a b c : hub_le h (observed h a b c).
Proof. unfold observed. by destruct (observeChunk _ _ _ _) as [[? ?]|]; apply hub_le_refl. Qed.
Lemma grows_HandleDatagram p d now : grows (HandleDatagram CodecFamily ExtradataHeight p d now).
Proof.
  assert (Hconf : grows (noteConfig CodecFamily ExtradataHeight p d)) by (unfold noteConfig; grows_tac).
  assert (Hrel : grows (relayDatagram p d now)) by (unfold relayDatagram; grows_tac).
  assert (Hclk : grows (relayClockMapping p d now)) by (unfold relayClockMapping; grows_tac).
  assert (Haud : grows (relayAudioConfig p d now)) by (unfold relayAudioConfig; grows_tac).
  assert (Hvc : grows (relayViewerCount p d now)).
  { unfold relayViewerCount, cacheAndFanViewerCountLocked. grows_tac. }
  assert (Hvid : ∀ hdr, grows (relayVideoChunk p hdr d now)).
  { intros hdr. unfold relayVideoChunk. grows_tac. apply grows_upd_hub. intros h. apply hub_le_observed. }
  unfold HandleDatagram, countBad, NoteSeen. repeat first [by eauto 1 with nocore|grows_step].
Qed.
Hint Resolve grows_HandleDatagram : grows.
Lemma grows_IngestKeyframeStream p stream now :
  grows (IngestKeyframeStream opts CodecFamily ExtradataHeight KeyframeHeight p stream now).
Proof.
  assert (Hkf : ∀ hdr, grows (onKeyframe CodecFamily ExtradataHeight KeyframeHeight p stream hdr now)).
  { intros hdr. unfold onKeyframe, onKeyframeLocked. grows_tac. apply grows_upd_hub. intros h. apply hub_le_observed. }
  unfold IngestKeyframeStream, countBad, countKeyframeOversize, NoteSeen. repeat first [apply Hkf|grows_step].
Qed.
Lemma grows_carrier_loop fuel p stream fin now : grows (carrier_loop CodecFamily ExtradataHeight fuel p stream fin now).
Proof.
  revert stream. induction fuel as [|fuel IH]; intros stream; cbn [carrier_loop]; [apply grows_ret|].
  unfold countBad, admitUplinkRecord. repeat first [apply IH | grows_step].
Qed.
Lemma grows_IngestUplinkCarrier p stream fin now :
  grows (IngestUplinkCarrier CodecFamily ExtradataHeight p stream fin now).
Proof.
  unfold IngestUplinkCarrier, acquireUplinkCarrier, releaseUplinkCarrier, countBad, NoteSeen.
  repeat first [apply grows_carrier_loop | grows_step].
Qed.

Lemma grows_exec o : grows (exec opts unicode_upper stripeOwnerKey CodecFamily ExtradataHeight KeyframeHeight o).
Proof.
  destruct o; cbn [exec];
    try (apply grows_bind; [|intros; apply grows_skip]);
    first
    [ apply grows_Start | apply grows_Resume | apply grows_Edge | apply grows_TakeOver | apply grows_PublisherClose
    | apply grows_subscribe | apply grows_close_begin | apply grows_SubscriberClose | apply grows_legLease
    | apply grows_HandleDatagram | apply grows_IngestKeyframeStream | apply grows_IngestUplinkCarrier
    | apply grows_CloseInternal | apply grows_Terminate | apply grows_remove_locked
    | apply grows_bandwidth; lia | apply grows_upd_sub; intros; apply sub_le_stripe
    | unfold InvalidatePrimes, BindConn, BindSend, SetTelemetrySession, SetKind, SetClient, PublisherStop, fold_once,
        NoteLegAlive, RecordDownstreamViewers, SetSubscriberSession, EndBroadcast, EndBroadcastWithCode,
        ExpireEdgeIfViewerless, timer_fires, timer_callback, handleGraceExpiry, expireBroadcast; solve [grows_tac]
    | idtac ].
  - unfold drain_count. apply grows_bind; [apply grows_gets|]. intros x.
    destruct (s_folded x || (n <? 0) || _) eqn:E; [apply grows_skip|].
    apply orb_false_iff in E as [[_ E]%orb_false_iff Hk%negb_false_iff%bool_decide_eq_true].
    apply grows_sub_count; [lia|done].
  - unfold SweepStalledPublishers. pose proof grows_sweep_loop. grows_tac.
  - unfold PumpViewerCounts. pose proof grows_pump_loop. grows_tac.
Qed.
End Ops.

(** ** What a scrape reports *)

(** no Close is in flight: a closed subscriber is folded, an open one is on a
    registered hub *)
Definition quiet (g : Registry) : Prop :=
  ∀ s x, h_subs g !! s = Some x → s_folded x = s_closed x ∧ (s_closed x = false → registered g (s_hub x) = true).

Definition lsum {A} (f : A → Z) (l : list A) : Z := fold_right (λ a n, f a + n) 0 l.
Lemma lsum_app {A} (f : A → Z) l l' : lsum f (l ++ l') = lsum f l + lsum f l'.
Proof. unfold lsum. induction l as [|a l IH]; cbn; [done|]. lia. Qed.
Lemma msum_list (f : HubSubscriber → Z) (m : gmap nat HubSubscriber) (get : nat → HubSubscriber) L : NoDup L →
  (∀ s, s ∈ L → m !! s = Some (get s)) → (∀ s x, m !! s = Some x → s ∉ L → f x = 0) →
  msum f m = lsum (λ s, f (get s)) L.
Proof.
  revert m. induction L as [|s L IH]; intros m Hnd Hin Hout.
  - apply Z.le_antisymm; [|apply msum_nonneg; intros s x Hs; rewrite (Hout s x); [lia|done|apply not_elem_of_nil]].
    assert (E : msum f m ≤ msum (λ _, 0) m).
    { apply msum_le. intros s x Hs. rewrite (Hout s x); [lia|done|apply not_elem_of_nil]. }
    etrans; [exact E|]. clear. induction m as [|i x m Hi IH] using map_ind; [done|]. by rewrite msum_insert.
  - apply NoDup_cons in Hnd as [Hs Hnd]. rewrite (msum_delete f m s (get s)) by (apply Hin; by left).
    cbn. f_equal. apply IH; [done| |].
    + intros s' Hs'. rewrite lookup_delete_ne; [apply Hin; by right|]. by intros ->.
    + intros s' x [Hne Hx]%lookup_delete_Some Hs'. apply (Hout s'); [done|]. rewrite elem_of_cons. naive_solver.
Qed.

(** the sessions of some hubs *)
Definition sessions (g : Registry) (l : list (bytes * nat)) : list nat := flat_map (λ e, b_subs (hub_of g (snd e))) l.
Lemma elem_of_sessions g l s : s ∈ sessions g l ↔ ∃ e, e ∈ l ∧ s ∈ b_subs (hub_of g (snd e)).
Proof.
  unfold sessions. rewrite list_elem_of_In, in_flat_map. setoid_rewrite list_elem_of_In. done.
Qed.
Lemma CI_subs_of g b s : CI None (core_of g) → is_Some (h_heap g !! b) → s ∈ b_subs (hub_of g b) →
  ∃ x, h_subs g !! s = Some x ∧ s_closed x = false ∧ s_hub x = b.
Proof.
  intros Hk [h Hb] Hs. assert (Hc : k_heap (core_of g) !! b = Some (hub_core_of h)) by (cbn; by rewrite lookup_fmap, Hb).
  unfold hub_of in Hs. rewrite Hb in Hs. destruct (ho_subs _ _ _ _ (ci_hub _ _ Hk _ _ Hc) s Hs) as [i Hi].
  cbn in Hi. rewrite lookup_fmap in Hi. destruct (h_subs g !! s) as [x|]; [|done]. exists x. by injection Hi.
Qed.
Lemma sessions_NoDup g l : CI None (core_of g) → NoDup (map snd l) → (∀ e, e ∈ l → is_Some (h_heap g !! snd e)) →
  NoDup (sessions g l).
Proof.
  intros Hk. induction l as [|e l IH]; intros Hnd Hl; cbn; [apply NoDup_nil_2|].
  apply NoDup_cons in Hnd as [He Hnd]. pose proof (Hl e (list_elem_of_here _ _)) as Hb.
  apply NoDup_app. split_and!.
  - destruct Hb as [h Hh]. unfold hub_of. rewrite Hh.
    apply (ho_nodup _ _ _ _ (ci_hub _ _ Hk (snd e) (hub_core_of h) ltac:(cbn; by rewrite lookup_fmap, Hh))).
  - intros s Hs [e' [He' Hs']]%elem_of_sessions.
    destruct (CI_subs_of g _ s Hk Hb Hs) as (x & Hx & _ & Ex).
    destruct (CI_subs_of g _ s Hk (Hl e' ltac:(by right)) Hs') as (x' & Hx' & _ & Ex').
    apply He. rewrite list_elem_of_In. apply in_map_iff. exists e'. rewrite <- list_elem_of_In. split; [congruence|done].
  - apply IH; [done|]. intros e' ?. apply Hl. by right.
Qed.

Lemma stats_accounted g k : CI None (core_of g) → quiet g → Stats_total g k = accounted g k.
Proof.
  intros Hk Hq. unfold Stats_total, accounted. set (l := map_to_list (h_hubs g)).
  assert (Hl : ∀ e, e ∈ l → h_hubs g !! fst e = Some (snd e) ∧ is_Some (h_heap g !! snd e)).
  { intros [id b] He%elem_of_map_to_list. split; [done|]. destruct (CI_registered _ _ _ _ Hk He) as (h & Hh & _).
    cbn in Hh. rewrite lookup_fmap in Hh. cbn. by destruct (h_heap g !! b). }
  assert (Hnd : NoDup (map snd l)).
  { apply NoDup_fmap_2_strong; [|apply NoDup_map_to_list]. intros [id b] [id' b'] He He' E. cbn in E. subst b'.
    destruct (Hl _ He) as [H1 _], (Hl _ He') as [H2 _]. cbn in *.
    destruct (CI_registered _ _ _ _ Hk H1) as (h & Hh & <- & _), (CI_registered _ _ _ _ Hk H2) as (h' & Hh' & <- & _).
    by simplify_eq. }
  rewrite (msum_list (unfolded k) (h_subs g) (sub_of g) (sessions g l)).
  - rewrite msum_to_list. fold l. rewrite <- Z.add_assoc. f_equal. clearbody l. clear - Hl Hk Hq.
    induction l as [|e l IH]; [done|].
    change (sessions g (e :: l)) with (b_subs (hub_of g (snd e)) ++ sessions g l). cbn [fold_right].
    rewrite lsum_app. rewrite Z.add_shuffle1, <- IH by (intros; apply Hl; by right).
    unfold hub_total, hub_count at 1, count_subs.
    assert (lsum (λ s, unfolded k (sub_of g s)) (b_subs (hub_of g (snd e))) =
      fold_right (λ s n, counter_of_sub (sub_of g s) k + n) 0 (b_subs (hub_of g (snd e)))) as ->; [|unfold lsum; lia].
    destruct (Hl e (list_elem_of_here _ _)) as [_ Hb].
    assert (Hs : ∀ s, s ∈ b_subs (hub_of g (snd e)) → unfolded k (sub_of g s) = counter_of_sub (sub_of g s) k).
    { intros s Hs. destruct (CI_subs_of g _ s Hk Hb Hs) as (x & Hx & Hc & _). unfold sub_of. rewrite Hx. cbn [default].
      unfold unfolded. change (id x) with x. destruct (Hq s x Hx) as [-> _]. by rewrite Hc. }
    induction (b_subs (hub_of g (snd e))) as [|s ss IHs]; cbn; [done|]. rewrite (Hs s (list_elem_of_here _ _)).
    f_equal. apply IHs. intros s' ?. apply Hs. by right.
  - apply sessions_NoDup; [done|done|]. intros e He. by apply Hl.
  - intros s [e [He Hs]]%elem_of_sessions. destruct (Hl e He) as [_ Hb].
    destruct (CI_subs_of g _ s Hk Hb Hs) as (x & Hx & _). unfold sub_of. by rewrite Hx.
  - intros s x Hx Hout. unfold unfolded. destruct (Hq s x Hx) as [-> Hr]. destruct (s_closed x) eqn:Hc; [done|].
    exfalso. apply Hout. apply elem_of_sessions. specialize (Hr eq_refl). apply bool_decide_eq_true in Hr.
    exists (b_id (hub_of g (s_hub x)), s_hub x). split; [by apply elem_of_map_to_list|]. cbn.
    assert (Hcs : k_subs (core_of g) !! s = Some (s_hub x, false, sub_internal x)).
    { cbn. rewrite lookup_fmap, Hx. cbn. unfold sub_core. by rewrite Hc. }
    destruct (ci_sub _ _ Hk _ _ _ _ Hcs) as (h & Hh & Hin). pose proof (core_hub _ _ _ Hh) as Eh. rewrite <- Eh in Hin.
    by apply Hin.
Qed.

Section Scrapes.
Context (o : Options) (unicode_upper stripeOwnerKey : bytes → bytes).
Context (CodecFamily : bytes → bytes) (ExtradataHeight : bytes → bytes → Z) (KeyframeHeight : bytes → Z).
#[local] Notation opts := (with_defaults o).
#[local] Notation run := (run opts unicode_upper stripeOwnerKey CodecFamily ExtradataHeight KeyframeHeight).
#[local] Notation reachable := (reachable opts unicode_upper stripeOwnerKey CodecFamily ExtradataHeight KeyframeHeight).

Lemma NewRegistry_counted : Counted NewRegistry.
Proof. by split. Qed.
Lemma run_Acc l D g : Acc D g → Acc D (run l g).
Proof.
  revert g. induction l as [|x l IH]; intros g HD; [done|].
  apply (IH (snd (exec _ _ _ _ _ _ x g))). by apply grows_exec.
Qed.
Lemma reachable_counted g : reachable g → Counted g.
Proof.
  intros [l ->]. apply (run_Acc l (accounted NewRegistry) NewRegistry).
  split; [apply NewRegistry_counted|done].
Qed.

End Scrapes.
