(* ===== verification/HubCaps.v ===== *)
(** internal/hub: the viewer caps, as an invariant of the machine, and the
    refinement of the machine by the operations. *)
From S2P Require Export HubRun.
#[local] Open Scope Z_scope.

Lemma k_ext_nonneg k l : 0 ≤ k_ext k l.
Proof. induction l as [|s l IH]; cbn [k_ext fold_right]; [done|]. fold (k_ext k l). repeat case_match; lia. Qed.
Lemma k_hub_ext_nonneg k b : 0 ≤ k_hub_ext k b.
Proof. unfold k_hub_ext. case_match; [apply k_ext_nonneg|done]. Qed.
Lemma k_ext_app k l l' : k_ext k (l ++ l') = k_ext k l + k_ext k l'.
Proof. induction l as [|s l IH]; cbn [app k_ext fold_right]; [done|]. fold (k_ext k (l ++ l')). rewrite IH. unfold k_ext. lia. Qed.
Lemma k_ext_subs k k' l : (∀ s, s ∈ l → k_subs k' !! s = k_subs k !! s) → k_ext k' l = k_ext k l.
Proof.
  induction l as [|s l IH]; intros Hl; cbn; [done|]. rewrite (Hl s (list_elem_of_here _ _)). f_equal.
  apply IH. intros s' ?. apply Hl. by right.
Qed.
Lemma k_ext_filter k P l : k_ext k (List.filter P l) ≤ k_ext k l.
Proof.
  induction l as [|s l IH]; cbn [List.filter k_ext fold_right]; [done|]. fold (k_ext k l).
  destruct (P s); cbn [k_ext fold_right]; fold (k_ext k (List.filter P l)); repeat case_match; lia.
Qed.

Section Caps.
Context (opts : Options).
Hypothesis (Hhub : 0 < MaxSubscribers opts) (Htotal : 0 < MaxTotalSubscribers opts).

Record Capped (k : core) : Prop := {
  cap_hub : ∀ b, k_hub_ext k b ≤ MaxSubscribers opts;
  cap_total : k_total_ext k ≤ MaxTotalSubscribers opts;
}.
(** no hub gains, no hub is registered *)
Lemma capped_le k k' : (∀ b, k_hub_ext k' b ≤ k_hub_ext k b) → k_hubs k' = k_hubs k → Capped k → Capped k'.
Proof.
  intros Hle Hh [C1 C2]. split; [intros b; etrans; [apply Hle|apply C1]|]. etrans; [|exact C2]. unfold k_total_ext. rewrite Hh.
  apply msum_le. intros. apply Hle.
Qed.
Lemma ext_of_heap k k' b h h' : k_heap k !! b = Some h → k_heap k' = <[b := h']> (k_heap k) → k_subs k' = k_subs k →
  hc_subs h' = hc_subs h → ∀ i, k_hub_ext k' i = k_hub_ext k i.
Proof.
  intros Hb Hh Hs E i. unfold k_hub_ext, k_ext. rewrite Hh, Hs. destruct (decide (i = b)) as [->|].
  - by rewrite lookup_insert_eq, Hb, E.
  - by rewrite lookup_insert_ne.
Qed.
Lemma capped_hub k k' b h h' : k_heap k !! b = Some h → k_heap k' = <[b := h']> (k_heap k) → k_subs k' = k_subs k →
  hc_subs h' = hc_subs h → k_hubs k' = k_hubs k → Capped k → Capped k'.
Proof. intros Hb Hh Hs E Hi. apply capped_le; [|done]. intros i. by rewrite (ext_of_heap k k' b h h'). Qed.

Lemma capped_open k id : CI None k → k_hubs k !! id = None → Capped k → Capped (new_hub_core id k).
Proof.
  intros Hk Hn [C1 C2]. destruct (ci_next _ _ Hk _ (le_n _)) as (Hnone & _).
  assert (He : ∀ i, k_hub_ext (new_hub_core id k) i = if bool_decide (i = k_next k) then 0 else k_hub_ext k i).
  { intros i. unfold k_hub_ext, new_hub_core; cbn. case_bool_decide as E; [subst i; by rewrite lookup_insert_eq|].
    by rewrite lookup_insert_ne. }
  split; [intros b; rewrite He; case_bool_decide; [lia|apply C1]|].
  unfold k_total_ext. cbn [k_hubs new_hub_core k_set_hubs k_set_hub k_alloc]. rewrite msum_insert by done. rewrite He, bool_decide_eq_true_2 by done.
  etrans; [|exact C2]. apply msum_le. intros i b _. rewrite He. case_bool_decide; [apply k_hub_ext_nonneg|done].
Qed.
Lemma capped_subscribe k b h i : CI None k → k_heap k !! b = Some h → k_registered k b h →
  (i = false → k_hub_ext k b < MaxSubscribers opts ∧
               (0 < MaxTotalSubscribers opts → k_total_ext k < MaxTotalSubscribers opts)) →
  Capped k → Capped (subscribe_core b h i k).
Proof.
  intros Hk Hb Hr Hi [C1 C2]. destruct (ci_next _ _ Hk _ (le_n _)) as (_ & _ & Hs & _).
  assert (Hold : ∀ j hj, k_heap k !! j = Some hj → k_ext (subscribe_core b h i k) (hc_subs hj) = k_ext k (hc_subs hj)).
  { intros j hj Hj. apply k_ext_subs. intros s Hin. cbn. rewrite lookup_insert_ne; [done|]. intros <-.
    destruct (ho_subs _ _ _ _ (ci_hub _ _ Hk _ _ Hj) _ Hin). congruence. }
  set (n := if i then 0 else 1).
  assert (He : ∀ j, k_hub_ext (subscribe_core b h i k) j = k_hub_ext k j + if bool_decide (j = b) then n else 0).
  { intros j. unfold k_hub_ext at 1. change (k_heap (subscribe_core b h i k)) with (<[b := hc_set_subs (hc_subs h ++ [k_next k]) h]> (k_heap k)).
    case_bool_decide as E.
    - subst j. rewrite lookup_insert_eq. cbn [hc_subs hc_set_subs]. rewrite k_ext_app, (Hold b h Hb).
      unfold k_hub_ext. rewrite Hb. f_equal. cbn. rewrite lookup_insert_eq. unfold n. destruct i; lia.
    - rewrite lookup_insert_ne by done. unfold k_hub_ext. destruct (k_heap k !! j) as [hj|] eqn:Hj; [|lia].
      rewrite (Hold j hj Hj). lia. }
  split.
  - intros j. rewrite He. specialize (C1 j). unfold n. case_bool_decide as E; [|lia]. subst j.
    destruct i; [lia|]. destruct (Hi eq_refl). lia.
  - unfold k_total_ext. change (k_hubs (subscribe_core b h i k)) with (k_hubs k).
    assert (Et : msum (k_hub_ext (subscribe_core b h i k)) (k_hubs k) = k_total_ext k + n).
    { rewrite (msum_delete _ _ _ _ Hr), He, bool_decide_eq_true_2 by done. unfold k_total_ext.
      rewrite (msum_delete (k_hub_ext k) _ _ _ Hr).
      rewrite (msum_ext (k_hub_ext (subscribe_core b h i k)) (k_hub_ext k)); [lia|].
      intros id j [Hne Hj]%lookup_delete_Some. rewrite He, bool_decide_eq_false_2; [lia|]. intros ->.
      destruct (ci_index _ _ Hk _ _ Hj) as (hj & Hhj & <-). congruence. }
    rewrite Et. unfold n. destruct i; [lia|]. destruct (Hi eq_refl) as [_ Ht]. specialize (Ht Htotal). lia.
Qed.
Lemma ext_closed k s b h i l : k_subs k !! s = Some (b, false, i) → k_ext (unsubscribe_core s b h i k) l = k_ext k l.
Proof.
  intros Hs. induction l as [|s' l IH]; cbn [k_ext fold_right]; [done|]. fold (k_ext (unsubscribe_core s b h i k) l).
  rewrite IH. f_equal. cbn. destruct (decide (s' = s)) as [->|]; [by rewrite lookup_insert_eq, Hs|by rewrite lookup_insert_ne].
Qed.
Lemma capped_remove k b h f : k_heap k !! b = Some h → k_registered k b h → Capped k → Capped (remove_core b h f k).
Proof.
  intros Hb Hr [C1 C2].
  assert (He : ∀ i, k_hub_ext (remove_core b h f k) i = k_hub_ext k i).
  { apply (ext_of_heap _ _ b h (hc_with false None (hc_gen h) None None h)); [done| | |done];
      unfold remove_core, close_pub; by destruct (hc_pub h). }
  split; [intros i; rewrite He; apply C1|]. etrans; [|exact C2]. unfold k_total_ext.
  assert (k_hubs (remove_core b h f k) = delete (hc_id h) (k_hubs k)) as -> by (unfold remove_core, close_pub; by destruct (hc_pub h)).
  rewrite (msum_delete (k_hub_ext k) (k_hubs k) (hc_id h) b Hr).
  rewrite (msum_ext (k_hub_ext (remove_core b h f k)) (k_hub_ext k)) by done. pose proof (k_hub_ext_nonneg k b). lia.
Qed.

Lemma step_capped l k k' : CI None k → hub_step opts l k k' → Capped k → Capped k'.
Proof.
  intros Hk Hs. revert Hk.
  destruct Hs as [k0 id f Hn Hf | k0 b h f Hb Hr Ha Hf | k0 b h f Hb Hr Hf | k0 p b h at_ Hb Hp | k0 b h m Hb Hr
    | k0 b h i Hb Hr Hi | k0 s b h i Hb Hs | k0 b h f force Hb Hr Ha Hf | k0 t | k0 t Hno]; intros Hk Hc.
  - apply (capped_open k0 id) in Hc; [|done..]. eapply (capped_hub (new_hub_core id k0) _ (k_next k0)); [apply hub_heap_set|reflexivity..|exact Hc].
  - by eapply capped_hub.
  - assert (Hc1 : Capped (release_core b h k0)).
    { apply (capped_hub k0 _ b h (hc_with false None (hc_gen h) (hc_timer h) (hc_kf h) h)); [done| | |reflexivity| |done]; unfold release_core, close_pub; by destruct (hc_pub h). }
    eapply (capped_hub (release_core b h k0) _ b); [apply hub_heap_set|reflexivity..|exact Hc1].
  - apply (capped_hub k0 _ b h (hc_with false None (hc_gen h) (Some (k_next k0)) (hc_kf h) h)); [done| | |reflexivity| |done]; unfold arm_core, close_pub; by destruct (hc_pub h).
  - by eapply capped_hub.
  - by apply capped_subscribe.
  - apply (capped_le k0); [|done|done]. intros j. unfold k_hub_ext at 1. cbn [k_heap unsubscribe_core k_set_hub k_set_sub].
    destruct (decide (j = b)) as [->|].
    + rewrite lookup_insert_eq, (ext_closed _ _ _ _ _ _ Hs). unfold k_hub_ext. rewrite Hb. apply k_ext_filter.
    + rewrite lookup_insert_ne by done. unfold k_hub_ext. destruct (k_heap k0 !! j); [|done].
      by rewrite (ext_closed _ _ _ _ _ _ Hs).
  - by apply capped_remove.
  - by apply (capped_le k0); [intros; apply Z.le_refl|..].
  - by apply (capped_le k0); [intros; apply Z.le_refl|..].
Qed.
End Caps.

Section Theorems.
Context (o : Options) (unicode_upper stripeOwnerKey : bytes → bytes).
Context (CodecFamily : bytes → bytes) (ExtradataHeight : bytes → bytes → Z) (KeyframeHeight : bytes → Z).
#[local] Notation opts := (with_defaults o).
#[local] Notation exec := (exec opts unicode_upper stripeOwnerKey CodecFamily ExtradataHeight KeyframeHeight).
#[local] Notation reachable := (reachable opts unicode_upper stripeOwnerKey CodecFamily ExtradataHeight KeyframeHeight).


(** C23. The caps hold: no reachable registry has more external sessions on a
    broadcast than MaxSubscribers, or on all of them than MaxTotalSubscribers,
    however subscribes, closes, takeovers and removals interleave. *)
Theorem viewer_caps_hold g b : reachable g →
  externalSubsLocked g (hub_of g b) ≤ MaxSubscribers opts ∧ totalExternalSubsLocked g ≤ MaxTotalSubscribers opts.
Proof.
  assert (Hh : 0 < MaxSubscribers opts) by (cbn; destruct (Z.leb_spec (MaxSubscribers o) 0); lia).
  assert (Ht : 0 < MaxTotalSubscribers opts) by (cbn; destruct (Z.leb_spec (MaxTotalSubscribers o) 0); lia).
  intros Hg. destruct (reachable_core opts unicode_upper stripeOwnerKey CodecFamily ExtradataHeight KeyframeHeight
    (grace_default o) (Capped opts)) with (g := g) as [_ [C1 C2]]; [|by apply step_capped|done|].
  { split; [intros i; change (k_hub_ext (core_of NewRegistry) i) with 0; lia|].
    unfold k_total_ext. change (k_hubs (core_of NewRegistry)) with (∅ : gmap bytes nat). rewrite msum_empty. lia. }
  rewrite k_ext_of, k_total_ext_of. split; [|done]. specialize (C1 b). unfold k_hub_ext in C1.
  cbn [k_heap core_of] in C1. rewrite lookup_fmap in C1. unfold hub_of. destruct (h_heap g !! b); [exact C1|]. change (0 ≤ MaxSubscribers opts). lia.
Qed.
End Theorems.
