(* ===== verification/HubSamples.v ===== *)
(** internal/hub: concrete runs of the registry. Each theorem of HubLife.v,
    HubGone.v, HubCaps.v and HubAcc.v at one, and runs that show corners of the code. *)
From S2P Require Import HubLife HubGone HubCaps HubAcc.
#[local] Open Scope Z_scope.

(** every option at its default, the bus and the hooks on *)
Definition sample_options : Options :=
  MkOptions 0 0 0 0 false false true 0 0 0 0 0 false 2 0 0 0 true true true true true None None.
Definition code : bytes := str "234567"%string.
Definition sample_run : list op → Registry → Registry :=
  run (with_defaults sample_options) (λ s, s) (λ s, s) (λ s, s) (λ _ _, 0) (λ _, 0).
Definition after (l : list op) : Registry := sample_run l NewRegistry.
(** a broadcast (hub 0, publisher 1, its session bound) with a viewer (2) *)
Definition on_air : list op :=
  [OResume code [1; 2; 3; 4] 10; OBindConn 1; OSubscribe code (plain_opts false false) 20].

Lemma after_reachable l : reachable (with_defaults sample_options) (λ s, s) (λ s, s) (λ s, s) (λ _ _, 0) (λ _, 0) (after l).
Proof. by exists l. Qed.

Example on_air_state :
  h_hubs (after on_air) !! code = Some 0%nat ∧ b_publisher (hub_of (after on_air) 0) = Some 1%nat ∧
  b_subs (hub_of (after on_air) 0) = [2%nat] ∧ p_conn (pub_of (after on_air) 1) = true.
Proof. vm_compute. done. Qed.

(** ** The theorems, at a broadcast on the air *)

Lemma registry_wf_witness : CI None (core_of (after on_air)).
Proof.
  apply (registry_wf sample_options (λ s, s) (λ s, s) (λ s, s) (λ _ _, 0) (λ _, 0)). apply after_reachable.
Defined.
Lemma live_survives_witness :
  b_publisher (hub_of (sample_run [OTimerFires 7; OEnd code 30; OStop 5 40] (after on_air)) 0) = Some 1%nat.
Proof.
  refine (proj1 (proj2 (live_survives sample_options (λ s, s) (λ s, s) (λ s, s) (λ _ _, 0) (λ _, 0) (after on_air) code 0 1
    [OTimerFires 7; OEnd code 30; OStop 5 40] (after_reachable on_air) _ _ _))).
  - vm_compute. reflexivity.
  - vm_compute. reflexivity.
  - repeat constructor; intros l Hl Hf; destruct Hf as [E|[E|E]]; subst l; cbn in Hl; try done; congruence.
Defined.
Lemma deposed_inert_witness :
  let g := sample_run [OTakeOver code [5; 6; 7; 8] 50] (after on_air) in
  PublisherStop (with_defaults sample_options) 1 60 g = (false, g).
Proof.
  cbv zeta. refine (proj2 (proj2 (proj2 (deposed_inert sample_options (λ s, s) (λ _ _, 0) (λ _, 0)
    (sample_run [OTakeOver code [5; 6; 7; 8] 50] (after on_air)) 1 [] [] (StreamFrame.Build_StreamFrameHeader true 0 0 0 0) 60 _))) _).
  - vm_compute. reflexivity.
  - right. left. vm_compute. reflexivity.
Defined.
Lemma removal_tells_witness :
  ∃ g', removeBroadcast (with_defaults sample_options) code (λ _ _, true) true 4006 70 (after on_air) = (true, g') ∧
    h_log g' = h_log (after on_air) ++ [PublisherClosed 1 4006; SubscriberClosed 2 4006; OnBroadcastExpired code;
      OnOriginEnded 60 1; Bus (MkBus code [] (BroadcastEnded EndedKilled))].
Proof.
  pose proof (removal_tells sample_options (λ s, s) (λ s, s) (λ s, s) (λ _ _, 0) (λ _, 0) (after on_air) code (λ _ _, true)
    true 4006 70 (after_reachable on_air)) as H.
  assert (E : h_hubs (after on_air) !! code = Some 0%nat) by (vm_compute; reflexivity). rewrite E in H. cbn [orb andb] in H.
  destruct H as (g' & Hr & R). exists g'. split; [exact Hr|]. rewrite (rm_log _ _ _ _ _ _ _ R). f_equal.
Defined.
Lemma abandoned_ends_witness :
  let g := sample_run [OClose 1 30] (after on_air) in
  ∃ t, h_hubs (snd (timer_callback (with_defaults sample_options) t 99 (snd (timer_fires t g)))) !! code = None.
Proof.
  cbv zeta.
  destruct (abandoned_ends sample_options (λ s, s) (λ s, s) (λ s, s) (λ _ _, 0) (λ _, 0)
    (sample_run [OClose 1 30] (after on_air)) code 0 99) as (t & _ & R).
  - exists (on_air ++ [OClose 1 30]). symmetry. apply run_app.
  - vm_compute. reflexivity.
  - vm_compute. reflexivity.
  - exists t. rewrite (rm_index _ _ _ _ _ _ _ R). apply lookup_delete_eq.
Defined.
Lemma viewer_caps_hold_witness : externalSubsLocked (after on_air) (hub_of (after on_air) 0) ≤ 15.
Proof.
  refine (proj1 (viewer_caps_hold sample_options (λ s, s) (λ s, s) (λ s, s) (λ _ _, 0) (λ _, 0) (after on_air) 0 _)).
  apply after_reachable.
Defined.

(** ** Corners *)

(** The grace callback compares generations only. A timer (2) that fired, its
    callback not yet run, outlives the removal of its hub, and ends the next
    broadcast under the same code at once, when that is in its grace with the
    same generation (hub 3, publisher 4, timer 5 armed until much later). *)
Definition stale_grace : list op :=
  [OResume code [1; 2; 3; 4] 0; OClose 1 10; OTimerFires 2; OEnd code 20;
   OResume code [1; 2; 3; 4] 30; OClose 4 40].
Example stale_grace_ends_new_broadcast :
  h_hubs (after stale_grace) !! code = Some 3%nat ∧
  t_at <$> h_timers (after stale_grace) !! 5%nat = Some (40 + 300 * 10 ^ 9) ∧
  h_hubs (sample_run [OTimerCallback 2 50] (after stale_grace)) !! code = None.
Proof. vm_compute. done. Qed.

(** A scrape between a hub's removal (or a Close) and the fold of its
    subscribers misses their counters: the reported total goes down, then up. *)
Example scrape_dips :
  let g := sample_run [OSubCount 2 EgressDatagramBytes 100] (after on_air) in
  let g' := sample_run [ORemoveLocked code (λ _ _, true) true 30] g in
  Stats_total g EgressDatagramBytes = 100 ∧ Stats_total g' EgressDatagramBytes = 0 ∧
  Stats_total (sample_run [OSubClose 2] g') EgressDatagramBytes = 100.
Proof. vm_compute. done. Qed.

(** A bad datagram of a publisher whose hub is gone is counted on the orphaned
    hub, where no scrape finds it. *)
Example orphan_counts_nothing :
  let g := sample_run [OTerminate code 4006 30] (after on_air) in
  let g' := sample_run [ODatagram 1 [9] 40] g in
  b_n (hub_of g' 0) BadDatagrams = 1 ∧ Stats_total g' BadDatagrams = Stats_total g BadDatagrams.
Proof. vm_compute. done. Qed.

(** Edge hubs fill the registry for origins: with two edges and a limit of two,
    a mint is refused. *)
Example edges_fill_the_registry :
  let g := after [OEdge code [1; 2; 3; 4] 0; OEdge (str "765432"%string) [1; 2; 3; 4] 0] in
  fst (StartPublish (with_defaults sample_options) (λ s, s) [] [] [] 10 g) = Err ErrMaxBroadcasts.
Proof. vm_compute. done. Qed.
