(* ===== verification/LaneData.v ===== *)
(** internal/hub: what is behind one subscriber's session. The keyframe lane, the
    carriers, the audio carrier and the goroutines that write them (hub.go from
    [drain] on, leg.go).

    The counters and the queues are the subscriber's ([HubSubscriber]); the streams
    of its session are kept with what was written to them. A section under kfMu,
    carMu or the registry's mutex is one action, as are an access of an atomic
    and a call of the session. *)
From S2P Require Export Conc HubOps.
#[local] Open Scope Z_scope.

(** ** Streams

    [Failed]: a Write or the Close returned an error, and nothing was reset yet.
    [Finished]: closed with a FIN; [st_fin] still says so after a later reset. [st_whole]: what was written by the calls that
    returned no error; [st_torn]: what a failed one left behind it. *)
Inductive stream_kind := KeyframeStream | CarrierStream | AudioStream.
Inductive stream_state := Open | Failed | Finished | Cancelled.
#[export] Instance stream_state_eq_dec : EqDecision stream_state.
Proof. solve_decision. Defined.
#[export] Instance stream_kind_eq_dec : EqDecision stream_kind.
Proof. solve_decision. Defined.

Record stream := MkStream {
  st_kind : stream_kind;
  st_whole : list bytes;
  st_torn : bytes;
  st_fin : bool;
  st_state : stream_state;
}.
Definition set_st_whole (f : (list bytes) → list bytes) (x : stream) : stream :=
  MkStream (st_kind x) (f (st_whole x)) (st_torn x) (st_fin x) (st_state x).
Definition set_st_torn (f : bytes → bytes) (x : stream) : stream :=
  MkStream (st_kind x) (st_whole x) (f (st_torn x)) (st_fin x) (st_state x).
Definition set_st_fin (f : bool → bool) (x : stream) : stream :=
  MkStream (st_kind x) (st_whole x) (st_torn x) (f (st_fin x)) (st_state x).
Definition set_st_state (f : stream_state → stream_state) (x : stream) : stream :=
  MkStream (st_kind x) (st_whole x) (st_torn x) (st_fin x) (f (st_state x)).


(** ** The lanes *)

(** Under kfMu. [kfWriters]: the WaitGroup, as the streams its goroutines write. *)
Record KfLane := MkKf {
  kfCurrent : option nat;
  kfLastSeq : Z;
  kfWriters : list nat;
  kfConsecOpenFailed : Z;
  kfConsecSlow : Z;
  carConsecOpenFailed : Z;
  evicting : bool;
}.
Definition set_kfCurrent (f : (option nat) → option nat) (x : KfLane) : KfLane :=
  MkKf (f (kfCurrent x)) (kfLastSeq x) (kfWriters x) (kfConsecOpenFailed x) (kfConsecSlow x) (carConsecOpenFailed x) (evicting x).
Definition set_kfLastSeq (f : Z → Z) (x : KfLane) : KfLane :=
  MkKf (kfCurrent x) (f (kfLastSeq x)) (kfWriters x) (kfConsecOpenFailed x) (kfConsecSlow x) (carConsecOpenFailed x) (evicting x).
Definition set_kfWriters (f : (list nat) → list nat) (x : KfLane) : KfLane :=
  MkKf (kfCurrent x) (kfLastSeq x) (f (kfWriters x)) (kfConsecOpenFailed x) (kfConsecSlow x) (carConsecOpenFailed x) (evicting x).
Definition set_kfConsecOpenFailed (f : Z → Z) (x : KfLane) : KfLane :=
  MkKf (kfCurrent x) (kfLastSeq x) (kfWriters x) (f (kfConsecOpenFailed x)) (kfConsecSlow x) (carConsecOpenFailed x) (evicting x).
Definition set_kfConsecSlow (f : Z → Z) (x : KfLane) : KfLane :=
  MkKf (kfCurrent x) (kfLastSeq x) (kfWriters x) (kfConsecOpenFailed x) (f (kfConsecSlow x)) (carConsecOpenFailed x) (evicting x).
Definition set_carConsecOpenFailed (f : Z → Z) (x : KfLane) : KfLane :=
  MkKf (kfCurrent x) (kfLastSeq x) (kfWriters x) (kfConsecOpenFailed x) (kfConsecSlow x) (f (carConsecOpenFailed x)) (evicting x).
Definition set_evicting (f : bool → bool) (x : KfLane) : KfLane :=
  MkKf (kfCurrent x) (kfLastSeq x) (kfWriters x) (kfConsecOpenFailed x) (kfConsecSlow x) (carConsecOpenFailed x) (f (evicting x)).


(** The undeliverable-video tracker. [None]: the zero [time.Time]. *)
Record Undeliverable := MkUndel {
  undelivered : Z;
  undeliveredSince : Z;
  kfNewestID : Z;
  undeliverableNoticeAt : option Z;
  episodeNotices : Z;
  undeliverableNotices : Z;
}.


(** Under carMu. [legTimers]: the reset timer of each stream that had one. *)
Record CarLane := MkCar {
  carCurrent : option nat;
  legFinishing : option nat;
  legWriting : bool;
  legKfID : option Z;
  legTimers : gmap nat timer_state;
}.
Definition set_carCurrent (f : (option nat) → option nat) (x : CarLane) : CarLane :=
  MkCar (f (carCurrent x)) (legFinishing x) (legWriting x) (legKfID x) (legTimers x).
Definition set_legFinishing (f : (option nat) → option nat) (x : CarLane) : CarLane :=
  MkCar (carCurrent x) (f (legFinishing x)) (legWriting x) (legKfID x) (legTimers x).
Definition set_legWriting (f : bool → bool) (x : CarLane) : CarLane :=
  MkCar (carCurrent x) (legFinishing x) (f (legWriting x)) (legKfID x) (legTimers x).
Definition set_legKfID (f : (option Z) → option Z) (x : CarLane) : CarLane :=
  MkCar (carCurrent x) (legFinishing x) (legWriting x) (f (legKfID x)) (legTimers x).
Definition set_legTimers (f : (gmap nat timer_state) → gmap nat timer_state) (x : CarLane) : CarLane :=
  MkCar (carCurrent x) (legFinishing x) (legWriting x) (legKfID x) (f (legTimers x)).


Inductive lane_event :=
  | SentDatagram (d : bytes)
  | SessionClosed (code : Z)
  (** [countBandwidthDrop], [countBandwidthDropBytes] of the hub *)
  | BandwidthDrop (n : Z)
  | BandwidthDropBytes (n : Z).

(** [l_queueClosed]: [close(s.queue)], and of the audio queue with it; [l_done],
    [l_audioDone]: the drains have ended. *)
Record Lane := MkLane {
  l_s : HubSubscriber;
  l_queueClosed : bool;
  l_done : bool;
  l_audioDone : bool;
  l_streams : gmap nat stream;
  l_next : nat;
  l_kf : KfLane;
  l_undel : Undeliverable;
  l_car : CarLane;
  l_out : list lane_event;
}.
Definition set_l_s (f : HubSubscriber → HubSubscriber) (x : Lane) : Lane :=
  MkLane (f (l_s x)) (l_queueClosed x) (l_done x) (l_audioDone x) (l_streams x) (l_next x) (l_kf x) (l_undel x) (l_car x) (l_out x).
Definition set_l_queueClosed (f : bool → bool) (x : Lane) : Lane :=
  MkLane (l_s x) (f (l_queueClosed x)) (l_done x) (l_audioDone x) (l_streams x) (l_next x) (l_kf x) (l_undel x) (l_car x) (l_out x).
Definition set_l_done (f : bool → bool) (x : Lane) : Lane :=
  MkLane (l_s x) (l_queueClosed x) (f (l_done x)) (l_audioDone x) (l_streams x) (l_next x) (l_kf x) (l_undel x) (l_car x) (l_out x).
Definition set_l_audioDone (f : bool → bool) (x : Lane) : Lane :=
  MkLane (l_s x) (l_queueClosed x) (l_done x) (f (l_audioDone x)) (l_streams x) (l_next x) (l_kf x) (l_undel x) (l_car x) (l_out x).
Definition set_l_streams (f : (gmap nat stream) → gmap nat stream) (x : Lane) : Lane :=
  MkLane (l_s x) (l_queueClosed x) (l_done x) (l_audioDone x) (f (l_streams x)) (l_next x) (l_kf x) (l_undel x) (l_car x) (l_out x).
Definition set_l_next (f : nat → nat) (x : Lane) : Lane :=
  MkLane (l_s x) (l_queueClosed x) (l_done x) (l_audioDone x) (l_streams x) (f (l_next x)) (l_kf x) (l_undel x) (l_car x) (l_out x).
Definition set_l_kf (f : KfLane → KfLane) (x : Lane) : Lane :=
  MkLane (l_s x) (l_queueClosed x) (l_done x) (l_audioDone x) (l_streams x) (l_next x) (f (l_kf x)) (l_undel x) (l_car x) (l_out x).
Definition set_l_undel (f : Undeliverable → Undeliverable) (x : Lane) : Lane :=
  MkLane (l_s x) (l_queueClosed x) (l_done x) (l_audioDone x) (l_streams x) (l_next x) (l_kf x) (f (l_undel x)) (l_car x) (l_out x).
Definition set_l_car (f : CarLane → CarLane) (x : Lane) : Lane :=
  MkLane (l_s x) (l_queueClosed x) (l_done x) (l_audioDone x) (l_streams x) (l_next x) (l_kf x) (l_undel x) (f (l_car x)) (l_out x).
Definition set_l_out (f : (list lane_event) → list lane_event) (x : Lane) : Lane :=
  MkLane (l_s x) (l_queueClosed x) (l_done x) (l_audioDone x) (l_streams x) (l_next x) (l_kf x) (l_undel x) (l_car x) (f (l_out x)).


