(* ===== verification/LaneOps.v ===== *)
(** internal/hub/hub.go, leg.go: the goroutines behind a subscriber's session.

    Keyframes go out on streams of their own, one in flight at a time; deltas of
    a reliable subscriber as records on a carrier per GOP. What a call of the
    session answers, and what the bandwidth limiter says, is the scheduler's
    choice ([ans]); write deadlines are not kept, since a Write may fail at any time.
    kfMu is not released by [sendKeyframe] while it takes carMu or opens the stream,
    so that its section is one action. *)
From S2P Require Export LaneData HubSubs HubMedia.
#[local] Open Scope Z_scope.

Definition KeyframeOpenFailEvictThreshold := 10.
Definition KeyframeSlowEvictThreshold := 10.
Definition CarrierOpenFailEvictThreshold := 10.
Definition UndeliverableMinKeyframes := 2.
Definition UndeliverableNoticeInterval := 10 ^ 9.
Definition UndeliverableMaxNotices := 3.

(** what the environment answers: success, the bytes a failing Write moved, the clock *)
Record ans := MkAns { ok : bool; wrote : nat; at_ : Z }.

(** goroutines and calls, by name; a drain's locals are in its name *)
Inductive go :=
  | GoSendKeyframe (msg : bytes) (seq : Z)
  | GoWriteKeyframe (st : nat) (msg : bytes) (handedAt : Z)
  | GoEvict
  | GoClose
  | GoEnqueue (dgram : bytes)
  | GoDrain (carSeen : Z) (carDead : bool)
  | GoAudio (car : option nat)
  | GoLegReset (st : nat).

Notation P := (prog ans Lane go).

(** ** Counters and calls of the session *)

Definition add_count (k : counter) (n : Z) (l : Lane) : Lane := set_l_s (set_s_n (bump k n)) l.
Definition log_event (e : lane_event) (l : Lane) : Lane := set_l_out (λ o, o ++ [e]) l.
Definition add (k : counter) (n : Z) : P unit := pmodify (add_count k n).
Definition closed : P bool := pgets (λ l, s_closed (l_s l)).
Definition lane_cfg (l : Lane) : SubConfig := cfg (s_sub (l_s l)).
Definition rotations (l : Lane) : Z := carRotations (lanes (s_sub (l_s l))).
Definition consumeBandwidth (n : Z) : P bool := sect (λ a l, (ok a, l)).
Definition countDrop (n : Z) : P unit :=
  _ ← add DatagramsDropped 1; pmodify (log_event (BandwidthDrop n)).
Definition SendDatagram (d : bytes) : P bool :=
  sect (λ a l, (ok a, if ok a then log_event (SentDatagram d) l else l)).

Definition upd_stream (st : nat) (f : stream → stream) : Lane → Lane := set_l_streams (alter f st).
Definition open_stream (kind : stream_kind) (a : ans) (l : Lane) : option nat * Lane :=
  if ok a then
    (Some (l_next l), set_l_next S (set_l_streams (<[l_next l := MkStream kind [] [] false Open]>) l))
  else (None, l).
Definition cancel_stream (st : nat) : Lane → Lane := upd_stream st (set_st_state (λ _, Cancelled)).
Definition CancelWrite (st : nat) : P unit := pmodify (cancel_stream st).
Definition state_of (l : Lane) (st : nat) : option stream_state := st_state <$> l_streams l !! st.
(** the bytes moved, and whether there was no error *)
Definition write_stream (st : nat) (buf : bytes) (a : ans) (l : Lane) : (Z * bool) * Lane :=
  if bool_decide (state_of l st = Some Open) then
    if ok a then ((zlen buf, true), upd_stream st (set_st_whole (λ w, w ++ [buf])) l)
    else let moved := take (wrote a) buf in
         ((zlen moved, false), upd_stream st (λ x, set_st_torn (λ _, moved) (set_st_state (λ _, Failed) x)) l)
  else ((0, false), l).
Definition close_stream (st : nat) (a : ans) (l : Lane) : bool * Lane :=
  if bool_decide (state_of l st = Some Open) then
    (ok a, upd_stream st (λ x, set_st_fin (λ _, ok a) (set_st_state (λ _, if ok a then Finished else Failed) x)) l)
  else (false, l).

Section Lane_.
Context (opts : Options).

Definition sendSidebandDatagram (d : bytes) : P unit :=
  paid ← consumeBandwidth (zlen d);
  if negb paid then countDrop (zlen d) else
  sent ← SendDatagram d;
  if negb sent then add SendErrors 1 else add EgressDatagramBytes (zlen d).

(** ** Eviction *)

(** [go s.evict()], [go s.evictStalled()] *)
Definition go_evict (evict : bool) : P unit :=
  if evict then sect_go (λ _ l, (tt, l)) (λ _, [GoEvict]) else mret tt.
(** advancing a streak, and the latch *)
Definition latch (due : bool) (l : Lane) : bool * Lane :=
  let evict := negb (evicting (l_kf l)) && due in
  (evict, if evict then set_l_kf (set_evicting (λ _, true)) l else l).
Definition noteKeyframeOpenFailedLocked (l : Lane) : bool * Lane :=
  let l := set_l_kf (set_kfConsecOpenFailed (λ n, n + 1)) l in
  latch (kfConsecOpenFailed (l_kf l) >=? KeyframeOpenFailEvictThreshold) l.
Definition noteCarrierOpenFailed : P unit :=
  evict ← sect (λ _ l,
    let l := set_l_kf (set_carConsecOpenFailed (λ n, n + 1)) l in
    latch (carConsecOpenFailed (l_kf l) >=? CarrierOpenFailEvictThreshold) l);
  go_evict evict.
Definition noteCarrierOpenSucceeded : P unit := pmodify (set_l_kf (set_carConsecOpenFailed (λ _, 0))).

(** ** Undeliverable video *)

(** the tracker after a hand-off, and the notice it sends *)
Definition note_outcome (closed moved : bool) (handedAt now : Z) (u : Undeliverable)
    : option bytes * Undeliverable :=
  if moved then
    (None, MkUndel 0 0 (kfNewestID u) (undeliverableNoticeAt u) 0 (undeliverableNotices u))
  else if closed then (None, u)
  else
    let n := undelivered u + 1 in
    let since := if n =? 1 then handedAt else undeliveredSince u in
    let stalled := now - since in
    let recent := match undeliverableNoticeAt u with
                  | Some t => now - t <? UndeliverableNoticeInterval
                  | None => false
                  end in
    if (n <? UndeliverableMinKeyframes) || (stalled <? UndeliverableAfter opts) ||
       (episodeNotices u >=? UndeliverableMaxNotices) || recent
    then (None, MkUndel n since (kfNewestID u) (undeliverableNoticeAt u) (episodeNotices u) (undeliverableNotices u))
    else
      (Some (VideoUndeliverable.AppendVideoUndeliverable []
               {| VideoUndeliverable.KeyframeID := kfNewestID u;
                  VideoUndeliverable.StalledMs := uint32 (Z.min (stalled ÷ 10 ^ 6) (2 ^ 32 - 1)) |}),
       MkUndel n since (kfNewestID u) (Some now) (episodeNotices u + 1) (undeliverableNotices u)).
Definition count_notice (u : Undeliverable) : Undeliverable :=
  MkUndel (undelivered u) (undeliveredSince u) (kfNewestID u) (undeliverableNoticeAt u) (episodeNotices u)
    (undeliverableNotices u + 1).
Definition noteKeyframeOutcome (handedAt : Z) (moved : bool) : P unit :=
  exempt ← pgets (λ l, internal (lane_cfg l) || stripeLeg (lane_cfg l));
  if exempt : bool then mret tt else
  notice ← sect (λ a l,
    let r := note_outcome (s_closed (l_s l)) moved handedAt (at_ a) (l_undel l) in
    (fst r, set_l_undel (λ _, snd r) l));
  match notice with
  | None => mret tt
  | Some msg => _ ← pmodify (set_l_undel count_notice); sendSidebandDatagram msg
  end.

(** ** The keyframe lane *)

Definition keyframeID (msg : bytes) : option Z :=
  match StreamFrame.ParseStreamFrameHeader msg with Ok h => Some (StreamFrame.FrameID h) | _ => None end.

Definition rotate_carrier : Lane → Lane :=
  set_l_s (set_s_sub (λ q, MkSub (cfg q) (stripe q)
    (let x := lanes q in MkLanes (queue x) (audioQueue x) (dropped x) (carrierRecordsDropped x)
                           (carrierQueueOverflow x) (carDeadRotation x) (carRotations x + 1)))).
(** under carMu, in [sendKeyframe]'s section; the abandoned write's deadline is not kept *)
Definition legNoteKeyframe (msg : bytes) (l : Lane) : Lane :=
  rotate_carrier (set_l_car (set_legKfID (λ _, keyframeID msg)) l).

Definition cancel_current (l : Lane) : Lane :=
  match kfCurrent (l_kf l) with
  | Some st => set_l_kf (set_kfCurrent (λ _, None)) (cancel_stream st l)
  | None => l
  end.
Definition note_newest (msg : bytes) (l : Lane) : Lane :=
  match keyframeID msg with
  | Some id => set_l_undel (λ u, MkUndel (undelivered u) (undeliveredSince u) id (undeliverableNoticeAt u)
                                   (episodeNotices u) (undeliverableNotices u)) l
  | None => l
  end.

Inductive kf_result := KfStale | KfNoStream (evict : bool) (handedAt : Z) | KfOpened (st : nat) (handedAt : Z).
(** the section under kfMu *)
Definition kf_section (msg : bytes) (seq : Z) (a : ans) (l : Lane) : kf_result * Lane :=
  if s_closed (l_s l) || (seq <? kfLastSeq (l_kf l)) then (KfStale, l) else
  let l := note_newest msg (set_l_kf (set_kfLastSeq (λ _, seq)) l) in
  let l := if s_legCarrier (l_s l) then legNoteKeyframe msg l
           else if reliable (lane_cfg l) then rotate_carrier l else l in
  match open_stream KeyframeStream a (cancel_current l) with
  | (None, l) => let '(evict, l) := noteKeyframeOpenFailedLocked l in (KfNoStream evict (at_ a), l)
  | (Some st, l) =>
      (KfOpened st (at_ a),
       set_l_kf (λ k, set_kfWriters (λ w, w ++ [st]) (set_kfCurrent (λ _, Some st)
                        (set_kfConsecOpenFailed (λ _, 0) k))) l)
  end.
Definition sendKeyframe (msg : bytes) (seq : Z) : P unit :=
  gone ← closed;
  if gone : bool then mret tt else
  paid ← consumeBandwidth (zlen msg);
  if negb paid then _ ← add KfBandwidth 1; pmodify (log_event (BandwidthDropBytes (zlen msg))) else
  r ← sect_go (kf_section msg seq)
        (λ r, match r with KfOpened st t => [GoWriteKeyframe st msg t] | _ => [] end);
  match r with
  | KfStale => add KfSuperseded 1
  | KfNoStream evict t =>
      _ ← add KfOpenFailed 1;
      _ ← noteKeyframeOutcome t false;
      go_evict evict
  | KfOpened _ _ => mret tt
  end.

(** superseded, to be evicted *)
Definition classify (st : nat) (delivered : bool) (l : Lane) : (bool * bool) * Lane :=
  let superseded := negb (bool_decide (kfCurrent (l_kf l) = Some st)) in
  let l := if superseded then l else set_l_kf (set_kfCurrent (λ _, None)) l in
  if delivered then ((superseded, false), set_l_kf (set_kfConsecSlow (λ _, 0)) l)
  else if superseded then ((superseded, false), l)
  else
    let l := set_l_kf (set_kfConsecSlow (λ n, n + 1)) l in
    let '(evict, l) := latch (negb (s_leg (l_s l)) && (kfConsecSlow (l_kf l) >=? KeyframeSlowEvictThreshold)) l in
    ((superseded, evict), l).
Definition writer_done (st : nat) : Lane → Lane :=
  set_l_kf (set_kfWriters (List.filter (λ w, negb (Nat.eqb w st)))).
Definition writeKeyframe (st : nat) (msg : bytes) (handedAt : Z) : P unit :=
  w ← sect (write_stream st msg);
  _ ← noteKeyframeOutcome handedAt (fst w >? 0);
  delivered ← (if snd w : bool then sect (close_stream st) else mret false);
  c ← sect (λ _ l, classify st delivered l);
  if delivered : bool then
    (* the counts, and the deferred Done *)
    pmodify (λ l, writer_done st (add_count EgressKeyframeBytes (zlen msg) (add_count KeyframeStreamsSent 1 l)))
  else
    _ ← CancelWrite st;
    _ ← add (if fst c : bool then KfSuperseded else KfSlow) 1;
    _ ← go_evict (snd c);
    pmodify (writer_done st).

(** ** Carriers *)

Definition currentCarrier : P (option nat) := pgets (λ l, carCurrent (l_car l)).
Definition drop_carrier (st : nat) (l : Lane) : Lane :=
  if bool_decide (carCurrent (l_car l) = Some st) then set_l_car (set_carCurrent (λ _, None)) l else l.

Definition writeCarrier (buf : bytes) : P bool :=
  cur ← currentCarrier;
  match cur with
  | None => mret false
  | Some st =>
      w ← sect (write_stream st buf);
      if snd w : bool then mret true else
      _ ← CancelWrite st;
      _ ← pmodify (drop_carrier st);
      mret false
  end.
(** an opened stream becomes the current carrier, unless the subscriber has closed *)
Definition install_carrier (st : nat) : P bool :=
  sect (λ _ l, if s_closed (l_s l) then (false, l) else (true, set_l_car (set_carCurrent (λ _, Some st)) l)).
Definition openCarrier : P bool :=
  r ← sect (open_stream CarrierStream);
  match r with
  | None => _ ← noteCarrierOpenFailed; mret false
  | Some st =>
      _ ← noteCarrierOpenSucceeded;
      got ← install_carrier st;
      if negb got then _ ← CancelWrite st; mret false else
      _ ← add CarrierStreams 1;
      written ← writeCarrier (Carrier.AppendCarrierPrologue []);
      if negb written then mret false else
      _ ← add EgressCarrierBytes CarrierPrologueSize;
      mret true
  end.
Definition take_carrier : P (option nat) :=
  sect (λ _ l, (carCurrent (l_car l), set_l_car (set_carCurrent (λ _, None)) l)).
(** [Close], and [CancelWrite] if it fails *)
Definition finish_stream (st : nat) : P bool :=
  fin ← sect (close_stream st);
  if fin : bool then mret true else _ ← CancelWrite st; mret false.
Definition retireCarrier : P unit :=
  cur ← take_carrier;
  match cur with None => mret tt | Some st => _ ← finish_stream st; mret tt end.

Definition noteCarrierParity (dgram : bytes) (framed : Z) : P unit :=
  if isParityDatagram dgram then add EgressParityBytes framed else mret tt.
(** [for dgram := range s.queue]: [None] once it is closed and empty *)
Definition recv : P (option bytes) :=
  act (λ _ l,
    let x := lanes (s_sub (l_s l)) in
    match queue x with
    | d :: q =>
        Some (Some d, set_l_s (set_s_sub (λ s, MkSub (cfg s) (stripe s)
          (MkLanes q (audioQueue x) (dropped x) (carrierRecordsDropped x) (carrierQueueOverflow x)
             (carDeadRotation x) (carRotations x)))) l)
    | [] => if l_queueClosed l then Some (None, l) else None
    end).
Definition recv_audio : P (option bytes) :=
  act (λ _ l,
    let x := lanes (s_sub (l_s l)) in
    match audioQueue x with
    | d :: q =>
        Some (Some d, set_l_s (set_s_sub (λ s, MkSub (cfg s) (stripe s)
          (MkLanes (queue x) q (dropped x) (carrierRecordsDropped x) (carrierQueueOverflow x)
             (carDeadRotation x) (carRotations x)))) l)
    | [] => if l_queueClosed l then Some (None, l) else None
    end).

(** what going out on a carrier costs: the prologue too, when it opens one *)
Definition carrier_cost (framed : bytes) (needsOpen : bool) : Z :=
  zlen framed + (if needsOpen then CarrierPrologueSize else 0).
Definition count_record (dgram framed : bytes) : P unit :=
  _ ← add CarrierRecords 1;
  _ ← add EgressCarrierBytes (zlen framed);
  noteCarrierParity dgram (zlen framed).

(** one datagram of [drainReliable], to its locals after it *)
Definition reliable_datagram (dgram : bytes) (carSeen : Z) (carDead : bool) : P (Z * bool) :=
  if isAudioDatagram dgram then _ ← sendSidebandDatagram dgram; mret (carSeen, carDead) else
  rot ← pgets rotations;
  l ← (if rot <>? carSeen then _ ← retireCarrier; mret (rot, false) else mret (carSeen, carDead));
  let '(carSeen, carDead) := l in
  gone ← (if carDead : bool then mret true else closed);
  if gone : bool then _ ← add CarrierRecordsDropped 1; mret (carSeen, carDead) else
  match Carrier.AppendCarrierRecord [] dgram with
  | Ok framed =>
      cur ← currentCarrier;
      let needsOpen := bool_decide (cur = None) in
      paid ← consumeBandwidth (carrier_cost framed needsOpen);
      if negb paid then _ ← countDrop (carrier_cost framed needsOpen); mret (carSeen, carDead) else
      opened ← (if needsOpen then openCarrier else mret true);
      written ← (if opened : bool then writeCarrier framed else mret false);
      if negb written then _ ← add CarrierRecordsDropped 1; mret (carSeen, true) else
      _ ← count_record dgram framed;
      mret (carSeen, carDead)
  | _ => _ ← add CarrierRecordsDropped 1; mret (carSeen, carDead)
  end.

(** ** The leg writer (leg.go) *)

Inductive legResult := legOK | legAbandoned | legFailed.
#[export] Instance legResult_eq_dec : EqDecision legResult.
Proof. solve_decision. Defined.

Definition legStale (frameID : Z) : P bool :=
  pgets (λ l, match legKfID (l_car l) with
              | Some kf => int32 (uint32 (frameID - kf)) <? 0
              | None => false
              end).
Definition leg_begin (carSeen : Z) : P (legResult + nat) :=
  sect (λ _ l,
    match carCurrent (l_car l) with
    | None => (inl legFailed, l)
    | Some st =>
        if rotations l <>? carSeen then (inl legAbandoned, l)
        else (inr st, set_l_car (set_legWriting (λ _, true)) l)
    end).
Definition leg_end (st : nat) (written : bool) (carSeen : Z) : P bool :=
  sect (λ _ l,
    let l := set_l_car (set_legWriting (λ _, false)) l in
    (rotations l <>? carSeen, if written then l else drop_carrier st l)).
Definition legWrite (buf : bytes) (carSeen : Z) : P legResult :=
  r ← leg_begin carSeen;
  match r with
  | inl res => mret res
  | inr st =>
      w ← sect (write_stream st buf);
      abandoned ← leg_end st (snd w) carSeen;
      if snd w : bool then mret legOK else
      _ ← CancelWrite st;
      mret (if abandoned : bool then legAbandoned else legFailed)
  end.
Definition legOpenCarrier (carSeen : Z) : P legResult :=
  r ← sect (open_stream CarrierStream);
  match r with
  | None => _ ← noteCarrierOpenFailed; mret legFailed
  | Some st =>
      _ ← noteCarrierOpenSucceeded;
      got ← install_carrier st;
      if negb got then _ ← CancelWrite st; mret legFailed else
      _ ← add CarrierStreams 1;
      res ← legWrite (Carrier.AppendCarrierPrologue []) carSeen;
      if negb (bool_decide (res = legOK)) then
        _ ← pmodify (drop_carrier st);
        _ ← CancelWrite st;
        mret res
      else
        _ ← add EgressCarrierBytes CarrierPrologueSize;
        mret legOK
  end.

Definition stop_leg_timer (st : nat) (c : CarLane) : CarLane :=
  set_legTimers (alter (λ t, if bool_decide (t = Armed) then Stopped else t) st) c.
(** the current carrier, and the one finishing if it has to go first *)
Definition leg_take : P (option nat * option nat) :=
  sect (λ _ l,
    let c := l_car l in
    match carCurrent c, legFinishing c with
    | Some old, Some prev =>
        ((Some old, Some prev), set_l_car (λ c, set_legFinishing (λ _, None) (set_carCurrent (λ _, None) c)) l)
    | old, _ => ((old, None), set_l_car (set_carCurrent (λ _, None)) l)
    end).
Definition leg_finishing (old : nat) : P unit :=
  sect_go (λ _ l,
    if s_closed (l_s l) then (false, cancel_stream old l)
    else (true, set_l_car (λ c, set_legTimers (<[old := Armed]>) (set_legFinishing (λ _, Some old) c)) l))
    (λ armed : bool, if armed then [GoLegReset old] else []) ≫= λ _, mret tt.
Definition legRetire : P unit :=
  r ← leg_take;
  _ ← match snd r with
      | Some prev => _ ← pmodify (set_l_car (stop_leg_timer prev)); CancelWrite prev
      | None => mret tt
      end;
  match fst r with
  | None => mret tt
  | Some old =>
      fin ← finish_stream old;
      if negb fin then mret tt else leg_finishing old
  end.
(** the timer's goroutine: it fires, or was stopped *)
Definition legResetFinished (st : nat) : P unit :=
  fired ← act (λ _ l,
    match legTimers (l_car l) !! st with
    | Some Armed => Some (true, set_l_car (set_legTimers (<[st := Fired]>)) l)
    | _ => Some (false, l)
    end);
  if negb fired then mret tt else
  mine ← sect (λ _ l,
    if bool_decide (legFinishing (l_car l) = Some st)
    then (true, set_l_car (set_legFinishing (λ _, None)) l) else (false, l));
  if mine : bool then CancelWrite st else mret tt.
Definition legCancelFinishingLocked (l : Lane) : Lane :=
  match legFinishing (l_car l) with
  | None => l
  | Some st => set_l_car (λ c, set_legFinishing (λ _, None) (stop_leg_timer st c)) (cancel_stream st l)
  end.
Definition cancel_carriers (l : Lane) : Lane :=
  legCancelFinishingLocked
    match carCurrent (l_car l) with
    | Some st => set_l_car (set_carCurrent (λ _, None)) (cancel_stream st l)
    | None => l
    end.
Definition legCancelAll : P unit := pmodify cancel_carriers.

(** [for range 2] of [drainLeg], to its locals after it *)
Fixpoint leg_passes (n : nat) (dgram : bytes) (frameID carSeen : Z) (carDead : bool) : P (Z * bool) :=
  match n with
  | O => mret (carSeen, carDead)
  | S n' =>
      rot ← pgets rotations;
      l ← (if rot <>? carSeen then _ ← legRetire; mret (rot, false) else mret (carSeen, carDead));
      let '(carSeen, carDead) := l in
      gone ← (if carDead : bool then mret true else
              c ← closed; if c : bool then mret true else legStale frameID);
      if gone : bool then _ ← add CarrierRecordsDropped 1; mret (carSeen, carDead) else
      match Carrier.AppendCarrierRecord [] dgram with
      | Ok framed =>
          cur ← currentCarrier;
          let needsOpen := bool_decide (cur = None) in
          paid ← consumeBandwidth (carrier_cost framed needsOpen);
          if negb paid then _ ← countDrop (carrier_cost framed needsOpen); mret (carSeen, carDead) else
          res ← (if needsOpen then legOpenCarrier carSeen else mret legOK);
          res ← (if bool_decide (res = legOK) then legWrite framed carSeen else mret res);
          match res with
          | legAbandoned => leg_passes n' dgram frameID carSeen carDead
          | legFailed => _ ← add CarrierRecordsDropped 1; mret (carSeen, true)
          | legOK => _ ← count_record dgram framed; mret (carSeen, carDead)
          end
      | _ => _ ← add CarrierRecordsDropped 1; mret (carSeen, carDead)
      end
  end.
Definition leg_datagram (dgram : bytes) (carSeen : Z) (carDead : bool) : P (Z * bool) :=
  if negb (isCarrierMediaDatagram dgram) then _ ← sendSidebandDatagram dgram; mret (carSeen, carDead) else
  match uplinkRecordFrameID dgram with
  | None => _ ← add CarrierRecordsDropped 1; mret (carSeen, carDead)
  | Some frameID => leg_passes 2 dgram frameID carSeen carDead
  end.

(** ** The drains *)

(** one datagram of [drain] itself *)
Definition plain_datagram (dgram : bytes) : P unit :=
  paid ← consumeBandwidth (zlen dgram);
  if negb paid then countDrop (zlen dgram) else
  sent ← SendDatagram dgram;
  if negb sent then add SendErrors 1 else
  _ ← add EgressDatagramBytes (zlen dgram);
  if isParityDatagram dgram then add EgressParityBytes (zlen dgram) else mret tt.

(** [drain] of a subscriber without a DVR cursor: a turn of its loop, and its end *)
Definition drain (carSeen : Z) (carDead : bool) : P (option go) :=
  x ← pgets l_s;
  d ← recv;
  match d with
  | Some dgram =>
      l ← (if s_legCarrier x then leg_datagram dgram carSeen carDead
           else if reliable (cfg (s_sub x)) then reliable_datagram dgram carSeen carDead
           else _ ← plain_datagram dgram; mret (carSeen, carDead));
      mret (Some (GoDrain (fst l) (snd l)))
  | None =>
      _ ← (if s_legCarrier x then legCancelAll
           else if reliable (cfg (s_sub x)) then retireCarrier else mret tt);
      _ ← pmodify (set_l_done (λ _, true));
      mret None
  end.

(** the audio carrier *)
Definition emitAudioRecord (car : option nat) (framed : bytes) : P (option nat * bool) :=
  car ← match car with
        | Some st => mret (Some st)
        | None =>
            r ← sect (open_stream AudioStream);
            match r with
            | None => mret None
            | Some st =>
                w ← sect (write_stream st (Carrier.AppendCarrierPrologue []));
                if negb (snd w) then _ ← CancelWrite st; mret None else
                _ ← add EgressCarrierBytes CarrierPrologueSize;
                mret (Some st)
            end
        end;
  match car with
  | None => mret (None, false)
  | Some st =>
      w ← sect (write_stream st framed);
      if negb (snd w) then _ ← CancelWrite st; mret (None, false) else
      _ ← add CarrierRecords 1;
      _ ← add EgressCarrierBytes (zlen framed);
      mret (Some st, true)
  end.
Definition retireAudioCarrier (car : option nat) : P unit :=
  match car with None => mret tt | Some st => _ ← finish_stream st; mret tt end.
Definition drainAudioSideband (car : option nat) : P (option go) :=
  d ← recv_audio;
  match d with
  | None =>
      _ ← retireAudioCarrier car;
      _ ← pmodify (set_l_audioDone (λ _, true));
      mret None
  | Some dgram =>
      gone ← closed;
      if gone : bool then mret (Some (GoAudio car)) else
      match Carrier.AppendCarrierRecord [] dgram with
      | Ok framed =>
          let n := carrier_cost framed (bool_decide (car = None)) in
          paid ← consumeBandwidth n;
          if negb paid then _ ← countDrop n; mret (Some (GoAudio car)) else
          r ← emitAudioRecord car framed;
          _ ← (if snd r : bool then mret tt else add CarrierRecordsDropped 1);
          mret (Some (GoAudio (fst r)))
      | _ => _ ← add CarrierRecordsDropped 1; mret (Some (GoAudio car))
      end
  end.

(** ** Closing *)

Definition wait (b : Lane → bool) : P unit := act (λ _ l, if b l then Some (tt, l) else None).
Definition waitAudioDrain : P unit :=
  wait (λ l, bool_decide (audioCap (lane_cfg l) = None) || l_audioDone l).
(** Close, but for what it does to the hub (HubSubs.v): the removal from its
    subscribers, the legs it reaps, the fold *)
Definition lane_Close : P unit :=
  first ← sect (λ _ l, if s_closed (l_s l) then (false, l) else (true, set_l_s (set_s_closed (λ _, true)) l));
  if negb first then _ ← wait l_done; waitAudioDrain else
  _ ← pmodify (set_l_queueClosed (λ _, true));
  _ ← pmodify cancel_current;
  _ ← wait (λ l, bool_decide (kfWriters (l_kf l) = []));
  _ ← pmodify cancel_carriers;
  _ ← wait l_done;
  _ ← waitAudioDrain;
  pmodify (set_l_s (set_s_folded (λ _, true))).
Definition lane_evict : P unit :=
  _ ← pmodify (log_event (SessionClosed CloseCodeSubscriberUnresponsive)); lane_Close.

(** what the fan-out does to the queues, under the registry's mutex *)
Definition lane_enqueue (dgram : bytes) : P unit :=
  pmodify (λ l, if s_closed (l_s l) then l else set_l_s (set_s_sub (λ q, enqueueLocked q dgram)) l).

Definition code (k : go) : P (option go) :=
  match k with
  | GoSendKeyframe msg seq => _ ← sendKeyframe msg seq; mret None
  | GoWriteKeyframe st msg t => _ ← writeKeyframe st msg t; mret None
  | GoEvict => _ ← lane_evict; mret None
  | GoClose => _ ← lane_Close; mret None
  | GoEnqueue d => _ ← lane_enqueue d; mret None
  | GoDrain seen dead => drain seen dead
  | GoAudio car => drainAudioSideband car
  | GoLegReset st => _ ← legResetFinished st; mret None
  end.
End Lane_.
