(* ===== verification/LaneInv.v ===== *)
(** internal/hub: the invariant of a subscriber's lanes, and what its goroutines
    promise each other.

    The core is the streams with what was written to them, who holds which, and
    the counters of delivered keyframes. [LaneOk]: the invariant; [promise k]:
    what an action of goroutine [k] may do to the core. *)
From S2P Require Export LaneOps.
#[local] Open Scope Z_scope.

Record LCore := MkLCore {
  c_streams : gmap nat stream;
  c_next : nat;
  c_kf : option nat;
  c_writers : list nat;
  c_car : option nat;
  c_fin : option nat;
  c_timers : gmap nat timer_state;
  c_sent : Z;
  c_egress : Z;
  c_leg : bool;
  c_rel : bool;
  c_done : bool;
}.
Definition lane_core (l : Lane) : LCore :=
  MkLCore (l_streams l) (l_next l) (kfCurrent (l_kf l)) (kfWriters (l_kf l)) (carCurrent (l_car l))
    (legFinishing (l_car l)) (legTimers (l_car l)) (s_n (l_s l) KeyframeStreamsSent)
    (s_n (l_s l) EgressKeyframeBytes) (s_legCarrier (l_s l)) (reliable (lane_cfg l)) (l_done l).

(** ** What is on a carrier *)

Definition prologue : bytes := Carrier.AppendCarrierPrologue [].
Definition frames (d f : bytes) : Prop := Carrier.AppendCarrierRecord [] d = Ok f.
(** what a leg puts on its carriers *)
Definition record_ok (leg : bool) (d : bytes) : Prop :=
  leg = true → isCarrierMediaDatagram d = true ∧ is_Some (uplinkRecordFrameID d).
Definition well_framed (leg : bool) (x : stream) : Prop :=
  (st_whole x = [] ∧ st_torn x `prefix_of` prologue) ∨
  ∃ ds fs, st_whole x = prologue :: fs ∧ Forall2 frames ds fs ∧ Forall (record_ok leg) ds ∧
    (st_torn x = [] ∨ ∃ d f, record_ok leg d ∧ frames d f ∧ st_torn x `prefix_of` f).

(** a carrier that still holds one of the peer's stream slots: on a leg until it
    is reset, for a viewer until it is finished *)
Definition live (leg : bool) (x : stream) : Prop :=
  if leg then st_state x ≠ Cancelled else st_state x = Open ∨ st_state x = Failed.
Definition carrier (c : LCore) (st : nat) (x : stream) : Prop :=
  c_streams c !! st = Some x ∧ st_kind x = CarrierStream.
Definition keyframe (c : LCore) (st : nat) (x : stream) : Prop :=
  c_streams c !! st = Some x ∧ st_kind x = KeyframeStream.
(** its reset timer has fired, and its goroutine is about to reset it *)
Definition firing (c : LCore) (st : nat) : Prop := c_timers c !! st = Some Fired.
Definition carrier_slots (leg : bool) : nat := if leg then 2 else 1.

(** ** The invariant *)

Record LaneOk (c : LCore) : Prop := {
  lo_next : ∀ st x, c_streams c !! st = Some x → (st < c_next c)%nat;
  lo_writers : ∀ st, st ∈ c_writers c → ∃ x, keyframe c st x;
  lo_nodup : NoDup (c_writers c);
  lo_current : ∀ st, c_kf c = Some st → st ∈ c_writers c;
  (* the open keyframe stream is the current one *)
  lo_open : ∀ st x, keyframe c st x → st_state x = Open → c_kf c = Some st;
  lo_fin : ∀ st x, keyframe c st x → st_fin x = true → ∃ m, st_whole x = [m];
  lo_sent : ∃ L, NoDup L ∧
    (∀ st, st ∈ L ↔ st ∉ c_writers c ∧ ∃ x, keyframe c st x ∧ st_fin x = true) ∧
    c_sent c = zlen L ∧
    c_egress c = fold_right (λ st n, (match c_streams c !! st with
                                      | Some x => zlen (concat (st_whole x)) | None => 0 end) + n) 0 L;
  lo_framed : ∀ st x, carrier c st x → well_framed (c_leg c) x;
  lo_torn : ∀ st x, carrier c st x → st_state x = Open → st_torn x = [];
  lo_car : ∀ st, c_car c = Some st → (∃ x, carrier c st x) ∧ c_timers c !! st = None;
  lo_finishing : ∀ st, c_fin c = Some st → c_leg c = true ∧ (∃ x, carrier c st x) ∧ is_Some (c_timers c !! st);
  lo_timers : ∀ st, is_Some (c_timers c !! st) → is_Some (c_streams c !! st);
  lo_slots : ∃ L, (length L ≤ carrier_slots (c_leg c))%nat ∧
    ∀ st x, carrier c st x → live (c_leg c) x → firing c st ∨ st ∈ L;
  lo_done : c_done c = true → c_car c = None ∧ c_fin c = None ∧
    ∀ st x, carrier c st x → live (c_leg c) x → firing c st;
}.

(** ** The promises *)

Definition cancelled (x : stream) : stream := set_st_state (λ _, Cancelled) x.
(** whose stream it is to write *)
Definition mine (k : go) (st : nat) (x : stream) : Prop :=
  match k with
  | GoWriteKeyframe st' _ _ => st = st' ∧ st_kind x = KeyframeStream
  | GoDrain _ _ => st_kind x = CarrierStream
  | GoAudio _ => st_kind x = AudioStream
  | _ => False
  end.
Definition is_drain (k : go) : Prop := match k with GoDrain _ _ => True | _ => False end.

Record promise (k : go) (c c' : LCore) : Prop := {
  pr_leg : c_leg c' = c_leg c;
  pr_rel : c_rel c' = c_rel c;
  pr_next : (c_next c ≤ c_next c')%nat;
  pr_stream : ∀ st x, c_streams c !! st = Some x →
    ∃ x', c_streams c' !! st = Some x' ∧ st_kind x' = st_kind x ∧ (x' = x ∨ x' = cancelled x ∨ mine k st x);
  pr_new : ∀ st x, c_streams c !! st = None → c_streams c' !! st = Some x →
    (c_next c ≤ st)%nat ∧ (st_kind x = CarrierStream → is_drain k);
  pr_writers : ∀ st, st ∈ c_writers c → st ∈ c_writers c' ∨ ∃ m t, k = GoWriteKeyframe st m t;
  pr_car : is_drain k ∨ c_car c' = c_car c ∨
    c_car c' = None ∧ ∀ st x, c_car c = Some st → c_streams c' !! st = Some x → st_state x = Cancelled;
  pr_fin : is_drain k ∨ c_fin c' = c_fin c ∨
    c_fin c' = None ∧ ∀ st x, c_fin c = Some st → c_streams c' !! st = Some x →
                        st_state x = Cancelled ∨ firing c' st;
  pr_firing : ∀ st, firing c st → firing c' st;
  pr_kf : ∀ st, c_kf c' = Some st → c_kf c = Some st ∨ (c_next c ≤ st)%nat;
  pr_done : is_drain k ∨ c_done c' = c_done c;
  pr_timers : is_drain k ∨ ∀ st, c_timers c' !! st = None ↔ c_timers c !! st = None;
}.

Lemma promise_refl k c : promise k c c.
Proof. constructor; eauto; try naive_solver. Qed.

Inductive token := TDrain | TStream (st : nat).
Definition own (k : go) : option token :=
  match k with
  | GoWriteKeyframe st _ _ => Some (TStream st)
  | GoDrain _ _ => Some TDrain
  | _ => None
  end.
Definition used (c : LCore) (t : token) : Prop :=
  match t with TDrain => True | TStream st => (st < c_next c)%nat end.

(** ** What the goroutines know *)

(** the writer of [st], which has written [ws]; its stream may still be open, be the
    current one *)
Definition writing (st : nat) (ws : list bytes) (fin open cur : bool) (c : LCore) : Prop :=
  st ∈ c_writers c ∧ (∃ x, keyframe c st x ∧ st_whole x = ws ∧ st_fin x = fin ∧
    (open = false → st_state x ≠ Open)) ∧ (cur = false → c_kf c ≠ Some st).
(** the drain, holding the streams [locals]; [fresh]: a current carrier whose
    prologue is not written yet *)
Definition draining (locals : list nat) (fresh : option nat) (c : LCore) : Prop :=
  c_done c = false ∧
  (∀ st x, carrier c st x → live (c_leg c) x →
     st ∈ locals ∨ c_car c = Some st ∨ c_fin c = Some st ∨ firing c st) ∧
  (∀ st x, c_car c = Some st → carrier c st x → Some st ≠ fresh → st_whole x ≠ []).
(** a carrier in the drain's hands, begun or not *)
Definition held (st : nat) (begun : bool) (c : LCore) : Prop :=
  (∃ x, carrier c st x ∧ bool_decide (st_whole x = []) = negb begun) ∧ c_timers c !! st = None.
Definition audio_carrier (car : option nat) (c : LCore) : Prop :=
  match car with
  | Some st => ∃ x, c_streams c !! st = Some x ∧ st_kind x = AudioStream
  | None => True
  end.

(** neither a leg's nor a reliable drain: it opens no carrier *)
Definition carrierless (c : LCore) : Prop := c_leg c = false → c_rel c = false → c_car c = None.

Definition lane_pre (k : go) (c : LCore) : Prop :=
  match k with
  | GoWriteKeyframe st _ _ => writing st [] false true true c
  | GoDrain _ _ => draining [] None c ∧ carrierless c
  | GoAudio car => audio_carrier car c
  | _ => True
  end.

Definition Inv (l : Lane) : Prop := LaneOk (lane_core l).
Definition G (k : go) (l l' : Lane) : Prop := promise k (lane_core l) (lane_core l').
Definition lane_used (l : Lane) (t : token) : Prop := used (lane_core l) t.
Definition pre (k : go) (l : Lane) : Prop := lane_pre k (lane_core l).
Notation lane_rely := (rely Inv G own).
Notation lane_wp := (wp Inv G own lane_used pre).

(** what the others cannot take away from [k] *)
Definition stable (k : go) (A : LCore → Prop) : Prop :=
  ∀ k' c c', apart own k k' → LaneOk c → LaneOk c' → promise k' c c' → A c → A c'.

Lemma stable_rtc k A l l' : stable k A → rtc (lane_rely k) l l' → A (lane_core l) → A (lane_core l').
Proof.
  intros HA Hr. induction Hr as [l|l l1 l' (Hi & Hi' & k' & Hap & _ & Hg) _ IH]; [done|].
  intros H. apply IH. by apply (HA k' (lane_core l)).
Qed.
Lemma stable_true k : stable k (λ _, True).
Proof. by intros k' c c' _ _ _ _ _. Qed.
Lemma stable_and k A B : stable k A → stable k B → stable k (λ c, A c ∧ B c).
Proof. intros HA HB k' c c' Hp Ho Ho' Hg [? ?]. split; [by apply (HA k' c)|by apply (HB k' c)]. Qed.

Lemma promise_cancel k c c' st x : promise k c c' → c_streams c !! st = Some x → ¬ mine k st x →
  ∃ x', c_streams c' !! st = Some x' ∧ (x' = x ∨ x' = cancelled x).
Proof. intros Hg Hx Hm. destruct (pr_stream _ _ _ Hg _ _ Hx) as (x' & ? & _ & [?|[?|?]]); eauto. done. Qed.

Lemma stable_writing k st ws fin open cur m t : k = GoWriteKeyframe st m t → stable k (writing st ws fin open cur).
Proof.
  intros -> k' c c' Hap Hok _ Hg (Hw & (x & [Hx Hk] & Hws & Hf & Ho) & Hcur).
  assert (Hm : ¬ mine k' st x ∧ ¬ ∃ m t, k' = GoWriteKeyframe st m t).
  { unfold apart in Hap. cbn in Hap. destruct k'; cbn in *; split; try (by rewrite Hk); try naive_solver. }
  destruct Hm as [Hm Hk']. split; [by destruct (pr_writers _ _ _ Hg _ Hw) as [?|?]|]. split.
  - destruct (promise_cancel _ _ _ _ _ Hg Hx Hm) as (x' & Hx' & [->| ->]).
    + exists x. by split_and!.
    + exists (cancelled x). by split_and!.
  - intros E Hc. destruct (pr_kf _ _ _ Hg _ Hc) as [?|Hn]; [by apply Hcur|].
    pose proof (lo_next _ Hok _ _ Hx). lia.
Qed.

Lemma drain_apart k k' : own k = Some TDrain → apart own k k' → ¬ is_drain k'.
Proof. unfold apart. intros -> [?|Hne] Hd; [done|]. destruct k'; cbn in *; done. Qed.
Lemma carrier_not_mine k c st x : ¬ is_drain k → carrier c st x → ¬ mine k st x.
Proof. intros Hd [Hx Hk]. destruct k; cbn in *; try done; rewrite Hk; naive_solver. Qed.

Lemma live_cancelled leg x : ¬ live leg (cancelled x).
Proof. unfold live. cbn. destruct leg; [tauto|]. intros [?|?]; done. Qed.

(** what another goroutine leaves of a carrier *)
Lemma carrier_back k c c' st x' : ¬ is_drain k → promise k c c' → carrier c' st x' →
  ∃ x, carrier c st x ∧ (x' = x ∨ x' = cancelled x).
Proof.
  intros Hd Hg [Hx' Hk']. destruct (c_streams c !! st) as [x|] eqn:Hx.
  - destruct (pr_stream _ _ _ Hg _ _ Hx) as (y & Hy & Hky & Hor). rewrite Hx' in Hy. injection Hy as <-.
    assert (Hc : carrier c st x) by (split; congruence). exists x. split; [done|].
    destruct Hor as [?|[?|Hm]]; auto. by destruct (carrier_not_mine _ _ _ _ Hd Hc).
  - destruct (pr_new _ _ _ Hg _ _ Hx Hx') as [_ Hn]. by destruct (Hd (Hn Hk')).
Qed.

Lemma stable_draining k locals fresh : own k = Some TDrain → stable k (draining locals fresh).
Proof.
  intros Hk k' c c' Hap Hok Hok' Hg (Hdone & HD & HB). pose proof (drain_apart _ _ Hk Hap) as Hd. split_and!.
  - destruct (pr_done _ _ _ Hg) as [?|E]; [done|congruence].
  - intros st x' Hx' Hl. rewrite (pr_leg _ _ _ Hg) in Hl.
    destruct (carrier_back _ _ _ _ _ Hd Hg Hx') as (x & Hx & [->| ->]); [|by apply live_cancelled in Hl].
    assert (Hlc : ¬ st_state x = Cancelled) by (unfold live in Hl; destruct (c_leg c); naive_solver congruence).
    destruct (HD st x Hx Hl) as [?|[Hc|[Hf|?]]]; auto.
    + right. destruct (pr_car _ _ _ Hg) as [?|[->|[_ Hcan]]]; auto; [done|].
      by destruct (Hlc (Hcan _ _ Hc (proj1 Hx'))).
    + right. destruct (pr_fin _ _ _ Hg) as [?|[->|[_ Hcan]]]; auto; [done|].
      destruct (Hcan _ _ Hf (proj1 Hx')) as [?|?]; [done|auto].
    + right. right. right. by apply (pr_firing _ _ _ Hg).
  - intros st x' Hc Hx' Hfr. destruct (carrier_back _ _ _ _ _ Hd Hg Hx') as (x & Hx & Hor).
    destruct (pr_car _ _ _ Hg) as [?|[E|[E _]]]; [done| |congruence].
    rewrite E in Hc. destruct Hor as [->| ->]; apply (HB st x Hc Hx Hfr).
Qed.
Lemma stable_held k st begun : own k = Some TDrain → stable k (held st begun).
Proof.
  intros Hk k' c c' Hap Hok Hok' Hg [(x & Hx & Hws) Ht]. pose proof (drain_apart _ _ Hk Hap) as Hd.
  destruct (promise_cancel _ _ _ _ _ Hg (proj1 Hx) (carrier_not_mine _ _ _ _ Hd Hx)) as (x' & Hx' & Hor).
  split.
  - exists x'. destruct Hx as [Hx Hkd]. destruct Hor as [->| ->]; repeat split; done.
  - destruct (pr_timers _ _ _ Hg) as [?|Hti]; [done|]. by apply Hti.
Qed.
Lemma stable_no_car k : own k = Some TDrain → stable k (λ c, c_car c = None).
Proof.
  intros Hk k' c c' Hap _ _ Hg E. pose proof (drain_apart _ _ Hk Hap) as Hd.
  destruct (pr_car _ _ _ Hg) as [?|[?|[? _]]]; [done|congruence|done].
Qed.
Lemma stable_no_fin k : own k = Some TDrain → stable k (λ c, c_fin c = None).
Proof.
  intros Hk k' c c' Hap _ _ Hg E. pose proof (drain_apart _ _ Hk Hap) as Hd.
  destruct (pr_fin _ _ _ Hg) as [?|[?|[? _]]]; [done|congruence|done].
Qed.
Lemma stable_leg k b : stable k (λ c, c_leg c = b).
Proof. intros k' c c' _ _ _ Hg E. by rewrite (pr_leg _ _ _ Hg). Qed.
Lemma stable_rel k b : stable k (λ c, c_rel c = b).
Proof. intros k' c c' _ _ _ Hg E. by rewrite (pr_rel _ _ _ Hg). Qed.
Lemma stable_carrierless k : own k = Some TDrain → stable k carrierless.
Proof.
  intros Hk k' c c' Hap Ho Ho' Hg H E1 E2. rewrite (pr_leg _ _ _ Hg) in E1. rewrite (pr_rel _ _ _ Hg) in E2.
  by apply (stable_no_car _ Hk _ _ _ Hap Ho Ho' Hg), H.
Qed.
Lemma stable_firing k st : stable k (λ c, firing c st).
Proof. intros k' c c' _ _ _ Hg E. by apply (pr_firing _ _ _ Hg). Qed.
Lemma stable_audio k car : stable k (audio_carrier car).
Proof.
  intros k' c c' _ _ _ Hg H. destruct car as [st|]; [|done]. destruct H as (x & Hx & Hkd).
  destruct (pr_stream _ _ _ Hg _ _ Hx) as (x' & ? & ? & _). exists x'. split; congruence.
Qed.

(** ** The rules *)

Definition hoare {A} (k : go) (A1 : LCore → Prop) (p : P A) (Q : A → LCore → Prop) : Prop :=
  ∀ l, Inv l → A1 (lane_core l) → lane_wp k p (λ a l', Inv l' ∧ Q a (lane_core l')) l.

Lemma hoare_ret {A} k (A1 : LCore → Prop) (a : A) (Q : A → LCore → Prop) : (∀ c, LaneOk c → A1 c → Q a c) → hoare k A1 (mret a) Q.
Proof. intros HQ l Hi H. cbn. split; [done|]. by apply HQ. Qed.
Lemma hoare_bind {A B} k A1 (p : P A) (h : A → P B) M Q :
  hoare k A1 p M → (∀ a, hoare k (M a) (h a) Q) → hoare k A1 (p ≫= h) Q.
Proof.
  intros Hp Hh l Hi H. apply wp_bind. eapply wp_mono; [|by apply Hp].
  intros a l' [Hi' HM]. by apply Hh.
Qed.
Lemma hoare_conseq {A} k (A1 A2 : LCore → Prop) (p : P A) (Q Q' : A → LCore → Prop) :
  (∀ c, LaneOk c → A1 c → A2 c) → (∀ a c, LaneOk c → Q a c → Q' a c) → hoare k A2 p Q → hoare k A1 p Q'.
Proof.
  intros H1 H2 Hp l Hi H. eapply wp_mono; [|apply Hp; [done|by apply H1]].
  intros a l' [Hi' HQ]. split; [done|]. by apply H2.
Qed.
(** an action, which starts the goroutines [sp] names *)
Definition starts (sp : list go) (c c' : LCore) : Prop :=
  NoDup (omap own sp) ∧ Forall (λ k, lane_pre k c' ∧
    match own k with Some t => ¬ used c t ∧ used c' t | None => True end) sp.
Lemma used_promise k c c' t : promise k c c' → used c t → used c' t.
Proof. intros Hg. destruct t; cbn; [done|]. pose proof (pr_next _ _ _ Hg). lia. Qed.
Lemma hoare_act {B} k A1 (f : ans → Lane → option (B * Lane)) sp Q : stable k A1 →
  (∀ a l b l', Inv l → A1 (lane_core l) → f a l = Some (b, l') →
     Inv l' ∧ G k l l' ∧ starts (sp b) (lane_core l) (lane_core l') ∧ Q b (lane_core l')) →
  hoare k A1 (Act f sp (λ b, Ret b)) Q.
Proof.
  intros Hs Hf l Hi H. cbn. intros l1 Hr Hi1 a b l2 E.
  destruct (Hf a l1 b l2 Hi1 (stable_rtc _ _ _ _ Hs Hr H) E) as (Hi2 & Hg & [Hn Hst] & HQ).
  split_and!; try done. intros t. by apply (used_promise k).
Qed.
Lemma hoare_sect {B} k A1 (f : ans → Lane → B * Lane) Q : stable k A1 →
  (∀ a l, Inv l → A1 (lane_core l) →
     Inv (snd (f a l)) ∧ G k l (snd (f a l)) ∧ Q (fst (f a l)) (lane_core (snd (f a l)))) →
  hoare k A1 (sect f) Q.
Proof.
  intros Hs Hf. apply hoare_act; [done|]. intros a l b l' Hi H [= E]. destruct (Hf a l Hi H) as (?&?&?).
  rewrite E in *. cbn in *. split_and!; try done. split; constructor.
Qed.
(** an action on nothing the core holds *)
Lemma hoare_keep {B} k A1 (f : ans → Lane → option (B * Lane)) sp :
  stable k A1 → (∀ a l b l', f a l = Some (b, l') → lane_core l' = lane_core l) →
  (∀ b c, LaneOk c → starts (sp b) c c) →
  hoare k A1 (Act f sp (λ b, Ret b)) (λ _, A1).
Proof.
  intros Hs Hf Hsp. apply hoare_act; [done|]. intros a l b l' Hi H E. unfold Inv, G. rewrite (Hf _ _ _ _ E).
  split; [done|]. split; [apply promise_refl|]. split; [by apply Hsp|done].
Qed.
