(* ===== verification/LaneSteps.v ===== *)
(** internal/hub: the actions of a subscriber's goroutines keep its invariant and
    their promises. *)
From S2P Require Export LaneInv.
#[local] Open Scope Z_scope.

(** ** Actions on nothing the core holds *)

Definition keep {A} (p : P A) : Prop := ∀ k A1, stable k A1 → hoare k A1 p (λ _, A1).
Create HintDb lanekeeps.

Lemma keep_ret {A} (a : A) : keep (mret a).
Proof. intros k A1 _. by apply hoare_ret. Qed.
Lemma keep_bind {A B} (p : P A) (h : A → P B) : keep p → (∀ a, keep (h a)) → keep (p ≫= h).
Proof. intros Hp Hh k A1 Hs. eapply hoare_bind; [by apply Hp|]. intros a. by apply Hh. Qed.
Lemma keep_sect {B} (f : ans → Lane → B * Lane) : (∀ a l, lane_core (snd (f a l)) = lane_core l) → keep (sect f).
Proof.
  intros Hf k A1 Hs. apply hoare_keep; [done| |].
  - intros a l b l' [= E]. rewrite <- (Hf a l). by rewrite E.
  - intros. split; constructor.
Qed.
Lemma keep_act {B} (f : ans → Lane → option (B * Lane)) :
  (∀ a l b l', f a l = Some (b, l') → lane_core l' = lane_core l) → keep (act f).
Proof. intros Hf k A1 Hs. apply hoare_keep; [done|done|]. intros. split; constructor. Qed.
Lemma keep_pmodify f : (∀ l, lane_core (f l) = lane_core l) → keep (pmodify f).
Proof. intros Hf. by apply keep_sect. Qed.
Lemma keep_pgets {B} (f : Lane → B) : keep (pgets f).
Proof. by apply keep_sect. Qed.
#[export] Hint Resolve keep_ret keep_bind keep_pgets : lanekeeps.

Ltac keep_step :=
  match goal with
  | |- keep (_ ≫= _) => apply keep_bind
  | |- keep (let '(_, _) := ?x in _) => destruct x
  | |- keep (if ?b then _ else _) => destruct b
  | |- keep (match ?x with _ => _ end) => destruct x
  | |- ∀ _, _ => intros ?
  | |- keep _ => first [solve [eauto 2 with lanekeeps] | assumption]
  end.
Ltac keep_tac := repeat keep_step.

Lemma keep_add k n : k ≠ KeyframeStreamsSent → k ≠ EgressKeyframeBytes → keep (add k n).
Proof.
  intros H1 H2. apply keep_pmodify. intros l. unfold lane_core. cbn. unfold bump.
  by rewrite !bool_decide_eq_false_2.
Qed.
#[export] Hint Extern 2 (keep (add _ _)) => (apply keep_add; discriminate) : lanekeeps.
Lemma keep_log e : keep (pmodify (log_event e)).
Proof. by apply keep_pmodify. Qed.
Lemma keep_closed : keep closed.
Proof. apply keep_pgets. Qed.
Lemma keep_consume n : keep (consumeBandwidth n).
Proof. by apply keep_sect. Qed.
Lemma keep_SendDatagram d : keep (SendDatagram d).
Proof. apply keep_sect. intros a l. cbn. by destruct (ok a). Qed.
#[export] Hint Resolve keep_log keep_closed keep_consume keep_SendDatagram : lanekeeps.
Lemma keep_countDrop n : keep (countDrop n).
Proof. unfold countDrop. keep_tac. Qed.
#[export] Hint Resolve keep_countDrop : lanekeeps.
Lemma keep_sideband d : keep (sendSidebandDatagram d).
Proof. unfold sendSidebandDatagram. keep_tac. Qed.
Lemma keep_go_evict b : keep (go_evict b).
Proof.
  destruct b; [|apply keep_ret]. intros k A1 Hs. unfold go_evict, sect_go. apply hoare_keep; [done| |].
  - by intros a l ? ? [= <- <-].
  - intros ? c _. split; [constructor|]. by constructor.
Qed.
#[export] Hint Resolve keep_sideband keep_go_evict : lanekeeps.
Lemma core_latch due l : lane_core (snd (latch due l)) = lane_core l.
Proof. unfold latch. cbn. by destruct (_ && _). Qed.
Lemma keep_open_failed : keep noteCarrierOpenFailed.
Proof.
  unfold noteCarrierOpenFailed. apply keep_bind; [|keep_tac]. apply keep_sect. intros a l. cbn [fst snd].
  by rewrite core_latch.
Qed.
Lemma keep_open_succeeded : keep noteCarrierOpenSucceeded.
Proof. by apply keep_pmodify. Qed.
Lemma keep_outcome opts t b : keep (noteKeyframeOutcome opts t b).
Proof.
  unfold noteKeyframeOutcome. keep_tac; try (by apply keep_sect); try (by apply keep_pmodify).
Qed.
Lemma keep_count_record d f : keep (count_record d f).
Proof. unfold count_record, noteCarrierParity. keep_tac. Qed.
Lemma keep_recv : keep recv.
Proof.
  apply keep_act. intros a l b l'. cbn zeta. case_match; [case_match|]; intros [= <- <-]; done.
Qed.
Lemma keep_recv_audio : keep recv_audio.
Proof.
  apply keep_act. intros a l b l'. cbn zeta. case_match; [case_match|]; intros [= <- <-]; done.
Qed.
Lemma keep_wait b : keep (wait b).
Proof. apply keep_act. intros a l ? l'. by case_match; intros [= <- <-]. Qed.
Lemma keep_waitAudio : keep waitAudioDrain.
Proof. apply keep_wait. Qed.
Lemma keep_plain d : keep (plain_datagram d).
Proof. unfold plain_datagram. keep_tac. Qed.
Lemma keep_enqueue d : keep (lane_enqueue d).
Proof. apply keep_pmodify. intros l. by destruct (s_closed (l_s l)). Qed.
#[export] Hint Resolve keep_open_failed keep_open_succeeded keep_outcome keep_count_record keep_recv keep_recv_audio
  keep_wait keep_waitAudio keep_plain keep_enqueue : lanekeeps.

(** a step of a proof over a bind whose head keeps what is known *)
Lemma hoare_skip {A B} k A1 (p : P A) (h : A → P B) Q :
  stable k A1 → keep p → (∀ a, hoare k A1 (h a) Q) → hoare k A1 (p ≫= h) Q.
Proof. intros Hs Hp Hh. eapply hoare_bind; [by apply Hp|done]. Qed.

(** ** The core, changed *)

Definition on_streams (f : gmap nat stream → gmap nat stream) (c : LCore) : LCore :=
  MkLCore (f (c_streams c)) (c_next c) (c_kf c) (c_writers c) (c_car c) (c_fin c) (c_timers c) (c_sent c)
    (c_egress c) (c_leg c) (c_rel c) (c_done c).
Definition on_stream (st : nat) (f : stream → stream) : LCore → LCore := on_streams (alter f st).
Definition on_slots (car fin : option nat) (timers : gmap nat timer_state) (c : LCore) : LCore :=
  MkLCore (c_streams c) (c_next c) (c_kf c) (c_writers c) car fin timers (c_sent c) (c_egress c) (c_leg c) (c_rel c) (c_done c).
Definition on_kf (kf : option nat) (w : list nat) (c : LCore) : LCore :=
  MkLCore (c_streams c) (c_next c) kf w (c_car c) (c_fin c) (c_timers c) (c_sent c) (c_egress c) (c_leg c) (c_rel c) (c_done c).
Definition add_stream (kind : stream_kind) (c : LCore) : LCore :=
  MkLCore (<[c_next c := MkStream kind [] [] false Open]> (c_streams c)) (S (c_next c)) (c_kf c) (c_writers c)
    (c_car c) (c_fin c) (c_timers c) (c_sent c) (c_egress c) (c_leg c) (c_rel c) (c_done c).

Lemma on_stream_lookup st f c i : c_streams (on_stream st f c) !! i =
  if bool_decide (i = st) then f <$> c_streams c !! i else c_streams c !! i.
Proof.
  cbn. case_bool_decide as E; [subst; by rewrite lookup_alter_eq|by rewrite lookup_alter_ne].
Qed.

(** one stream changes *)
Definition change_ok (c : LCore) (st : nat) (x y : stream) : Prop :=
  st_kind y = st_kind x ∧
  (st_kind x = KeyframeStream →
     (st_state y = Open → st_state x = Open) ∧ (st_fin y = true → ∃ m, st_whole y = [m]) ∧
     (st ∉ c_writers c → st_fin y = st_fin x ∧ st_whole y = st_whole x)) ∧
  (st_kind x = CarrierStream →
     well_framed (c_leg c) y ∧ (live (c_leg c) y → live (c_leg c) x) ∧ (st_state y = Open → st_torn y = [])).

Lemma on_stream_back st f c i y : c_streams (on_stream st f c) !! i = Some y →
  ∃ x, c_streams c !! i = Some x ∧ (i = st ∧ y = f x ∨ y = x ∧ i ≠ st).
Proof.
  rewrite on_stream_lookup. case_bool_decide as E; [|eauto]. intros (x & Hx & ->)%fmap_Some. eauto.
Qed.

Lemma LaneOk_stream c st f : LaneOk c → (∀ x, c_streams c !! st = Some x → change_ok c st x (f x)) →
  LaneOk (on_stream st f c).
Proof.
  intros Hok Hf.
  assert (Hback : ∀ i y, c_streams (on_stream st f c) !! i = Some y →
    ∃ x, c_streams c !! i = Some x ∧ (y = x ∨ i = st ∧ y = f x ∧ change_ok c st x y) ∧ st_kind y = st_kind x).
  { intros i y Hy. destruct (on_stream_back _ _ _ _ _ Hy) as (x & Hx & [[-> ->]|[-> _]]); exists x; [|eauto].
    split; [done|]. pose proof (Hf x Hx) as Hc. split; [|apply Hc]. right. by split_and!. }
  assert (Hfwd : ∀ i x, c_streams c !! i = Some x → ∃ y, c_streams (on_stream st f c) !! i = Some y ∧
    st_kind y = st_kind x).
  { intros i x Hx. rewrite on_stream_lookup, Hx. case_bool_decide as E; [|eauto]. subst. exists (f x).
    split; [done|apply (Hf x Hx)]. }
  assert (Hcar : ∀ i y, carrier (on_stream st f c) i y → ∃ x, carrier c i x ∧ (y = x ∨ change_ok c i x y)).
  { intros i y [Hy Hk]. destruct (Hback i y Hy) as (x & Hx & Hor & Hkk). exists x. split; [split; congruence|].
    destruct Hor as [?|(-> & _ & ?)]; auto. }
  constructor.
  - intros i y Hy. destruct (Hback i y Hy) as (x & Hx & _). by apply (lo_next _ Hok i x).
  - intros i Hi. destruct (lo_writers _ Hok i Hi) as (x & Hx & Hk). destruct (Hfwd i x Hx) as (y & Hy & E).
    exists y. split; congruence.
  - apply (lo_nodup _ Hok).
  - apply (lo_current _ Hok).
  - intros i y [Hy Hk] Ho. destruct (Hback i y Hy) as (x & Hx & Hor & Hkk).
    apply (lo_open _ Hok i x); [split; congruence|]. destruct Hor as [->|(-> & -> & Hch)]; [done|].
    destruct Hch as (_ & Hch & _). rewrite Hkk in Hk. by apply (Hch Hk).
  - intros i y [Hy Hk] Hfin. destruct (Hback i y Hy) as (x & Hx & Hor & Hkk). rewrite Hkk in Hk.
    destruct Hor as [->|(-> & -> & _ & Hch & _)]; [by apply (lo_fin _ Hok i x)|]. by apply (Hch Hk).
  - destruct (lo_sent _ Hok) as (L & HL & HLi & Hs & He). exists L.
    assert (Hsame : ∀ i x y, c_streams c !! i = Some x → c_streams (on_stream st f c) !! i = Some y →
      st_kind x = KeyframeStream → i ∉ c_writers c → st_fin y = st_fin x ∧ st_whole y = st_whole x).
    { intros i x y Hx Hy Hk Hw. destruct (Hback i y Hy) as (x' & Hx' & Hor & _).
      rewrite Hx in Hx'. injection Hx' as <-. destruct Hor as [->|(-> & -> & _ & Hch & _)]; [done|].
      by apply (Hch Hk). }
    split; [done|]. split.
    { intros i. rewrite HLi. split; intros [Hw (x & [Hx Hk] & Hfin)]; (split; [done|]).
      - destruct (Hfwd i x Hx) as (y & Hy & E). exists y. split; [split; congruence|].
        destruct (Hsame i x y Hx Hy Hk Hw) as [-> _]. done.
      - destruct (Hback i x Hx) as (x0 & Hx0 & _ & E). exists x0. split; [split; congruence|].
        destruct (Hsame i x0 x Hx0 Hx) as [<- _]; [congruence|exact Hw|done]. }
    split; [done|]. change (c_egress (on_stream st f c)) with (c_egress c). rewrite He.
    clear He Hs HL. assert (HL' : ∀ i, i ∈ L → i ∉ c_writers c ∧ ∃ x, keyframe c i x ∧ st_fin x = true) by (intros; by apply HLi).
    clear HLi. induction L as [|i L IH]; [done|]. cbn [fold_right]. rewrite IH by (intros; apply HL'; by right).
    f_equal. destruct (HL' i) as [Hw (x & [Hx Hk] & _)]; [by left|]. destruct (Hfwd i x Hx) as (y & Hy & _).
    rewrite Hx, Hy. by destruct (Hsame i x y Hx Hy Hk Hw) as [_ ->].
  - intros i y Hy. destruct (Hcar i y Hy) as (x & Hx & [->|Hch]); [by apply (lo_framed _ Hok i x)|].
    apply Hch. apply Hx.
  - intros i y Hy Ho. destruct (Hcar i y Hy) as (x & Hx & [->|Hch]); [by apply (lo_torn _ Hok i x)|].
    apply Hch; [apply Hx|done].
  - intros i Hi. destruct (lo_car _ Hok i Hi) as [(x & Hx & Hk) Ht]. split; [|done].
    destruct (Hfwd i x Hx) as (y & Hy & E). exists y. split; congruence.
  - intros i Hi. destruct (lo_finishing _ Hok i Hi) as (? & (x & Hx & Hk) & Ht). split_and!; [done| |done].
    destruct (Hfwd i x Hx) as (y & Hy & E). exists y. split; congruence.
  - intros i Hi. destruct (lo_timers _ Hok i Hi) as [x Hx]. destruct (Hfwd i x Hx) as (y & Hy & _). by exists y.
  - destruct (lo_slots _ Hok) as (L & HL & Hcov). exists L. split; [done|]. intros i y Hy Hl.
    destruct (Hcar i y Hy) as (x & Hx & Hor). apply (Hcov i x Hx).
    destruct Hor as [->|Hch]; [done|]. by apply Hch; [apply Hx|].
  - intros Hd. destruct (lo_done _ Hok Hd) as (? & ? & Hall). split_and!; [done..|]. intros i y Hy Hl.
    destruct (Hcar i y Hy) as (x & Hx & Hor). apply (Hall i x Hx).
    destruct Hor as [->|Hch]; [done|]. by apply Hch; [apply Hx|].
Qed.

Lemma promise_stream k c st f : (∀ x, c_streams c !! st = Some x →
    st_kind (f x) = st_kind x ∧ (f x = x ∨ f x = cancelled x ∨ mine k st x)) → promise k c (on_stream st f c).
Proof.
  intros Hf. constructor; cbn; auto; try naive_solver.
  - intros i x Hx. change (alter f st (c_streams c)) with (c_streams (on_stream st f c)).
    rewrite on_stream_lookup, Hx. case_bool_decide as E; [subst|eauto]. exists (f x). destruct (Hf x Hx). by split_and!.
  - intros i x Hx. change (alter f st (c_streams c)) with (c_streams (on_stream st f c)).
    rewrite on_stream_lookup, Hx. by case_bool_decide.
Qed.

Lemma cancel_ok c st x : LaneOk c → c_streams c !! st = Some x → change_ok c st x (cancelled x).
Proof.
  intros Hok Hx. split_and!; [done| |]; intros Hk; split_and!; try done.
  - intros Hf. by apply (lo_fin _ Hok st x).
  - by apply (lo_framed _ Hok st x).
  - intros Hl. by apply live_cancelled in Hl.
Qed.
Lemma LaneOk_cancel c st : LaneOk c → LaneOk (on_stream st cancelled c).
Proof. intros Hok. apply LaneOk_stream; [done|]. intros x Hx. by apply cancel_ok. Qed.
Lemma promise_cancelled k c st : promise k c (on_stream st cancelled c).
Proof. apply promise_stream. auto. Qed.

Lemma hoare_cancel k A1 st Q : stable k A1 →
  (∀ c, LaneOk c → A1 c → LaneOk (on_stream st cancelled c) → Q (on_stream st cancelled c)) →
  hoare k A1 (CancelWrite st) (λ _, Q).
Proof.
  intros Hs HQ. apply hoare_sect; [done|]. intros a l Hi H. cbn.
  pose proof (LaneOk_cancel _ st Hi) as Hok. split_and!; [done|apply promise_cancelled|]. by apply (HQ (lane_core l)).
Qed.
