(* ===== verification/LaneKf.v ===== *)
(** internal/hub: the keyframe lane's goroutines, step by step. *)
From S2P Require Export LaneSteps.
#[local] Open Scope Z_scope.

Lemma writing_stream st ws ws' fin fin' open open' cur c f : writing st ws fin open cur c →
  (∀ x, keyframe c st x → st_whole x = ws → st_fin x = fin → (open = false → st_state x ≠ Open) →
     st_kind (f x) = st_kind x ∧ st_whole (f x) = ws' ∧ st_fin (f x) = fin' ∧ (open' = false → st_state (f x) ≠ Open)) →
  writing st ws' fin' open' cur (on_stream st f c).
Proof.
  intros (Hw & (x & [Hx Hk] & Hws & Hfin & Ho) & Hc) Hf. destruct (Hf x) as (E1&E2&E3&E4); [by split|done..|].
  split; [done|]. split; [|done]. exists (f x).
  split; [|done]. split; [|congruence]. rewrite on_stream_lookup, Hx. by rewrite bool_decide_eq_true_2.
Qed.
Section Writer.
Context (st : nat) (msg m : bytes) (t : Z).
#[local] Notation k := (GoWriteKeyframe st m t).
#[local] Hint Extern 1 (stable _ (writing _ _ _ _ _)) => (by eapply stable_writing) : core.

Lemma mine_writer c x : keyframe c st x → mine k st x.
Proof. by intros [_ Hk]. Qed.

Lemma hoare_write_kf : hoare k (writing st [] false true true) (sect (write_stream st msg))
  (λ w, writing st (if snd w then [msg] else []) false (snd w) true).
Proof.
  apply hoare_sect; [eauto|]. intros a l Hi Hw. pose proof Hw as (Hin & (x & [Hx Hk] & Hws & Hfin & _) & _).
  assert (Hst : state_of l st = Some (st_state x)) by (unfold state_of; cbn in Hx; by rewrite Hx).
  assert (Hone : ∀ f : stream → stream, st_kind (f x) = KeyframeStream → st_fin (f x) = false →
    (st_state (f x) = Open → st_state x = Open) → ∀ y, c_streams (lane_core l) !! st = Some y →
    change_ok (lane_core l) st y (f y)).
  { intros f Hk' Hf' Ho y Hy. rewrite Hx in Hy. injection Hy as <-. split_and!; [congruence| |by rewrite Hk].
    intros _. split_and!; [done|congruence|done]. }
  unfold write_stream. case_bool_decide as E; [destruct (ok a)|]; cbn [fst snd].
  - split_and!.
    + apply (LaneOk_stream _ st (set_st_whole (λ w, w ++ [msg])) Hi). by apply Hone.
    + apply (promise_stream k (lane_core l) st (set_st_whole (λ w, w ++ [msg]))). intros y Hy. rewrite Hx in Hy.
      injection Hy as <-. split; [done|]. right. right. by eapply mine_writer.
    + apply (writing_stream st [] [msg] false false true true true (lane_core l) (set_st_whole (λ w, w ++ [msg]))); [done|].
      intros y _ Hws' Hfin' _. cbn. by rewrite Hws'.
  - set (f := λ x, set_st_torn (λ _, take (wrote a) msg) (set_st_state (λ _, Failed) x)). split_and!.
    + apply (LaneOk_stream _ st f Hi). by apply Hone.
    + apply (promise_stream k (lane_core l) st f). intros y Hy. rewrite Hx in Hy.
      injection Hy as <-. split; [done|]. right. right. by eapply mine_writer.
    + apply (writing_stream st [] [] false false true false true (lane_core l) f); [done|].
      intros y _ Hws' Hfin' _. by split_and!.
  - split_and!; [done|apply promise_refl|]. split; [done|]. split; [|done].
    exists x. split_and!; [by split|done..|]. intros _. congruence.
Qed.

Lemma hoare_close_kf : hoare k (writing st [msg] false true true) (sect (close_stream st))
  (λ b, writing st [msg] b false true).
Proof.
  apply hoare_sect; [eauto|]. intros a l Hi Hw. pose proof Hw as (Hin & (x & [Hx Hk] & Hws & Hfin & _) & _).
  assert (Hst : state_of l st = Some (st_state x)) by (unfold state_of; cbn in Hx; by rewrite Hx).
  unfold close_stream. case_bool_decide as E; cbn [fst snd].
  - set (f := λ x, set_st_fin (λ _, ok a) (set_st_state (λ _, if ok a then Finished else Failed) x)). split_and!.
    + apply (LaneOk_stream _ st f Hi). intros y Hy. rewrite Hx in Hy. injection Hy as <-.
      split_and!; [done| |by rewrite Hk]. intros _. split_and!; [by cbn; destruct (ok a)|by exists msg|done].
    + apply (promise_stream k (lane_core l) st f). intros y Hy. rewrite Hx in Hy.
      injection Hy as <-. split; [done|]. right. right. by eapply mine_writer.
    + apply (writing_stream st [msg] [msg] false (ok a) true false true (lane_core l) f); [done|].
      intros y _ Hws' Hfin' _. split_and!; [done..|]. intros _. cbn. by destruct (ok a).
  - split_and!; [done|apply promise_refl|]. split; [done|]. split; [|done].
    exists x. split_and!; [by split|done..|]. intros _. congruence.
Qed.

(** the current stream leaves its slot *)
Lemma LaneOk_uncurrent c : LaneOk c → (∀ x, c_kf c = Some st → keyframe c st x → st_state x ≠ Open) →
  c_kf c = Some st → LaneOk (on_kf None (c_writers c) c).
Proof.
  intros Hok Ho Hc. destruct Hok. constructor; cbn; auto; [done|].
  intros i x Hx Hop. pose proof (lo_open i x Hx Hop) as E. rewrite Hc in E. injection E as <-.
  by destruct (Ho x Hc Hx).
Qed.
Lemma promise_kf c kf w k' : (∀ i, kf = Some i → c_kf c = Some i ∨ (c_next c ≤ i)%nat) →
  (∀ i, i ∈ c_writers c → i ∈ w ∨ ∃ m t, k' = GoWriteKeyframe i m t) →
  promise k' c (on_kf kf w c).
Proof. intros Hk Hw. constructor; cbn; auto; try naive_solver. Qed.

Lemma core_latch_kf due l : lane_core (snd (latch due l)) = lane_core l.
Proof. apply core_latch. Qed.

Lemma hoare_classify ws fin delivered : hoare k (writing st ws fin false true)
  (sect (λ _ l, classify st delivered l)) (λ _, writing st ws fin false false).
Proof.
  apply hoare_sect; [eauto|]. intros a l Hi Hw.
  assert (E : lane_core (snd (classify st delivered l)) =
    if bool_decide (kfCurrent (l_kf l) = Some st) then on_kf None (c_writers (lane_core l)) (lane_core l) else lane_core l).
  { unfold classify. case_bool_decide; destruct delivered; cbn [negb]; try done;
      destruct (latch _ _) eqn:El; cbn [snd];
      match type of El with latch ?d ?l0 = (_, ?l1) => change l1 with (snd (b, l1)); rewrite <- El, core_latch end; done. }
  unfold Inv, G. rewrite E. case_bool_decide as Hc.
  - split_and!.
    + apply LaneOk_uncurrent; [done| |done]. intros x _ Hx. destruct Hw as (_ & (y & Hy & _ & _ & Ho) & _).
      destruct Hx as [Hx _], Hy as [Hy _]. rewrite Hx in Hy. injection Hy as <-. by apply Ho.
    + by apply promise_kf; [|auto].
    + destruct Hw as (? & ? & _). split_and!; done.
  - split_and!; [done|apply promise_refl|]. destruct Hw as (? & ? & _). split_and!; done.
Qed.

(** a writer ends *)
Definition without (l : list nat) : list nat := List.filter (λ w, negb (Nat.eqb w st)) l.
Lemma elem_of_writers_without i l : i ∈ without l ↔ i ∈ l ∧ i ≠ st.
Proof.
  unfold without. rewrite !list_elem_of_In, filter_In. rewrite negb_true_iff, Nat.eqb_neq. done.
Qed.
Definition counted (n b : Z) (c : LCore) : LCore :=
  MkLCore (c_streams c) (c_next c) (c_kf c) (without (c_writers c)) (c_car c) (c_fin c) (c_timers c)
    (c_sent c + n) (c_egress c + b) (c_leg c) (c_rel c) (c_done c).
Lemma LaneOk_counted c ws fin n b : LaneOk c → writing st ws fin false false c →
  (fin = true → n = 1 ∧ b = zlen (concat ws)) → (fin = false → n = 0 ∧ b = 0) → LaneOk (counted n b c).
Proof.
  intros Hok (Hw & (x & [Hx Hk] & Hws & Hfin & Ho) & Hcur) Ht Hf.
  destruct (lo_sent _ Hok) as (L & HL & HLi & Hs & He). destruct Hok. constructor; auto; cbn.
  - intros i. rewrite elem_of_writers_without. intros [Hi _]. by apply lo_writers.
  - apply NoDup_ListNoDup, List.NoDup_filter, NoDup_ListNoDup, lo_nodup.
  - intros i Hi. rewrite elem_of_writers_without. split; [by apply lo_current|]. intros ->. by apply Hcur.
  - destruct fin.
    + destruct (Ht eq_refl) as [-> ->]. exists (st :: L). split_and!.
      * constructor; [|done]. rewrite HLi. tauto.
      * intros i. rewrite elem_of_cons, elem_of_writers_without, HLi. destruct (decide (i = st)) as [->|Hne].
        -- split; [|by left]. intros _. split; [tauto|]. exists x. by split.
        -- split; [intros [?|[? ?]]; [done|]; split; [tauto|done]|]. intros [? ?]. right. split; [tauto|done].
      * rewrite zlen_cons. lia.
      * cbn [fold_right]. rewrite Hx, Hws. lia.
    + destruct (Hf eq_refl) as [-> ->]. exists L. rewrite !Z.add_0_r. split_and!; try done.
      intros i. rewrite HLi, elem_of_writers_without. destruct (decide (i = st)) as [->|Hne].
      * split; intros [? (y & [Hy _] & Hfy)]; [tauto|]. cbn in Hy. rewrite Hx in Hy. injection Hy as <-. congruence.
      * tauto.
Qed.
Lemma promise_counted c n b : promise k c (counted n b c).
Proof.
  constructor; cbn; auto; try naive_solver. intros i Hi. destruct (decide (i = st)) as [->|Hne]; [eauto|].
  left. by apply elem_of_writers_without.
Qed.

Lemma hoare_delivered : hoare k (writing st [msg] true false false)
  (pmodify (λ l, writer_done st (add_count EgressKeyframeBytes (zlen msg) (add_count KeyframeStreamsSent 1 l))))
  (λ _ _, True).
Proof.
  apply hoare_sect; [eauto|]. intros a l Hi Hw. cbn [fst snd]. unfold Inv, G.
  replace (lane_core _) with (counted 1 (zlen msg) (lane_core l)).
  - split_and!; [|apply promise_counted|done]. apply (LaneOk_counted _ [msg] true); [done|done| |done].
    intros _. cbn. by rewrite app_nil_r.
  - unfold lane_core, counted. cbn. unfold bump. repeat case_bool_decide; done.
Qed.
Lemma hoare_undelivered ws : hoare k (writing st ws false false false) (pmodify (writer_done st)) (λ _ _, True).
Proof.
  apply hoare_sect; [eauto|]. intros a l Hi Hw. cbn [fst snd]. unfold Inv, G.
  replace (lane_core _) with (counted 0 0 (lane_core l)).
  - split_and!; [|apply promise_counted|done]. by apply (LaneOk_counted _ ws false).
  - unfold lane_core, counted. cbn. by rewrite !Z.add_0_r.
Qed.
End Writer.

(** ** Handing a keyframe off *)

Definition uncurrent (c : LCore) : LCore :=
  match c_kf c with Some st => on_kf None (c_writers c) (on_stream st cancelled c) | None => c end.
Definition opened (c : LCore) : LCore :=
  on_kf (Some (c_next c)) (c_writers c ++ [c_next c]) (add_stream KeyframeStream (uncurrent c)).

Lemma core_cancel_current l : lane_core (cancel_current l) = uncurrent (lane_core l).
Proof. unfold cancel_current, uncurrent. cbn. by destruct (kfCurrent (l_kf l)). Qed.
Lemma LaneOk_uncur c : LaneOk c → LaneOk (uncurrent c) ∧ c_kf (uncurrent c) = None.
Proof.
  intros Hok. unfold uncurrent. destruct (c_kf c) as [st|] eqn:E; [|by split]. split; [|done].
  apply (LaneOk_uncurrent st (on_stream st cancelled c)); [by apply LaneOk_cancel| |done].
  intros x _ [Hx _] Ho. rewrite on_stream_lookup, bool_decide_eq_true_2 in Hx by done.
  apply fmap_Some in Hx as (y & _ & ->). done.
Qed.
Lemma uncurrent_same c : c_next (uncurrent c) = c_next c ∧ c_writers (uncurrent c) = c_writers c ∧
  c_car (uncurrent c) = c_car c ∧ c_fin (uncurrent c) = c_fin c ∧ c_timers (uncurrent c) = c_timers c ∧
  c_leg (uncurrent c) = c_leg c ∧ c_rel (uncurrent c) = c_rel c ∧ c_done (uncurrent c) = c_done c.
Proof. unfold uncurrent. by destruct (c_kf c). Qed.
Lemma uncurrent_streams c i : c_streams (uncurrent c) !! i = c_streams c !! i ∨
  c_streams (uncurrent c) !! i = cancelled <$> c_streams c !! i.
Proof.
  unfold uncurrent. destruct (c_kf c) as [st|]; [|by left]. cbn [on_kf c_streams].
  rewrite on_stream_lookup. case_bool_decide; auto.
Qed.

Lemma fresh_none c i : LaneOk c → (c_next c ≤ i)%nat → c_streams c !! i = None.
Proof.
  intros Hok Hi. destruct (c_streams c !! i) as [x|] eqn:E; [|done]. pose proof (lo_next _ Hok _ _ E). lia.
Qed.
(** a new stream is none of the old ones *)
Lemma added_lookup kind c i x : LaneOk c → c_streams (add_stream kind c) !! i = Some x →
  i = c_next c ∧ x = MkStream kind [] [] false Open ∨ i ≠ c_next c ∧ c_streams c !! i = Some x.
Proof.
  intros Hok. cbn. destruct (decide (i = c_next c)) as [->|Hne].
  - rewrite lookup_insert_eq. intros [= <-]. auto.
  - rewrite lookup_insert_ne by done. auto.
Qed.
Lemma added_old kind c i x : LaneOk c → c_streams c !! i = Some x → c_streams (add_stream kind c) !! i = Some x.
Proof.
  intros Hok Hi. cbn. rewrite lookup_insert_ne; [done|]. intros <-. by rewrite fresh_none in Hi.
Qed.

(** what every new stream leaves alone *)
Lemma sent_added kind c (w : list nat) : LaneOk c → (∀ i, i ∈ w ↔ i ∈ c_writers c ∨ i = c_next c ∧ kind = KeyframeStream) →
  ∃ L, NoDup L ∧
    (∀ st, st ∈ L ↔ st ∉ w ∧ ∃ x, keyframe (add_stream kind c) st x ∧ st_fin x = true) ∧
    c_sent c = zlen L ∧
    c_egress c = fold_right (λ st n, (match c_streams (add_stream kind c) !! st with
                                      | Some x => zlen (concat (st_whole x)) | None => 0 end) + n) 0 L.
Proof.
  intros Hok Hw. destruct (lo_sent _ Hok) as (L & HL & HLi & Hs & He). exists L. split; [done|]. split; [|split; [done|]].
  - intros i. rewrite HLi, Hw. split.
    + intros [Hi (x & [Hx Hk] & Hf)]. split.
      * intros [?|[-> _]]; [done|]. by rewrite fresh_none in Hx.
      * exists x. split; [split; [by apply added_old|done]|done].
    + intros [Hi (x & [Hx Hk] & Hf)]. split; [tauto|].
      destruct (added_lookup _ _ _ _ Hok Hx) as [[_ ->]|[_ Hx']]; [done|]. by exists x.
  - rewrite He. clear He Hs HL. assert (HL' : ∀ i, i ∈ L → is_Some (c_streams c !! i)).
    { intros i Hi. apply HLi in Hi as (_ & x & [Hx _] & _). by exists x. }
    clear HLi. induction L as [|i L IH]; [done|]. cbn [fold_right]. rewrite IH by (intros; apply HL'; by right).
    f_equal. destruct (HL' i) as [x Hx]; [by left|]. by rewrite Hx, (added_old kind c i x).
Qed.
Lemma carrier_added kind c i x : LaneOk c → kind ≠ CarrierStream → carrier (add_stream kind c) i x → carrier c i x.
Proof.
  intros Hok Hk [Hx Hc]. destruct (added_lookup _ _ _ _ Hok Hx) as [[_ ->]|[_ ?]]; [done|by split].
Qed.
Lemma carrier_added_old kind c i x : LaneOk c → carrier c i x → carrier (add_stream kind c) i x.
Proof. intros Hok [Hx Hc]. split; [by apply added_old|done]. Qed.
Lemma keyframe_added kind c i x : LaneOk c → keyframe (add_stream kind c) i x →
  keyframe c i x ∨ i = c_next c ∧ kind = KeyframeStream ∧ x = MkStream kind [] [] false Open.
Proof.
  intros Hok [Hx Hk]. destruct (added_lookup _ _ _ _ Hok Hx) as [[-> ->]|[_ ?]]; [by right|left; by split].
Qed.

Lemma LaneOk_opened c : LaneOk c → LaneOk (opened c).
Proof.
  intros Hok0. destruct (LaneOk_uncur c Hok0) as [Hok Hkf]. unfold opened.
  destruct (uncurrent_same c) as (En & Ew & _). rewrite <- En, <- Ew. set (c1 := uncurrent c) in *.
  constructor; cbn [on_kf c_next c_kf c_writers c_car c_fin c_timers c_sent c_egress c_leg c_rel c_done add_stream].
  - intros i x Hx. destruct (added_lookup _ _ _ _ Hok Hx) as [[-> _]|[_ Hi]]; [lia|].
    pose proof (lo_next _ Hok _ _ Hi). lia.
  - intros i Hi. apply elem_of_app in Hi as [Hi|Hi%list_elem_of_singleton].
    + destruct (lo_writers _ Hok i Hi) as (x & Hx & Hk). exists x. split; [by apply (added_old KeyframeStream c1)|done].
    + subst. eexists. split; [apply lookup_insert_eq|done].
  - apply NoDup_app. split_and!; [apply (lo_nodup _ Hok)| |apply NoDup_singleton].
    intros i Hi ->%list_elem_of_singleton. destruct (lo_writers _ Hok _ Hi) as (x & Hx & _).
    by rewrite fresh_none in Hx.
  - intros i [= <-]. apply elem_of_app. right. by apply list_elem_of_singleton.
  - intros i x Hx Ho. destruct (keyframe_added _ _ _ _ Hok Hx) as [Hx'|[-> _]]; [|done].
    pose proof (lo_open _ Hok _ _ Hx' Ho). congruence.
  - intros i x Hx Hf. destruct (keyframe_added _ _ _ _ Hok Hx) as [Hx'|(_ & _ & ->)]; [|done]. by apply (lo_fin _ Hok i).
  - apply (sent_added KeyframeStream c1); [done|]. intros i. rewrite elem_of_app, list_elem_of_singleton. tauto.
  - intros i x Hx. apply (lo_framed _ Hok i). by apply (carrier_added KeyframeStream).
  - intros i x Hx. apply (lo_torn _ Hok i). by apply (carrier_added KeyframeStream).
  - intros i Hi. destruct (lo_car _ Hok i Hi) as [[x Hx] Ht]. split; [|done]. exists x.
    by apply (carrier_added_old KeyframeStream c1).
  - intros i Hi. destruct (lo_finishing _ Hok i Hi) as (? & [x Hx] & Ht). split_and!; [done| |done]. exists x.
    by apply (carrier_added_old KeyframeStream c1).
  - intros i Hi. destruct (lo_timers _ Hok i Hi) as [x Hx]. exists x. by apply (added_old KeyframeStream c1).
  - destruct (lo_slots _ Hok) as (L & HL & Hcov). exists L. split; [done|]. intros i x Hx.
    apply (Hcov i). by apply (carrier_added KeyframeStream).
  - intros Hd. destruct (lo_done _ Hok Hd) as (? & ? & Hall). split_and!; [done..|]. intros i x Hx.
    apply (Hall i). by apply (carrier_added KeyframeStream).
Qed.
Lemma promise_uncurrent k c : promise k c (uncurrent c).
Proof.
  destruct (uncurrent_same c) as (En & Ew & Ec & Ef & Et & El & Er & Ed).
  constructor; rewrite ?En, ?Ew, ?Ec, ?Ef, ?Et, ?El, ?Er, ?Ed; auto.
  - intros i x Hx. destruct (uncurrent_streams c i) as [-> | ->]; rewrite Hx; (eexists; split; [done|auto]).
  - intros i x Hx. destruct (uncurrent_streams c i) as [-> | ->]; by rewrite Hx.
  - intros i. unfold firing. by rewrite Et.
  - intros i. unfold uncurrent. destruct (c_kf c) eqn:E; cbn; [done|by rewrite E].
Qed.
Lemma promise_opened k c : LaneOk c → promise k c (opened c).
Proof.
  intros Hok0. destruct (LaneOk_uncur c Hok0) as [Hok _].
  destruct (uncurrent_same c) as (En & Ew & Ec & Ef & Et & El & Er & Ed).
  constructor; cbn [opened on_kf c_next c_kf c_writers c_car c_fin c_timers c_sent c_egress c_leg c_rel c_done add_stream];
    rewrite ?En, ?Ec, ?Ef, ?Et, ?El, ?Er, ?Ed; auto.
  - intros i x Hx. cbn [c_streams opened on_kf].
    destruct (uncurrent_streams c i) as [E|E]; rewrite Hx in E; (eexists; split;
      [by apply (added_old KeyframeStream (uncurrent c))|auto]).
  - intros i x Hx Hx'. destruct (added_lookup KeyframeStream (uncurrent c) i x Hok Hx') as [[-> ->]|[_ Hi]]; [rewrite En; by split|].
    destruct (uncurrent_streams c i) as [E|E]; rewrite Hx in E; cbn in E; congruence.
  - intros i Hi. left. apply elem_of_app. by left.
  - intros i. unfold firing. cbn. by rewrite Et.
  - intros i [= <-]. by right.
Qed.

Section Sender.
Context (opts : Options) (msg : bytes) (seq : Z).

Lemma core_note msg' l : lane_core (note_newest msg' l) = lane_core l.
Proof. unfold note_newest. by destruct (keyframeID msg'). Qed.
(** the streams a hand-off is made on, as the core sees it *)
Lemma core_kf_section a l : lane_core (snd (kf_section msg seq a l)) =
  match fst (kf_section msg seq a l) with
  | KfStale => lane_core l
  | KfNoStream _ _ => uncurrent (lane_core l)
  | KfOpened st _ => opened (lane_core l)
  end ∧ ∀ st t, fst (kf_section msg seq a l) = KfOpened st t → st = c_next (lane_core l).
Proof.
  unfold kf_section. destruct (_ || _); [done|].
  set (l1 := note_newest _ _). set (l2 := if s_legCarrier (l_s l1) then _ else _).
  assert (E : lane_core l2 = lane_core l).
  { transitivity (lane_core l1); [|unfold l1; by rewrite core_note].
    unfold l2. destruct (s_legCarrier _); [done|]. by destruct (reliable _). }
  assert (E' : lane_core (cancel_current l2) = uncurrent (lane_core l)) by by rewrite core_cancel_current, E.
  unfold open_stream. destruct (ok a).
  - cbn [fst snd]. assert (En : l_next (cancel_current l2) = c_next (lane_core l)).
    { change (l_next (cancel_current l2)) with (c_next (lane_core (cancel_current l2))). rewrite E'.
      apply uncurrent_same. }
    split; [|by intros ? ? [= <- _]]. unfold opened. rewrite <- E'. rewrite <- En. 
    assert (Ew : c_writers (lane_core l) = c_writers (lane_core (cancel_current l2))) by (rewrite E'; symmetry; apply uncurrent_same).
    by rewrite Ew.
  - destruct (noteKeyframeOpenFailedLocked _) as [evict l3] eqn:El. cbn [fst snd]. split; [|done].
    rewrite <- E'. change l3 with (snd (evict, l3)). rewrite <- El. unfold noteKeyframeOpenFailedLocked.
    by rewrite core_latch.
Qed.

Lemma hoare_sendKeyframe k : hoare k (λ _, True) (sendKeyframe opts msg seq) (λ _ _, True).
Proof.
  pose proof (stable_true k) as Hst.
  unfold sendKeyframe. apply hoare_skip; [done|auto with lanekeeps|]. intros [|]; [by apply hoare_ret|].
  apply hoare_skip; [done|auto with lanekeeps|]. intros paid. destruct (negb paid).
  { apply (keep_bind _ _ (keep_add KfBandwidth 1 ltac:(done) ltac:(done)) (λ _, keep_log _) k _ Hst). }
  apply (hoare_bind _ _ _ _ (λ _ _, True)).
  - apply hoare_act; [done|]. intros a l b l' Hi _ [= E].
    destruct (core_kf_section a l) as [Ec En]. rewrite E in *. cbn [fst snd] in *. unfold Inv, G. rewrite Ec.
    destruct b as [|evict t|st t].
    + split_and!; [done|apply promise_refl| |done]. by split; constructor.
    + split_and!; [by apply LaneOk_uncur|apply promise_uncurrent| |done]. by split; constructor.
    + split_and!; [by apply LaneOk_opened|by apply promise_opened| |done].
      rewrite (En st t eq_refl). split; [apply NoDup_singleton|]. constructor; [|constructor].
      cbn [lane_pre own]. split; [|pose proof (proj1 (uncurrent_same (lane_core l))); cbn in *; lia]. split_and!; [| |done].
      * apply elem_of_app. right. by apply list_elem_of_singleton.
      * exists (MkStream KeyframeStream [] [] false Open). split_and!; try done.
        split; [|done]. cbn [opened on_kf c_streams add_stream]. destruct (uncurrent_same (lane_core l)) as (<- & _).
        apply lookup_insert_eq.
  - intros [|evict t|st t]; [| |by apply hoare_ret].
    + by apply keep_add.
    + assert (Hk : keep (_ ← add KfOpenFailed 1; _ ← noteKeyframeOutcome opts t false; go_evict evict)) by keep_tac.
      by apply Hk.
Qed.

Lemma hoare_writeKeyframe st m t : hoare (GoWriteKeyframe st m t) (writing st [] false true true)
  (writeKeyframe opts st msg t) (λ _ _, True).
Proof.
  unfold writeKeyframe.
  assert (Hs : ∀ ws fin open cur, stable (GoWriteKeyframe st m t) (writing st ws fin open cur))
    by (intros; by eapply stable_writing).
  eapply hoare_bind; [apply hoare_write_kf|]. intros [n w]. cbn [fst snd].
  apply hoare_skip; [done|auto with lanekeeps|]. intros _.
  apply (hoare_bind _ _ _ _ (λ b, writing st (if w then [msg] else []) b false true)).
  { destruct w; [apply hoare_close_kf|]. by apply hoare_ret. }
  intros delivered. eapply hoare_bind; [apply hoare_classify|]. intros c. cbn beta.
  destruct delivered.
  - intros l Hi Hw. assert (w = true) as ->; [|by apply (hoare_delivered st msg m t l Hi)].
    destruct w; [done|]. destruct Hw as (_ & (x & Hx & Hws & Hf & _) & _).
    destruct (lo_fin _ Hi _ _ Hx Hf) as [? E]. congruence.
  - apply (hoare_bind _ _ _ _ (λ _, writing st (if w then [msg] else []) false false false)).
    { apply hoare_cancel; [done|]. intros c' _ Hw _.
      apply (writing_stream st _ _ false _ false false false _ cancelled Hw). intros x Hx Hws Hf Ho. by split_and!. }
    intros _. apply hoare_skip; [done|destruct (fst c); auto with lanekeeps|]. intros _.
    apply hoare_skip; [done|auto with lanekeeps|]. intros _. apply hoare_undelivered.
Qed.
End Sender.
