(* ===== verification/LaneCar.v ===== *)
(** internal/hub: the goroutines on the carriers, step by step: the drain, the leg
    writer, the reset timers, the audio lane and Close. *)
From S2P Require Export LaneKf.
#[local] Open Scope Z_scope.

(** ** Slots and timers, changed *)

Record slots_ok (c : LCore) (car fin : option nat) (timers : gmap nat timer_state) : Prop := {
  so_car : ∀ st, car = Some st → (∃ x, carrier c st x) ∧ timers !! st = None;
  so_fin : ∀ st, fin = Some st → c_leg c = true ∧ (∃ x, carrier c st x) ∧ is_Some (timers !! st);
  so_timers : ∀ st, is_Some (timers !! st) → is_Some (c_streams c !! st);
  so_firing : ∀ st, firing c st → timers !! st = Some Fired;
  so_done : c_done c = true → car = None ∧ fin = None;
}.
Lemma LaneOk_slots c car fin timers : LaneOk c → slots_ok c car fin timers → LaneOk (on_slots car fin timers c).
Proof.
  intros Hok Hso. pose proof (so_firing _ _ _ _ Hso) as Hf. pose proof (lo_slots _ Hok) as (L & HL & Hcov).
  pose proof (lo_done _ Hok) as Hdone. pose proof (so_done _ _ _ _ Hso) as Hsd.
  destruct Hok, Hso. constructor; cbn; auto.
  - exists L. split; [done|]. intros st x Hx Hl.
    destruct (Hcov st x Hx Hl) as [Hs|?]; [left; by apply Hf|by right].
  - intros Hd. destruct (Hsd Hd) as [-> ->]. split_and!; [done..|]. intros st x Hx Hl.
    destruct (Hdone Hd) as (_ & _ & Hall). apply Hf. by apply (Hall st x).
Qed.
Lemma promise_slots_drain k c car fin timers : is_drain k → (∀ st, firing c st → timers !! st = Some Fired) →
  promise k c (on_slots car fin timers c).
Proof. intros Hd Hf. constructor; cbn; auto; naive_solver. Qed.

(** adding a stream that is none of the drain's *)
Lemma LaneOk_audio c : LaneOk c → LaneOk (add_stream AudioStream c).
Proof.
  intros Hok. constructor; cbn [add_stream c_next c_kf c_writers c_car c_fin c_timers c_sent c_egress c_leg c_rel c_done].
  - intros i x Hx. destruct (added_lookup _ _ _ _ Hok Hx) as [[-> _]|[_ Hi]]; [lia|].
    pose proof (lo_next _ Hok _ _ Hi). lia.
  - intros i Hi. destruct (lo_writers _ Hok i Hi) as (x & Hx & Hk). exists x. split; [by apply (added_old AudioStream c)|done].
  - apply (lo_nodup _ Hok).
  - apply (lo_current _ Hok).
  - intros i x Hx Ho. destruct (keyframe_added _ _ _ _ Hok Hx) as [Hx'|(_ & ? & _)]; [|done]. by apply (lo_open _ Hok i x).
  - intros i x Hx Hf. destruct (keyframe_added _ _ _ _ Hok Hx) as [Hx'|(_ & _ & ->)]; [|done]. by apply (lo_fin _ Hok i).
  - apply (sent_added AudioStream c (c_writers c)); [done|]. intros i. split; [auto|]. by intros [?|[_ ?]].
  - intros i x Hx. apply (lo_framed _ Hok i). by apply (carrier_added AudioStream).
  - intros i x Hx. apply (lo_torn _ Hok i). by apply (carrier_added AudioStream).
  - intros i Hi. destruct (lo_car _ Hok i Hi) as [[x Hx] Ht]. split; [|done]. exists x. by apply (carrier_added_old AudioStream c).
  - intros i Hi. destruct (lo_finishing _ Hok i Hi) as (? & [x Hx] & Ht). split_and!; [done| |done]. exists x.
    by apply (carrier_added_old AudioStream c).
  - intros i Hi. destruct (lo_timers _ Hok i Hi) as [x Hx]. exists x. by apply (added_old AudioStream c).
  - destruct (lo_slots _ Hok) as (L & HL & Hcov). exists L. split; [done|]. intros i x Hx.
    apply (Hcov i). by apply (carrier_added AudioStream).
  - intros Hd. destruct (lo_done _ Hok Hd) as (? & ? & Hall). split_and!; [done..|]. intros i x Hx.
    apply (Hall i). by apply (carrier_added AudioStream).
Qed.
Lemma promise_added k kind c : LaneOk c → (kind = CarrierStream → is_drain k) → promise k c (add_stream kind c).
Proof.
  intros Hok Hk. constructor; cbn [add_stream c_next c_kf c_writers c_car c_fin c_timers c_sent c_egress c_leg c_rel c_done]; auto.
  - intros i x Hx. exists x. split; [by apply (added_old kind c)|auto].
  - intros i x Hx Hx'. destruct (added_lookup _ _ _ _ Hok Hx') as [[-> ->]|[_ ?]]; [by split|congruence].
Qed.

(** a carrier is opened once the drain holds no other but one that is finishing *)
Lemma LaneOk_carrier c : LaneOk c → draining [] None c → c_car c = None → LaneOk (add_stream CarrierStream c).
Proof.
  intros Hok (Hdone & HD & _) Hcar.
  assert (Hc : ∀ i x, carrier (add_stream CarrierStream c) i x →
    carrier c i x ∨ i = c_next c ∧ x = MkStream CarrierStream [] [] false Open).
  { intros i x [Hx Hk]. destruct (added_lookup _ _ _ _ Hok Hx) as [[-> ->]|[_ ?]]; [auto|left; by split]. }
  constructor; cbn [add_stream c_next c_kf c_writers c_car c_fin c_timers c_sent c_egress c_leg c_rel c_done].
  - intros i x Hx. destruct (added_lookup _ _ _ _ Hok Hx) as [[-> _]|[_ Hi]]; [lia|].
    pose proof (lo_next _ Hok _ _ Hi). lia.
  - intros i Hi. destruct (lo_writers _ Hok i Hi) as (x & Hx & Hk). exists x. split; [by apply (added_old CarrierStream c)|done].
  - apply (lo_nodup _ Hok).
  - apply (lo_current _ Hok).
  - intros i x Hx Ho. destruct (keyframe_added _ _ _ _ Hok Hx) as [Hx'|(_ & ? & _)]; [|done]. by apply (lo_open _ Hok i x).
  - intros i x Hx Hf. destruct (keyframe_added _ _ _ _ Hok Hx) as [Hx'|(_ & _ & ->)]; [|done]. by apply (lo_fin _ Hok i).
  - apply (sent_added CarrierStream c (c_writers c)); [done|]. intros i. split; [auto|]. by intros [?|[_ ?]].
  - intros i x Hx. destruct (Hc i x Hx) as [?|[_ ->]]; [by apply (lo_framed _ Hok i)|]. left. split; [done|apply prefix_nil].
  - intros i x Hx. destruct (Hc i x Hx) as [?|[_ ->]]; [by apply (lo_torn _ Hok i)|done].
  - intros i Hi. congruence.
  - intros i Hi. destruct (lo_finishing _ Hok i Hi) as (? & [x Hx] & Ht). split_and!; [done| |done]. exists x.
    by apply (carrier_added_old CarrierStream c).
  - intros i Hi. destruct (lo_timers _ Hok i Hi) as [x Hx]. exists x. by apply (added_old CarrierStream c).
  - exists (c_next c :: match c_fin c with Some f => [f] | None => [] end). split.
    + unfold carrier_slots. destruct (c_fin c) as [f|] eqn:Ef; cbn; [|by destruct (c_leg c); lia].
      by rewrite (proj1 (lo_finishing _ Hok f Ef)).
    + intros i x Hx Hl. destruct (Hc i x Hx) as [Hx'|[-> _]]; [|right; by left].
      destruct (HD i x Hx' Hl) as [Hn|[?|[->|?]]]; [by apply elem_of_nil in Hn|congruence| |by left].
      right. right. by left.
  - congruence.
Qed.

(** ** The drain *)

Lemma draining_mono locals locals' fresh c : draining locals fresh c → (∀ st, st ∈ locals → st ∈ locals') →
  draining locals' fresh c.
Proof.
  intros (? & HD & ?) Hs. split_and!; [done| |done]. intros st x Hx Hl. destruct (HD st x Hx Hl) as [?|?]; auto.
Qed.
(** a carrier changed in place, which is not the current one or has been begun *)
Lemma draining_stream locals fresh c st f : draining locals fresh c →
  (∀ x, c_streams c !! st = Some x → st_kind (f x) = st_kind x ∧ (live (c_leg c) (f x) → live (c_leg c) x) ∧
     (st_whole x ≠ [] → st_whole (f x) ≠ [])) →
  draining locals fresh (on_stream st f c).
Proof.
  intros (Hd & HD & HB) Hf.
  assert (Hback : ∀ i y, carrier (on_stream st f c) i y → ∃ x, carrier c i x ∧
    (live (c_leg c) y → live (c_leg c) x) ∧ (st_whole x ≠ [] → st_whole y ≠ [])).
  { intros i y [Hy Hk]. destruct (on_stream_back _ _ _ _ _ Hy) as (x & Hx & [[-> ->]|[-> _]]); exists x.
    - destruct (Hf x Hx) as (E & ? & ?). split; [split; congruence|done].
    - split; [by split|done]. }
  split_and!; [done| |].
  - intros i y Hy Hl. destruct (Hback i y Hy) as (x & Hx & Hlx & _). by apply (HD i x Hx), Hlx.
  - intros i y Hc Hy Hfr. destruct (Hback i y Hy) as (x & Hx & _ & Hw). by apply Hw, (HB i x).
Qed.
Lemma draining_cancel locals fresh st c : draining (st :: locals) fresh c → draining locals fresh (on_stream st cancelled c).
Proof.
  intros Hd. assert (Hd' : draining (st :: locals) fresh (on_stream st cancelled c)).
  { apply draining_stream; [done|]. intros x Hx. split_and!; [done| |done]. intros Hl. by apply live_cancelled in Hl. }
  destruct Hd' as (? & HD & ?). split_and!; [done| |done]. intros i x Hx Hl.
  destruct (HD i x Hx Hl) as [Hin|?]; [|auto]. apply elem_of_cons in Hin as [->|?]; [|auto]. exfalso.
  destruct Hx as [Hx _]. rewrite on_stream_lookup, bool_decide_eq_true_2 in Hx by done.
  apply fmap_Some in Hx as (y & _ & ->). by apply live_cancelled in Hl.
Qed.
Lemma held_other st begun c i f : held st begun c →
  (∀ x, i = st → c_streams c !! i = Some x → st_kind (f x) = st_kind x ∧ st_whole (f x) = st_whole x) →
  held st begun (on_stream i f c).
Proof.
  intros [(x & [Hx Hk] & Hb) Ht] Hf. split; [|done]. destruct (decide (st = i)) as [->|Hne].
  - destruct (Hf x eq_refl Hx) as [E1 E2]. exists (f x). split; [|by rewrite E2].
    split; [|by rewrite E1]. rewrite on_stream_lookup, Hx. by rewrite bool_decide_eq_true_2.
  - exists x. split; [|done]. split; [|done]. rewrite on_stream_lookup. by rewrite bool_decide_eq_false_2.
Qed.

Lemma held_timer c st begun : held st begun c → c_timers c !! st = None.
Proof. by intros [_ ?]. Qed.
(** the current carrier, to the drain that reads it *)
Lemma held_current c st : LaneOk c → draining [] None c → c_car c = Some st → held st true c.
Proof.
  intros Hok (_ & _ & HB) E. destruct (lo_car _ Hok _ E) as [[x Hx] Ht]. split; [|done]. exists x. split; [done|].
  cbn. by apply bool_decide_eq_false_2, (HB st x).
Qed.

(** ** A carrier written *)

Definition wrote_buf (buf : bytes) (x : stream) : stream := set_st_whole (λ w, w ++ [buf]) x.
Definition tore_buf (moved : bytes) (x : stream) : stream :=
  set_st_torn (λ _, moved) (set_st_state (λ _, Failed) x).
(** what goes on a carrier next: its prologue, then records *)
Definition fits (leg begun : bool) (buf : bytes) : Prop :=
  if begun then ∃ d, record_ok leg d ∧ frames d buf else buf = prologue.

Lemma well_framed_wrote leg buf x : well_framed leg x → st_torn x = [] → fits leg (negb (bool_decide (st_whole x = []))) buf →
  well_framed leg (wrote_buf buf x).
Proof.
  intros Hw Ht Hf. case_bool_decide as E; cbn in Hf.
  - subst. right. exists [], []. cbn. rewrite E, Ht. split_and!; [done|constructor|constructor|by left].
  - destruct Hw as [[? _]|(ds & fs & Ew & H1 & H2 & _)]; [done|]. destruct Hf as (d & Hd & Hfr).
    right. exists (ds ++ [d]), (fs ++ [buf]). cbn. rewrite Ew, Ht. split_and!; [done| | |by left].
    + by apply Forall2_app; [|constructor].
    + by apply Forall_app; split; [|constructor].
Qed.
Lemma prefix_take' {A} (n : nat) (l : list A) : take n l `prefix_of` l.
Proof. exists (drop n l). by rewrite take_drop. Qed.
Lemma well_framed_tore leg buf n x : well_framed leg x → st_torn x = [] →
  fits leg (negb (bool_decide (st_whole x = []))) buf → well_framed leg (tore_buf (take n buf) x).
Proof.
  intros Hw Ht Hf. case_bool_decide as E; cbn in Hf.
  - subst. left. split; [done|apply prefix_take'].
  - destruct Hw as [[? _]|(ds & fs & Ew & H1 & H2 & _)]; [done|]. destruct Hf as (d & Hd & Hfr).
    right. exists ds, fs. split_and!; [done..|]. right. exists d, buf. split_and!; [done..|apply prefix_take'].
Qed.
Lemma change_carrier c st x y : st_kind x = CarrierStream → st_kind y = CarrierStream → well_framed (c_leg c) y →
  (live (c_leg c) y → live (c_leg c) x) → (st_state y = Open → st_torn y = []) → change_ok c st x y.
Proof. intros Hx Hy. rewrite <- Hx in Hy. intros. split_and!; [done| |done]. by rewrite Hx. Qed.

(** ** Both carriers reset at once *)

Definition stop_timer (t : timer_state) : timer_state := if bool_decide (t = Armed) then Stopped else t.
Definition uncar (c : LCore) : LCore :=
  match c_car c with Some st => on_slots None (c_fin c) (c_timers c) (on_stream st cancelled c) | None => c end.
Definition unfin (c : LCore) : LCore :=
  match c_fin c with
  | Some st => on_slots (c_car c) None (alter stop_timer st (c_timers c)) (on_stream st cancelled c)
  | None => c
  end.

Lemma firing_stop (timers : gmap nat timer_state) st i : timers !! i = Some Fired → alter stop_timer st timers !! i = Some Fired.
Proof.
  intros E. destruct (decide (i = st)) as [->|?]; [by rewrite lookup_alter_eq, E|by rewrite lookup_alter_ne].
Qed.
Lemma stop_none (timers : gmap nat timer_state) st i : alter stop_timer st timers !! i = None ↔ timers !! i = None.
Proof.
  destruct (decide (i = st)) as [->|?]; [|by rewrite lookup_alter_ne]. rewrite lookup_alter_eq.
  by destruct (timers !! st).
Qed.
Lemma stop_some (timers : gmap nat timer_state) st i : is_Some (alter stop_timer st timers !! i) ↔ is_Some (timers !! i).
Proof. rewrite <- !not_eq_None_Some. by rewrite stop_none. Qed.
Lemma carrier_kept c st f i : (∀ x, st_kind (f x) = st_kind x) → (∃ x, carrier c i x) → ∃ x, carrier (on_stream st f c) i x.
Proof.
  intros Hf (x & Hx & Hk). unfold carrier. setoid_rewrite on_stream_lookup. rewrite Hx. case_bool_decide; cbn; [|eauto].
  exists (f x). by rewrite Hf.
Qed.
(** slots that were right before still are *)
Lemma slots_kept c st f car fin timers : LaneOk c → (∀ x, st_kind (f x) = st_kind x) →
  (car = None ∨ car = c_car c) → (fin = None ∨ fin = c_fin c) →
  (∀ i, timers !! i = None ↔ c_timers c !! i = None) → (∀ i, firing c i → timers !! i = Some Fired) →
  slots_ok (on_stream st f c) car fin timers.
Proof.
  intros Hok Hf Hc Hn Ht Hfi. constructor.
  - intros i Hi. destruct Hc as [->| ->]; [done|]. destruct (lo_car _ Hok i Hi) as [? ?].
    split; [by apply carrier_kept|by apply Ht].
  - intros i Hi. destruct Hn as [->| ->]; [done|]. destruct (lo_finishing _ Hok i Hi) as (? & ? & Hs).
    split_and!; [done|by apply carrier_kept|]. apply not_eq_None_Some. rewrite Ht. by apply not_eq_None_Some.
  - intros i Hi. apply not_eq_None_Some in Hi. rewrite Ht in Hi. apply not_eq_None_Some in Hi.
    destruct (lo_timers _ Hok i Hi) as [x Hx]. rewrite on_stream_lookup, Hx. case_bool_decide; eauto.
  - exact Hfi.
  - intros Hd. destruct (lo_done _ Hok Hd) as (E1 & E2 & _). destruct Hc as [->| ->], Hn as [->| ->]; auto.
Qed.
Lemma LaneOk_uncar c : LaneOk c → LaneOk (uncar c).
Proof.
  intros Hok. unfold uncar. destruct (c_car c) as [st|] eqn:E; [|done]. apply LaneOk_slots; [by apply LaneOk_cancel|].
  apply (slots_kept c st cancelled); auto.
Qed.
Lemma LaneOk_unfin c : LaneOk c → LaneOk (unfin c).
Proof.
  intros Hok. unfold unfin. destruct (c_fin c) as [st|] eqn:E; [|done]. apply LaneOk_slots; [by apply LaneOk_cancel|].
  apply (slots_kept c st cancelled); auto; [intros; by apply stop_none|intros; by apply firing_stop].
Qed.
Definition uncarriers (c : LCore) : LCore := unfin (uncar c).
Lemma LaneOk_uncarriers c : LaneOk c → LaneOk (uncarriers c).
Proof. intros. by apply LaneOk_unfin, LaneOk_uncar. Qed.
Lemma uncar_same c : c_next (uncar c) = c_next c ∧ c_writers (uncar c) = c_writers c ∧ c_kf (uncar c) = c_kf c ∧
  c_fin (uncar c) = c_fin c ∧ c_timers (uncar c) = c_timers c ∧ c_leg (uncar c) = c_leg c ∧ c_rel (uncar c) = c_rel c ∧
  c_done (uncar c) = c_done c ∧ c_car (uncar c) = None.
Proof. unfold uncar. by destruct (c_car c) eqn:E. Qed.
Lemma unfin_same c : c_next (unfin c) = c_next c ∧ c_writers (unfin c) = c_writers c ∧ c_kf (unfin c) = c_kf c ∧
  c_leg (unfin c) = c_leg c ∧ c_rel (unfin c) = c_rel c ∧ c_done (unfin c) = c_done c ∧ c_car (unfin c) = c_car c ∧
  c_fin (unfin c) = None.
Proof. unfold unfin. by destruct (c_fin c) eqn:E. Qed.
Lemma cancelled_twice x : cancelled (cancelled x) = cancelled x.
Proof. done. Qed.
Lemma uncar_streams c i x : c_streams c !! i = Some x →
  c_streams (uncar c) !! i = Some (if bool_decide (c_car c = Some i) then cancelled x else x).
Proof.
  intros Hx. unfold uncar. destruct (c_car c) as [st|] eqn:E; cbn [on_slots c_streams]; [|by rewrite bool_decide_eq_false_2].
  rewrite on_stream_lookup, Hx. repeat case_bool_decide; (done || congruence).
Qed.
Lemma unfin_streams c i x : c_streams c !! i = Some x →
  c_streams (unfin c) !! i = Some (if bool_decide (c_fin c = Some i) then cancelled x else x).
Proof.
  intros Hx. unfold unfin. destruct (c_fin c) as [st|] eqn:E; cbn [on_slots c_streams]; [|by rewrite bool_decide_eq_false_2].
  rewrite on_stream_lookup, Hx. repeat case_bool_decide; (done || congruence).
Qed.
Lemma uncarriers_streams c i x : c_streams c !! i = Some x →
  c_streams (uncarriers c) !! i = Some (if bool_decide (c_car c = Some i ∨ c_fin c = Some i) then cancelled x else x).
Proof.
  intros Hx. unfold uncarriers. rewrite (unfin_streams _ _ _ (uncar_streams _ _ _ Hx)).
  destruct (uncar_same c) as (_ & _ & _ & -> & _). f_equal.
  destruct (bool_decide_reflect (c_car c = Some i)), (bool_decide_reflect (c_fin c = Some i));
    case_bool_decide; try naive_solver; done.
Qed.
Lemma uncarriers_none c i : c_streams c !! i = None → c_streams (uncarriers c) !! i = None.
Proof.
  intros Hx. assert (H1 : c_streams (uncar c) !! i = None).
  { unfold uncar. destruct (c_car c); [|done]. cbn [on_slots c_streams]. rewrite on_stream_lookup, Hx. by case_bool_decide. }
  unfold uncarriers, unfin. destruct (c_fin _); [|done]. cbn [on_slots c_streams]. rewrite on_stream_lookup, H1.
  by case_bool_decide.
Qed.
Lemma uncarriers_timers c i : (c_timers (uncarriers c) !! i = None ↔ c_timers c !! i = None) ∧
  (firing c i → firing (uncarriers c) i).
Proof.
  unfold uncarriers, unfin, firing. destruct (uncar_same c) as (_ & _ & _ & _ & -> & _).
  destruct (c_fin _); cbn [on_slots c_timers]; [|by destruct (uncar_same c) as (_ & _ & _ & _ & -> & _)].
  split; [apply stop_none|apply firing_stop].
Qed.
Lemma promise_uncarriers k c : promise k c (uncarriers c).
Proof.
  destruct (uncar_same c) as (E1 & E2 & E3 & E4 & E5 & E6 & E7 & E8 & E9).
  destruct (unfin_same (uncar c)) as (F1 & F2 & F3 & F4 & F5 & F6 & F7 & F8).
  assert (Hcan : ∀ st x, c_car c = Some st ∨ c_fin c = Some st → c_streams (uncarriers c) !! st = Some x → st_state x = Cancelled).
  { intros st x Hor Hx. destruct (c_streams c !! st) as [y|] eqn:Hy; [|by rewrite uncarriers_none in Hx].
    rewrite (uncarriers_streams _ _ _ Hy), bool_decide_eq_true_2 in Hx by done. by injection Hx as <-. }
  constructor; fold (uncarriers c) in *; try congruence.
  - rewrite F1, E1. lia.
  - intros st x Hx. rewrite (uncarriers_streams _ _ _ Hx). eexists. split; [done|]. by case_bool_decide; auto.
  - intros st x Hx Hx'. by rewrite uncarriers_none in Hx'.
  - intros st Hs. left. by rewrite F2, E2.
  - right. right. split; [congruence|]. intros st x Hc. apply Hcan. by left.
  - right. right. split; [done|]. intros st x Hc Hx. left. apply (Hcan st); auto.
  - intros st. apply uncarriers_timers.
  - intros st. rewrite F3, E3. by left.
  - right. congruence.
  - right. intros st. apply uncarriers_timers.
Qed.
Lemma core_cancel_carriers l : lane_core (cancel_carriers l) = uncarriers (lane_core l).
Proof.
  unfold cancel_carriers, uncarriers, legCancelFinishingLocked.
  assert (E : ∀ l1, lane_core (match legFinishing (l_car l1) with
    | None => l1
    | Some st => set_l_car (λ c, set_legFinishing (λ _, None) (stop_leg_timer st c)) (cancel_stream st l1) end)
    = unfin (lane_core l1)).
  { intros l1. unfold unfin. cbn. by destruct (legFinishing (l_car l1)). }
  rewrite E. f_equal. unfold uncar. cbn. by destruct (carCurrent (l_car l)).
Qed.
Lemma draining_uncarriers c : draining [] None c → draining [] None (uncarriers c) ∧
  c_car (uncarriers c) = None ∧ c_fin (uncarriers c) = None.
Proof.
  intros (Hd & HD & HB). destruct (uncar_same c) as (E1 & E2 & E3 & E4 & E5 & E6 & E7 & E8 & E9).
  destruct (unfin_same (uncar c)) as (F1 & F2 & F3 & F4 & F5 & F6 & F7 & F8). fold (uncarriers c) in *.
  split; [|split; congruence]. split_and!; [congruence| |intros; congruence].
  intros st y [Hy Hk] Hl. rewrite F4, E6 in Hl. destruct (c_streams c !! st) as [x|] eqn:Hx; [|by rewrite uncarriers_none in Hy].
  rewrite (uncarriers_streams _ _ _ Hx) in Hy. injection Hy as <-.
  case_bool_decide as Hn; [by apply live_cancelled in Hl|].
  destruct (HD st x) as [?|[?|[?|Hf]]]; try tauto; [by split|]. right. right. right. by apply uncarriers_timers.
Qed.
