(* ===== verification/LaneDrain.v ===== *)
(** internal/hub: the drains keep the invariant: the carrier drain, the leg writer
    and the ends of their carriers. *)
From S2P Require Export LaneCar.
#[local] Open Scope Z_scope.

(** the core after an action, by name *)
Ltac core_as t := unfold Inv, G; match goal with |- LaneOk ?c ∧ _ => change c with t end.

Lemma hoare_pre {A} k A1 A2 (p : P A) (Q : A → LCore → Prop) :
  (∀ c, LaneOk c → A1 c → A2 c) → hoare k A2 p Q → hoare k A1 p Q.
Proof. intros H. by apply hoare_conseq. Qed.

Section Drain.
Context (seen : Z) (dead_ : bool) (leg rel : bool).
#[local] Notation k := (GoDrain seen dead_).

Definition mode (c : LCore) : Prop := c_leg c = leg ∧ c_rel c = rel.
(** [fresh]: a carrier whose prologue is not written is the only one current *)
Definition cur_ok (fresh : option nat) (c : LCore) : Prop :=
  match fresh with
  | None => True
  | Some st => held st false c ∧ (c_car c = None ∨ c_car c = Some st)
  end.
Definition between (locals : list nat) (fresh : option nat) (c : LCore) : Prop :=
  draining locals fresh c ∧ cur_ok fresh c ∧ mode c.
(** about to write to [st] *)
Definition at_carrier (fresh : option nat) (st : nat) (c : LCore) : Prop :=
  between [] fresh c ∧ held st (bool_decide (fresh = None)) c ∧ (fresh = None ∨ fresh = Some st).
Definition dead (st : nat) (c : LCore) : Prop := ∀ x, carrier c st x → ¬ live leg x.

Lemma stable_mode : stable k mode.
Proof. apply stable_and; [apply stable_leg|apply stable_rel]. Qed.
Lemma stable_cur_ok fresh : stable k (cur_ok fresh).
Proof.
  destruct fresh as [st|]; [|apply stable_true]. apply stable_and; [by apply stable_held|].
  intros k' c c' Hap _ _ Hg Hor. pose proof (drain_apart k k' eq_refl Hap) as Hd.
  destruct (pr_car _ _ _ Hg) as [?|[->|[? _]]]; tauto.
Qed.
Lemma stable_between locals fresh : stable k (between locals fresh).
Proof. apply stable_and; [by apply stable_draining|]. apply stable_and; [apply stable_cur_ok|apply stable_mode]. Qed.
Lemma stable_at fresh st : stable k (at_carrier fresh st).
Proof.
  apply stable_and; [apply stable_between|]. apply stable_and; [by apply stable_held|]. by intros k' c c' _ _ _ _ ?.
Qed.
Lemma stable_dead st : stable k (dead st).
Proof.
  intros k' c c' Hap Hok _ Hg Hd x' Hx'. pose proof (drain_apart k k' eq_refl Hap) as Hnd.
  destruct (carrier_back _ _ _ _ _ Hnd Hg Hx') as (x & Hx & [->| ->]); [by apply Hd|apply live_cancelled].
Qed.
#[local] Hint Resolve stable_mode stable_cur_ok stable_between stable_at stable_dead stable_and stable_true
  stable_held stable_no_car stable_no_fin stable_carrierless : core.
#[local] Hint Extern 1 (own _ = Some TDrain) => reflexivity : core.

Lemma between_none locals fresh c : between locals fresh c → (fresh = None ∨ c_car c = None) → between locals None c.
Proof.
  intros ((Hd & HD & HB) & _ & Hm) Hor. split_and!; [|done|done]. split_and!; [done..|].
  intros st x Hc Hx _. apply (HB st x Hc Hx). destruct Hor as [->|?]; congruence.
Qed.

(** reading the current carrier *)
Lemma at_current fresh c st : LaneOk c → between [] fresh c → c_car c = Some st → at_carrier fresh st c.
Proof.
  intros Hok Hb E. split; [done|]. destruct fresh as [f|].
  - destruct Hb as (_ & [Hh [?|E']] & _); [congruence|]. rewrite E in E'. injection E' as ->. split; [done|by right].
  - split; [|by left]. apply held_current; [done|apply Hb|done].
Qed.
Lemma hoare_current fresh : hoare k (between [] fresh) currentCarrier
  (λ cur c, match cur with Some st => at_carrier fresh st c | None => between [] fresh c ∧ c_car c = None end).
Proof.
  apply hoare_sect; [auto|]. intros a l Hi H. cbn [fst snd]. split_and!; [done|apply promise_refl|].
  destruct (carCurrent (l_car l)) as [st|] eqn:E; [|by split]. by apply at_current.
Qed.

(** a write to it *)
Lemma write_core fresh st f c : at_carrier fresh st c → LaneOk c →
  (∀ x, carrier c st x → st_kind (f x) = CarrierStream ∧ well_framed leg (f x) ∧ (live leg (f x) → live leg x) ∧
     (st_state (f x) = Open → st_torn (f x) = [])) →
  LaneOk (on_stream st f c) ∧ promise k c (on_stream st f c).
Proof.
  intros ((_ & _ & Hm & _) & [(x & [Hx Hk] & _) _] & _) Hok Hf. destruct (Hf x) as (E & Hw & Hl & Ht); [by split|].
  split.
  - apply LaneOk_stream; [done|]. intros y Hy. cbn in Hx, Hy. rewrite Hx in Hy. injection Hy as <-. rewrite <- Hm in *.
    by apply change_carrier.
  - apply promise_stream. intros y Hy. cbn in Hx, Hy. rewrite Hx in Hy. injection Hy as <-. split; [congruence|]. by right; right.
Qed.
Lemma at_same fresh st c f : at_carrier fresh st c → (∀ x, carrier c st x → st_kind (f x) = CarrierStream ∧
    st_whole (f x) = st_whole x ∧ (live leg (f x) → live leg x)) → at_carrier fresh st (on_stream st f c).
Proof.
  intros ((Hd & Hc & Hm) & Hh & Hor) Hf. pose proof Hh as [(y & [Hy Hky] & _) _].
  assert (Hf' : ∀ x, c_streams c !! st = Some x → st_kind (f x) = st_kind x ∧ st_whole (f x) = st_whole x ∧
    (live leg (f x) → live leg x)).
  { intros x Hx. cbn in Hy, Hx. rewrite Hx in Hy. injection Hy as ->. destruct (Hf y) as (?&?&?); [by split|].
    split_and!; [congruence|done..]. }
  split_and!; [| |done].
  - split_and!; [| |exact Hm].
    + apply draining_stream; [done|]. intros x Hx. destruct (Hf' x Hx) as (?&E&?). rewrite (proj1 Hm).
      split_and!; [done..|]. by rewrite E.
    + destruct fresh as [i|]; [|done]. destruct Hc as [Hh' ?]. split; [|done]. apply held_other; [done|].
      intros x _ Hx. destruct (Hf' x Hx) as (?&?&?). by split.
  - apply held_other; [done|]. intros x _ Hx. destruct (Hf' x Hx) as (?&?&?). by split.
Qed.
Lemma at_wrote fresh st buf c : at_carrier fresh st c → between [] None (on_stream st (wrote_buf buf) c).
Proof.
  intros ((Hd & Hc & Hm) & Hh & Hor). split_and!; [|done|exact Hm].
  assert (Hd' : draining [] fresh (on_stream st (wrote_buf buf) c)).
  { apply draining_stream; [done|]. intros x Hx. split_and!; [done..|]. cbn. intros _ E. by apply app_eq_nil in E as [_ ?]. }
  destruct Hd' as (H1 & H2 & HB). split_and!; [done..|]. intros i x Hi Hx _. destruct (decide (i = st)) as [->|Hne].
  - destruct Hx as [Hx _]. rewrite on_stream_lookup, bool_decide_eq_true_2 in Hx by done.
    apply fmap_Some in Hx as (y & _ & ->). cbn. intros E. by apply app_eq_nil in E as [_ ?].
  - apply (HB i x Hi Hx). destruct Hor as [->| ->]; congruence.
Qed.

Lemma hoare_write fresh st buf : fits leg (bool_decide (fresh = None)) buf →
  hoare k (at_carrier fresh st) (sect (write_stream st buf))
    (λ w c, if snd w then between [] None c else at_carrier fresh st c).
Proof.
  intros Hfit. apply hoare_sect; [auto|]. intros a l Hi H. pose proof H as (_ & [(x & [Hx Hk] & Hb) _] & _).
  assert (Hst : state_of l st = Some (st_state x)) by (unfold state_of; cbn in Hx; by rewrite Hx).
  pose proof (lo_framed _ Hi st x (conj Hx Hk)) as Hw. pose proof (lo_torn _ Hi st x (conj Hx Hk)) as Ht.
  assert (Hleg : c_leg (lane_core l) = leg) by apply H. rewrite Hleg in Hw.
  assert (Hone : ∀ y, carrier (lane_core l) st y → y = x) by (intros y [Hy _]; congruence).
  assert (Hbeg : bool_decide (fresh = None) = negb (bool_decide (st_whole x = []))).
  { cbn in Hb. by rewrite Hb, negb_involutive. }
  unfold write_stream. destruct (bool_decide_reflect (state_of l st = Some Open)) as [E|E];
    [|split; [exact Hi|split; [apply promise_refl|exact H]]].
  assert (Ho : st_state x = Open) by congruence. specialize (Ht Ho). rewrite Hbeg in Hfit.
  destruct (ok a); cbn [fst snd].
  - destruct (write_core fresh st (wrote_buf buf) _ H Hi) as [? ?].
    { intros y ->%Hone. split_and!; [done|by apply well_framed_wrote|done|done]. }
    split_and!; [done..|]. by apply (at_wrote fresh st buf (lane_core l)).
  - destruct (write_core fresh st (tore_buf (take (wrote a) buf)) _ H Hi) as [? ?].
    { intros y ->%Hone. split_and!; [done|by apply well_framed_tore| |done].
      unfold live. rewrite Ho. destruct leg; [done|auto]. }
    split_and!; [done..|]. apply (at_same fresh st (lane_core l) (tore_buf (take (wrote a) buf)) H).
    intros y ->%Hone. split_and!; [done..|]. unfold live. rewrite Ho. destruct leg; [done|auto].
Qed.

(** resetting it *)
Lemma hoare_cancel_at fresh st : hoare k (at_carrier fresh st) (CancelWrite st) (λ _ c, at_carrier fresh st c ∧ dead st c).
Proof.
  apply hoare_cancel; [auto|]. intros c Hok H _. split.
  - apply at_same; [done|]. intros x [_ Hk]. split_and!; [done..|]. intros Hl. by apply live_cancelled in Hl.
  - intros x [Hx _]. rewrite on_stream_lookup, bool_decide_eq_true_2 in Hx by done.
    apply fmap_Some in Hx as (y & _ & ->). apply live_cancelled.
Qed.
Definition loose (st : nat) (c : LCore) : Prop := draining [st] None c ∧ mode c.
Lemma loose_dead st c : loose st c → dead st c → between [] None c.
Proof.
  intros [(Hd & HD & HB) Hm] Hdead. split_and!; [|done|exact Hm]. split_and!; [done| |done].
  intros i x Hx Hl. destruct (HD i x Hx Hl) as [Hin|?]; [|auto]. apply list_elem_of_singleton in Hin as ->.
  destruct Hm as [E _]. rewrite E in Hl. by destruct (Hdead x Hx).
Qed.
Lemma hoare_cancel_loose st A : (∀ c f, A c → A (on_stream st f c)) → stable k A →
  hoare k (λ c, loose st c ∧ A c) (CancelWrite st) (λ _ c, between [] None c ∧ A c).
Proof.
  intros HA HsA. apply hoare_cancel.
  - apply stable_and; [|done]. apply stable_and; auto. by apply stable_draining.
  - intros c Hok [[H Hm] Ha] _. split; [|auto]. split_and!; [by apply draining_cancel|done|exact Hm].
Qed.
Lemma hoare_cancel_loose' st : hoare k (loose st) (CancelWrite st) (λ _, between [] None).
Proof.
  eapply hoare_conseq; [| |apply (hoare_cancel_loose st (λ _, True)); auto]; cbn; [tauto|]. intros _ c _ [? _]. done.
Qed.

(** the drain lets go of it *)
Definition dropped_car (st : nat) (c : LCore) : LCore :=
  if bool_decide (c_car c = Some st) then on_slots None (c_fin c) (c_timers c) c else c.
Lemma core_drop st l : lane_core (drop_carrier st l) = dropped_car st (lane_core l).
Proof. unfold drop_carrier, dropped_car. cbn. by case_bool_decide. Qed.
Lemma LaneOk_on_slots c car : LaneOk c → car = None ∨ car = c_car c → LaneOk (on_slots car (c_fin c) (c_timers c) c).
Proof.
  intros Hok Hor. apply LaneOk_slots; [done|]. constructor.
  - intros i Hi. apply (lo_car _ Hok). destruct Hor; congruence.
  - apply (lo_finishing _ Hok).
  - apply (lo_timers _ Hok).
  - done.
  - intros Hd. destruct (lo_done _ Hok Hd) as (? & ? & _). split; [|done]. destruct Hor; congruence.
Qed.
Lemma dropped_ok st c : LaneOk c → LaneOk (dropped_car st c) ∧ promise k c (dropped_car st c).
Proof.
  intros Hok. unfold dropped_car. case_bool_decide; [|split; [done|apply promise_refl]]. split.
  - apply LaneOk_on_slots; auto.
  - by apply promise_slots_drain.
Qed.
Lemma dropped_at fresh st c : at_carrier fresh st c → loose st (dropped_car st c).
Proof.
  intros (((Hd & HD & HB) & Hc & Hm) & _ & Hor). unfold dropped_car. case_bool_decide as E.
  - split; [|by destruct Hm]. split_and!; [done| |done]. intros i x Hx Hl. destruct (HD i x Hx Hl) as [Hn|[Hi|?]]; auto.
    + by apply elem_of_nil in Hn.
    + left. rewrite E in Hi. injection Hi as ->. by apply list_elem_of_singleton.
  - split; [|done]. split_and!; [done| |].
    + intros i x Hx Hl. destruct (HD i x Hx Hl) as [Hn|?]; [by apply elem_of_nil in Hn|auto].
    + intros i x Hi Hx _. apply (HB i x Hi Hx). destruct Hor as [->| ->]; [done|]. destruct Hc as [_ [?|?]]; congruence.
Qed.
(** what a failed write leaves of a carrier whose prologue it was to write *)
Lemma dropped_cur fresh st c : at_carrier fresh st c → cur_ok fresh (dropped_car st c).
Proof.
  intros ((_ & Hc & _) & _ & Hor). destruct fresh as [f|]; [|done]. destruct Hor as [?|[= ->]]; [done|].
  destruct Hc as [Hh Hc]. unfold dropped_car. case_bool_decide; [|by split]. split; [exact Hh|by left].
Qed.
Lemma stable_loose st : stable k (loose st).
Proof. apply stable_and; [by apply stable_draining|auto]. Qed.
#[local] Hint Resolve stable_loose : core.

(** ** The viewer's carrier *)

Lemma hoare_writeCarrier fresh buf : fits leg (bool_decide (fresh = None)) buf →
  hoare k (between [] fresh) (writeCarrier buf) (λ w c, between [] None c ∨ w = false ∧ between [] fresh c ∧ c_car c = None).
Proof.
  intros Hfit. eapply hoare_bind; [apply hoare_current|]. intros [st|]; cbn beta iota.
  2: { apply hoare_ret. intros c _ [? ?]. by right. }
  eapply hoare_bind; [by apply hoare_write|]. intros [n []]; cbn [snd].
  { apply hoare_ret. by left. }
  eapply hoare_bind; [apply hoare_cancel_at|]. intros [].
  apply (hoare_bind _ _ _ _ (λ _, between [] None)); [|intros _; apply hoare_ret; by left].
  apply hoare_sect; [auto|]. intros a l Hi [H Hdead]. cbn [fst snd]. unfold Inv, G. rewrite core_drop.
  destruct (dropped_ok st _ Hi) as [? ?]. split_and!; [done..|]. apply (loose_dead st).
  - by apply (dropped_at fresh).
  - intros x Hx. apply Hdead. unfold dropped_car in Hx. by case_bool_decide.
Qed.

(** what the drain holds of a stream it has just opened *)
Definition just_opened (st : nat) (c : LCore) : Prop := loose st c ∧ held st false c ∧ c_car c = None.
Lemma stable_opened st : stable k (just_opened st).
Proof. apply stable_and; [auto|]. apply stable_and; auto. Qed.
#[local] Hint Resolve stable_opened : core.

Lemma hoare_open_stream : hoare k (λ c, between [] None c ∧ c_car c = None) (sect (open_stream CarrierStream))
  (λ r c, match r with Some st => just_opened st c | None => between [] None c end).
Proof.
  apply hoare_sect; [auto|]. intros a l Hi [H Hcar]. unfold open_stream.
  destruct (ok a); cbn [fst snd]; [|split_and!; [done|apply promise_refl|done]].
  core_as (add_stream CarrierStream (lane_core l)).
  split; [|split].
  - apply LaneOk_carrier; [done|apply H|done].
  - by apply promise_added.
  - destruct H as ((Hd & HD & HB) & _ & Hm). set (c := lane_core l) in *.
    assert (Hn : c_streams c !! c_next c = None) by by apply fresh_none.
    split; [split; [split_and!|exact Hm]|split; [split|exact Hcar]].
    + done.
    + intros i x [Hx Hk] Hl. destruct (added_lookup CarrierStream c i x Hi Hx) as [[-> ->]|[_ Hi']].
      * left. by apply list_elem_of_singleton.
      * right. destruct (HD i x) as [He|?]; [by split|done|by apply elem_of_nil in He|done].
    + intros i x Hc. cbn in Hc. change (c_car c = Some i) in Hc. congruence.
    + exists (MkStream CarrierStream [] [] false Open). split; [|done]. split; [apply lookup_insert_eq|done].
    + cbn [add_stream c_timers]. change (l_next l) with (c_next c). destruct (c_timers c !! c_next c) eqn:Et; [|done].
      destruct (lo_timers _ Hi (c_next c)) as [y Hy]; [by eexists|]. change (c_streams c !! c_next c = Some y) in Hy. congruence.
Qed.

Lemma hoare_install st : (leg || rel = true) → hoare k (just_opened st) (install_carrier st)
  (λ got c, if got then between [] (Some st) c else loose st c).
Proof.
  intros _. apply hoare_sect; [auto|]. intros a l Hi (Hl & Hh & Hcar).
  destruct (s_closed (l_s l)); cbn [fst snd]; [split_and!; [done|apply promise_refl|done]|].
  core_as (on_slots (Some st) (c_fin (lane_core l)) (c_timers (lane_core l)) (lane_core l)).
  destruct Hl as [(Hd & HD & HB) Hm]. destruct Hh as [(x & Hx & Hb) Ht]. set (c := lane_core l) in *. split; [|split].
  - apply LaneOk_slots; [done|]. constructor.
    + intros i [= <-]. split; [by exists x|done].
    + apply (lo_finishing _ Hi).
    + apply (lo_timers _ Hi).
    + done.
    + congruence.
  - by apply promise_slots_drain.
  - split; [split_and!|split; [split; [split; [by exists x|done]|by right]|exact Hm]].
    + done.
    + intros i y Hy Hl. destruct (HD i y Hy Hl) as [Hin|[?|?]]; [|congruence|by right; right].
      apply list_elem_of_singleton in Hin as ->. right. by left.
    + intros i y Hi' _ Hne. cbn in Hi'. congruence.
Qed.

Lemma hoare_openCarrier : (leg || rel = true) →
  hoare k (λ c, between [] None c ∧ c_car c = None) openCarrier (λ _, between [] None).
Proof.
  intros Hm. eapply hoare_bind; [apply hoare_open_stream|]. intros [st|]; cbn beta iota.
  2: { apply hoare_skip; [auto|auto with lanekeeps|]. intros _. by apply hoare_ret. }
  apply hoare_skip; [auto|auto with lanekeeps|]. intros _.
  eapply hoare_bind; [by apply hoare_install|]. intros []; cbn [negb].
  2: { eapply hoare_bind; [apply hoare_cancel_loose'|]. intros []. by apply hoare_ret. }
  apply hoare_skip; [auto|auto with lanekeeps|]. intros _.
  apply (hoare_bind _ _ _ _ (λ _, between [] None)).
  - eapply hoare_conseq; [done| |apply (hoare_writeCarrier (Some st))]; [|done].
    intros w c _ [?|(_ & ? & ?)]; [done|]. eapply between_none; eauto.
  - intros []; cbn [negb]; [|by apply hoare_ret]. apply hoare_skip; [auto|auto with lanekeeps|].
    intros _. by apply hoare_ret.
Qed.

(** taken from its slot, to be finished *)
Definition taken (st : nat) (c : LCore) : Prop := loose st c ∧ held st true c ∧ c_car c = None.
Lemma stable_taken st : stable k (taken st).
Proof. apply stable_and; [auto|]. apply stable_and; auto. Qed.
#[local] Hint Resolve stable_taken : core.

Lemma taken_core c st : LaneOk c → between [] None c → c_car c = Some st → taken st (on_slots None (c_fin c) (c_timers c) c).
Proof.
  intros Hok (Hdr & _ & Hm) E. pose proof (held_current c st Hok Hdr E) as Hh. destruct Hdr as (Hd & HD & HB).
  split; [split; [split_and!|exact Hm]|split; [exact Hh|done]].
  - done.
  - intros i x Hx Hl. destruct (HD i x Hx Hl) as [Hn|[Hi|?]]; [by apply elem_of_nil in Hn| |auto].
    left. rewrite E in Hi. injection Hi as ->. by apply list_elem_of_singleton.
  - done.
Qed.
Lemma hoare_take : hoare k (between [] None) take_carrier
  (λ cur c, match cur with Some st => taken st c | None => between [] None c ∧ c_car c = None end).
Proof.
  apply hoare_sect; [auto|]. intros a l Hi H. cbn [fst snd].
  core_as (on_slots None (c_fin (lane_core l)) (c_timers (lane_core l)) (lane_core l)).
  split; [apply LaneOk_on_slots; auto|]. split; [by apply promise_slots_drain|].
  destruct (carCurrent (l_car l)) as [st|] eqn:E; [by apply taken_core|].
  split; [|done]. destruct H as ((Hd & HD & HB) & ? & ?). split_and!; [split_and!|done..]; [done| |done].
  intros i x Hx Hl. destruct (HD i x Hx Hl) as [Hn|[Hi'|?]]; [by apply elem_of_nil in Hn| |auto].
  cbn in Hi'. congruence.
Qed.

(** [R]: what closing a stream leaves alone *)
Lemma hoare_finish st (R : LCore → Prop) : stable k R → (∀ c f, R c → R (on_stream st f c)) →
  hoare k (λ c, taken st c ∧ R c) (finish_stream st)
    (λ fin c, R c ∧ c_car c = None ∧ if fin : bool then taken st c ∧ (leg = false → dead st c) else between [] None c).
Proof.
  intros Hs HR. apply (hoare_bind _ _ _ _ (λ (fin : bool) c, R c ∧ taken st c ∧ (leg = false → fin = true → dead st c))).
  - apply hoare_sect; [auto|]. intros a l Hi [H Hr]. pose proof H as ([Hd Hm] & [(x & [Hx Hk] & Hb) Ht] & Hcar).
    unfold close_stream.
    destruct (bool_decide_reflect (state_of l st = Some Open)) as [E|E];
      [|split; [exact Hi|split; [apply promise_refl|by split_and!]]].
    cbn [fst snd]. set (f := λ x, set_st_fin (λ _, ok a) (set_st_state (λ _, if ok a then Finished else Failed) x)).
    assert (Ho : st_state x = Open).
    { unfold state_of in E. cbn in Hx. rewrite Hx in E. by injection E. }
    assert (Hlive : live leg (f x) → live leg x) by (intros _; unfold live; rewrite Ho; destruct leg; [done|by left]).
    assert (Hno : st_state (f x) ≠ Open) by (cbn; by destruct (ok a)).
    core_as (on_stream st f (lane_core l)).
    assert (Hone : ∀ y, c_streams (lane_core l) !! st = Some y → y = x) by congruence.
    split; [|split; [|split; [by apply HR|split; [split; [split|split]|]]]].
    + apply LaneOk_stream; [done|]. intros y ->%Hone. apply change_carrier; [done|done| | |done].
      * apply (lo_framed _ Hi st x). by split.
      * by rewrite (proj1 Hm).
    + apply promise_stream. intros y ->%Hone. split; [done|]. by right; right.
    + apply draining_stream; [done|]. intros y ->%Hone. by rewrite (proj1 Hm).
    + exact Hm.
    + apply held_other; [by split; [exists x|]|]. by intros y _ ->%Hone.
    + exact Hcar.
    + intros El Ef y [Hy _]. rewrite on_stream_lookup, bool_decide_eq_true_2, Hx in Hy by done. injection Hy as <-.
      unfold live. rewrite El. cbn. rewrite Ef. by intros [?|?].
  - intros []; cbn beta iota.
    + apply hoare_ret. intros c _ (? & Ht & Hdead). split; [done|]. split; [apply Ht|]. auto.
    + apply (hoare_bind _ _ _ _ (λ _ c, between [] None c ∧ (c_car c = None ∧ R c))).
      * eapply hoare_conseq; [| |apply (hoare_cancel_loose st (λ c, c_car c = None ∧ R c))].
        -- cbn beta. intros c _ (? & (? & _ & ?) & _). by split_and!.
        -- done.
        -- intros c f [? ?]. split; [done|by apply HR].
        -- auto.
      * intros _. apply hoare_ret. intros c _ (? & ? & ?). by split_and!.
Qed.

Lemma hoare_retireCarrier : leg = false → hoare k (between [] None) retireCarrier (λ _ c, between [] None c ∧ c_car c = None).
Proof.
  intros Hleg. eapply hoare_bind; [apply hoare_take|]. intros [st|]; cbn beta iota; [|by apply hoare_ret].
  eapply hoare_bind.
  - apply (hoare_pre _ _ (λ c, taken st c ∧ True)); [by split|]. by apply (hoare_finish st (λ _, True)).
  - intros []; cbn beta iota; apply hoare_ret; intros c _ (_ & Hc & H); [|by split].
    destruct H as [[Hl _] Hd]. split; [|done]. by apply (loose_dead st); [|apply Hd].
Qed.

(** a viewer's datagram *)
(** paying for what goes on the carrier just read *)
Lemma hoare_paid cur n :
  hoare k (λ c, match cur with Some st => at_carrier None st c | None => between [] None c ∧ c_car c = None end)
    (consumeBandwidth n) (λ _ c, between [] None c ∧ (cur = None → c_car c = None)).
Proof.
  apply (hoare_pre _ _ (λ c, between [] None c ∧ (cur = None → c_car c = None))).
  - intros c _. destruct cur; [intros (? & _)|intros [? ?]]; by split.
  - apply (keep_consume n k (λ c, between [] None c ∧ (cur = None → c_car c = None))).
    apply stable_and; [auto|]. intros k' c c' A O O' Hg E En.
    by apply (stable_no_car k eq_refl k' c c' A O O' Hg), E.
Qed.
Lemma hoare_reliable dgram s d : leg = false → rel = true →
  hoare k (between [] None) (reliable_datagram dgram s d) (λ _, between [] None).
Proof.
  intros Hleg Hrel. assert (Hor : leg || rel = true) by (by rewrite Hrel, orb_true_r).
  unfold reliable_datagram. destruct (isAudioDatagram dgram).
  { apply hoare_skip; [auto|auto with lanekeeps|]. intros []. by apply hoare_ret. }
  apply hoare_skip; [auto|auto with lanekeeps|]. intros rot.
  apply (hoare_bind _ _ _ _ (λ _, between [] None)).
  { destruct (rot <>? s); [|by apply hoare_ret]. eapply hoare_bind; [by apply hoare_retireCarrier|]. intros [].
    apply hoare_ret. tauto. }
  intros [s' d'].
  apply (hoare_bind _ _ _ _ (λ _, between [] None)).
  { destruct d'; [by apply hoare_ret|]. by apply keep_closed. }
  intros [].
  { apply hoare_skip; [auto|auto with lanekeeps|]. intros []. by apply hoare_ret. }
  destruct (Carrier.AppendCarrierRecord [] dgram) as [framed| |] eqn:Ef.
  2-3: (apply hoare_skip; [auto|auto with lanekeeps|]; intros []; by apply hoare_ret).
  eapply hoare_bind; [apply hoare_current|]. intros cur.
  eapply hoare_bind; [apply hoare_paid|].
  intros paid. destruct (negb paid).
  { apply (hoare_pre _ _ (between [] None)); [by intros c _ [? _]|]. apply hoare_skip; [auto|auto with lanekeeps|].
    intros []. by apply hoare_ret. }
  apply (hoare_bind _ _ _ _ (λ _, between [] None)).
  { destruct cur as [i|]; cbn.
    - apply hoare_ret. by intros c _ [? _].
    - eapply hoare_pre; [|by apply hoare_openCarrier]. intros c _ [? E]. split; [done|by apply E]. }
  intros opened_. apply (hoare_bind _ _ _ _ (λ _, between [] None)).
  { destruct opened_; [|by apply hoare_ret]. eapply hoare_conseq; [done| |apply (hoare_writeCarrier None)].
    - intros w c _ [?|(_ & ? & _)]; done.
    - exists dgram. split; [|done]. rewrite Hleg. done. }
  intros w. destruct (negb w).
  - apply hoare_skip; [auto|auto with lanekeeps|]. intros []. by apply hoare_ret.
  - apply hoare_skip; [auto|auto with lanekeeps|]. intros []. by apply hoare_ret.
Qed.

(** ** The leg writer *)

Lemma hoare_leg_begin fresh s : hoare k (between [] fresh) (leg_begin s)
  (λ r c, match r with inl res => res ≠ legOK ∧ between [] fresh c | inr st => at_carrier fresh st c end).
Proof.
  apply hoare_sect; [auto|]. intros a l Hi H. cbn [fst snd].
  destruct (carCurrent (l_car l)) as [st|] eqn:E; [destruct (rotations l <>? s)|]; cbn [fst snd].
  - split_and!; [done|apply promise_refl|done|done].
  - core_as (lane_core l). split; [done|]. split; [apply promise_refl|]. by apply at_current.
  - split_and!; [done|apply promise_refl|done|done].
Qed.
Definition leg_failed (fresh : option nat) (st : nat) (c : LCore) : Prop := loose st c ∧ cur_ok fresh c.
Lemma hoare_leg_end fresh st (w : bool) s : hoare k (λ c, if w then between [] None c else at_carrier fresh st c) (leg_end st w s)
  (λ _ c, if w then between [] None c else leg_failed fresh st c).
Proof.
  apply hoare_sect; [destruct w; auto|]. intros a l Hi H. cbn [fst snd]. destruct w.
  - core_as (lane_core l). split; [done|]. split; [apply promise_refl|done].
  - unfold Inv, G. rewrite core_drop.
    change (lane_core (set_l_car (set_legWriting (λ _, false)) l)) with (lane_core l).
    destruct (dropped_ok st _ Hi) as [? ?]. split; [done|]. split; [done|].
    split; [by apply (dropped_at fresh)|by apply dropped_cur].
Qed.
Lemma hoare_legWrite fresh buf s : fits leg (bool_decide (fresh = None)) buf →
  hoare k (between [] fresh) (legWrite buf s)
    (λ r c, if bool_decide (r = legOK) then between [] None c else between [] fresh c).
Proof.
  intros Hfit. eapply hoare_bind; [apply hoare_leg_begin|]. intros [res|st]; cbn beta iota.
  { apply hoare_ret. intros c _ [Hne H]. by rewrite bool_decide_eq_false_2. }
  eapply hoare_bind; [by apply hoare_write|]. intros [n w]. cbn [fst snd].
  eapply hoare_bind; [apply hoare_leg_end|]. intros ab. cbn beta. destruct w; [by apply hoare_ret|].
  apply (hoare_bind _ _ _ _ (λ _, between [] fresh)).
  - apply hoare_cancel; [apply stable_and; auto|]. intros c Hok [[Hd Hm] Hc] _. split; [|split; [|exact Hm]].
    + apply draining_cancel in Hd. destruct Hd as (? & ? & HB). split_and!; [done..|]. intros i x Hi Hx _. by apply (HB i x).
    + destruct fresh as [f|]; [|done]. destruct Hc as [Hh ?]. split; [|done]. by apply held_other.
  - intros []. destruct ab; by apply hoare_ret.
Qed.

Lemma hoare_legOpen s : (leg || rel = true) →
  hoare k (λ c, between [] None c ∧ c_car c = None) (legOpenCarrier s) (λ _, between [] None).
Proof.
  intros Hm. eapply hoare_bind; [apply hoare_open_stream|]. intros [st|]; cbn beta iota.
  2: { apply hoare_skip; [auto|auto with lanekeeps|]. intros []. by apply hoare_ret. }
  apply hoare_skip; [auto|auto with lanekeeps|]. intros [].
  eapply hoare_bind; [by apply hoare_install|]. intros []; cbn [negb].
  2: { eapply hoare_bind; [apply hoare_cancel_loose'|]. intros []. by apply hoare_ret. }
  apply hoare_skip; [auto|auto with lanekeeps|]. intros [].
  eapply hoare_bind; [by apply (hoare_legWrite (Some st))|]. intros res. cbn beta.
  case_bool_decide; cbn [negb].
  { apply hoare_skip; [auto|auto with lanekeeps|]. intros []. by apply hoare_ret. }
  apply (hoare_bind _ _ _ _ (λ _, loose st)).
  - apply hoare_sect; [auto|]. intros a l Hi (Hd & Hc & Hmo). cbn [fst snd]. unfold Inv, G. rewrite core_drop.
    destruct (dropped_ok st _ Hi) as [? ?]. split; [done|]. split; [done|].
    apply (dropped_at (Some st)). split; [by split|]. split; [apply Hc|by right].
  - intros []. eapply hoare_bind; [apply hoare_cancel_loose'|]. intros []. by apply hoare_ret.
Qed.

(** a leg's carrier, retired: it finishes until its timer fires *)
Definition retiring (prev : option nat) (old : nat) (c : LCore) : Prop :=
  draining (option_list prev ++ [old]) None c ∧ mode c ∧ held old true c ∧ c_car c = None ∧ c_fin c = None.
Lemma stable_retiring prev old : stable k (retiring prev old).
Proof. apply stable_and; [by apply stable_draining|]. apply stable_and; [auto|]. apply stable_and; [auto|]. apply stable_and; auto. Qed.
#[local] Hint Resolve stable_retiring : core.
Definition no_carrier (c : LCore) : Prop := between [] None c ∧ c_car c = None.

Lemma hoare_leg_take : hoare k (between [] None) leg_take
  (λ r c, match r with (Some old, prev) => retiring prev old c | (None, None) => no_carrier c | _ => False end).
Proof.
  apply hoare_sect; [auto|]. intros a l Hi H. pose proof H as ((Hd & HD & HB) & _ & Hm). cbn zeta.
  destruct (carCurrent (l_car l)) as [old|] eqn:Ec.
  - pose proof (held_current (lane_core l) old Hi (proj1 H) Ec) as Hh.
    assert (Hgo : ∀ fin, fin = None ∨ fin = c_fin (lane_core l) → LaneOk (on_slots None fin (c_timers (lane_core l)) (lane_core l)) ∧
      promise k (lane_core l) (on_slots None fin (c_timers (lane_core l)) (lane_core l))).
    { intros fin Hf. split; [|by apply promise_slots_drain]. apply LaneOk_slots; [done|].
      constructor; [done| |apply (lo_timers _ Hi)|done|congruence].
      intros i E. apply (lo_finishing _ Hi). destruct Hf; congruence. }
    destruct (legFinishing (l_car l)) as [prev|] eqn:Ef; cbn [fst snd].
    + core_as (on_slots None None (c_timers (lane_core l)) (lane_core l)).
      destruct (Hgo None) as [? ?]; [by left|]. split; [done|]. split; [done|].
      split_and!; [split_and!|done..|exact Hh|done|done]; [done| |done].
      intros i x Hx Hl. destruct (HD i x Hx Hl) as [Hn|[E|[E|?]]]; [by apply elem_of_nil in Hn|..|auto]; left.
      * cbn in E. rewrite Ec in E. injection E as ->. cbn. right. left.
      * cbn in E. rewrite Ef in E. injection E as ->. left.
    + core_as (on_slots None (c_fin (lane_core l)) (c_timers (lane_core l)) (lane_core l)).
      destruct (Hgo (c_fin (lane_core l))) as [? ?]; [by right|]. split; [done|]. split; [done|].
      split_and!; [split_and!|done..|exact Hh|done|done]; [done| |done].
      intros i x Hx Hl. destruct (HD i x Hx Hl) as [Hn|[E|?]]; [by apply elem_of_nil in Hn|..|auto]. left.
      cbn in E. rewrite Ec in E. injection E as ->. left.
  - cbn [fst snd]. core_as (on_slots None (c_fin (lane_core l)) (c_timers (lane_core l)) (lane_core l)).
    split; [apply LaneOk_on_slots; auto|]. split; [by apply promise_slots_drain|].
    split; [|done]. split_and!; [split_and!|done..]; [done| |done].
    intros i x Hx Hl. destruct (HD i x Hx Hl) as [Hn|[E|?]]; [by apply elem_of_nil in Hn| |auto]. cbn in E. congruence.
Qed.

Lemma hoare_leg_reset prev old : hoare k (retiring (Some prev) old)
  (_ ← pmodify (set_l_car (stop_leg_timer prev)); CancelWrite prev) (λ _, retiring None old).
Proof.
  apply (hoare_bind _ _ _ _ (λ _, retiring (Some prev) old)).
  - apply hoare_sect; [auto|]. intros a l Hi (Hdr & Hm & [Hh Ht] & Hc & Hf). cbn [fst snd].
    core_as (on_slots (c_car (lane_core l)) (c_fin (lane_core l)) (alter stop_timer prev (c_timers (lane_core l))) (lane_core l)).
    set (c := lane_core l) in *. split; [|split].
    + apply LaneOk_slots; [done|]. constructor.
      * congruence.
      * congruence.
      * intros i. rewrite stop_some. apply (lo_timers _ Hi).
      * intros i. apply firing_stop.
      * by intros _.
    + apply promise_slots_drain; [done|]. intros i. apply firing_stop.
    + destruct Hdr as (Hd & HD & HB). split_and!; [split_and!|exact Hm|split; [exact Hh|]|exact Hc|exact Hf].
      * done.
      * intros i x Hx Hl. destruct (HD i x Hx Hl) as [?|[?|[?|?]]]; auto. right. right. right. by apply firing_stop.
      * done.
      * cbn [on_slots c_timers]. by apply stop_none.
  - intros []. apply hoare_cancel; [auto|]. intros c Hok (Hdr & Hm & Hh & Hc & Hf) _.
    split_and!; [by apply draining_cancel|done|by apply held_other|done|done].
Qed.

Lemma hoare_leg_finishing old : leg = true → hoare k (λ c, taken old c ∧ c_fin c = None) (leg_finishing old) (λ _, between [] None).
Proof.
  intros Hleg. unfold leg_finishing. apply (hoare_bind _ _ _ _ (λ _, between [] None)); [|intros b; by apply hoare_ret].
  apply hoare_act; [apply stable_and; auto|]. intros a l b l' Hi (([Hdr Hm] & [Hh Ht] & Hc) & Hf). pose proof Hdr as (Hd & HD & HB).
  set (c := lane_core l) in *. destruct (s_closed (l_s l)); intros [= <- <-].
  - core_as (on_stream old cancelled c). split; [by apply LaneOk_cancel|]. split; [apply promise_cancelled|].
    split; [by split; constructor|]. split_and!; [by apply draining_cancel|done|exact Hm].
  - core_as (on_slots (c_car c) (Some old) (<[old := Armed]> (c_timers c)) c).
    assert (Hfi : ∀ i, firing c i → <[old := Armed]> (c_timers c) !! i = Some Fired).
    { intros i E. rewrite lookup_insert_ne; [done|]. unfold firing in E. congruence. }
    split; [|split; [|split]].
    + apply LaneOk_slots; [done|]. constructor; [congruence| | |exact Hfi|congruence].
      * intros i [= <-]. split; [by rewrite (proj1 Hm)|]. destruct Hh as (x & Hx & _). split; [by exists x|].
        rewrite lookup_insert_eq. by eexists.
      * intros i Hs. destruct (decide (i = old)) as [->|Hne].
        -- destruct Hh as (x & [Hx _] & _). by exists x.
        -- rewrite lookup_insert_ne in Hs by done. by apply (lo_timers _ Hi).
    + by apply promise_slots_drain.
    + split; [constructor|]. by repeat constructor.
    + split_and!; [split_and!|done|exact Hm].
      * done.
      * intros i x Hx Hl. destruct (HD i x Hx Hl) as [Hin|[?|[?|?]]]; [|by right; left|cbn in *; congruence|].
        -- apply list_elem_of_singleton in Hin as ->. right. right. by left.
        -- right. right. right. by apply Hfi.
      * done.
Qed.

Lemma hoare_legRetire : leg = true → hoare k (between [] None) legRetire (λ _, between [] None).
Proof.
  intros Hleg. eapply hoare_bind; [apply hoare_leg_take|]. intros [[old|] prev]; cbn [fst snd].
  2: { destruct prev; [by intros l _ []|]. apply (hoare_bind _ _ _ _ (λ _, no_carrier)); [by apply hoare_ret|]. intros [].
       apply hoare_ret. by intros c _ [? _]. }
  apply (hoare_bind _ _ _ _ (λ _, retiring None old)).
  { destruct prev as [prev|]; [apply hoare_leg_reset|by apply hoare_ret]. }
  intros []. eapply hoare_bind.
  - apply (hoare_pre _ _ (λ c, taken old c ∧ c_fin c = None)); [intros c _ (? & ? & ? & ? & ?); by split_and!|].
    apply (hoare_finish old (λ c, c_fin c = None)); [auto|done].
  - intros fin. cbn beta. destruct fin; cbn [negb].
    + eapply hoare_pre; [|by apply hoare_leg_finishing]. intros c _ (? & _ & ? & _). by split.
    + apply hoare_ret. tauto.
Qed.

Lemma hoare_leg_pass n dgram frameID s d : leg = true → record_ok leg dgram →
  hoare k (between [] None) (leg_passes n dgram frameID s d) (λ _, between [] None).
Proof.
  intros Hleg Hrec. assert (Hor : leg || rel = true) by by rewrite Hleg.
  revert s d. induction n as [|n IH]; intros s d; cbn [leg_passes]; [by apply hoare_ret|].
  apply hoare_skip; [auto|auto with lanekeeps|]. intros rot.
  apply (hoare_bind _ _ _ _ (λ _, between [] None)).
  { destruct (rot <>? s); [|by apply hoare_ret]. eapply hoare_bind; [by apply hoare_legRetire|]. intros [].
    by apply hoare_ret. }
  intros [s' d'].
  apply (hoare_bind _ _ _ _ (λ _, between [] None)).
  { assert (Hk : keep (if d' then mret true else c ← closed; if c : bool then mret true else legStale frameID)) by keep_tac.
    by apply Hk. }
  assert (Hdrop : ∀ r : Z * bool, hoare k (between [] None) (_ ← add CarrierRecordsDropped 1; mret r) (λ _, between [] None)).
  { intros r. apply hoare_skip; [auto|auto with lanekeeps|]. intros []. by apply hoare_ret. }
  intros []; [apply Hdrop|].
  destruct (Carrier.AppendCarrierRecord [] dgram) as [framed| |] eqn:Ef; [|apply Hdrop..].
  eapply hoare_bind; [apply hoare_current|]. intros cur.
  eapply hoare_bind; [apply hoare_paid|]. intros paid. destruct (negb paid).
  { apply (hoare_pre _ _ (between [] None)); [by intros c _ [? _]|]. apply hoare_skip; [auto|auto with lanekeeps|].
    intros []. by apply hoare_ret. }
  apply (hoare_bind _ _ _ _ (λ _, between [] None)).
  { destruct cur as [i|]; cbn.
    - apply hoare_ret. by intros c _ [? _].
    - eapply hoare_pre; [|by apply hoare_legOpen]. intros c _ [? E]. split; [done|by apply E]. }
  intros res. apply (hoare_bind _ _ _ _ (λ _, between [] None)).
  { case_bool_decide; [|by apply hoare_ret]. eapply hoare_conseq; [done| |apply (hoare_legWrite None)].
    - intros r c _. cbn beta. by case_bool_decide.
    - by exists dgram. }
  intros []; [|apply IH|apply Hdrop].
  apply hoare_skip; [auto|auto with lanekeeps|]. intros []. by apply hoare_ret.
Qed.
Lemma hoare_leg dgram s d : leg = true → hoare k (between [] None) (leg_datagram dgram s d) (λ _, between [] None).
Proof.
  intros Hleg. unfold leg_datagram. destruct (isCarrierMediaDatagram dgram) eqn:Em; cbn [negb].
  2: { apply hoare_skip; [auto|auto with lanekeeps|]. intros []. by apply hoare_ret. }
  destruct (uplinkRecordFrameID dgram) as [f|] eqn:Ef.
  - apply hoare_leg_pass; [done|]. intros _. by rewrite Ef.
  - apply hoare_skip; [auto|auto with lanekeeps|]. intros []. by apply hoare_ret.
Qed.

(** ** The end of a drain *)

Definition emptied (c : LCore) : Prop := draining [] None c ∧ c_car c = None ∧ c_fin c = None.
Lemma stable_emptied : stable k emptied.
Proof. apply stable_and; [by apply stable_draining|]. apply stable_and; auto. Qed.
#[local] Hint Resolve stable_emptied : core.
Lemma hoare_cancelAll : hoare k (between [] None) legCancelAll (λ _, emptied).
Proof.
  apply hoare_sect; [auto|]. intros a l Hi (H & _). cbn [fst snd]. unfold Inv, G. rewrite core_cancel_carriers.
  split; [by apply LaneOk_uncarriers|]. split; [apply promise_uncarriers|]. by apply draining_uncarriers.
Qed.
Definition finished (c : LCore) : LCore :=
  MkLCore (c_streams c) (c_next c) (c_kf c) (c_writers c) (c_car c) (c_fin c) (c_timers c) (c_sent c) (c_egress c)
    (c_leg c) (c_rel c) true.
Lemma LaneOk_finished c : LaneOk c → emptied c → LaneOk (finished c).
Proof.
  intros Hok ((_ & HD & _) & Hc & Hf). destruct Hok. constructor; auto. intros _. split_and!; [done..|].
  intros st x Hx Hl. destruct (HD st x Hx Hl) as [Hn|[?|[?|?]]]; [by apply elem_of_nil in Hn|congruence..|done].
Qed.
Lemma hoare_drain_end : hoare k emptied (pmodify (set_l_done (λ _, true))) (λ _ _, True).
Proof.
  apply hoare_sect; [auto|]. intros a l Hi H. core_as (finished (lane_core l)).
  split; [by apply LaneOk_finished|]. split; [|done]. constructor; cbn; auto; naive_solver.
Qed.
End Drain.
