(* ===== verification/LaneRun.v ===== *)
(** internal/hub: every goroutine behind a subscriber's session, whatever the
    scheduler makes of them. *)
From S2P Require Export LaneDrain.
#[local] Open Scope Z_scope.

(** ** The reset timer's goroutine *)

Lemma hoare_legReset st0 st : hoare (GoLegReset st0) (λ _, True) (legResetFinished st) (λ _ _, True).
Proof.
  set (k := GoLegReset st0). unfold legResetFinished.
  apply (hoare_bind _ _ _ _ (λ (b : bool) c, if b then firing c st else True)).
  - apply hoare_act; [apply stable_true|]. intros a l b l' Hi _ E. set (c := lane_core l) in *.
    assert (Hend : b = false ∧ l' = l ∨ b = true ∧ c_timers c !! st = Some Armed ∧
      lane_core l' = on_slots (c_car c) (c_fin c) (<[st := Fired]> (c_timers c)) c).
    { destruct (legTimers (l_car l) !! st) as [[]|] eqn:Et; injection E as <- <-; auto. }
    destruct Hend as [[-> ->]|(-> & Et & Ec)].
    { split; [done|]. split; [apply promise_refl|]. by split; [split; constructor|]. }
    unfold Inv, G. rewrite Ec. fold c.
    assert (Hfi : ∀ i, firing c i → <[st := Fired]> (c_timers c) !! i = Some Fired).
    { intros i Ei. rewrite lookup_insert_ne; [done|]. unfold firing in Ei. congruence. }
    assert (Hn : ∀ i, <[st := Fired]> (c_timers c) !! i = None ↔ c_timers c !! i = None).
    { intros i. destruct (decide (i = st)) as [->|?]; [by rewrite lookup_insert_eq, Et|by rewrite lookup_insert_ne]. }
    assert (Hs : ∀ i, is_Some (<[st := Fired]> (c_timers c) !! i) ↔ is_Some (c_timers c !! i)).
    { intros i. rewrite <- !not_eq_None_Some. by rewrite Hn. }
    split; [|split; [|split; [by split; constructor|apply lookup_insert_eq]]].
    + apply LaneOk_slots; [done|]. constructor.
      * intros i E0. rewrite Hn. by apply (lo_car _ Hi).
      * intros i E0. rewrite Hs. by apply (lo_finishing _ Hi).
      * intros i. rewrite Hs. apply (lo_timers _ Hi).
      * exact Hfi.
      * intros Hd. destruct (lo_done _ Hi Hd) as (?&?&_). by split.
    + constructor; cbn; auto; naive_solver.
  - intros []; cbn [negb]; [|by apply hoare_ret].
    apply (hoare_bind _ _ _ _ (λ _ _, True)).
    + apply hoare_sect; [apply stable_firing|]. intros a l Hi Hf. set (c := lane_core l) in *.
      case_bool_decide as E; cbn [fst snd]; [|split; [done|split; [apply promise_refl|done]]].
      core_as (on_slots (c_car c) None (c_timers c) c). split; [|split; [|done]].
      * apply LaneOk_slots; [done|]. constructor; [apply (lo_car _ Hi)|done|apply (lo_timers _ Hi)|done|].
        intros Hd. destruct (lo_done _ Hi Hd) as (?&?&_). by split.
      * change (c_fin c = Some st) in E. constructor; cbn; auto; naive_solver.
    + intros []; [|by apply hoare_ret]. by apply hoare_cancel; [apply stable_true|].
Qed.

(** ** The audio carrier *)

Section Audio.
Context (car0 : option nat).
#[local] Notation k := (GoAudio car0).
#[local] Hint Resolve stable_audio stable_true : core.

(** an action on the audio goroutine's own stream *)
Lemma audio_stream f st c : LaneOk c → audio_carrier (Some st) c → (∀ x, st_kind (f x) = st_kind x) →
  LaneOk (on_stream st f c) ∧ promise k c (on_stream st f c) ∧ audio_carrier (Some st) (on_stream st f c).
Proof.
  intros Hok (x & Hx & Hk) Hf. split; [|split].
  - apply LaneOk_stream; [done|]. intros y Hy. rewrite Hx in Hy. injection Hy as <-.
    split_and!; [done|by rewrite Hk|by rewrite Hk].
  - apply promise_stream. intros y Hy. rewrite Hx in Hy. injection Hy as <-. split; [done|]. by right; right.
  - exists (f x). rewrite on_stream_lookup, bool_decide_eq_true_2, Hx by done. split; [done|]. by rewrite Hf.
Qed.
Lemma hoare_audio_write st buf : hoare k (audio_carrier (Some st)) (sect (write_stream st buf)) (λ _, audio_carrier (Some st)).
Proof.
  apply hoare_sect; [auto|]. intros a l Hi H. unfold write_stream.
  case_bool_decide; [destruct (ok a)|]; cbn [fst snd].
  - by apply (audio_stream (wrote_buf buf) st (lane_core l)).
  - by apply (audio_stream (tore_buf (take (wrote a) buf)) st (lane_core l)).
  - split; [done|]. split; [apply promise_refl|done].
Qed.
Lemma hoare_audio_finish st : hoare k (audio_carrier (Some st)) (finish_stream st) (λ _ _, True).
Proof.
  apply (hoare_bind _ _ _ _ (λ _, audio_carrier (Some st))).
  - apply hoare_sect; [auto|]. intros a l Hi H. unfold close_stream. case_bool_decide; cbn [fst snd].
    + by apply (audio_stream (λ x, set_st_fin (λ _, ok a) (set_st_state (λ _, if ok a then Finished else Failed) x)) st (lane_core l)).
    + split; [done|]. split; [apply promise_refl|done].
  - intros []; [by apply hoare_ret|]. apply (hoare_bind _ _ _ _ (λ _ _, True)); [|intros; by apply hoare_ret].
    by apply hoare_cancel.
Qed.
Lemma hoare_audio_open : hoare k (λ _, True) (sect (open_stream AudioStream)) (λ r, audio_carrier r).
Proof.
  apply hoare_sect; [auto|]. intros a l Hi _. unfold open_stream.
  destruct (ok a); cbn [fst snd]; [|split; [done|split; [apply promise_refl|done]]].
  core_as (add_stream AudioStream (lane_core l)). split; [by apply LaneOk_audio|]. split; [by apply promise_added|].
  exists (MkStream AudioStream [] [] false Open). split; [apply lookup_insert_eq|done].
Qed.
Lemma hoare_audio_cancel st (r : option nat * bool) : fst r = None →
  hoare k (audio_carrier (Some st)) (_ ← CancelWrite st; mret r) (λ r, audio_carrier (fst r)).
Proof.
  intros E. apply (hoare_bind _ _ _ _ (λ _ _, True)); [by apply hoare_cancel|]. intros []. apply hoare_ret. by rewrite E.
Qed.
Lemma hoare_emit car framed : hoare k (audio_carrier car) (emitAudioRecord car framed) (λ r, audio_carrier (fst r)).
Proof.
  unfold emitAudioRecord. apply (hoare_bind _ _ _ _ (λ car, audio_carrier car)).
  - destruct car as [st|]; [by apply hoare_ret|]. eapply hoare_bind; [apply hoare_audio_open|].
    intros [st|]; cbn beta iota; [|by apply hoare_ret].
    eapply hoare_bind; [apply hoare_audio_write|]. intros [n []]; cbn [snd negb].
    + apply hoare_skip; [auto|auto with lanekeeps|]. intros []. by apply hoare_ret.
    + apply (hoare_bind _ _ _ _ (λ _ _, True)); [by apply hoare_cancel|]. intros []. by apply hoare_ret.
  - intros [st|]; [|by apply hoare_ret]. eapply hoare_bind; [apply hoare_audio_write|]. intros [n []]; cbn [snd negb].
    + apply hoare_skip; [auto|auto with lanekeeps|]. intros [].
      apply hoare_skip; [auto|auto with lanekeeps|]. intros []. by apply hoare_ret.
    + by apply hoare_audio_cancel.
Qed.

(** a goroutine's end: what it goes on as *)
Definition goes_on (k : go) (r : option go) (c : LCore) : Prop :=
  match r with Some k' => lane_pre k' c ∧ own k' = own k | None => True end.
Lemma hoare_audio car : hoare k (audio_carrier car) (drainAudioSideband car) (λ r, goes_on k r).
Proof.
  apply hoare_skip; [auto|auto with lanekeeps|]. intros [dgram|].
  2: { apply (hoare_bind _ _ _ _ (λ _ _, True)).
       - destruct car as [st|]; [|by apply hoare_ret]. eapply hoare_bind; [apply hoare_audio_finish|]. intros ?. by apply hoare_ret.
       - intros []. apply hoare_skip; [auto|by apply keep_pmodify|]. intros []. by apply hoare_ret. }
  apply hoare_skip; [auto|auto with lanekeeps|]. intros []; [by apply hoare_ret|].
  assert (Hdrop : hoare k (audio_carrier car) (_ ← add CarrierRecordsDropped 1; mret (Some (GoAudio car))) (λ r, goes_on k r)).
  { apply hoare_skip; [auto|auto with lanekeeps|]. intros []. by apply hoare_ret. }
  destruct (Carrier.AppendCarrierRecord [] dgram) as [framed| |]; [|apply Hdrop..].
  apply hoare_skip; [auto|auto with lanekeeps|]. intros []; cbn [negb].
  - eapply hoare_bind; [apply hoare_emit|]. intros [car' sent]; cbn [fst snd].
    apply hoare_skip; [auto|destruct sent; auto with lanekeeps|]. intros []. by apply hoare_ret.
  - apply hoare_skip; [auto|auto with lanekeeps|]. intros []. by apply hoare_ret.
Qed.
End Audio.

(** ** Closing *)

Lemma keep_set_done f : (∀ l, lane_core (f l) = lane_core l) → keep (pmodify f).
Proof. apply keep_pmodify. Qed.
Lemma hoare_Close k : hoare k (λ _, True) lane_Close (λ _ _, True).
Proof.
  pose proof (stable_true k) as Hst. unfold lane_Close.
  apply hoare_skip; [done|apply keep_sect; intros a l; by destruct (s_closed (l_s l))|]. intros []; cbn [negb].
  2: { apply hoare_skip; [done|auto with lanekeeps|]. intros []. by apply keep_waitAudio. }
  apply hoare_skip; [done|by apply keep_pmodify|]. intros [].
  apply (hoare_bind _ _ _ _ (λ _ _, True)).
  { apply hoare_sect; [done|]. intros a l Hi _. cbn [fst snd]. unfold Inv, G. rewrite core_cancel_current.
    split; [by apply LaneOk_uncur|]. split; [apply promise_uncurrent|done]. }
  intros []. apply hoare_skip; [done|auto with lanekeeps|]. intros [].
  apply (hoare_bind _ _ _ _ (λ _ _, True)).
  { apply hoare_sect; [done|]. intros a l Hi _. cbn [fst snd]. unfold Inv, G. rewrite core_cancel_carriers.
    split; [by apply LaneOk_uncarriers|]. split; [apply promise_uncarriers|done]. }
  intros []. apply hoare_skip; [done|auto with lanekeeps|]. intros [].
  apply hoare_skip; [done|auto with lanekeeps|]. intros []. by apply keep_pmodify.
Qed.

(** ** The drain's turn *)

Lemma hoare_drain seen dead_ : hoare (GoDrain seen dead_) (lane_pre (GoDrain seen dead_)) (drain seen dead_)
  (λ r, goes_on (GoDrain seen dead_) r).
Proof.
  set (k := GoDrain seen dead_). unfold drain. cbn [lane_pre].
  set (A := λ x c, (draining [] None c ∧ carrierless c) ∧ mode (s_legCarrier x) (reliable (cfg (s_sub x))) c).
  assert (HsA : ∀ x, stable k (A x)).
  { intros x. apply stable_and; [apply stable_and; [by apply stable_draining|by apply stable_carrierless]|apply stable_mode]. }
  apply (hoare_bind _ _ _ _ A).
  { apply hoare_sect; [apply stable_and; [by apply stable_draining|by apply stable_carrierless]|].
    intros a l Hi H. split; [done|]. split; [apply promise_refl|]. by split. }
  intros x. apply hoare_skip; [done|auto with lanekeeps|]. intros d. set (lg := s_legCarrier x) in *.
  set (rl := reliable (cfg (s_sub x))) in *.
  assert (HA : ∀ c, LaneOk c → A x c → between lg rl [] None c) by (intros c _ [[? _] ?]; by split_and!).
  assert (Hback : lg || rl = true → ∀ c, between lg rl [] None c → lane_pre k c).
  { intros Hor c (Hd & _ & E1 & E2). split; [done|]. intros E3 E4. rewrite E1 in E3. rewrite E2 in E4.
    by rewrite E3, E4 in Hor. }
  destruct d as [dgram|].
  - apply (hoare_bind _ _ _ _ (λ _, lane_pre k)); [|intros [s d]; by apply hoare_ret].
    destruct lg eqn:Elg; [|destruct rl eqn:Erl].
    + eapply hoare_conseq; [exact HA| |by apply hoare_leg]. intros r c _. by apply Hback.
    + eapply hoare_conseq; [exact HA| |by apply hoare_reliable]. intros r c _. by apply Hback.
    + apply hoare_skip; [done|auto with lanekeeps|]. intros []. apply hoare_ret. by intros c _ [? _].
  - apply (hoare_bind _ _ _ _ (λ _, emptied)).
    + assert (Hnofin : ∀ c, LaneOk c → c_leg c = false → c_fin c = None).
      { intros c Hok El. destruct (c_fin c) eqn:Ef; [|done]. destruct (lo_finishing _ Hok _ Ef) as [? _]. congruence. }
      destruct lg eqn:Elg; [|destruct rl eqn:Erl].
      * eapply hoare_pre; [exact HA|apply hoare_cancelAll].
      * eapply hoare_conseq; [exact HA| |by apply hoare_retireCarrier].
        intros r c Hok [(Hd & _ & El & _) Hc]. split_and!; [done|done|by apply Hnofin].
      * apply hoare_ret. intros c Hok [[Hd Hc] [El Er]]. split_and!; [done|exact (Hc (eq_trans El Elg) (eq_trans Er Erl))|exact (Hnofin c Hok (eq_trans El Elg))].
    + intros []. eapply hoare_bind; [apply hoare_drain_end|]. intros []. by apply hoare_ret.
Qed.

(** ** All of them *)

Section Code.
Context (opts : Options).

Lemma hoare_code k : hoare k (lane_pre k) (code opts k) (λ r, goes_on k r).
Proof.
  assert (Hend : ∀ (A1 : LCore → Prop) (p : P unit), hoare k A1 p (λ _ _, True) →
    hoare k A1 (_ ← p; mret None) (λ r, goes_on k r)).
  { intros A1 p Hp. eapply hoare_bind; [exact Hp|]. intros []. by apply hoare_ret. }
  destruct k as [msg seq|st msg t| | |d|seen dead_|car|st]; cbn [code lane_pre].
  - apply Hend, hoare_sendKeyframe.
  - apply Hend, hoare_writeKeyframe.
  - apply Hend. apply hoare_skip; [apply stable_true|auto with lanekeeps|]. intros []. apply hoare_Close.
  - apply Hend, hoare_Close.
  - apply Hend. apply keep_enqueue, stable_true.
  - apply hoare_drain.
  - apply hoare_audio.
  - apply Hend, hoare_legReset.
Qed.

Lemma lane_pre_stable k l l' : rely Inv G own k l l' → pre k l → pre k l'.
Proof.
  intros (Hi & Hi' & k' & Hap & _ & Hg). unfold pre.
  assert (Hs : stable k (lane_pre k)).
  { destruct k; cbn [lane_pre]; try apply stable_true.
    - by eapply stable_writing.
    - apply stable_and; [by apply stable_draining|by apply stable_carrierless].
    - apply stable_audio. }
  by apply (Hs k').
Qed.

(** what the scheduler may start besides what the goroutines start: the hub's calls *)
Definition lane_call (k : go) : Prop :=
  match k with GoSendKeyframe _ _ | GoEvict | GoClose | GoEnqueue _ => True | _ => False end.
Definition lane_choice (x : pick (Ans:=ans) (K:=go)) : Prop := match x with Call k => lane_call k | Move _ _ => True end.

Lemma pool_sched l x : Forall lane_choice l →
  pool_ok Inv G own lane_used pre x → pool_ok Inv G own lane_used pre (sched (code opts) l x).
Proof.
  intros Hl. apply sched_ok.
  - exact lane_pre_stable.
  - intros k s Hi Hp. eapply wp_mono; [|by apply hoare_code]. intros r l' [_ H]. destruct r; [|done]. by destruct H.
  - eapply Forall_impl; [exact Hl|]. intros [i a|k]; [done|]. cbn. intros Hk. split; [by destruct k|].
    intros l' _. by destruct k.
Qed.
End Code.
