(* ===== verification/LaneSpec.v ===== *)
(** internal/hub: what the lanes of a subscriber promise, over every interleaving
    of its goroutines with the hub's calls and every answer of its session. *)
From S2P Require Export LaneRun WireSpec.
#[local] Open Scope Z_scope.

(** ** Where a subscriber starts *)

(** [subscribeOpts] starts its drain, and its audio drain with an audio lane *)
Definition new_lane (x : HubSubscriber) : Lane :=
  MkLane x false false false ∅ 0 (MkKf None 0 [] 0 0 0 false) (MkUndel 0 0 0 None 0 0)
    (MkCar None None false None ∅) [].
Definition lane_goroutines (x : HubSubscriber) : list go :=
  GoDrain 0 false :: (if bool_decide (audioCap (cfg (s_sub x)) = None) then [] else [GoAudio None]).
(** a subscriber as [subscribeOpts] makes it, without a DVR cursor: it has counted
    nothing *)
Definition at_start (x : HubSubscriber) : Prop :=
  hasDvr (cfg (s_sub x)) = false ∧ s_n x KeyframeStreamsSent = 0 ∧ s_n x EgressKeyframeBytes = 0.
Definition lane_sched (opts : Options) (x : HubSubscriber) (l : list (pick (Ans:=ans) (K:=go))) : config :=
  sched (code opts) l (map (start (code opts)) (lane_goroutines x), new_lane x).
Definition lane_after (opts : Options) (x : HubSubscriber) l : Lane := snd (lane_sched opts x l).

Lemma new_lane_ok x : at_start x → LaneOk (lane_core (new_lane x)).
Proof.
  intros (_ & H1 & H2). constructor; cbn; try (by intros st y [Hy _]); try done.
  - intros st H. by apply elem_of_nil in H.
  - constructor.
  - exists []. rewrite H1, H2. split; [constructor|]. split; [|done]. intros st. split; [by intros ?%elem_of_nil|].
    by intros [_ (x' & [Hx _] & _)].
  - by intros st [].
  - exists []. split; [cbn; lia|]. by intros st x' [Hx _].
Qed.
Lemma new_pool_ok opts x : at_start x →
  pool_ok Inv G own lane_used pre (map (start (code opts)) (lane_goroutines x), new_lane x).
Proof.
  intros Hx. pose proof (new_lane_ok x Hx) as Hok.
  assert (Hpre : Forall (λ k, pre k (new_lane x) ∧ ∀ t, own k = Some t → lane_used (new_lane x) t) (lane_goroutines x)).
  { unfold lane_goroutines. constructor; [|case_bool_decide; [constructor|by repeat constructor]].
    split; [|by intros ? [= <-]]. split; [|done]. split_and!; [done| |done]. by intros st y [Hy _]. }
  split; [done|]. cbn [fst snd]. split.
  - apply Forall_map. eapply Forall_impl; [exact Hpre|]. intros k [Hk Hu]. split; [|exact Hu].
    eapply wp_mono; [|by apply (hoare_code opts k (new_lane x))]. intros r l' [_ H]. destruct r; [|done]. by destruct H.
  - rewrite map_map. cbn [fst start]. rewrite map_id. unfold lane_goroutines. case_bool_decide; apply NoDup_singleton.
Qed.
Lemma lane_ok opts x l : at_start x → Forall lane_choice l → LaneOk (lane_core (lane_after opts x l)).
Proof. intros Hx Hl. by apply (pool_sched opts l), new_pool_ok. Qed.

(** ** What the far end of a leg reads *)

(** a record as the far end takes it: admitted or stale *)
Definition relay_record CodecFamily ExtradataHeight (p : nat) (now : Z) (rec : bytes) : St unit :=
  match uplinkRecordFrameID rec with
  | Some id => ok ← admitUplinkRecord p id;
               if ok : bool then HandleDatagram CodecFamily ExtradataHeight p rec now else skip
  | None => skip
  end.

Lemma frames_enc d f : frames d f → sized d ∧ f = enc_record d.
Proof.
  intros H. assert (Hs : sized d).
  { revert H. unfold frames, Carrier.AppendCarrierRecord, sized. destruct (zlen d =? 0) eqn:E; [done|].
    destruct (zlen d >? MaxDatagramSize) eqn:E'; [done|]. intros _. pose proof (zlen_nonneg d). lia. }
  split; [done|]. unfold frames in H. rewrite append_record in H by done. by injection H.
Qed.

Section Reads.
Context (CodecFamily : bytes → bytes) (ExtradataHeight : bytes → bytes → Z).
Context (p : nat) (fin : bool) (now : Z).
Notation loop := (carrier_loop CodecFamily ExtradataHeight).
Notation relay := (relay_record CodecFamily ExtradataHeight p now).
Definition read_end (rest : bytes) : outcome ingest_error unit :=
  if bool_decide (rest = []) && fin then Ok tt else Err ErrRead.

Lemma loop_cut fuel s d : sized d → (length s < fuel)%nat → s `prefix_of` enc_record d → s ≠ enc_record d →
  ∀ g, loop fuel p s fin now g = (read_end s, g).
Proof.
  intros Hd Hf [s2 Hs] Hne g. destruct fuel as [|fuel]; [lia|]. unfold enc_record in *.
  unfold read_end. destruct s as [|hi [|lo rest]]; [rewrite bool_decide_eq_true_2 by done; reflexivity|..].
  { rewrite bool_decide_eq_false_2 by done. reflexivity. }
  rewrite bool_decide_eq_false_2 by done. cbn [be_encode app] in Hs.
  injection Hs as Ehi Elo Erest.
  unfold carrier_loop, get_pub. rewrite bind_gets. cbv beta zeta.
  replace (be_decode [hi; lo]) with (zlen d).
  2: { rewrite <- Ehi, <- Elo. symmetry. apply (be_decode_encode 2). unfold sized in Hd. revert Hd. wire_const. lia. }
  unfold sized in Hd. replace (_ || _) with false by lia.
  assert (Hlt : zlen rest < zlen d).
  { rewrite Erest. rewrite zlen_app. assert (zlen s2 ≠ 0); [|pose proof (zlen_nonneg s2); lia]. intros E0.
    apply Hne. destruct s2; [|rewrite zlen_cons in E0; pose proof (zlen_nonneg s2); lia].
    cbn [be_encode app]. rewrite Ehi, Elo, Erest. by rewrite app_nil_r. }
  replace (zlen rest <? zlen d) with true by lia. done.
Qed.
Lemma loop_take fuel d s' : sized d → is_Some (uplinkRecordFrameID d) →
  ∀ g, loop (S fuel) p (enc_record d ++ s') fin now g = (_ ← relay d; loop fuel p s' fin now) g.
Proof.
  intros Hd [id Eid] g. unfold enc_record. cbn [be_encode app]. cbn [carrier_loop]. unfold get_pub at 1. rewrite bind_gets.
  cbv beta zeta. fold (be_encode 2 (zlen d)). change [_; _] with (be_encode 2 (zlen d)).
  rewrite be_decode_encode by (unfold sized in Hd; revert Hd; wire_const; lia).
  unfold sized in Hd. replace (_ || _) with false by lia. rewrite zlen_app.
  replace (zlen d + zlen s' <? zlen d) with false by (pose proof (zlen_nonneg s'); lia).
  assert (El : Z.to_nat (zlen d) = length d) by (unfold zlen; lia).
  rewrite El, take_app_length, drop_app_length. cbv zeta. rewrite Eid. unfold relay_record. rewrite Eid.
  rewrite bind_assoc. done.
Qed.

(** what is on a carrier, cut anywhere *)
Lemma loop_reads ds : ∀ s fuel, Forall sized ds → Forall (λ d, is_Some (uplinkRecordFrameID d)) ds →
  (length s < fuel)%nat → s `prefix_of` enc_all ds →
  ∃ n rest, (n ≤ length ds)%nat ∧ s = enc_all (take n ds) ++ rest ∧ (s = enc_all ds → n = length ds) ∧
    ∀ g, loop fuel p s fin now g = (read_end rest, snd (forM (take n ds) relay g)).
Proof.
  induction ds as [|d ds IH]; intros s fuel Hs Hid Hf Hpre.
  { exists 0%nat, []. apply prefix_nil_inv in Hpre as ->. split_and!; [done..|]. intros g. destruct fuel as [|fuel]; [cbn in Hf; lia|].
    unfold read_end. rewrite bool_decide_eq_true_2 by done. reflexivity. }
  apply Forall_cons_iff in Hs as [Hd Hs]. apply Forall_cons_iff in Hid as [Hi Hid].
  unfold enc_all in Hpre. cbn [map concat] in Hpre. fold (enc_all ds) in Hpre.
  destruct (decide (length s < length (enc_record d))%nat) as [Hlt|Hge].
  - exists 0%nat, s. assert (Hne : s ≠ enc_record d) by (intros ->; lia).
    split; [lia|]. split; [done|]. split.
    + intros ->. unfold enc_all in Hlt. cbn [map concat] in Hlt. rewrite length_app in Hlt. lia.
    + intros g. cbn [take forM]. apply (loop_cut fuel s d); [done|done| |done].
      destruct Hpre as [s2 Hs2]. exists (drop (length s) (enc_record d)).
      rewrite <- (take_drop (length s) (enc_record d)) at 1. f_equal.
      rewrite <- (take_app_le (enc_record d) (enc_all ds)) by lia. by rewrite Hs2, take_app_length.
  - destruct Hpre as [s2 Hs2].
    assert (H1 : s = enc_record d ++ drop (length (enc_record d)) s).
    { rewrite <- (take_drop (length (enc_record d)) s) at 1. f_equal.
      rewrite <- (take_app_le s s2) by lia. by rewrite <- Hs2, take_app_length. }
    set (s' := drop _ s) in *. rewrite H1, <- app_assoc in Hs2. apply app_inv_head in Hs2.
    pose proof (length_enc d). destruct fuel as [|fuel]; [lia|].
    destruct (IH s' fuel Hs Hid) as (n & rest & Hn & Es & Hall & Hrun).
    { rewrite H1, length_app in Hf. lia. }
    { by exists s2. }
    exists (S n), rest. split; [cbn; lia|]. split; [|split].
    + rewrite H1, Es. unfold enc_all. cbn [take map concat]. by rewrite app_assoc.
    + intros E. cbn. f_equal. apply Hall. rewrite H1 in E. unfold enc_all in E. cbn [map concat] in E.
      by apply app_inv_head in E.
    + intros g. rewrite H1, loop_take by done. unfold mbind, st_bind. cbn [take forM]. unfold mbind, st_bind.
      destruct (relay d g) as [[] g1]. rewrite Hrun. done.
Qed.
End Reads.

(** all that was put on a carrier is the start of its prologue and whole records *)
Lemma records_enc leg ds fs : Forall2 frames ds fs → Forall (record_ok leg) ds →
  Forall (λ d, record_ok leg d ∧ sized d) ds ∧ concat fs = enc_all ds.
Proof.
  induction 1 as [|d f ds fs Hf _ IH]; intros Hr; [by split; [constructor|]|].
  apply Forall_cons_iff in Hr as [Hr1 Hr2]. destruct (IH Hr2) as [? E]. destruct (frames_enc d f Hf) as [? ->].
  split; [by constructor|]. unfold enc_all. cbn [map concat]. by rewrite E.
Qed.
Lemma enc_all_app l1 l2 : enc_all (l1 ++ l2) = enc_all l1 ++ enc_all l2.
Proof. unfold enc_all. by rewrite map_app, concat_app. Qed.
Lemma framed_bytes leg z : well_framed leg z → ∃ ds more, Forall (λ d, record_ok leg d ∧ sized d) (ds ++ more) ∧
  concat (st_whole z) ++ st_torn z `prefix_of` prologue ++ enc_all (ds ++ more) ∧
  (st_whole z ≠ [] → concat (st_whole z) = prologue ++ enc_all ds).
Proof.
  intros [[E Ht]|(ds & fs & E & Hf & Hr & Ht)].
  - exists [], []. rewrite E. split; [constructor|]. split; [|done]. exact Ht.
  - destruct (records_enc leg ds fs Hf Hr) as [Hds Ec]. rewrite E. cbn [concat]. rewrite Ec.
    destruct Ht as [-> |(d & f & Hrd & Hfr & Hpre)].
    + exists ds, []. rewrite !app_nil_r. by split.
    + destruct (frames_enc d f Hfr) as [Hsd ->]. exists ds, [d]. split; [|split; [|done]].
      * apply Forall_app; split; [done|]. by constructor.
      * rewrite enc_all_app, <- app_assoc. do 2 apply prefix_app. unfold enc_all. cbn [map concat]. by rewrite app_nil_r.
Qed.

(** a stream that starts with the prologue, at a publisher with a slot for it *)
Lemma ingest_framed CodecFamily ExtradataHeight p s0 fin now g : p_carriers (pub_of g p) < MaxUplinkCarriers →
  IngestUplinkCarrier CodecFamily ExtradataHeight p (prologue ++ s0) fin now g =
  (_ ← acquireUplinkCarrier p; _ ← NoteSeen p now;
   r ← carrier_loop CodecFamily ExtradataHeight (S (length s0)) p s0 fin now;
   _ ← releaseUplinkCarrier p; mret r) g.
Proof.
  intros Hp. unfold IngestUplinkCarrier.
  assert (Hacq : fst (acquireUplinkCarrier p g) = true).
  { unfold acquireUplinkCarrier, get_pub. rewrite bind_gets. replace (_ >=? _) with false by lia. done. }
  destruct (acquireUplinkCarrier p g) as [got g1] eqn:Ea. cbn in Hacq. subst got. rewrite !(bind_run _ _ _ _ _ Ea).
  cbn [negb]. destruct (NoteSeen p now g1) as [[] g2] eqn:En. rewrite !(bind_run _ _ _ _ _ En).
  unfold get_pub at 1. rewrite bind_gets. cbv beta zeta.
  assert (E : (zlen (prologue ++ s0) <? CarrierPrologueSize) = false).
  { rewrite zlen_app. change (zlen prologue) with 2. unfold CarrierPrologueSize. pose proof (zlen_nonneg s0). lia. }
  rewrite E. change (take (Z.to_nat CarrierPrologueSize) (prologue ++ s0)) with prologue.
  change (drop (Z.to_nat CarrierPrologueSize) (prologue ++ s0)) with s0. done.
Qed.


(** ** The keyframe lane and the carriers *)


(** a carrier holds one of the peer's stream slots: a leg's until it is reset, a viewer's
    until it is finished *)
Definition occupies (y : Lane) (st : nat) (z : stream) : Prop :=
  l_streams y !! st = Some z ∧ st_kind z = CarrierStream ∧
  if s_legCarrier (l_s y) then st_state z ≠ Cancelled else st_state z = Open ∨ st_state z = Failed.


(** ** Notices of undeliverable video *)

(** a keyframe's outcome: the subscriber closed, bytes moved, handed off at, noted at *)
Record kf_outcome := MkOutcome { o_closed : bool; o_moved : bool; o_handed : Z; o_now : Z }.

Section Notices.
Context (opts : Options).

Definition note (o : kf_outcome) (u : Undeliverable) : option bytes * Undeliverable :=
  note_outcome opts (o_closed o) (o_moved o) (o_handed o) (o_now o) u.
Definition note_all (os : list kf_outcome) (u : Undeliverable) : Undeliverable :=
  fold_left (λ u o, snd (note o u)) os u.
(** when notices were sent *)
Fixpoint notice_times (os : list kf_outcome) (u : Undeliverable) : list Z :=
  match os with
  | [] => []
  | o :: os' =>
      let '(n, u') := note o u in
      match n with Some _ => o_now o :: notice_times os' u' | None => notice_times os' u' end
  end.
(** the hand-offs of the running episode: none has moved a byte since the last that did *)
Definition episode (os : list kf_outcome) : list kf_outcome :=
  fold_left (λ acc o, if o_moved o then [] else if o_closed o then acc else acc ++ [o]) os [].
Definition undel0 := MkUndel 0 0 0 None 0 0.

Lemma note_cases o u : note o u = (fst (note o u), snd (note o u)) ∧
  (o_moved o = false → episodeNotices (snd (note o u)) =
     episodeNotices u + (match fst (note o u) with Some _ => 1 | None => 0 end)) ∧
  (is_Some (fst (note o u)) → o_moved o = false ∧ o_closed o = false ∧
     episodeNotices u < UndeliverableMaxNotices ∧
     undeliverableNoticeAt (snd (note o u)) = Some (o_now o) ∧
     (∀ t, undeliverableNoticeAt u = Some t → t + UndeliverableNoticeInterval ≤ o_now o) ∧
     UndeliverableMinKeyframes ≤ undelivered (snd (note o u)) ∧
     UndeliverableAfter opts ≤ o_now o - undeliveredSince (snd (note o u))) ∧
  (fst (note o u) = None → undeliverableNoticeAt (snd (note o u)) = undeliverableNoticeAt u).
Proof.
  split; [by destruct (note o u)|]. unfold note, note_outcome. destruct (o_moved o); [split_and!; [done|by intros []|done]|].
  destruct (o_closed o); [split_and!; [intros; cbn [fst snd]; lia|by intros []|done]|]. cbv zeta.
  set (n := undelivered u + 1). set (since := if n =? 1 then _ else _).
  destruct (_ || _ || _ || _) eqn:E; cbn [fst snd].
  - split_and!; [intros; cbn [episodeNotices]; lia|by intros []|done].
  - apply orb_false_iff in E as [E E4]. apply orb_false_iff in E as [E E3]. apply orb_false_iff in E as [E1 E2].
    split_and!; [done| |done]. intros _. cbn [episodeNotices undeliverableNoticeAt undelivered undeliveredSince].
    split_and!; try done; try lia. intros t Ht. rewrite Ht in E4. lia.
Qed.

Lemma notices_capped os : ∀ u, Forall (λ o, o_moved o = false) os →
  zlen (notice_times os u) ≤ Z.max 0 (UndeliverableMaxNotices - episodeNotices u).
Proof.
  induction os as [|o os IH]; intros u Hm; cbn [notice_times]; [change (zlen (@nil Z)) with 0; lia|].
  apply Forall_cons_iff in Hm as [Ho Hm]. destruct (note_cases o u) as (E & He & Hs & _). rewrite E.
  pose proof (IH (snd (note o u)) Hm) as HI. specialize (He Ho). destruct (fst (note o u)).
  - destruct Hs as (_ & _ & ? & _); [by eexists|]. rewrite zlen_cons. lia.
  - lia.
Qed.
Lemma notices_spaced os : ∀ u,
  (∀ t0, undeliverableNoticeAt u = Some t0 → hd_error (notice_times os u) ≫= (λ t, Some (t0 + UndeliverableNoticeInterval <=? t)) ≠ Some false) ∧
  ∀ i t t', notice_times os u !! i = Some t → notice_times os u !! S i = Some t' → t + UndeliverableNoticeInterval ≤ t'.
Proof.
  induction os as [|o os IH]; intros u; cbn [notice_times]; [split; [done|]; by intros []|].
  destruct (note_cases o u) as (E & _ & Hs & Hn). rewrite E. destruct (IH (snd (note o u))) as [IH1 IH2].
  destruct (fst (note o u)) eqn:Ef.
  - destruct Hs as (_ & _ & _ & Hat & Hsp & _); [by eexists|]. split.
    + intros t0 Ht0. cbn. specialize (Hsp _ Ht0). replace (_ <=? _) with true by lia. done.
    + intros [|i] t t' H1 H2; [|by apply (IH2 i)]. cbn in H1, H2. injection H1 as <-.
      specialize (IH1 _ Hat). destruct (notice_times os (snd (note o u))); [done|]. cbn in H2, IH1. injection H2 as ->.
      destruct (o_now o + UndeliverableNoticeInterval <=? t') eqn:El; [lia|done].
  - split; [|done]. intros t0 Ht0. apply IH1. by rewrite Hn.
Qed.
Lemma episode_snoc os o : episode (os ++ [o]) = if o_moved o then [] else if o_closed o then episode os else episode os ++ [o].
Proof. unfold episode. by rewrite fold_left_app. Qed.
Lemma note_all_snoc os o u : note_all (os ++ [o]) u = snd (note o (note_all os u)).
Proof. unfold note_all. by rewrite fold_left_app. Qed.
Lemma note_tracks os : let u := note_all os undel0 in undelivered u = zlen (episode os) ∧
  ∀ o es, episode os = o :: es → undeliveredSince u = o_handed o.
Proof.
  induction os as [|o os [IH1 IH2]] using rev_ind; [done|]. cbv zeta in *. rewrite note_all_snoc, episode_snoc.
  set (u := note_all os undel0) in *.
  assert (Hu : (if o_moved o then undelivered (snd (note o u)) = 0 else if o_closed o then snd (note o u) = u else
    undelivered (snd (note o u)) = undelivered u + 1 ∧
    undeliveredSince (snd (note o u)) = if undelivered u + 1 =? 1 then o_handed o else undeliveredSince u)).
  { unfold note, note_outcome. destruct (o_moved o); [done|]. destruct (o_closed o); [done|]. cbv zeta.
    by destruct (_ || _ || _ || _). }
  destruct (o_moved o); [by rewrite Hu|]. destruct (o_closed o); [by rewrite Hu|]. destruct Hu as [-> ->].
  split; [rewrite IH1, zlen_app; done|]. intros o1 es E. destruct (episode os) as [|o2 es2] eqn:Ee.
  - rewrite IH1. cbn in E. by injection E as -> _.
  - rewrite IH1. cbn in E. injection E as -> _. rewrite zlen_cons. pose proof (zlen_nonneg es2).
    replace (_ =? _) with false by lia. by eapply IH2.
Qed.

(** C9. A subscriber is told its video is undeliverable at most three times an episode,
    never twice within a second, and only after two keyframes in a row moved nothing, the
    first handed off [UndeliverableAfter] ago or more; any byte moved ends the episode. *)
Theorem notices_paced os :
  (∀ t t' i, notice_times os undel0 !! i = Some t → notice_times os undel0 !! S i = Some t' →
     t + UndeliverableNoticeInterval ≤ t') ∧
  (∀ pre ep, os = pre ++ ep → Forall (λ o, o_moved o = false) ep → (∀ o, last pre = Some o → o_moved o = true) →
     zlen (notice_times ep (note_all pre undel0)) ≤ UndeliverableMaxNotices) ∧
  (∀ pre o post, os = pre ++ o :: post → is_Some (fst (note o (note_all pre undel0))) →
     ∃ o0 o1 rest, episode (pre ++ [o]) = o0 :: o1 :: rest ∧ UndeliverableAfter opts ≤ o_now o - o_handed o0).
Proof.
  split; [|split].
  - intros t t' i. apply (notices_spaced os undel0).
  - intros pre ep _ Hep Hlast. etransitivity; [by apply notices_capped|].
    assert (E : episodeNotices (note_all pre undel0) = 0).
    { destruct pre as [|o pre _] using rev_ind; [done|]. specialize (Hlast o (last_snoc _ _)).
      rewrite note_all_snoc. unfold note, note_outcome. by rewrite Hlast. }
    rewrite E. unfold UndeliverableMaxNotices. lia.
  - intros pre o post _ Hs. destruct (note_cases o (note_all pre undel0)) as (_ & _ & Hn & _).
    destruct (Hn Hs) as (_ & _ & _ & _ & _ & Hmin & Hafter).
    destruct (note_tracks (pre ++ [o])) as [Hz Hsince]. rewrite note_all_snoc in Hz, Hsince.
    unfold UndeliverableMinKeyframes in Hmin. rewrite Hz in Hmin.
    destruct (episode (pre ++ [o])) as [|o0 [|o1 rest]]; [by vm_compute in Hmin|by vm_compute in Hmin|].
    exists o0, o1, rest. split; [done|]. by rewrite (Hsince o0 (o1 :: rest) eq_refl) in Hafter.
Qed.
End Notices.
