(* ===== verification/LaneSamples.v ===== *)
(** internal/hub: concrete schedules of a subscriber's goroutines. The theorems of
    LaneSpec.v at one, and interleavings that show corners of the code. *)
From S2P Require Import LaneSpec HubLife HubSamples.
#[local] Open Scope Z_scope.

(** ** A PoP leg *)

Definition lane_options : Options := with_defaults sample_options.
(** every call of the session succeeds *)
Definition yes : ans := MkAns true 0 0.
Definition moves (i n : nat) : list (pick (Ans:=ans) (K:=go)) := replicate n (Move i yes).
Definition leg_sub : HubSubscriber :=
  sub_of (after [OResume code [1; 2; 3; 4] 10;
                 OSubscribe code (MkSubOpts true true false 0 0 0 false 0 0 [] true true) 20]) 2.
Definition delta (id : Z) : bytes :=
  match VideoChunk.AppendVideoChunk [] (VideoChunk.Build_VideoChunkHeader false id 0 1 5) [7; 7] with
  | Ok d => d
  | _ => []
  end.
(** the fan-out queues a delta, the drain writes it; a keyframe is handed off and written *)
Definition one_delta (i : nat) (id : Z) := [Call (GoEnqueue (delta id))] ++ moves i 3 ++ moves 0 60.
Definition one_keyframe (i : nat) (seq : Z) := [Call (GoSendKeyframe [9; 9] seq)] ++ moves i 60.
Definition two_gops := one_delta 1 1 ++ one_keyframe 1 1 ++ one_delta 1 2.
Notation leg_after := (lane_after lane_options leg_sub).
Definition carriers_of (y : Lane) : list (nat * stream_state) :=
  map (λ p, (fst p, st_state (snd p)))
    (List.filter (λ p, bool_decide (st_kind (snd p) = CarrierStream)) (map_to_list (l_streams y))).

Lemma leg_at_start : at_start leg_sub.
Proof. split_and!; vm_compute; reflexivity. Qed.
Lemma moves_choices i n : Forall lane_choice (moves i n).
Proof. unfold moves. induction n; by constructor. Qed.
Lemma gops_choices : Forall lane_choice two_gops.
Proof.
  unfold two_gops, one_delta, one_keyframe. rewrite !Forall_app. split_and!; try apply moves_choices; by repeat constructor.
Qed.

(** two GOPs: the first carrier finishes beside the second *)
Example two_gops_state :
  carriers_of (leg_after two_gops) = [(2%nat, Open); (0%nat, Finished)] ∧
  st_whole <$> l_streams (leg_after two_gops) !! 0%nat = Some [prologue; enc_record (delta 1)] ∧
  st_whole <$> l_streams (leg_after two_gops) !! 1%nat = Some [[9; 9]].
Proof. vm_compute. done. Qed.


(** ** Corners *)

(** A timer that has fired takes its stream out of [legFinishing] and unlocks
    before it resets it: a rotation in between finds nothing finishing, and the leg
    has three carriers that are not reset. *)
Definition late_reset :=
  two_gops ++ moves 1 2 ++ one_keyframe 2 2 ++ one_delta 2 3.
Example three_carriers :
  carriers_of (leg_after late_reset) = [(4%nat, Open); (2%nat, Finished); (0%nat, Finished)].
Proof. vm_compute. done. Qed.

(** A record whose two passes are both abandoned is neither written nor counted
    as dropped. *)
Definition rotated_twice :=
  [Call (GoEnqueue (delta 1))] ++ moves 1 3 ++ moves 0 8 ++ one_keyframe 1 1 ++ moves 0 18 ++ one_keyframe 1 2 ++ moves 0 60.
Example record_uncounted :
  let x := l_s (leg_after rotated_twice) in
  queue (lanes (s_sub x)) = [] ∧ counter_of_sub x CarrierRecords = 0 ∧ counter_of_sub x CarrierRecordsDropped = 0 ∧
  counter_of_sub x DatagramsDropped = 0 ∧ s_closed x = false.
Proof. vm_compute. done. Qed.
