(* ===== verification/KubeFleet.v ===== *)
(** The pods of a fleet and what they share: objects at the Kubernetes API server,
    one of each name, each with a holder and a generation. A pod keeps the objects it
    holds, a renew loop for each, and an informer's cache. internal/cluster (broadcast
    Leases) and internal/roomcluster (Rooms) are fleets of this kind.

    The Kubernetes API is not the program's: [ObjApi] is what a store of objects
    offers, [ObjApiLaws] what its documentation promises (a write assigns the
    object a resource version it never had). The conditions on creates, updates
    and deletes are that documentation's. *)
From stdpp Require Export gmap.
From S2P Require Export Conc.
#[local] Open Scope Z_scope.

(** ** The API server *)

Class ObjApi (Obj Store : Type) := {
  api_get : Store → bytes → option (Obj * Z);
  api_list : Store → list (bytes * (Obj * Z));
  (* a write lands, a deletion lands *)
  api_put : bytes → Obj → Store → Store;
  api_del : bytes → Store → Store;
  (* the resource versions an object of that name has had *)
  api_past : Store → bytes → Z → Prop;
}.
Class ObjApiLaws (Obj Store : Type) `{ObjApi Obj Store} := {
  get_put : ∀ s n l, ∃ r, api_get (api_put n l s) n = Some (l, r) ∧ ¬ api_past s n r;
  get_put_ne : ∀ s n m l, n ≠ m → api_get (api_put n l s) m = api_get s m;
  get_del : ∀ s n, api_get (api_del n s) n = None;
  get_del_ne : ∀ s n m, n ≠ m → api_get (api_del n s) m = api_get s m;
  get_past : ∀ s n l r, api_get s n = Some (l, r) → api_past s n r;
  past_put : ∀ s n m l r, api_past s m r → api_past (api_put n l s) m r;
  past_del : ∀ s n m r, api_past s m r → api_past (api_del n s) m r;
  list_get : ∀ s n x, (n, x) ∈ api_list s ↔ api_get s n = Some x;
  list_nodup : ∀ s, NoDup (map fst (api_list s));
}.

(** ** The fleet *)

(** [h_done]: the renew loop has ended *)
Record heldLease := MkHeld { h_pod : bytes; h_id : bytes; h_gen : Z; h_cancelled : bool; h_done : bool }.

(** what the watch tells a pod, in the order of the writes *)
Inductive watch_event (Obj : Type) :=
  | Added (n : bytes) (x : Obj * Z)
  | Modified (n : bytes) (old new : Obj * Z)
  | Deleted (n : bytes) (x : Obj * Z).
Arguments Added {Obj} _ _.
Arguments Modified {Obj} _ _ _.
Arguments Deleted {Obj} _ _.

(** [c_held]: handles by ID; [c_cursor]: how much of the watch its informer has seen;
    [c_cache]: the informer's store; [c_more]: what else it keeps. *)
Record Pod (Obj X : Type) := MkPod {
  c_held : gmap bytes nat;
  c_cursor : nat;
  c_cache : gmap bytes (Obj * Z);
  c_more : X;
}.
Arguments MkPod {Obj X} _ _ _ _.
Arguments c_held {Obj X} _.
Arguments c_cursor {Obj X} _.
Arguments c_cache {Obj X} _.
Arguments c_more {Obj X} _.
Definition set_c_held {Obj X : Type} (f : gmap bytes nat → gmap bytes nat) (c : Pod Obj X) : Pod Obj X :=
  MkPod (f (c_held c)) (c_cursor c) (c_cache c) (c_more c).
Definition set_c_more {Obj X : Type} (f : X → X) (c : Pod Obj X) : Pod Obj X :=
  MkPod (c_held c) (c_cursor c) (c_cache c) (f (c_more c)).

(** the errors of the fleet's calls; the last four are the API server's *)
Inductive fleet_error :=
  | ErrHeldElsewhere | ErrMaxBroadcasts | ErrMaxRooms | ErrNotFound | ErrReserved | ErrConflict | ErrNoPop | errLost
  | ErrUnavailable | ErrTaken | ErrRejected | ErrExhausted
  | apiNotFound | apiAlreadyExists | apiConflict | apiFailed.
#[export] Instance fleet_error_eq_dec : EqDecision fleet_error.
Proof. solve_decision. Defined.

(** [f_out]: the callbacks and answers, [Ev], in order *)
Record Fleet (Store Obj X Ev : Type) := MkFleet {
  f_api : Store;
  f_watch : list (watch_event Obj);
  f_pods : bytes → Pod Obj X;
  f_held : gmap nat heldLease;
  f_next : nat;
  f_out : list Ev;
}.
Arguments MkFleet {Store Obj X Ev} _ _ _ _ _ _.
Arguments f_api {Store Obj X Ev} _.
Arguments f_watch {Store Obj X Ev} _.
Arguments f_pods {Store Obj X Ev} _ _.
Arguments f_held {Store Obj X Ev} _.
Arguments f_next {Store Obj X Ev} _.
Arguments f_out {Store Obj X Ev} _.

(** an API call succeeds, is not carried out, or is carried out and its answer is lost;
    the clock; what is read outside the fleet *)
Inductive fault := Fine | Refused | Lost.
Record cans := MkCAns { a_fault : fault; a_now : Z; a_read : bytes }.

Section Ops.
Context {Store Obj X Ev K : Type} {api : ObjApi Obj Store}.
Notation Fleet := (Fleet Store Obj X Ev).
Notation P := (prog cans Fleet K).

Definition upd_pod (pod : bytes) (f : Pod Obj X → Pod Obj X) (F : Fleet) : Fleet :=
  MkFleet (f_api F) (f_watch F) (λ p, if bool_decide (p = pod) then f (f_pods F p) else f_pods F p) (f_held F) (f_next F) (f_out F).
Definition set_f_held (f : gmap nat heldLease → gmap nat heldLease) (F : Fleet) : Fleet :=
  MkFleet (f_api F) (f_watch F) (f_pods F) (f (f_held F)) (f_next F) (f_out F).
Definition emit_ (e : Ev) (F : Fleet) : Fleet :=
  MkFleet (f_api F) (f_watch F) (f_pods F) (f_held F) (f_next F) (f_out F ++ [e]).
Definition cancel_h (h : nat) : Fleet → Fleet :=
  set_f_held (alter (λ x, MkHeld (h_pod x) (h_id x) (h_gen x) true (h_done x)) h).
Definition done_h (h : nat) : Fleet → Fleet :=
  set_f_held (alter (λ x, MkHeld (h_pod x) (h_id x) (h_gen x) (h_cancelled x) true) h).

(** a write that lands, and what the watch says of it *)
Inductive commit := Put (n : bytes) (l : Obj) | Del (n : bytes).
Definition committed (c : commit) (s : Store) : Store :=
  match c with Put n l => api_put n l s | Del n => api_del n s end.
Definition commit_name (c : commit) : bytes := match c with Put n _ => n | Del n => n end.
Definition watched (c : commit) (s : Store) : list (watch_event Obj) :=
  let n := commit_name c in
  match api_get s n, api_get (committed c s) n with
  | None, None => []
  | None, Some x => [Added n x]
  | Some o, None => [Deleted n o]
  | Some o, Some x => [Modified n o x]
  end.
Definition land (c : commit) (F : Fleet) : Fleet :=
  MkFleet (committed c (f_api F)) (f_watch F ++ watched c (f_api F)) (f_pods F) (f_held F) (f_next F) (f_out F).

(** ** Calls of the API *)

Definition api_Get (n : bytes) : P (outcome fleet_error (Obj * Z)) :=
  sect (λ a F, (match a_fault a with
                | Fine => match api_get (f_api F) n with Some x => Ok x | None => Err apiNotFound end
                | _ => Err apiFailed
                end, F)).
Definition api_List (sel : Obj → bool) : P (outcome fleet_error (list (bytes * (Obj * Z)))) :=
  sect (λ a F, (match a_fault a with
                | Fine => Ok (List.filter (λ x, sel (fst (snd x))) (api_list (f_api F)))
                | _ => Err apiFailed
                end, F)).
(** [check]: the API server's own condition *)
Definition api_write (check : Store → option fleet_error) (c : commit) : P (outcome fleet_error unit) :=
  sect (λ a F,
    match a_fault a with
    | Refused => (Err apiFailed, F)
    | f =>
        match check (f_api F) with
        | Some e => (match f with Fine => Err e | _ => Err apiFailed end, F)
        | None => (match f with Fine => Ok tt | _ => Err apiFailed end, land c F)
        end
    end).
Definition absent (n : bytes) (s : Store) : option fleet_error :=
  match api_get s n with Some _ => Some apiAlreadyExists | None => None end.
Definition present (n : bytes) (s : Store) : option fleet_error :=
  match api_get s n with Some _ => None | None => Some apiNotFound end.
Definition current (n : bytes) (rv : Z) (s : Store) : option fleet_error :=
  match api_get s n with
  | None => Some apiNotFound
  | Some (_, r) => if r =? rv then None else Some apiConflict
  end.
Definition Create (n : bytes) (l : Obj) : P (outcome fleet_error unit) := api_write (absent n) (Put n l).
Definition Update (n : bytes) (rv : Z) (l : Obj) : P (outcome fleet_error unit) := api_write (current n rv) (Put n l).
Definition api_Delete (n : bytes) (rv : Z) : P (outcome fleet_error unit) := api_write (current n rv) (Del n).
(** without a precondition *)
Definition api_DeleteAny (n : bytes) : P (outcome fleet_error unit) := api_write (present n) (Del n).
(** a create that tells the version it made *)
Definition CreateV (n : bytes) (l : Obj) : P (outcome fleet_error Z) :=
  sect (λ a F,
    match a_fault a with
    | Refused => (Err apiFailed, F)
    | f =>
        match absent n (f_api F) with
        | Some e => (match f with Fine => Err e | _ => Err apiFailed end, F)
        | None =>
            let F' := land (Put n l) F in
            (match f, api_get (f_api F') n with Fine, Some (_, rv) => Ok rv | _, _ => Err apiFailed end, F')
        end
    end).
Definition Now : P Z := sect (λ a F, (a_now a, F)).

(** ** Held objects *)

Definition held_at (pod id : bytes) (F : Fleet) : option nat := c_held (f_pods F pod) !! id.
Definition gen_of (h : nat) (F : Fleet) : option Z := h_gen <$> f_held F !! h.
Definition held_gen (pod id : bytes) (F : Fleet) : option Z := held_at pod id F ≫= λ h, gen_of h F.
Definition is_cancelled (h : nat) (F : Fleet) : bool :=
  match f_held F !! h with Some x => h_cancelled x | None => true end.
Definition is_done (h : nat) (F : Fleet) : bool :=
  match f_held F !! h with Some x => h_done x | None => true end.
Definition wait_done (h : nat) : P unit := act (λ _ F, if is_done h F then Some (tt, F) else None).
Definition drop_held (pod id : bytes) : Fleet → Fleet := upd_pod pod (set_c_held (delete id)).

(** a new renew loop in place of the one there is *)
Definition fresh_handle (pod id : bytes) (gen : Z) (F : Fleet) : Fleet :=
  let F := match held_at pod id F with Some prev => cancel_h prev F | None => F end in
  MkFleet (f_api F) (f_watch F) (f_pods (upd_pod pod (set_c_held (<[id := f_next F]>)) F))
    (<[f_next F := MkHeld pod id gen false false]> (f_held F)) (S (f_next F)) (f_out F).
Definition go_renew (renew : bytes → bytes → nat → K) (pod id : bytes) (gen : Z) : P unit :=
  _ ← sect_go (λ _ F, (f_next F, fresh_handle pod id gen F)) (λ h, [renew pod id h]);
  mret tt.
(** whether [h] was still the current one *)
Definition forget (pod id : bytes) (h : nat) : P bool :=
  current ← sect (λ _ F,
    if bool_decide (held_at pod id F = Some h) then (true, drop_held pod id F) else (false, F));
  _ ← pmodify (cancel_h h);
  mret current.
(** stop the loop, if [f] says so of its handle, and wait for it *)
Definition stop_if (f : nat → Fleet → bool) (pod id : bytes) : P unit :=
  h ← sect (λ _ F,
    match held_at pod id F with
    | Some h => if f h F then (Some h, drop_held pod id F) else (None, F)
    | None => (None, F)
    end);
  match h with
  | None => mret tt
  | Some h => _ ← pmodify (cancel_h h); wait_done h
  end.
Fixpoint each {A} (l : list A) (f : A → P unit) : P unit :=
  match l with [] => mret tt | x :: l' => _ ← f x; each l' f end.

(** ** The informer *)

Definition cache_event (e : watch_event Obj) (m : gmap bytes (Obj * Z)) : gmap bytes (Obj * Z) :=
  match e with Added n x => <[n := x]> m | Modified n _ x => <[n := x]> m | Deleted n _ => delete n m end.
Definition see (pod : bytes) (e : watch_event Obj) : Fleet → Fleet :=
  upd_pod pod (λ c, MkPod (c_held c) (S (c_cursor c)) (cache_event e (c_cache c)) (c_more c)).
Definition next_event (pod : bytes) : P (watch_event Obj) :=
  act (λ _ F, match f_watch F !! c_cursor (f_pods F pod) with
              | Some e => Some (e, see pod e F)
              | None => None
              end).
End Ops.
Arguments commit : clear implicits.
