(* ===== verification/KubeInv.v ===== *)
(** What the goroutines of a fleet may do to its objects, the invariant of a fleet, and
    what is true for ever once it is. *)
From S2P Require Export KubeFleet.
#[local] Open Scope Z_scope.

(** The objects of a fleet: who holds one, at which generation; what a goroutine,
    named by [K], may make of one, atomically ([gens]: the generations the
    renew loops were started for). A step between two states of an object
    advances its generation by one, or keeps it and its holder or clears the holder.
    [own_op]: the operations of a pod itself that end or renew its hold. *)
Class KubeMachine (Obj K : Type) := {
  key : bytes → bytes;
  holder : Obj → bytes;
  ogen : Obj → Z;
  obj_step : (nat → option Z) → K → bytes → option Obj → option Obj → Prop;
  renew_go : bytes → bytes → nat → K;
  (* the goroutines that are renew loops; what the others must be started with *)
  renews : K → option (bytes * bytes * nat);
  needs : K → Prop;
  own_op : K → bytes → bytes → Prop;
  step_gen : ∀ gens k n l l', obj_step gens k n (Some l) (Some l') →
    ogen l' = ogen l + 1 ∨ ogen l' = ogen l ∧ (holder l' = holder l ∨ holder l' = []);
  step_some : ∀ gens k n, ¬ obj_step gens k n None None;
  renews_go : ∀ pod id h, renews (renew_go pod id h) = Some (pod, id, h);
  needs_go : ∀ pod id h, needs (renew_go pod id h);
}.

Section Inv.
Context {Store Obj X Ev K : Type} {api : ObjApi Obj Store} {laws : ObjApiLaws Obj Store} {km : KubeMachine Obj K}.
Notation Fleet := (Fleet Store Obj X Ev).
Implicit Types F : Fleet.

(** ** Steps *)

Definition obj_at (n : bytes) (F : Fleet) : option Obj := fst <$> api_get (f_api F) n.
Definition commit_obj (c : commit Obj) : option Obj := match c with Put _ l => Some l | Del _ => None end.
Definition gens_of (F : Fleet) : nat → option Z := λ h, gen_of h F.

(** a step leaves the API server alone, or is one step of one object, which the watch tells *)
Definition moved (k : K) (F F' : Fleet) : Prop :=
  (f_api F' = f_api F ∧ f_watch F' = f_watch F) ∨
  ∃ c, f_api F' = committed c (f_api F) ∧ f_watch F' = f_watch F ++ watched c (f_api F) ∧
    obj_step (gens_of F) k (commit_name c) (obj_at (commit_name c) F) (commit_obj c).
Definition same_handle (x x' : heldLease) : Prop := h_pod x' = h_pod x ∧ h_id x' = h_id x ∧ h_gen x' = h_gen x.
Definition keeps_handles (F F' : Fleet) : Prop :=
  ∀ h x, f_held F !! h = Some x → ∃ x', f_held F' !! h = Some x' ∧ same_handle x x'.

(** ** The invariant *)

Definition ev_name (e : watch_event Obj) : bytes := match e with Added n _ => n | Modified n _ _ => n | Deleted n _ => n end.
Definition ev_new (e : watch_event Obj) : option (Obj * Z) :=
  match e with Added _ x => Some x | Modified _ _ x => Some x | Deleted _ _ => None end.
Definition undeleted (n : bytes) (F : Fleet) : Prop := ∀ e, e ∈ f_watch F → ev_name e = n → ev_new e ≠ None.
(** the watch has told that [p] held the object at generation [g] *)
Definition recorded (n : bytes) (g : Z) (p : bytes) (F : Fleet) : Prop :=
  p ≠ [] ∧ ∃ e x, e ∈ f_watch F ∧ ev_name e = n ∧ ev_new e = Some x ∧ holder (fst x) = p ∧ ogen (fst x) = g.
(** the watch has told that it was [l] *)
Definition was (n : bytes) (l : Obj) (F : Fleet) : Prop := ∃ e rv, e ∈ f_watch F ∧ ev_name e = n ∧ ev_new e = Some (l, rv).
(** who held it at generation [g] holds it no more *)
Definition gone (n : bytes) (g : Z) (F : Fleet) : Prop :=
  undeleted n F → ∃ l, obj_at n F = Some l ∧ (g < ogen l ∨ g = ogen l ∧ holder l = []).
(** version [rv] of the object is [l] *)
Definition knows (n : bytes) (l : Obj) (rv : Z) (F : Fleet) : Prop :=
  api_past (f_api F) n rv ∧ ∀ l', api_get (f_api F) n = Some (l', rv) → l' = l.

(** the objects a part of the watch tells of *)
Definition replay (es : list (watch_event Obj)) : gmap bytes (Obj * Z) := fold_left (λ m e, cache_event e m) es ∅.
Definition cache_ok (es : list (watch_event Obj)) (c : Pod Obj X) : Prop :=
  (c_cursor c ≤ length es)%nat ∧ c_cache c = replay (take (c_cursor c) es).

(** a pod keeps its hold but by its own operations, until it is gone *)
Definition keeps_held (k : K) (F F' : Fleet) : Prop :=
  ∀ pod id g, held_gen pod id F = Some g → held_gen pod id F' = Some g ∨ own_op k pod id ∨ gone (key id) g F'.

Record FleetOk (F : Fleet) : Prop := {
  fo_current : ∀ n l, obj_at n F = Some l → holder l ≠ [] → recorded n (ogen l) (holder l) F;
  fo_was : ∀ n l0, undeleted n F → was n l0 F →
    ∃ l, obj_at n F = Some l ∧ ogen l0 ≤ ogen l ∧ (ogen l0 = ogen l → holder l = [] ∨ holder l = holder l0);
  fo_unique : ∀ n g p q, undeleted n F → recorded n g p F → recorded n g q F → p = q;
  fo_held : ∀ pod id h, held_at pod id F = Some h →
    ∃ x, f_held F !! h = Some x ∧ h_pod x = pod ∧ h_id x = id ∧ recorded (key id) (h_gen x) pod F;
  fo_next : ∀ h x, f_held F !! h = Some x → (h < f_next F)%nat;
  fo_log : ∀ n, replay (f_watch F) !! n = api_get (f_api F) n;
  fo_known : ∀ e l rv, e ∈ f_watch F → ev_new e = Some (l, rv) → knows (ev_name e) l rv F;
  fo_cache : ∀ pod, cache_ok (f_watch F) (f_pods F pod);
}.

Lemma recorded_was n g p F : recorded n g p F → ∃ l, was n l F ∧ holder l = p ∧ ogen l = g.
Proof. intros (_ & e & [l rv] & He & En & Ex & Hh & Hg). exists l. split_and!; [|done..]. by exists e, rv. Qed.
Lemma fo_obj F n g p : FleetOk F → undeleted n F → recorded n g p F →
  ∃ l, obj_at n F = Some l ∧ g ≤ ogen l ∧ (g = ogen l → holder l = [] ∨ holder l = p).
Proof. intros Hok Hu (l & Hw & <- & <-)%recorded_was. by apply (fo_was _ Hok). Qed.
(** the version told last is the object *)
Lemma replay_was es n x : replay es !! n = Some x → ∃ e, e ∈ es ∧ ev_name e = n ∧ ev_new e = Some x.
Proof.
  induction es as [|e es IH] using rev_ind; [unfold replay; cbn; by rewrite lookup_empty|].
  unfold replay. rewrite fold_left_app. cbn [fold_left]. fold (replay es). intros Hx.
  assert (Hr : replay es !! n = Some x ∨ ev_name e = n ∧ ev_new e = Some x).
  { destruct e as [m y|m o y|m o]; cbn in *; [apply lookup_insert_Some in Hx|apply lookup_insert_Some in Hx|apply lookup_delete_Some in Hx];
      naive_solver. }
  destruct Hr as [Hr|Hr].
  - destruct (IH Hr) as (e' & He' & ?). exists e'. split; [|done]. apply elem_of_app. by left.
  - exists e. split; [|done]. apply elem_of_app. right. by apply list_elem_of_singleton.
Qed.
Lemma get_was F n l rv : FleetOk F → api_get (f_api F) n = Some (l, rv) → was n l F.
Proof.
  intros Hok. rewrite <- (fo_log _ Hok). intros (e & He & En & Ee)%replay_was. by exists e, rv.
Qed.
(** an object seen past generation [g], or not with its holder, is gone from it *)
Lemma was_gone F n l g p : FleetOk F → was n l F → recorded n g p F → g < ogen l ∨ g = ogen l ∧ holder l ≠ p → gone n g F.
Proof.
  intros Hok Hw Hr Hl Hu. destruct (fo_was _ Hok n l Hu Hw) as (r & Er & Hle & Heq).
  destruct (fo_obj F n g p Hok Hu Hr) as (r' & Er' & Hle' & Heq'). rewrite Er in Er'. injection Er' as <-.
  exists r. split; [done|]. destruct (decide (g = ogen r)) as [Eg|]; [right; split; [done|]|left; lia].
  destruct Hl as [Hl|[Hl Hp]]; [lia|]. destruct (Heq' Eg) as [|E]; [done|]. destruct (Heq ltac:(lia)) as [|E']; [done|]. congruence.
Qed.

(** so is one that is there no more, or not as it was held *)
Lemma lost_gone F n g p : FleetOk F → recorded n g p F →
  match api_get (f_api F) n with Some (l, _) => holder l ≠ p ∨ ogen l ≠ g | None => True end → gone n g F.
Proof.
  intros Hok Hr Hl Hu. destruct (fo_obj F n g p Hok Hu Hr) as (l & El & Hle & Heq). exists l. split; [done|].
  unfold obj_at in El. destruct (api_get _ _) as [[l' r]|]; [|done]. injection El as ->.
  destruct (decide (g = ogen l)) as [E|]; [right; split; [done|]|left; lia]. destruct (Heq E); [done|]. naive_solver.
Qed.

(** ** A write that lands *)

Lemma get_land_eq c (F : Fleet) : fst <$> api_get (committed c (f_api F)) (commit_name c) = commit_obj c.
Proof.
  destruct c as [n l|n]; cbn; [|by rewrite get_del]. by destruct (get_put (f_api F) n l) as (r & -> & _).
Qed.
Lemma get_land_ne c (F : Fleet) m : m ≠ commit_name c → api_get (committed c (f_api F)) m = api_get (f_api F) m.
Proof. intros Hne. destruct c as [n l|n]; cbn in *; by rewrite ?get_put_ne, ?get_del_ne by done. Qed.
Lemma obj_land_eq c (F : Fleet) : obj_at (commit_name c) (land c F) = commit_obj c.
Proof. apply get_land_eq. Qed.
Lemma obj_land_ne c (F : Fleet) m : m ≠ commit_name c → obj_at m (land c F) = obj_at m F.
Proof. intros Hne. unfold obj_at. cbn. by rewrite get_land_ne. Qed.

(** an event of a landed write is the object as it is now, or the deletion *)
Lemma watched_elem c s e : e ∈ watched c s → ev_name e = commit_name c ∧ ev_new e = api_get (committed c s) (commit_name c).
Proof.
  unfold watched. destruct (api_get s _) as [o|]; destruct (api_get (committed c s) _) as [x|]; intros He;
    first [apply list_elem_of_singleton in He as ->; done | by apply elem_of_nil in He].
Qed.
Lemma watched_one c s : api_get s (commit_name c) ≠ None ∨ api_get (committed c s) (commit_name c) ≠ None →
  ∃ e, watched c s = [e].
Proof.
  unfold watched. destruct (api_get s _) as [o|]; destruct (api_get (committed c s) _) as [x|]; eauto. by intros [?|?].
Qed.
Lemma replay_app es es' : replay (es ++ es') = fold_left (λ m e, cache_event e m) es' (replay es).
Proof. unfold replay. by rewrite fold_left_app. Qed.
Lemma cache_ok_app es es' c : cache_ok es c → cache_ok (es ++ es') c.
Proof. intros [Hl E]. split; [rewrite length_app; lia|]. by rewrite take_app_le. Qed.
(** the watch tells all that is written *)
Lemma log_land c (F : Fleet) : (∀ n, replay (f_watch F) !! n = api_get (f_api F) n) →
  ∀ n, replay (f_watch (land c F)) !! n = api_get (f_api (land c F)) n.
Proof.
  intros Hlog n. cbn [land f_watch f_api]. rewrite replay_app. unfold watched. specialize (Hlog n).
  destruct (decide (n = commit_name c)) as [->|Hne].
  - destruct (api_get (f_api F) _) as [o|]; destruct (api_get (committed c _) _) as [x|]; cbn [fold_left cache_event];
      rewrite ?lookup_insert_eq, ?lookup_delete_eq; done.
  - rewrite (get_land_ne c F n) by done. rewrite <- Hlog.
    destruct (api_get (f_api F) (commit_name c)) as [o|]; destruct (api_get (committed c _) (commit_name c)) as [x|]; cbn [fold_left cache_event];
      rewrite ?lookup_insert_ne, ?lookup_delete_ne by done; done.
Qed.
(** versions name one state of an object for ever *)
Lemma knows_get n l rv (F : Fleet) : api_get (f_api F) n = Some (l, rv) → knows n l rv F.
Proof. intros E. split; [by eapply get_past|]. intros l' E'. congruence. Qed.
Lemma knows_land c n l rv (F F' : Fleet) : f_api F' = committed c (f_api F) → knows n l rv F → knows n l rv F'.
Proof.
  intros E [Hp Hk]. unfold knows. rewrite E. destruct c as [m x|m]; cbn [committed].
  - split; [by apply past_put|]. intros l'. destruct (decide (m = n)) as [->|Hne].
    + destruct (get_put (f_api F) n x) as (r & -> & Hr). intros [= <- <-]. done.
    + rewrite get_put_ne by done. apply Hk.
  - split; [by apply past_del|]. intros l'. destruct (decide (m = n)) as [->|Hne].
    + by rewrite get_del.
    + rewrite get_del_ne by done. apply Hk.
Qed.

Lemma recorded_mono n g p (F F' : Fleet) : (∀ e, e ∈ f_watch F → e ∈ f_watch F') → recorded n g p F → recorded n g p F'.
Proof. intros Hs (Hp & e & x & He & Hr). split; [done|]. exists e, x. split; [by apply Hs|done]. Qed.
Lemma land_watch c (F : Fleet) e : e ∈ f_watch F → e ∈ f_watch (land c F).
Proof. intros He. cbn. apply elem_of_app. by left. Qed.
Lemma recorded_land c (F : Fleet) n g p : recorded n g p (land c F) →
  recorded n g p F ∨ n = commit_name c ∧ p ≠ [] ∧ ∃ l, commit_obj c = Some l ∧ holder l = p ∧ ogen l = g.
Proof.
  intros (Hp & e & x & He & En & El & Hh & Hg). cbn in He. apply elem_of_app in He as [He|He].
  - left. split; [done|]. by exists e, x.
  - right. destruct (watched_elem _ _ _ He) as [E1 E2]. split; [congruence|]. split; [done|]. exists (fst x). split_and!; [|done..].
    rewrite <- (get_land_eq c F), <- E2, El. done.
Qed.
Lemma undeleted_land c (F : Fleet) n : undeleted n (land c F) → undeleted n F.
Proof. intros Hu e He. by apply Hu, land_watch. Qed.

Section Land.
Context (k : K) (c : commit Obj) (F : Fleet) (Hok : FleetOk F)
        (Hstep : obj_step (gens_of F) k (commit_name c) (obj_at (commit_name c) F) (commit_obj c)).
Notation n := (commit_name c).

Lemma land_event : ∃ e, f_watch (land c F) = f_watch F ++ [e] ∧ ev_name e = n ∧ fst <$> ev_new e = commit_obj c.
Proof.
  destruct (watched_one c (f_api F)) as [e He].
  - destruct (api_get (f_api F) n) eqn:E1; [by left|]. destruct (api_get (committed c _) n) eqn:E2; [by right|].
    pose proof (get_land_eq c F) as E. rewrite E2 in E. unfold obj_at in Hstep. rewrite E1 in Hstep. cbn in *. rewrite <- E in Hstep.
    by apply step_some in Hstep.
  - exists e. cbn. rewrite He. split; [done|]. destruct (watched_elem c (f_api F) e) as [E1 E2].
    { rewrite He. by apply list_elem_of_singleton. }
    split; [done|]. rewrite E2. apply get_land_eq.
Qed.
Lemma land_recorded l : commit_obj c = Some l → holder l ≠ [] → recorded n (ogen l) (holder l) (land c F).
Proof.
  intros E Hl. split; [done|]. destruct land_event as (e & Ew & En & Ee). rewrite E in Ee.
  destruct (ev_new e) as [x|] eqn:Ex; [|done]. injection Ee as Ee. exists e, x. rewrite Ew. split_and!; [|done|done|by rewrite Ee..].
  apply elem_of_app. right. by apply list_elem_of_singleton.
Qed.
Lemma land_undeleted : undeleted n (land c F) → commit_obj c ≠ None.
Proof.
  intros Hu. destruct land_event as (e & Ew & En & Ee). rewrite <- Ee. intros E. apply (Hu e); [|done|by destruct (ev_new e)].
  rewrite Ew. apply elem_of_app. right. by apply list_elem_of_singleton.
Qed.
(** what was told of the object says this of it now *)
Lemma land_was l0 : undeleted n (land c F) → was n l0 (land c F) →
  ∃ l, commit_obj c = Some l ∧ ogen l0 ≤ ogen l ∧ (ogen l0 = ogen l → holder l = [] ∨ holder l = holder l0).
Proof.
  intros Hu (e & rv & He & En & Ee). pose proof (land_undeleted Hu) as Hne. destruct (commit_obj c) as [l|] eqn:Ec; [|done].
  exists l. split; [done|]. cbn in He. apply elem_of_app in He as [He|He].
  - destruct (fo_was _ Hok n l0 (undeleted_land _ _ _ Hu)) as (l1 & E1 & Hle & Heq); [by exists e, rv|].
    rewrite E1 in Hstep. destruct (step_gen _ _ _ _ _ Hstep) as [Eg|[Eg Ehh]]; [split; lia|].
    split; [lia|]. intros E. destruct (Heq ltac:(lia)) as [E2|E2]; destruct Ehh as [E3|E3]; rewrite E3, ?E2; auto.
  - destruct (watched_elem _ _ _ He) as [_ E]. rewrite Ee in E. pose proof (get_land_eq c F) as El. rewrite <- E, Ec in El.
    injection El as ->. split; [lia|auto].
Qed.
Lemma land_obj g p : undeleted n (land c F) → recorded n g p (land c F) →
  ∃ l, commit_obj c = Some l ∧ g ≤ ogen l ∧ (g = ogen l → holder l = [] ∨ holder l = p).
Proof. intros Hu (l & Hw & <- & <-)%recorded_was. by apply land_was. Qed.
Lemma land_unique m g p q : undeleted m (land c F) → recorded m g p (land c F) → recorded m g q (land c F) → p = q.
Proof.
  intros Hu Hp Hq. pose proof (undeleted_land _ _ _ Hu) as Hu0. destruct (decide (m = n)) as [->|Hne].
  - destruct (recorded_land _ _ _ _ _ Hp) as [Hp0|(_ & Hpn & l1 & E1 & Hh1 & Hg1)];
    destruct (recorded_land _ _ _ _ _ Hq) as [Hq0|(_ & Hqn & l2 & E2 & Hh2 & Hg2)].
    + by apply (fo_unique _ Hok n g).
    + destruct (land_obj g p Hu Hp) as (l & El & _ & Heq). rewrite El in E2. injection E2 as <-.
      destruct (Heq (eq_sym Hg2)) as [E|E]; congruence.
    + destruct (land_obj g q Hu Hq) as (l & El & _ & Heq). rewrite El in E1. injection E1 as <-.
      destruct (Heq (eq_sym Hg1)) as [E|E]; congruence.
    + congruence.
  - apply recorded_land in Hp as [Hp|[? _]]; [|done]. apply recorded_land in Hq as [Hq|[? _]]; [|done].
    by apply (fo_unique _ Hok m g p q).
Qed.

(** an object's step keeps what the watch tells of generations *)
Lemma FleetOk_land : FleetOk (land c F).
Proof.
  assert (Hmono : ∀ m g p, recorded m g p F → recorded m g p (land c F)).
  { intros m g p. apply recorded_mono, land_watch. }
  constructor.
  - intros m l El Hl. destruct (decide (m = n)) as [->|Hne].
    + rewrite obj_land_eq in El. by apply land_recorded.
    + rewrite obj_land_ne in El by done. by apply Hmono, (fo_current _ Hok).
  - intros m l0 Hu Hw. destruct (decide (m = n)) as [->|Hne].
    + rewrite obj_land_eq. by apply land_was.
    + rewrite obj_land_ne by done. apply (fo_was _ Hok m l0 (undeleted_land _ _ _ Hu)).
      destruct Hw as (e & rv & He & En & Ee). exists e, rv. split_and!; [|done..]. cbn in He. apply elem_of_app in He as [He|He]; [done|].
      destruct (watched_elem _ _ _ He) as [E _]. congruence.
  - intros m g p q. apply land_unique.
  - intros pod id h Hh. destruct (fo_held _ Hok pod id h Hh) as (x & ? & ? & ? & Hr). exists x. split_and!; [done..|].
    by apply Hmono.
  - apply (fo_next _ Hok).
  - apply log_land, (fo_log _ Hok).
  - intros e l rv He Ee. cbn in He. apply elem_of_app in He as [He|He].
    + apply (knows_land c _ _ _ F); [done|]. by apply (fo_known _ Hok).
    + destruct (watched_elem _ _ _ He) as [En E]. apply knows_get. rewrite En. cbn. by rewrite <- E.
  - intros pod. cbn. apply cache_ok_app, (fo_cache _ Hok).
Qed.
End Land.
End Inv.
