(* ===== verification/KubeRules.v ===== *)
(** A logic for the goroutines of a fleet. What one learns stays true whatever the
    others do ([eternal]: a resource version names one state of an object for ever);
    a write under what was read is one step of the object it was read from. *)
From S2P Require Export KubeInv.
#[local] Open Scope Z_scope.

Section Rules.
Context {Store Obj X Ev K : Type} {api : ObjApi Obj Store} {laws : ObjApiLaws Obj Store} {km : KubeMachine Obj K}.
Notation Fleet := (Fleet Store Obj X Ev).
Notation P := (prog cans Fleet K).
Implicit Types F : Fleet.

Definition G (k : K) (F F' : Fleet) : Prop := moved k F F' ∧ keeps_handles F F' ∧ keeps_held k F F'.
Definition own (k : K) : option Empty_set := None.
Definition used (F : Fleet) (t : Empty_set) : Prop := True.
Definition handle (h : nat) (pod id : bytes) (gen : Z) (F : Fleet) : Prop :=
  ∃ x, f_held F !! h = Some x ∧ h_pod x = pod ∧ h_id x = id ∧ h_gen x = gen ∧ recorded (key id) gen pod F.
Definition pre (k : K) (F : Fleet) : Prop :=
  needs k ∧ ∀ pod id h, renews k = Some (pod, id, h) → ∃ gen, handle h pod id gen F.
Notation fleet_wp := (wp FleetOk G own used pre).

(** ** What stays true *)

Definition eternal (A : Fleet → Prop) : Prop := ∀ k F F', FleetOk F → G k F F' → A F → A F'.
Lemma eternal_rtc k A F F' : eternal A → rtc (rely FleetOk G own k) F F' → A F → A F'.
Proof. intros HA. induction 1 as [|F F1 F' (Hok & _ & k' & _ & _ & Hg) _ IH]; [done|]. intros H. by apply IH, (HA k' F). Qed.
Lemma eternal_and A B : eternal A → eternal B → eternal (λ F, A F ∧ B F).
Proof. intros HA HB k F F' Hok Hg [? ?]. split; [by apply (HA k F)|by apply (HB k F)]. Qed.
Lemma eternal_pure (Y : Prop) : eternal (λ _, Y).
Proof. by intros k F F' _ _ ?. Qed.
Lemma moved_watch k F F' : G k F F' → ∀ e, e ∈ f_watch F → e ∈ f_watch F'.
Proof. intros [[[_ ->]|(c & _ & -> & _)] _] e He; [done|]. apply elem_of_app. by left. Qed.
Lemma eternal_recorded n g p : eternal (recorded n g p).
Proof. intros k F F' _ Hm. apply recorded_mono. by eapply moved_watch. Qed.
Lemma eternal_handle h pod id gen : eternal (handle h pod id gen).
Proof.
  intros k F F' Hok Hg (x & Hx & Hp & Hi & Hgen & Hr). destruct (proj1 (proj2 Hg) h x Hx) as (x' & Hx' & E1 & E2 & E3).
  exists x'. split_and!; [done|congruence..|]. by apply (eternal_recorded _ _ _ k F).
Qed.
Lemma eternal_pre k : eternal (pre k).
Proof.
  intros k' F F' Hok Hg [Hn Hh]. split; [done|]. intros pod id h E. destruct (Hh pod id h E) as [gen Hgen]. exists gen.
  by apply (eternal_handle _ _ _ _ k' F).
Qed.
Lemma eternal_told e : eternal (λ F, e ∈ f_watch F).
Proof. intros k F F' _ Hm. by eapply moved_watch. Qed.
Lemma eternal_was n l : eternal (was n l).
Proof. intros k F F' _ Hm (e & rv & He & ?). exists e, rv. split; [by eapply moved_watch|done]. Qed.
Lemma eternal_gone n g : eternal (gone n g).
Proof.
  intros k F F' _ Hg Hgone Hu. assert (Hu0 : undeleted n F) by (intros e He; by apply Hu, (moved_watch k F F' Hg)).
  destruct (Hgone Hu0) as (l & El & Hl). destruct Hg as [[[E _]|(c & E & Ew & Hs)] _].
  { exists l. unfold obj_at in *. by rewrite E. }
  destruct (decide (n = commit_name c)) as [->|Hne].
  - assert (Hu' : undeleted (commit_name c) (land c F)) by (intros e He; apply Hu; by rewrite Ew).
    pose proof (land_undeleted k c F Hs Hu') as Hne. pose proof (get_land_eq c F) as Ec. unfold obj_at. rewrite E, Ec.
    destruct (commit_obj c) as [l'|] eqn:Ec'; [|done]. exists l'. split; [done|]. rewrite El in Hs.
    destruct (step_gen _ _ _ _ _ Hs) as [Hgen|[Hgen Hh]]; [left; lia|]. rewrite Hgen. destruct Hl as [Hl|[Hl El']]; [by left|].
    right. split; [done|]. destruct Hh as [Hh|Hh]; congruence.
  - exists l. unfold obj_at in *. by rewrite E, (get_land_ne c F n) by done.
Qed.
Lemma eternal_knows n l rv : eternal (knows n l rv).
Proof.
  intros k F F' _ [[[E _]|(c & E & _)] _]; [by unfold knows; rewrite E|]. by apply (knows_land c).
Qed.

(** ** The rules *)

Definition hoare {A} (k : K) (A1 : Fleet → Prop) (p : P A) (Q : A → Fleet → Prop) : Prop :=
  ∀ F, FleetOk F → A1 F → fleet_wp k p (λ a F', FleetOk F' ∧ Q a F') F.

Lemma fhoare_ret {A} k (A1 : Fleet → Prop) (a : A) (Q : A → Fleet → Prop) : (∀ F, FleetOk F → A1 F → Q a F) → hoare k A1 (mret a) Q.
Proof. intros HQ F Hok H. cbn. split; [done|]. by apply HQ. Qed.
Lemma fhoare_bind {A B} k A1 (p : P A) (h : A → P B) M Q :
  hoare k A1 p M → (∀ a, hoare k (M a) (h a) Q) → hoare k A1 (p ≫= h) Q.
Proof.
  intros Hp Hh F Hok H. apply wp_bind. eapply wp_mono; [|by apply Hp]. intros a F' [? HM]. by apply Hh.
Qed.
Lemma fhoare_conseq {A} k (A1 A2 : Fleet → Prop) (p : P A) (Q Q' : A → Fleet → Prop) :
  (∀ F, FleetOk F → A1 F → A2 F) → (∀ a F, FleetOk F → Q a F → Q' a F) → hoare k A2 p Q → hoare k A1 p Q'.
Proof.
  intros H1 H2 Hp F Hok H. eapply wp_mono; [|apply Hp; [done|by apply H1]]. intros a F' [? HQ]. split; [done|]. by apply H2.
Qed.
Lemma fhoare_pre {A} k A1 A2 (p : P A) (Q : A → Fleet → Prop) :
  (∀ F, FleetOk F → A1 F → A2 F) → hoare k A2 p Q → hoare k A1 p Q.
Proof. intros H. by apply fhoare_conseq. Qed.
Lemma fhoare_post {A} k A1 (p : P A) (Q Q' : A → Fleet → Prop) :
  (∀ a F, FleetOk F → Q a F → Q' a F) → hoare k A1 p Q → hoare k A1 p Q'.
Proof. intros H. by apply fhoare_conseq. Qed.
Lemma fhoare_pure {A} k A1 (Y : Prop) (p : P A) Q : (Y → hoare k A1 p Q) → hoare k (λ F, A1 F ∧ Y) p Q.
Proof. intros Hp F Hok [H HX]. by apply Hp. Qed.

(** what a step of [k] may be, and the goroutines it starts *)
Definition fine (k : K) (F F' : Fleet) : Prop := FleetOk F' ∧ G k F F'.
Lemma fhoare_act {B} k A1 (f : cans → Fleet → option (B * Fleet)) sp Q : eternal A1 →
  (∀ a F b F', FleetOk F → A1 F → f a F = Some (b, F') →
     fine k F F' ∧ Forall (λ k', pre k' F') (sp b) ∧ Q b F') →
  hoare k A1 (Act f sp (λ b, Ret b)) (λ b F, A1 F ∧ Q b F).
Proof.
  intros HA Hf F Hok H. cbn. intros F1 Hr Hok1 a b F2 E.
  assert (H1 : A1 F1) by by apply (eternal_rtc k A1 F).
  destruct (Hf a F1 b F2 Hok1 H1 E) as ([Hok2 Hg] & Hsp & HQ).
  split_and!; try done.
  - eapply Forall_impl; [exact Hsp|]. intros k' Hk'. by split.
  - clear. induction (sp b); [constructor|]. cbn. done.
  - by apply (HA k F1).
Qed.
Lemma fhoare_sect {B} k A1 (f : cans → Fleet → B * Fleet) Q : eternal A1 →
  (∀ a F, FleetOk F → A1 F → fine k F (snd (f a F)) ∧ Q (fst (f a F)) (snd (f a F))) →
  hoare k A1 (sect f) (λ b F, A1 F ∧ Q b F).
Proof.
  intros HA Hf. apply fhoare_act; [done|]. intros a F b F' Hok H [= E]. destruct (Hf a F Hok H) as [? ?].
  rewrite E in *. split_and!; [done..|constructor|done].
Qed.

(** ** Steps that leave the API server alone *)

Definition quiet (k : K) (F F' : Fleet) : Prop :=
  f_api F' = f_api F ∧ f_watch F' = f_watch F ∧ keeps_handles F F' ∧ keeps_held k F F' ∧
  (∀ h x, f_held F' !! h = Some x → (h < f_next F')%nat) ∧
  (∀ pod id h, held_at pod id F' = Some h → held_at pod id F = Some h ∨
     ∃ x, f_held F' !! h = Some x ∧ h_pod x = pod ∧ h_id x = id ∧ recorded (key id) (h_gen x) pod F) ∧
  (∀ pod, cache_ok (f_watch F) (f_pods F pod) → cache_ok (f_watch F) (f_pods F' pod)).
Lemma same_recorded F F' n g p : f_watch F' = f_watch F → recorded n g p F' ↔ recorded n g p F.
Proof. intros E. unfold recorded. by rewrite E. Qed.
Lemma quiet_fine k F F' : FleetOk F → quiet k F F' → fine k F F'.
Proof.
  intros Hok (Ea & Ew & Hk & Hd & Hn & Hh & Hc).
  assert (Er : ∀ n g p, recorded n g p F' ↔ recorded n g p F) by (intros; by apply same_recorded).
  assert (Eu : ∀ n, undeleted n F' ↔ undeleted n F) by (intros; unfold undeleted; by rewrite Ew).
  assert (El : ∀ n, obj_at n F' = obj_at n F) by (intros; unfold obj_at; by rewrite Ea).
  split; [|by split_and!; [left|..]]. constructor.
  - intros n l. rewrite El, Er. apply (fo_current _ Hok).
  - intros n l0. unfold was. rewrite El, Ew, Eu. apply (fo_was _ Hok).
  - intros n g p q. rewrite !Er, Eu. apply (fo_unique _ Hok).
  - intros pod id h H. destruct (Hh pod id h H) as [H0|(x & ? & ? & ? & Hr)]; [|exists x; by rewrite Er].
    destruct (fo_held _ Hok pod id h H0) as (x & Hx & ? & ? & Hr). destruct (Hk h x Hx) as (x' & Hx' & ? & ? & E).
    exists x'. rewrite Er, E. split_and!; congruence.
  - exact Hn.
  - intros n. rewrite Ew, Ea. apply (fo_log _ Hok).
  - intros e l rv. rewrite Ew. unfold knows. rewrite Ea. apply (fo_known _ Hok).
  - intros pod. rewrite Ew. apply Hc, (fo_cache _ Hok).
Qed.
Lemma keeps_refl (F F' : Fleet) : f_held F' = f_held F → keeps_handles F F'.
Proof. intros E h x Hx. exists x. rewrite E. by repeat split. Qed.
Lemma holds_same k (F F' : Fleet) : (∀ pod id, held_gen pod id F' = held_gen pod id F) → keeps_held k F F'.
Proof. intros E pod id g Hg. left. by rewrite E. Qed.
Lemma quiet_same k F : FleetOk F → quiet k F F.
Proof. intros Hok. split_and!; try done; [by apply keeps_refl|by apply holds_same|apply (fo_next _ Hok)|auto]. Qed.
Lemma held_drop pod id pod' id' (F : Fleet) : held_at pod id (drop_held pod' id' F) =
  if bool_decide (pod = pod' ∧ id = id') then None else held_at pod id F.
Proof.
  unfold held_at, drop_held, upd_pod. cbn. destruct (decide (pod = pod')) as [->|Hne].
  - rewrite bool_decide_eq_true_2 by done. cbn. destruct (decide (id = id')) as [->|Hne].
    + rewrite bool_decide_eq_true_2 by done. apply lookup_delete_eq.
    + rewrite bool_decide_eq_false_2 by tauto. by rewrite lookup_delete_ne.
  - rewrite !bool_decide_eq_false_2 by tauto. done.
Qed.
Lemma quiet_drop k F pod id : FleetOk F → (∀ g, held_gen pod id F = Some g → own_op k pod id ∨ gone (key id) g F) →
  quiet k F (drop_held pod id F).
Proof.
  intros Hok Hd. split_and!; try done; [by apply keeps_refl| |apply (fo_next _ Hok)| |].
  - intros p i g Hg. unfold held_gen. rewrite held_drop. destruct (bool_decide_reflect (p = pod ∧ i = id)) as [[-> ->]|_]; [|by left].
    right. by apply Hd.
  - intros p i h Hh. left. rewrite held_drop in Hh. by case_bool_decide.
  - intros p. cbn. by case_bool_decide.
Qed.
Lemma quiet_handle k F f h : FleetOk F → (∀ x, same_handle x (f x)) → quiet k F (set_f_held (alter f h) F).
Proof.
  intros Hok Hf. split_and!; try done; [| | |auto].
  - intros h' x Hx. cbn. destruct (decide (h' = h)) as [->|Hne].
    + exists (f x). by rewrite lookup_alter_eq, Hx.
    + exists x. by rewrite lookup_alter_ne, Hx.
  - apply holds_same. intros pod id. unfold held_gen, gen_of, held_at. cbn. destruct (c_held _ !! id) as [h'|]; [|done]. cbn.
    destruct (decide (h' = h)) as [->|Hne]; [|by rewrite lookup_alter_ne].
    rewrite lookup_alter_eq. destruct (f_held F !! h) as [x|]; [|done]. cbn. by destruct (Hf x) as (_ & _ & ->).
  - intros h' x. cbn. destruct (decide (h' = h)) as [->|Hne].
    + rewrite lookup_alter_eq. intros (y & Hy & _)%fmap_Some. by apply (fo_next _ Hok h y).
    + rewrite lookup_alter_ne by done. apply (fo_next _ Hok).
Qed.
Lemma quiet_cancel k F h : FleetOk F → quiet k F (cancel_h h F).
Proof. intros Hok. by apply quiet_handle. Qed.
Lemma quiet_done k F h : FleetOk F → quiet k F (done_h h F).
Proof. intros Hok. by apply quiet_handle. Qed.
Lemma quiet_pod k F pod f : FleetOk F → (∀ c, c_held (f c) = c_held c) →
  (cache_ok (f_watch F) (f_pods F pod) → cache_ok (f_watch F) (f (f_pods F pod))) → quiet k F (upd_pod pod f F).
Proof.
  intros Hok Hf Hc.
  assert (Eh : ∀ p i, held_at p i (upd_pod pod f F) = held_at p i F).
  { intros p i. unfold held_at. cbn. case_bool_decide; by rewrite ?Hf. }
  split_and!; try done; [by apply keeps_refl| |apply (fo_next _ Hok)| |].
  - apply holds_same. intros p i. unfold held_gen. by rewrite Eh.
  - intros p i h. rewrite Eh. auto.
  - intros p. cbn. case_bool_decide; [subst; apply Hc|done].
Qed.
Lemma quiet_emit k F e : FleetOk F → quiet k F (emit_ e F).
Proof. intros Hok. split_and!; try done; [by apply keeps_refl|by apply holds_same|apply (fo_next _ Hok)|auto]. Qed.

(** programs of such steps: by [k], by any goroutine *)
Definition keeps {A} (k : K) (p : P A) : Prop := ∀ A1, eternal A1 → hoare k A1 p (λ _, A1).
Definition keep {A} (p : P A) : Prop := ∀ k, keeps k p.
Lemma keep_keeps {A} k (p : P A) : keep p → keeps k p.
Proof. intros Hp. apply Hp. Qed.
Lemma fhoare_skip {A B} k A1 (p : P A) (h : A → P B) Q :
  eternal A1 → keeps k p → (∀ a, hoare k A1 (h a) Q) → hoare k A1 (p ≫= h) Q.
Proof. intros Hs Hp Hh. eapply fhoare_bind; [by apply Hp|done]. Qed.
Lemma fkeeps_bind {A B} k (p : P A) (h : A → P B) : keeps k p → (∀ a, keeps k (h a)) → keeps k (p ≫= h).
Proof. intros Hp Hh A1 Hs. apply fhoare_skip; [done..|]. intros a. by apply Hh. Qed.
Lemma fkeeps_ret {A} k (a : A) : keeps k (mret a).
Proof. intros A1 _. by apply fhoare_ret. Qed.
Lemma fkeeps_act {B} k (f : cans → Fleet → option (B * Fleet)) :
  (∀ a F b F', FleetOk F → f a F = Some (b, F') → quiet k F F') → keeps k (act f).
Proof.
  intros Hf A1 Hs. eapply fhoare_conseq; [done| |apply (fhoare_act k A1 f (λ _, []) (λ _ _, True)); [done|]].
  - by intros b F _ [? _].
  - intros a F b F' Hok H E. split_and!; [by eapply quiet_fine, Hf|constructor|done].
Qed.
Lemma fkeeps_sect {B} k (f : cans → Fleet → B * Fleet) : (∀ a F, FleetOk F → quiet k F (snd (f a F))) → keeps k (sect f).
Proof. intros Hf. apply fkeeps_act. intros a F b F' Hok [= E]. pose proof (Hf a F Hok) as Hq. by rewrite E in Hq. Qed.
Lemma fkeep_ret {A} (a : A) : keep (mret a).
Proof. intros k. apply fkeeps_ret. Qed.
Lemma fkeep_bind {A B} (p : P A) (h : A → P B) : keep p → (∀ a, keep (h a)) → keep (p ≫= h).
Proof. intros Hp Hh k. apply fkeeps_bind; [done|]. intros a. apply Hh. Qed.
Lemma fkeep_pgets {B} (f : Fleet → B) : keep (pgets f).
Proof. intros k. apply fkeeps_sect. intros a F Hok. by apply quiet_same. Qed.
Lemma fkeep_pmodify f : (∀ k F, FleetOk F → quiet k F (f F)) → keep (pmodify f).
Proof. intros Hf k. apply fkeeps_sect. intros a F. apply Hf. Qed.
Lemma fkeep_Now : keep Now.
Proof. intros k. apply fkeeps_sect. intros a F Hok. by apply quiet_same. Qed.
Lemma fkeep_Get n : keep (api_Get n).
Proof. intros k. apply fkeeps_sect. intros a F Hok. by apply quiet_same. Qed.
Lemma fkeep_List sel : keep (api_List sel).
Proof. intros k. apply fkeeps_sect. intros a F Hok. by apply quiet_same. Qed.
Lemma fkeep_wait h : keep (wait_done h).
Proof. intros k. apply fkeeps_act. intros a F b F' Hok. case_match; intros [= <- <-]. by apply quiet_same. Qed.
Lemma fkeep_emit e : keep (pmodify (emit_ e)).
Proof. apply fkeep_pmodify. intros k F. apply quiet_emit. Qed.
Lemma fkeep_cancel h : keep (pmodify (cancel_h h)).
Proof. apply fkeep_pmodify. intros k F. apply quiet_cancel. Qed.
Lemma fkeep_done h : keep (pmodify (done_h h)).
Proof. apply fkeep_pmodify. intros k F. apply quiet_done. Qed.
Lemma fkeep_more pod f : keep (pmodify (upd_pod pod (set_c_more f))).
Proof. apply fkeep_pmodify. intros k F Hok. by apply quiet_pod. Qed.
Lemma fkeeps_stop k f pod id : own_op k pod id → keeps k (stop_if f pod id).
Proof.
  intros Ho. unfold stop_if. apply fkeeps_bind.
  - apply fkeeps_sect. intros a F Hok. destruct (held_at _ _ _); [|by apply quiet_same].
    destruct (f _ _); [apply quiet_drop; [done|by left]|by apply quiet_same].
  - intros [h|]; [|apply fkeeps_ret]. apply fkeeps_bind; [apply fkeep_cancel|intros; apply fkeep_wait].
Qed.
(** a loop forgets what is gone *)
Lemma hoare_forget_gone k A1 pod id h g : eternal A1 → (∀ F, A1 F → handle h pod id g F) → (∀ F, A1 F → gone (key id) g F) →
  hoare k A1 (forget pod id h) (λ _, A1).
Proof.
  intros Hs Hh Hg. unfold forget. eapply fhoare_bind with (M := λ _ F, A1 F ∧ True).
  - apply fhoare_sect; [done|]. intros a F Hok H. split; [|done]. apply quiet_fine; [done|].
    case_bool_decide as E; [|by apply quiet_same]. apply quiet_drop; [done|]. intros g' Hg'. right.
    destruct (Hh F H) as (x & Hx & _ & _ & Egen & _). unfold held_gen, gen_of in Hg'. rewrite E in Hg'. cbn in Hg'.
    rewrite Hx in Hg'. cbn in Hg'. injection Hg' as <-. rewrite Egen. by apply Hg.
  - intros cur. eapply fhoare_pre with (A2 := A1); [by intros F _ [? _]|].
    apply fhoare_skip; [done|apply fkeep_cancel|]. intros _. by apply fhoare_ret.
Qed.
Lemma fhoare_next k A1 pod : eternal A1 → hoare k A1 (next_event pod) (λ e F, A1 F ∧ e ∈ f_watch F).
Proof.
  intros Hs. unfold next_event. apply fhoare_act; [done|]. intros a F b F' Hok _.
  destruct (f_watch F !! _) as [e|] eqn:E; [|done]. intros [= <- <-]. split_and!; [|constructor|by apply list_elem_of_lookup_2 in E].
  apply quiet_fine; [done|]. apply quiet_pod; [done..|]. intros [_ Hc]. split; cbn [c_cursor c_cache]; [by apply lookup_lt_Some in E|].
  rewrite (take_S_r _ _ _ E), replay_app. cbn. by rewrite Hc.
Qed.
Lemma fkeep_next pod : keep (next_event pod).
Proof. intros k A1 Hs. eapply fhoare_post; [|by apply fhoare_next]. by intros e F _ [? _]. Qed.

(** ** Calls of the API *)

Lemma fhoare_Get_then k A1 n (Q : option Obj → Fleet → Prop) : eternal A1 →
  (∀ F, FleetOk F → A1 F → Q (obj_at n F) F) →
  hoare k A1 (api_Get n) (λ r F, A1 F ∧ match r with
    | Ok (l, rv) => knows n l rv F ∧ Q (Some l) F
    | Err e => e = apiNotFound → Q None F
    | Fault => True
    end).
Proof.
  intros Hs HQ. apply fhoare_sect; [done|]. intros a F Hok H. split; [by apply quiet_fine, quiet_same|]. cbn.
  destruct (a_fault a); [|done..]. specialize (HQ F Hok H). unfold obj_at in HQ.
  destruct (api_get _ _) as [[l rv]|] eqn:E; [|done]. split; [by apply knows_get|done].
Qed.
Lemma fhoare_Get k A1 n : eternal A1 →
  hoare k A1 (api_Get n) (λ r F, A1 F ∧ ∀ l rv, r = Ok (l, rv) → knows n l rv F).
Proof.
  intros Hs. eapply fhoare_post; [|by apply (fhoare_Get_then k A1 n (λ _ _, True))].
  intros r F _ [? Hr]. split; [done|]. intros l rv ->. apply Hr.
Qed.
(** what a renew loop reads *)
Definition lost_seen (id pod : bytes) (g : Z) (o : option Obj) (F : Fleet) : Prop :=
  match o with Some l => holder l ≠ pod ∨ ogen l ≠ g | None => True end → gone (key id) g F.
Lemma fhoare_Get_held k A1 h pod id g : eternal A1 → (∀ F, A1 F → handle h pod id g F) →
  hoare k A1 (api_Get (key id)) (λ r F, A1 F ∧ match r with
    | Ok (l, rv) => knows (key id) l rv F ∧ lost_seen id pod g (Some l) F
    | Err e => e = apiNotFound → lost_seen id pod g None F
    | Fault => True
    end).
Proof.
  intros Hs Hh. apply fhoare_Get_then; [done|]. intros F Hok H Hl. destruct (Hh F H) as (x & _ & _ & _ & _ & Hr).
  apply (lost_gone F _ g pod Hok Hr). unfold obj_at in Hl. by destruct (api_get _ _) as [[l rv]|].
Qed.

Definition listed (sel : Obj → bool) (F : Fleet) (x : bytes * (Obj * Z)) : Prop :=
  sel (fst (snd x)) = true ∧ knows (fst x) (fst (snd x)) (snd (snd x)) F.
Lemma eternal_listed sel xs : eternal (λ F, Forall (listed sel F) xs).
Proof.
  intros k F F' Hok Hg Hxs. eapply Forall_impl; [exact Hxs|]. intros x [? ?]. split; [done|]. by apply (eternal_knows _ _ _ k F).
Qed.
Lemma fhoare_List k A1 sel : eternal A1 →
  hoare k A1 (api_List sel) (λ r F, A1 F ∧ ∀ xs, r = Ok xs → Forall (listed sel F) xs).
Proof.
  intros Hs. apply fhoare_sect; [done|]. intros a F Hok _. split; [by apply quiet_fine, quiet_same|]. cbn.
  intros xs. destruct (a_fault a); [|done..]. intros [= <-]. apply Forall_forall. intros [n [l rv]] Hx.
  apply list_elem_of_In, filter_In in Hx as [Hx Hsel]. split; [done|]. apply knows_get, list_get. by apply list_elem_of_In.
Qed.
(** what the cache holds are versions that were *)
Lemma cached_listed pod F xs : FleetOk F → xs = map_to_list (c_cache (f_pods F pod)) → Forall (listed (λ _, true) F) xs.
Proof.
  intros Hok ->. apply Forall_forall. intros [n [l rv]] Hx. split; [done|]. cbn. apply elem_of_map_to_list in Hx.
  destruct (fo_cache _ Hok pod) as [_ E]. rewrite E in Hx. apply replay_was in Hx as (e & He & <- & Ee).
  apply (fo_known _ Hok); [|done]. rewrite <- (take_drop (c_cursor (f_pods F pod)) (f_watch F)). apply elem_of_app. by left.
Qed.

(** a write whose condition the API server judges *)
Lemma fhoare_write k A1 check c : eternal A1 →
  (∀ F, FleetOk F → A1 F → check (f_api F) = None →
    obj_step (gens_of F) k (commit_name c) (obj_at (commit_name c) F) (commit_obj c)) →
  hoare k A1 (api_write check c) (λ r F, A1 F ∧ (r = Ok tt → ∀ l, commit_obj c = Some l → holder l ≠ [] →
    recorded (commit_name c) (ogen l) (holder l) F)).
Proof.
  intros Hs Hc. apply fhoare_sect; [done|]. intros a F Hok H.
  assert (Hq : fine k F F) by by apply quiet_fine, quiet_same.
  assert (Hl : check (f_api F) = None → fine k F (land c F)).
  { intros E. split; [by apply (FleetOk_land k c F Hok (Hc F Hok H E))|]. split_and!; [|by apply keeps_refl|by apply holds_same].
    right. exists c. auto. }
  destruct (a_fault a); destruct (check (f_api F)) as [e|] eqn:E; cbn; (split; [by auto|]); try done.
  intros _ l El Hh. pose proof (FleetOk_land k c F Hok (Hc F Hok H E)) as Hok'.
  apply (fo_current _ Hok'); [|done]. rewrite <- El. apply obj_land_eq.
Qed.
Lemma current_knows F n l rv : knows n l rv F → current n rv (f_api F) = None → obj_at n F = Some l.
Proof.
  unfold current, obj_at. intros [_ Hk]. destruct (api_get _ _) as [[l' r]|]; [|done].
  destruct (Z.eqb_spec r rv) as [->|]; [|done]. intros _. cbn. by rewrite (Hk l' eq_refl).
Qed.
Lemma absent_obj (F : Fleet) n : absent n (f_api F) = None → obj_at n F = None.
Proof. unfold absent, obj_at. by destruct (api_get _ _) as [[? ?]|]. Qed.
Lemma present_obj (F : Fleet) n : present n (f_api F) = None → ∃ l, obj_at n F = Some l.
Proof. unfold present, obj_at. destruct (api_get _ _) as [[l ?]|]; [by exists l|done]. Qed.

(** an update of what was read is one step of the object *)
Lemma fhoare_Update k A1 n l rv l' : eternal A1 →
  (∀ F, FleetOk F → A1 F → obj_step (gens_of F) k n (Some l) (Some l')) →
  hoare k (λ F, A1 F ∧ knows n l rv F) (Update n rv l')
    (λ r F, A1 F ∧ (r = Ok tt → holder l' ≠ [] → recorded n (ogen l') (holder l') F)).
Proof.
  intros Hs Hl. eapply fhoare_post; [|apply (fhoare_write k _ (current n rv) (Put n l'))].
  - intros r F _ [[? _] Hr]. split; [done|]. intros E Hh. by apply (Hr E l').
  - apply eternal_and; [done|apply eternal_knows].
  - intros F Hok [H Hk] E. cbn [commit_name commit_obj]. rewrite (current_knows F n l rv Hk E). by apply Hl.
Qed.
Lemma fhoare_api_Delete k A1 n l rv : eternal A1 → (∀ gens, obj_step gens k n (Some l) None) →
  hoare k (λ F, A1 F ∧ knows n l rv F) (api_Delete n rv) (λ _, A1).
Proof.
  intros Hs Hl. eapply fhoare_post; [|apply (fhoare_write k _ (current n rv) (Del n))].
  - by intros r F _ [[? _] _].
  - apply eternal_and; [done|apply eternal_knows].
  - intros F Hok [H Hk] E. cbn [commit_name commit_obj]. rewrite (current_knows F n l rv Hk E). apply Hl.
Qed.
Lemma fhoare_Create k A1 n l : eternal A1 → (∀ gens, obj_step gens k n None (Some l)) →
  hoare k A1 (Create n l) (λ r F, A1 F ∧ (r = Ok tt → holder l ≠ [] → recorded n (ogen l) (holder l) F)).
Proof.
  intros Hs Hl. eapply fhoare_post; [|apply (fhoare_write k _ (absent n) (Put n l)); [done|]].
  - intros r F _ [? Hr]. split; [done|]. intros E Hh. by apply (Hr E l).
  - intros F Hok H E. cbn [commit_name commit_obj]. rewrite (absent_obj F n E). apply Hl.
Qed.

Lemma fhoare_CreateV k A1 n l : eternal A1 → (∀ gens, obj_step gens k n None (Some l)) →
  hoare k A1 (CreateV n l) (λ r F, A1 F ∧ ∀ rv, r = Ok rv → knows n l rv F).
Proof.
  intros Hs Hl. apply fhoare_sect; [done|]. intros a F Hok H.
  assert (Hq : fine k F F) by by apply quiet_fine, quiet_same.
  assert (Hc : absent n (f_api F) = None → fine k F (land (Put n l) F)).
  { intros E. pose proof (absent_obj F n E) as Eo. split; [|split_and!; [|by apply keeps_refl|by apply holds_same]].
    - apply (FleetOk_land k); [done|]. cbn [commit_name commit_obj]. rewrite Eo. apply Hl.
    - right. exists (Put n l). cbn [commit_name commit_obj]. rewrite Eo. auto. }
  destruct (a_fault a); destruct (absent n (f_api F)) as [e|] eqn:E; cbn [fst snd]; (split; [by auto|]); try done.
  cbn [land f_api committed]. destruct (get_put (f_api F) n l) as (r & Er & _). rewrite Er. intros rv [= <-].
  by apply knows_get.
Qed.

(** ** Programs of one goroutine *)

Lemma keeps_Get {B} k n (h : outcome fleet_error (Obj * Z) → P B) :
  (∀ l rv A1, eternal A1 → hoare k (λ F, A1 F ∧ knows n l rv F) (h (Ok (l, rv))) (λ _, A1)) →
  (∀ e, keeps k (h (Err e))) → keeps k (h Fault) → keeps k (api_Get n ≫= h).
Proof.
  intros Hok He Hf A1 Hs. eapply fhoare_bind; [by apply fhoare_Get|]. intros [[l rv]|e|]; cbn.
  - eapply fhoare_pre; [|by apply Hok]. intros F _ [? Hk]. split; [done|]. by apply Hk.
  - eapply fhoare_pre; [|by apply He]. by intros F _ [? _].
  - eapply fhoare_pre; [|by apply Hf]. by intros F _ [? _].
Qed.
(** what follows does not use what was read *)
Lemma hoare_forget {A} k A1 Y (p : P A) : eternal A1 → keeps k p → hoare k (λ F, A1 F ∧ Y F) p (λ _, A1).
Proof. intros Hs Hp. eapply fhoare_pre; [|by apply Hp]. by intros F _ [? _]. Qed.
Lemma eternal_read n l rv A1 : eternal A1 → eternal (λ F, A1 F ∧ knows n l rv F).
Proof. intros Hs. apply eternal_and; [done|apply eternal_knows]. Qed.
(** keeping what was read over a program *)
Lemma hoare_over {A B} k A1 n l rv (p : P A) (h : A → P B) : eternal A1 → keeps k p →
  (∀ a, hoare k (λ F, A1 F ∧ knows n l rv F) (h a) (λ _, A1)) → hoare k (λ F, A1 F ∧ knows n l rv F) (p ≫= h) (λ _, A1).
Proof. intros Hs Hp Hh. apply fhoare_skip; [by apply eternal_read|done..]. Qed.
Lemma hoare_last_Update k A1 n l rv l' : eternal A1 → (∀ gens, obj_step gens k n (Some l) (Some l')) →
  hoare k (λ F, A1 F ∧ knows n l rv F) (Update n rv l') (λ _, A1).
Proof.
  intros Hs Hl. eapply fhoare_post; [|apply (fhoare_Update k A1 n l rv l'); [done|]].
  - by intros r F _ [? _].
  - intros. apply Hl.
Qed.
(** a program over what a List returned *)
Lemma hoare_List_then {B} k A1 sel (h : outcome fleet_error (list (bytes * (Obj * Z))) → P B) : eternal A1 →
  (∀ xs, hoare k (λ F, A1 F ∧ Forall (listed sel F) xs) (h (Ok xs)) (λ _, A1)) →
  (∀ e, keeps k (h (Err e))) → keeps k (h Fault) → hoare k A1 (api_List sel ≫= h) (λ _, A1).
Proof.
  intros Hs Hok He Hf. eapply fhoare_bind; [by apply fhoare_List|]. intros [xs|e|]; cbn.
  - eapply fhoare_pre; [|apply Hok]. intros F _ [? Hk]. split; [done|]. by apply Hk.
  - by apply hoare_forget.
  - by apply hoare_forget.
Qed.
Lemma eternal_rest sel A1 xs : eternal A1 → eternal (λ F, A1 F ∧ Forall (listed sel F) xs).
Proof. intros Hs. apply eternal_and; [done|apply eternal_listed]. Qed.
Lemma keeps_each {A} k (l : list A) (f : A → P unit) : (∀ x, keeps k (f x)) → keeps k (each l f).
Proof. intros Hf. induction l as [|x l IH]; cbn [each]; [apply fkeeps_ret|]. apply fkeeps_bind; [done|]. by intros _. Qed.

(** ** Renew loops *)

Lemma quiet_fresh k pod id gen F : FleetOk F → own_op k pod id → recorded (key id) gen pod F →
  quiet k F (fresh_handle pod id gen F).
Proof.
  intros Hok Ho Hr. set (F1 := match held_at pod id F with Some prev => cancel_h prev F | None => F end).
  assert (Hq : quiet k F F1) by (unfold F1; destruct (held_at pod id F); [by apply quiet_cancel|by apply quiet_same]).
  assert (En : f_next F1 = f_next F) by (unfold F1; by destruct (held_at pod id F)).
  assert (Ep : f_pods F1 = f_pods F) by (unfold F1; by destruct (held_at pod id F)).
  destruct Hq as (Ea & Ew & Hk & Hd & Hn & Hh & Hc). unfold fresh_handle. fold F1. split_and!; cbn; [done|done| | | | |].
  - intros h x Hx. destruct (Hk h x Hx) as (x' & Hx' & Hs). exists x'. split; [|done].
    cbn. rewrite lookup_insert_ne; [done|]. pose proof (Hn h x' Hx'). lia.
  - intros p i g Hg. destruct (decide (p = pod ∧ i = id)) as [[-> ->]|Hne]; [by right; left|].
    destruct (Hd p i g Hg) as [E|E]; [left|by right]. revert E. unfold held_gen, held_at, gen_of. cbn. rewrite Ep.
    assert (Hfresh : ∀ o, (o ≫= λ h, h_gen <$> f_held F1 !! h) = Some g →
      (o ≫= λ h, h_gen <$> <[f_next F1 := MkHeld pod id gen false false]> (f_held F1) !! h) = Some g).
    { intros [h|]; [|done]. cbn. destruct (f_held F1 !! h) as [x|] eqn:Ex; [|done].
      rewrite lookup_insert_ne; [by rewrite Ex|]. pose proof (Hn h x Ex). lia. }
    case_bool_decide; [|apply Hfresh]. subst p. cbn. rewrite lookup_insert_ne by (intros ->; tauto). apply Hfresh.
  - intros h x. cbn. rewrite lookup_insert_Some. intros [[<- _]|[_ Hx]]; [lia|]. pose proof (Hn h x Hx). lia.
  - intros p i h. unfold held_at. cbn. rewrite Ep, En. case_bool_decide; [|by auto]. subst p. cbn. rewrite lookup_insert_Some.
    intros [[<- <-]|[_ Hi]]; [|by left]. right. exists (MkHeld pod id gen false false). by rewrite lookup_insert_eq.
  - intros p. rewrite Ep. by case_bool_decide.
Qed.
Lemma fresh_held pod id gen (F : Fleet) :
  f_held (fresh_handle pod id gen F) !! f_next F = Some (MkHeld pod id gen false false).
Proof. unfold fresh_handle. destruct (held_at pod id F); cbn; apply lookup_insert_eq. Qed.
Lemma hoare_go_renew k A1 pod id gen : eternal A1 → own_op k pod id →
  hoare k (λ F, A1 F ∧ recorded (key id) gen pod F) (go_renew renew_go pod id gen) (λ _, A1).
Proof.
  intros Hs Ho. unfold go_renew.
  eapply fhoare_bind with (M := λ _ F, (A1 F ∧ recorded (key id) gen pod F) ∧ True).
  - apply fhoare_act; [apply eternal_and; [done|apply eternal_recorded]|]. intros _ F h F' Hok [_ Hr] [= <- <-].
    pose proof (quiet_fresh k pod id gen F Hok Ho Hr) as Hq. split; [by apply quiet_fine|]. split; [|done]. constructor; [|done].
    split; [apply needs_go|]. intros p i h. rewrite renews_go. intros [= <- <- <-]. exists gen. exists (MkHeld pod id gen false false).
    rewrite fresh_held. do 4 (split; [done|]). destruct Hq as (_ & Ew & _).
    exact (proj2 (same_recorded F _ _ _ _ Ew) Hr).
  - intros _. apply fhoare_ret. by intros F _ [[? _] _].
Qed.
Lemma hoare_gen_of k A1 h pod id gen : eternal A1 → (∀ F, A1 F → handle h pod id gen F) →
  hoare k A1 (pgets (gen_of h)) (λ g F, A1 F ∧ g = Some gen).
Proof.
  intros Hs Hh. apply fhoare_sect; [done|]. intros a F Hok H. destruct (Hh F H) as (x & Hx & _ & _ & Hg & _).
  split; [by apply quiet_fine, quiet_same|]. unfold gen_of. cbn. rewrite Hx. cbn. by rewrite Hg.
Qed.
Lemma handle_gen h pod id gen F : handle h pod id gen F → gens_of F h = Some gen.
Proof. intros (x & Hx & _ & _ & Hg & _). unfold gens_of, gen_of. rewrite Hx. cbn. by rewrite Hg. Qed.

(** ** The fleet *)

Notation goes := (λ (r : option K) F, match r with Some k' => pre k' F | None => True end).
Notation fleet_pool := (pool_ok FleetOk G own used pre).
Lemma fkeeps_end {A} k (p : P A) : keeps k p → hoare k (λ _, True) (_ ← p; mret None) goes.
Proof. intros Hp. apply fhoare_skip; [apply eternal_pure|done|]. intros _. by apply fhoare_ret. Qed.
(** no objects, no pod holds one *)
Definition fleet0 (F : Fleet) : Prop :=
  (∀ n, api_get (f_api F) n = None) ∧ f_watch F = [] ∧ f_held F = ∅ ∧
  ∀ pod, c_held (f_pods F pod) = ∅ ∧ c_cursor (f_pods F pod) = 0%nat ∧ c_cache (f_pods F pod) = ∅.
Lemma fleet0_ok F : fleet0 F → FleetOk F.
Proof.
  intros (Ea & Ew & Eh & Ep). constructor.
  - intros n l. unfold obj_at. by rewrite Ea.
  - intros n l0 _ (e & l & He & _). rewrite Ew in He. by apply elem_of_nil in He.
  - intros n g p q _ (_ & e & l & He & _). rewrite Ew in He. by apply elem_of_nil in He.
  - intros pod id h. unfold held_at. destruct (Ep pod) as (-> & _). by rewrite lookup_empty.
  - intros h x. by rewrite Eh, lookup_empty.
  - intros n. by rewrite Ew, Ea.
  - intros e l rv He. rewrite Ew in He. by apply elem_of_nil in He.
  - intros pod. unfold cache_ok. destruct (Ep pod) as (_ & -> & ->). rewrite Ew. split; [cbn; lia|done].
Qed.

Context (code : K → P (option K)) (code_ok : ∀ k, hoare k (pre k) (code k) goes).
(** the clients: anything but a renew loop *)
Definition fleet_client (k : K) : Prop := needs k ∧ renews k = None.
Definition fleet_picks (l : list (pick (Ans:=cans) (K:=K))) : Prop :=
  Forall (λ c, match c with Call k => fleet_client k | Move _ _ => True end) l.
Theorem fleet_pool_ok l F : fleet_picks l → fleet0 F → fleet_pool (sched code l ([], F)).
Proof.
  intros Hl H0. apply (sched_ok code).
  - intros k s s' (Hok & _ & k' & _ & _ & Hg). by apply (eternal_pre k k').
  - intros k s Hok Hp. eapply wp_mono; [|by apply code_ok]. intros [k'|] F' [_ H]; [by split|done].
  - eapply Forall_impl; [exact Hl|]. intros [i a|k]; [done|]. intros [Hn Hr]. split; [done|]. intros s _. split; [done|].
    by rewrite Hr.
  - split_and!; [by apply fleet0_ok|constructor|constructor].
Qed.
End Rules.

Create HintDb fleetkeeps.
#[export] Hint Resolve fkeep_ret fkeep_bind fkeep_pgets fkeep_Now fkeep_Get fkeep_List fkeep_wait fkeep_emit fkeep_cancel fkeep_done
  fkeep_more fkeep_next : fleetkeeps.
Ltac fkeep_step :=
  match goal with
  | |- keep (_ ≫= _) => apply fkeep_bind
  | |- keep (let '(_, _) := ?x in _) => destruct x
  | |- keep (if ?b then _ else _) => destruct b
  | |- keep (match ?x with _ => _ end) => destruct x
  | |- ∀ _, _ => intros ?
  | |- keep _ => first [solve [eauto 2 with fleetkeeps] | assumption]
  end.
Ltac fkeep_tac := repeat fkeep_step.
(** the answers that end a call's program *)
Ltac fkeep_ends := first [by apply fkeeps_ret | by apply hoare_forget, fkeeps_ret].
