(* ===== verification/KubeRun.v ===== *)
(** Runs of a fleet whose goroutines obey the rules: every move is at most one step
    of one object, holders are unique, caches are true; programs that move alone; and
    an API server of the class. *)
From S2P Require Export KubeRules.
#[local] Open Scope Z_scope.

Section Run.
Context {Store Obj X Ev K : Type} {api : ObjApi Obj Store} {laws : ObjApiLaws Obj Store} {km : KubeMachine Obj K}.
Notation Fleet := (Fleet Store Obj X Ev).
Notation P := (prog cans Fleet K).
Implicit Types F : Fleet.

(** ** The abstract machine: a map of objects, one of which makes one step *)

Definition objects F : bytes → option Obj := λ n, obj_at n F.
Inductive machine (gens : nat → option Z) (k : K) (L : bytes → option Obj) (w : list (watch_event Obj))
    : (bytes → option Obj) → list (watch_event Obj) → Prop :=
  | Stay L' : (∀ n, L' n = L n) → machine gens k L w L' w
  | OneObject L' n e : obj_step gens k n (L n) (L' n) → (∀ m, m ≠ n → L' m = L m) →
      ev_name e = n → fst <$> ev_new e = L' n → machine gens k L w L' (w ++ [e]).

Lemma moved_machine k F F' : moved k F F' → machine (gens_of F) k (objects F) (f_watch F) (objects F') (f_watch F').
Proof.
  intros [[Ea Ew]|(c & Ea & Ew & Hs)].
  - rewrite Ew. apply Stay. intros n. unfold objects, obj_at. by rewrite Ea.
  - assert (El : ∀ n, objects F' n = obj_at n (land c F)) by (intros n; unfold objects, obj_at; by rewrite Ea).
    destruct (land_event k c F Hs) as (e & Ee & En & Eo). cbn in Ee. rewrite Ew, Ee.
    apply (OneObject _ _ _ _ _ (commit_name c)).
    + by rewrite El, obj_land_eq.
    + intros m Hm. by rewrite El, obj_land_ne.
    + done.
    + by rewrite El, obj_land_eq.
Qed.

(** ** Runs *)

Context (code : K → P (option K)).
Context (code_ok : ∀ k, hoare k (pre k) (code k) (λ r F, match r with Some k' => pre k' F | None => True end)).
(** the goroutines and the fleet after a schedule, from a fleet without objects *)
Definition run (l : list pick) F : config := sched code l ([], F).
Definition fleet_after (l : list pick) F : Fleet := snd (run l F).

Lemma fleet_run_app l l' F : run (l ++ l') F = sched code l' (run l F).
Proof. unfold run, sched. by rewrite fold_left_app. Qed.
Lemma fleet_ok l F : fleet_picks l → fleet0 F → FleetOk (fleet_after l F).
Proof using laws code_ok. intros Hl H0. by destruct (fleet_pool_ok code code_ok l F Hl H0). Qed.
Lemma fleet_move l F i a k : fleet_picks l → fleet0 F → fst <$> fst (run l F) !! i = Some k →
  fleet_after (l ++ [Move i a]) F = fleet_after l F ∨ G k (fleet_after l F) (fleet_after (l ++ [Move i a]) F).
Proof using laws code_ok.
  intros Hl H0 Hk. unfold fleet_after. rewrite fleet_run_app. cbn [sched fold_left].
  pose proof (step_guarantee code FleetOk G own used pre i a (run l F) (fleet_pool_ok code code_ok l F Hl H0)) as Hg.
  destruct (fst (run l F) !! i) as [[k' p]|]; [|done]. by injection Hk as <-.
Qed.
Lemma fleet_refines l F i a k : fleet_picks l → fleet0 F → fst <$> fst (run l F) !! i = Some k →
  let F1 := fleet_after l F in
  let F2 := fleet_after (l ++ [Move i a]) F in
  machine (gens_of F1) k (objects F1) (f_watch F1) (objects F2) (f_watch F2).
Proof using laws code_ok.
  intros Hl H0 Hk. cbn zeta. destruct (fleet_move l F i a k Hl H0 Hk) as [->|[Hm _]]; [by apply Stay|by apply moved_machine].
Qed.
Lemma hold_kept l F i a k pod id g : fleet_picks l → fleet0 F → fst <$> fst (run l F) !! i = Some k →
  let F1 := fleet_after l F in
  let F2 := fleet_after (l ++ [Move i a]) F in
  held_gen pod id F1 = Some g → held_gen pod id F2 = Some g ∨ own_op k pod id ∨ gone (key id) g F2.
Proof using laws code_ok.
  intros Hl H0 Hk F1 F2 Hg. subst F1 F2. destruct (fleet_move l F i a k Hl H0 Hk) as [->|(_ & _ & Hh)]; [by left|by apply Hh].
Qed.
Lemma one_holder l F p id g : fleet_picks l → fleet0 F →
  let F' := fleet_after l F in
  undeleted (key id) F' → held_gen p id F' = Some g →
  (∀ q, held_gen q id F' = Some g → q = p) ∧
  ∃ x, obj_at (key id) F' = Some x ∧ g ≤ ogen x ∧ (g = ogen x → holder x = [] ∨ holder x = p).
Proof using laws code_ok.
  intros Hl H0 F' Hu. pose proof (fleet_ok l F Hl H0) as Hok. fold F' in Hok.
  assert (Hrec : ∀ q, held_gen q id F' = Some g → recorded (key id) g q F').
  { intros q. unfold held_gen. destruct (held_at q id F') as [h|] eqn:Eh; [|done]. cbn.
    destruct (fo_held _ Hok q id h Eh) as (x & Hx & _ & _ & Hr). unfold gen_of. rewrite Hx. by intros [= <-]. }
  intros Hp. split; [|by apply (fo_obj F' _ g p Hok Hu), Hrec].
  intros q Hq. by apply (fo_unique _ Hok (key id) g); [|apply Hrec..].
Qed.

(** ** Caches *)

Lemma step_watch c l F : fleet_picks l → fleet0 F →
  f_watch (fleet_after (l ++ [c]) F) = f_watch (fleet_after l F) ∨
  ∃ e, f_watch (fleet_after (l ++ [c]) F) = f_watch (fleet_after l F) ++ [e].
Proof using laws code_ok.
  intros Hl H0. destruct c as [i a|k].
  - destruct (fst (run l F) !! i) as [[k p]|] eqn:E.
    + assert (Ek : fst <$> fst (run l F) !! i = Some k) by exact (f_equal (fmap (M:=option) fst) E).
      destruct (fleet_move l F i a k Hl H0 Ek) as [->|[Hm _]]; [by left|].
      destruct (moved_machine k _ _ Hm); [by left|right; eauto].
    + left. unfold fleet_after. rewrite fleet_run_app. destruct (run l F) as [pool s]. cbn in *. by rewrite E.
  - left. unfold fleet_after. rewrite fleet_run_app. by destruct (run l F).
Qed.
(** every prefix of the watch was all of it at some point of the run *)
Lemma watch_prefix l F k : fleet_picks l → fleet0 F → (k ≤ length (f_watch (fleet_after l F)))%nat →
  ∃ l1 l2, l = l1 ++ l2 ∧ f_watch (fleet_after l1 F) = take k (f_watch (fleet_after l F)).
Proof using laws code_ok.
  intros Hl H0. induction l as [|c l IH] using rev_ind; intros Hk.
  - exists [], []. split; [done|]. assert (E : f_watch (fleet_after [] F) = []) by apply H0. rewrite E. by rewrite take_nil.
  - apply Forall_app in Hl as [Hl _].
    destruct (decide (k ≤ length (f_watch (fleet_after l F)))%nat) as [Hle|Hgt].
    + destruct (IH Hl Hle) as (l1 & l2 & -> & E). exists l1, (l2 ++ [c]). split; [by rewrite app_assoc|].
      rewrite E. destruct (step_watch c _ F Hl H0) as [->|[e ->]]; [done|]. by rewrite take_app_le.
    + exists (l ++ [c]), []. split; [by rewrite app_nil_r|]. rewrite take_ge; [done|].
      destruct (step_watch c l F Hl H0) as [E|[e E]]; rewrite E in *; rewrite ?length_app in *; cbn in *; lia.
Qed.
(** a cache is the store as it was at one moment; the pod that has been told all has it as it is *)
Lemma cache_was_true l F pod : fleet_picks l → fleet0 F →
  let F' := fleet_after l F in
  let c := f_pods F' pod in
  ∃ l1 l2, l = l1 ++ l2 ∧ (c_cursor c = length (f_watch F') → ∀ n, obj_at n (fleet_after l1 F) = obj_at n F') ∧
    ∀ n, c_cache c !! n = api_get (f_api (fleet_after l1 F)) n.
Proof using laws code_ok.
  intros Hl H0 F' c. pose proof (fleet_ok l F Hl H0) as Hok. fold F' in Hok.
  destruct (fo_cache _ Hok pod) as [Hlen Hstore]. fold c in Hlen, Hstore.
  destruct (watch_prefix l F (c_cursor c) Hl H0 Hlen) as (l1 & l2 & El & Ew). fold F' in Ew.
  assert (Hok1 : FleetOk (fleet_after l1 F)) by (apply fleet_ok; [subst l; by apply Forall_app in Hl as [? _]|done]).
  exists l1, l2. split; [done|]. split.
  - intros E n. unfold obj_at. rewrite <- (fo_log _ Hok1 n), <- (fo_log _ Hok n), Ew, E. by rewrite take_ge.
  - intros n. rewrite Hstore, <- Ew. apply (fo_log _ Hok1).
Qed.

(** ** A program that moves alone, with the same answer at every action *)

Fixpoint alone {A} (a : cans) (p : P A) F : option (A * Fleet) :=
  match p with
  | Ret x => Some (x, F)
  | Act f sp h => match f a F with Some (b, F') => alone a (h b) F' | None => None end
  end.
Lemma alone_bind {A B} a (p : P A) (h : A → P B) F :
  alone a (p ≫= h) F = match alone a p F with Some (x, F') => alone a (h x) F' | None => None end.
Proof.
  revert F. induction p as [x|C f sp g IH]; intros F; [done|]. cbn. destruct (f a F) as [[b F']|]; [|done]. apply IH.
Qed.
(** it is a schedule *)
Lemma alone_sched a k (p : P (option K)) F r F' : alone a p F = Some (r, F') →
  ∃ n pool, sched code (repeat (Move 0 a) n) ([(k, p)], F) = ((k, Ret r) :: pool, F').
Proof.
  intros H. enough (Hg : ∀ pool, ∃ n pool', sched code (repeat (Move 0 a) n) ((k, p) :: pool, F) = ((k, Ret r) :: pool', F'))
    by apply Hg. revert F H. induction p as [x|C f sp h IH]; intros F H pool.
  - injection H as -> ->. by exists 0%nat, pool.
  - cbn in H. destruct (f a F) as [[b F1]|] eqn:E; [|done].
    destruct (IH b F1 H (map (start code) (sp b) ++ pool)) as (n & pool' & Hn). exists (S n), pool'.
    cbn [repeat sched fold_left step lookup list_lookup]. unfold step_thread. cbn [fst snd]. rewrite E. exact Hn.
Qed.
Section Alone.
Context (a : cans) (Ha : a_fault a = Fine).
Lemma alone_Get n F : alone a (api_Get n) F =
  Some (match api_get (f_api F) n with Some x => Ok x | None => Err apiNotFound end, F).
Proof using Ha. cbn. by rewrite Ha. Qed.
Lemma alone_Update n l rv l' F : api_get (f_api F) n = Some (l, rv) → alone a (Update n rv l') F = Some (Ok tt, land (Put n l') F).
Proof using Ha. intros E. unfold Update, api_write, current. cbn. by rewrite Ha, E, Z.eqb_refl. Qed.
Lemma alone_Create n l F : api_get (f_api F) n = None → alone a (Create n l) F = Some (Ok tt, land (Put n l) F).
Proof using Ha. intros E. unfold Create, api_write, absent. cbn. by rewrite Ha, E. Qed.
End Alone.
Lemma alone_Now a F : alone a Now F = Some (a_now a, F).
Proof. done. Qed.
Lemma alone_renew a pod id gen F : alone a (go_renew renew_go pod id gen) F = Some (tt, fresh_handle pod id gen F).
Proof. done. Qed.
Lemma fresh_gen pod id gen F : held_gen pod id (fresh_handle pod id gen F) = Some gen.
Proof.
  unfold held_gen, fresh_handle, held_at, gen_of. destruct (c_held (f_pods F pod) !! id); cbn; rewrite bool_decide_eq_true_2 by done;
    cbn; rewrite lookup_insert_eq; cbn; by rewrite lookup_insert_eq.
Qed.
Lemma fresh_api pod id gen F : f_api (fresh_handle pod id gen F) = f_api F.
Proof. unfold fresh_handle. by destruct (held_at pod id F). Qed.
(** what a claim that has written leaves *)
Lemma claimed pod id l g F :
  let F' := fresh_handle pod id g (land (Put (key id) l) F) in
  held_gen pod id F' = Some g ∧ obj_at (key id) F' = Some l ∧ ∀ n, n ≠ key id → obj_at n F' = obj_at n F.
Proof using laws.
  intros F'. unfold F'. split; [apply fresh_gen|]. unfold obj_at. rewrite fresh_api. cbn [land f_api].
  split; [exact (get_land_eq (Put (key id) l) F)|]. intros n Hn. by rewrite (get_land_ne (Put (key id) l) F n).
Qed.
End Run.

(** ** An API server that keeps every name's history: the version is how often it was written *)

Abbreviation Histories Obj := (gmap bytes (list (option Obj))).
Section Histories.
Context {Obj : Type}.
#[local] Notation Histories := (Histories Obj).
Definition hist (s : Histories) (n : bytes) : list (option Obj) := default [] (s !! n).
Definition newest (h : list (option Obj)) : option (Obj * Z) :=
  match last h with Some (Some l) => Some (l, zlen h) | _ => None end.
#[export] Instance histories_api : ObjApi Obj Histories := {
  api_get s n := newest (hist s n);
  api_list s := omap (λ x : bytes * list (option Obj), pair (fst x) <$> newest (snd x)) (map_to_list s);
  api_put n l s := <[n := hist s n ++ [Some l]]> s;
  api_del n s := <[n := hist s n ++ [None]]> s;
  api_past s n r := r ≤ zlen (hist s n);
}.
Lemma hist_insert_eq (s : Histories) n h : hist (<[n := h]> s) n = h.
Proof. unfold hist. by rewrite lookup_insert_eq. Qed.
Lemma hist_insert_ne (s : Histories) n m h : n ≠ m → hist (<[n := h]> s) m = hist s m.
Proof. intros ?. unfold hist. by rewrite lookup_insert_ne. Qed.
Lemma newest_app h x : newest (h ++ [x]) = (λ l, (l, zlen h + 1)) <$> x.
Proof. unfold newest. rewrite last_snoc, zlen_app. by destruct x. Qed.
Lemma omap_fst_sublist {A B C} (f : B → option C) (l : list (A * B)) :
  map fst (omap (λ x, pair (fst x) <$> f (snd x)) l) `sublist_of` map fst l.
Proof. induction l as [|x l IH]; [constructor|]. cbn. destruct (f (snd x)); cbn; by constructor. Qed.
#[export] Instance histories_laws : ObjApiLaws Obj Histories.
Proof.
  constructor; cbn.
  - intros s n l. rewrite hist_insert_eq, newest_app. eexists. split; [done|]. lia.
  - intros s n m l Hne. by rewrite hist_insert_ne.
  - intros s n. by rewrite hist_insert_eq, newest_app.
  - intros s n m Hne. by rewrite hist_insert_ne.
  - intros s n l r. unfold newest. destruct (last _) as [[?|]|]; [intros [= _ <-]; lia|done..].
  - intros s n m l r Hr. destruct (decide (n = m)) as [->|]; [|by rewrite hist_insert_ne].
    rewrite hist_insert_eq, zlen_app. pose proof (zlen_nonneg [Some l]). lia.
  - intros s n m r Hr. destruct (decide (n = m)) as [->|]; [|by rewrite hist_insert_ne].
    rewrite hist_insert_eq, zlen_app. pose proof (zlen_nonneg [@None Obj]). lia.
  - intros s n x. unfold hist. rewrite list_elem_of_omap. split.
    + intros ([m h] & Hm & Hx). apply elem_of_map_to_list in Hm. cbn in Hx.
      destruct (newest h) as [y|] eqn:E; [|done]. injection Hx as -> ->. by rewrite Hm.
    + destruct (s !! n) as [h|] eqn:E; [|done]. cbn. intros Hx. exists (n, h). cbn. rewrite Hx. split; [|done].
      by apply elem_of_map_to_list.
  - intros s. eapply sublist_NoDup; [|apply (omap_fst_sublist newest)]. apply NoDup_fst_map_to_list.
Qed.
End Histories.

(** runs: a goroutine started as the [i]th, moved [n] times, with every call answered at one second *)
Definition fine_move {K} (i : nat) : pick (Ans:=cans) (K:=K) := Move i (MkCAns Fine (10 ^ 9) []).
Definition play {K} (i n : nat) (k : K) : list (pick (Ans:=cans) (K:=K)) := Call k :: repeat (fine_move i) n.
