(* ===== verification/ClusterData.v ===== *)
(** internal/cluster/cluster.go: broadcast Leases, and what a pod of the fleet keeps
    besides what every fleet has (KubeFleet). *)
From S2P Require Export KubeFleet GoStrings BroadcastID.
#[local] Open Scope Z_scope.

(** ** Leases *)

(** Times in ns. [l_gen]: the generation annotation, 0 without one; [l_grace]: the grace
    deadline, [l_stalled]: the stall stamp; [l_pop]: the gawk/pop label. No holder
    and the empty holder are the same. *)
Record Lease := MkLease {
  l_holder : bytes;
  l_secs : option Z;
  l_acquire : option Z;
  l_renew : option Z;
  l_addr : bytes;
  l_gen : Z;
  l_grace : option Z;
  l_stalled : option Z;
  l_pop : bytes;
}.
#[export] Instance Lease_eq_dec : EqDecision Lease.
Proof. solve_decision. Defined.
Definition set_l_holder (h : bytes) (l : Lease) : Lease :=
  MkLease h (l_secs l) (l_acquire l) (l_renew l) (l_addr l) (l_gen l) (l_grace l) (l_stalled l) (l_pop l).
Definition set_l_renew (t : option Z) (l : Lease) : Lease :=
  MkLease (l_holder l) (l_secs l) (l_acquire l) t (l_addr l) (l_gen l) (l_grace l) (l_stalled l) (l_pop l).
Definition set_l_grace (t : option Z) (l : Lease) : Lease :=
  MkLease (l_holder l) (l_secs l) (l_acquire l) (l_renew l) (l_addr l) (l_gen l) t (l_stalled l) (l_pop l).
Definition set_l_stalled (t : option Z) (l : Lease) : Lease :=
  MkLease (l_holder l) (l_secs l) (l_acquire l) (l_renew l) (l_addr l) (l_gen l) (l_grace l) t (l_pop l).

Record Origin := MkOrigin { o_holder : bytes; o_addr : bytes; o_gen : Z; o_pop : bytes }.
Definition parseOrigin (l : Lease) : Origin := MkOrigin (l_holder l) (l_addr l) (l_gen l) (l_pop l).
Definition isPopLease (l : Lease) : bool := negb (bool_decide (l_pop l = [])).

Definition leasePrefix : bytes := str "gawk-bc-"%string.
(** ToLower and ToUpper on IDs, which are ASCII *)
Definition leaseName (id : bytes) : bytes := leasePrefix ++ map ascii_lower id.
Definition broadcastIDFromLease (name : bytes) : option bytes := map ascii_upper <$> strip leasePrefix name.

(** ** The fleet *)

(** [c_synced]: leaseSynced. [c_resMu]: clusterReservations' mutex. *)
Record cluster_more := MkMore { c_synced : bool; c_resMu : bool }.
(** the callbacks, and what the claims returned *)
Inductive cluster_event :=
  | OnLeaseDeleted (pod id : bytes)
  | OnLeaseLost (pod id : bytes) (o : Origin)
  | OnOriginClaimed (pod id : bytes) (o : Origin)
  | Claimed (pod id pop : bytes) (r : outcome fleet_error Z).
Abbreviation Coordinator := (Pod Lease cluster_more).
Abbreviation LeaseFleet Store := (Fleet Store Lease cluster_more cluster_event).
