(* ===== verification/ClusterOps.v ===== *)
(** internal/cluster/cluster.go, internal/popsrv/reservations.go: the Coordinator of
    each pod as goroutines over the fleet. A call of the API server, a section
    under the Coordinator's mutex and the cancelling of a renew loop are one action each.
    What becomes of an API call is the scheduler's choice ([fault]), and so is
    the clock. *)
From S2P Require Export ClusterData.
#[local] Open Scope Z_scope.

Definition claimRetries : nat := 3.

Record Options := MkCOptions {
  AdvertiseAddr : bytes → bytes;
  BroadcastGrace : Z;
  MaxBroadcasts : Z;
  LeaseDuration : Z;
}.

(** goroutines, by name *)
Inductive cgo :=
  | CClaim (pod id pop : bytes) (force : bool)
  | CRenew (pod id : bytes) (h : nat)
  | CEnterGrace (pod id : bytes)
  | CSetStalled (pod id : bytes) (stalled : bool)
  | CDelete (pod id : bytes)
  | CRelease (pod id : bytes)
  | CReleaseGeneration (pod id : bytes) (gen : Z)
  | CReserve (pod id pop : bytes) (limit : Z)
  | CDeleteReservation (pod id pop : bytes)
  | CReleaseReservations (pod pop : bytes)
  | CRenewReservations (pod pop : bytes)
  | CReleaseAll (pod : bytes)
  | CJanitor (pod : bytes)
  | CInformer (pod : bytes)
  | CSync (pod : bytes).

(** ** Leases, without the API *)

Section Pure.
Context (opts : Options).

(** a MicroTime, as the API server keeps it *)
Definition NewMicroTime (now : Z) : Z := now / 1000 * 1000.
(** RFC3339 keeps whole seconds *)
Definition rfc3339 (t : Z) : Z := t / 10 ^ 9 * 10 ^ 9.
Definition lease_secs : Z := int32 (LeaseDuration opts ÷ 10 ^ 9).

Definition renewStale (l : Lease) (now : Z) : bool :=
  match l_renew l with
  | None => true
  | Some t => now - t >? match l_secs l with Some s => s * 10 ^ 9 | None => LeaseDuration opts end
  end.
Definition takeable (pod : bytes) (force : bool) (l : Lease) (now : Z) : bool :=
  bool_decide (l_holder l = []) || bool_decide (l_holder l = pod) || renewStale l now || force.
(** the Lease a claim leaves *)
Definition taken (pod : bytes) (l : Lease) (now : Z) : Lease :=
  let t := Some (NewMicroTime now) in
  MkLease pod (Some lease_secs) t t (AdvertiseAddr opts pod) (l_gen l + 1) None None (l_pop l).
Definition created (pod : bytes) (now : Z) : Lease :=
  let t := Some (NewMicroTime now) in
  MkLease pod (Some lease_secs) t t (AdvertiseAddr opts pod) 1 None None [].
Definition reservation (pop : bytes) (now : Z) : Lease :=
  MkLease [] (Some lease_secs) None (Some (NewMicroTime now)) [] 0 None None pop.
Definition released (l : Lease) (now : Z) : Lease :=
  let l' := set_l_holder [] l in
  if isPopLease l then set_l_renew (Some (NewMicroTime now)) (set_l_grace None l') else l'.
Definition graced (l : Lease) (now : Z) : Lease := set_l_grace (Some (rfc3339 (now + BroadcastGrace opts))) l.
Definition renewed (l : Lease) (now : Z) : Lease := set_l_renew (Some (NewMicroTime now)) l.
Definition stalled_at (stalled : bool) (l : Lease) (now : Z) : Lease :=
  set_l_stalled (if stalled then Some (rfc3339 now) else None) l.

Definition renewal_lapsed (l : Lease) (now : Z) : bool :=
  match l_renew l with None => true | Some t => now - t >? BroadcastGrace opts + LeaseDuration opts end.
Definition janitorExpired (l : Lease) (now : Z) : bool :=
  if isPopLease l && bool_decide (l_holder l = []) then renewal_lapsed l now
  else match l_grace l with Some d => now >? d | None => renewal_lapsed l now end.
End Pure.

(** ** Held leases *)

Section Cluster.
Context {Store : Type} {api : ObjApi Lease Store} (opts : Options).
Notation Fleet := (LeaseFleet Store).
Notation P := (prog cans Fleet cgo).

Definition startRenew : bytes → bytes → Z → P unit := go_renew CRenew.
Definition forgetHeld : bytes → bytes → nat → P bool := forget.
Definition stopRenew (pod id : bytes) : P unit := stop_if (λ _ _, true) pod id.
Definition stopRenewAt (pod id : bytes) (gen : Z) : P unit := stop_if (λ h F, bool_decide (gen_of h F = Some gen)) pod id.

(** one renewal; [Err errLost]: the loop ends *)
Definition renewOnce (pod id : bytes) (h : nat) : P (outcome fleet_error unit) :=
  r ← api_Get (leaseName id);
  match r with
  | Ok (l, rv) =>
      g ← pgets (gen_of h);
      if negb (bool_decide (l_holder l = pod)) || negb (bool_decide (g = Some (l_gen l))) then
        was ← forgetHeld pod id h;
        _ ← (if was && negb (bool_decide (l_holder l = pod))
             then pmodify (emit_ (OnLeaseLost pod id (parseOrigin l))) else mret tt);
        mret (Err errLost)
      else
        now ← Now;
        Update (leaseName id) rv (renewed l now)
  | Err e => mret (Err e)
  | Fault => mret Fault
  end.
(** a turn of [renewLoop] *)
Definition renewLoop (pod id : bytes) (h : nat) : P (option cgo) :=
  gone ← pgets (is_cancelled h);
  if gone : bool then _ ← pmodify (done_h h); mret None else
  r ← renewOnce pod id h;
  if bool_decide (r = Err errLost) then _ ← pmodify (done_h h); mret None
  else mret (Some (CRenew pod id h)).

(** ** Claims *)

Definition createLease (pod id : bytes) : P (outcome fleet_error Z) :=
  full ← (if MaxBroadcasts opts >? 0 then
            r ← api_List (λ l, negb (isPopLease l));
            mret (match r with Ok l => Ok (zlen l >=? MaxBroadcasts opts) | Err e => Err e | Fault => Fault end)
          else mret (Ok false));
  match full with
  | Ok true => mret (Err ErrMaxBroadcasts)
  | Ok false =>
      now ← Now;
      r ← Create (leaseName id) (created opts pod now);
      mret (match r with Ok _ => Ok 1 | Err e => Err e | Fault => Fault end)
  | Err e => mret (Err e)
  | Fault => mret Fault
  end.
Fixpoint claim_loop (n : nat) (pod id pop : bytes) (force : bool) : P (outcome fleet_error Z) :=
  match n with
  | O => mret (Err ErrExhausted)
  | S n' =>
      r ← api_Get (leaseName id);
      match r with
      | Err apiNotFound =>
          if negb (bool_decide (pop = [])) then mret (Err ErrNotFound) else
          r ← createLease pod id;
          match r with
          | Err apiAlreadyExists => claim_loop n' pod id pop force
          | Ok gen => _ ← startRenew pod id gen; mret (Ok gen)
          | r => mret r
          end
      | Ok (l, rv) =>
          if negb (bool_decide (l_pop l = pop)) then mret (Err ErrReserved) else
          now ← Now;
          if negb (takeable opts pod force l now) then mret (Err ErrHeldElsewhere) else
          now ← Now;
          r ← Update (leaseName id) rv (taken opts pod l now);
          match r with
          | Err apiConflict => claim_loop n' pod id pop force
          | Ok _ => _ ← startRenew pod id (l_gen l + 1); mret (Ok (l_gen l + 1))
          | Err e => mret (Err e)
          | Fault => mret Fault
          end
      | Err e => mret (Err e)
      | Fault => mret Fault
      end
  end.
(** [Claim], and [ClaimForPop] with a PoP *)
Definition claim (pod id pop : bytes) (force : bool) : P (outcome fleet_error Z) :=
  claim_loop claimRetries pod id pop force.

(** ** The holder's other writes *)

Definition EnterGrace (pod id : bytes) : P (outcome fleet_error unit) :=
  _ ← stopRenew pod id;
  r ← api_Get (leaseName id);
  match r with
  | Err apiNotFound => mret (Ok tt)
  | Ok (l, rv) =>
      if negb (bool_decide (l_holder l = pod)) then mret (Ok tt) else
      now ← Now;
      Update (leaseName id) rv (graced opts l now)
  | Err e => mret (Err e)
  | Fault => mret Fault
  end.
Fixpoint stalled_loop (n : nat) (pod id : bytes) (stalled : bool) : P (outcome fleet_error unit) :=
  match n with
  | O => mret (Err ErrExhausted)
  | S n' =>
      r ← api_Get (leaseName id);
      match r with
      | Err apiNotFound => mret (Ok tt)
      | Ok (l, rv) =>
          if negb (bool_decide (l_holder l = pod)) then mret (Ok tt) else
          if Bool.eqb (bool_decide (is_Some (l_stalled l))) stalled then mret (Ok tt) else
          now ← Now;
          r ← Update (leaseName id) rv (stalled_at stalled l now);
          match r with Err apiConflict => stalled_loop n' pod id stalled | r => mret r end
      | Err e => mret (Err e)
      | Fault => mret Fault
      end
  end.
Definition SetStalled (pod id : bytes) (stalled : bool) : P (outcome fleet_error unit) :=
  stalled_loop claimRetries pod id stalled.
Definition Delete_ (pod id : bytes) : P (outcome fleet_error unit) :=
  _ ← stopRenew pod id;
  r ← api_Get (leaseName id);
  match r with
  | Err apiNotFound => mret (Ok tt)
  | Ok (l, rv) =>
      if isPopLease l then mret (Ok tt) else
      if negb (bool_decide (l_holder l = [])) && negb (bool_decide (l_holder l = pod)) then mret (Ok tt) else
      r ← api_Delete (leaseName id) rv;
      mret (match r with Err apiNotFound | Err apiConflict => Ok tt | r => r end)
  | Err e => mret (Err e)
  | Fault => mret Fault
  end.
Definition Release (pod id : bytes) : P (outcome fleet_error unit) :=
  _ ← stopRenew pod id;
  r ← api_Get (leaseName id);
  match r with
  | Err apiNotFound => mret (Ok tt)
  | Ok (l, rv) =>
      if negb (bool_decide (l_holder l = pod)) then mret (Ok tt) else
      now ← Now;
      Update (leaseName id) rv (released l now)
  | Err e => mret (Err e)
  | Fault => mret Fault
  end.
Fixpoint release_loop (n : nat) (pod id : bytes) (gen : Z) : P (outcome fleet_error bool) :=
  match n with
  | O => mret (Err ErrExhausted)
  | S n' =>
      h ← pgets (held_at pod id);
      newer ← pgets (λ F, match h with Some h => negb (bool_decide (gen_of h F = Some gen)) | None => false end);
      if newer : bool then mret (Ok false) else
      r ← api_Get (leaseName id);
      match r with
      | Err apiNotFound => mret (Ok false)
      | Ok (l, rv) =>
          if negb (bool_decide (l_holder l = pod)) || negb (l_gen l =? gen) then mret (Ok false) else
          _ ← stopRenewAt pod id gen;
          now ← Now;
          r ← Update (leaseName id) rv (released l now);
          match r with
          | Err apiConflict => release_loop n' pod id gen
          | Ok _ => mret (Ok true)
          | Err e => mret (Err e)
          | Fault => mret Fault
          end
      | Err e => mret (Err e)
      | Fault => mret Fault
      end
  end.
Definition ReleaseGeneration (pod id : bytes) (gen : Z) : P (outcome fleet_error bool) :=
  release_loop claimRetries pod id gen.
Definition ReleaseAll (pod : bytes) : P unit :=
  ids ← pgets (λ F, map fst (map_to_list (c_held (f_pods F pod))));
  each ids (λ id, _ ← Release pod id; mret tt).

(** ** Reservations *)

Definition Reserve (id pop : bytes) : P (outcome fleet_error unit) :=
  if bool_decide (pop = []) then mret (Err ErrNoPop) else
  now ← Now;
  r ← Create (leaseName id) (reservation opts pop now);
  mret (match r with Err apiAlreadyExists => Err ErrConflict | r => r end).
Fixpoint unreserve_loop (n : nat) (pod id pop : bytes) : P (outcome fleet_error unit) :=
  match n with
  | O => mret (Err ErrExhausted)
  | S n' =>
      r ← api_Get (leaseName id);
      match r with
      | Err apiNotFound => mret (Ok tt)
      | Ok (l, rv) =>
          if bool_decide (pop = []) || negb (bool_decide (l_pop l = pop)) then mret (Err ErrReserved) else
          _ ← stopRenew pod id;
          r ← api_Delete (leaseName id) rv;
          match r with
          | Ok _ | Err apiNotFound => mret (Ok tt)
          | Err apiConflict => unreserve_loop n' pod id pop
          | r => mret r
          end
      | Err e => mret (Err e)
      | Fault => mret Fault
      end
  end.
Definition DeleteReservation (pod id pop : bytes) : P (outcome fleet_error unit) :=
  unreserve_loop claimRetries pod id pop.
(** the selector gawk/pop=[pop] asks for the label *)
Definition of_pop (pop : bytes) (l : Lease) : bool := isPopLease l && bool_decide (l_pop l = pop).
Fixpoint renew_each (l : list (bytes * (Lease * Z))) : P unit :=
  match l with
  | [] => mret tt
  | (n, (x, rv)) :: l' =>
      if negb (bool_decide (l_holder x = [])) then renew_each l' else
      now ← Now;
      _ ← Update n rv (renewed x now);
      renew_each l'
  end.
(** without the error it reports *)
Definition RenewReservations (pop : bytes) : P unit :=
  r ← api_List (of_pop pop);
  match r with Ok l => renew_each l | _ => mret tt end.
(** the IDs, without their order *)
Definition ReservedIDs (pop : bytes) : P (outcome fleet_error (list bytes)) :=
  r ← api_List (of_pop pop);
  mret (match r with
        | Ok l => Ok (omap (M:=list) (λ x : bytes * (Lease * Z), broadcastIDFromLease (fst x)) l)
        | Err e => Err e
        | Fault => Fault
        end).
Definition CountReservations (pop : bytes) : P (outcome fleet_error Z) :=
  r ← ReservedIDs pop;
  mret (match r with Ok l => Ok (zlen l) | Err e => Err e | Fault => Fault end).
Definition Resolve (id : bytes) : P (outcome fleet_error Origin) :=
  r ← api_Get (leaseName id);
  mret (match r with
        | Ok (l, _) => Ok (parseOrigin l)
        | Err apiNotFound => Err ErrNotFound
        | Err e => Err e
        | Fault => Fault
        end).

(** popsrv's clusterReservations *)
Inductive reserve_result := ReserveOK | ReserveConflict | ReserveLimit.
#[export] Instance reserve_result_eq_dec : EqDecision reserve_result.
Proof. solve_decision. Defined.
(** [Ok None]: undecided *)
Definition existing (id pop : bytes) : P (outcome fleet_error (option reserve_result)) :=
  r ← Resolve id;
  mret (match r with
        | Err ErrNotFound => Ok None
        | Err e => Err e
        | Ok o => Ok (Some (if bool_decide (o_pop o = pop) then ReserveOK else ReserveConflict))
        | Fault => Fault
        end).
Definition reserve_locked (id pop : bytes) (limit : Z) : P (outcome fleet_error reserve_result) :=
  r ← existing id pop;
  match r with
  | Err e => mret (Err e)
  | Fault => mret Fault
  | Ok (Some x) => mret (Ok x)
  | Ok None =>
      n ← (if limit >? 0 then CountReservations pop else mret (Ok (-1)));
      match n with
      | Err e => mret (Err e)
      | Fault => mret Fault
      | Ok n =>
          if (limit >? 0) && (n >=? limit) then mret (Ok ReserveLimit) else
          r ← Reserve id pop;
          match r with
          | Ok _ => mret (Ok ReserveOK)
          | Err ErrConflict =>
              r ← existing id pop;
              mret (match r with
                    | Err e => Err e
                    | Fault => Fault
                    | Ok (Some x) => Ok x
                    | Ok None => Ok ReserveConflict
                    end)
          | Err e => mret (Err e)
          | Fault => mret Fault
          end
      end
  end.
Definition set_resMu (b : bool) (m : cluster_more) : cluster_more := MkMore (c_synced m) b.
Definition set_synced (m : cluster_more) : cluster_more := MkMore true (c_resMu m).
Definition res_lock (pod : bytes) : P unit :=
  act (λ _ F, if c_resMu (c_more (f_pods F pod)) then None else Some (tt, upd_pod pod (set_c_more (set_resMu true)) F)).
Definition res_Reserve (pod id pop : bytes) (limit : Z) : P (outcome fleet_error reserve_result) :=
  _ ← res_lock pod;
  r ← reserve_locked id pop limit;
  _ ← pmodify (upd_pod pod (set_c_more (set_resMu false)));
  mret r.
(** without the errors it joins *)
Definition res_ReleaseAll (pod pop : bytes) : P unit :=
  r ← ReservedIDs pop;
  match r with Ok ids => each ids (λ id, _ ← DeleteReservation pod id pop; mret tt) | _ => mret tt end.

(** ** The janitor *)

Fixpoint sweep_each (l : list (bytes * (Lease * Z))) (now : Z) : P unit :=
  match l with
  | [] => mret tt
  | (n, (x, rv)) :: l' =>
      if negb (janitorExpired opts x now) then sweep_each l' now else
      _ ← api_Delete n rv;
      sweep_each l' now
  end.
Definition JanitorSweep : P unit :=
  r ← api_List (λ _, true);
  match r with Ok l => now ← Now; sweep_each l now | _ => mret tt end.

(** ** The informer *)

Definition on_deleted (pod id : bytes) : P unit :=
  h ← sect (λ _ F, (held_at pod id F, drop_held pod id F));
  _ ← (match h with Some h => pmodify (cancel_h h) | None => mret tt end);
  pmodify (emit_ (OnLeaseDeleted pod id)).
Definition lost_now (pod id : bytes) (o : Origin) (F : Fleet) : option nat :=
  match held_at pod id F with
  | Some h => if negb (bool_decide (o_holder o = pod)) || negb (bool_decide (gen_of h F = Some (o_gen o)))
              then Some h else None
  | None => None
  end.
Definition on_updated (pod id : bytes) (old new : Lease) : P unit :=
  let o := parseOrigin new in
  _ ← (if negb (bool_decide (o_pop o = [])) && negb (bool_decide (o_holder o = [])) && bool_decide (l_holder old = [])
       then pmodify (emit_ (OnOriginClaimed pod id o)) else mret tt);
  h ← sect (λ _ F, let h := lost_now pod id o F in
                    (h, match h with Some _ => drop_held pod id F | None => F end));
  match h with
  | Some h => _ ← pmodify (cancel_h h); pmodify (emit_ (OnLeaseLost pod id o))
  | None => mret tt
  end.
Definition informer (pod : bytes) : P (option cgo) :=
  e ← next_event pod;
  _ ← match e with
      | Added _ _ => mret tt
      | Modified n old new =>
          match broadcastIDFromLease n with Some id => on_updated pod id (fst old) (fst new) | None => mret tt end
      | Deleted n _ =>
          match broadcastIDFromLease n with Some id => on_deleted pod id | None => mret tt end
      end;
  mret (Some (CInformer pod)).

(** ** Reads of a pod's own state *)

Definition LeasesSynced (c : Coordinator) : bool := c_synced (c_more c).
(** origin, inGrace, stalled *)
Definition Lookup (c : Coordinator) (id : bytes) (now : Z) : option (Origin * bool * bool) :=
  if negb (LeasesSynced c) then None else
  match c_cache c !! leaseName id with
  | None => None
  | Some (l, _) => Some (parseOrigin l, bool_decide (is_Some (l_grace l)) || renewStale opts l now, bool_decide (is_Some (l_stalled l)))
  end.
Definition ListReservations (c : Coordinator) (pop : bytes) : list bytes :=
  if bool_decide (pop = []) then [] else
  omap (λ x, if of_pop pop (fst (snd x)) then broadcastIDFromLease (fst x) else None) (map_to_list (c_cache c)).
Definition OriginGeneration (F : Fleet) (pod id : bytes) : option Z := held_gen pod id F.
Definition Held (F : Fleet) (pod id : bytes) (gen : Z) : bool := bool_decide (OriginGeneration F pod id = Some gen).
(** clusterReservations.Owner *)
Definition Owner (c : Coordinator) (id : bytes) (now : Z) : option bytes :=
  match Lookup c id now with
  | Some (o, _, _) => if bool_decide (o_pop o = []) then None else Some (o_pop o)
  | None => None
  end.

Definition code (k : cgo) : P (option cgo) :=
  match k with
  | CClaim pod id pop force => r ← claim pod id pop force; _ ← pmodify (emit_ (Claimed pod id pop r)); mret None
  | CRenew pod id h => renewLoop pod id h
  | CEnterGrace pod id => _ ← EnterGrace pod id; mret None
  | CSetStalled pod id b => _ ← SetStalled pod id b; mret None
  | CDelete pod id => _ ← Delete_ pod id; mret None
  | CRelease pod id => _ ← Release pod id; mret None
  | CReleaseGeneration pod id gen => _ ← ReleaseGeneration pod id gen; mret None
  | CReserve pod id pop limit => _ ← res_Reserve pod id pop limit; mret None
  | CDeleteReservation pod id pop => _ ← DeleteReservation pod id pop; mret None
  | CReleaseReservations pod pop => _ ← res_ReleaseAll pod pop; mret None
  | CRenewReservations _ pop => _ ← RenewReservations pop; mret None
  | CReleaseAll pod => _ ← ReleaseAll pod; mret None
  | CJanitor _ => _ ← JanitorSweep; mret None
  | CInformer pod => informer pod
  | CSync pod => _ ← pmodify (upd_pod pod (set_c_more set_synced)); mret None
  end.
End Cluster.
