(* ===== verification/ClusterCode.v ===== *)
(** internal/cluster: the Lease machine, and that the code of every goroutine makes
    only its steps. *)
From S2P Require Export KubeRun ClusterOps.
#[local] Open Scope Z_scope.

Existing Class Options.

(** What becomes of one Lease, atomically, and by which goroutine. [gens]: the
    generations the renew loops were started for; a time before the write's is the
    one its condition was judged at. *)
Inductive lease_step {opts : Options} (gens : nat → option Z) : cgo → bytes → option Lease → option Lease → Prop :=
  | StepCreate pod id force now : pod ≠ [] →
      lease_step gens (CClaim pod id [] force) (leaseName id) None (Some (created opts pod now))
  | StepTake pod id pop force l judged now : pod ≠ [] → l_pop l = pop → takeable opts pod force l judged = true →
      lease_step gens (CClaim pod id pop force) (leaseName id) (Some l) (Some (taken opts pod l now))
  | StepRenew pod id h l now : l_holder l = pod → gens h = Some (l_gen l) →
      lease_step gens (CRenew pod id h) (leaseName id) (Some l) (Some (renewed l now))
  | StepGrace pod id l now : l_holder l = pod →
      lease_step gens (CEnterGrace pod id) (leaseName id) (Some l) (Some (graced opts l now))
  | StepStall pod id stalled l now : l_holder l = pod → bool_decide (is_Some (l_stalled l)) = negb stalled →
      lease_step gens (CSetStalled pod id stalled) (leaseName id) (Some l) (Some (stalled_at stalled l now))
  | StepRelease k pod id l now : k = CRelease pod id ∨ k = CReleaseGeneration pod id (l_gen l) ∨ k = CReleaseAll pod →
      l_holder l = pod → lease_step gens k (leaseName id) (Some l) (Some (released l now))
  | StepReserve pod id pop limit now : pop ≠ [] →
      lease_step gens (CReserve pod id pop limit) (leaseName id) None (Some (reservation opts pop now))
  | StepRenewDormant pod n pop l now : pop ≠ [] → l_pop l = pop → l_holder l = [] →
      lease_step gens (CRenewReservations pod pop) n (Some l) (Some (renewed l now))
  | StepDelete pod id l : l_pop l = [] → l_holder l = [] ∨ l_holder l = pod →
      lease_step gens (CDelete pod id) (leaseName id) (Some l) None
  | StepUnreserve k pod id pop l : k = CDeleteReservation pod id pop ∨ k = CReleaseReservations pod pop →
      pop ≠ [] → l_pop l = pop → lease_step gens k (leaseName id) (Some l) None
  | StepSweep pod n l judged : janitorExpired opts l judged = true →
      lease_step gens (CJanitor pod) n (Some l) None.


#[export, refine] Instance lease_machine {opts : Options} : KubeMachine Lease cgo := {
  key := leaseName; holder := l_holder; ogen := l_gen; obj_step := lease_step;
  renew_go := CRenew;
  renews k := match k with CRenew pod id h => Some (pod, id, h) | _ => None end;
  needs k := match k with CClaim pod _ _ _ => pod ≠ [] | _ => True end;
  own_op k pod id :=
    match k with
    | CClaim p i _ _ | CEnterGrace p i | CDelete p i | CRelease p i | CReleaseGeneration p i _ | CDeleteReservation p i _ =>
        p = pod ∧ i = id
    | CReleaseAll p | CReleaseReservations p _ | CInformer p => p = pod
    | _ => False
    end;
}.
Proof.
  - inversion 1; subst; cbn; try (by auto). unfold released. destruct (isPopLease _); cbn; auto.
  - inversion 1.
  - done.
  - done.
Defined.

Section Code.
Context {Store : Type} {api : ObjApi Lease Store} {laws : ObjApiLaws Lease Store} {opts : Options}.
Notation Fleet := (LeaseFleet Store).
Notation P := (prog cans Fleet cgo).
Implicit Types F : Fleet.

(** ** Renew loops *)

Lemma keeps_stopRenew k pod id : own_op k pod id → keeps k (stopRenew pod id : P unit).
Proof. apply fkeeps_stop. Qed.
Lemma keeps_stopRenewAt k pod id gen : own_op k pod id → keeps k (stopRenewAt pod id gen : P unit).
Proof. apply fkeeps_stop. Qed.
Lemma hoare_startRenew k (A1 : Fleet → Prop) pod id gen : eternal A1 → own_op k pod id →
  hoare k (λ F, A1 F ∧ recorded (leaseName id) gen pod F) (startRenew pod id gen) (λ _, A1).
Proof. exact (hoare_go_renew k A1 pod id gen). Qed.

Lemma renewOnce_ok pod id h gen A1 : eternal A1 → (∀ F, A1 F → handle h pod id gen F) →
  hoare (CRenew pod id h) A1 (renewOnce pod id h) (λ _, A1).
Proof.
  intros Hs Hh. unfold renewOnce. eapply fhoare_bind; [exact (fhoare_Get_held (CRenew pod id h) A1 h pod id gen Hs Hh)|].
  intros [[l rv]|e|]; [|apply fhoare_ret; tauto..]. set (seen := lost_seen id pod gen (Some l)).
  eapply fhoare_pre with (A2 := λ F, (A1 F ∧ seen F) ∧ knows (leaseName id) l rv F); [by intros F _ [? [? ?]]|].
  assert (Hs' : eternal (λ F, A1 F ∧ seen F)).
  { apply eternal_and; [done|]. intros k F F' Hok Hg Hl Hx. by apply (eternal_gone _ _ k F), Hl. }
  eapply fhoare_bind; [apply (hoare_gen_of _ _ h pod id gen); [by apply eternal_read|intros F [[? _] _]; auto]|].
  intros g. apply fhoare_pure. intros ->.
  destruct (_ || _) eqn:E.
  - eapply fhoare_pre with (A2 := λ F, A1 F ∧ gone (leaseName id) gen F).
    { intros F _ [[? Hl] _]. split; [done|]. apply Hl. apply orb_true_iff in E as [E|E]; apply negb_true_iff, bool_decide_eq_false in E;
        cbn; [by left|right; congruence]. }
    eapply fhoare_bind; [apply (hoare_forget_gone _ _ _ _ _ gen); [apply eternal_and; [done|apply eternal_gone]|intros F [? _]; auto|by intros F [_ ?]]|].
    intros was. apply hoare_forget; [done|]. apply keep_keeps. fkeep_tac.
  - eapply fhoare_pre with (A2 := λ F, A1 F ∧ knows (leaseName id) l rv F); [tauto|].
    apply hoare_over; [done|apply keep_keeps, fkeep_Now|]. intros now.
    apply orb_false_elim in E as [E1%negb_false_iff E2%negb_false_iff]. apply bool_decide_eq_true in E1, E2.
    eapply fhoare_post; [|apply fhoare_Update; [done|]]; [by intros r F _ [? _]|].
    intros F Hok H. apply StepRenew; [done|]. pose proof (handle_gen _ _ _ _ _ (Hh F H)) as Hg. congruence.
Qed.
Lemma renewLoop_ok pod id h :
  hoare (CRenew pod id h) (pre (CRenew pod id h)) (renewLoop pod id h)
    (λ r F, match r with Some k => pre k F | None => True end).
Proof.
  set (k := CRenew pod id h).
  assert (Hg : ∀ gen, hoare k (handle h pod id gen) (renewLoop pod id h) (λ r F, match r with Some k => pre k F | None => True end)).
  { intros gen. unfold renewLoop. apply fhoare_skip; [apply eternal_handle|apply keep_keeps, fkeep_pgets|]. intros gone.
    assert (Hend : hoare k (handle h pod id gen) (_ ← pmodify (done_h h); mret None) (λ r F, match r with Some k => pre k F | None => True end)).
    { apply fhoare_skip; [apply eternal_handle|apply keep_keeps, fkeep_done|]. intros _. by apply fhoare_ret. }
    destruct gone; [done|]. eapply fhoare_bind; [apply (renewOnce_ok pod id h gen); [apply eternal_handle|done]|].
    intros r. cbn beta. case_bool_decide; [done|]. apply fhoare_ret. intros F' _ ?. split; [done|]. intros ? ? ? [= <- <- <-]. by exists gen. }
  intros F' Hok [_ Hh]. destruct (Hh _ _ _ eq_refl) as [gen H]. by apply (Hg gen).
Qed.

(** ** Claims *)

Lemma createLease_ok pod id force A1 : eternal A1 → pod ≠ [] →
  hoare (CClaim pod id [] force) A1 (createLease opts pod id)
    (λ r F, A1 F ∧ ∀ g, r = Ok g → recorded (leaseName id) g pod F).
Proof.
  intros Hs Hpod. unfold createLease. apply fhoare_skip; [done|apply keep_keeps; fkeep_tac|]. intros full.
  destruct full as [[]|e|]; [by apply fhoare_ret| |by apply fhoare_ret..].
  apply fhoare_skip; [done|apply keep_keeps, fkeep_Now|]. intros now. eapply fhoare_bind; [apply fhoare_Create; [done|]|].
  - intros gens. by apply StepCreate.
  - intros r. apply fhoare_ret. intros F _ [H Hr]. split; [done|]. intros g. destruct r as [[]| |]; [|done..].
    intros [= <-]. by apply (Hr eq_refl).
Qed.
Lemma claim_loop_ok n pod id pop force : pod ≠ [] → keeps (CClaim pod id pop force) (claim_loop opts n pod id pop force).
Proof.
  intros Hpod. induction n as [|n IH]; cbn [claim_loop]; [apply fkeeps_ret|]. apply keeps_Get; [| |apply fkeeps_ret].
  - intros l rv A1 Hs. case_bool_decide as Epop; cbn [negb]; [|by apply hoare_forget, fkeeps_ret].
    apply hoare_over; [done|apply keep_keeps, fkeep_Now|]. intros judged.
    destruct (takeable opts pod force l judged) eqn:Et; cbn [negb]; [|by apply hoare_forget, fkeeps_ret].
    apply hoare_over; [done|apply keep_keeps, fkeep_Now|]. intros now.
    eapply fhoare_bind; [apply fhoare_Update; [done|]; intros F _ _; by apply StepTake with (judged := judged)|].
    intros [[]|e|]; cbn beta iota.
    + apply fhoare_bind with (M := λ _, A1); [|intros ?; by apply fhoare_ret].
      eapply fhoare_pre; [|by apply hoare_startRenew]. intros F _ [H Hr]. split; [done|]. by apply Hr.
    + destruct e; apply hoare_forget; try done; apply fkeeps_ret.
    + by apply hoare_forget, fkeeps_ret.
  - intros e. destruct e; try apply fkeeps_ret. case_bool_decide as Epop; cbn [negb]; [|apply fkeeps_ret]. subst pop.
    intros A1 Hs. eapply fhoare_bind; [by apply createLease_ok|]. intros [g|e|]; cbn beta iota.
    + apply fhoare_bind with (M := λ _, A1); [|intros ?; by apply fhoare_ret].
      eapply fhoare_pre; [|by apply hoare_startRenew]. intros F _ [H Hr]. split; [done|]. by apply Hr.
    + destruct e; apply hoare_forget; try done; apply fkeeps_ret.
    + by apply hoare_forget, fkeeps_ret.
Qed.

(** ** The holder's other writes *)

Lemma EnterGrace_ok pod id : keeps (CEnterGrace pod id) (EnterGrace opts pod id).
Proof.
  unfold EnterGrace. apply fkeeps_bind; [by apply keeps_stopRenew|]. intros _.
  apply keeps_Get; [|intros []; apply fkeeps_ret|apply fkeeps_ret].
  intros l rv A1 Hs. case_bool_decide as Eh; cbn [negb]; [|by apply hoare_forget, fkeeps_ret].
  apply hoare_over; [done|apply keep_keeps, fkeep_Now|]. intros now.
  apply hoare_last_Update; [done|]. intros gens. by apply StepGrace.
Qed.
Lemma SetStalled_ok pod id stalled : keeps (CSetStalled pod id stalled) (SetStalled pod id stalled).
Proof.
  unfold SetStalled. generalize claimRetries. intros n. induction n as [|n IH]; cbn [stalled_loop]; [apply fkeeps_ret|].
  apply keeps_Get; [|intros []; apply fkeeps_ret|apply fkeeps_ret].
  intros l rv A1 Hs. case_bool_decide as Eh; cbn [negb]; [|by apply hoare_forget, fkeeps_ret].
  destruct (Bool.eqb _ _) eqn:Es; [by apply hoare_forget, fkeeps_ret|].
  apply hoare_over; [done|apply keep_keeps, fkeep_Now|]. intros now.
  eapply fhoare_bind; [apply hoare_last_Update; [done|]; intros gens; apply StepStall; [done|]|].
  - by destruct (bool_decide _), stalled.
  - intros [[]|[]|]; first [by apply IH | by apply fkeeps_ret].
Qed.
Lemma Delete_ok pod id : keeps (CDelete pod id) (Delete_ pod id).
Proof.
  unfold Delete_. apply fkeeps_bind; [by apply keeps_stopRenew|]. intros _.
  apply keeps_Get; [|intros []; apply fkeeps_ret|apply fkeeps_ret].
  intros l rv A1 Hs. unfold isPopLease. case_bool_decide as Ep; cbn [negb]; [|by apply hoare_forget, fkeeps_ret].
  destruct (_ && _) eqn:Eh; [by apply hoare_forget, fkeeps_ret|].
  eapply fhoare_bind; [apply fhoare_api_Delete; [done|]; intros gens; apply StepDelete; [done|]|intros r; by apply fkeeps_ret].
  apply andb_false_iff in Eh as [E|E]; apply negb_false_iff, bool_decide_eq_true in E; auto.
Qed.
Lemma Release_ok k pod id : k = CRelease pod id ∨ k = CReleaseAll pod → keeps k (Release pod id).
Proof.
  intros Hk. unfold Release. apply fkeeps_bind; [apply keeps_stopRenew; by destruct Hk as [->| ->]|]. intros _.
  apply keeps_Get; [|intros []; apply fkeeps_ret|apply fkeeps_ret].
  intros l rv A1 Hs. case_bool_decide as Eh; cbn [negb]; [|by apply hoare_forget, fkeeps_ret].
  apply hoare_over; [done|apply keep_keeps, fkeep_Now|]. intros now.
  apply hoare_last_Update; [done|]. intros gens. apply (StepRelease gens k pod id l now); [tauto|done].
Qed.
Lemma ReleaseGeneration_ok pod id gen : keeps (CReleaseGeneration pod id gen) (ReleaseGeneration pod id gen).
Proof.
  unfold ReleaseGeneration. generalize claimRetries. intros n. induction n as [|n IH]; cbn [release_loop]; [apply fkeeps_ret|].
  apply fkeeps_bind; [apply keep_keeps, fkeep_pgets|]. intros h. apply fkeeps_bind; [apply keep_keeps, fkeep_pgets|]. intros [].
  { apply fkeeps_ret. }
  apply keeps_Get; [|intros []; apply fkeeps_ret|apply fkeeps_ret].
  intros l rv A1 Hs. destruct (_ || _) eqn:E; [by apply hoare_forget, fkeeps_ret|].
  apply orb_false_elim in E as [E1%negb_false_iff E2%negb_false_iff]. apply bool_decide_eq_true in E1. apply Z.eqb_eq in E2.
  apply hoare_over; [done|by apply keeps_stopRenewAt|]. intros _.
  apply hoare_over; [done|apply keep_keeps, fkeep_Now|]. intros now.
  eapply fhoare_bind; [apply hoare_last_Update; [done|]; intros gens|].
  - apply (StepRelease gens _ pod id l now); [rewrite E2; auto|done].
  - intros [[]|[]|]; first [by apply IH | by apply fkeeps_ret].
Qed.
Lemma ReleaseAll_ok pod : keeps (CReleaseAll pod) (ReleaseAll pod).
Proof.
  unfold ReleaseAll. apply fkeeps_bind; [apply keep_keeps, fkeep_pgets|]. intros ids. apply keeps_each. intros id.
  apply fkeeps_bind; [by apply Release_ok; right|]. intros _. apply fkeeps_ret.
Qed.

(** ** Reservations *)

Lemma keep_Resolve id : keep (Resolve id).
Proof. unfold Resolve. fkeep_tac. Qed.
Lemma keep_ReservedIDs pop : keep (ReservedIDs pop).
Proof. unfold ReservedIDs. fkeep_tac. Qed.
#[local] Hint Resolve keep_Resolve keep_ReservedIDs : fleetkeeps.
Lemma keep_existing id pop : keep (existing id pop).
Proof. unfold existing. fkeep_tac. Qed.
Lemma keep_Count pop : keep (CountReservations pop).
Proof. unfold CountReservations. fkeep_tac. Qed.
#[local] Hint Resolve keep_existing keep_Count : fleetkeeps.

Lemma Reserve_ok pod id pop limit : keeps (CReserve pod id pop limit) (Reserve opts id pop).
Proof.
  unfold Reserve. case_bool_decide as Ep; [apply fkeeps_ret|]. apply fkeeps_bind; [apply keep_keeps, fkeep_Now|]. intros now.
  intros A1 Hs. eapply fhoare_bind; [apply fhoare_Create; [done|]; intros gens; by apply StepReserve|].
  intros r. apply fhoare_ret. by intros F _ [? _].
Qed.
Lemma res_Reserve_ok pod id pop limit : keeps (CReserve pod id pop limit) (res_Reserve opts pod id pop limit).
Proof.
  unfold res_Reserve. apply fkeeps_bind.
  { unfold res_lock. apply fkeeps_act. intros a F b F' Hok. case_match; [done|]. intros [= <- <-]. by apply quiet_pod. }
  intros _. apply fkeeps_bind; [|intros r; apply fkeeps_bind; [apply keep_keeps, fkeep_more|intros _; apply fkeeps_ret]].
  unfold reserve_locked. apply fkeeps_bind; [apply keep_keeps, keep_existing|]. intros [[x|]|e|]; try apply fkeeps_ret.
  apply fkeeps_bind; [apply keep_keeps; fkeep_tac|]. intros [m|e|]; try apply fkeeps_ret.
  destruct (_ && _); [apply fkeeps_ret|]. apply fkeeps_bind; [apply Reserve_ok|].
  intros [[]|[]|]; try apply fkeeps_ret. apply keep_keeps. fkeep_tac.
Qed.
Lemma DeleteReservation_ok k pod id pop : k = CDeleteReservation pod id pop ∨ k = CReleaseReservations pod pop →
  keeps k (DeleteReservation pod id pop).
Proof.
  intros Hk. unfold DeleteReservation. generalize claimRetries. intros n.
  induction n as [|n IH]; cbn [unreserve_loop]; [apply fkeeps_ret|].
  apply keeps_Get; [|intros []; apply fkeeps_ret|apply fkeeps_ret].
  intros l rv A1 Hs. destruct (_ || _) eqn:E; [by apply hoare_forget, fkeeps_ret|].
  apply orb_false_elim in E as [E1%bool_decide_eq_false E2%negb_false_iff]. apply bool_decide_eq_true in E2.
  apply hoare_over; [done|apply keeps_stopRenew; by destruct Hk as [->| ->]|]. intros _.
  eapply fhoare_bind; [apply fhoare_api_Delete; [done|]; intros gens; by apply (StepUnreserve gens k pod id pop l)|].
  intros [[]|[]|]; first [by apply IH | by apply fkeeps_ret].
Qed.
Lemma res_ReleaseAll_ok pod pop : keeps (CReleaseReservations pod pop) (res_ReleaseAll pod pop).
Proof.
  unfold res_ReleaseAll. apply fkeeps_bind; [apply keep_keeps, keep_ReservedIDs|]. intros [ids|e|]; try apply fkeeps_ret.
  apply keeps_each. intros id. apply fkeeps_bind; [by apply DeleteReservation_ok; right|]. intros _. apply fkeeps_ret.
Qed.

Lemma renew_each_ok pod pop xs A1 : eternal A1 →
  hoare (CRenewReservations pod pop) (λ F, A1 F ∧ Forall (listed (of_pop pop) F) xs) (renew_each xs) (λ _, A1).
Proof.
  intros Hs. induction xs as [|[n [x rv]] xs IH]; cbn [renew_each]; [apply fhoare_ret; tauto|].
  case_bool_decide as Eh; cbn [negb].
  2:{ eapply fhoare_pre; [|apply IH]. intros F _ [? Hl%Forall_cons]. tauto. }
  apply fhoare_skip; [by apply eternal_rest|apply keep_keeps, fkeep_Now|]. intros now.
  eapply fhoare_pre with (A2 := λ F, ((A1 F ∧ Forall (listed (of_pop pop) F) xs) ∧ of_pop pop x = true) ∧ knows n x rv F).
  { intros F _ [? [[Hp Hk] ?]%Forall_cons]. tauto. }
  eapply fhoare_bind with (M := λ _ F, (A1 F ∧ Forall (listed (of_pop pop) F) xs) ∧ of_pop pop x = true).
  - eapply fhoare_post; [|apply fhoare_Update]; [by intros r F _ [? _]|apply eternal_and; [by apply eternal_rest|apply eternal_pure]|].
    intros F _ [_ Hp]. unfold of_pop, isPopLease in Hp.
    apply andb_true_iff in Hp as [Hn%negb_true_iff%bool_decide_eq_false Hp%bool_decide_eq_true].
    apply StepRenewDormant; [congruence|done..].
  - intros _. eapply fhoare_pre; [|apply IH]. tauto.
Qed.
Lemma RenewReservations_ok pod pop : keeps (CRenewReservations pod pop) (RenewReservations pop).
Proof.
  intros A1 Hs. unfold RenewReservations. apply hoare_List_then; [done| |intros e; apply fkeeps_ret|apply fkeeps_ret].
  intros xs. by apply renew_each_ok.
Qed.

(** ** The janitor and the informer *)

Lemma sweep_each_ok pod xs now A1 : eternal A1 →
  hoare (CJanitor pod) (λ F, A1 F ∧ Forall (listed (λ _, true) F) xs) (sweep_each opts xs now) (λ _, A1).
Proof.
  intros Hs. induction xs as [|[n [x rv]] xs IH]; cbn [sweep_each]; [apply fhoare_ret; tauto|].
  destruct (janitorExpired opts x now) eqn:Ej; cbn [negb].
  2:{ eapply fhoare_pre; [|apply IH]. intros F _ [? Hl%Forall_cons]. tauto. }
  eapply fhoare_pre with (A2 := λ F, (A1 F ∧ Forall (listed (λ _, true) F) xs) ∧ knows n x rv F).
  { intros F _ [? [[Hp Hk] ?]%Forall_cons]. tauto. }
  eapply fhoare_bind with (M := λ _ F, A1 F ∧ Forall (listed (λ _, true) F) xs).
  - apply fhoare_api_Delete; [by apply eternal_rest|]. intros gens. by apply StepSweep with (judged := now).
  - intros _. apply IH.
Qed.
Lemma JanitorSweep_ok pod : keeps (CJanitor pod) (JanitorSweep opts).
Proof.
  intros A1 Hs. unfold JanitorSweep. apply hoare_List_then; [done| |intros e; apply fkeeps_ret|apply fkeeps_ret].
  intros xs. apply fhoare_skip; [by apply eternal_rest|apply keep_keeps, fkeep_Now|]. intros now. by apply sweep_each_ok.
Qed.
(** the Coordinator's informer drops what it is told is lost, rightly or not *)
Lemma on_deleted_ok pod id : keeps (CInformer pod) (on_deleted pod id).
Proof.
  unfold on_deleted. apply fkeeps_bind; [|intros h; apply keep_keeps; fkeep_tac].
  apply fkeeps_sect. intros a F Hok. apply quiet_drop; [done|by left].
Qed.
Lemma on_updated_ok pod id old new : keeps (CInformer pod) (on_updated pod id old new).
Proof.
  unfold on_updated. apply fkeeps_bind; [apply keep_keeps; fkeep_tac|]. intros _.
  apply fkeeps_bind; [|intros h; apply keep_keeps; fkeep_tac]. apply fkeeps_sect. intros a F Hok. cbn.
  case_match; [apply quiet_drop; [done|by left]|by apply quiet_same].
Qed.

(** ** The code of the goroutines *)

Notation goes := (λ (r : option cgo) F, match r with Some k' => pre k' F | None => True end).
Lemma claim_ok pod id pop force :
  hoare (CClaim pod id pop force) (λ _, pod ≠ []) (code opts (CClaim pod id pop force)) goes.
Proof.
  cbn [code]. eapply fhoare_pre with (A2 := λ F : Fleet, True ∧ pod ≠ []); [done|]. apply fhoare_pure. intros Hpod.
  apply fhoare_skip; [apply eternal_pure|by apply claim_loop_ok|]. intros r.
  apply fkeeps_end, keep_keeps, fkeep_emit.
Qed.
Theorem lease_code_ok k : hoare k (pre k) (code opts k) goes.
Proof.
  destruct k; [eapply fhoare_pre; [|apply claim_ok]; by intros F _ [? _]|apply renewLoop_ok|..];
    (apply fhoare_pre with (A2 := λ _, True); [done|]); cbn [code]; try apply fkeeps_end.
  - apply EnterGrace_ok.
  - apply SetStalled_ok.
  - apply Delete_ok.
  - by apply Release_ok; left.
  - apply ReleaseGeneration_ok.
  - apply res_Reserve_ok.
  - by apply DeleteReservation_ok; left.
  - apply res_ReleaseAll_ok.
  - apply RenewReservations_ok.
  - apply ReleaseAll_ok.
  - apply JanitorSweep_ok.
  - unfold informer. apply fhoare_skip; [apply eternal_pure|apply keep_keeps, fkeep_next|]. intros e.
    apply fhoare_skip; [apply eternal_pure| |intros _; by apply fhoare_ret].
    destruct e as [n x|n o x|n x]; [apply fkeeps_ret| |]; (destruct (broadcastIDFromLease n); [|apply fkeeps_ret]);
      [apply on_updated_ok|apply on_deleted_ok].
  - apply keep_keeps, fkeep_more.
Qed.
End Code.
