(* ===== verification/ClusterSpec.v ===== *)
(** internal/cluster: what the Coordinators of a fleet promise, over every
    interleaving of their goroutines and every answer of the API server. *)
From S2P Require Export ClusterCode.
#[local] Open Scope Z_scope.

Section Spec.
Context {Store : Type} {api : ObjApi Lease Store} {laws : ObjApiLaws Lease Store} {opts : Options}.
Notation Fleet := (LeaseFleet Store).
Implicit Types F : Fleet.
Notation run := (run (code opts)).
Notation fleet_after := (fleet_after (code opts)).

(** C10. One move of any goroutine, after any run and whatever the API server
    answers it (the call refused, or carried out with its answer lost, too): no
    Lease changes, or one Lease makes one step of the Lease machine, a step that goroutine
    may make of the Lease as it is at that moment, and the watch tells it. A read that is
    out of date by the time of the write changes nothing. *)
Theorem coordinator_refines l F i a k : fleet_picks l → fleet0 F → fst <$> fst (run l F) !! i = Some k →
  let F1 := fleet_after l F in
  let F2 := fleet_after (l ++ [Move i a]) F in
  machine (gens_of F1) k (objects F1) (f_watch F1) (objects F2) (f_watch F2).
Proof. exact (fleet_refines (code opts) lease_code_ok l F i a k). Qed.

(** C11. After any run, of a broadcast whose Lease was never deleted: a pod that
    holds it at a generation is the only one that holds it at that generation; the
    Lease is at that generation or a later one; at that one, its holder is that pod or none. *)
Theorem one_origin_per_generation l F p id g : fleet_picks l → fleet0 F →
  let F' := fleet_after l F in
  undeleted (leaseName id) F' → OriginGeneration F' p id = Some g →
  (∀ q, OriginGeneration F' q id = Some g → q = p) ∧
  ∃ x, obj_at (leaseName id) F' = Some x ∧ g ≤ l_gen x ∧ (g = l_gen x → l_holder x = [] ∨ l_holder x = p).
Proof. exact (one_holder (code opts) lease_code_ok l F p id g). Qed.

(** what a read of the API server makes of a Lease, as [Lookup] reports it *)
Definition looked (l : Lease) (now : Z) : Origin * bool * bool :=
  (parseOrigin l, bool_decide (is_Some (l_grace l)) || renewStale opts l now, bool_decide (is_Some (l_stalled l))).
(** C12. After any run, what [Lookup] and [Owner] of a pod whose informer is synced
    answer is what a read of the API server would have answered at one moment of that
    run, the same for every broadcast; a pod that has been told all there is answers what it would answer now. *)
Theorem lookup_was_true l F pod : fleet_picks l → fleet0 F →
  let F' := fleet_after l F in
  let c := f_pods F' pod in
  LeasesSynced c = true →
  ∃ l1 l2, l = l1 ++ l2 ∧ (c_cursor c = length (f_watch F') → ∀ n, obj_at n (fleet_after l1 F) = obj_at n F') ∧
  ∀ id now, Lookup opts c id now = (λ x, looked x now) <$> obj_at (leaseName id) (fleet_after l1 F) ∧
    Owner opts c id now = (obj_at (leaseName id) (fleet_after l1 F) ≫= λ x, if isPopLease x then Some (l_pop x) else None).
Proof.
  intros Hl H0 F' c Hc. destruct (cache_was_true (code opts) lease_code_ok l F pod Hl H0) as (l1 & l2 & El & Ec & Hcache).
  fold F' c in Ec, Hcache. exists l1, l2. split; [done|]. split; [done|]. intros id now. unfold Owner, Lookup. rewrite Hc, Hcache.
  unfold obj_at. cbn [negb]. destruct (api_get _ _) as [[x rv]|]; [|done]. split; [done|]. cbn. unfold isPopLease. by case_bool_decide.
Qed.

(** ** A claim that nothing disturbs *)

Notation fine_at now := (MkCAns Fine now []).
(** the answer of [Claim], from the Lease as it is *)
Definition claim_answer (pod id pop : bytes) (force : bool) (now : Z) (F : Fleet) : outcome fleet_error (Z * Lease) :=
  match obj_at (leaseName id) F with
  | None =>
      if negb (bool_decide (pop = [])) then Err ErrNotFound
      else if (MaxBroadcasts opts >? 0) &&
              (zlen (List.filter (λ x, negb (isPopLease (fst (snd x)))) (api_list (f_api F))) >=? MaxBroadcasts opts)
      then Err ErrMaxBroadcasts else Ok (1, created opts pod now)
  | Some l =>
      if negb (bool_decide (l_pop l = pop)) then Err ErrReserved
      else if negb (takeable opts pod force l now) then Err ErrHeldElsewhere
      else Ok (l_gen l + 1, taken opts pod l now)
  end.
Lemma alone_create now pod id F : api_get (f_api F) (leaseName id) = None →
  alone (fine_at now) (createLease opts pod id) F =
  Some (if (MaxBroadcasts opts >? 0) &&
           (zlen (List.filter (λ x, negb (isPopLease (fst (snd x)))) (api_list (f_api F))) >=? MaxBroadcasts opts)
        then (Err ErrMaxBroadcasts, F) else (Ok 1, land (Put (leaseName id) (created opts pod now)) F)).
Proof.
  intros E. unfold createLease. rewrite alone_bind. destruct (MaxBroadcasts opts >? 0).
  - rewrite alone_bind. cbn -[Now Create]. destruct (_ >=? _); cbn -[Now Create]; [done|].
    rewrite alone_bind, alone_Now, alone_bind, (alone_Create (fine_at now)) by done. done.
  - cbn -[Now Create]. rewrite alone_bind, alone_Now, alone_bind, (alone_Create (fine_at now)) by done. done.
Qed.
Lemma alone_startRenew a pod id gen F : alone a (startRenew pod id gen) F = Some (tt, fresh_handle pod id gen F).
Proof. done. Qed.

(** C13. A claim that nothing disturbs ends, and answers from the Lease as it is: no Lease, and
    the claim is for a PoP: not found; no Lease and the broadcasts are at their maximum: refused;
    another PoP's Lease: reserved; a fresh one of another holder, without force: held
    elsewhere; otherwise it leaves the Lease that is its own, at the next generation, every other as
    it was, and the pod holds the broadcast at that generation. Refused, it changes nothing. *)
Theorem claim_decides pod id pop force now (F : Fleet) :
  ∃ F', alone (MkCAns Fine now []) (claim opts pod id pop force) F =
    Some (match claim_answer pod id pop force now F with Ok (g, _) => Ok g | Err e => Err e | Fault => Fault end, F') ∧
  match claim_answer pod id pop force now F with
  | Ok (g, l) => OriginGeneration F' pod id = Some g ∧ obj_at (leaseName id) F' = Some l ∧ l_gen l = g ∧ l_holder l = pod ∧
                 ∀ n, n ≠ leaseName id → obj_at n F' = obj_at n F
  | _ => F' = F
  end.
Proof.
  unfold claim_answer, obj_at, claim, claimRetries. cbn [claim_loop]. rewrite alone_bind, (alone_Get (fine_at now)) by done.
  destruct (api_get (f_api F) (leaseName id)) as [[l rv]|] eqn:E; cbn [fst fmap option_fmap option_map]; case_bool_decide as Ep;
    cbn [negb]; try by eexists.
  - rewrite alone_bind, alone_Now. destruct (takeable _ _ _ _ _); cbn [negb]; [|by eexists].
    rewrite alone_bind, alone_Now, alone_bind, (alone_Update (fine_at now) eq_refl _ l) by done. rewrite alone_bind, alone_startRenew.
    eexists. split; [done|].
    destruct (claimed pod id (taken opts pod l now) (l_gen l + 1) F) as (? & ? & ?). by split_and!.
  - rewrite alone_bind, alone_create by done. destruct (_ && _); [by eexists|].
    rewrite alone_bind, alone_startRenew. eexists. split; [done|].
    destruct (claimed pod id (created opts pod now) 1 F) as (? & ? & ?). by split_and!.
Qed.
End Spec.
