(* ===== verification/ClusterSamples.v ===== *)
(** internal/cluster: runs of a small fleet, and one in which a late event makes a
    pod drop what it has just claimed. *)
From S2P Require Export ClusterSpec.
#[local] Open Scope Z_scope.

(** ** A fleet *)

Definition sample_opts : Options := MkCOptions (λ p, p) (30 * 10 ^ 9) 0 (15 * 10 ^ 9).
#[local] Existing Instance sample_opts.
Definition sample_fleet : LeaseFleet (Histories Lease) := MkFleet ∅ [] (λ _, MkPod ∅ 0 ∅ (MkMore false false)) ∅ 0 [].
Lemma sample_fleet0 : fleet0 sample_fleet.
Proof. split_and!; [by intros n|done..]. Qed.
Notation podA := (str "a"%string).
Notation podB := (str "b"%string).
Notation bc := (str "4F2K"%string).
Ltac picks_ok := unfold fleet_picks, play, fine_move; cbn [app repeat]; repeat (first [by apply Forall_nil | apply Forall_cons; split; [done|] ]).

(** ** Runs *)

Notation claim_a := (play 0 6 (CClaim podA bc [] false)).
(** a claims, b takes over by force: up to its write *)
Notation takeover := (claim_a ++ play 1 3 (CClaim podB bc [] true)).
Lemma coordinator_refines_witness :
  (machine (gens_of (fleet_after (code sample_opts) takeover sample_fleet)) (CClaim podB bc [] true)
    (objects (fleet_after (code sample_opts) takeover sample_fleet)) (f_watch (fleet_after (code sample_opts) takeover sample_fleet))
    (objects (fleet_after (code sample_opts) (takeover ++ [fine_move 1]) sample_fleet))
    (f_watch (fleet_after (code sample_opts) (takeover ++ [fine_move 1]) sample_fleet))) ∧
  length (f_watch (fleet_after (code sample_opts) takeover sample_fleet)) = 1%nat ∧
  length (f_watch (fleet_after (code sample_opts) (takeover ++ [fine_move 1]) sample_fleet)) = 2%nat.
Proof.
  split; [|split; vm_compute; reflexivity].
  apply (coordinator_refines (opts:=sample_opts) takeover sample_fleet 1 (MkCAns Fine (10 ^ 9) [])).
  - picks_ok.
  - apply sample_fleet0.
  - vm_compute. reflexivity.
Defined.

(** b has taken over, a has not heard of it *)
Notation taken_over := (claim_a ++ play 1 7 (CClaim podB bc [] true)).
Lemma one_origin_per_generation_witness :
  OriginGeneration (fleet_after (code sample_opts) taken_over sample_fleet) podA bc = Some 1 ∧
  OriginGeneration (fleet_after (code sample_opts) taken_over sample_fleet) podB bc = Some 2 ∧
  (∀ q, OriginGeneration (fleet_after (code sample_opts) taken_over sample_fleet) q bc = Some 2 → q = podB) ∧
  ∃ x, obj_at (leaseName bc) (fleet_after (code sample_opts) taken_over sample_fleet) = Some x ∧ 2 ≤ l_gen x ∧
       (2 = l_gen x → l_holder x = [] ∨ l_holder x = podB).
Proof.
  split; [vm_compute; reflexivity|]. split; [vm_compute; reflexivity|].
  apply (one_origin_per_generation (opts:=sample_opts) taken_over sample_fleet podB bc 2).
  - picks_ok.
  - apply sample_fleet0.
  - assert (E : forallb (λ e, bool_decide (is_Some (ev_new e)))
      (f_watch (fleet_after (code sample_opts) taken_over sample_fleet)) = true) by (vm_compute; reflexivity).
    rewrite forallb_forall in E. intros e He%list_elem_of_In _ Hn. apply E in He. rewrite Hn in He. done.
  - vm_compute. reflexivity.
Defined.

(** b's informer is synced and has seen the first event *)
Notation watched_one := (taken_over ++ play 2 1 (CSync podB) ++ play 3 1 (CInformer podB)).
Lemma lookup_was_true_witness :
  LeasesSynced (f_pods (fleet_after (code sample_opts) watched_one sample_fleet) podB) = true ∧
  Lookup sample_opts (f_pods (fleet_after (code sample_opts) watched_one sample_fleet) podB) bc (10 ^ 9) =
    Some (MkOrigin podA podA 1 [], false, false) ∧
  ∃ l1 l2, watched_one = l1 ++ l2 ∧
    (c_cursor (f_pods (fleet_after (code sample_opts) watched_one sample_fleet) podB) =
       length (f_watch (fleet_after (code sample_opts) watched_one sample_fleet)) →
     ∀ n, obj_at n (fleet_after (code sample_opts) l1 sample_fleet) = obj_at n (fleet_after (code sample_opts) watched_one sample_fleet)) ∧
    ∀ id now, Lookup sample_opts (f_pods (fleet_after (code sample_opts) watched_one sample_fleet) podB) id now =
      (λ x, looked x now) <$> obj_at (leaseName id) (fleet_after (code sample_opts) l1 sample_fleet) ∧
      Owner sample_opts (f_pods (fleet_after (code sample_opts) watched_one sample_fleet) podB) id now =
      (obj_at (leaseName id) (fleet_after (code sample_opts) l1 sample_fleet) ≫= λ x, if isPopLease x then Some (l_pop x) else None).
Proof.
  split; [vm_compute; reflexivity|]. split; [vm_compute; reflexivity|].
  apply (lookup_was_true (opts:=sample_opts) watched_one sample_fleet podB).
  - picks_ok.
  - apply sample_fleet0.
  - vm_compute. reflexivity.
Defined.

(** The publisher of a leaves, the Lease is in grace; it is back, a claims at
    generation 2. Only now a's informer hears of the grace. *)
Notation regrace := (claim_a ++ play 1 2 (CEnterGrace podA bc) ++ [fine_move 0; fine_move 0; fine_move 0] ++
  repeat (fine_move 0) 5 ++ play 0 7 (CClaim podA bc [] false)).
(** [UpdateFunc] takes every event at its word: the event of the older generation makes
    the pod drop the Lease it holds, stop its renewals and report it lost (the server
    then closes the publisher that has just come back), while the API server has it as the holder. *)
Example late_event_drops_lease :
  let F1 := fleet_after (code sample_opts) regrace sample_fleet in
  let F2 := fleet_after (code sample_opts) (regrace ++ play 1 7 (CInformer podA)) sample_fleet in
  OriginGeneration F1 podA bc = Some 2 ∧ OriginGeneration F2 podA bc = None ∧
  last (f_out F2) = Some (OnLeaseLost podA bc (MkOrigin podA podA 1 [])) ∧
  (λ l, (l_holder l, l_gen l)) <$> obj_at (leaseName bc) F2 = Some (podA, 2).
Proof. vm_compute. repeat split. Qed.

(** a reservation and an ordinary claim, undisturbed *)
Lemma claim_decides_witness :
  ∃ F', alone (MkCAns Fine (10 ^ 9) []) (claim sample_opts podA bc [] false) sample_fleet = Some (Ok 1, F') ∧
    obj_at (leaseName bc) F' = Some (created sample_opts podA (10 ^ 9)) ∧
    ∀ n, n ≠ leaseName bc → obj_at n F' = None.
Proof.
  destruct (claim_decides (opts:=sample_opts) podA bc [] false (10 ^ 9) sample_fleet) as (F' & E & H). exists F'.
  change (claim_answer podA bc [] false (10 ^ 9) sample_fleet) with
    (@Ok fleet_error _ (1, created sample_opts podA (10 ^ 9))) in E, H. cbv iota beta in E, H. destruct H as (_ & Hl & _ & _ & Hn).
  split; [exact E|]. split; [exact Hl|]. intros n Hne. by rewrite Hn.
Defined.
