(* ===== verification/RoomFleetData.v ===== *)
(** internal/roomcluster/store.go, rooms/rooms.go: the Room resource, its home lease, and
    what a pod of a fleet of Rooms does besides what every fleet has (KubeFleet). *)
From S2P Require Export RegLife KubeFleet.
#[local] Open Scope Z_scope.

(** ** The Room resource *)

(** [sp_dynamic]: Kind is dynamic *)
Record RoomSpec := MkSpec {
  sp_dynamic : bool;
  sp_DisplayCode : bytes;
  sp_DisplayName : bytes;
  sp_AttachSecretRef : option (bytes * bytes);
  sp_MaxBroadcasts : Z;
  sp_Mumble : option MumbleIntegration;
  sp_Screening : bytes;
  sp_Pop : bytes;
  sp_MaxParticipants : Z;
}.
#[export] Instance RoomSpec_eq_dec : EqDecision RoomSpec.
Proof. solve_decision. Defined.
(** times in ns *)
Record HomeLease := MkHomeLease { hl_holder : bytes; hl_addr : bytes; hl_gen : Z; hl_renewed : option Z }.
Record RoomStatus := MkStatus {
  st_Fingerprint : bytes;
  st_Key : bytes;
  st_CreatedAt : option Z;
  st_Atts : list (bytes * bytes);
  st_Lease : option HomeLease;
  st_EmptySince : option Z;
}.
Record Room := MkRoom { ro_spec : RoomSpec; ro_status : RoomStatus }.
Definition bare_status : RoomStatus := MkStatus [] [] None [] None None.
Definition set_status (f : RoomStatus → RoomStatus) (r : Room) : Room := MkRoom (ro_spec r) (f (ro_status r)).
Definition set_Lease (l : option HomeLease) (s : RoomStatus) : RoomStatus :=
  MkStatus (st_Fingerprint s) (st_Key s) (st_CreatedAt s) (st_Atts s) l (st_EmptySince s).
Definition set_EmptySince (t : option Z) (s : RoomStatus) : RoomStatus :=
  MkStatus (st_Fingerprint s) (st_Key s) (st_CreatedAt s) (st_Atts s) (st_Lease s) t.
Definition set_Atts (l : list (bytes * bytes)) (s : RoomStatus) : RoomStatus :=
  MkStatus (st_Fingerprint s) (st_Key s) (st_CreatedAt s) l (st_Lease s) (st_EmptySince s).
Definition set_Key (k : bytes) (s : RoomStatus) : RoomStatus :=
  MkStatus (st_Fingerprint s) k (st_CreatedAt s) (st_Atts s) (st_Lease s) (st_EmptySince s).
Definition set_CreatedAt (t : option Z) (s : RoomStatus) : RoomStatus :=
  MkStatus (st_Fingerprint s) (st_Key s) t (st_Atts s) (st_Lease s) (st_EmptySince s).

Definition room_holder (r : Room) : bytes := match st_Lease (ro_status r) with Some l => hl_holder l | None => [] end.
Definition room_gen (r : Room) : Z := match st_Lease (ro_status r) with Some l => hl_gen l | None => 0 end.

Record Home := MkHome { ho_dynamic : bool; ho_Holder : bytes; ho_Addr : bytes; ho_Generation : Z; ho_Live : bool }.

(** ** What a pod does to its registry and its transport *)

Inductive room_event :=
  | LeaseLost (pod code : bytes)
  | StaticVoiceRoom (pod code : bytes)
  | Adopted (pod : bytes) (cr : RoomCR)
  | Upserted (pod : bytes) (def : StaticRoom)
  | Ended (pod code : bytes)
  | AdoptDone (pod code : bytes) (r : outcome fleet_error unit).
Abbreviation RoomFleet Store := (Fleet Store Room unit room_event).
