(* ===== verification/RoomFleetOps.v ===== *)
(** internal/roomcluster/store.go: the Store of each pod as goroutines over the fleet. *)
From S2P Require Export RoomFleetData.
#[local] Open Scope Z_scope.

Module Store.
Definition claimRetries : nat := 3.
Record Options := MkROptions {
  Obfuscate : bytes → bytes;
  AdvertiseAddr : bytes → bytes;
  MaxRooms : Z;
  EmptyGrace : Z;
  LeaseDuration : Z;
  StaleWindow : Z;
}.
End Store.
Import Store.

(** goroutines, by name; [RApply] and [RRemove] are an administrator's *)
Inductive rgo :=
  | RRenew (pod code : bytes) (h : nat)
  | RReserve (pod code : bytes) (room : Room)
  | RRoomEnded (pod code : bytes)
  | RUnreserve (pod code : bytes)
  | RRoomEmpty (pod code : bytes) (empty : bool)
  | RAttachments (pod code : bytes) (list : list (bytes * bytes))
  | RAdopt (pod code : bytes) (voiceOnly : bool)
  | RRelease (pod code : bytes)
  | RReleaseAll (pod : bytes)
  | RJanitor (pod : bytes)
  | RInformer (pod : bytes)
  | RRefresh (pod code : bytes) (spec : RoomSpec)
  | RApply (code : bytes) (spec : RoomSpec)
  | RRemove (code : bytes).

(** ** Rooms, without the API *)

Section Pure.
Context (opts : Options).

(** metav1.Time: whole seconds *)
Definition NewTime (now : Z) : Z := now / 10 ^ 9 * 10 ^ 9.
Definition stale (l : option HomeLease) (window now : Z) : bool :=
  match l with
  | Some (MkHomeLease _ _ _ (Some t)) => now - t >? window
  | _ => true
  end.
Definition homeOf (r : Room) (now : Z) : Home :=
  match st_Lease (ro_status r) with
  | None => MkHome (sp_dynamic (ro_spec r)) [] [] 0 false
  | Some l => MkHome (sp_dynamic (ro_spec r)) (hl_holder l) (hl_addr l) (hl_gen l)
                (negb (bool_decide (hl_holder l = [])) && negb (stale (Some l) (LeaseDuration opts) now))
  end.
Definition lease_now (pod : bytes) (gen now : Z) : option HomeLease :=
  Some (MkHomeLease pod (AdvertiseAddr opts pod) gen (Some (NewTime now))).
(** a claimed Room *)
Definition claimed_room (pod code : bytes) (gen now : Z) (r : Room) : Room :=
  set_status (λ s,
    let s := set_Key (Obfuscate opts code) (set_Lease (lease_now pod gen now) s) in
    let s := match st_CreatedAt s with None => set_CreatedAt (Some (NewTime now)) s | Some _ => s end in
    if sp_dynamic (ro_spec r) then set_EmptySince (Some (NewTime now)) s else s) r.
(** a reserved one: what it is created as has no status yet *)
Definition reserved_room (pod code : bytes) (now : Z) (r : Room) : Room :=
  set_status (λ s,
    let s := set_Key (Obfuscate opts code) s in
    let s := match st_CreatedAt s with None => set_CreatedAt (Some (NewTime now)) s | Some _ => s end in
    set_Lease (lease_now pod 1 now) (set_EmptySince (Some (NewTime now)) s)) r.
Definition created_room (r : Room) : Room := MkRoom (ro_spec r) bare_status.
Definition renewed_room (now : Z) (r : Room) : Room :=
  set_status (λ s, match st_Lease s with
                   | Some l => set_Lease (Some (MkHomeLease (hl_holder l) (hl_addr l) (hl_gen l) (Some (NewTime now)))) s
                   | None => s
                   end) r.
Definition released_room (r : Room) : Room :=
  set_status (λ s, match st_Lease s with
                   | Some l => set_Lease (Some (MkHomeLease [] [] (hl_gen l) (hl_renewed l))) s
                   | None => s
                   end) r.
Definition stamped_room (empty : option Z) (r : Room) : Room := set_status (set_EmptySince empty) r.
Definition attached_room (l : list (bytes * bytes)) (r : Room) : Room := set_status (set_Atts l) r.

(** the cr a pod hands to its registry *)
Definition cr_of (code : bytes) (r : Room) : RoomCR :=
  MkCR code (sp_DisplayCode (ro_spec r)) (sp_dynamic (ro_spec r)) (st_Atts (ro_status r)) (sp_Mumble (ro_spec r))
    (st_Fingerprint (ro_status r)) (st_CreatedAt (ro_status r)) (hl_holder <$> st_Lease (ro_status r)).
Definition def_of (code : bytes) (spec : RoomSpec) (secret : bytes) : StaticRoom :=
  MkStatic code (sp_DisplayCode spec) (sp_DisplayName spec) secret (sp_MaxBroadcasts spec) (sp_MaxParticipants spec)
    (sp_Pop spec) [] (sp_Mumble spec) false.
Definition voiceMapped (spec : RoomSpec) : bool :=
  match sp_Mumble spec with Some m => ValidateMumble m | None => false end.

(** whether a view shows the pod's lease taken, not merely an older one *)
Definition leaseTakenFromUs (l : option HomeLease) (pod : bytes) (generation : Z) : bool :=
  match l with
  | None => false
  | Some l => if hl_gen l <? generation then false
              else negb (bool_decide (hl_holder l = pod)) || negb (hl_gen l =? generation)
  end.
End Pure.

(** ** The Store *)

Section Store.
Context {S : Type} {api : ObjApi Room S} (opts : Options).
Context (unicode_lower : bytes → bytes).
Notation NormalizeCode := (NormalizeCode unicode_lower).
Notation Fleet := (RoomFleet S).
Notation P := (prog cans Fleet rgo).

Definition startRenew : bytes → bytes → Z → P unit := go_renew RRenew.
Definition forgetHeld : bytes → bytes → nat → P bool := forget.
Definition stopRenew (pod code : bytes) : P unit :=
  match NormalizeCode code with
  | None => mret tt
  | Some norm => stop_if (λ _ _, true) pod norm
  end.
(** errors of the API as the Store returns them *)
Definition get (code : bytes) : P (outcome fleet_error (Room * Z)) :=
  r ← api_Get code;
  mret (match r with Err apiNotFound => Err ErrNotFound | Err _ => Err ErrUnavailable | r => r end).
Definition lost (pod code : bytes) : P unit := pmodify (emit_ (LeaseLost pod code)).

(** *** Reads of the cache *)

Definition cached (c : Pod Room unit) (code : bytes) : option (bytes * (Room * Z)) :=
  norm ← NormalizeCode code;
  pair norm <$> c_cache c !! norm.
Definition Known (c : Pod Room unit) (code : bytes) : bool := bool_decide (is_Some (cached c code)).
Definition Resolve (c : Pod Room unit) (code : bytes) (now : Z) : option Home :=
  (λ x, homeOf opts (fst (snd x)) now) <$> cached c code.
Definition Holding (F : Fleet) (pod code : bytes) : option Z := norm ← NormalizeCode code; held_gen pod norm F.
Definition UnhomedVoiceRooms (F : Fleet) (pod : bytes) (now : Z) : list bytes :=
  omap (M:=list) (λ x : bytes * (Room * Z), let '(n, (r, _)) := x in
    if sp_dynamic (ro_spec r) || negb (bool_decide (sp_Pop (ro_spec r) = [])) || negb (voiceMapped (ro_spec r)) then None
    else if bool_decide (is_Some (Holding F pod n)) then None
    else if ho_Live (homeOf opts r now) then None else Some n) (map_to_list (c_cache (f_pods F pod))).
Definition count_cached (f : RoomSpec → bool) (c : Pod Room unit) : Z :=
  zlen (List.filter (λ x : bytes * (Room * Z), f (ro_spec (fst (snd x)))) (map_to_list (c_cache c))).
Definition CountVoiceDynamic : Pod Room unit → Z := count_cached (λ s, sp_dynamic s && voiceMapped s).
Definition countDynamic : Pod Room unit → Z := count_cached sp_dynamic.

(** *** The lease *)

Definition renewOnce (pod code : bytes) (h : nat) : P (outcome fleet_error unit) :=
  r ← get code;
  match r with
  | Err ErrNotFound => _ ← forgetHeld pod code h; mret (Err errLost)
  | Ok (x, rv) =>
      g ← pgets (gen_of h);
      if negb (match st_Lease (ro_status x) with
               | Some l => bool_decide (hl_holder l = pod) && bool_decide (g = Some (hl_gen l))
               | None => false
               end) then
        was ← forgetHeld pod code h;
        _ ← (if was : bool then lost pod code else mret tt);
        mret (Err errLost)
      else
        now ← Now;
        r ← Update code rv (renewed_room now x);
        mret (match r with Ok _ => Ok tt | Err _ => Err ErrUnavailable | Fault => Fault end)
  | Err e => mret (Err e)
  | Fault => mret Fault
  end.
(** a turn of [renewLoop] *)
Definition renewLoop (pod code : bytes) (h : nat) : P (option rgo) :=
  ended ← pgets (is_cancelled h);
  if ended : bool then _ ← pmodify (done_h h); mret None else
  r ← renewOnce pod code h;
  if bool_decide (r = Err errLost) then _ ← pmodify (done_h h); mret None
  else mret (Some (RRenew pod code h)).

Fixpoint claim_loop (n : nat) (pod norm : bytes) (force : bool) : P (outcome fleet_error Z) :=
  match n with
  | O => mret (Err ErrExhausted)
  | Datatypes.S n' =>
      r ← get norm;
      match r with
      | Ok (x, rv) =>
          now ← Now;
          let home := homeOf opts x now in
          if ho_Live home && negb (bool_decide (ho_Holder home = pod)) && negb force then mret (Err ErrHeldElsewhere) else
          let gen := ho_Generation home + 1 in
          now ← Now;
          r ← Update norm rv (claimed_room opts pod norm gen now x);
          match r with
          | Err apiConflict => claim_loop n' pod norm force
          | Ok _ => _ ← startRenew pod norm gen; mret (Ok gen)
          | Err _ => mret (Err ErrUnavailable)
          | Fault => mret Fault
          end
      | Err e => mret (Err e)
      | Fault => mret Fault
      end
  end.
Definition Claim (pod code : bytes) (force : bool) : P (outcome fleet_error Z) :=
  match NormalizeCode code with
  | None => mret (Err ErrNotFound)
  | Some norm => claim_loop claimRetries pod norm force
  end.

(** reading a Secret: no part of the fleet *)
Definition readAttachSecret (ref : bytes * bytes) : P (outcome fleet_error bytes) :=
  sect (λ a F, (match a_fault a with Fine => Ok (a_read a) | _ => Err ErrUnavailable end, F)).
Definition staticDef (code : bytes) (spec : RoomSpec) : P (outcome fleet_error StaticRoom) :=
  match sp_AttachSecretRef spec with
  | Some ref =>
      if sp_dynamic spec then mret (Ok (def_of code spec [])) else
      r ← readAttachSecret ref;
      mret (match r with Ok secret => Ok (def_of code spec secret) | Err e => Err e | Fault => Fault end)
  | None => mret (Ok (def_of code spec []))
  end.
(** the pod's registry, which may refuse a definition *)
Definition UpsertStatic (pod : bytes) (def : StaticRoom) : P (outcome fleet_error unit) :=
  sect (λ a F, match a_fault a with
               | Fine => (Ok tt, emit_ (Upserted pod def) F)
               | _ => (Err ErrRejected, F)
               end).
Definition with_atts (l : list (bytes * bytes)) (voiceOnly : bool) (d : StaticRoom) : StaticRoom :=
  MkStatic (st_Code d) (st_DisplayCode d) (st_DisplayName d) (st_AttachSecret d) (st_MaxBroadcasts d) (st_MaxParticipants d)
    (st_Pop d) l (st_Mumble d) voiceOnly.
Definition adopt (pod code : bytes) (voiceOnly : bool) : P (outcome fleet_error unit) :=
  match NormalizeCode code with
  | None => mret (Err ErrNotFound)
  | Some norm =>
      r ← get norm;
      match r with
      | Err e => mret (Err e)
      | Fault => mret Fault
      | Ok (x, _) =>
          now ← Now;
          let home := homeOf opts x now in
          if ho_Live home && negb (bool_decide (ho_Holder home = pod)) then mret (Err ErrHeldElsewhere) else
          d ← staticDef norm (ro_spec x);
          match d with
          | Err e => mret (Err e)
          | Fault => mret Fault
          | Ok def =>
              g ← Claim pod norm (negb (bool_decide (ho_Holder home = [])) && negb (ho_Live home));
              match g with
              | Err e => mret (Err e)
              | Fault => mret Fault
              | Ok _ =>
                  r ← get norm;
                  match r with
                  | Err e => _ ← stopRenew pod norm; mret (Err e)
                  | Fault => mret Fault
                  | Ok (x, _) =>
                      if sp_dynamic (ro_spec x) then
                        _ ← pmodify (emit_ (Adopted pod (cr_of norm x))); mret (Ok tt)
                      else
                        u ← UpsertStatic pod (with_atts (st_Atts (ro_status x)) voiceOnly def);
                        match u with
                        | Ok _ => mret (Ok tt)
                        | u => _ ← stopRenew pod norm; mret u
                        end
                  end
              end
          end
      end
  end.

Fixpoint release_loop (n : nat) (pod code : bytes) : P (outcome fleet_error unit) :=
  match n with
  | O => mret (Err ErrExhausted)
  | Datatypes.S n' =>
      r ← get code;
      match r with
      | Err ErrNotFound => mret (Ok tt)
      | Ok (x, rv) =>
          if negb (match st_Lease (ro_status x) with Some l => bool_decide (hl_holder l = pod) | None => false end)
          then mret (Ok tt) else
          r ← Update code rv (released_room x);
          match r with
          | Err apiConflict => release_loop n' pod code
          | Ok _ => mret (Ok tt)
          | Err _ => mret (Err ErrUnavailable)
          | Fault => mret Fault
          end
      | Err e => mret (Err e)
      | Fault => mret Fault
      end
  end.
Definition Release (pod code : bytes) : P (outcome fleet_error unit) :=
  _ ← stopRenew pod code;
  release_loop claimRetries pod code.
Definition ReleaseAll (pod : bytes) : P unit :=
  codes ← pgets (λ F, map fst (map_to_list (c_held (f_pods F pod))));
  each codes (λ code, _ ← Release pod code; mret tt).

(** *** The registry's seams *)

Definition Reserve (pod code : bytes) (room : Room) : P (outcome fleet_error unit) :=
  full ← pgets (λ F, (MaxRooms opts >? 0) && (countDynamic (f_pods F pod) >=? MaxRooms opts));
  if full : bool then mret (Err ErrMaxRooms) else
  now ← Now;
  r ← CreateV code (created_room room);
  match r with
  | Err apiAlreadyExists => mret (Err ErrTaken)
  | Err _ => mret (Err ErrUnavailable)
  | Fault => mret Fault
  | Ok rv =>
      r ← Update code rv (reserved_room opts pod code now room);
      match r with
      | Ok _ => _ ← startRenew pod code 1; mret (Ok tt)
      | _ => _ ← api_DeleteAny code; mret (Err ErrUnavailable)
      end
  end.
Definition RoomEnded (pod code : bytes) : P unit :=
  _ ← stopRenew pod code;
  r ← get code;
  match r with
  | Ok (x, rv) =>
      if negb (sp_dynamic (ro_spec x)) then mret tt else
      if negb (bool_decide (room_holder x = [])) && negb (bool_decide (room_holder x = pod)) then mret tt else
      _ ← api_Delete code rv; mret tt
  | _ => mret tt
  end.
Definition Unreserve (pod code : bytes) : P unit :=
  match NormalizeCode code with
  | None => mret tt
  | Some norm =>
      _ ← stopRenew pod norm;
      r ← get norm;
      match r with
      | Ok (x, rv) =>
          if negb (match st_Lease (ro_status x) with Some l => bool_decide (hl_holder l = pod) | None => false end)
          then mret tt else
          _ ← api_Delete norm rv; mret tt
      | _ => mret tt
      end
  end.
(** [fn]: the write it makes of a time and the Room *)
Fixpoint patch_loop (n : nat) (pod norm : bytes) (fn : Z → Room → Room) : P (outcome fleet_error unit) :=
  match n with
  | O => mret (Err ErrExhausted)
  | Datatypes.S n' =>
      g ← pgets (held_gen pod norm);
      match g with
      | None => mret (Err errLost)
      | Some gen =>
          r ← get norm;
          match r with
          | Ok (x, rv) =>
              if negb (match st_Lease (ro_status x) with
                       | Some l => bool_decide (hl_holder l = pod) && (hl_gen l =? gen)
                       | None => false
                       end) then mret (Err errLost) else
              now ← Now;
              r ← Update norm rv (fn now x);
              match r with
              | Err apiConflict => patch_loop n' pod norm fn
              | Ok _ => mret (Ok tt)
              | Err _ => mret (Err ErrUnavailable)
              | Fault => mret Fault
              end
          | Err e => mret (Err e)
          | Fault => mret Fault
          end
      end
  end.
Definition patchStatus (pod code : bytes) (fn : Z → Room → Room) : P (outcome fleet_error unit) :=
  match NormalizeCode code with
  | None => mret (Err ErrNotFound)
  | Some norm => patch_loop claimRetries pod norm fn
  end.
Definition RoomEmpty (pod code : bytes) (empty : bool) : P unit :=
  _ ← patchStatus pod code (λ now, stamped_room (if empty then Some (NewTime now) else None)); mret tt.
Definition AttachmentsChanged (pod code : bytes) (l : list (bytes * bytes)) : P unit :=
  _ ← patchStatus pod code (λ _, attached_room l); mret tt.

(** *** The informer *)

(** [observe]; [old]: the Room as it was, in an update. The refresh of a changed
    static room is a goroutine of its own. *)
Definition observe (pod : bytes) (old : option Room) (name : bytes) (r : Room) : P unit :=
  let specChanged := match old with Some o => negb (bool_decide (ro_spec o = ro_spec r)) | None => false end in
  '(held, h) ← sect (λ _ F,
    match held_at pod name F with
    | Some h =>
        if leaseTakenFromUs (st_Lease (ro_status r)) pod (default 0 (gen_of h F))
        then ((true, Some h), drop_held pod name F) else ((true, None), F)
    | None => ((false, None), F)
    end);
  match h with
  | Some h => _ ← pmodify (cancel_h h); lost pod name
  | None =>
      now ← Now;
      _ ← (if negb (held : bool) && negb (sp_dynamic (ro_spec r)) && bool_decide (sp_Pop (ro_spec r) = []) &&
              voiceMapped (ro_spec r) && negb (ho_Live (homeOf opts r now))
           then pmodify (emit_ (StaticVoiceRoom pod name)) else mret tt);
      if (held : bool) && specChanged && negb (sp_dynamic (ro_spec r))
      then sect_go (λ _ F, (tt, F)) (λ _, [RRefresh pod name (ro_spec r)]) else mret tt
  end.
Definition observeDelete (pod name : bytes) : P unit :=
  h ← sect (λ _ F, (held_at pod name F, drop_held pod name F));
  _ ← (match h with Some h => pmodify (cancel_h h) | None => mret tt end);
  pmodify (emit_ (Ended pod name)).
Definition refresh (pod name : bytes) (spec : RoomSpec) : P unit :=
  d ← staticDef name spec;
  match d with Ok def => _ ← UpsertStatic pod def; mret tt | _ => mret tt end.
Definition informer (pod : bytes) : P (option rgo) :=
  e ← next_event pod;
  _ ← match e with
      | KubeFleet.Added n x => observe pod None n (fst x)
      | KubeFleet.Modified n old x => observe pod (Some (fst old)) n (fst x)
      | KubeFleet.Deleted n _ => observeDelete pod n
      end;
  mret (Some (RInformer pod)).

(** *** The janitor: over the cache *)

Fixpoint sweep_each (l : list (bytes * (Room * Z))) (now : Z) : P unit :=
  match l with
  | [] => mret tt
  | (n, (r, rv)) :: l' =>
      if negb (sp_dynamic (ro_spec r)) then sweep_each l' now else
      judged ← Now;
      if negb (stale (st_Lease (ro_status r)) (StaleWindow opts) judged) then sweep_each l' now else
      _ ← (match st_EmptySince (ro_status r) with
           | None => Update n rv (stamped_room (Some (NewTime now)) r)
           | Some t => if now - t <=? EmptyGrace opts then mret (Ok tt) else api_Delete n rv
           end);
      sweep_each l' now
  end.
Definition JanitorSweep (pod : bytes) : P unit :=
  now ← Now;
  xs ← pgets (λ F, map_to_list (c_cache (f_pods F pod)));
  sweep_each xs now.

(** *** An administrator: kubectl and the portal *)

(** a new spec; the status is the home pod's *)
Definition admin_apply (code : bytes) (spec : RoomSpec) : P unit :=
  r ← api_Get code;
  match r with
  | Ok (x, rv) => _ ← Update code rv (MkRoom spec (ro_status x)); mret tt
  | Err apiNotFound => _ ← Create code (MkRoom spec bare_status); mret tt
  | _ => mret tt
  end.

Definition code (k : rgo) : P (option rgo) :=
  match k with
  | RRenew pod code h => renewLoop pod code h
  | RReserve pod code room => _ ← Reserve pod code room; mret None
  | RRoomEnded pod code => _ ← RoomEnded pod code; mret None
  | RUnreserve pod code => _ ← Unreserve pod code; mret None
  | RRoomEmpty pod code empty => _ ← RoomEmpty pod code empty; mret None
  | RAttachments pod code l => _ ← AttachmentsChanged pod code l; mret None
  | RAdopt pod code voiceOnly =>
      r ← adopt pod code voiceOnly; _ ← pmodify (emit_ (AdoptDone pod code r)); mret None
  | RRelease pod code => _ ← Release pod code; mret None
  | RReleaseAll pod => _ ← ReleaseAll pod; mret None
  | RJanitor pod => _ ← JanitorSweep pod; mret None
  | RInformer pod => informer pod
  | RRefresh pod code spec => _ ← refresh pod code spec; mret None
  | RApply code spec => _ ← admin_apply code spec; mret None
  | RRemove code => _ ← api_DeleteAny code; mret None
  end.
End Store.
