(* ===== verification/RoomFleetCode.v ===== *)
(** internal/roomcluster: the Room machine, and that the code of every goroutine makes
    only its steps. *)
From S2P Require Export RoomFleetOps KubeRun.
Import Store.
#[local] Open Scope Z_scope.

Existing Class Options.
Class UnicodeLower := unicode_lower : bytes → bytes.
Notation NormalizeCode := (NormalizeCode unicode_lower).

(** What becomes of one Room, atomically, and by which goroutine; a time before the
    write's is the one its condition was judged at. *)
Inductive room_step {opts : Options} {lower : UnicodeLower} (gens : nat → option Z) : rgo → bytes → option Room → option Room → Prop :=
  | RStepCreate pod code room : room_step gens (RReserve pod code room) code None (Some (created_room room))
  | RStepReserve pod code room now : pod ≠ [] →
      room_step gens (RReserve pod code room) code (Some (created_room room)) (Some (reserved_room opts pod code now room))
  (* the clean-up of a failed reservation: whatever is there by then *)
  | RStepUnmint pod code room r : room_step gens (RReserve pod code room) code (Some r) None
  | RStepClaim pod code voice norm r judged now : pod ≠ [] → NormalizeCode code = Some norm →
      ho_Live (homeOf opts r judged) = false ∨ room_holder r = pod →
      room_step gens (RAdopt pod code voice) norm (Some r) (Some (claimed_room opts pod norm (room_gen r + 1) now r))
  (* by force, judged on an earlier Room *)
  | RStepForce pod code voice norm r now : pod ≠ [] → NormalizeCode code = Some norm →
      room_step gens (RAdopt pod code voice) norm (Some r) (Some (claimed_room opts pod norm (room_gen r + 1) now r))
  | RStepRenew pod code h r now : room_holder r = pod → gens h = Some (room_gen r) →
      room_step gens (RRenew pod code h) code (Some r) (Some (renewed_room now r))
  | RStepEmpty pod code norm empty r now : NormalizeCode code = Some norm → room_holder r = pod →
      room_step gens (RRoomEmpty pod code empty) norm (Some r)
        (Some (stamped_room (if empty then Some (NewTime now) else None) r))
  | RStepAttach pod code norm l r : NormalizeCode code = Some norm → room_holder r = pod →
      room_step gens (RAttachments pod code l) norm (Some r) (Some (attached_room l r))
  | RStepRelease k pod code r : k = RRelease pod code ∨ k = RReleaseAll pod → room_holder r = pod →
      room_step gens k code (Some r) (Some (released_room r))
  | RStepEnd pod code r : sp_dynamic (ro_spec r) = true → room_holder r = [] ∨ room_holder r = pod →
      room_step gens (RRoomEnded pod code) code (Some r) None
  | RStepUnreserve pod code norm r : NormalizeCode code = Some norm → room_holder r = pod →
      room_step gens (RUnreserve pod code) norm (Some r) None
  | RStepStamp pod code r judged now : sp_dynamic (ro_spec r) = true →
      stale (st_Lease (ro_status r)) (StaleWindow opts) judged = true → st_EmptySince (ro_status r) = None →
      room_step gens (RJanitor pod) code (Some r) (Some (stamped_room (Some (NewTime now)) r))
  | RStepSweep pod code r judged now t : sp_dynamic (ro_spec r) = true →
      stale (st_Lease (ro_status r)) (StaleWindow opts) judged = true → st_EmptySince (ro_status r) = Some t →
      EmptyGrace opts < now - t → room_step gens (RJanitor pod) code (Some r) None
  | RStepApplyNew code spec : room_step gens (RApply code spec) code None (Some (MkRoom spec bare_status))
  | RStepApply code spec r : room_step gens (RApply code spec) code (Some r) (Some (MkRoom spec (ro_status r)))
  | RStepRemove code r : room_step gens (RRemove code) code (Some r) None.

Lemma room_step_gen {opts : Options} {lower : UnicodeLower} gens k n r r' : room_step gens k n (Some r) (Some r') →
  room_gen r' = room_gen r + 1 ∨ room_gen r' = room_gen r ∧ (room_holder r' = room_holder r ∨ room_holder r' = []).
Proof.
  assert (Hc : ∀ pod code g now x, room_gen (claimed_room opts pod code g now x) = g).
  { intros. unfold claimed_room, room_gen, set_status. cbn. by destruct (st_CreatedAt _), (sp_dynamic _). }
  inversion 1; subst; try (by rewrite Hc; auto); try (by auto).
  - right. unfold renewed_room, room_gen, room_holder, set_status. cbn. destruct (st_Lease (ro_status r)) eqn:E; cbn; rewrite ?E; auto.
  - right. unfold released_room, room_gen, room_holder, set_status. cbn. destruct (st_Lease (ro_status r)) eqn:E; cbn; rewrite ?E; auto.
Qed.
#[export, refine] Instance room_machine {opts : Options} {lower : UnicodeLower} : KubeMachine Room rgo := {
  key id := id; holder := room_holder; ogen := room_gen; obj_step := room_step;
  renew_go := RRenew;
  renews k := match k with RRenew pod code h => Some (pod, code, h) | _ => None end;
  needs k := match k with RReserve pod _ _ | RAdopt pod _ _ => pod ≠ [] | _ => True end;
  own_op k pod id :=
    match k with
    | RReserve p c _ => p = pod ∧ c = id
    | RRoomEnded p c | RUnreserve p c | RAdopt p c _ | RRelease p c => p = pod ∧ NormalizeCode c = Some id
    | RReleaseAll p => p = pod
    | _ => False
    end;
}.
Proof.
  - apply room_step_gen.
  - inversion 1.
  - done.
  - done.
Defined.

Section Code.
Context {Store : Type} {api : ObjApi Room Store} {laws : ObjApiLaws Room Store} {opts : Options} {lower : UnicodeLower}.
Notation Fleet := (RoomFleet Store).
Notation P := (prog cans Fleet rgo).
Implicit Types F : Fleet.

Lemma NormalizeCode_norm code norm : NormalizeCode code = Some norm → NormalizeCode norm = Some norm.
Proof. intros H. by apply NormalizeCode_id, (NormalizeCode_slug unicode_lower code). Qed.

(** ** The Store's calls *)

Lemma keeps_get {B} k n (h : outcome fleet_error (Room * Z) → P B) :
  (∀ l rv A1, eternal A1 → hoare k (λ F, A1 F ∧ knows n l rv F) (h (Ok (l, rv))) (λ _, A1)) →
  (∀ e, keeps k (h (Err e))) → keeps k (h Fault) → keeps k (get n ≫= h).
Proof.
  intros Hok He Hf.
  exact (keeps_Get k n (λ r, h (match r with Err apiNotFound => Err ErrNotFound | Err _ => Err ErrUnavailable | r => r end))
    Hok (λ e, match e with apiNotFound => He ErrNotFound | _ => He ErrUnavailable end) Hf).
Qed.
Lemma room_keeps_stopRenew k pod code : (∀ norm, NormalizeCode code = Some norm → own_op k pod norm) →
  keeps k (stopRenew unicode_lower pod code : P unit).
Proof.
  intros Ho. unfold stopRenew. destruct (NormalizeCode code) as [norm|] eqn:E; [|apply fkeeps_ret]. by apply fkeeps_stop, Ho.
Qed.
Lemma room_hoare_startRenew k (A1 : Fleet → Prop) pod code gen : eternal A1 → own_op k pod code →
  hoare k (λ F, A1 F ∧ recorded code gen pod F) (startRenew pod code gen) (λ _, A1).
Proof. exact (hoare_go_renew k A1 pod code gen). Qed.
Lemma keep_secret ref : keep (readAttachSecret ref : P _).
Proof. intros k. apply fkeeps_sect. intros a F Hok. by apply quiet_same. Qed.
Lemma keep_staticDef code spec : keep (staticDef code spec : P _).
Proof.
  unfold staticDef. destruct (sp_AttachSecretRef spec) as [ref|]; [|apply fkeep_ret]. destruct (sp_dynamic spec); [apply fkeep_ret|].
  apply fkeep_bind; [apply keep_secret|intros; apply fkeep_ret].
Qed.
Lemma keep_Upsert pod def : keep (UpsertStatic pod def : P _).
Proof. intros k. apply fkeeps_sect. intros a F Hok. destruct (a_fault a); [by apply quiet_emit|by apply quiet_same..]. Qed.
#[local] Hint Resolve keep_staticDef keep_Upsert : fleetkeeps.

(** ** Renew loops *)

Lemma hoare_get_held k A1 h pod code g : eternal A1 → (∀ F, A1 F → handle h pod code g F) →
  hoare k A1 (get code) (λ r F, A1 F ∧ match r with
    | Ok (l, rv) => knows code l rv F ∧ lost_seen code pod g (Some l) F
    | Err ErrNotFound => lost_seen code pod g None F
    | _ => True
    end).
Proof.
  intros Hs Hh. unfold get. eapply fhoare_bind; [exact (fhoare_Get_held k A1 h pod code g Hs Hh)|].
  intros [[l rv]|e|]; apply fhoare_ret; [done| |done]. intros F _ [H Hr]. destruct e; split; auto.
Qed.
Lemma eternal_lost_seen code pod g o : eternal (lost_seen code pod g o : Fleet → Prop).
Proof. intros k F F' Hok Hg Hl Hx. by apply (eternal_gone _ _ k F), Hl. Qed.
Lemma hoare_lost k A1 pod code h g : eternal A1 → (∀ F, A1 F → handle h pod code g F) →
  hoare k (λ F, A1 F ∧ gone code g F) (forgetHeld pod code h) (λ _, A1).
Proof.
  intros Hs Hh. eapply fhoare_post; [|apply (hoare_forget_gone k (λ F, A1 F ∧ gone code g F) pod code h g)].
  - by intros r F _ [? _].
  - apply eternal_and; [done|apply eternal_gone].
  - intros F [? _]. auto.
  - by intros F [_ ?].
Qed.
Lemma room_renewOnce_ok pod code h g A1 : eternal A1 → (∀ F, A1 F → handle h pod code g F) →
  hoare (RRenew pod code h) A1 (renewOnce pod code h) (λ _, A1).
Proof.
  intros Hs Hh. unfold renewOnce. eapply fhoare_bind; [by apply (hoare_get_held _ _ h pod code g)|].
  intros [[x rv]|e|]; [| |by apply fhoare_ret; tauto].
  2:{ destruct e; try (by apply fhoare_ret; tauto). eapply fhoare_bind.
      - eapply fhoare_pre; [|by apply (hoare_lost _ A1 pod code h g)]. intros F _ [? Hl]. split; [done|]. by apply Hl.
      - intros was. by apply fhoare_ret. }
  eapply fhoare_pre with (A2 := λ F, (A1 F ∧ lost_seen code pod g (Some x) F) ∧ knows code x rv F); [by intros F _ [? [? ?]]|].
  assert (Hs' : eternal (λ F, A1 F ∧ lost_seen code pod g (Some x) F)) by (apply eternal_and; [done|apply eternal_lost_seen]).
  eapply fhoare_bind; [apply (hoare_gen_of _ _ h pod code g); [by apply eternal_read|intros F [[? _] _]; auto]|].
  intros g'. apply fhoare_pure. intros ->.
  destruct (negb _) eqn:E.
  - eapply fhoare_bind.
    + eapply fhoare_pre; [|by apply (hoare_lost _ A1 pod code h g)]. intros F _ [[? Hl] _]. split; [done|]. apply Hl.
      apply negb_true_iff in E. cbn. unfold room_holder, room_gen. destruct (st_Lease (ro_status x)) as [l|].
      * apply andb_false_iff in E as [E|E]; apply bool_decide_eq_false in E; [by left|right; congruence].
      * pose proof (Hh F ltac:(done)) as (y & _ & _ & _ & _ & Hpod & _). by left.
    + intros was. apply fhoare_skip; [done| |intros _; by apply fhoare_ret].
      destruct was; [apply keep_keeps, fkeep_emit|apply fkeeps_ret].
  - eapply fhoare_pre with (A2 := λ F, A1 F ∧ knows code x rv F); [tauto|].
    apply hoare_over; [done|apply keep_keeps, fkeep_Now|]. intros now. apply negb_false_iff in E.
    eapply fhoare_bind; [apply fhoare_Update; [done|]|intros r; apply fhoare_ret; by intros F _ [? _]].
    intros F Hok H. pose proof (handle_gen _ _ _ _ _ (Hh F H)) as Hg. unfold room_holder, room_gen.
    apply RStepRenew; unfold room_holder, room_gen; destruct (st_Lease (ro_status x)) as [l|]; try done;
      apply andb_true_iff in E as [E1%bool_decide_eq_true E2%bool_decide_eq_true]; congruence.
Qed.
Lemma room_renewLoop_ok pod code h :
  hoare (RRenew pod code h) (pre (RRenew pod code h)) (renewLoop pod code h)
    (λ r F, match r with Some k => pre k F | None => True end).
Proof.
  set (k := RRenew pod code h).
  assert (Hg : ∀ g, hoare k (handle h pod code g) (renewLoop pod code h) (λ r F, match r with Some k => pre k F | None => True end)).
  { intros g. unfold renewLoop. apply fhoare_skip; [apply eternal_handle|apply keep_keeps, fkeep_pgets|]. intros ended.
    assert (Hend : hoare k (handle h pod code g) (_ ← pmodify (done_h h); mret None) (λ r F, match r with Some k => pre k F | None => True end)).
    { apply fhoare_skip; [apply eternal_handle|apply keep_keeps, fkeep_done|]. intros _. by apply fhoare_ret. }
    destruct ended; [done|]. eapply fhoare_bind; [apply (room_renewOnce_ok pod code h g); [apply eternal_handle|done]|].
    intros r. cbn beta. case_bool_decide; [done|]. apply fhoare_ret. intros F' _ ?. split; [done|].
    intros ? ? ? [= <- <- <-]. by exists g. }
  intros F' Hok [_ Hh]. destruct (Hh _ _ _ eq_refl) as [g H]. by apply (Hg g).
Qed.

(** ** Adoption *)

Lemma claimed_recorded pod code g now r : room_holder (claimed_room opts pod code g now r) = pod ∧ room_gen (claimed_room opts pod code g now r) = g.
Proof. unfold claimed_room, room_holder, room_gen, set_status. cbn. by destruct (st_CreatedAt _), (sp_dynamic _). Qed.
Lemma reserved_recorded pod code now r : room_holder (reserved_room opts pod code now r) = pod ∧ room_gen (reserved_room opts pod code now r) = 1.
Proof. done. Qed.
Lemma homeOf_gen r now : ho_Generation (homeOf opts r now) = room_gen r ∧ ho_Holder (homeOf opts r now) = room_holder r.
Proof. unfold homeOf, room_gen, room_holder. by destruct (st_Lease _). Qed.
Lemma room_claim_loop_ok n pod code voice norm force : pod ≠ [] → NormalizeCode code = Some norm →
  keeps (RAdopt pod code voice) (claim_loop opts n pod norm force).
Proof.
  intros Hpod Hn. induction n as [|n IH]; cbn [claim_loop]; [apply fkeeps_ret|].
  apply keeps_get; [|intros e; apply fkeeps_ret|apply fkeeps_ret].
  intros r rv A1 Hs. apply hoare_over; [done|apply keep_keeps, fkeep_Now|]. intros judged. cbv zeta.
  destruct (homeOf_gen r judged) as [Eg Eh]. rewrite Eg, Eh.
  destruct (ho_Live _ && _ && _) eqn:El; [by apply hoare_forget, fkeeps_ret|].
  apply hoare_over; [done|apply keep_keeps, fkeep_Now|]. intros now.
  eapply fhoare_bind; [apply fhoare_Update; [done|]|].
  { intros F _ _. destruct force; [by apply RStepForce|]. apply RStepClaim with (judged := judged); [done..|].
    rewrite andb_true_r in El. apply andb_false_iff in El as [El|El]; [by left|right].
    by apply negb_false_iff, bool_decide_eq_true in El. }
  destruct (claimed_recorded pod norm (room_gen r + 1) now r) as [Ehold Egen].
  intros [[]|e|]; cbn beta iota.
  - apply fhoare_bind with (M := λ _, A1); [|intros ?; by apply fhoare_ret].
    eapply fhoare_pre; [|by apply room_hoare_startRenew]. intros F _ [H Hr]. split; [done|]. cbn in Hr. rewrite Ehold, Egen in Hr. by apply Hr.
  - destruct e; apply hoare_forget; try done; apply fkeeps_ret.
  - by apply hoare_forget, fkeeps_ret.
Qed.
Lemma Claim_ok pod code voice norm force : pod ≠ [] → NormalizeCode code = Some norm →
  keeps (RAdopt pod code voice) (Claim opts unicode_lower pod norm force).
Proof.
  intros Hpod Hn. unfold Claim. rewrite (NormalizeCode_norm code norm Hn). by apply room_claim_loop_ok.
Qed.
Lemma keeps_get_any {A} k n (f : Room → Z → P A) (e : fleet_error → P A) (o : P A) :
  (∀ x rv, keeps k (f x rv)) → (∀ r, keeps k (e r)) → keeps k o →
  keeps k (get n ≫= λ r, match r with Ok (x, rv) => f x rv | Err r => e r | Fault => o end).
Proof. intros Hf He Ho. apply keeps_get; [|done..]. intros l rv A1 Hs. by apply hoare_forget. Qed.
Lemma adopt_ok pod code voice : pod ≠ [] → keeps (RAdopt pod code voice) (adopt opts unicode_lower pod code voice).
Proof.
  intros Hpod. unfold adopt. destruct (NormalizeCode code) as [norm|] eqn:Hn; [|apply fkeeps_ret].
  assert (Hstop : keeps (RAdopt pod code voice) (stopRenew unicode_lower pod norm : P unit)).
  { apply room_keeps_stopRenew. intros n'. rewrite (NormalizeCode_norm code norm Hn). by intros [= <-]. }
  apply keeps_get; [|intros e; apply fkeeps_ret|apply fkeeps_ret]. intros x rv A1 Hs. apply hoare_forget; [done|]. clear A1 Hs.
  apply fkeeps_bind; [apply keep_keeps, fkeep_Now|]. intros judged. cbv zeta. destruct (_ && _); [apply fkeeps_ret|].
  apply fkeeps_bind; [apply keep_keeps, keep_staticDef|]. intros [def|e|]; try apply fkeeps_ret.
  apply fkeeps_bind; [by apply (Claim_ok pod code)|]. intros [g|e|]; try apply fkeeps_ret.
  apply keeps_get; [|intros e; apply fkeeps_bind; [done|intros _; apply fkeeps_ret]|apply fkeeps_ret].
  intros y rv' A1 Hs. apply hoare_forget; [done|]. clear A1 Hs. destruct (sp_dynamic (ro_spec y)).
  - apply fkeeps_bind; [apply keep_keeps, fkeep_emit|intros _; apply fkeeps_ret].
  - apply fkeeps_bind; [apply keep_keeps, keep_Upsert|]. intros [u|e|]; [apply fkeeps_ret| |];
      (apply fkeeps_bind; [done|intros _; apply fkeeps_ret]).
Qed.

(** ** Releases *)

Lemma lease_of_holder (x : Room) pod :
  match st_Lease (ro_status x) with Some l => bool_decide (hl_holder l = pod) | None => false end = true → room_holder x = pod.
Proof. unfold room_holder. destruct (st_Lease _); [|done]. apply bool_decide_eq_true. Qed.
Lemma room_Release_ok k pod code : k = RRelease pod code ∨ k = RReleaseAll pod → keeps k (Release unicode_lower pod code).
Proof.
  intros Hk. unfold Release. apply fkeeps_bind; [apply room_keeps_stopRenew; by destruct Hk as [->| ->]|]. intros _.
  generalize claimRetries. intros n. induction n as [|n IH]; cbn [release_loop]; [apply fkeeps_ret|].
  apply keeps_get; [|intros []; apply fkeeps_ret|apply fkeeps_ret].
  intros x rv A1 Hs. destruct (negb _) eqn:E; [by apply hoare_forget, fkeeps_ret|]. apply negb_false_iff, lease_of_holder in E.
  eapply fhoare_bind; [apply hoare_last_Update; [done|]; intros gens; by apply (RStepRelease gens k pod code)|].
  intros [[]|[]|]; first [by apply IH | by apply fkeeps_ret].
Qed.
Lemma room_ReleaseAll_ok pod : keeps (RReleaseAll pod) (ReleaseAll unicode_lower pod).
Proof.
  unfold ReleaseAll. apply fkeeps_bind; [apply keep_keeps, fkeep_pgets|]. intros codes. apply keeps_each. intros code.
  apply fkeeps_bind; [by apply room_Release_ok; right|]. intros _. apply fkeeps_ret.
Qed.

(** ** The registry's seams *)

Lemma room_Reserve_ok pod code room : pod ≠ [] → keeps (RReserve pod code room) (Reserve opts pod code room).
Proof.
  intros Hpod. unfold Reserve. apply fkeeps_bind; [apply keep_keeps, fkeep_pgets|]. intros [|]; [apply fkeeps_ret|].
  apply fkeeps_bind; [apply keep_keeps, fkeep_Now|]. intros now A1 Hs.
  eapply fhoare_bind; [apply fhoare_CreateV; [done|]; intros gens; apply RStepCreate|].
  intros [rv|e|]; [|destruct e; by apply hoare_forget, fkeeps_ret|by apply hoare_forget, fkeeps_ret].
  eapply fhoare_pre with (A2 := λ F, A1 F ∧ knows code (created_room room) rv F); [intros F _ [? Hk]; split; [done|by apply Hk]|].
  eapply fhoare_bind; [apply fhoare_Update; [done|]; intros F _ _; by apply RStepReserve|].
  destruct (reserved_recorded pod code now room) as [Eh Eg].
  assert (Hclean : keeps (RReserve pod code room) (_ ← api_DeleteAny code; mret (Err ErrUnavailable) : P (outcome fleet_error unit))).
  { apply fkeeps_bind; [|intros _; apply fkeeps_ret]. intros A2 Hs2. unfold api_DeleteAny.
    eapply fhoare_post; [|apply (fhoare_write _ A2 (present code) (Del code)); [done|]]; [by intros r F _ [? _]|].
    intros F _ _ E. destruct (present_obj F code E) as [l El]. cbn [commit_name commit_obj]. rewrite El. apply RStepUnmint. }
  intros [[]|e|]; [|by apply hoare_forget..].
  apply fhoare_bind with (M := λ _, A1); [|intros _; by apply fhoare_ret].
  eapply fhoare_pre; [|by apply room_hoare_startRenew]. intros F _ [H Hr]. split; [done|]. cbn [holder ogen room_machine] in Hr. rewrite Eh, Eg in Hr. by apply Hr.
Qed.
Lemma RoomEnded_ok pod code : keeps (RRoomEnded pod code) (RoomEnded unicode_lower pod code).
Proof.
  unfold RoomEnded. apply fkeeps_bind; [by apply room_keeps_stopRenew|]. intros _.
  apply keeps_get; [|intros e; apply fkeeps_ret|apply fkeeps_ret]. intros x rv A1 Hs.
  destruct (negb (sp_dynamic _)) eqn:Ed; [by apply hoare_forget, fkeeps_ret|]. apply negb_false_iff in Ed.
  destruct (_ && _) eqn:Eh; [by apply hoare_forget, fkeeps_ret|].
  eapply fhoare_bind; [apply fhoare_api_Delete; [done|]; intros gens; apply RStepEnd; [done|]|intros r; by apply fkeeps_ret].
  apply andb_false_iff in Eh as [E|E]; apply negb_false_iff, bool_decide_eq_true in E; auto.
Qed.
Lemma Unreserve_ok pod code : keeps (RUnreserve pod code) (Unreserve unicode_lower pod code).
Proof.
  unfold Unreserve. destruct (NormalizeCode code) as [norm|] eqn:Hn; [|apply fkeeps_ret].
  apply fkeeps_bind.
  { apply room_keeps_stopRenew. intros n'. rewrite (NormalizeCode_norm code norm Hn). by intros [= <-]. }
  intros _. apply keeps_get; [|intros e; apply fkeeps_ret|apply fkeeps_ret]. intros x rv A1 Hs.
  destruct (negb _) eqn:E; [by apply hoare_forget, fkeeps_ret|]. apply negb_false_iff, lease_of_holder in E.
  eapply fhoare_bind; [apply fhoare_api_Delete; [done|]; intros gens; by apply RStepUnreserve|intros r; by apply fkeeps_ret].
Qed.
Lemma patchStatus_ok k pod code fn :
  (∀ gens norm x now, NormalizeCode code = Some norm → room_holder x = pod → room_step gens k norm (Some x) (Some (fn now x))) →
  keeps k (patchStatus unicode_lower pod code fn).
Proof.
  intros Hfn. unfold patchStatus. destruct (NormalizeCode code) as [norm|] eqn:Hn; [|apply fkeeps_ret].
  generalize claimRetries. intros n. induction n as [|n IH]; cbn [patch_loop]; [apply fkeeps_ret|].
  apply fkeeps_bind; [apply keep_keeps, fkeep_pgets|]. intros [gen|]; [|apply fkeeps_ret].
  apply keeps_get; [|intros e; apply fkeeps_ret|apply fkeeps_ret]. intros x rv A1 Hs.
  destruct (negb _) eqn:E; [by apply hoare_forget, fkeeps_ret|]. apply negb_false_iff in E.
  apply hoare_over; [done|apply keep_keeps, fkeep_Now|]. intros now.
  eapply fhoare_bind; [apply hoare_last_Update; [done|]; intros gens; apply Hfn; [done|]|].
  - unfold room_holder. destruct (st_Lease _); [|done]. by apply andb_true_iff in E as [?%bool_decide_eq_true _].
  - intros [[]|[]|]; first [by apply IH | by apply fkeeps_ret].
Qed.
Lemma RoomEmpty_ok pod code empty : keeps (RRoomEmpty pod code empty) (RoomEmpty unicode_lower pod code empty).
Proof.
  unfold RoomEmpty. apply fkeeps_bind; [|intros _; apply fkeeps_ret]. apply patchStatus_ok. intros gens norm x now Hn Hh.
  by apply (RStepEmpty gens pod code norm empty x now).
Qed.
Lemma AttachmentsChanged_ok pod code l : keeps (RAttachments pod code l) (AttachmentsChanged unicode_lower pod code l).
Proof.
  unfold AttachmentsChanged. apply fkeeps_bind; [|intros _; apply fkeeps_ret]. apply patchStatus_ok. intros gens norm x now Hn Hh.
  by apply RStepAttach.
Qed.

(** ** The informer *)

(** a view that shows the lease taken shows it gone *)
Lemma taken_gone F e name r rv pod g : FleetOk F → e ∈ f_watch F → ev_name e = name → ev_new e = Some (r, rv) →
  recorded name g pod F → leaseTakenFromUs (st_Lease (ro_status r)) pod g = true → gone name g F.
Proof.
  intros Hok He En Ee Hr Ht. apply (was_gone F name r g pod); [done|by exists e, rv|done|]. cbn.
  unfold leaseTakenFromUs in Ht. unfold room_gen, room_holder. destruct (st_Lease _) as [l|]; [|done].
  destruct (hl_gen l <? g) eqn:Elt; [done|]. apply orb_true_iff in Ht as [E%negb_true_iff%bool_decide_eq_false|E]; [|left; lia].
  destruct (decide (g = hl_gen l)); [by right|left; lia].
Qed.
Lemma observe_ok pod old name r rv e :
  ev_name e = name → ev_new e = Some (r, rv) →
  hoare (RInformer pod) (λ F, e ∈ f_watch F) (observe opts pod old name r) (λ _ _, True).
Proof.
  intros En Ee. set (k := RInformer pod). assert (Hs : eternal (λ F, e ∈ f_watch F)) by apply eternal_told.
  unfold observe. cbv zeta. eapply fhoare_bind with (M := λ _ F, e ∈ f_watch F ∧ True).
  - apply fhoare_sect; [done|]. intros a F Hok He. split; [|done]. apply quiet_fine; [done|].
    destruct (held_at pod name F) as [h|] eqn:Eh; [|by apply quiet_same].
    destruct (leaseTakenFromUs _ _ _) eqn:Et; [|by apply quiet_same]. cbn [snd].
    apply quiet_drop; [done|]. intros g Hg. right. destruct (fo_held _ Hok pod name h Eh) as (x & Hx & _ & _ & Hr).
    unfold held_gen, gen_of in Hg. rewrite Eh in Hg. cbn in Hg. rewrite Hx in Hg. injection Hg as <-.
    unfold gen_of in Et. rewrite Hx in Et. by apply (taken_gone F e name r rv pod).
  - intros [held h]. eapply fhoare_pre with (A2 := λ _, True); [done|].
    assert (Hk : keep (match h with
      | Some h => _ ← pmodify (cancel_h h); lost pod name
      | None => mret tt : P unit
      end)) by (destruct h; [unfold lost|]; fkeep_tac).
    destruct h as [h|]; [by apply Hk, eternal_pure|].
    apply fhoare_skip; [apply eternal_pure|apply keep_keeps, fkeep_Now|]. intros now.
    apply fhoare_skip; [apply eternal_pure|apply keep_keeps; fkeep_tac|]. intros _.
    destruct (_ && _); [|by apply fhoare_ret]. unfold sect_go.
    eapply fhoare_post; [|apply (fhoare_act _ (λ _, True) _ _ (λ _ _, True)); [apply eternal_pure|]]; [done|].
    intros a F b F' Hok _ [= <- <-]. split; [by apply quiet_fine, quiet_same|]. split; [|done]. constructor; [by split|constructor].
Qed.
Lemma observeDelete_ok pod name e : ev_name e = name → ev_new e = None →
  hoare (RInformer pod) (λ F, e ∈ f_watch F) (observeDelete pod name) (λ _ _, True).
Proof.
  intros En Ee. assert (Hs : eternal (λ F, e ∈ f_watch F)) by apply eternal_told.
  unfold observeDelete. eapply fhoare_bind with (M := λ _ F, e ∈ f_watch F ∧ True).
  - apply fhoare_sect; [done|]. intros a F Hok He. split; [|done]. apply quiet_fine; [done|]. apply quiet_drop; [done|].
    intros g _. right. intros Hu. by destruct (Hu e He En).
  - intros h. eapply fhoare_pre with (A2 := λ _, True); [done|].
    apply fhoare_skip; [apply eternal_pure|apply keep_keeps; fkeep_tac|]. intros _. apply (fkeep_emit _ _ _ (eternal_pure _)).
Qed.
Lemma informer_ok pod : hoare (RInformer pod) (λ _, True) (informer opts pod)
  (λ r F, match r with Some k' => pre k' F | None => True end).
Proof.
  unfold informer. eapply fhoare_bind; [apply fhoare_next, eternal_pure|]. intros e.
  apply fhoare_bind with (M := λ _ _, True); [|intros _; by apply fhoare_ret].
  apply fhoare_pre with (A2 := λ F, e ∈ f_watch F); [by intros F _ [_ ?]|].
  destruct e as [n [r rv]|n [o rvo] [r rv]|n x].
  - by apply (observe_ok pod None n r rv).
  - by apply (observe_ok pod (Some o) n r rv).
  - by apply (observeDelete_ok pod n (KubeFleet.Deleted n x)).
Qed.

(** ** The janitor and the administrator *)

Lemma room_sweep_each_ok pod xs now A1 : eternal A1 →
  hoare (RJanitor pod) (λ F, A1 F ∧ Forall (listed (λ _, true) F) xs) (sweep_each opts xs now) (λ _, A1).
Proof.
  intros Hs. induction xs as [|[n [r rv]] xs IH]; cbn [sweep_each]; [apply fhoare_ret; tauto|].
  assert (Hskip : hoare (RJanitor pod) (λ F, A1 F ∧ Forall (listed (λ _, true) F) ((n, (r, rv)) :: xs)) (sweep_each opts xs now) (λ _, A1)).
  { eapply fhoare_pre; [|apply IH]. intros F _ [? Hl%Forall_cons]. tauto. }
  destruct (sp_dynamic (ro_spec r)) eqn:Ed; [|done]. cbn [negb].
  apply fhoare_skip; [by apply eternal_rest|apply keep_keeps, fkeep_Now|]. intros judged.
  destruct (stale _ _ _) eqn:Est; cbn [negb]; [|done].
  eapply fhoare_pre with (A2 := λ F, (A1 F ∧ Forall (listed (λ _, true) F) xs) ∧ knows n r rv F).
  { intros F _ [? [[Hp Hk] ?]%Forall_cons]. tauto. }
  eapply fhoare_bind with (M := λ _ F, A1 F ∧ Forall (listed (λ _, true) F) xs); [|intros _; apply IH].
  destruct (st_EmptySince _) as [t|] eqn:Ee.
  - destruct (_ <=? _) eqn:El; [apply hoare_forget; [by apply eternal_rest|apply fkeeps_ret]|].
    apply fhoare_api_Delete; [by apply eternal_rest|]. intros gens. apply (RStepSweep gens pod n r judged now t); [done..|lia].
  - apply hoare_last_Update; [by apply eternal_rest|]. intros gens. by apply (RStepStamp gens pod n r judged).
Qed.
Lemma room_JanitorSweep_ok pod : keeps (RJanitor pod) (JanitorSweep opts pod).
Proof.
  intros A1 Hs. unfold JanitorSweep. apply fhoare_skip; [done|apply keep_keeps, fkeep_Now|]. intros now.
  eapply fhoare_bind with (M := λ xs F, A1 F ∧ Forall (listed (λ _, true) F) xs); [|intros xs; by apply room_sweep_each_ok].
  apply fhoare_sect; [done|]. intros a F Hok _. split; [by apply quiet_fine, quiet_same|]. by apply (cached_listed pod).
Qed.
Lemma refresh_ok pod code spec : keep (refresh pod code spec : P unit).
Proof. unfold refresh. fkeep_tac. Qed.
Lemma admin_apply_ok code spec : keeps (RApply code spec) (admin_apply code spec).
Proof.
  unfold admin_apply. apply keeps_Get; [| |apply fkeeps_ret].
  - intros x rv A1 Hs. eapply fhoare_bind; [apply hoare_last_Update; [done|]; intros gens; apply RStepApply|].
    intros r. by apply fkeeps_ret.
  - intros []; try apply fkeeps_ret. apply fkeeps_bind; [|intros r; apply fkeeps_ret]. intros A1 Hs.
    eapply fhoare_post; [|apply fhoare_Create; [done|]; intros gens; apply RStepApplyNew]. by intros r F _ [? _].
Qed.
Lemma admin_remove_ok code : keeps (RRemove code) (api_DeleteAny code : P (outcome fleet_error unit)).
Proof.
  intros A1 Hs. unfold api_DeleteAny.
  eapply fhoare_post; [|apply (fhoare_write _ A1 (present code) (Del code)); [done|]]; [by intros r F _ [? _]|].
  intros F _ _ E. destruct (present_obj F code E) as [l El]. cbn [commit_name commit_obj]. rewrite El. apply RStepRemove.
Qed.

(** ** The code of the goroutines *)

Notation goes := (λ (r : option rgo) F, match r with Some k' => pre k' F | None => True end).
Lemma hoare_needs k (X : Prop) (p : P (option rgo)) Q : needs k = X → (X → hoare k (λ _, True) p Q) → hoare k (pre k) p Q.
Proof.
  intros E Hp. eapply fhoare_pre with (A2 := λ F, True ∧ X); [intros F _ [? _]; split; [done|by rewrite <- E]|].
  by apply fhoare_pure.
Qed.
Theorem room_code_ok k : hoare k (pre k) (code opts unicode_lower k) goes.
Proof.
  destruct k; [apply room_renewLoop_ok| | | | | | | | | | | | |]; (eapply hoare_needs; [reflexivity|]; intros Hn; cbn [RoomFleetOps.code]);
    try apply fkeeps_end.
  - by apply room_Reserve_ok.
  - apply RoomEnded_ok.
  - apply Unreserve_ok.
  - apply RoomEmpty_ok.
  - apply AttachmentsChanged_ok.
  - apply fhoare_skip; [apply eternal_pure|by apply adopt_ok|]. intros r. apply fkeeps_end, keep_keeps, fkeep_emit.
  - by apply room_Release_ok; left.
  - apply room_ReleaseAll_ok.
  - apply room_JanitorSweep_ok.
  - apply informer_ok.
  - apply keep_keeps, refresh_ok.
  - apply admin_apply_ok.
  - apply admin_remove_ok.
Qed.
End Code.
