(* ===== verification/RoomFleetSpec.v ===== *)
(** internal/roomcluster: what the Stores of a fleet promise, over every interleaving
    of their goroutines, of administrators, and every answer of the API server. *)
From S2P Require Export RoomFleetCode.
Import Store.
#[local] Open Scope Z_scope.

Section Spec.
Context {St : Type} {api : ObjApi Room St} {laws : ObjApiLaws Room St} {opts : Options} {lower : UnicodeLower}.
Notation Fleet := (RoomFleet St).
Implicit Types F : Fleet.
Notation code := (code opts unicode_lower).
Notation run := (run code).
Notation fleet_after := (fleet_after code).


(** After any run, of a Room that was never deleted: a pod that homes it at a
    generation is the only one that does at that generation; the Room is at that generation or a
    later one; at that one, its holder is that pod or none. *)
Theorem one_home_per_generation l F p room g : fleet_picks l → fleet0 F →
  let F' := fleet_after l F in
  undeleted room F' → held_gen p room F' = Some g →
  (∀ q, held_gen q room F' = Some g → q = p) ∧
  ∃ x, obj_at room F' = Some x ∧ g ≤ room_gen x ∧ (g = room_gen x → room_holder x = [] ∨ room_holder x = p).
Proof. exact (one_holder code room_code_ok l F p room g). Qed.

(** the pod's own operations that end or renew its hold *)
Definition own_operation (k : rgo) (pod room : bytes) : Prop :=
  match k with
  | RReserve p c _ => p = pod ∧ c = room
  | RRoomEnded p c | RUnreserve p c | RAdopt p c _ | RRelease p c => p = pod ∧ NormalizeCode c = Some room
  | RReleaseAll p => p = pod
  | _ => False
  end.
(** C15. A pod keeps the Room it homes: however late and out of date what its informer
    shows, a move that ends its hold is of an operation of its own on that Room, or the Room was
    deleted, or it is at a later generation by then, or released at that one. *)
Theorem home_is_kept l F i a k pod room g : fleet_picks l → fleet0 F → fst <$> fst (run l F) !! i = Some k →
  let F1 := fleet_after l F in
  let F2 := fleet_after (l ++ [Move i a]) F in
  held_gen pod room F1 = Some g →
  held_gen pod room F2 = Some g ∨ own_operation k pod room ∨ ¬ undeleted room F2 ∨
  ∃ x, obj_at room F2 = Some x ∧ (g < room_gen x ∨ g = room_gen x ∧ room_holder x = []).
Proof.
  intros Hl H0 Hk F1 F2 Hg. destruct (hold_kept code room_code_ok l F i a k pod room g Hl H0 Hk Hg) as [H|[H|H]]; [by left|right..].
  - left. by destruct k.
  - right. fold F2 in H. destruct (decide (Forall (λ e, ev_name e = room → ev_new e ≠ None) (f_watch F2))) as [Hu|Hu].
    + right. apply H. intros e He. rewrite Forall_forall in Hu. by apply Hu.
    + left. intros Hu'. apply Hu, Forall_forall. intros e He. by apply Hu'.
Qed.

(** After any run, what [Known] and [Resolve] of a pod answer is what a read of the
    API server would have answered at one moment of that run, the same for every code. *)
Theorem resolve_was_true l F pod : fleet_picks l → fleet0 F →
  let c := f_pods (fleet_after l F) pod in
  ∃ l1 l2, l = l1 ++ l2 ∧ ∀ text norm now, NormalizeCode text = Some norm →
    Resolve opts unicode_lower c text now = (λ x, homeOf opts x now) <$> obj_at norm (fleet_after l1 F) ∧
    (Known unicode_lower c text = true ↔ ∃ x, obj_at norm (fleet_after l1 F) = Some x).
Proof.
  intros Hl H0 c. destruct (cache_was_true code room_code_ok l F pod Hl H0) as (l1 & l2 & El & _ & Hcache).
  fold c in Hcache. exists l1, l2. split; [done|]. intros text norm now Hn. unfold Resolve, Known, cached, obj_at.
  rewrite bool_decide_eq_true, Hn. cbn. rewrite Hcache. destruct (api_get _ _) as [[x rv]|]; cbn; (split; [done|]); split; try by eauto; by intros [? [=]].
Qed.

(** ** An adoption that nothing disturbs *)

Notation fine_at now secret := (MkCAns Fine now secret).
(** what the registry is given: the Room as the claim has left it *)
Definition handed (pod norm secret : bytes) (voiceOnly : bool) (x : Room) : room_event :=
  if sp_dynamic (ro_spec x) then Adopted pod (cr_of norm x)
  else Upserted pod (with_atts (st_Atts (ro_status x)) voiceOnly
         (def_of norm (ro_spec x) (match sp_AttachSecretRef (ro_spec x) with Some _ => secret | None => [] end))).
Lemma alone_get a n F : a_fault a = Fine → alone a (get n) F =
  Some (match api_get (f_api F) n with Some x => Ok x | None => Err ErrNotFound end, F).
Proof. intros Ha. unfold get. rewrite alone_bind, alone_Get by done. by destruct (api_get _ _). Qed.
Lemma alone_staticDef now secret norm spec F : alone (fine_at now secret) (staticDef norm spec) F =
  Some (Ok (def_of norm spec (if sp_dynamic spec then [] else match sp_AttachSecretRef spec with Some _ => secret | None => [] end)), F).
Proof. unfold staticDef. destruct (sp_AttachSecretRef spec) as [ref|]; destruct (sp_dynamic spec); done. Qed.
Lemma room_alone_startRenew a pod room gen F : alone a (startRenew pod room gen) F = Some (tt, fresh_handle pod room gen F).
Proof. done. Qed.
Lemma alone_Claim now secret pod norm force x F : NormalizeCode norm = Some norm → obj_at norm F = Some x →
  ho_Live (homeOf opts x now) && negb (bool_decide (ho_Holder (homeOf opts x now) = pod)) && negb force = false →
  alone (fine_at now secret) (Claim opts unicode_lower pod norm force) F =
  Some (Ok (room_gen x + 1), fresh_handle pod norm (room_gen x + 1) (land (Put norm (claimed_room opts pod norm (room_gen x + 1) now x)) F)).
Proof.
  intros Hn Hx Hl. unfold Claim. rewrite Hn. unfold obj_at in Hx. destruct (api_get (f_api F) norm) as [[x' rv]|] eqn:E; [|done].
  injection Hx as ->. unfold claimRetries. cbn [claim_loop].
  rewrite alone_bind, alone_get, E by done. rewrite alone_bind, alone_Now. cbn [a_now]. cbv zeta.
  destruct (homeOf_gen x now) as [Eg _]. rewrite Eg, Hl. rewrite alone_bind, alone_Now, alone_bind, (alone_Update (fine_at now secret) eq_refl norm x) by done.
  rewrite alone_bind, room_alone_startRenew. done.
Qed.
(** C16. An adoption that nothing disturbs ends and answers from the Room as it is: not
    there, or homed by another pod that is live, it is refused and nothing changes; otherwise the pod
    homes it at the next generation, and its registry is given the Room: its spec, its
    attachments, and, as the home it was taken from, the pod itself. *)
Theorem adopt_decides pod text voiceOnly now secret F : ∀ norm, NormalizeCode text = Some norm →
  ∃ F' r, alone (fine_at now secret) (adopt opts unicode_lower pod text voiceOnly) F = Some (r, F') ∧
  match obj_at norm F with
  | None => r = Err ErrNotFound ∧ F' = F
  | Some x =>
      if ho_Live (homeOf opts x now) && negb (bool_decide (room_holder x = pod)) then r = Err ErrHeldElsewhere ∧ F' = F
      else r = Ok tt ∧ held_gen pod norm F' = Some (room_gen x + 1) ∧
        f_out F' = f_out F ++ [handed pod norm secret voiceOnly (claimed_room opts pod norm (room_gen x + 1) now x)] ∧
        cr_LeaseHolder (cr_of norm (claimed_room opts pod norm (room_gen x + 1) now x)) = Some pod ∧
        obj_at norm F' = Some (claimed_room opts pod norm (room_gen x + 1) now x) ∧ ∀ n, n ≠ norm → obj_at n F' = obj_at n F
  end.
Proof.
  intros norm Hn. pose proof (NormalizeCode_norm text norm Hn) as Hnn. unfold adopt. rewrite Hn, alone_bind, alone_get by done.
  unfold obj_at at 1. destruct (api_get (f_api F) norm) as [[x rv]|] eqn:E; cbn [fmap option_fmap option_map fst]; [|by eexists _, _].
  rewrite alone_bind, alone_Now. cbn [a_now]. cbv zeta. destruct (homeOf_gen x now) as [_ Eh]. rewrite Eh.
  destruct (ho_Live _ && negb (bool_decide _)) eqn:El; [by eexists _, _|].
  rewrite alone_bind, alone_staticDef, alone_bind, (alone_Claim now secret pod norm _ x);
    [|done|unfold obj_at; by rewrite E|by rewrite Eh, El].
  rewrite alone_bind, alone_get by done.
  destruct (claimed pod norm (claimed_room opts pod norm (room_gen x + 1) now x) (room_gen x + 1) F) as (H1 & H2 & H3).
  set (y := claimed_room _ _ _ _ _ _) in *. set (F1 := fresh_handle _ _ _ _) in *.
  assert (H2' : fst <$> api_get (f_api F1) norm = Some y) by exact H2. destruct (api_get (f_api F1) norm) as [[y' rv']|] eqn:E1; [|done]. injection H2' as ->.
  assert (Es : ro_spec y = ro_spec x) by done. rewrite Es. unfold handed. rewrite Es.
  assert (Eo : f_out F1 = f_out F) by (unfold F1, fresh_handle; by destruct (held_at _ _ _)).
  assert (Eh' : cr_LeaseHolder (cr_of norm y) = Some pod) by (unfold y, claimed_room; cbn; by destruct (st_CreatedAt _), (sp_dynamic _)).
  destruct (sp_dynamic (ro_spec x)); eexists _, _; (split; [done|]); cbn [emit_ f_out]; rewrite Eo;
    (split; [done|split; [exact H1|split; [done|split; [done|split; [unfold obj_at; cbn [emit_ f_api]; by rewrite E1|exact H3]]]]]).
Qed.
End Spec.
