(* ===== verification/RoomFleetSamples.v ===== *)
(** internal/roomcluster: runs of a small fleet of Rooms, and what the Store does in
    three races that its comments rule out. *)
From S2P Require Export RoomFleetSpec.
Import Store.
#[local] Open Scope Z_scope.

(** ** A fleet *)

Definition sample_rooms : Options := MkROptions (λ c, c) (λ p, p) 0 (60 * 10 ^ 9) (15 * 10 ^ 9) (600 * 10 ^ 9).
#[local] Existing Instance sample_rooms.
#[local] Instance sample_lower : UnicodeLower := λ s, s.
Notation sample_code := (RoomFleetOps.code sample_rooms unicode_lower).
Notation after l F := (fleet_after sample_code l F).
Definition no_rooms : RoomFleet (Histories Room) := MkFleet ∅ [] (λ _, MkPod ∅ 0 ∅ tt) ∅ 0 [].
Lemma no_rooms0 : fleet0 no_rooms.
Proof. split_and!; [by intros n|done..]. Qed.
Definition sample_spec (dynamic : bool) : RoomSpec := MkSpec dynamic [] (str "lan party"%string) None 4 None [] [] 8.
Definition sample_room : Room := MkRoom (sample_spec true) bare_status.
Notation podA := (str "a"%string).
Notation podB := (str "b"%string).
Notation podC := (str "c"%string).
Notation lan := (str "lan-party"%string).
Notation second := (10 ^ 9)%Z.
(** [n] moves of goroutine [i] at a time *)
Definition moves (i n : nat) (now : Z) : list (pick (Ans:=cans) (K:=rgo)) := repeat (Move i (MkCAns Fine now [])) n.
Definition starts (k : rgo) : list (pick (Ans:=cans) (K:=rgo)) := [Call k].
Ltac picks_ok := unfold fleet_picks, starts, moves, fine_move; cbn [app repeat]; repeat (first [by apply Forall_nil | apply Forall_cons; split; [done|] ]).

(** goroutine 0: a reserves the code, its first renewal is goroutine 1 *)
Notation reserved := (starts (RReserve podA lan sample_room) ++ moves 0 6 second).
Lemma none_deleted (n : bytes) (F : RoomFleet (Histories Room)) : forallb (λ e, bool_decide (is_Some (ev_new e))) (f_watch F) = true → undeleted n F.
Proof. rewrite forallb_forall. intros E e He%list_elem_of_In _ Hn. apply E in He. by rewrite Hn in He. Qed.

(** a is gone, without a release; b adopts *)
Notation b_adopts := (reserved ++ starts (RAdopt podB lan false) ++ moves 1 11 (20 * second)).

(** ** Witnesses *)

Lemma one_home_per_generation_witness :
  held_gen podA lan (after b_adopts no_rooms) = Some 1 ∧ held_gen podB lan (after b_adopts no_rooms) = Some 2 ∧
  (∀ q, held_gen q lan (after b_adopts no_rooms) = Some 2 → q = podB) ∧
  ∃ x, obj_at lan (after b_adopts no_rooms) = Some x ∧ 2 ≤ room_gen x ∧ (2 = room_gen x → room_holder x = [] ∨ room_holder x = podB).
Proof.
  split; [vm_compute; reflexivity|]. split; [vm_compute; reflexivity|].
  apply (one_home_per_generation (opts:=sample_rooms) (lower:=sample_lower) b_adopts no_rooms podB lan 2).
  - picks_ok.
  - apply no_rooms0.
  - apply none_deleted. vm_compute. reflexivity.
  - vm_compute. reflexivity.
Defined.
(** b's informer hears of the creation, when the Room had no holder *)
Notation b_hears := (b_adopts ++ starts (RInformer podB) ++ moves 2 2 (20 * second)).
Lemma home_is_kept_witness :
  fst <$> fst (run sample_code b_hears no_rooms) !! 2%nat = Some (RInformer podB) ∧
  held_gen podB lan (after (b_hears ++ [Move 2 (MkCAns Fine (21 * second) [])]) no_rooms) = Some 2.
Proof.
  split; [vm_compute; reflexivity|].
  destruct (home_is_kept (opts:=sample_rooms) (lower:=sample_lower) b_hears no_rooms 2 (MkCAns Fine (21 * second) []) (RInformer podB)
    podB lan 2 ltac:(picks_ok) no_rooms0 ltac:(vm_compute; reflexivity) ltac:(vm_compute; reflexivity)) as [H|[[]|[H|(x & Hx & Hg)]]].
  - exact H.
  - destruct H. apply none_deleted. vm_compute. reflexivity.
  - assert (E : room_gen <$> obj_at lan (after (b_hears ++ [Move 2 (MkCAns Fine (21 * second) [])]) no_rooms) = Some 2)
      by (vm_compute; reflexivity).
    assert (E' : room_holder <$> obj_at lan (after (b_hears ++ [Move 2 (MkCAns Fine (21 * second) [])]) no_rooms) = Some podB)
      by (vm_compute; reflexivity).
    rewrite Hx in E, E'. injection E as E. injection E' as E'. destruct Hg as [Hg|[_ Hg]]; [lia|]. rewrite Hg in E'. discriminate.
Defined.
Lemma resolve_was_true_witness :
  Resolve sample_rooms sample_lower (f_pods (after b_hears no_rooms) podB) lan (20 * second) = Some (MkHome true [] [] 0 false) ∧
  ∃ l1 l2, b_hears = l1 ++ l2 ∧ ∀ text norm now, NormalizeCode text = Some norm →
    Resolve sample_rooms sample_lower (f_pods (after b_hears no_rooms) podB) text now =
      (λ x, homeOf sample_rooms x now) <$> obj_at norm (after l1 no_rooms) ∧
    (Known sample_lower (f_pods (after b_hears no_rooms) podB) text = true ↔ ∃ x, obj_at norm (after l1 no_rooms) = Some x).
Proof.
  split; [vm_compute; reflexivity|].
  apply (resolve_was_true (opts:=sample_rooms) (lower:=sample_lower) b_hears no_rooms podB).
  - picks_ok.
  - apply no_rooms0.
Defined.
(** b adopts what a no longer renews *)
Lemma adopt_decides_witness :
  ∃ F', alone (MkCAns Fine (20 * second) []) (adopt sample_rooms sample_lower podB lan false) (after reserved no_rooms) = Some (Ok tt, F') ∧
    held_gen podB lan F' = Some 2.
Proof.
  destruct (adopt_decides (opts:=sample_rooms) (lower:=sample_lower) podB lan false (20 * second) [] (after reserved no_rooms) lan
    ltac:(vm_compute; reflexivity)) as (F' & r & E & H). exists F'.
  assert (Hx : obj_at lan (after reserved no_rooms) = Some (reserved_room sample_rooms podA lan second sample_room)) by (vm_compute; reflexivity).
  rewrite Hx in H.
  change (ho_Live (homeOf sample_rooms (reserved_room sample_rooms podA lan second sample_room) (20 * second))) with false in H.
  destruct H as (-> & Hg & _). split; [exact E|exact Hg].
Defined.

(** ** Three races *)

(** b reads the stale lease of the dead a; c adopts the Room meanwhile, and is live; b's
    claim, forced by what it has read, takes the Room from c. [Adopt]: "force only when
    the current one is stale, never against a live home". *)
Notation both_found := (reserved ++ starts (RAdopt podB lan false) ++ moves 1 2 (20 * second) ++
  starts (RAdopt podC lan false) ++ moves 2 11 (20 * second)).
Example adopt_takes_live_home :
  let F1 := after both_found no_rooms in
  let F2 := after (both_found ++ moves 1 9 (21 * second)) no_rooms in
  (λ x, homeOf sample_rooms x (21 * second)) <$> obj_at lan F1 = Some (MkHome true podC podC 2 true) ∧
  last (f_out F1) = Some (AdoptDone podC lan (Ok tt)) ∧
  (λ x, homeOf sample_rooms x (21 * second)) <$> obj_at lan F2 = Some (MkHome true podB podB 3 true) ∧
  last (f_out F2) = Some (AdoptDone podB lan (Ok tt)).
Proof. vm_compute. repeat split. Qed.

(** a has created the Room, its status write is still to come; b adopts it. a's write is
    refused, for b's came first, and what a does then ends the Room b homes. *)
Notation b_first := (starts (RReserve podA lan sample_room) ++ moves 0 3 second ++ starts (RAdopt podB lan false) ++ moves 1 11 second).
Example reserve_cleanup_kills_live_room :
  let F1 := after b_first no_rooms in
  let F2 := after (b_first ++ moves 0 2 second) no_rooms in
  (λ x, homeOf sample_rooms x second) <$> obj_at lan F1 = Some (MkHome true podB podB 1 true) ∧
  last (f_out F1) = Some (AdoptDone podB lan (Ok tt)) ∧
  obj_at lan F2 = None ∧ held_gen podB lan F2 = Some 1.
Proof. vm_compute. repeat split. Qed.

(** the Room b is given to rebuild names b as the pod it was homed by: [adopt] reads it
    again after its own claim *)
Example adoption_names_itself :
  omap (M:=list) (λ e, match e with Adopted pod cr => Some (pod, cr_LeaseHolder cr) | _ => None end) (f_out (after b_adopts no_rooms)) =
  [(podB, Some podB)].
Proof. vm_compute. reflexivity. Qed.
